(* ===== verification/_CoqProject ===== *)
-Q . S2P
Prelude.v
EventModel.v
WireProtocol.v
TraceContext.v
StreamCodec.v
SerialCodec.v
IngestProtocol.v
Auth.v
ByteStream.v
IngestSession.v
Producer.v
EventLogPort.v
SegmentFile.v
SegmentFs.v
SegmentLog.v
SegmentLogSafety.v
SegmentLogLayout.v
SegmentLogOpen.v
SegmentLogRecovery.v
SegmentLate.v
SegmentStable.v
SegmentSubscription.v
SegmentFollow.v
MemLog.v
SegmentPort.v
SequenceGate.v
Fixtures.v
Conformance.v
CrossingProcessor.v
IngestService.v
IngestTypes.v
NodeRecovery.v
IngestConcurrency.v
Metrics.v
SocketBind.v
NodeListener.v
NodeConfig.v
NodeSupervisor.v
Rustls.v
TlsServer.v
TlsClient.v
Api.v
Delivery.v
Contracts.v
Builders.v
DetectorAdapter.v
Simulator.v
RustText.v
NodeProcess.v
DevCerts.v
SimulatorMain.v
