(* ===== verification/Prelude.v ===== *)
(** * Verification of the Open Timekeeping core

    This library models the event path of the Open Timekeeping core (the Rust
    workspace under [src/]) and proves it correct: a producer's event is
    framed, crosses a stream, is authenticated and checked, passes the
    sequence gate, is grouped into crossings, and is stored in an append-only
    log from which it is read back, across crashes and restarts.

    ** The parts and how they interact

    A producer ([otk-sdk]) encodes an [OtkEvent] ([event-model]) as CBOR into
    an [OtkEnvelope] ([otk-protocol]) and frames it ([frame-codec]).  The
    node's adapter decodes the frames, runs the handshake and the
    post-handshake processor ([ingest-protocol]), and hands each event to the
    ingest service ([timing-core]), which asks the sequence gate whether it is
    new, the crossing processor which crossings it completes, appends the event
    and its crossings as one batch through the [EventLog] port, and only then
    commits gate and processor.  The log is the in-memory reference
    ([conformance]) or the segment files on disk
    ([adapter-event-log-segment]).  At start-up the gate is rebuilt from the
    log.

    Around this path, the node ([timing-node]) accepts connections on its
    listeners, admits producers and API clients by token lists that a
    configuration watcher rotates, counts what happens, serves the log over
    HTTP, and is supervised; a simulated detector ([producer-simulated]) is a
    producer; TLS guards the TCP connections of both, with certificates that
    [otk-devcerts] can make.

    ** Files

    - [Prelude] (this file): results and panics with their bind notations,
      machine integers, byte encodings, UTF-8, the [Cbor] class, and the
      lemmas, tactics and hint databases the other files share.
    - [EventModel]: [event-model/src] (identifiers, detections, crossings,
      health and metadata events).
    - [WireProtocol]: [otk-protocol/src]: envelope and messages; the W3C
      [traceparent] parser and formatter, with the parser equal to the W3C
      grammar.
    - [TraceContext]: [current_traceparent] of [otk-sdk] and
      [timing-node/src/trace_context.rs]: a span context survives the wire.
    - [StreamCodec], [SerialCodec]: [frame-codec/src/stream.rs], [serial.rs]:
      the incremental decoders against a grammar of frames; round trips under
      any chunking, resynchronisation, and the errors the CRC detects.
    - [IngestProtocol]: [ingest-protocol/src]: who gets a session, what is
      answered, and which envelopes act.
    - [Auth]: [timing-node/src/auth.rs] and the bearer-token middleware of
      [api.rs]: who is admitted, after any rotations of the lists.
    - [ByteStream]: the interface of a connection (a class with its laws) and
      a scripted instance.
    - [IngestSession]: [session.rs] of [adapter-ingest-tcp] and
      [adapter-ingest-unix-socket]: the handshake and the session of one
      connected producer; what a connection gives for every byte sequence, and
      that no peer and no failure panics it.
    - [Producer]: [otk-sdk/src/producer]: configuration, handshake, framing
      and the send operations of the other end.
    - [EventLogPort]: [timing-core/src/ports/outbound/event_log.rs]: the
      interface [EventLog] (a class) and its documented contract
      [EventLogLaws], a simulation by the history of all entries and the
      number evicted.  [log_rep] says of a log whether a failed append is sure
      to have stored nothing; if not, it may have stored the whole batch, which
      is what the segment log does when a roll fails.
    - [SegmentFile]: [adapter-event-log-segment/src/segment.rs]: header,
      records, index, and the recovery of a segment after a crash.
    - [SegmentFs]: the directory of the segment log, as a monad: a map from
      names to bytes, the file calls of [log.rs] and [segment.rs], and a
      schedule that says which of them succeed, fail after some bytes, are cut
      off by the death of the process, or, for a write, fail after they were
      reported as done; what is not yet on stable storage and what a power
      failure can take; its weakest preconditions, in worlds where no write
      fails late ([prompt]).
    - [SegmentLog]: [adapter-event-log-segment/src/log.rs] and [config.rs]:
      open with recovery, append, roll, retention, watermark, and reads.
    - [SegmentLogSafety]: the invariant of the log under every schedule; an
      append is all or nothing, reads and offsets are those of the history,
      and the duplicate that a failed roll leaves.
    - [SegmentLogLayout], [SegmentLogOpen], [SegmentLogRecovery]: the
      directories an append can leave, what [open] makes of them (and what an
      interrupted [open] leaves), and crash recovery end to end: a failure or
      a kill at any I/O call loses nothing that was acknowledged and at most
      adds a prefix of the unfinished batch; with the two runs in which failed
      truncations break this later on.
    - [SegmentLate]: the writes that fail late: an append is acknowledged
      although nothing is stored, and a log is lost with its header.
    - [SegmentStable]: a loss of power: acknowledged records stay on stable
      storage under every schedule, and an append without failures leaves
      nothing outstanding; with the run in which a kill while creating a
      segment breaks this.
    - [SegmentSubscription], [SegmentFollow]:
      [adapter-event-log-segment/src/subscription.rs]: one call of
      [next_entry] on any directory an append leaves, and a subscription that
      follows the log across appends, rolls and evictions.
    - [MemLog]: [conformance/src/mem_log.rs]: an instance of the port with its
      laws, and the live subscription as a step relation.
    - [SegmentPort]: the [EventLog] instance of [log.rs] that the node uses,
      with its laws: a failed append stores nothing, unless the roll after its
      commit failed; without failures and without a retention limit it answers
      like the in-memory log.
    - [SequenceGate]: [timing-core/src/domain/sequence_gate.rs]: at-most-once
      per producer and detector, and reconstruction from the log.
    - [Fixtures]: [conformance-fixtures/src]: the detections, events, envelopes
      and streams of the tests, and what they are good for.
    - [Conformance]: [conformance/tests/event_log_contract.rs] and
      [timing-core/src/testing.rs]: the event log suite, which every backend
      passes, and the mock, which is the in-memory log without retention.
    - [CrossingProcessor]: [crossing.rs], [processor_config.rs],
      [crossing_processor.rs] of [timing-core/src/domain]: the grouping
      window, the peak, and conservation of detections.
    - [IngestService]: [timing-core/src/services/event_ingest.rs],
      [ports/inbound/query.rs], [ports/outbound/metrics.rs] and the session
      loop of [timing-node/src/ingest.rs], proved against [EventLogLaws]: every
      branch of [append_event], at-most-once across restarts and evictions,
      lossless sessions, complete paging; each with what is left of it over a
      log that can fail after its commit.
    - [IngestTypes]: what the service stores is well-formed: ranges, and
      crossings backed by stored detections unless a producer sent them.
    - [NodeRecovery]: the service over the segment log, started, served,
      killed and started again: nothing acknowledged is lost, nothing is
      stored twice.
    - [IngestConcurrency]: the critical sections of [append_event] as a step
      relation, so that sessions interleave: what stays true under every
      interleaving, and the duplicate that does not.
    - [Metrics]: [timing-node/src/metrics.rs]: labelled counters and gauges
      under concurrent callers, their cap, and their text, read back by a
      parser of the exposition format.
    - [NodeListener]: [run_listener] and [ActiveSessionGuard] of
      [timing-node/src/ingest.rs] over [accept] of the two ports: the accept
      loop, its tasks and its drain as a step relation; the session gauge is
      exact for every run of all listeners.
    - [NodeConfig]: [timing-node/src/config.rs], [reload.rs]: the
      configuration and its hot reload.
    - [NodeSupervisor]: [timing-node/src/lib.rs], [main.rs]: building a node,
      the tasks it spawns, what the supervisor makes of their ends, the
      command line.
    - [NodeProcess]: [run_until_shutdown] running with its tasks as a step
      relation (listeners, watcher, API server, Ctrl-C, drain, deadline), and
      the program's exit code.
    - [Rustls]: the interface of [rustls] and [rustls-pemfile] (a class).
    - [TlsServer]: [tls.rs], [config.rs] and [port.rs] of
      [adapter-ingest-tcp]: the TLS material of a listener, binding, and
      [accept] with its two handshakes.
    - [TlsClient]: [otk-sdk/src/producer/transport.rs], [tls.rs]: when the SDK
      makes a TLS connection, and with what.
    - [RustText]: text functions of Rust's library: [trim], [split],
      [u32::from_str], [IpAddr::from_str].
    - [DevCerts]: [otk-devcerts/src/main.rs]: the command line, the bundle of
      certificates, and that both ends load it as printed.
    - [SimulatorMain]: [producer-simulated/src/main.rs].
    - [Api]: [timing-node/src/api.rs] and [subscribe_events] of the service:
      routing, access, the handlers and the event stream.
    - [Delivery]: the producer, the wire, the session and the service put
      together: what a producer sends is what the log receives.
    - [Contracts]: [otk-contracts/src]: the contracts of detector adapters and
      timebases as classes with laws, and the minimal implementations of
      [conformance/tests/contracts_dyn_safety.rs].
    - [Builders]: [otk-sdk/src/producer/builder.rs], and the stub of the query
      client, [otk-sdk/src/client].
    - [DetectorAdapter], [Simulator]: [producer-simulated/src]: the publishing
      loop over any adapter, and the simulator.
    - [SocketBind]: [port.rs] of the two ingest adapters: binding, with the
      removal of a stale socket while other processes act on its path.

    ** Conventions

    A definition carries the name of the Rust item it translates.  Unsigned
    integers are [N] with the behaviour at the bound of their width written
    out ([checked_add64], [saturating_sub], ...); the ranges a Rust type
    guarantees are the [wf_*] predicates.  A [Result] is [result].
    The arithmetic is that of a release build; where a debug build
    differs, it is a parameter ([overflow_checks] of the segment files).  A
    [String] is a sequence of bytes, and where code relies on UTF-8 it is a
    premise ([utf8_valid]).  A
    computation that can panic returns an [option] whose [None] is the panic,
    and totality theorems show when it cannot happen.  Mutexes give critical
    sections; shared state is passed explicitly.

    Loops run on fuel where they are not structural: [push_loop] of
    [StreamCodec] on [S (length buf)] (each turn consumes a header of four
    bytes), [recover_loop] of [SegmentFile] on [S (length file)] (each turn
    consumes a record of at least eight bytes), [task_run] of
    [IngestConcurrency] on 5, the number of critical sections.  The loops of
    [SegmentLog] are structural.  [next_loop] of [SegmentSubscription] needs
    two turns more than the history has entries (a turn delivers, waits, or
    moves to a later segment).  The loops that read a connection ([await_connect],
    [fill_pending], [next_event], [drain]) need more than the bytes that are
    still to come, since every turn consumes some; [read_all] of
    [IngestService] one request more than entries.  The theorems prove that
    this is enough.

    Premises that bound sizes say what they exclude: [sizes_ok] that file
    sizes fit in 64 bits, [index_fits] of [NodeRecovery] that the index of a
    segment that is taken over stays readable (a segment of the default size
    that was not left oversized has it), [honest] that no I/O call invents a
    missing file, and [prompt] that no write fails after its call has returned,
    which [tokio]'s files allow and the code does not prevent ([SegmentLate]).
    After a crash of the process what was written stays; after a loss of power
    ([power_loss]) a file keeps the bytes that were synced, and a name whose
    directory entry was not synced may be there or not.  The
    recovery of a segment header that was never synced is not covered: [open]
    may refuse such a file.

    Code outside [src/] is a parameter with its documented behaviour as a
    class of laws: the CBOR derives of [minicbor] ([Cbor], [CborLaws]), COBS
    ([Cobs], [CobsLaws]), CRC-32 ([Crc32], [Crc32Laws]), random UUIDs and the
    clock (functions of the number of draws), and OpenTelemetry's span
    context.  So are the operations of a connection
    ([ByteStream], [ByteStreamLaws]), the serialisation of an entry to JSON,
    the order in which a [HashMap] is iterated (a permutation), what the
    operating system answers to a bind, TLS and PEM ([Rustls]), and the making
    of certificates ([Rcgen], [BundleLaws]).  Each is instantiated by a concrete
    function in the witnesses.  Where several futures race ([select!], time-outs,
    aborts) the model is a relation or takes the choice as an argument.

    ** What the theorems found

    The ingest path.  Two concurrent calls for one detection can both store it
    ([IngestConcurrency.concurrent_duplicate_stored]).  An event decoded from
    the same read as a later bad frame is dropped
    ([IngestSession.decoded_event_dropped]), and the Unix session ends cleanly
    on a truncated frame ([IngestSession.unix_truncation_unreported]).  A
    connection in its handshake is dropped when another session ends
    ([NodeListener.reap_drops_handshake]).  A restarted simulator numbers its
    detections from zero and is dropped
    ([Simulator.restarted_simulator_dropped]); stopped, it goes on if it has
    no count ([Simulator.stopped_simulator_generates]).  A crossing can claim a finite
    uncertainty its detections do not have
    ([CrossingProcessor.unknown_uncertainty_becomes_span]), and a crossing that
    a producer sends is stored without any detection
    ([IngestTypes.service_well_typed]).

    The segment log.  An append is acknowledged whose write fails in the
    background ([SegmentLate.late_write_acknowledged]), and a header that is
    lost in this way makes the log unreadable
    ([SegmentLate.late_header_loses_log]).  A corrupt record can panic the recovery of a debug build
    ([SegmentFile.corrupt_length_panics]).  An append whose batch is stored but
    whose roll fails returns an error, and its retry stores the events a second
    time ([SegmentLogSafety.roll_failure_duplicates],
    [NodeRecovery.resent_after_failed_roll]).  When the truncation
    after a failed batch fails too, its records can come back after a restart
    ([SegmentLogRecovery.stale_record_resurrected]) or hide an acknowledged
    event from recovery ([SegmentLogRecovery.acknowledged_event_lost]).  A
    process killed while it creates a segment can leave one that its successor
    fills without syncing the directory, so that a power failure takes it
    ([SegmentStable.unlisted_segment_lost]).  A subscription can deliver an entry that is never stored
    ([SegmentFollow.uncommitted_entry_delivered]), and spins at a sentinel
    without an index ([SegmentFollow.sentinel_without_index_spins]).  The
    in-memory log answers a reader behind its end although everything is
    evicted ([MemLog.mem_log_refines]), and its boundary can be moved back
    ([MemLog.evicted_entry_returns]).

    The node.  A configuration watcher that cannot start stops the node
    ([NodeSupervisor.failed_watcher_stops_node]); a relative configuration
    path is never reloaded ([NodeConfig.relative_path_never_reloads]); most
    changes of a listener are not warned of
    ([NodeConfig.listener_change_unreported]); binding a Unix socket can
    remove a file another process put at its path
    ([SocketBind.bind_race_removes_file]).  An empty client CA is reported as
    an empty certificate chain ([TlsServer.client_ca_error_unreachable]).  A
    carriage return in an identifier makes the metrics text unreadable
    ([Metrics.carriage_return_unreadable]).  The
    certificate tool panics on a validity beyond the year 9999
    ([DevCerts.long_validity_panics]) and can print a server name that its
    certificate does not have ([DevCerts.printed_name_mismatch]), or that is no
    server name at all ([DevCerts.unusable_server_name]).

    ** Not modelled

    Sockets, the TLS protocol, certificates, the HTTP server, JSON, the wire
    form of server-sent events and the parsing of TOML are third-party code;
    their results are arguments where the modelled code uses them.  [tracing]
    output is left out.  The metrics text is that of one state: increments of existing
    series may run during a rendering, and a sample then shows the value
    before or after them.  The two counters of an accepted session are taken
    as one step.  Of the conformance suite the tests that subscribe and
    those of other contracts are not translated; what they check is proved of
    the components themselves.  A timebase has no implementation outside the
    tests. *)
From Stdlib Require Import ZArith NArith Lia Strings.Byte String Ascii.
From stdpp Require Import base gmap strings fin_maps option numbers pretty sorting list.

#[global] Set Default Goal Selector "!".

Declare Scope otk_scope.
Delimit Scope otk_scope with otk.

(** ** Results *)

(** Rust's [Result<A, E>]. *)
Inductive result (A E : Type) : Type :=
  | Ok (a : A)
  | Err (e : E).
Arguments Ok {A E} a.
Arguments Err {A E} e.

#[export] Instance result_eq_dec `{EqDecision A, EqDecision E} : EqDecision (result A E).
Proof. solve_decision. Defined.

#[export] Instance Ok_inj {A E} : Inj (=) (=) (@Ok A E).
Proof. congruence. Qed.

(** [map_err] and [is_ok] of [Result]. *)
Definition map_err {A E F} (f : E -> F) (r : result A E) : result A F :=
  match r with Ok a => Ok a | Err e => Err (f e) end.

Definition is_ok {A E} (r : result A E) : bool :=
  match r with Ok _ => true | Err _ => false end.

(** The [?] operator on a result. *)
Notation "'let?' x ':=' m 'in' k" :=
  (match m with Ok x => k | Err e => Err e end)
  (at level 10, x pattern, m at level 100, k at level 200) : otk_scope.

(** The same for a computation that may panic: [None] is a panic. *)
Notation "'let!' x ':=' m 'in' k" :=
  (match m with Some x => k | None => None end)
  (at level 10, x pattern, m at level 100, k at level 200) : otk_scope.

(** Both at once: a fallible step of a computation that may panic. *)
Notation "'let?!' x ':=' m 'in' k" :=
  (match m with
   | None => None
   | Some (Err e) => Some (Err e)
   | Some (Ok x) => k
   end)
  (at level 10, x pattern, m at level 100, k at level 200) : otk_scope.
Open Scope otk_scope.

(** ** Machine integers

    Unsigned integers are [N]; each operation that can leave the width is
    written with its own behaviour at the bound. *)
Definition u8_max : N := 255.
Definition u16_max : N := 65535.
Definition u32_max : N := 4294967295.
Definition u64_max : N := 18446744073709551615.
(** The node and its tools are built for 64-bit targets. *)
Definition usize_max : N := u64_max.
Definition i16_min : Z := (-32768)%Z.
Definition i16_max : Z := 32767%Z.

Definition saturating_sub (a b : N) : N := (a - b)%N.
Definition saturating_add64 (a b : N) : N := N.min u64_max (a + b).
Definition saturating_mul64 (a b : N) : N := N.min u64_max (a * b).
Definition checked_add64 (a b : N) : option N :=
  if (a + b <=? u64_max)%N then Some (a + b)%N else None.
Definition wrapping_add64 (a b : N) : N := ((a + b) mod (u64_max + 1))%N.

(** ** Bytes *)
Abbreviation bytes := (list byte).

#[export] Instance byte_eq_decision : EqDecision byte := Byte.byte_eq_dec.

Definition len {A} (l : list A) : N := N.of_nat (length l).

Definition byte_of_N (n : N) : byte :=
  match Byte.of_N (n mod 256) with Some b => b | None => x00 end.

(** [to_le_bytes] / [from_le_bytes] of a [k]-byte integer and the big-endian
    forms. *)
Fixpoint to_le_bytes (k : nat) (v : N) : bytes :=
  match k with
  | O => []
  | S k' => byte_of_N v :: to_le_bytes k' (v / 256)
  end.

Fixpoint from_le_bytes (bs : bytes) : N :=
  match bs with
  | [] => 0
  | b :: bs' => Byte.to_N b + 256 * from_le_bytes bs'
  end.

Definition to_be_bytes (k : nat) (v : N) : bytes := rev (to_le_bytes k v).
Definition from_be_bytes (bs : bytes) : N := from_le_bytes (rev bs).

(** [str::as_bytes]. *)
Definition str_bytes (s : string) : bytes := String.list_byte_of_string s.
Definition bytes_str (bs : bytes) : string := String.string_of_list_byte bs.

(** UTF-8 validity as [String::from_utf8] checks it (RFC 3629: no overlong
    forms, no surrogates, nothing above U+10FFFF). *)
Definition in_range (lo hi : N) (b : byte) : bool :=
  (lo <=? Byte.to_N b)%N && (Byte.to_N b <=? hi)%N.

Definition is_cont (b : byte) : bool := in_range 128 191 b.

Fixpoint utf8_valid (bs : bytes) : bool :=
  match bs with
  | [] => true
  | b0 :: r0 =>
      if in_range 0 127 b0 then utf8_valid r0 else
      match r0 with
      | [] => false
      | b1 :: r1 =>
          if in_range 194 223 b0 then is_cont b1 && utf8_valid r1 else
          match r1 with
          | [] => false
          | b2 :: r2 =>
              if in_range 224 224 b0 then in_range 160 191 b1 && is_cont b2 && utf8_valid r2
              else if in_range 225 236 b0 || in_range 238 239 b0 then
                is_cont b1 && is_cont b2 && utf8_valid r2
              else if in_range 237 237 b0 then in_range 128 159 b1 && is_cont b2 && utf8_valid r2
              else
              match r2 with
              | [] => false
              | b3 :: r3 =>
                  if in_range 240 240 b0 then
                    in_range 144 191 b1 && is_cont b2 && is_cont b3 && utf8_valid r3
                  else if in_range 241 243 b0 then
                    is_cont b1 && is_cont b2 && is_cont b3 && utf8_valid r3
                  else if in_range 244 244 b0 then
                    in_range 128 143 b1 && is_cont b2 && is_cont b3 && utf8_valid r3
                  else false
              end
          end
      end
  end.

(** ** CBOR

    [minicbor] is a third-party crate: encoding and decoding are the
    operations of a class.  [to_vec] may fail; a failure carries the displayed
    error text.  [CborLaws] is the documented round trip of the derives. *)
Class Cbor (A : Type) : Type := {
  cbor_to_vec : A -> result bytes string;
  cbor_decode : bytes -> result A string
}.

Class CborLaws (A : Type) {C : Cbor A} : Prop :=
  cbor_roundtrip : forall a bs, cbor_to_vec a = Ok bs -> cbor_decode bs = Ok a.

(** A concrete codec for the witnesses: a finite table of values and their
    encodings. *)
Section TableCodec.
Context {A : Type} `{EqDecision A}.

Fixpoint table_enc (t : list (A * bytes)) (a : A) : result bytes string :=
  match t with
  | [] => Err "unencodable"
  | (a', bs) :: t' => if decide (a = a') then Ok bs else table_enc t' a
  end.

Fixpoint table_dec (t : list (A * bytes)) (bs : bytes) : result A string :=
  match t with
  | [] => Err "malformed"
  | (a, bs') :: t' => if decide (bs = bs') then Ok a else table_dec t' bs
  end.

Definition table_cbor (t : list (A * bytes)) : Cbor A :=
  {| cbor_to_vec := table_enc t; cbor_decode := table_dec t |}.

Lemma table_enc_in t a bs : table_enc t a = Ok bs -> (a, bs) ∈ t.
Proof.
  induction t as [|[a' bs'] t IH]; simpl; [done|].
  case_decide; intros H1; simplify_eq; set_solver.
Qed.

Lemma table_cbor_laws t : NoDup (t.*2) -> @CborLaws A (table_cbor t).
Proof.
  intros Hnd a bs Hin%table_enc_in; simpl.
  induction t as [|[a' bs'] t IH]; [set_solver|]; simpl.
  apply NoDup_cons in Hnd as [Hni Hnd].
  apply elem_of_cons in Hin as [[= -> ->]|Hin]; [by case_decide|].
  case_decide as Hd; [subst|by apply IH].
  destruct Hni. apply list_elem_of_fmap. by exists (a, bs').
Qed.
End TableCodec.

(** ** Shared tactics and hints *)
Create HintDb otk discriminated.

(** Case analysis on every [match] of the goal or of a hypothesis, with the
    contradictory cases closed. *)
Ltac crush_matches :=
  repeat (case_match; simplify_eq/=; try done).

(** Prove the first hypothesis of the implication [H] and drop it. *)
Ltac discharge H tac :=
  lazymatch type of H with
  | ?P -> _ => let HP := fresh in assert (HP : P) by tac; specialize (H HP); clear HP
  end.

(** ** Lemmas on [len] *)
Lemma len_nil {A} : len (@nil A) = 0%N.
Proof. done. Qed.

Lemma len_cons {A} (x : A) l : len (x :: l) = (1 + len l)%N.
Proof. unfold len. simpl. lia. Qed.

Lemma len_app {A} (l k : list A) : len (l ++ k) = (len l + len k)%N.
Proof. unfold len. rewrite length_app. lia. Qed.

Lemma len_map {A B} (f : A -> B) (l : list A) : len (f <$> l) = len l.
Proof. unfold len. by rewrite length_fmap. Qed.

Lemma len_zero_nil {A} (l : list A) : len l = 0%N -> l = [].
Proof. destruct l; [done|]. rewrite len_cons. lia. Qed.

Create Rewrite HintDb len.
#[export] Hint Rewrite @len_nil @len_cons @len_app @len_map : len.
Ltac len_simpl := autorewrite with len in *; unfold len in *; simpl in *; try lia.

Lemma take_app_len {A} (l k : list A) n : n = length l -> take n (l ++ k) = l.
Proof. intros ->. apply take_app_length. Qed.

Lemma drop_app_len {A} (l k : list A) n : n = length l -> drop n (l ++ k) = k.
Proof. intros ->. apply drop_app_length. Qed.

Lemma list_len_ind {A} (P : list A -> Prop) :
  (forall l, (forall k, length k < length l -> P k) -> P l) -> forall l, P l.
Proof.
  intros H l. remember (length l) as n eqn:E. revert l E.
  induction n as [n IH] using lt_wf_ind. intros l ->. apply H. eauto.
Qed.

(** ** Lemmas on byte encodings *)
Lemma byte_to_N_lt b : (Byte.to_N b < 256)%N.
Proof. pose proof (Byte.to_N_bounded b). lia. Qed.

Lemma byte_of_N_to_N b : byte_of_N (Byte.to_N b) = b.
Proof.
  unfold byte_of_N. rewrite N.mod_small by apply byte_to_N_lt. by rewrite Byte.of_to_N.
Qed.

Lemma byte_to_N_of_N n : Byte.to_N (byte_of_N n) = (n mod 256)%N.
Proof.
  unfold byte_of_N. destruct (Byte.of_N (n mod 256)) as [b|] eqn:E.
  - by apply Byte.to_of_N.
  - apply Byte.of_N_None_iff in E. pose proof (N.mod_lt n 256). lia.
Qed.

Lemma byte_to_N_inj a b : Byte.to_N a = Byte.to_N b -> a = b.
Proof. intros H. by rewrite <- (byte_of_N_to_N a), H, byte_of_N_to_N. Qed.

Lemma length_to_le_bytes k v : length (to_le_bytes k v) = k.
Proof. revert v. induction k; intros v; simpl; [done|]. by rewrite IHk. Qed.

Lemma length_to_be_bytes k v : length (to_be_bytes k v) = k.
Proof. unfold to_be_bytes. rewrite length_rev. apply length_to_le_bytes. Qed.

Lemma from_to_le_bytes k v :
  (v < 256 ^ N.of_nat k)%N -> from_le_bytes (to_le_bytes k v) = v.
Proof.
  revert v. induction k as [|k IH]; intros v Hv; simpl.
  - simpl in Hv. lia.
  - rewrite byte_to_N_of_N, IH.
    + pose proof (N.div_mod v 256). lia.
    + rewrite Nat2N.inj_succ, N.pow_succ_r' in Hv. apply N.Div0.div_lt_upper_bound. lia.
Qed.

Lemma to_from_le_bytes bs : to_le_bytes (length bs) (from_le_bytes bs) = bs.
Proof.
  induction bs as [|b bs IH]; simpl; [done|]. pose proof (byte_to_N_lt b).
  f_equal.
  - apply byte_to_N_inj. rewrite byte_to_N_of_N.
    rewrite (N.mul_comm 256), N.Div0.mod_add. by apply N.mod_small.
  - etransitivity; [|exact IH]. f_equal.
    rewrite (N.mul_comm 256), N.div_add by lia. rewrite N.div_small; lia.
Qed.

Lemma from_le_bytes_bound bs : (from_le_bytes bs < 256 ^ N.of_nat (length bs))%N.
Proof.
  induction bs as [|b bs IH]; [simpl; lia|]. cbn [from_le_bytes length].
  rewrite Nat2N.inj_succ, N.pow_succ_r'. pose proof (byte_to_N_lt b). lia.
Qed.

Lemma from_to_be_bytes k v :
  (v < 256 ^ N.of_nat k)%N -> from_be_bytes (to_be_bytes k v) = v.
Proof. unfold from_be_bytes, to_be_bytes. rewrite rev_involutive. apply from_to_le_bytes. Qed.

Lemma from_be_bytes_bound bs : (from_be_bytes bs < 256 ^ N.of_nat (length bs))%N.
Proof. unfold from_be_bytes. rewrite <- (length_rev bs). apply from_le_bytes_bound. Qed.

Lemma str_bytes_str bs : str_bytes (bytes_str bs) = bs.
Proof. apply String.list_byte_of_string_of_list_byte. Qed.

Lemma bytes_str_bytes s : bytes_str (str_bytes s) = s.
Proof. apply String.string_of_list_byte_of_string. Qed.

Lemma str_bytes_app s t : str_bytes (s +:+ t) = str_bytes s ++ str_bytes t.
Proof.
  induction s as [|a s IH]; [done|]. change (str_bytes (String a s)) with (Ascii.byte_of_ascii a :: str_bytes s).
  cbn [app]. rewrite <- IH. reflexivity.
Qed.

#[export] Instance str_bytes_inj : Inj (=) (=) str_bytes.
Proof. intros s t H. by rewrite <- (bytes_str_bytes s), H, bytes_str_bytes. Qed.

(** What holds of every decimal digit holds of the bytes of a printed number. *)
Lemma pretty_N_bytes (P : byte -> Prop) (n : N) :
  (forall k, P (Ascii.byte_of_ascii (pretty_N_char k))) -> Forall P (str_bytes (pretty n)).
Proof.
  intros HP. assert (Hgo : forall n s, Forall P (str_bytes s) -> Forall P (str_bytes (pretty_N_go n s))).
  { clear n. intros n. induction (N.lt_wf_0 n) as [n _ IH]. intros s Hs.
    destruct (decide (n = 0)%N) as [->|Hn]; [by rewrite pretty_N_go_0|].
    rewrite pretty_N_go_step by lia. apply IH; [apply N.div_lt; lia|]. by constructor. }
  unfold pretty, pretty_N. case_decide; [|by apply Hgo; constructor].
  constructor; [exact (HP 0%N)|constructor].
Qed.

(** The last separator splits a list in one way. *)
Lemma last_sep_inj {A} (x : A) l1 l2 r1 r2 :
  x ∉ r1 -> x ∉ r2 -> l1 ++ x :: r1 = l2 ++ x :: r2 -> l1 = l2 /\ r1 = r2.
Proof.
  revert l2. induction l1 as [|a l1 IH]; intros [|b l2] H1 H2 E; simplify_eq/=.
  - done.
  - exfalso. apply H1. set_solver.
  - exfalso. apply H2. set_solver.
  - by destruct (IH l2) as [-> ->].
Qed.

Create Rewrite HintDb otk.
#[export] Hint Rewrite length_to_le_bytes length_to_be_bytes str_bytes_str bytes_str_bytes : otk.
#[export] Hint Resolve byte_to_N_lt from_le_bytes_bound from_be_bytes_bound : otk.

(** ** Lemmas on UTF-8 *)
Lemma in_range_spec lo hi b :
  in_range lo hi b = true <-> (lo <= Byte.to_N b <= hi)%N.
Proof. unfold in_range. rewrite andb_true_iff, !N.leb_le. done. Qed.

Ltac range_simpl :=
  repeat match goal with
  | H : (_ && _)%bool = true |- _ => apply andb_true_iff in H as [? ?]
  | H : (_ || _)%bool = true |- _ => apply orb_true_iff in H as [?|?]
  | H : in_range _ _ _ = true |- _ => apply in_range_spec in H
  end.

Lemma cont_widen lo hi b :
  (128 <= lo)%N -> (hi <= 191)%N -> (lo <= Byte.to_N b <= hi)%N -> is_cont b = true.
Proof. intros. apply in_range_spec. lia. Qed.

(** A valid string starts with an ASCII byte, or with a lead byte and its
    continuation bytes. *)
Lemma utf8_valid_inv b0 r0 :
  utf8_valid (b0 :: r0) = true ->
  ((Byte.to_N b0 <= 127)%N /\ utf8_valid r0 = true) \/
  (exists cs r, (192 <= Byte.to_N b0)%N /\ r0 = cs ++ r /\
                Forall (fun b => is_cont b = true) cs /\ utf8_valid r = true).
Proof.
  cbn [utf8_valid]. case_match eqn:E0.
  { intros ?. left. range_simpl. split; [lia|done]. }
  destruct r0 as [|b1 r1]; [done|]. case_match eqn:E1.
  { intros H. right. exists [b1], r1. range_simpl. repeat split; try done; [lia|by constructor]. }
  destruct r1 as [|b2 r2]; [done|].
  assert (three : forall lo hi, (128 <= lo)%N -> (hi <= 191)%N -> (192 <= Byte.to_N b0)%N ->
    in_range lo hi b1 && is_cont b2 && utf8_valid r2 = true ->
    exists cs r, (192 <= Byte.to_N b0)%N /\ b1 :: b2 :: r2 = cs ++ r /\
                 Forall (fun b => is_cont b = true) cs /\ utf8_valid r = true).
  { intros lo hi ??? Hv. exists [b1; b2], r2. range_simpl.
    repeat split; [done| |done]. repeat constructor; [by apply (cont_widen lo hi)|done]. }
  case_match eqn:E2.
  { intros H. right. apply in_range_spec in E2. apply (three 160 191)%N; [lia..|done]. }
  case_match eqn:E3.
  { intros H. right. apply (three 128 191)%N; [lia..| |done]. clear H. range_simpl; lia. }
  case_match eqn:E4.
  { intros H. right. apply in_range_spec in E4. apply (three 128 159)%N; [lia..|done]. }
  destruct r2 as [|b3 r3]; [done|].
  assert (four : forall lo hi, (128 <= lo)%N -> (hi <= 191)%N -> (192 <= Byte.to_N b0)%N ->
    in_range lo hi b1 && is_cont b2 && is_cont b3 && utf8_valid r3 = true ->
    exists cs r, (192 <= Byte.to_N b0)%N /\ b1 :: b2 :: b3 :: r3 = cs ++ r /\
                 Forall (fun b => is_cont b = true) cs /\ utf8_valid r = true).
  { intros lo hi ??? Hv. exists [b1; b2; b3], r3. range_simpl.
    repeat split; [done| |done]. repeat constructor; [by apply (cont_widen lo hi)|done..]. }
  case_match eqn:E5.
  { intros H. right. apply in_range_spec in E5. apply (four 144 191)%N; [lia..|done]. }
  case_match eqn:E6.
  { intros H. right. apply in_range_spec in E6. apply (four 128 191)%N; [lia..|done]. }
  case_match eqn:E7; [|done].
  intros H. right. apply in_range_spec in E7. apply (four 128 143)%N; [lia..|done].
Qed.

Lemma utf8_valid_head b r : utf8_valid (b :: r) = true -> is_cont b = false.
Proof.
  intros H. apply utf8_valid_inv in H. destruct (is_cont b) eqn:E; [|done].
  apply in_range_spec in E. destruct H as [[? _]|(?&?&?&_)]; lia.
Qed.

(** A character boundary follows every ASCII byte of a valid string. *)
Lemma utf8_valid_after_ascii bs i b c :
  utf8_valid bs = true -> bs !! i = Some b -> (Byte.to_N b <= 127)%N ->
  bs !! S i = Some c -> is_cont c = false.
Proof.
  revert i. induction bs as [bs IH] using list_len_ind. intros i Hv Hb Ha Hc.
  destruct bs as [|b0 r0]; [done|].
  destruct (utf8_valid_inv _ _ Hv) as [[? Hr]|(cs & r & Hl & -> & Hcs & Hr)].
  - destruct i as [|i]; simplify_eq/=.
    + destruct r0; simplify_eq/=. by eapply utf8_valid_head.
    + eapply (IH r0); eauto.
  - destruct i as [|i]; simplify_eq/=; [lia|].
    destruct (decide (i < length cs)) as [Hlt|Hge].
    + rewrite lookup_app_l in Hb by lia.
      apply (Forall_lookup_1 _ _ _ _ Hcs) in Hb. apply in_range_spec in Hb. lia.
    + rewrite lookup_app_r in Hb by lia. rewrite lookup_app_r in Hc by lia.
      replace (S i - length cs) with (S (i - length cs)) in Hc by lia.
      eapply (IH r); eauto. simpl. rewrite length_app. lia.
Qed.
