(* ===== verification/EventModel.v ===== *)
(** The event model (crate [event-model]): identifiers, timestamp provenance,
    streams, detections, crossings, health and metadata events, and the
    top-level event [OtkEvent].

    Unsigned fields are [N]; [rssi_dbm] is a [Z].  The ranges Rust's types
    guarantee are stated by the [wf_*] predicates.  The CBOR derives are
    generated code: [OtkEvent] is encoded through the [Cbor] class. *)
From stdpp Require Import base gmap strings list option numbers.
From S2P Require Import Prelude.

(** ** Identifiers: [string_id!] makes one newtype of [String] per kind. *)
Inductive IdKind :=
  | KDetector | KTimingPoint | KSubject | KTimebase | KDetection | KCrossing
  | KStream | KOperator | KProducer | KCorrelation.

Record Id (k : IdKind) : Type := id_new { as_str : string }.
Arguments id_new {k} _.
Arguments as_str {k} _.

#[export] Instance Id_eq_dec k : EqDecision (Id k).
Proof. solve_decision. Defined.

#[export] Instance Id_countable k : Countable (Id k).
Proof. refine (inj_countable' as_str id_new _). by intros []. Defined.

Abbreviation DetectorId := (Id KDetector).
Abbreviation TimingPointId := (Id KTimingPoint).
Abbreviation SubjectId := (Id KSubject).
Abbreviation TimebaseId := (Id KTimebase).
Abbreviation DetectionId := (Id KDetection).
Abbreviation CrossingId := (Id KCrossing).
Abbreviation StreamId := (Id KStream).
Abbreviation OperatorId := (Id KOperator).

(** ** Timestamp provenance *)
Inductive TimestampingMethod :=
  | HardwareEventCapture | FirmwareTimerRead | AdapterReceiveTime | ManualEntry | ReplayRecorded.

Inductive SourceAttestation := RuntimeDiscovered | OperatorAsserted.

Inductive SyncState := Locked | Holdover | FreeRun | Unsynchronized | SyncUnknown.

(** ** Streams *)
Inductive StreamKind := Raw | Detections | Processed.

Record StreamDescriptor := {
  sd_stream_id : StreamId;
  sd_kind : StreamKind;
  sd_detector_id : option DetectorId;
  sd_timing_point_id : option TimingPointId
}.

(** ** Detections *)
Inductive SensorData :=
  | LoopTransponder (rssi_dbm : option Z) (pulse_count : option N)
  | BeamBreak
  | Manual (operator_id : option OperatorId).

Record Detection := {
  detection_id : DetectionId;
  detector_id : DetectorId;
  timing_point_id : TimingPointId;
  subject_id : option SubjectId;
  detected_at_ns : N;
  detected_at_uncertainty_ns : option N;
  received_at_ns : option N;
  timestamping_method : TimestampingMethod;
  timebase_id : TimebaseId;
  source_attestation : SourceAttestation;
  sequence_number : N;
  sensor : SensorData
}.

(** ** Crossings *)
Record CrossingEvent := {
  ce_crossing_id : CrossingId;
  ce_timing_point_id : TimingPointId;
  ce_subject_id : option SubjectId;
  ce_crossed_at_ns : N;
  ce_crossed_at_uncertainty_ns : option N;
  ce_timebase_id : TimebaseId;
  ce_timestamping_method : TimestampingMethod;
  ce_source_attestation : SourceAttestation;
  ce_detection_ids : list DetectionId
}.

(** ** Adapter metadata *)
Record AdapterCapabilities := {
  ac_streams : list StreamDescriptor;
  ac_timestamping_method : TimestampingMethod;
  ac_declared_resolution_ns : option N
}.

Record AdapterMetadataEvent := {
  am_detector_id : DetectorId;
  am_timing_point_id : TimingPointId;
  am_timebase_id : TimebaseId;
  am_source_attestation : SourceAttestation;
  am_declared_at_ns : N;
  am_capabilities : AdapterCapabilities
}.

(** ** Health *)
Inductive DetectorHealthStatus :=
  | Healthy
  | Degraded (reason : string)
  | Failed (reason : string).

Record DetectorHealthEvent := {
  dh_detector_id : DetectorId;
  dh_reported_at_ns : N;
  dh_status : DetectorHealthStatus;
  dh_message : option string
}.

Record TimebaseStatusEvent := {
  ts_timebase_id : TimebaseId;
  ts_reported_at_ns : N;
  ts_sync_state : SyncState;
  ts_uncertainty_ns : option N;
  ts_source_attestation : SourceAttestation
}.

(** ** The event envelope *)
Inductive OtkEvent :=
  | EvDetection (d : Detection)
  | EvDetectorHealth (h : DetectorHealthEvent)
  | EvTimebaseStatus (t : TimebaseStatusEvent)
  | EvAdapterMetadata (m : AdapterMetadataEvent)
  | EvCrossing (c : CrossingEvent).

#[export] Instance TimestampingMethod_eq_dec : EqDecision TimestampingMethod.
Proof. solve_decision. Defined.
#[export] Instance SourceAttestation_eq_dec : EqDecision SourceAttestation.
Proof. solve_decision. Defined.
#[export] Instance SyncState_eq_dec : EqDecision SyncState.
Proof. solve_decision. Defined.
#[export] Instance StreamKind_eq_dec : EqDecision StreamKind.
Proof. solve_decision. Defined.
#[export] Instance StreamDescriptor_eq_dec : EqDecision StreamDescriptor.
Proof. solve_decision. Defined.
#[export] Instance SensorData_eq_dec : EqDecision SensorData.
Proof. solve_decision. Defined.
#[export] Instance Detection_eq_dec : EqDecision Detection.
Proof. solve_decision. Defined.
#[export] Instance CrossingEvent_eq_dec : EqDecision CrossingEvent.
Proof. solve_decision. Defined.
#[export] Instance AdapterCapabilities_eq_dec : EqDecision AdapterCapabilities.
Proof. solve_decision. Defined.
#[export] Instance AdapterMetadataEvent_eq_dec : EqDecision AdapterMetadataEvent.
Proof. solve_decision. Defined.
#[export] Instance DetectorHealthStatus_eq_dec : EqDecision DetectorHealthStatus.
Proof. solve_decision. Defined.
#[export] Instance DetectorHealthEvent_eq_dec : EqDecision DetectorHealthEvent.
Proof. solve_decision. Defined.
#[export] Instance TimebaseStatusEvent_eq_dec : EqDecision TimebaseStatusEvent.
Proof. solve_decision. Defined.
#[export] Instance OtkEvent_eq_dec : EqDecision OtkEvent.
Proof. solve_decision. Defined.

(** ** Ranges of the Rust types *)
Definition wf_u64 (n : N) : Prop := (n <= u64_max)%N.
Definition wf_opt_u64 (o : option N) : Prop := from_option wf_u64 True o.

Definition wf_sensor (s : SensorData) : Prop :=
  match s with
  | LoopTransponder r p =>
      from_option (fun z => i16_min <= z <= i16_max)%Z True r /\
      from_option (fun n => n <= u32_max)%N True p
  | BeamBreak | Manual _ => True
  end.

Record wf_Detection (d : Detection) : Prop := {
  wf_detected_at : wf_u64 (detected_at_ns d);
  wf_uncertainty : wf_opt_u64 (detected_at_uncertainty_ns d);
  wf_received : wf_opt_u64 (received_at_ns d);
  wf_sequence : wf_u64 (sequence_number d);
  wf_sensor_data : wf_sensor (sensor d)
}.

(** A detection used by the examples of the development. *)
Definition sample_detection (seq at_ns : N) (subject : option string) (s : SensorData) : Detection :=
  {| detection_id := id_new "d"; detector_id := id_new "loop-1";
     timing_point_id := id_new "tp-a"; subject_id := id_new <$> subject;
     detected_at_ns := at_ns; detected_at_uncertainty_ns := None; received_at_ns := None;
     timestamping_method := HardwareEventCapture; timebase_id := id_new "tb-1";
     source_attestation := RuntimeDiscovered; sequence_number := seq; sensor := s |}.
