(* ===== verification/WireProtocol.v ===== *)
(** The wire protocol (crate [otk-protocol]): envelope, handshake and error
    messages, and the W3C [traceparent] validator.

    A [&str] is a [string] of bytes; what Rust guarantees of it, UTF-8
    validity, is [utf8_valid (str_bytes s)].  Slicing a [&str] panics off a
    character boundary, so [parse_traceparent] returns an [option] whose
    [None] is a panic. *)
From stdpp Require Import base gmap strings list option numbers.
From Stdlib Require Import Strings.Byte.
From S2P Require Import Prelude EventModel.

Definition PROTOCOL_VERSION : N := 0.

Abbreviation ProducerId := (Id KProducer).
Abbreviation CorrelationId := (Id KCorrelation).

(** ** Envelope *)
Inductive MessageType :=
  | MtEvent | MtConnect | MtConnectAck | MtConnectReject | MtHeartbeat | MtError | MtDisconnect.

Record OtkEnvelope := {
  protocol_version : N;
  message_type : MessageType;
  source_id : ProducerId;
  stream_id : option StreamId;
  env_sequence_number : option N;
  correlation_id : option CorrelationId;
  payload : option bytes;
  traceparent : option string
}.

(** ** Handshake messages *)
Record Connect := {
  protocol_version_min : N;
  protocol_version_max : N;
  streams : list StreamDescriptor;
  auth_token : option string
}.

Record ConnectAck := { negotiated_version_ack : N }.

Inductive ConnectRejectReason :=
  | VersionNotSupported | ProducerIdAlreadyConnected | Unauthorized | ServerFull.

Record ConnectReject := {
  reason : ConnectRejectReason;
  supported_version_min : N;
  supported_version_max : N
}.

Record Heartbeat := { sent_at_ns : N }.

(** ** Error messages *)
Inductive ErrorCode :=
  | MalformedEnvelope | UnknownStream | PayloadDecodeFailed | SequenceGapDetected
  | ErrUnauthorized | InternalError.

Record ErrorMessage := {
  code : ErrorCode;
  message : option string;
  related_sequence : option N
}.

(** ** The decoded message *)
Inductive OtkMessage :=
  | MsgEvent (e : OtkEvent)
  | MsgConnect (c : Connect)
  | MsgConnectAck (a : ConnectAck)
  | MsgConnectReject (r : ConnectReject)
  | MsgHeartbeat (h : Heartbeat)
  | MsgError (e : ErrorMessage)
  | MsgDisconnect.

#[export] Instance MessageType_eq_dec : EqDecision MessageType.
Proof. solve_decision. Defined.
#[export] Instance OtkEnvelope_eq_dec : EqDecision OtkEnvelope.
Proof. solve_decision. Defined.
#[export] Instance Connect_eq_dec : EqDecision Connect.
Proof. solve_decision. Defined.
#[export] Instance ConnectAck_eq_dec : EqDecision ConnectAck.
Proof. solve_decision. Defined.
#[export] Instance ConnectRejectReason_eq_dec : EqDecision ConnectRejectReason.
Proof. solve_decision. Defined.
#[export] Instance ConnectReject_eq_dec : EqDecision ConnectReject.
Proof. solve_decision. Defined.
#[export] Instance Heartbeat_eq_dec : EqDecision Heartbeat.
Proof. solve_decision. Defined.

(** ** traceparent *)

(** [str::is_char_boundary] and [&s[a..b]]. *)
Definition is_char_boundary (bs : bytes) (i : nat) : bool :=
  if decide (i = 0 \/ i = length bs) then true
  else match bs !! i with Some b => negb (is_cont b) | None => false end.

Definition str_slice (s : string) (a b : nat) : option string :=
  let bs := str_bytes s in
  if (a <=? b)%nat && is_char_boundary bs a && is_char_boundary bs b
  then Some (bytes_str (take (b - a) (drop a bs))) else None.

Inductive TraceParentError :=
  | InvalidLength (got : N)
  | InvalidStructure
  | InvalidHex
  | ForbiddenVersion
  | InvalidTraceId
  | InvalidParentId.

Record TraceParentParts := {
  version : string;
  trace_id : string;
  parent_id : string;
  trace_flags : string
}.

Definition byte_is_lowercase_hex (b : byte) : bool := in_range 48 57 b || in_range 97 102 b.

Definition is_lowercase_hex (s : string) : bool := forallb byte_is_lowercase_hex (str_bytes s).

Definition is_all_zero (s : string) : bool :=
  forallb (fun b => bool_decide (b = "0"%byte)) (str_bytes s).

Definition parse_traceparent (s : string) : option (result TraceParentParts TraceParentError) :=
  let bs := str_bytes s in
  if negb (len bs =? 55)%N then Some (Err (InvalidLength (len bs))) else
  let! b2 := bs !! 2%nat in
  let! b35 := bs !! 35%nat in
  let! b52 := bs !! 52%nat in
  if bool_decide (b2 <> "-"%byte) || bool_decide (b35 <> "-"%byte) || bool_decide (b52 <> "-"%byte)
  then Some (Err InvalidStructure) else
  let! v := str_slice s 0 2 in
  let! t := str_slice s 3 35 in
  let! p := str_slice s 36 52 in
  let! f := str_slice s 53 55 in
  if negb (is_lowercase_hex v) || negb (is_lowercase_hex t)
     || negb (is_lowercase_hex p) || negb (is_lowercase_hex f)
  then Some (Err InvalidHex) else
  if bool_decide (v = "ff") then Some (Err ForbiddenVersion) else
  if is_all_zero t then Some (Err InvalidTraceId) else
  if is_all_zero p then Some (Err InvalidParentId) else
  Some (Ok {| version := v; trace_id := t; parent_id := p; trace_flags := f |}).

Definition is_valid_traceparent (s : string) : option bool :=
  let! r := parse_traceparent s in Some (is_ok r).

(** [{:0wx}]: [w] lowercase hex digits, for a value below [16 ^ w]. *)
Definition hex_digit (n : N) : byte :=
  if (n <? 10)%N then byte_of_N (48 + n) else byte_of_N (87 + n).

Fixpoint hex_pad (w : nat) (n : N) : bytes :=
  match w with
  | O => []
  | S w' => hex_pad w' (n / 16) ++ [hex_digit (n mod 16)]
  end.

Definition format_traceparent (trace_id parent_id trace_flags : N) : option string :=
  if (trace_id =? 0)%N || (parent_id =? 0)%N then None else
  Some (bytes_str (str_bytes "00-" ++ hex_pad 32 trace_id ++ ["-"%byte] ++
                   hex_pad 16 parent_id ++ ["-"%byte] ++ hex_pad 2 trace_flags)).

Definition sample_traceparent : string :=
  "00-0af7651916cd43dd8448eb211c80319c-b7ad6b7169203331-01".

(** ** Basic facts *)
Example parse_sample :
  parse_traceparent sample_traceparent =
    Some (Ok {| version := "00"; trace_id := "0af7651916cd43dd8448eb211c80319c";
                parent_id := "b7ad6b7169203331"; trace_flags := "01" |}).
Proof. vm_compute. reflexivity. Qed.

Example format_sample :
  format_traceparent 0x0af7651916cd43dd8448eb211c80319c 0xb7ad6b7169203331 1 = Some sample_traceparent.
Proof. vm_compute. reflexivity. Qed.

(** ** Slicing at character boundaries *)
Lemma boundary_start bs : is_char_boundary bs 0 = true.
Proof. unfold is_char_boundary. by rewrite decide_True by auto. Qed.

Lemma boundary_end bs : is_char_boundary bs (length bs) = true.
Proof. unfold is_char_boundary. by rewrite decide_True by auto. Qed.

Lemma boundary_of_byte bs i b :
  bs !! i = Some b -> is_cont b = false -> is_char_boundary bs i = true.
Proof. intros Hb Hc. unfold is_char_boundary. case_decide; [done|]. by rewrite Hb, Hc. Qed.

Lemma ascii_not_cont b : (Byte.to_N b <= 127)%N -> is_cont b = false.
Proof.
  intros H. destruct (is_cont b) eqn:E; [|done]. apply in_range_spec in E. lia.
Qed.

(** Both sides of an ASCII byte of a valid string are boundaries. *)
Lemma boundary_at_ascii bs i b :
  bs !! i = Some b -> (Byte.to_N b <= 127)%N -> is_char_boundary bs i = true.
Proof. intros. eapply boundary_of_byte; eauto using ascii_not_cont. Qed.

Lemma boundary_after_ascii bs i b :
  utf8_valid bs = true -> bs !! i = Some b -> (Byte.to_N b <= 127)%N ->
  is_char_boundary bs (S i) = true.
Proof.
  intros Hv Hb Ha. destruct (bs !! S i) as [c|] eqn:E.
  - eapply boundary_of_byte; eauto using utf8_valid_after_ascii.
  - apply lookup_ge_None in E. apply lookup_lt_Some in Hb.
    replace (S i) with (length bs) by lia. apply boundary_end.
Qed.

Lemma str_slice_Some s a b :
  a <= b -> is_char_boundary (str_bytes s) a = true -> is_char_boundary (str_bytes s) b = true ->
  str_slice s a b = Some (bytes_str (take (b - a) (drop a (str_bytes s)))).
Proof.
  intros Hab Ha Hb. unfold str_slice. rewrite Ha, Hb.
  by replace (a <=? b) with true by (symmetry; apply Nat.leb_le; lia).
Qed.

(** ** The W3C grammar *)
Definition hex_field (n : nat) (s : string) : Prop :=
  length (str_bytes s) = n /\ is_lowercase_hex s = true.

(** [version "-" trace-id "-" parent-id "-" trace-flags]. *)
Definition traceparent_text (p : TraceParentParts) : bytes :=
  str_bytes (version p) ++ "-"%byte :: str_bytes (trace_id p) ++ "-"%byte ::
  str_bytes (parent_id p) ++ "-"%byte :: str_bytes (trace_flags p).

Record w3c_traceparent (s : string) (p : TraceParentParts) : Prop := {
  w3c_text : str_bytes s = traceparent_text p;
  w3c_version : hex_field 2 (version p);
  w3c_trace_id : hex_field 32 (trace_id p);
  w3c_parent_id : hex_field 16 (parent_id p);
  w3c_flags : hex_field 2 (trace_flags p);
  w3c_not_ff : version p <> "ff";
  w3c_trace_id_nonzero : is_all_zero (trace_id p) = false;
  w3c_parent_id_nonzero : is_all_zero (parent_id p) = false
}.

(** What the parser does once the length and the hyphens are right and the
    slices are at boundaries. *)
Definition check_parts (p : TraceParentParts) : result TraceParentParts TraceParentError :=
  if negb (is_lowercase_hex (version p)) || negb (is_lowercase_hex (trace_id p))
     || negb (is_lowercase_hex (parent_id p)) || negb (is_lowercase_hex (trace_flags p))
  then Err InvalidHex else
  if bool_decide (version p = "ff") then Err ForbiddenVersion else
  if is_all_zero (trace_id p) then Err InvalidTraceId else
  if is_all_zero (parent_id p) then Err InvalidParentId else Ok p.

Definition slice_parts (bs : bytes) : TraceParentParts :=
  {| version := bytes_str (take 2 bs); trace_id := bytes_str (take 32 (drop 3 bs));
     parent_id := bytes_str (take 16 (drop 36 bs)); trace_flags := bytes_str (take 2 (drop 53 bs)) |}.

Lemma check_parts_ok p q :
  check_parts p = Ok q <->
  p = q /\ is_lowercase_hex (version p) = true /\ is_lowercase_hex (trace_id p) = true /\
  is_lowercase_hex (parent_id p) = true /\ is_lowercase_hex (trace_flags p) = true /\
  version p <> "ff" /\ is_all_zero (trace_id p) = false /\ is_all_zero (parent_id p) = false.
Proof.
  unfold check_parts.
  destruct (is_lowercase_hex (version p)), (is_lowercase_hex (trace_id p)),
    (is_lowercase_hex (parent_id p)), (is_lowercase_hex (trace_flags p)); simpl;
    try (split; [done|intros (_&?&?&?&?&_); congruence]).
  case_bool_decide; [split; [done|intros (_&_&_&_&_&?&_); congruence]|].
  destruct (is_all_zero (trace_id p)); [split; [done|intros (_&_&_&_&_&_&?&_); congruence]|].
  destruct (is_all_zero (parent_id p)); [split; [done|intros (_&_&_&_&_&_&_&?); congruence]|].
  split; [intros [= ->]; repeat split; done|intros [-> _]; done].
Qed.

Lemma hyphen_ascii : (Byte.to_N "-"%byte <= 127)%N.
Proof. vm_compute. done. Qed.

(** The three hyphens of a text, and the boundaries after them. *)
Definition hyphens_at (bs : bytes) : Prop :=
  bs !! 2 = Some "-"%byte /\ bs !! 35 = Some "-"%byte /\ bs !! 52 = Some "-"%byte.

Definition boundaries_ok (bs : bytes) : Prop :=
  is_char_boundary bs 3 = true /\ is_char_boundary bs 36 = true /\ is_char_boundary bs 53 = true.

Lemma parse_checks_parts s :
  length (str_bytes s) = 55 -> hyphens_at (str_bytes s) -> boundaries_ok (str_bytes s) ->
  parse_traceparent s = Some (check_parts (slice_parts (str_bytes s))).
Proof.
  intros Hlen (H2 & H35 & H52) (B3 & B36 & B53). unfold parse_traceparent.
  assert (Hl : len (str_bytes s) = 55%N) by (unfold len; lia). rewrite Hl. simpl negb.
  cbv iota. rewrite H2, H35, H52. rewrite !bool_decide_eq_false_2 by auto. simpl orb. cbv iota.
  assert (B55 : is_char_boundary (str_bytes s) 55 = true) by (rewrite <- Hlen; apply boundary_end).
  rewrite !str_slice_Some; eauto using boundary_start, boundary_at_ascii, hyphen_ascii with lia.
  simpl Nat.sub. rewrite drop_0. unfold check_parts, slice_parts.
  cbn [version trace_id parent_id trace_flags].
  repeat case_match; done.
Qed.

Lemma boundaries_of_utf8 bs : utf8_valid bs = true -> hyphens_at bs -> boundaries_ok bs.
Proof.
  intros Hv (?&?&?). repeat split; eapply boundary_after_ascii; eauto using hyphen_ascii.
Qed.

(** Every outcome of the parser, by the three stages it goes through. *)
Lemma parse_cases s :
  utf8_valid (str_bytes s) = true ->
  (length (str_bytes s) <> 55 /\
     parse_traceparent s = Some (Err (InvalidLength (len (str_bytes s))))) \/
  (length (str_bytes s) = 55 /\ ~ hyphens_at (str_bytes s) /\
     parse_traceparent s = Some (Err InvalidStructure)) \/
  (length (str_bytes s) = 55 /\ hyphens_at (str_bytes s) /\
     parse_traceparent s = Some (check_parts (slice_parts (str_bytes s)))).
Proof.
  intros Hv. destruct (decide (length (str_bytes s) = 55)) as [Hlen|Hlen].
  2:{ left. split; [done|]. unfold parse_traceparent. case_match eqn:E; [done|].
      apply negb_false_iff, N.eqb_eq in E. unfold len in E. lia. }
  right.
  destruct (decide (str_bytes s !! 2 = Some "-"%byte /\ str_bytes s !! 35 = Some "-"%byte /\
                    str_bytes s !! 52 = Some "-"%byte)) as [Hh|Hh].
  { right. eauto using parse_checks_parts, boundaries_of_utf8. }
  left. split; [done|split; [done|]]. unfold parse_traceparent.
  assert (Hl : len (str_bytes s) = 55%N) by (unfold len; lia). rewrite Hl. simpl negb. cbv iota.
  destruct (lookup_lt_is_Some_2 (str_bytes s) 2) as [b2 E2]; [lia|].
  destruct (lookup_lt_is_Some_2 (str_bytes s) 35) as [b35 E35]; [lia|].
  destruct (lookup_lt_is_Some_2 (str_bytes s) 52) as [b52 E52]; [lia|].
  rewrite E2, E35, E52 in *. repeat case_bool_decide; simpl; try done.
  destruct Hh. repeat match goal with H : ~ (_ <> _) |- _ => apply dec_stable in H end.
  by subst.
Qed.

Lemma hex_byte_not_cont b : byte_is_lowercase_hex b = true -> is_cont b = false.
Proof.
  unfold byte_is_lowercase_hex. intros H. apply ascii_not_cont.
  apply orb_true_iff in H as [H|H]; apply in_range_spec in H; lia.
Qed.

Lemma hex_field_boundary bs i n s (r : bytes) :
  drop i bs = str_bytes s ++ r -> hex_field (S n) s -> is_char_boundary bs i = true.
Proof.
  intros Hd [Hl Hh]. unfold is_lowercase_hex in Hh.
  destruct (str_bytes s) as [|b t]; [done|].
  simpl in Hh. apply andb_true_iff in Hh as [Hb _].
  apply (boundary_of_byte _ _ b); [|by apply hex_byte_not_cont].
  rewrite <- (Nat.add_0_r i), <- lookup_drop, Hd. done.
Qed.

(** One field and the hyphen after it. *)
Lemma field_step (l r : bytes) n x :
  length l = n ->
  take n (l ++ x :: r) = l /\ (l ++ x :: r) !! n = Some x /\ drop (S n) (l ++ x :: r) = r.
Proof.
  intros <-. split; [apply take_app_length|split].
  - rewrite lookup_app_r by lia. by rewrite Nat.sub_diag.
  - replace (S (length l)) with (length l + 1) by lia. by rewrite <- drop_drop, drop_app_length.
Qed.

Lemma drop_lookup_add (bs r : bytes) i j : drop i bs = r -> bs !! (i + j) = r !! j.
Proof. intros <-. by rewrite lookup_drop. Qed.

(** The text of well-sized parts has the shape the parser looks for. *)
Lemma w3c_shape s p :
  w3c_traceparent s p ->
  length (str_bytes s) = 55 /\ hyphens_at (str_bytes s) /\ boundaries_ok (str_bytes s) /\
  slice_parts (str_bytes s) = p.
Proof.
  intros [Ht Hv Ht' Hp Hf _ _ _]. rewrite Ht.
  destruct p as [v t q f]; cbn [version trace_id parent_id trace_flags] in *.
  unfold traceparent_text; cbn [version trace_id parent_id trace_flags].
  set (r2 := str_bytes q ++ "-"%byte :: str_bytes f).
  set (r1 := str_bytes t ++ "-"%byte :: r2). set (text := str_bytes v ++ "-"%byte :: r1).
  destruct (field_step (str_bytes v) r1 2 "-"%byte (proj1 Hv)) as (T0 & L2 & D3).
  destruct (field_step (str_bytes t) r2 32 "-"%byte (proj1 Ht')) as (T3 & L35 & D36).
  destruct (field_step (str_bytes q) (str_bytes f) 16 "-"%byte (proj1 Hp)) as (T36 & L52 & D53).
  fold text in T0, L2, D3. fold r1 in T3, L35, D36. fold r2 in T36, L52, D53.
  rewrite <- D3 in T3, L35, D36. rewrite drop_drop in D36. rewrite lookup_drop in L35.
  rewrite <- D36 in T36, L52, D53. rewrite drop_drop in D53. rewrite lookup_drop in L52.
  simpl Nat.add in *.
  split; [|split; [|split]].
  - destruct Hv, Ht', Hp, Hf. unfold text, r1, r2.
    repeat (rewrite length_app; simpl). lia.
  - done.
  - repeat split; [eapply (hex_field_boundary _ 3 31 t)|eapply (hex_field_boundary _ 36 15 q)
      |eapply (hex_field_boundary _ 53 1 f [])]; eauto. by rewrite app_nil_r.
  - unfold slice_parts. rewrite T0, T3, T36, D53, <- (proj1 Hf), firstn_all.
    by rewrite !bytes_str_bytes.
Qed.

(** A text with the right length and hyphens is the text of its slices. *)
Lemma slice_parts_text bs :
  length bs = 55 -> hyphens_at bs -> bs = traceparent_text (slice_parts bs).
Proof.
  intros Hl (H2 & H35 & H52). unfold traceparent_text, slice_parts.
  cbn [version trace_id parent_id trace_flags]. rewrite !str_bytes_str.
  rewrite <- (take_drop_middle bs 2 _ H2) at 1. f_equal. f_equal.
  assert (H32 : drop 3 bs !! 32 = Some "-"%byte) by (by rewrite lookup_drop).
  rewrite <- (take_drop_middle (drop 3 bs) 32 _ H32) at 1. f_equal. f_equal.
  rewrite drop_drop. simpl Nat.add.
  assert (H16 : drop 36 bs !! 16 = Some "-"%byte) by (by rewrite lookup_drop).
  rewrite <- (take_drop_middle (drop 36 bs) 16 _ H16) at 1. f_equal. f_equal.
  rewrite drop_drop. simpl Nat.add. rewrite take_ge; [done|]. rewrite length_drop. lia.
Qed.

Lemma slice_parts_lengths bs :
  length bs = 55 ->
  length (str_bytes (version (slice_parts bs))) = 2 /\
  length (str_bytes (trace_id (slice_parts bs))) = 32 /\
  length (str_bytes (parent_id (slice_parts bs))) = 16 /\
  length (str_bytes (trace_flags (slice_parts bs))) = 2.
Proof.
  intros Hl. unfold slice_parts; cbn [version trace_id parent_id trace_flags].
  rewrite !str_bytes_str, !length_take, !length_drop. lia.
Qed.

Lemma parse_of_w3c s p : w3c_traceparent s p -> parse_traceparent s = Some (Ok p).
Proof.
  intros Hw. destruct (w3c_shape s p Hw) as (Hl & Hh & Hb & Hs).
  rewrite parse_checks_parts, Hs by done. f_equal. apply check_parts_ok.
  destruct Hw as [_ [_ ?] [_ ?] [_ ?] [_ ?] ? ? ?]. done.
Qed.

Lemma w3c_of_parse s p :
  utf8_valid (str_bytes s) = true -> parse_traceparent s = Some (Ok p) -> w3c_traceparent s p.
Proof.
  intros Hv Hp.
  destruct (parse_cases s Hv) as [(_&E)|[(_&_&E)|(Hl&Hh&E)]]; rewrite E in Hp; simplify_eq.
  apply check_parts_ok in Hp as (<- & Ha & Hb & Hc & Hd & Hff & Hz1 & Hz2).
  destruct (slice_parts_lengths _ Hl) as (?&?&?&?).
  constructor; try done. by apply slice_parts_text.
Qed.

(** ** Hexadecimal output *)
Definition hex_val (b : byte) : N :=
  if in_range 48 57 b then Byte.to_N b - 48 else Byte.to_N b - 87.

(** The number a string of hex digits denotes. *)
Definition hex_num (bs : bytes) : N := fold_left (fun acc b => acc * 16 + hex_val b)%N bs 0%N.

Lemma hex_num_snoc bs b : hex_num (bs ++ [b]) = (hex_num bs * 16 + hex_val b)%N.
Proof. unfold hex_num. by rewrite fold_left_app. Qed.

Lemma hex_digit_spec n :
  (n < 16)%N -> byte_is_lowercase_hex (hex_digit n) = true /\ hex_val (hex_digit n) = n.
Proof.
  intros Hn. rewrite <- (N2Nat.id n) in *. assert (N.to_nat n < 16) by lia.
  revert H. generalize (N.to_nat n). clear. intros m Hm.
  do 16 (destruct m as [|m]; [by vm_compute|]). lia.
Qed.

Lemma length_hex_pad w n : length (hex_pad w n) = w.
Proof. revert n. induction w; intros n; simpl; [done|]. rewrite length_app, IHw. simpl. lia. Qed.

Lemma hex_pad_lowercase w n : forallb byte_is_lowercase_hex (hex_pad w n) = true.
Proof.
  revert n. induction w; intros n; simpl; [done|]. rewrite forallb_app, IHw. simpl.
  rewrite andb_true_r. apply hex_digit_spec. apply N.mod_lt. lia.
Qed.

Lemma hex_num_pad w n : (n < 16 ^ N.of_nat w)%N -> hex_num (hex_pad w n) = n.
Proof.
  revert n. induction w as [|w IH]; intros n Hn; cbn [hex_pad].
  - simpl in Hn. unfold hex_num. simpl. lia.
  - rewrite Nat2N.inj_succ, N.pow_succ_r' in Hn.
    rewrite hex_num_snoc, IH by (apply N.Div0.div_lt_upper_bound; lia).
    rewrite (proj2 (hex_digit_spec _ ltac:(apply N.mod_lt; lia))).
    pose proof (N.div_mod n 16). lia.
Qed.

Lemma hex_num_zeros bs : forallb (fun b => bool_decide (b = "0"%byte)) bs = true -> hex_num bs = 0%N.
Proof.
  induction bs as [|b bs IH] using rev_ind; [done|].
  rewrite forallb_app, hex_num_snoc. intros H. apply andb_true_iff in H as [H1 H2].
  simpl in H2. rewrite andb_true_r in H2. apply bool_decide_eq_true in H2 as ->.
  rewrite IH by done. done.
Qed.

Lemma hex_pad_nonzero w n :
  (0 < n < 16 ^ N.of_nat w)%N -> is_all_zero (bytes_str (hex_pad w n)) = false.
Proof.
  intros [Hp Hn]. destruct (is_all_zero _) eqn:E; [|done]. unfold is_all_zero in E.
  rewrite str_bytes_str in E. apply hex_num_zeros in E. rewrite hex_num_pad in E by done. lia.
Qed.

(** The parts a formatted traceparent is made of. *)
Definition formatted_parts (t p f : N) : TraceParentParts :=
  {| version := "00"; trace_id := bytes_str (hex_pad 32 t);
     parent_id := bytes_str (hex_pad 16 p); trace_flags := bytes_str (hex_pad 2 f) |}.

Lemma hex_pad_field w n : hex_field w (bytes_str (hex_pad w n)).
Proof.
  split; [by rewrite str_bytes_str, length_hex_pad|].
  unfold is_lowercase_hex. rewrite str_bytes_str. apply hex_pad_lowercase.
Qed.

Lemma format_w3c t p f s :
  (t < 16 ^ 32)%N -> (p < 16 ^ 16)%N -> format_traceparent t p f = Some s ->
  w3c_traceparent s (formatted_parts t p f).
Proof.
  unfold format_traceparent. intros Ht Hp. case_match eqn:E; [done|]. intros [= <-].
  apply orb_false_iff in E as [E1 E2]. apply N.eqb_neq in E1, E2.
  constructor; cbn [formatted_parts version trace_id parent_id trace_flags];
    try apply hex_pad_field; try done.
  - apply hex_pad_nonzero. lia.
  - apply hex_pad_nonzero. lia.
Qed.

(** ** Properties of the validator *)

(** On every string Rust can hold (valid UTF-8) [parse_traceparent]
    returns: no index is out of range and no slice cuts a character. *)
Lemma parse_traceparent_no_panic (s : string) :
  utf8_valid (str_bytes s) = true -> exists r, parse_traceparent s = Some r.
Proof. intros Hv. destruct (parse_cases s Hv) as [[_ ->]|[(_&_&->)|(_&_&->)]]; eauto. Qed.

(** C40: [parse_traceparent] accepts exactly the W3C grammar, with the four
    fields of the text as its parts. *)
Theorem parse_traceparent_iff_w3c (s : string) (p : TraceParentParts) :
  utf8_valid (str_bytes s) = true ->
  (parse_traceparent s = Some (Ok p) <-> w3c_traceparent s p).
Proof. intros Hv. split; [by apply w3c_of_parse|apply parse_of_w3c]. Qed.

(** ** Witnesses *)
Lemma parse_traceparent_no_panic_witness : exists r, parse_traceparent "not-a-traceparent" = Some r.
Proof. apply parse_traceparent_no_panic. vm_compute. reflexivity. Defined.

Lemma parse_traceparent_iff_w3c_witness :
  parse_traceparent sample_traceparent =
    Some (Ok (formatted_parts 0x0af7651916cd43dd8448eb211c80319c 0xb7ad6b7169203331 1)) <->
  w3c_traceparent sample_traceparent
    (formatted_parts 0x0af7651916cd43dd8448eb211c80319c 0xb7ad6b7169203331 1).
Proof. apply parse_traceparent_iff_w3c. vm_compute. reflexivity. Defined.
