(* ===== verification/TraceContext.v ===== *)
(** Trace identity across the wire: what the producer sends
    ([current_traceparent], crate [otk-sdk]) and what the node reads back
    ([trace_context.rs], crate [timing-node]).

    OpenTelemetry's types are not modelled: a span context is its trace-id
    bytes, span-id bytes and flags. *)
From stdpp Require Import base gmap strings list option numbers.
From Stdlib Require Import Strings.Byte.
From S2P Require Import Prelude EventModel WireProtocol.

Record SpanContext := {
  sc_trace_id : bytes;
  sc_span_id : bytes;
  sc_flags : N
}.

Definition zero_bytes (bs : bytes) : bool := forallb (fun b => bool_decide (b = x00)) bs.

(** [SpanContext::is_valid]: neither id is all-zero. *)
Definition is_valid (c : SpanContext) : bool :=
  negb (zero_bytes (sc_trace_id c)) && negb (zero_bytes (sc_span_id c)).

(** ** Producer side *)
Definition current_traceparent (span_ctx : SpanContext) : option string :=
  if negb (is_valid span_ctx) then None else
  format_traceparent (from_be_bytes (sc_trace_id span_ctx))
                     (from_be_bytes (sc_span_id span_ctx)) (sc_flags span_ctx).

(** ** Node side *)
Definition hex_nibble (b : byte) : option N :=
  if in_range 48 57 b then Some (Byte.to_N b - 48)%N
  else if in_range 97 102 b then Some (Byte.to_N b - 97 + 10)%N
  else None.

Fixpoint hex_pairs (bs : bytes) : option bytes :=
  match bs with
  | b0 :: b1 :: r =>
      let! hi := hex_nibble b0 in
      let! lo := hex_nibble b1 in
      let! out := hex_pairs r in
      Some (byte_of_N (N.lor (N.shiftl hi 4) lo) :: out)
  | _ => Some []
  end.

Definition hex_to_array (n : nat) (s : string) : option bytes :=
  if negb (length (str_bytes s) =? 2 * n)%nat then None else hex_pairs (str_bytes s).

(** [u8::from_str_radix(s, 16)]: an optional leading [+], then one or more hex
    digits of either case, with a value that fits. *)
Definition to_digit16 (b : byte) : option N :=
  if in_range 48 57 b then Some (Byte.to_N b - 48)%N
  else if in_range 97 102 b then Some (Byte.to_N b - 87)%N
  else if in_range 65 70 b then Some (Byte.to_N b - 55)%N
  else None.

Fixpoint radix16 (acc : N) (bs : bytes) : option N :=
  match bs with
  | [] => Some acc
  | b :: r => let! d := to_digit16 b in
              let v := (acc * 16 + d)%N in
              if (u8_max <? v)%N then None else radix16 v r
  end.

Definition u8_from_str_radix16 (s : string) : option N :=
  match str_bytes s with
  | [] => None
  | [b] => radix16 0 [b]
  | b :: r => if bool_decide (b = "+"%byte) then radix16 0 r else radix16 0 (b :: r)
  end.

(** The remote parent [apply_traceparent] sets on the span: [Some None] when it
    leaves the span alone, [None] when it panics. *)
Definition apply_traceparent (tp : string) : option (option SpanContext) :=
  let! r := parse_traceparent tp in
  match r with
  | Err _ => Some None
  | Ok parts =>
      match hex_to_array 16 (trace_id parts) with
      | None => Some None
      | Some trace_id_bytes =>
          match hex_to_array 8 (parent_id parts) with
          | None => Some None
          | Some span_id_bytes =>
              match u8_from_str_radix16 (trace_flags parts) with
              | None => Some None
              | Some flags_byte =>
                  if zero_bytes trace_id_bytes || zero_bytes span_id_bytes then Some None
                  else Some (Some {| sc_trace_id := trace_id_bytes; sc_span_id := span_id_bytes;
                                     sc_flags := flags_byte |})
              end
          end
      end
  end.

(** ** Lemmas *)
Lemma from_be_snoc bs b : from_be_bytes (bs ++ [b]) = (256 * from_be_bytes bs + Byte.to_N b)%N.
Proof. unfold from_be_bytes. rewrite rev_app_distr. simpl. lia. Qed.

Definition byte_hex (b : byte) : bytes := [hex_digit (Byte.to_N b / 16); hex_digit (Byte.to_N b mod 16)].

Lemma hex_pad_bytes bs :
  hex_pad (2 * length bs) (from_be_bytes bs) = flat_map byte_hex bs.
Proof.
  induction bs as [|b bs IH] using rev_ind; [done|].
  rewrite length_app, from_be_snoc, flat_map_app. simpl length.
  replace (2 * (length bs + 1)) with (S (S (2 * length bs))) by lia.
  cbn [hex_pad flat_map]. rewrite app_nil_r. pose proof (byte_to_N_lt b).
  assert (E1 : ((256 * from_be_bytes bs + Byte.to_N b) / 16 =
                from_be_bytes bs * 16 + Byte.to_N b / 16)%N).
  { replace (256 * from_be_bytes bs + Byte.to_N b)%N
      with (from_be_bytes bs * 16 * 16 + Byte.to_N b)%N by lia.
    by rewrite N.div_add_l by lia. }
  assert (Hd : (Byte.to_N b / 16 < 16)%N) by (apply N.Div0.div_lt_upper_bound; lia).
  rewrite E1, N.div_add_l, (N.div_small (_ / 16) 16), N.add_0_r by lia.
  rewrite IH, <- app_assoc. unfold byte_hex. simpl. f_equal. f_equal; [|f_equal]; f_equal.
  - rewrite N.add_comm, N.Div0.mod_add. by apply N.mod_small.
  - replace (256 * from_be_bytes bs + Byte.to_N b)%N
      with (Byte.to_N b + from_be_bytes bs * 16 * 16)%N by lia.
    by rewrite N.Div0.mod_add.
Qed.

Lemma hex_nibble_digit n : (n < 16)%N -> hex_nibble (hex_digit n) = Some n.
Proof.
  intros Hn. rewrite <- (N2Nat.id n) in *. assert (N.to_nat n < 16) by lia.
  revert H. generalize (N.to_nat n). clear. intros m Hm.
  do 16 (destruct m as [|m]; [by vm_compute|]). lia.
Qed.

Lemma nibbles_byte b :
  byte_of_N (N.lor (N.shiftl (Byte.to_N b / 16) 4) (Byte.to_N b mod 16)) = b.
Proof. by destruct b. Qed.

Lemma hex_pairs_byte_hex bs : hex_pairs (flat_map byte_hex bs) = Some bs.
Proof.
  induction bs as [|b bs IH]; [done|]. pose proof (byte_to_N_lt b).
  cbn [flat_map byte_hex app hex_pairs].
  rewrite !hex_nibble_digit, IH, nibbles_byte; [done| |].
  - apply N.mod_lt. lia.
  - apply N.Div0.div_lt_upper_bound. lia.
Qed.

Lemma hex_to_array_pad bs n :
  length bs = n -> hex_to_array n (bytes_str (hex_pad (2 * n) (from_be_bytes bs))) = Some bs.
Proof.
  intros <-. unfold hex_to_array. rewrite str_bytes_str, length_hex_pad, Nat.eqb_refl. simpl negb.
  cbv iota. rewrite hex_pad_bytes. apply hex_pairs_byte_hex.
Qed.

Lemma from_be_zero bs : from_be_bytes bs = 0%N -> zero_bytes bs = true.
Proof.
  induction bs as [|b bs IH] using rev_ind; [done|]. rewrite from_be_snoc. intros H.
  unfold zero_bytes in *. rewrite forallb_app, IH by lia. simpl. rewrite andb_true_r.
  apply bool_decide_eq_true. apply byte_to_N_inj. simpl. lia.
Qed.

Lemma flags_roundtrip f :
  (f <= u8_max)%N -> u8_from_str_radix16 (bytes_str (hex_pad 2 f)) = Some f.
Proof.
  intros Hf. rewrite <- (N2Nat.id f) in *. unfold u8_max in Hf.
  assert (Hin : N.to_nat f ∈ seq 0 256) by (apply elem_of_seq; lia).
  revert Hin. generalize (N.to_nat f). clear. intros m Hm.
  assert (Hall : forallb (fun m => bool_decide
     (u8_from_str_radix16 (bytes_str (hex_pad 2 (N.of_nat m))) = Some (N.of_nat m))) (seq 0 256) = true)
    by (vm_compute; reflexivity).
  rewrite forallb_forall in Hall. apply list_elem_of_In in Hm.
  by apply Hall, bool_decide_eq_true in Hm.
Qed.

Lemma current_traceparent_parses (c : SpanContext) (s : string) :
  length (sc_trace_id c) = 16 -> length (sc_span_id c) = 8 -> current_traceparent c = Some s ->
  parse_traceparent s = Some (Ok (formatted_parts (from_be_bytes (sc_trace_id c))
                                    (from_be_bytes (sc_span_id c)) (sc_flags c))).
Proof.
  intros Ht Hp. unfold current_traceparent. destruct (is_valid c); [|done].
  simpl negb. cbv iota. intros Hs.
  pose proof (from_be_bytes_bound (sc_trace_id c)) as Bt. rewrite Ht in Bt.
  pose proof (from_be_bytes_bound (sc_span_id c)) as Bp. rewrite Hp in Bp.
  apply format_w3c, parse_of_w3c in Hs; [done|exact Bt|exact Bp].
Qed.

(** ** Property *)

(** the trace identity a producer puts on an envelope is the one the node
    parents its span on: a valid span context survives formatting,
    validation and decoding unchanged. *)
Theorem traceparent_roundtrip (c : SpanContext) (s : string) :
  length (sc_trace_id c) = 16 -> length (sc_span_id c) = 8 -> (sc_flags c <= u8_max)%N ->
  current_traceparent c = Some s ->
  is_valid_traceparent s = Some true /\ apply_traceparent s = Some (Some c).
Proof.
  intros Ht Hp Hf Hc. pose proof (current_traceparent_parses c s Ht Hp Hc) as Hs.
  assert (Hv : is_valid c = true) by (unfold current_traceparent in Hc; by destruct (is_valid c)).
  unfold is_valid_traceparent, apply_traceparent. rewrite Hs. split; [done|].
  cbn [formatted_parts trace_id parent_id trace_flags].
  change 32 with (2 * 16). change (hex_pad 16) with (hex_pad (2 * 8)).
  rewrite (hex_to_array_pad _ 16 Ht), (hex_to_array_pad _ 8 Hp), flags_roundtrip by done.
  unfold is_valid in Hv. apply andb_true_iff in Hv as [H1 H2].
  apply negb_true_iff in H1, H2. rewrite H1, H2. by destruct c.
Qed.

Definition sample_span : SpanContext :=
  {| sc_trace_id := to_be_bytes 16 0x0af7651916cd43dd8448eb211c80319c;
     sc_span_id := to_be_bytes 8 0xb7ad6b7169203331; sc_flags := 1 |}.

Lemma traceparent_roundtrip_witness :
  is_valid_traceparent sample_traceparent = Some true /\
  apply_traceparent sample_traceparent = Some (Some sample_span).
Proof.
  apply traceparent_roundtrip; [reflexivity|reflexivity|vm_compute; discriminate|].
  vm_compute. reflexivity.
Defined.
