(* ===== verification/StreamCodec.v ===== *)
(** Length-prefixed stream framing (crate [frame-codec], [error.rs] and
    [stream.rs]).

    [encode_stream] and the incremental [StreamFrameDecoder].  The decoder's
    loop keeps its cursor [pos] into [buf]; it runs on fuel and [None] is
    either exhausted fuel or the failed [debug_assert!] at the head of [push].
    [frames] is the specification: what a stream of bytes decodes to. *)
From stdpp Require Import base gmap strings list option numbers pretty.
From Stdlib Require Import Strings.Byte.
From S2P Require Import Prelude EventModel WireProtocol.

Inductive FrameError :=
  | OversizeFrame (declared : option N) (max : N)
  | CorruptFrame
  | LostSync
  | EncodeFailed
  | DecodeFailed (e : string).

#[export] Instance FrameError_eq_dec : EqDecision FrameError.
Proof. solve_decision. Defined.

Definition FrameError_display (e : FrameError) : string :=
  match e with
  | OversizeFrame (Some len) max =>
      "frame too large: " +:+ pretty len +:+ " bytes exceeds maximum of " +:+ pretty max
  | OversizeFrame None max =>
      "frame too large: exceeded maximum of " +:+ pretty max +:+ " bytes before delimiter"
  | CorruptFrame => "corrupt frame: CRC-16/CCITT-FALSE mismatch"
  | LostSync => "lost sync: COBS decoding failed"
  | EncodeFailed => "CBOR encoding of envelope failed"
  | DecodeFailed e => "CBOR decoding of envelope failed: " +:+ e
  end.

Section Stream.
Context `{EnvCbor : Cbor OtkEnvelope}.

Definition encode_stream (envelope : OtkEnvelope) (max_frame_size : N) : result bytes FrameError :=
  let? payload := map_err (fun _ => EncodeFailed) (cbor_to_vec envelope) in
  let effective_max := N.min max_frame_size u32_max in
  if (effective_max <? len payload)%N
  then Err (OversizeFrame (Some (len payload)) effective_max)
  else Ok (to_be_bytes 4 (len payload) ++ payload).

Record StreamFrameDecoder := {
  buf : bytes;
  max_frame_size : N;
  skip_bytes : N
}.

Definition new (max_frame_size : N) : StreamFrameDecoder :=
  {| buf := []; max_frame_size := max_frame_size; skip_bytes := 0 |}.

Definition has_pending (d : StreamFrameDecoder) : bool :=
  negb (bool_decide (buf d = [])) || (0 <? skip_bytes d)%N.

(** The decoder's loop, at cursor [pos] of [b]: the results it pushes, the
    final cursor and the bytes left to skip. *)
Fixpoint push_loop (fuel : nat) (max : N) (b : bytes) (pos : nat) (skip_bytes : N)
  : option (list (result OtkEnvelope FrameError) * nat * N) :=
  match fuel with
  | O => None
  | S fuel =>
      let available := len (drop pos b) in
      let skip := N.min available skip_bytes in
      let pos := (pos + N.to_nat skip)%nat in
      let skip_bytes := (skip_bytes - skip)%N in
      if (0 <? skip_bytes)%N then Some ([], pos, skip_bytes) else
      if (len (drop pos b) <? 4)%N then Some ([], pos, skip_bytes) else
      let len_u32 := from_be_bytes (take 4 (drop pos b)) in
      if (max <? len_u32)%N then
        let! (results, pos', skip') := push_loop fuel max b (pos + 4) len_u32 in
        Some (Err (OversizeFrame (Some len_u32) max) :: results, pos', skip')
      else if (len (drop pos b) <? 4 + len_u32)%N then Some ([], pos, skip_bytes)
      else
        let n := N.to_nat len_u32 in
        let result := map_err DecodeFailed (cbor_decode (take n (drop (pos + 4) b))) in
        let! (results, pos', skip') := push_loop fuel max b (pos + 4 + n) skip_bytes in
        Some (result :: results, pos', skip')
  end.

Definition push (d : StreamFrameDecoder) (input : bytes)
  : option (list (result OtkEnvelope FrameError) * StreamFrameDecoder) :=
  if (0 <? skip_bytes d)%N && negb (bool_decide (buf d = [])) then None else
  let skip := N.min (len input) (skip_bytes d) in
  let b := buf d ++ drop (N.to_nat skip) input in
  let! (results, pos, skip') := push_loop (S (length b)) (max_frame_size d) b 0 (skip_bytes d - skip) in
  Some (results, {| buf := drop pos b; max_frame_size := max_frame_size d; skip_bytes := skip' |}).

(** Feeding a sequence of chunks, as a transport does. *)
Fixpoint push_all (d : StreamFrameDecoder) (chunks : list bytes)
  : option (list (result OtkEnvelope FrameError) * StreamFrameDecoder) :=
  match chunks with
  | [] => Some ([], d)
  | c :: cs =>
      let! (r1, d1) := push d c in
      let! (r2, d2) := push_all d1 cs in
      Some (r1 ++ r2, d2)
  end.

(** ** Specification

    [frames max skip bs rs skip' rest]: with [skip] bytes still to drop, the
    bytes [bs] decode to [rs] and leave [rest] undecoded and [skip'] to
    drop. *)
Inductive frames (max : N) : N -> bytes -> list (result OtkEnvelope FrameError) -> N -> bytes -> Prop :=
  | frames_skip_more skip bs :
      (len bs < skip)%N -> frames max skip bs [] (skip - len bs) []
  | frames_skip_done skip junk bs rs skip' rest :
      (0 < skip)%N -> len junk = skip ->
      frames max 0 bs rs skip' rest -> frames max skip (junk ++ bs) rs skip' rest
  | frames_no_header bs :
      (len bs < 4)%N -> frames max 0 bs [] 0 bs
  | frames_no_payload hdr part :
      length hdr = 4 -> (from_be_bytes hdr <= max)%N -> (len part < from_be_bytes hdr)%N ->
      frames max 0 (hdr ++ part) [] 0 (hdr ++ part)
  | frames_oversize hdr bs rs skip' rest :
      length hdr = 4 -> (max < from_be_bytes hdr)%N ->
      frames max (from_be_bytes hdr) bs rs skip' rest ->
      frames max 0 (hdr ++ bs) (Err (OversizeFrame (Some (from_be_bytes hdr)) max) :: rs) skip' rest
  | frames_frame hdr payload bs rs skip' rest :
      length hdr = 4 -> (from_be_bytes hdr <= max)%N -> len payload = from_be_bytes hdr ->
      frames max 0 bs rs skip' rest ->
      frames max 0 (hdr ++ payload ++ bs) (map_err DecodeFailed (cbor_decode payload) :: rs) skip' rest.

(** What holds of a decoder between two calls. *)
Record wf (d : StreamFrameDecoder) : Prop := {
  wf_skip : (0 < skip_bytes d)%N -> buf d = [];
  wf_skip_u32 : (skip_bytes d <= u32_max)%N;
  wf_buf : (len (buf d) < 4 + max_frame_size d)%N;
  (** No complete frame is left in the buffer. *)
  wf_stuck : frames (max_frame_size d) (skip_bytes d) (buf d) [] (skip_bytes d) (buf d)
}.

(** What follows the bytes to skip decides the frames. *)
Lemma frames_after_skip max b pos skip rs s r :
  pos <= length b ->
  let k := N.min (len (drop pos b)) skip in
  (skip - k = 0)%N -> frames max 0 (drop (pos + N.to_nat k) b) rs s r -> frames max skip (drop pos b) rs s r.
Proof.
  intros Hpos k H0 Hf. destruct (decide (skip = 0%N)) as [->|Hne].
  - replace (drop pos b) with (drop (pos + N.to_nat k) b); [done|]. f_equal. lia.
  - rewrite <- (take_drop (N.to_nat k) (drop pos b)), drop_drop. apply frames_skip_done; [lia| |done].
    unfold len. rewrite length_take. unfold len in *. lia.
Qed.

(** ** The loop implements the specification *)
Lemma len_drop_take_4 (bs : bytes) :
  (4 <= len bs)%N -> bs = take 4 bs ++ drop 4 bs /\ length (take 4 bs) = 4.
Proof. intros H. rewrite take_drop, length_take. unfold len in H. split; [done|lia]. Qed.

Lemma push_loop_frames max b fuel pos skip :
  pos <= length b -> length b - pos < fuel ->
  exists rs pos' skip', push_loop fuel max b pos skip = Some (rs, pos', skip') /\
    pos <= pos' <= length b /\ frames max skip (drop pos b) rs skip' (drop pos' b).
Proof.
  revert pos skip. induction fuel as [|fuel IH]; intros pos skip Hpos Hfuel; [lia|].
  cbn [push_loop]. set (k := N.min (len (drop pos b)) skip). set (p := pos + N.to_nat k).
  assert (Hl : len (drop pos b) = N.of_nat (length b - pos)) by (unfold len; by rewrite length_drop).
  assert (Hp : pos <= p <= length b) by lia. pose proof (fun rs s r => frames_after_skip max b pos skip rs s r Hpos) as Hskip.
  cbv zeta in Hskip. fold k p in Hskip.
  case_match eqn:E1.
  { apply N.ltb_lt in E1. eexists _, _, _. split; [done|split; [done|]].
    assert (Ek : k = len (drop pos b)) by lia. rewrite Ek.
    replace (drop p b) with (@nil byte) by (symmetry; apply drop_ge; lia).
    apply frames_skip_more. lia. }
  apply N.ltb_ge in E1. assert (H0 : (skip - k = 0)%N) by lia. rewrite !H0.
  case_match eqn:E2.
  { apply N.ltb_lt in E2. eexists _, _, _. split; [done|split; [done|]].
    apply Hskip; [done|]. by apply frames_no_header. }
  apply N.ltb_ge in E2. destruct (len_drop_take_4 (drop p b) E2) as [Hsplit H4].
  assert (Hp4 : p + 4 <= length b).
  { unfold len in E2. rewrite length_drop in E2. lia. }
  rewrite drop_drop in Hsplit. set (hdr := take 4 (drop p b)) in *.
  case_match eqn:E3.
  - apply N.ltb_lt in E3.
    destruct (IH (p + 4) (from_be_bytes hdr)) as (rs & pos' & s' & -> & ? & Hf); [lia..|].
    eexists _, _, _. split; [done|]. split; [lia|]. apply Hskip; [done|].
    rewrite Hsplit. by apply frames_oversize.
  - apply N.ltb_ge in E3. case_match eqn:E4.
    { apply N.ltb_lt in E4. eexists _, _, _. split; [done|split; [done|]]. apply Hskip; [done|].
      rewrite Hsplit. apply frames_no_payload; [done..|].
      rewrite Hsplit, len_app in E4. unfold len in *. lia. }
    apply N.ltb_ge in E4. set (n := N.to_nat (from_be_bytes hdr)).
    assert (Hn : p + 4 + n <= length b).
    { unfold len in E4. rewrite length_drop in E4. lia. }
    destruct (IH (p + 4 + n) 0%N) as (rs & pos' & s' & -> & ? & Hf); [lia..|].
    eexists _, _, _. split; [done|]. split; [lia|]. apply Hskip; [done|].
    rewrite Hsplit, <- (take_drop n (drop (p + 4) b)) at 1. rewrite drop_drop.
    apply frames_frame; [done..| |done].
    unfold len. rewrite length_take, length_drop. lia.
Qed.

(** ** The specification is deterministic and compositional *)
Lemma frames_det max s bs rs s1 r1 rs2 s2 r2 :
  frames max s bs rs s1 r1 -> frames max s bs rs2 s2 r2 -> rs = rs2 /\ s1 = s2 /\ r1 = r2.
Proof.
  intros H. revert rs2 s2 r2.
  induction H as [skip bs Hlt|skip junk bs rs s' r Hpos Hj H IH|bs Hs|hdr part Hh Hm Hs
                 |hdr bs rs s' r Hh Hm H IH|hdr pl bs rs s' r Hh Hm Hp H IH];
    intros rs2 s2 r2 H2; inv H2; try lia; try done;
    repeat match goal with
    | E : ?x ++ _ = ?y ++ _ |- _ =>
        apply app_inj_1 in E as [? ?]; [simplify_eq | unfold len in *; lia]
    end; try lia; try done;
    repeat match goal with
    | E : (len _ < _)%N |- _ => progress rewrite ?len_app in E
    end; unfold len in *; try lia.
  - by apply IH.
  - edestruct IH as (-> & -> & ->); [done|]. done.
  - edestruct IH as (-> & -> & ->); [done|]. done.
Qed.

Lemma frames_skip_app max skip junk b rs s r :
  (len junk <= skip)%N -> frames max (skip - len junk) b rs s r -> frames max skip (junk ++ b) rs s r.
Proof.
  intros Hj Hf. destruct (decide (len junk = skip)) as [He|Hne].
  { destruct (decide (skip = 0%N)) as [->|].
    - apply len_zero_nil in He as ->. by rewrite N.sub_0_l in Hf.
    - rewrite He, N.sub_diag in Hf. apply frames_skip_done; [lia|done..]. }
  inv Hf; try lia.
  - replace (skip - len junk - len b)%N with (skip - len (junk ++ b))%N by (rewrite len_app; lia).
    apply frames_skip_more. rewrite len_app. lia.
  - rewrite app_assoc. apply frames_skip_done; [lia| |done]. rewrite len_app. lia.
Qed.

Lemma frames_app max s a b rs1 s1 r1 rs2 s2 r2 :
  frames max s a rs1 s1 r1 -> frames max s1 (r1 ++ b) rs2 s2 r2 ->
  frames max s (a ++ b) (rs1 ++ rs2) s2 r2.
Proof.
  induction 1 as [skip bs Hlt|skip junk bs rs s' r Hpos Hj H IH|bs Hs|hdr part Hh Hm Hs
                 |hdr bs rs s' r Hh Hm H IH|hdr pl bs rs s' r Hh Hm Hp H IH];
    intros H2; simpl; try done;
    repeat rewrite <- app_assoc.
  - apply frames_skip_app; [lia|done].
  - apply frames_skip_done; eauto.
  - apply frames_oversize; eauto.
  - apply frames_frame; eauto.
Qed.

Lemma header_u32 (hdr : bytes) : length hdr = 4 -> (from_be_bytes hdr <= u32_max)%N.
Proof.
  intros H. pose proof (from_be_bytes_bound hdr) as B. rewrite H in B.
  change (256 ^ N.of_nat 4)%N with 4294967296%N in B. unfold u32_max. lia.
Qed.

Lemma frames_end max s bs rs s' r :
  frames max s bs rs s' r -> (s <= u32_max)%N ->
  ((0 < s')%N -> r = []) /\ (s' <= u32_max)%N /\ (len r < 4 + max)%N /\ frames max s' r [] s' r.
Proof.
  induction 1 as [skip bs Hlt|skip junk bs rs s' r Hpos Hj H IH|bs Hs|hdr part Hh Hm Hs
                 |hdr bs rs s' r Hh Hm H IH|hdr pl bs rs s' r Hh Hm Hp H IH]; intros Hu.
  - split; [done|]. split; [lia|]. split; [len_simpl|].
    replace (skip - len bs)%N with ((skip - len bs) - len (@nil byte))%N at 2 by len_simpl.
    apply frames_skip_more. len_simpl.
  - apply IH. lia.
  - repeat split; [lia|lia|lia|by apply frames_no_header].
  - repeat split; [lia|lia| |by apply frames_no_payload]. rewrite len_app. unfold len in *. lia.
  - by apply IH, header_u32.
  - apply IH. lia.
Qed.

Lemma new_wf max : wf (new max).
Proof. split; simpl; [done|unfold u32_max; lia|len_simpl|]. apply frames_no_header. len_simpl. Qed.

Lemma push_spec d input :
  wf d -> exists rs d', push d input = Some (rs, d') /\ wf d' /\ max_frame_size d' = max_frame_size d /\
    frames (max_frame_size d) (skip_bytes d) (buf d ++ input) rs (skip_bytes d') (buf d').
Proof.
  intros Hwf. unfold push.
  assert (Hg : (0 <? skip_bytes d)%N && negb (bool_decide (buf d = [])) = false).
  { destruct (0 <? skip_bytes d)%N eqn:E; [|done]. apply N.ltb_lt in E.
    by rewrite (bool_decide_eq_true_2 _ (wf_skip d Hwf E)). }
  rewrite Hg. set (k := N.min (len input) (skip_bytes d)).
  set (b := buf d ++ drop (N.to_nat k) input).
  destruct (push_loop_frames (max_frame_size d) b (S (length b)) 0 (skip_bytes d - k))
    as (rs & pos & s' & -> & Hpos & Hf); [lia..|].
  eexists _, _. split; [done|]. cbn [buf max_frame_size skip_bytes]. rewrite drop_0 in Hf.
  assert (Hf' : frames (max_frame_size d) (skip_bytes d) (buf d ++ input) rs s' (drop pos b)).
  { destruct (decide (skip_bytes d = 0%N)) as [E|E].
    - assert (k = 0%N) as Hk by lia. unfold b in Hf at 1. rewrite Hk, drop_0, N.sub_0_r in Hf.
      exact Hf.
    - assert (buf d = []) as Hb by (apply wf_skip; [done|lia]). unfold b in Hf at 1. rewrite Hb in *.
      rewrite app_nil_l in *. rewrite <- (take_drop (N.to_nat k) input).
      assert (Hk : len (take (N.to_nat k) input) = k).
      { unfold len. rewrite length_take. unfold len in k. lia. }
      apply frames_skip_app; rewrite Hk; [lia|]. exact Hf. }
  destruct (frames_end _ _ _ _ _ _ Hf' (wf_skip_u32 d Hwf)) as (? & ? & ? & ?).
  repeat split; cbn [buf max_frame_size skip_bytes]; try done.
Qed.

Lemma push_frames d input rs d' :
  wf d -> push d input = Some (rs, d') ->
  wf d' /\ max_frame_size d' = max_frame_size d /\
  frames (max_frame_size d) (skip_bytes d) (buf d ++ input) rs (skip_bytes d') (buf d').
Proof.
  intros Hwf Hp. destruct (push_spec d input Hwf) as (rs0 & d0 & Hp0 & ?). by simplify_eq.
Qed.

Lemma frames_push d input rs d' :
  wf d -> max_frame_size d' = max_frame_size d ->
  frames (max_frame_size d) (skip_bytes d) (buf d ++ input) rs (skip_bytes d') (buf d') ->
  push d input = Some (rs, d').
Proof.
  intros Hwf Hm Hf. destruct (push_spec d input Hwf) as (rs0 & d0 & -> & _ & Hm0 & Hf0).
  destruct (frames_det _ _ _ _ _ _ _ _ _ Hf0 Hf) as (-> & ? & ?).
  destruct d0, d'; simpl in *; congruence.
Qed.

Lemma push_all_app d cs1 cs2 :
  push_all d (cs1 ++ cs2) =
    let! (r1, d1) := push_all d cs1 in
    let! (r2, d2) := push_all d1 cs2 in Some (r1 ++ r2, d2).
Proof.
  revert d. induction cs1 as [|c cs1 IH]; intros d; simpl.
  - by destruct (push_all d cs2) as [[r2 d2]|].
  - destruct (push d c) as [[r1 d1]|]; [|done]. rewrite IH.
    destruct (push_all d1 cs1) as [[r2 d2]|]; [|done].
    destruct (push_all d2 cs2) as [[r3 d3]|]; [|done]. by rewrite app_assoc.
Qed.

Lemma push_nil d : wf d -> push d [] = Some ([], d).
Proof. intros Hwf. apply frames_push; [done..|]. rewrite app_nil_r. apply Hwf. Qed.

Lemma push_all_concat d chunks : wf d -> push_all d chunks = push d (concat chunks).
Proof.
  revert d. induction chunks as [|c cs IH]; intros d Hwf; simpl; [by rewrite push_nil|].
  destruct (push_spec d c Hwf) as (r1 & d1 & -> & Hwf1 & Hm1 & Hf1). rewrite IH by done.
  destruct (push_spec d1 (concat cs) Hwf1) as (r2 & d2 & -> & _ & Hm2 & Hf2). symmetry.
  apply frames_push; [done|congruence|]. rewrite app_assoc, Hm1 in *. eauto using frames_app.
Qed.

(** ** Encoded frames *)
Lemma encode_stream_ok e m f :
  encode_stream e m = Ok f ->
  exists p, cbor_to_vec e = Ok p /\ (len p <= N.min m u32_max)%N /\ f = to_be_bytes 4 (len p) ++ p.
Proof.
  unfold encode_stream. destruct (cbor_to_vec e) as [p|]; simpl; [|done].
  case_match eqn:E; intros H; simplify_eq. apply N.ltb_ge in E. eauto.
Qed.

Lemma from_be_header (p : bytes) :
  (len p <= u32_max)%N -> from_be_bytes (to_be_bytes 4 (len p)) = len p.
Proof.
  intros Hp. apply from_to_be_bytes. change (256 ^ N.of_nat 4)%N with 4294967296%N.
  unfold u32_max in Hp. lia.
Qed.

Context `{!CborLaws OtkEnvelope}.

Definition encoded (m : N) (e : OtkEnvelope) (f : bytes) : Prop := encode_stream e m = Ok f.

Lemma frames_encoded max m es fs tail rs s r :
  (m <= max)%N -> Forall2 (encoded m) es fs ->
  frames max 0 tail rs s r -> frames max 0 (concat fs ++ tail) ((Ok <$> es) ++ rs) s r.
Proof.
  intros Hm H Ht. induction H as [|e f es fs (p & Hp & Hl & ->)%encode_stream_ok _ IH]; [done|].
  assert (Hb : from_be_bytes (to_be_bytes 4 (len p)) = len p) by (apply from_be_header; lia).
  simpl. rewrite <- !app_assoc.
  pose proof (frames_frame max (to_be_bytes 4 (len p)) p (concat fs ++ tail)
                ((Ok <$> es) ++ rs) s r) as Hf.
  rewrite Hb, (cbor_roundtrip e p Hp) in Hf. apply Hf; [apply length_to_be_bytes|lia|done..].
Qed.

(** A strict prefix of a frame decodes to nothing and stays buffered. *)
Lemma frames_part max m e part rest :
  (m <= max)%N -> encoded m e (part ++ rest) -> rest <> [] -> frames max 0 part [] 0 part.
Proof.
  intros Hm (p & Hp & Hl & Heq)%encode_stream_ok Hr.
  destruct (decide (length part < 4)) as [Hs|Hs].
  { apply frames_no_header. unfold len. lia. }
  assert (Hb : from_be_bytes (to_be_bytes 4 (len p)) = len p) by (apply from_be_header; lia).
  assert (Hh : take 4 part = to_be_bytes 4 (len p)).
  { rewrite <- (take_app_le part rest) by lia. rewrite Heq.
    apply take_app_len. by rewrite length_to_be_bytes. }
  rewrite <- (take_drop 4 part), Hh. apply frames_no_payload; [apply length_to_be_bytes|lia|].
  rewrite Hb. apply (f_equal length) in Heq. rewrite !length_app, length_to_be_bytes in Heq.
  unfold len. rewrite length_drop. destruct rest; [done|]. simpl in Heq. lia.
Qed.

(** ** Properties *)

(** from every state the decoder can be in, one call of [push] ends
    without a panic and produces exactly the results, the leftover bytes and
    the skip count of the frame grammar, and leaves a well-formed decoder. *)
Theorem stream_push_refines (d : StreamFrameDecoder) (input : bytes) :
  wf d ->
  exists rs d', push d input = Some (rs, d') /\ wf d' /\ max_frame_size d' = max_frame_size d /\
    forall rs' skip' rest,
      frames (max_frame_size d) (skip_bytes d) (buf d ++ input) rs' skip' rest <->
      rs' = rs /\ skip' = skip_bytes d' /\ rest = buf d'.
Proof.
  intros Hwf. destruct (push_spec d input Hwf) as (rs & d' & Hp & Hwf' & Hm & Hf).
  exists rs, d'. repeat (split; [done|]). intros rs' skip' rest. split.
  - intros Hf'. by eapply frames_det.
  - intros (-> & -> & ->). done.
Qed.

(** how a transport cuts the byte stream into reads does not matter:
    feeding the chunks one by one gives the results and the final state of
    feeding their concatenation at once. *)
Theorem stream_chunking (max : N) (chunks : list bytes) :
  push_all (new max) chunks = push (new max) (concat chunks) /\
  exists rs d', push (new max) (concat chunks) = Some (rs, d').
Proof.
  split; [apply push_all_concat, new_wf|].
  destruct (push_spec _ (concat chunks) (new_wf max)) as (rs & d' & ? & _). eauto.
Qed.

(** round trip and end of stream: envelopes framed by [encode_stream] and
    followed by a strict prefix of one more frame decode, under any chunking,
    to exactly those envelopes, and [has_pending] tells a clean close from a
    truncated frame. *)
Theorem stream_roundtrip (m max : N) es fs e part rest (chunks : list bytes) :
  (m <= max)%N -> Forall2 (fun e f => encode_stream e m = Ok f) es fs ->
  encode_stream e m = Ok (part ++ rest) -> rest <> [] ->
  concat chunks = concat fs ++ part ->
  exists d', push_all (new max) chunks = Some (Ok <$> es, d') /\ buf d' = part /\
    has_pending d' = negb (bool_decide (part = [])).
Proof.
  intros Hm Hes He Hr Hc.
  exists {| buf := part; max_frame_size := max; skip_bytes := 0 |}.
  split; [|split; [done|unfold has_pending; simpl; by rewrite orb_false_r]].
  rewrite push_all_concat, Hc by apply new_wf.
  apply frames_push; [apply new_wf|done|]. simpl.
  rewrite <- (app_nil_r (Ok <$> es)). eapply frames_encoded; eauto using frames_part.
Qed.

(** an oversize frame costs one error and its own bytes: the frames after
    it decode as if it had not been sent, and the decoder never holds more
    than one header and one maximal payload. *)
Theorem stream_oversize_resync (m max : N) hdr junk es fs (chunks : list bytes) :
  length hdr = 4 -> (max < from_be_bytes hdr)%N -> len junk = from_be_bytes hdr ->
  (m <= max)%N -> Forall2 (fun e f => encode_stream e m = Ok f) es fs ->
  concat chunks = hdr ++ junk ++ concat fs ->
  push_all (new max) chunks =
    Some (Err (OversizeFrame (Some (from_be_bytes hdr)) max) :: (Ok <$> es), new max).
Proof.
  intros Hh Hmax Hj Hm Hes Hc. rewrite push_all_concat, Hc by apply new_wf.
  apply frames_push; [apply new_wf|done|]. simpl. apply frames_oversize; [done..|].
  apply frames_skip_done; [lia|done|].
  rewrite <- (app_nil_r (concat fs)), <- (app_nil_r (Ok <$> es)).
  eapply frames_encoded; eauto. apply frames_no_header. len_simpl.
Qed.

(** Memory bound: after any input the decoder buffers fewer than
    [4 + max_frame_size] bytes, and none while it skips. *)
Lemma stream_buffer_bounded (max : N) (chunks : list bytes) rs d' :
  push_all (new max) chunks = Some (rs, d') ->
  (len (buf d') < 4 + max)%N /\ ((0 < skip_bytes d')%N -> buf d' = []).
Proof.
  rewrite push_all_concat by apply new_wf. intros Hp.
  destruct (push_frames _ _ _ _ (new_wf max) Hp) as (Hwf & Hm & _).
  split; [|apply Hwf]. pose proof (wf_buf d' Hwf) as B. by rewrite Hm in B.
Qed.
End Stream.

(** ** Witnesses *)
Definition sample_envelope : OtkEnvelope :=
  {| protocol_version := 0; message_type := MtHeartbeat; source_id := id_new "p";
     stream_id := None; env_sequence_number := None; correlation_id := None;
     payload := None; traceparent := None |}.

Definition sample_cbor : Cbor OtkEnvelope :=
  table_cbor [(sample_envelope, [xa1; x00; xff])].

Lemma sample_cbor_laws : @CborLaws _ sample_cbor.
Proof. apply table_cbor_laws. simpl. apply NoDup_singleton. Qed.

Definition sample_frame : bytes := [x00; x00; x00; x03; xa1; x00; xff].

Lemma stream_push_refines_witness :
  exists rs d', @push sample_cbor (new 8) sample_frame = Some (rs, d') /\ @wf sample_cbor d' /\
    max_frame_size d' = 8%N /\
    forall rs' skip' rest, @frames sample_cbor 8 0 sample_frame rs' skip' rest <->
      rs' = rs /\ skip' = skip_bytes d' /\ rest = buf d'.
Proof. exact (@stream_push_refines sample_cbor (new 8) sample_frame (new_wf 8)). Defined.

Lemma stream_roundtrip_witness :
  exists d', @push_all sample_cbor (new 8) [[x00; x00]; [x00; x03; xa1; x00; xff; x00]] =
      Some ([Ok sample_envelope], d') /\ buf d' = [x00] /\ has_pending d' = true.
Proof.
  apply (@stream_roundtrip sample_cbor sample_cbor_laws 8 8 [sample_envelope] [sample_frame]
           sample_envelope [x00] [x00; x00; x03; xa1; x00; xff]);
    [lia| |reflexivity|discriminate|reflexivity].
  constructor; [reflexivity|constructor].
Defined.

Lemma stream_oversize_resync_witness :
  @push_all sample_cbor (new 3) [[x00; x00; x00; x04; x2a]; [x2a; x2a; x2a] ++ sample_frame] =
    Some ([Err (OversizeFrame (Some 4%N) 3); Ok sample_envelope], new 3).
Proof.
  apply (@stream_oversize_resync sample_cbor sample_cbor_laws 3 3 [x00; x00; x00; x04]
           [x2a; x2a; x2a; x2a] [sample_envelope] [sample_frame]);
    [reflexivity|reflexivity|reflexivity|lia| |reflexivity].
  constructor; [reflexivity|constructor].
Defined.

Lemma stream_buffer_bounded_witness :
  (len (buf {| buf := [x00; x00]; max_frame_size := 3; skip_bytes := 0 |}) < 4 + 3)%N /\
  ((0 < skip_bytes {| buf := [x00; x00]; max_frame_size := 3; skip_bytes := 0 |})%N ->
   buf {| buf := [x00; x00]; max_frame_size := 3; skip_bytes := 0 |} = []).
Proof. apply (@stream_buffer_bounded sample_cbor 3 [[x00]; [x00]] []). reflexivity. Defined.
