(* ===== verification/SerialCodec.v ===== *)
(** COBS serial framing (crate [frame-codec], [serial.rs]): the CRC-16, the
    encoder and the byte-driven decoder.

    The [cobs] crate is a parameter, class [Cobs], with its documented
    behaviour as [CobsLaws].  The decoder's [scratch] buffer only saves
    allocations and is left out: the decoded slice is the value of
    [cobs_decode]. *)
From stdpp Require Import base gmap strings list option numbers.
From Stdlib Require Import Strings.Byte.
From S2P Require Import Prelude EventModel WireProtocol StreamCodec.

(** [cobs::max_encoding_length], [cobs::encode] (the bytes it writes) and
    [cobs::decode]. *)
Class Cobs : Type := {
  max_encoding_length : N -> N;
  cobs_encode : bytes -> bytes;
  cobs_decode : bytes -> option bytes
}.

Class CobsLaws {C : Cobs} : Prop := {
  cobs_decode_encode bs : cobs_decode (cobs_encode bs) = Some bs;
  cobs_encode_no_zero bs : x00 ∉ cobs_encode bs;
  cobs_encode_nonempty bs : bs <> [] -> cobs_encode bs <> [];
  cobs_encode_len bs : (len (cobs_encode bs) <= max_encoding_length (len bs))%N;
  max_encoding_length_mono m n :
    (m <= n)%N -> (max_encoding_length m <= max_encoding_length n)%N
}.

(** ** CRC-16/CCITT-FALSE *)
Definition crc_shift (crc : N) : N :=
  if negb (N.land crc 0x8000 =? 0)%N
  then N.lxor (N.land (N.shiftl crc 1) 0xFFFF) 0x1021
  else N.land (N.shiftl crc 1) 0xFFFF.

Definition crc_byte (crc : N) (byte : byte) : N :=
  Nat.iter 8 crc_shift (N.lxor crc (N.shiftl (Byte.to_N byte) 8)).

Arguments crc_byte : simpl never.

Definition crc16_ccitt_false (data : bytes) : N := fold_left crc_byte data 0xFFFF%N.

Section Serial.
Context `{EnvCbor : Cbor OtkEnvelope} `{CobsOps : Cobs}.

Definition encode_serial (envelope : OtkEnvelope) (max_frame_size : N) : result bytes FrameError :=
  let? payload := map_err (fun _ => EncodeFailed) (cbor_to_vec envelope) in
  if (max_frame_size <? len payload)%N
  then Err (OversizeFrame (Some (len payload)) max_frame_size)
  else
    let crc := to_be_bytes 2 (crc16_ccitt_false payload) in
    let with_crc := payload ++ crc in
    Ok (cobs_encode with_crc ++ [x00]).

Record SerialFrameDecoder := {
  buf : bytes;
  max_frame_size : N;
  max_wire_size : N;
  discarding : bool
}.

Definition new (max_frame_size : N) : SerialFrameDecoder :=
  {| buf := []; max_frame_size := max_frame_size;
     max_wire_size := max_encoding_length (N.min usize_max (max_frame_size + 2));
     discarding := false |}.

Definition has_pending (d : SerialFrameDecoder) : bool :=
  negb (bool_decide (buf d = [])) || discarding d.

(** What a delimited frame decodes to. *)
Definition decode_frame (max_frame_size : N) (frame : bytes) : result OtkEnvelope FrameError :=
  match cobs_decode frame with
  | Some decoded =>
      if (length decoded <? 2)%nat then Err CorruptFrame else
      let payload := take (length decoded - 2) decoded in
      let received_crc := from_be_bytes (drop (length decoded - 2) decoded) in
      if negb (crc16_ccitt_false payload =? received_crc)%N then Err CorruptFrame else
      if (max_frame_size <? len payload)%N
      then Err (OversizeFrame (Some (len payload)) max_frame_size)
      else match cbor_decode payload with
           | Ok envelope => Ok envelope
           | Err e => Err (DecodeFailed e)
           end
  | None => Err LostSync
  end.

(** One iteration of the loop of [push]. *)
Definition push_byte (d : SerialFrameDecoder) (b : byte)
  : list (result OtkEnvelope FrameError) * SerialFrameDecoder :=
  if bool_decide (b = x00) then
    let d' := {| buf := []; max_frame_size := max_frame_size d;
                 max_wire_size := max_wire_size d; discarding := false |} in
    if bool_decide (buf d = []) then ([], d')
    else ([decode_frame (max_frame_size d) (buf d)], d')
  else if discarding d then ([], d)
  else if (max_wire_size d <=? len (buf d))%N then
    ([Err (OversizeFrame None (max_frame_size d))],
     {| buf := []; max_frame_size := max_frame_size d;
        max_wire_size := max_wire_size d; discarding := true |})
  else
    ([], {| buf := buf d ++ [b]; max_frame_size := max_frame_size d;
            max_wire_size := max_wire_size d; discarding := false |}).

Fixpoint push (d : SerialFrameDecoder) (input : bytes)
  : list (result OtkEnvelope FrameError) * SerialFrameDecoder :=
  match input with
  | [] => ([], d)
  | b :: input' =>
      let (r1, d1) := push_byte d b in
      let (r2, d2) := push d1 input' in
      (r1 ++ r2, d2)
  end.

Fixpoint push_all (d : SerialFrameDecoder) (chunks : list bytes)
  : list (result OtkEnvelope FrameError) * SerialFrameDecoder :=
  match chunks with
  | [] => ([], d)
  | c :: cs =>
      let (r1, d1) := push d c in
      let (r2, d2) := push_all d1 cs in
      (r1 ++ r2, d2)
  end.

(** What holds of a decoder between two bytes. *)
Record wf (max : N) (d : SerialFrameDecoder) : Prop := {
  wf_max : max_frame_size d = max;
  wf_wire : max_wire_size d = max_encoding_length (N.min usize_max (max + 2));
  wf_buf : (len (buf d) <= max_wire_size d)%N;
  wf_discarding : discarding d = true -> buf d = []
}.

End Serial.

Example crc_check_value :
  crc16_ccitt_false (str_bytes "123456789") = 0x29B1%N.
Proof. reflexivity. Qed.

(** ** CRC facts *)
Definition shift16 (x : N) : N :=
  N.lxor (N.land (N.shiftl x 1) 0xFFFF) (if N.testbit x 15 then 0x1021 else 0).

Lemma crc_shift_shift16 x : crc_shift x = shift16 x.
Proof.
  unfold crc_shift, shift16. change 0x8000%N with (2 ^ 15)%N.
  assert (E : (N.land x (2 ^ 15) =? 0)%N = negb (N.testbit x 15)).
  { destruct (N.testbit x 15) eqn:Hb; simpl negb.
    - apply N.eqb_neq. intros H0. apply (f_equal (fun z => N.testbit z 15)) in H0.
      rewrite N.land_spec, Hb in H0. done.
    - apply N.eqb_eq, N.bits_inj_0. intros n. rewrite N.land_spec.
      destruct (decide (n = 15%N)) as [->|Hn]; [by rewrite Hb|].
      rewrite N.pow2_bits_false, andb_false_r by done. done. }
  rewrite E. destruct (N.testbit x 15); simpl negb; cbv iota; [done|by rewrite N.lxor_0_r].
Qed.

Lemma shift16_lxor x y : shift16 (N.lxor x y) = N.lxor (shift16 x) (shift16 y).
Proof.
  unfold shift16. rewrite N.lxor_spec, N.shiftl_lxor.
  assert (E : forall a b m, N.land (N.lxor a b) m = N.lxor (N.land a m) (N.land b m)).
  { intros a b m. apply N.bits_inj. intros n. rewrite N.land_spec, !N.lxor_spec, !N.land_spec.
    by destruct (N.testbit a n), (N.testbit b n), (N.testbit m n). }
  rewrite E. generalize (N.land (N.shiftl x 1) 65535), (N.land (N.shiftl y 1) 65535), 4129%N.
  intros a b p. apply N.bits_inj. intros n. rewrite !N.lxor_spec.
  destruct (N.testbit x 15), (N.testbit y 15); simpl xorb; cbv iota; rewrite ?N.bits_0;
    destruct (N.testbit a n), (N.testbit b n), (N.testbit p n); done.
Qed.

Lemma crc_shift_lxor x y : crc_shift (N.lxor x y) = N.lxor (crc_shift x) (crc_shift y).
Proof. rewrite !crc_shift_shift16. apply shift16_lxor. Qed.

Lemma iter_shift_lxor k x y :
  Nat.iter k crc_shift (N.lxor x y) = N.lxor (Nat.iter k crc_shift x) (Nat.iter k crc_shift y).
Proof. induction k as [|k IH]; simpl; [done|]. by rewrite IH, crc_shift_lxor. Qed.

(** The inverse of one shift on 16-bit words. *)
Definition crc_unshift (y : N) : N :=
  if N.testbit y 0 then N.lor (N.shiftr (N.lxor y 0x1021) 1) 0x8000 else N.shiftr y 1.

Definition u16_below (n : N) (f : N -> bool) : bool :=
  N.peano_rect (fun _ => bool) true (fun k r => f k && r) n.

Lemma u16_below_spec n f : u16_below n f = true -> forall k, (k < n)%N -> f k = true.
Proof.
  unfold u16_below. induction n as [|n IH] using N.peano_ind; [intros _ k Hk; lia|].
  rewrite N.peano_rect_succ. intros [Hf Hr]%andb_true_iff k Hk.
  destruct (decide (k = n)) as [->|]; [done|]. apply IH; [done|lia].
Qed.

Lemma crc_unshift_shift x : (x < 65536)%N -> crc_unshift (crc_shift x) = x.
Proof.
  intros Hx.
  assert (H : u16_below 65536 (fun x => (crc_unshift (crc_shift x) =? x)%N) = true)
    by (vm_compute; reflexivity).
  pose proof (u16_below_spec _ _ H x Hx) as E. by apply N.eqb_eq in E.
Qed.

Lemma crc_shift_bound x : (crc_shift x < 65536)%N.
Proof.
  rewrite crc_shift_shift16. unfold shift16. change 0xFFFF%N with (N.ones 16).
  rewrite N.land_ones. change 65536%N with (2 ^ 16)%N.
  assert (H1 : (N.shiftl x 1 mod 2 ^ 16 < 2 ^ 16)%N) by (apply N.mod_lt; done).
  revert H1. generalize (N.shiftl x 1 mod 2 ^ 16)%N. intros a Ha.
  destruct (N.eq_dec (N.lxor a (if N.testbit x 15 then 4129 else 0)) 0%N) as [->|Hne]; [done|].
  apply N.log2_lt_pow2; [lia|]. eapply N.le_lt_trans; [apply N.log2_lxor|].
  apply N.max_lub_lt; [|by destruct (N.testbit x 15)].
  destruct (N.eq_dec a 0%N) as [->|]; [done|]. apply N.log2_lt_pow2; lia.
Qed.

Lemma iter_shift_bound k x : (x < 65536)%N -> (Nat.iter k crc_shift x < 65536)%N.
Proof. destruct k; simpl; [done|]. intros _. apply crc_shift_bound. Qed.

Lemma iter_shift_inj k x y :
  (x < 65536)%N -> (y < 65536)%N -> Nat.iter k crc_shift x = Nat.iter k crc_shift y -> x = y.
Proof.
  intros Hx Hy. induction k as [|k IH]; simpl; [done|]. intros H. apply IH.
  rewrite <- (crc_unshift_shift (Nat.iter k crc_shift x)), H by (by apply iter_shift_bound).
  apply crc_unshift_shift. by apply iter_shift_bound.
Qed.

Lemma crc_byte_bound c b : (crc_byte c b < 65536)%N.
Proof. unfold crc_byte. apply (crc_shift_bound (Nat.iter 7 crc_shift _)). Qed.

Lemma fold_crc_bound bs c : (c < 65536)%N -> (fold_left crc_byte bs c < 65536)%N.
Proof. revert c. induction bs; intros c Hc; simpl; [done|]. apply IHbs, crc_byte_bound. Qed.

Lemma iter_8_byte b : Nat.iter 8 crc_shift (Byte.to_N b) = N.shiftl (Byte.to_N b) 8.
Proof. by destruct b. Qed.

Definition word (a b : byte) : N := (256 * Byte.to_N a + Byte.to_N b)%N.

Lemma word_bound a b : (word a b < 65536)%N.
Proof. unfold word. pose proof (byte_to_N_lt a). pose proof (byte_to_N_lt b). lia. Qed.

Lemma word_lxor a b : N.lxor (N.shiftl (Byte.to_N a) 8) (Byte.to_N b) = word a b.
Proof.
  unfold word. rewrite <- N.add_nocarry_lxor.
  - rewrite N.shiftl_mul_pow2. change (2 ^ 8)%N with 256%N. lia.
  - apply N.bits_inj_0. intros n. rewrite N.land_spec. destruct (decide (n < 8)%N) as [Hn|Hn].
    + by rewrite N.shiftl_spec_low.
    + rewrite (N.testbit_eqb (Byte.to_N b)), N.div_small; [by rewrite andb_false_r|].
      pose proof (byte_to_N_lt b). change 256%N with (2 ^ 8)%N in H.
      eapply N.lt_le_trans; [exact H|]. apply N.pow_le_mono_r; lia.
Qed.

Lemma word_inj a b a' b' : word a b = word a' b' -> a = a' /\ b = b'.
Proof.
  unfold word. pose proof (byte_to_N_lt b). pose proof (byte_to_N_lt b'). intros E.
  split; apply byte_to_N_inj; lia.
Qed.

(** Two bytes at once: the 16-bit word enters the register in one piece. *)
Lemma crc_two c a b : crc_byte (crc_byte c a) b = Nat.iter 16 crc_shift (N.lxor c (word a b)).
Proof.
  unfold crc_byte. rewrite <- (iter_8_byte b), <- iter_shift_lxor, N.lxor_assoc, word_lxor.
  by rewrite <- Nat.iter_add.
Qed.

Lemma lxor_u16 c w : (c < 65536)%N -> (w < 65536)%N -> (N.lxor c w < 65536)%N.
Proof.
  intros Hc Hw. destruct (N.eq_dec (N.lxor c w) 0%N) as [->|Hne]; [done|].
  change 65536%N with (2 ^ 16)%N in *. apply N.log2_lt_pow2; [lia|].
  eapply N.le_lt_trans; [apply N.log2_lxor|].
  apply N.max_lub_lt;
    [destruct (N.eq_dec c 0%N) as [->|] | destruct (N.eq_dec w 0%N) as [->|]]; try done;
    apply N.log2_lt_pow2; lia.
Qed.

Lemma crc_two_inj c a b a' b' :
  (c < 65536)%N -> crc_byte (crc_byte c a) b = crc_byte (crc_byte c a') b' -> a = a' /\ b = b'.
Proof.
  intros Hc. rewrite !crc_two. intros E.
  apply iter_shift_inj in E; [|by apply lxor_u16, word_bound..].
  apply (f_equal (N.lxor c)) in E. rewrite <- !N.lxor_assoc, N.lxor_nilpotent, !N.lxor_0_l in E.
  by apply word_inj.
Qed.

Lemma crc_byte_inj c c' b :
  (c < 65536)%N -> (c' < 65536)%N -> crc_byte c b = crc_byte c' b -> c = c'.
Proof.
  intros Hc Hc' E. unfold crc_byte in E.
  assert (Hs : (N.shiftl (Byte.to_N b) 8 < 65536)%N).
  { pose proof (byte_to_N_lt b). rewrite N.shiftl_mul_pow2. change (2 ^ 8)%N with 256%N. lia. }
  apply iter_shift_inj in E; [|by apply lxor_u16..].
  apply (f_equal (fun z => N.lxor z (N.shiftl (Byte.to_N b) 8))) in E.
  by rewrite !N.lxor_assoc, !N.lxor_nilpotent, !N.lxor_0_r in E.
Qed.

Lemma fold_crc_inj bs c c' :
  (c < 65536)%N -> (c' < 65536)%N -> fold_left crc_byte bs c = fold_left crc_byte bs c' -> c = c'.
Proof.
  revert c c'. induction bs as [|b bs IH]; intros c c' Hc Hc'; simpl; [done|]. intros E.
  apply IH in E; [|apply crc_byte_bound..]. by eapply crc_byte_inj.
Qed.

(** The residue of a payload followed by its CRC is zero, and only then. *)
Lemma crc_residue p a b :
  fold_left crc_byte (p ++ [a; b]) 0xFFFF%N = 0%N <-> crc16_ccitt_false p = word a b.
Proof.
  rewrite fold_left_app. simpl. rewrite crc_two. fold (crc16_ccitt_false p).
  assert (Hc : (crc16_ccitt_false p < 65536)%N) by by apply fold_crc_bound.
  pose proof (word_bound a b) as Hw. split.
  - intros E. change 0%N with (Nat.iter 16 crc_shift 0%N) in E.
    apply iter_shift_inj in E; [|by apply lxor_u16|lia]. by apply N.lxor_eq.
  - intros ->. by rewrite N.lxor_nilpotent.
Qed.

Lemma be_two (v : N) : (v < 65536)%N -> exists a b, to_be_bytes 2 v = [a; b] /\ word a b = v.
Proof.
  intros Hv. exists (byte_of_N (v / 256)), (byte_of_N v). split; [done|]. unfold word.
  rewrite !byte_to_N_of_N. rewrite (N.mod_small (v / 256)) by (apply N.Div0.div_lt_upper_bound; lia).
  pose proof (N.div_mod v 256). lia.
Qed.

Lemma snoc_two (bs : bytes) : 2 <= length bs -> exists p a b, bs = p ++ [a; b].
Proof.
  intros H. destruct bs as [|b bs _] using rev_ind; [simpl in H; lia|].
  destruct bs as [|a bs _] using rev_ind; [simpl in H; lia|].
  exists bs, a, b. by rewrite <- app_assoc.
Qed.

(** ** The decoder *)
Section Decoder.
Context `{EnvCbor : Cbor OtkEnvelope} `{CobsOps : Cobs}.

Lemma push_app d a b :
  push d (a ++ b) =
    (fst (push d a) ++ fst (push (snd (push d a)) b), snd (push (snd (push d a)) b)).
Proof.
  revert d. induction a as [|x a IH]; intros d; simpl; [by destruct (push d b)|].
  destruct (push_byte d x) as [r1 d1]. rewrite IH. destruct (push d1 a) as [r2 d2]. simpl.
  by rewrite app_assoc.
Qed.

Lemma serial_push_all_concat d chunks : push_all d chunks = push d (concat chunks).
Proof.
  revert d. induction chunks as [|c cs IH]; intros d; simpl; [done|].
  rewrite push_app. destruct (push d c) as [r1 d1]. simpl. rewrite IH.
  by destruct (push d1 (concat cs)).
Qed.

Lemma serial_new_wf max : wf max (new max).
Proof. split; simpl; try done. rewrite len_nil. lia. Qed.

Lemma push_byte_wf max d b : wf max d -> wf max (snd (push_byte d b)).
Proof.
  intros [Hm Hw Hb Hd]. unfold push_byte. repeat case_match; split; simpl; try done;
    rewrite ?len_nil; try lia; auto.
  rewrite len_app, len_cons, len_nil. apply N.leb_gt in H1. lia.
Qed.

Lemma push_wf max d bs : wf max d -> wf max (snd (push d bs)).
Proof.
  revert d. induction bs as [|b bs IH]; intros d Hwf; [done|]. simpl.
  apply (push_byte_wf max d b) in Hwf. destruct (push_byte d b) as [r1 d1].
  simpl in Hwf. apply IH in Hwf. by destruct (push d1 bs).
Qed.

Lemma wf_fresh max d : wf max d -> buf d = [] -> discarding d = false -> d = new max.
Proof. intros [<- Hw _ _] Hb Hd. destruct d; simpl in *; by subst. Qed.

(** After a delimiter the decoder is as new, whatever came before. *)
Lemma push_delimiter max d bs : wf max d -> snd (push d (bs ++ [x00])) = new max.
Proof.
  intros Hwf. rewrite push_app. apply (push_wf max d bs) in Hwf.
  cbn [snd]. destruct (push d bs) as [r d1]. simpl in *. destruct Hwf as [<- Hw _ _].
  unfold push_byte, new. rewrite bool_decide_eq_true_2, <- Hw by done. by case_bool_decide.
Qed.

(** Bytes of a frame in progress accumulate. *)
Lemma push_accumulate d w :
  x00 ∉ w -> discarding d = false -> (len (buf d) + len w <= max_wire_size d)%N ->
  push d w = ([], {| buf := buf d ++ w; max_frame_size := max_frame_size d;
                     max_wire_size := max_wire_size d; discarding := false |}).
Proof.
  revert d. induction w as [|b w IH]; intros d Hz Hd Hl; simpl.
  { rewrite app_nil_r. destruct d; simpl in *; by subst. }
  apply not_elem_of_cons in Hz as [Hb Hz]. rewrite len_cons in Hl.
  unfold push_byte. rewrite bool_decide_eq_false_2 by done. rewrite Hd.
  replace (max_wire_size d <=? len (buf d))%N with false by (symmetry; apply N.leb_gt; lia).
  rewrite IH; simpl; [by rewrite <- app_assoc|done..|].
  rewrite len_app, len_cons, len_nil. lia.
Qed.

Lemma push_overflow d b :
  b <> x00 -> discarding d = false -> (max_wire_size d <= len (buf d))%N ->
  push_byte d b = ([Err (OversizeFrame None (max_frame_size d))],
    {| buf := []; max_frame_size := max_frame_size d; max_wire_size := max_wire_size d;
       discarding := true |}).
Proof.
  intros Hb Hd Hl. unfold push_byte. rewrite bool_decide_eq_false_2, Hd by done.
  by replace (max_wire_size d <=? len (buf d))%N with true by (symmetry; apply N.leb_le; lia).
Qed.

Lemma push_discard d w : x00 ∉ w -> discarding d = true -> push d w = ([], d).
Proof.
  intros Hz Hd. induction w as [|b w IH]; simpl; [done|].
  apply not_elem_of_cons in Hz as [Hb Hz]. unfold push_byte.
  rewrite bool_decide_eq_false_2 by done. by rewrite Hd, IH.
Qed.

Context `{!CborLaws OtkEnvelope} `{!CobsLaws}.

Lemma decode_frame_encoded max p :
  decode_frame max (cobs_encode (p ++ to_be_bytes 2 (crc16_ccitt_false p))) =
  if (max <? len p)%N then Err (OversizeFrame (Some (len p)) max)
  else map_err DecodeFailed (cbor_decode p).
Proof.
  unfold decode_frame. rewrite cobs_decode_encode, length_app, length_to_be_bytes.
  replace (length p + 2 <? 2) with false by (symmetry; apply Nat.ltb_ge; lia).
  replace (length p + 2 - 2) with (length p) by lia.
  rewrite (take_app_len p), (drop_app_len p) by done.
  assert (Hc : (crc16_ccitt_false p < 65536)%N) by by apply fold_crc_bound.
  rewrite from_to_be_bytes by (exact Hc). rewrite N.eqb_refl. simpl negb. cbv iota.
  destruct (max <? len p)%N; [done|]. by destruct (cbor_decode p).
Qed.

Lemma encode_serial_ok e m f :
  encode_serial e m = Ok f ->
  exists p, cbor_to_vec e = Ok p /\ (len p <= m)%N /\
    f = cobs_encode (p ++ to_be_bytes 2 (crc16_ccitt_false p)) ++ [x00].
Proof.
  unfold encode_serial. destruct (cbor_to_vec e) as [p|]; simpl; [|done].
  destruct (m <? len p)%N eqn:E; intros Hf; simplify_eq. apply N.ltb_ge in E. eauto.
Qed.

Lemma wire_fits m max p :
  (m <= max)%N -> (max + 2 <= usize_max)%N -> (len p <= m)%N ->
  (len (cobs_encode (p ++ to_be_bytes 2 (crc16_ccitt_false p))) <=
   max_encoding_length (N.min usize_max (max + 2)))%N.
Proof.
  intros Hm Hu Hp. etrans; [apply cobs_encode_len|]. apply max_encoding_length_mono.
  rewrite len_app. unfold len at 2. rewrite length_to_be_bytes. lia.
Qed.

Lemma push_frame m max e f :
  (m <= max)%N -> (max + 2 <= usize_max)%N -> encode_serial e m = Ok f ->
  push (new max) f = ([Ok e], new max).
Proof.
  intros Hm Hu (p & Hp & Hl & ->)%encode_serial_ok.
  set (w := cobs_encode _). rewrite push_app.
  rewrite push_accumulate; [|apply cobs_encode_no_zero|done|].
  2:{ change (len (buf (new max))) with 0%N. rewrite N.add_0_l. by eapply wire_fits. }
  simpl. unfold push_byte. rewrite bool_decide_eq_true_2 by done. simpl.
  rewrite bool_decide_eq_false_2 by (apply cobs_encode_nonempty; by destruct p).
  unfold w. rewrite decode_frame_encoded, (cbor_roundtrip e p Hp).
  by replace (max <? len p)%N with false by (symmetry; apply N.ltb_ge; lia).
Qed.

Lemma push_serial_frames m max es fs :
  (m <= max)%N -> (max + 2 <= usize_max)%N ->
  Forall2 (fun e f => encode_serial e m = Ok f) es fs ->
  push (new max) (concat fs) = (Ok <$> es, new max).
Proof.
  intros Hm Hu Hes. induction Hes as [|e f es fs He _ IH]; [done|]. simpl.
  rewrite push_app, (push_frame m max e f) by done. cbn [fst snd]. by rewrite IH.
Qed.

(** ** Corruption *)
Lemma decode_residue max data :
  2 <= length data -> fold_left crc_byte data 0xFFFF%N <> 0%N ->
  decode_frame max (cobs_encode data) = Err CorruptFrame.
Proof.
  intros H2 Hres. destruct (snoc_two data H2) as (q & x & y & ->). unfold decode_frame.
  rewrite cobs_decode_encode, length_app. simpl length.
  replace (length q + 2 <? 2) with false by (symmetry; apply Nat.ltb_ge; lia).
  replace (length q + 2 - 2) with (length q) by lia.
  rewrite (take_app_len q), (drop_app_len q) by done.
  replace (from_be_bytes [x; y]) with (word x y) by (unfold from_be_bytes, word; simpl; lia).
  destruct (crc16_ccitt_false q =? word x y)%N eqn:E; [|done]. apply N.eqb_eq in E.
  destruct Hres. by apply crc_residue.
Qed.

Lemma encoded_residue p :
  fold_left crc_byte (p ++ to_be_bytes 2 (crc16_ccitt_false p)) 0xFFFF%N = 0%N.
Proof.
  destruct (be_two (crc16_ccitt_false p)) as (c1 & c2 & -> & Hw); [by apply fold_crc_bound|].
  by apply crc_residue.
Qed.

Lemma fold_left_around {A B} (f : A -> B -> A) pre a b post c :
  fold_left f (pre ++ [a; b] ++ post) c = fold_left f post (f (f (fold_left f pre c) a) b).
Proof. by rewrite !fold_left_app. Qed.

Lemma burst_changes_crc pre a b a' b' post :
  fold_left crc_byte (pre ++ [a; b] ++ post) 0xFFFF%N =
  fold_left crc_byte (pre ++ [a'; b'] ++ post) 0xFFFF%N -> (a, b) = (a', b').
Proof.
  rewrite !fold_left_around. intros E. apply fold_crc_inj in E; [|apply crc_byte_bound..].
  apply crc_two_inj in E as [-> ->]; [done|]. by apply fold_crc_bound.
Qed.

(** ** Properties *)

(** C31: round trip and end of stream on a serial line: encoded envelopes
    followed by a strict prefix of one more frame decode, under any chunking,
    to exactly those envelopes, and [has_pending] tells a clean close from a
    truncated frame. *)
Theorem serial_roundtrip (m max : N) es fs e part rest (chunks : list bytes) :
  (m <= max)%N -> (max + 2 <= usize_max)%N ->
  Forall2 (fun e f => encode_serial e m = Ok f) es fs ->
  encode_serial e m = Ok (part ++ rest) -> rest <> [] ->
  concat chunks = concat fs ++ part ->
  exists d', push_all (new max) chunks = (Ok <$> es, d') /\ buf d' = part /\
    has_pending d' = negb (bool_decide (part = [])).
Proof.
  intros Hm Hu Hes (p & Hp & Hl & Heq)%encode_serial_ok Hr Hc.
  rewrite serial_push_all_concat, Hc, push_app, (push_serial_frames m max es fs) by done. cbn [fst snd].
  assert (Hpart : exists r, part ++ r = cobs_encode (p ++ to_be_bytes 2 (crc16_ccitt_false p))).
  { destruct rest as [|b rest _] using rev_ind; [done|].
    rewrite app_assoc in Heq. apply app_inj_2 in Heq as [Heq _]; [eauto|done]. }
  destruct Hpart as [r Hpart].
  pose proof (cobs_encode_no_zero (p ++ to_be_bytes 2 (crc16_ccitt_false p))) as Hz.
  pose proof (wire_fits m max p Hm Hu Hl) as Hw. rewrite <- Hpart in Hz, Hw.
  rewrite len_app in Hw. rewrite push_accumulate; simpl.
  - eexists. split; [by rewrite app_nil_r|]. split; [done|]. unfold has_pending. simpl.
    by rewrite orb_false_r.
  - intros Hin. apply Hz. apply elem_of_app. by left.
  - done.
  - change (len []) with 0%N. lia.
Qed.

(** resynchronisation: whatever bytes the line carried, one delimiter
    restores the decoder, and the frames after it decode as if nothing had
    come before. *)
Theorem serial_resync (m max : N) junk es fs (chunks : list bytes) :
  (m <= max)%N -> (max + 2 <= usize_max)%N ->
  Forall2 (fun e f => encode_serial e m = Ok f) es fs ->
  concat chunks = junk ++ [x00] ++ concat fs ->
  push_all (new max) chunks = (fst (push (new max) (junk ++ [x00])) ++ (Ok <$> es), new max).
Proof.
  intros Hm Hu Hes Hc. rewrite serial_push_all_concat, Hc, app_assoc, push_app.
  rewrite push_delimiter with (max := max) by apply serial_new_wf.
  by rewrite (push_serial_frames m max es fs).
Qed.

(** a run of non-zero bytes longer than the on-wire limit costs exactly
    one [OversizeFrame] error, however long it is. *)
Theorem serial_oversize_once (m max : N) junk es fs (chunks : list bytes) :
  x00 ∉ junk -> (max_encoding_length (N.min usize_max (max + 2)) < len junk)%N ->
  (m <= max)%N -> (max + 2 <= usize_max)%N ->
  Forall2 (fun e f => encode_serial e m = Ok f) es fs ->
  concat chunks = junk ++ [x00] ++ concat fs ->
  push_all (new max) chunks = (Err (OversizeFrame None max) :: (Ok <$> es), new max).
Proof.
  intros Hz Hl Hm Hu Hes Hc. rewrite serial_push_all_concat, Hc, app_assoc, push_app.
  rewrite push_delimiter with (max := max) by apply serial_new_wf. rewrite (push_serial_frames m max es fs) by done.
  cbn [fst snd].
  enough (fst (push (new max) (junk ++ [x00])) = [Err (OversizeFrame None max)]) as -> by done.
  set (w := N.to_nat (max_encoding_length (N.min usize_max (max + 2)))).
  rewrite <- (take_drop w junk) in Hz |- *. rewrite <- app_assoc.
  apply not_elem_of_app in Hz as [Hz1 Hz2].
  assert (Hlw : len (take w junk) = max_encoding_length (N.min usize_max (max + 2))).
  { unfold len in *. rewrite length_take. lia. }
  rewrite push_app, push_accumulate by (simpl; rewrite ?len_nil; done || lia).
  destruct (drop w junk) as [|b tl] eqn:Hd.
  { apply (f_equal length) in Hd. rewrite length_drop in Hd. simpl in Hd. unfold len in Hl. lia. }
  apply not_elem_of_cons in Hz2 as [Hb Hz2]. cbn [fst snd app push].
  rewrite push_overflow by (done || (simpl; lia)). rewrite push_app, push_discard by done. done.
Qed.

(** the CRC catches every corruption confined to two adjacent bytes of a
    frame, the CRC's own bytes included: the frame is reported corrupt and
    never decoded. *)
Theorem serial_burst_detected (max : N) payload pre a b a' b' post :
  payload ++ to_be_bytes 2 (crc16_ccitt_false payload) = pre ++ [a; b] ++ post ->
  (a, b) <> (a', b') ->
  decode_frame max (cobs_encode (pre ++ [a'; b'] ++ post)) = Err CorruptFrame.
Proof.
  intros Heq Hne. apply decode_residue; [rewrite !length_app; simpl; lia|].
  rewrite <- (encoded_residue payload), Heq. intros E. apply Hne. symmetry.
  by apply (burst_changes_crc pre a' b' a b post).
Qed.

(** Memory bound: after any input the decoder buffers at most the on-wire
    size of a maximal frame, and nothing while it discards. *)
Lemma serial_buffer_bounded (max : N) (chunks : list bytes) rs d' :
  push_all (new max) chunks = (rs, d') ->
  (len (buf d') <= max_encoding_length (N.min usize_max (max + 2)))%N /\
  (discarding d' = true -> buf d' = []).
Proof.
  rewrite serial_push_all_concat. intros Hp.
  pose proof (push_wf max _ (concat chunks) (serial_new_wf max)) as [_ Hw Hb Hd].
  rewrite Hp in Hw, Hb, Hd. simpl in *. split; [congruence|done].
Qed.
End Decoder.

(** ** Witnesses

    A byte-stuffing code with the laws of COBS: each byte becomes two
    non-zero ones. *)
Definition stuff (b : byte) : bytes :=
  [byte_of_N (1 + Byte.to_N b / 16); byte_of_N (1 + Byte.to_N b mod 16)].

Fixpoint unstuff (bs : bytes) : option bytes :=
  match bs with
  | [] => Some []
  | hi :: lo :: bs' =>
      let! r := unstuff bs' in
      Some (byte_of_N (16 * (Byte.to_N hi - 1) + (Byte.to_N lo - 1)) :: r)
  | _ => None
  end.

Definition stuffing : Cobs :=
  {| max_encoding_length := fun n => (2 * n)%N; cobs_encode := flat_map stuff;
     cobs_decode := unstuff |}.

Lemma stuffing_laws : @CobsLaws stuffing.
Proof.
  split; simpl.
  - intros bs. induction bs as [|b bs IH]; [done|]. cbn [flat_map stuff app unstuff]. rewrite IH.
    by destruct b.
  - intros bs. induction bs as [|b bs IH]; simpl; [set_solver|].
    rewrite !not_elem_of_cons. split; [by destruct b|split; [by destruct b|done]].
  - intros [|b bs]; done.
  - intros bs. induction bs as [|b bs IH]; [done|]. cbn [flat_map stuff app].
    rewrite !len_cons. lia.
  - intros. lia.
Qed.

Definition sample_serial_frame : bytes :=
  match @encode_serial sample_cbor stuffing sample_envelope 8 with Ok f => f | Err _ => [] end.

Lemma serial_roundtrip_witness :
  exists d', @push_all sample_cbor stuffing (@new stuffing 8)
      [take 3 sample_serial_frame; drop 3 sample_serial_frame ++ [x0b]] =
    ([Ok sample_envelope], d') /\ buf d' = [x0b] /\ has_pending d' = true.
Proof.
  apply (@serial_roundtrip sample_cbor stuffing sample_cbor_laws stuffing_laws 8 8
           [sample_envelope] [sample_serial_frame] sample_envelope [x0b]
           (drop 1 sample_serial_frame));
    [lia|done| |vm_compute; reflexivity|discriminate|vm_compute; reflexivity].
  apply Forall2_cons; [vm_compute; reflexivity|apply Forall2_nil].
Defined.

Lemma serial_resync_witness :
  @push_all sample_cbor stuffing (@new stuffing 8) [[x07; x07]; [x00] ++ sample_serial_frame] =
  ([Err CorruptFrame; Ok sample_envelope], @new stuffing 8).
Proof.
  apply (@serial_resync sample_cbor stuffing sample_cbor_laws stuffing_laws 8 8 [x07; x07]
           [sample_envelope] [sample_serial_frame]); [lia|done| |vm_compute; reflexivity].
  apply Forall2_cons; [vm_compute; reflexivity|apply Forall2_nil].
Defined.

Lemma serial_oversize_once_witness :
  @push_all sample_cbor stuffing (@new stuffing 3)
    [repeat x07 25; [x00] ++ sample_serial_frame] =
  ([Err (OversizeFrame None 3); Ok sample_envelope], @new stuffing 3).
Proof.
  apply (@serial_oversize_once sample_cbor stuffing sample_cbor_laws stuffing_laws 3 3
           (repeat x07 25) [sample_envelope] [sample_serial_frame]);
    [apply (bool_decide_eq_true_1 (x00 ∉ repeat x07 25)); reflexivity|vm_compute; reflexivity|lia|done| |reflexivity].
  apply Forall2_cons; [vm_compute; reflexivity|apply Forall2_nil].
Defined.

Lemma serial_burst_detected_witness :
  @decode_frame sample_cbor stuffing 8 (@cobs_encode stuffing [xa1; x00; xfe; x12]) =
  Err CorruptFrame.
Proof.
  apply (@serial_burst_detected sample_cbor stuffing stuffing_laws 8 [xa1; x00] [xa1; x00]
           (byte_of_N (crc16_ccitt_false [xa1; x00] / 256))
           (byte_of_N (crc16_ccitt_false [xa1; x00])) xfe x12 []); vm_compute; [reflexivity|discriminate].
Defined.

Lemma serial_buffer_bounded_witness :
  (len (@nil byte) <= 10)%N /\ (true = true -> @nil byte = []).
Proof.
  apply (@serial_buffer_bounded sample_cbor stuffing 3 [repeat x07 25]
           [Err (OversizeFrame None 3)]
           {| buf := []; max_frame_size := 3; max_wire_size := 10; discarding := true |}).
  reflexivity.
Defined.
