(* ===== verification/IngestProtocol.v ===== *)
(** The server side of the protocol, transport-agnostic (crate
    [ingest-protocol]): the handshake and the post-handshake processor.

    [ConnectAuthoriser] is the interface a runtime's access control implements;
    the handshake's theorems hold for every instance.  [process] returns an
    [option] whose [None] would be a panic of the [traceparent] validator. *)
From stdpp Require Import base gmap strings list option numbers pretty.
From Stdlib Require Import Strings.Byte.
From S2P Require Import Prelude EventModel WireProtocol.

Inductive HandshakeError :=
  | HsUnexpectedMessageType (t : MessageType)
  | HsMissingConnectPayload
  | HsDecodeFailed (e : string)
  | HsEncodeFailed (e : string).

Inductive ProtocolError :=
  | PeVersionMismatch (negotiated found : N)
  | PeSourceMismatch (registered found : string)
  | PeMissingEventPayload
  | PeMissingHeartbeatPayload
  | PeUnexpectedDisconnectPayload
  | PeDecodeFailed (e : string)
  | PeUnexpectedMessageType (t : MessageType).

#[export] Instance HandshakeError_eq_dec : EqDecision HandshakeError.
Proof. solve_decision. Defined.
#[export] Instance ProtocolError_eq_dec : EqDecision ProtocolError.
Proof. solve_decision. Defined.

(** [Debug] of the enums an error text names. *)
Definition MessageType_debug (t : MessageType) : string :=
  match t with
  | MtEvent => "Event" | MtConnect => "Connect" | MtConnectAck => "ConnectAck"
  | MtConnectReject => "ConnectReject" | MtHeartbeat => "Heartbeat" | MtError => "Error"
  | MtDisconnect => "Disconnect"
  end.

Definition ConnectRejectReason_debug (r : ConnectRejectReason) : string :=
  match r with
  | VersionNotSupported => "VersionNotSupported"
  | ProducerIdAlreadyConnected => "ProducerIdAlreadyConnected"
  | Unauthorized => "Unauthorized"
  | ServerFull => "ServerFull"
  end.

Definition HandshakeError_display (e : HandshakeError) : string :=
  match e with
  | HsUnexpectedMessageType t => "expected Connect envelope, got " +:+ MessageType_debug t
  | HsMissingConnectPayload => "Connect envelope had no payload"
  | HsDecodeFailed e => "CBOR decode failed: " +:+ e
  | HsEncodeFailed e => "CBOR encode failed: " +:+ e
  end.

Definition ProtocolError_display (e : ProtocolError) : string :=
  match e with
  | PeVersionMismatch negotiated found =>
      "protocol version mismatch: negotiated " +:+ pretty negotiated +:+ ", envelope " +:+ pretty found
  | PeSourceMismatch registered found =>
      "source_id mismatch: producer registered as " +:+ registered +:+ ", envelope from " +:+ found
  | PeMissingEventPayload => "Event message had no payload"
  | PeMissingHeartbeatPayload =>
      "Heartbeat message had no payload (protocol envelope contract requires one)"
  | PeUnexpectedDisconnectPayload =>
      "Disconnect message carried a payload (protocol envelope contract requires none)"
  | PeDecodeFailed e => "CBOR decode failed: " +:+ e
  | PeUnexpectedMessageType t =>
      "unexpected message type for ingest session: " +:+ MessageType_debug t
  end.

(** [ConnectAuthoriser] and [AllowAll]. *)
Class ConnectAuthoriser : Type :=
  authorise : ProducerId -> option string -> result unit ConnectRejectReason.

Definition AllowAll : ConnectAuthoriser := fun _ _ => Ok ().

Record PostHandshakeProcessor := {
  producer_id : ProducerId;
  negotiated_version : N
}.

Inductive HandshakeOutcome :=
  | Accepted (reply : OtkEnvelope) (processor : PostHandshakeProcessor)
  | Rejected (reply : OtkEnvelope) (reason : ConnectRejectReason).

Inductive InboundAction :=
  | ActEvent (event : OtkEvent) (traceparent : option string)
  | ActHeartbeat
  | ActDisconnect.

(** ** Replies *)
Definition server_envelope (message_type : MessageType) (payload : option bytes) (version : N)
    (correlation_id : option CorrelationId) : OtkEnvelope :=
  {| protocol_version := version; message_type := message_type; source_id := id_new "server";
     stream_id := None; env_sequence_number := None; correlation_id := correlation_id;
     payload := payload; traceparent := None |}.

Definition build_ack_envelope `{Cbor ConnectAck} (ack : ConnectAck) (version : N)
    (correlation_id : option CorrelationId) : result OtkEnvelope HandshakeError :=
  let? payload := map_err (fun e => HsEncodeFailed ("ConnectAck: " +:+ e)) (cbor_to_vec ack) in
  Ok (server_envelope MtConnectAck (Some payload) version correlation_id).

Definition build_reject_envelope `{Cbor ConnectReject} (reject : ConnectReject) (version : N)
    (correlation_id : option CorrelationId) : result OtkEnvelope HandshakeError :=
  let? payload := map_err (fun e => HsEncodeFailed ("ConnectReject: " +:+ e)) (cbor_to_vec reject) in
  Ok (server_envelope MtConnectReject (Some payload) version correlation_id).

Section Handshake.
Context `{CborConnect : Cbor Connect} `{CborAck : Cbor ConnectAck} `{CborReject : Cbor ConnectReject}.

Definition handshake_inner (envelope : OtkEnvelope) (server_version : N)
    (authoriser : ConnectAuthoriser) : result HandshakeOutcome HandshakeError :=
  if bool_decide (message_type envelope <> MtConnect)
  then Err (HsUnexpectedMessageType (message_type envelope)) else
  let echo_correlation := correlation_id envelope in
  let producer_id := source_id envelope in
  match payload envelope with
  | None => Err HsMissingConnectPayload
  | Some connect_bytes =>
      let? connect := map_err (fun e => HsDecodeFailed ("Connect: " +:+ e))
                              (cbor_decode (A := Connect) connect_bytes) in
      if negb ((protocol_version_min connect <=? server_version)%N &&
               (server_version <=? protocol_version_max connect)%N) then
        let reject := {| reason := VersionNotSupported; supported_version_min := server_version;
                         supported_version_max := server_version |} in
        let? reply := build_reject_envelope reject server_version echo_correlation in
        Ok (Rejected reply VersionNotSupported)
      else
      match authoriser producer_id (auth_token connect) with
      | Err reason =>
          let reject := {| reason := reason; supported_version_min := server_version;
                           supported_version_max := server_version |} in
          let? reply := build_reject_envelope reject server_version echo_correlation in
          Ok (Rejected reply reason)
      | Ok _ =>
          let ack := {| negotiated_version_ack := server_version |} in
          let? reply := build_ack_envelope ack server_version echo_correlation in
          Ok (Accepted reply {| producer_id := producer_id; negotiated_version := server_version |})
      end
  end.

Definition perform_server_handshake (envelope : OtkEnvelope) : result HandshakeOutcome HandshakeError :=
  handshake_inner envelope PROTOCOL_VERSION AllowAll.

Definition perform_server_handshake_with_auth (envelope : OtkEnvelope)
    (authoriser : ConnectAuthoriser) : result HandshakeOutcome HandshakeError :=
  handshake_inner envelope PROTOCOL_VERSION authoriser.
End Handshake.

(** ** After the handshake *)
Definition opt_filter_valid (tp : option string) : option (option string) :=
  match tp with
  | None => Some None
  | Some s => let! b := is_valid_traceparent s in Some (if b then Some s else None)
  end.

Definition process `{Cbor OtkEvent} `{Cbor Heartbeat} (p : PostHandshakeProcessor)
    (envelope : OtkEnvelope) : option (result InboundAction ProtocolError) :=
  if bool_decide (protocol_version envelope <> negotiated_version p)
  then Some (Err (PeVersionMismatch (negotiated_version p) (protocol_version envelope))) else
  if bool_decide (source_id envelope <> producer_id p)
  then Some (Err (PeSourceMismatch (as_str (producer_id p)) (as_str (source_id envelope)))) else
  match message_type envelope with
  | MtEvent =>
      match payload envelope with
      | None => Some (Err PeMissingEventPayload)
      | Some payload =>
          match cbor_decode (A := OtkEvent) payload with
          | Err e => Some (Err (PeDecodeFailed ("OtkEvent: " +:+ e)))
          | Ok event =>
              let! traceparent := opt_filter_valid (traceparent envelope) in
              Some (Ok (ActEvent event traceparent))
          end
      end
  | MtHeartbeat =>
      match payload envelope with
      | None => Some (Err PeMissingHeartbeatPayload)
      | Some payload =>
          match cbor_decode (A := Heartbeat) payload with
          | Err e => Some (Err (PeDecodeFailed ("Heartbeat: " +:+ e)))
          | Ok _ => Some (Ok ActHeartbeat)
          end
      end
  | MtDisconnect =>
      if bool_decide (is_Some (payload envelope)) then Some (Err PeUnexpectedDisconnectPayload)
      else Some (Ok ActDisconnect)
  | other => Some (Err (PeUnexpectedMessageType other))
  end.

(** The strings of an envelope are Rust strings. *)
Definition wf_envelope (e : OtkEnvelope) : Prop :=
  from_option (fun s => utf8_valid (str_bytes s) = true) True (traceparent e).

(** ** Lemmas *)
Lemma is_valid_traceparent_spec s :
  utf8_valid (str_bytes s) = true ->
  exists b, is_valid_traceparent s = Some b /\ (b = true <-> exists p, w3c_traceparent s p).
Proof.
  intros Hv. unfold is_valid_traceparent.
  assert (Ht : exists r, parse_traceparent s = Some r)
    by (destruct (parse_cases s Hv) as [[_ ->]|[(_ & _ & ->)|(_ & _ & ->)]]; eauto).
  destruct Ht as [r Hr]. rewrite Hr. eexists. split; [done|]. split.
  - destruct r as [p|]; [|done]. intros _. exists p. by apply w3c_of_parse.
  - intros [p Hp]. rewrite (parse_of_w3c _ _ Hp) in Hr. by simplify_eq.
Qed.

Lemma opt_filter_valid_spec tp :
  from_option (fun s => utf8_valid (str_bytes s) = true) True tp ->
  exists tp', opt_filter_valid tp = Some tp' /\
    forall s, tp' = Some s <-> tp = Some s /\ exists p, w3c_traceparent s p.
Proof.
  destruct tp as [s|]; simpl; [|intros _; exists None; split; [done|by split; [|intros [? _]]]].
  intros Hv. destruct (is_valid_traceparent_spec s Hv) as (b & -> & Hb).
  eexists. split; [done|]. intros s'. destruct b; split; try done.
  - intros [= ->]. split; [done|]. by apply Hb.
  - by intros [? _].
  - intros [[= ->] Hp]. by apply Hb in Hp.
Qed.

Lemma process_total `{Cbor OtkEvent} `{Cbor Heartbeat} p env :
  wf_envelope env -> exists r, process p env = Some r.
Proof.
  intros Hwf. destruct (opt_filter_valid_spec _ Hwf) as (tp' & Htp & _).
  unfold process. rewrite Htp. repeat (case_match; eauto).
Qed.

Definition opens_session `{Cbor Connect} (auth : ConnectAuthoriser) (version : N)
    (envelope : OtkEnvelope) : Prop :=
  message_type envelope = MtConnect /\
  exists bs c, payload envelope = Some bs /\ cbor_decode (A := Connect) bs = Ok c /\
    (protocol_version_min c <= version <= protocol_version_max c)%N /\
    auth (source_id envelope) (auth_token c) = Ok ().

(** A reply addressed to the producer's request. *)
Definition answers `{Cbor A} (t : MessageType) (a : A) (version : N) (request reply : OtkEnvelope) : Prop :=
  message_type reply = t /\ protocol_version reply = version /\
  correlation_id reply = correlation_id request /\ source_id reply = id_new "server" /\
  exists bs, payload reply = Some bs /\ cbor_decode (A := A) bs = Ok a.

Section HandshakeProps.
Context `{CborConnect : Cbor Connect} `{CborAck : Cbor ConnectAck} `{CborReject : Cbor ConnectReject}.
Context `{!CborLaws ConnectAck} `{!CborLaws ConnectReject}.

Lemma build_ack_answers ack v request reply :
  build_ack_envelope ack v (correlation_id request) = Ok reply ->
  answers MtConnectAck ack v request reply.
Proof.
  unfold build_ack_envelope. destruct (cbor_to_vec ack) as [bs|] eqn:E; simpl; [|done].
  intros [= <-]. repeat split. eexists. eauto using cbor_roundtrip.
Qed.

Lemma build_reject_answers rj v request reply :
  build_reject_envelope rj v (correlation_id request) = Ok reply ->
  answers MtConnectReject rj v request reply.
Proof.
  unfold build_reject_envelope. destruct (cbor_to_vec rj) as [bs|] eqn:E; simpl; [|done].
  intros [= <-]. repeat split. eexists. eauto using cbor_roundtrip.
Qed.

(** The decision once the [Connect] has been decoded. *)
Definition decision (auth : ConnectAuthoriser) (v : N) (from : ProducerId) (c : Connect)
  : result unit ConnectRejectReason :=
  if ((protocol_version_min c <=? v) && (v <=? protocol_version_max c))%N
  then auth from (auth_token c) else Err VersionNotSupported.

Lemma handshake_inner_decoded env v auth bs c :
  message_type env = MtConnect -> payload env = Some bs -> cbor_decode (A := Connect) bs = Ok c ->
  handshake_inner env v auth =
    match decision auth v (source_id env) c with
    | Ok _ =>
        let? reply := build_ack_envelope {| negotiated_version_ack := v |} v (correlation_id env) in
        Ok (Accepted reply {| producer_id := source_id env; negotiated_version := v |})
    | Err r =>
        let? reply := build_reject_envelope
          {| reason := r; supported_version_min := v; supported_version_max := v |}
          v (correlation_id env) in
        Ok (Rejected reply r)
    end.
Proof.
  intros Ht Hp Hc. unfold handshake_inner, decision. rewrite Ht, Hp, Hc.
  rewrite bool_decide_eq_false_2 by auto. simpl.
  destruct ((protocol_version_min c <=? v) && (v <=? protocol_version_max c))%N; [|done].
  by destruct (auth (source_id env) (auth_token c)).
Qed.

Lemma decision_ok auth v from c :
  decision auth v from c = Ok () <->
  (protocol_version_min c <= v <= protocol_version_max c)%N /\ auth from (auth_token c) = Ok ().
Proof.
  unfold decision. rewrite <- !N.leb_le, <- andb_true_iff.
  destruct (_ && _); naive_solver.
Qed.

Lemma handshake_accepted env v auth reply p :
  handshake_inner env v auth = Ok (Accepted reply p) ->
  opens_session auth v env /\
  build_ack_envelope {| negotiated_version_ack := v |} v (correlation_id env) = Ok reply /\
  p = {| producer_id := source_id env; negotiated_version := v |}.
Proof.
  destruct (decide (message_type env = MtConnect)) as [Ht|Ht].
  2:{ unfold handshake_inner. by rewrite bool_decide_eq_true_2. }
  destruct (payload env) as [bs|] eqn:Hp.
  2:{ unfold handshake_inner. by rewrite Ht, Hp, bool_decide_eq_false_2 by auto. }
  destruct (cbor_decode (A := Connect) bs) as [c|] eqn:Hc.
  2:{ unfold handshake_inner. by rewrite Ht, Hp, Hc, bool_decide_eq_false_2 by auto. }
  rewrite (handshake_inner_decoded _ _ _ bs c) by done.
  destruct (decision _ _ _ c) as [[]|r] eqn:Hd.
  - apply decision_ok in Hd. destruct (build_ack_envelope _ _ _) as [rp|]; [|done].
    intros [= -> <-]. split; [|done]. split; [done|]. eauto 10.
  - by destruct (build_reject_envelope _ _ _).
Qed.

(** ** Properties *)

(** the gate of an ingest session: a session opens exactly when the first
    envelope is a decodable [Connect] whose version range contains the server's
    version and which the authoriser accepts, and the session is bound to the
    producer id the authoriser saw and to the server's version. *)
Theorem handshake_accepts_iff (auth : ConnectAuthoriser) (env : OtkEnvelope) :
  (exists bs, cbor_to_vec {| negotiated_version_ack := PROTOCOL_VERSION |} = Ok bs) ->
  (opens_session auth PROTOCOL_VERSION env <->
   exists reply p, perform_server_handshake_with_auth env auth = Ok (Accepted reply p)) /\
  (forall reply p, perform_server_handshake_with_auth env auth = Ok (Accepted reply p) ->
     producer_id p = source_id env /\ negotiated_version p = PROTOCOL_VERSION /\
     answers MtConnectAck {| negotiated_version_ack := PROTOCOL_VERSION |} PROTOCOL_VERSION env reply).
Proof.
  intros Hack. unfold perform_server_handshake_with_auth.
  assert (Hopen : opens_session auth PROTOCOL_VERSION env -> exists reply,
    handshake_inner env PROTOCOL_VERSION auth = Ok (Accepted reply
      {| producer_id := source_id env; negotiated_version := PROTOCOL_VERSION |})).
  { intros (Ht & bs & c & Hp & Hc & Hd). apply decision_ok in Hd.
    rewrite (handshake_inner_decoded _ _ _ bs c), Hd by done. unfold build_ack_envelope.
    destruct Hack as [b ->]. simpl. eauto. }
  split; [split|].
  - intros Ho. destruct (Hopen Ho) as [reply Hr]. eauto.
  - intros (reply & p & Hr). by destruct (handshake_accepted _ _ _ _ _ Hr).
  - intros reply p (_ & Hb & ->)%handshake_accepted. simpl. do 2 (split; [done|]).
    by apply build_ack_answers.
Qed.

(** every decodable [Connect] gets an answer: acceptance or a
    [ConnectReject] whose reason is the first failed check (version before
    authorisation), correlated with the request and decodable by the
    producer. *)
Theorem handshake_always_answers (auth : ConnectAuthoriser) (env : OtkEnvelope) v bs c :
  (exists b, cbor_to_vec {| negotiated_version_ack := v |} = Ok b) ->
  (forall r, exists b, cbor_to_vec
     {| reason := r; supported_version_min := v; supported_version_max := v |} = Ok b) ->
  message_type env = MtConnect -> payload env = Some bs -> cbor_decode (A := Connect) bs = Ok c ->
  match decision auth v (source_id env) c with
  | Ok _ => exists reply p, handshake_inner env v auth = Ok (Accepted reply p) /\
      answers MtConnectAck {| negotiated_version_ack := v |} v env reply
  | Err r => exists reply, handshake_inner env v auth = Ok (Rejected reply r) /\
      answers MtConnectReject
        {| reason := r; supported_version_min := v; supported_version_max := v |} v env reply
  end.
Proof.
  intros Hack Hrej Ht Hp Hc. rewrite (handshake_inner_decoded _ _ _ bs c) by done.
  destruct (decision auth v (source_id env) c) as [[]|r].
  - destruct (build_ack_envelope _ v (correlation_id env)) as [reply|] eqn:E.
    + eexists _, _. split; [done|]. by apply build_ack_answers.
    + unfold build_ack_envelope in E. destruct Hack as [b Hb]. by rewrite Hb in E.
  - destruct (build_reject_envelope _ v (correlation_id env)) as [reply|] eqn:E.
    + eexists. split; [done|]. by apply build_reject_answers.
    + unfold build_reject_envelope in E. destruct (Hrej r) as [b Hb]. by rewrite Hb in E.
Qed.
End HandshakeProps.

(** An error outcome acts on nothing. *)
Ltac refuse :=
  eexists; split; [done|]; intros act; split; [done|intros (? & ? & ?)];
  destruct act; repeat (destruct_and?; match goal with H : exists _, _ |- _ => destruct H end);
  destruct_and?; congruence.

(** C30: after the handshake no envelope panics the processor, and it acts
    exactly on well-formed envelopes of the session: the negotiated version,
    the registered source, a payload of the right kind (none for a
    disconnect); a [traceparent] is passed on exactly when it is valid. *)
Theorem process_accepts_iff `{Cbor OtkEvent} `{Cbor Heartbeat} (p : PostHandshakeProcessor)
    (env : OtkEnvelope) :
  wf_envelope env ->
  exists r, process p env = Some r /\
  forall act, r = Ok act <->
    protocol_version env = negotiated_version p /\ source_id env = producer_id p /\
    match act with
    | ActEvent e tp => message_type env = MtEvent /\
        (exists bs, payload env = Some bs /\ cbor_decode (A := OtkEvent) bs = Ok e) /\
        forall s, tp = Some s <-> traceparent env = Some s /\ exists q, w3c_traceparent s q
    | ActHeartbeat => message_type env = MtHeartbeat /\
        exists bs h, payload env = Some bs /\ cbor_decode (A := Heartbeat) bs = Ok h
    | ActDisconnect => message_type env = MtDisconnect /\ payload env = None
    end.
Proof.
  intros Hwf. destruct (opt_filter_valid_spec _ Hwf) as (tp' & Htp & Hs).
  unfold process. case_bool_decide as Hv; [refuse|]. case_bool_decide as Hsrc; [refuse|].
  rewrite Htp. destruct (message_type env) eqn:Ht; try refuse.
  - destruct (payload env) as [bs|]; [|refuse].
    destruct (cbor_decode bs) as [e|] eqn:Hd; [|refuse].
    eexists; split; [done|]. intros [e' tp| |]; [split|by split; [|intros (?&?&?&?)]..].
    + intros [= <- <-]. eauto 10.
    + intros (_ & _ & _ & (bs' & [= <-] & Hd') & Hiff). rewrite Hd in Hd'. simplify_eq.
      do 2 f_equal. destruct tp as [s|].
      * by apply Hs, Hiff.
      * destruct tp' as [s|]; [|done]. symmetry. by apply Hiff, Hs.
  - destruct (payload env) as [bs|]; [|refuse].
    destruct (cbor_decode bs) as [h|] eqn:Hd; [|refuse].
    eexists; split; [done|]. intros []; split; try done; [by intros (?&?&?&?)|eauto 10|].
    by intros (?&?&?&?).
  - case_bool_decide as Hp; [destruct Hp as [? Hp]; refuse|].
    apply eq_None_not_Some in Hp.
    eexists; split; [done|]. intros []; split; try done; by intros (?&?&?&?).
Qed.

(** ** Witnesses *)
Definition sample_connect : Connect :=
  {| protocol_version_min := 0; protocol_version_max := 1; streams := []; auth_token := Some "t" |}.

Definition sample_connect_cbor : Cbor Connect := table_cbor [(sample_connect, [x84; x00])].

Definition sample_ack_cbor : Cbor ConnectAck :=
  table_cbor [({| negotiated_version_ack := 0 |}, [x81; x00])].

Definition sample_reject (r : ConnectRejectReason) : ConnectReject :=
  {| reason := r; supported_version_min := 0; supported_version_max := 0 |}.

Definition sample_reject_cbor : Cbor ConnectReject :=
  table_cbor [(sample_reject VersionNotSupported, [x83; x00]);
              (sample_reject ProducerIdAlreadyConnected, [x83; x01]);
              (sample_reject Unauthorized, [x83; x02]); (sample_reject ServerFull, [x83; x03])].

Lemma sample_ack_laws : @CborLaws _ sample_ack_cbor.
Proof. apply table_cbor_laws. apply NoDup_singleton. Qed.

Lemma sample_reject_laws : @CborLaws _ sample_reject_cbor.
Proof. apply table_cbor_laws. apply (bool_decide_eq_true_1 (NoDup _)). reflexivity. Qed.

(** A runtime that wants the token [t]. *)
Definition token_t : ConnectAuthoriser :=
  fun _ token => if bool_decide (token = Some "t") then Ok () else Err Unauthorized.

Definition sample_connect_envelope : OtkEnvelope :=
  {| protocol_version := 0; message_type := MtConnect; source_id := id_new "p";
     stream_id := None; env_sequence_number := None; correlation_id := Some (id_new "c1");
     payload := Some [x84; x00]; traceparent := None |}.

Lemma handshake_accepts_iff_witness :
  exists reply p, @perform_server_handshake_with_auth sample_connect_cbor sample_ack_cbor
    sample_reject_cbor sample_connect_envelope token_t = Ok (Accepted reply p).
Proof.
  apply (@handshake_accepts_iff sample_connect_cbor sample_ack_cbor sample_reject_cbor
           sample_ack_laws token_t sample_connect_envelope); [by exists [x81; x00]|].
  split; [done|]. exists [x84; x00], sample_connect. by repeat split.
Defined.

Lemma handshake_always_answers_witness :
  exists reply, @handshake_inner sample_connect_cbor sample_ack_cbor sample_reject_cbor
      sample_connect_envelope 0 (fun _ _ => Err ServerFull) = Ok (Rejected reply ServerFull) /\
    @answers _ sample_reject_cbor MtConnectReject (sample_reject ServerFull) 0
      sample_connect_envelope reply.
Proof.
  apply (@handshake_always_answers sample_connect_cbor sample_ack_cbor sample_reject_cbor
           sample_ack_laws sample_reject_laws (fun _ _ => Err ServerFull)
           sample_connect_envelope 0 [x84; x00] sample_connect);
    [by exists [x81; x00]| |reflexivity..].
  intros []; eexists; reflexivity.
Defined.

Definition sample_event : OtkEvent := EvDetection (sample_detection 1 1000 (Some "k1") BeamBreak).

Definition sample_event_cbor : Cbor OtkEvent := table_cbor [(sample_event, [x82; x00])].

Definition sample_event_envelope : OtkEnvelope :=
  {| protocol_version := 0; message_type := MtEvent; source_id := id_new "p";
     stream_id := None; env_sequence_number := None; correlation_id := None;
     payload := Some [x82; x00]; traceparent := Some sample_traceparent |}.

Lemma process_accepts_iff_witness :
  exists r, @process sample_event_cbor (table_cbor [])
      {| producer_id := id_new "p"; negotiated_version := 0 |} sample_event_envelope = Some r /\
  forall act, r = Ok act <->
    protocol_version sample_event_envelope = 0%N /\ source_id sample_event_envelope = id_new "p" /\
    match act with
    | ActEvent e tp => message_type sample_event_envelope = MtEvent /\
        (exists bs, payload sample_event_envelope = Some bs /\
           @cbor_decode _ sample_event_cbor bs = Ok e) /\
        forall s, tp = Some s <->
          traceparent sample_event_envelope = Some s /\ exists q, w3c_traceparent s q
    | ActHeartbeat => message_type sample_event_envelope = MtHeartbeat /\
        exists bs h, payload sample_event_envelope = Some bs /\
          @cbor_decode Heartbeat (table_cbor []) bs = Ok h
    | ActDisconnect => message_type sample_event_envelope = MtDisconnect /\
        payload sample_event_envelope = None
    end.
Proof.
  apply (@process_accepts_iff sample_event_cbor (table_cbor [])
           {| producer_id := id_new "p"; negotiated_version := 0 |} sample_event_envelope).
  reflexivity.
Defined.
