(* ===== verification/Auth.v ===== *)
(** Token access control of the node (crate [timing-node], [auth.rs] and the
    bearer-token middleware of [api.rs]).

    [AuthState] is the pair of allow-lists behind the [ArcSwap]s; a rotation
    is a function from state to state.  [SwappableAuthoriser] implements the
    [ConnectAuthoriser] interface of [IngestProtocol]. *)
From Stdlib Require Import Strings.Byte.
From stdpp Require Import base gmap strings option numbers sorting list.
From S2P Require Import Prelude EventModel WireProtocol IngestProtocol.

Record AuthState := {
  producer_tokens : list string;
  api_tokens : list string
}.

(** [set_producer_tokens] and [set_api_tokens] return the previous list. *)
Definition set_producer_tokens (new_tokens : list string) (st : AuthState) : list string * AuthState :=
  (producer_tokens st, {| producer_tokens := new_tokens; api_tokens := api_tokens st |}).

Definition set_api_tokens (new_tokens : list string) (st : AuthState) : list string * AuthState :=
  (api_tokens st, {| producer_tokens := producer_tokens st; api_tokens := new_tokens |}).

(** The accumulator is a [u8]: the XOR of two bytes is a byte. *)
Definition constant_time_eq (a b : bytes) : bool :=
  if negb (length a =? length b) then false else
  (fold_left (fun diff '(x, y) => N.lor diff (N.lxor (Byte.to_N x) (Byte.to_N y)))
     (zip a b) 0 =? 0)%N.

(** The OR-fold over every configured token. *)
Definition any_token (allowed : list string) (supplied : string) : bool :=
  fold_left (fun hit allowed_token =>
    hit || constant_time_eq (str_bytes allowed_token) (str_bytes supplied)) allowed false.

Definition SwappableAuthoriser (state : AuthState) : ConnectAuthoriser :=
  fun _producer_id token =>
    let allowed := producer_tokens state in
    if bool_decide (allowed = []) then Ok () else
    match token with
    | None => Err Unauthorized
    | Some supplied => if any_token allowed supplied then Ok () else Err Unauthorized
    end.

(** ** Bearer tokens

    The separators are ASCII, so [trim_matches] and [split_once] on the
    characters of a string are the same operations on its bytes. *)
Definition is_http_ws (c : byte) : bool := bool_decide (c = " "%byte) || bool_decide (c = x09).

Fixpoint trim_start (bs : bytes) : bytes :=
  match bs with
  | c :: rest => if is_http_ws c then trim_start rest else bs
  | [] => []
  end.

Definition trim_matches (bs : bytes) : bytes := rev (trim_start (rev (trim_start bs))).

Fixpoint split_once (bs : bytes) : option (bytes * bytes) :=
  match bs with
  | [] => None
  | c :: rest =>
      if is_http_ws c then Some ([], rest)
      else let! (before, after) := split_once rest in Some (c :: before, after)
  end.

Definition to_ascii_lowercase (b : byte) : byte :=
  if in_range 65 90 b then byte_of_N (Byte.to_N b + 32) else b.

Definition eq_ignore_ascii_case (a b : bytes) : bool :=
  bool_decide (to_ascii_lowercase <$> a = to_ascii_lowercase <$> b).

Definition parse_bearer_token (raw : string) : option string :=
  let trimmed := trim_matches (str_bytes raw) in
  let! (scheme, rest) := split_once trimmed in
  if negb (eq_ignore_ascii_case scheme (str_bytes "bearer")) then None else
  let token := trim_matches rest in
  if bool_decide (token = []) then None else Some (bytes_str token).

(** What the middleware does with a request: hand it to the handler, or the
    401 answer with its challenge and body. *)
Inductive Admission :=
  | RunNext
  | Unauthorized401 (www_authenticate body : string).

(** [authorization] is the request's [Authorization] header where it has one
    that is text. *)
Definition require_api_token (state : AuthState) (authorization : option string) : Admission :=
  let tokens := api_tokens state in
  if bool_decide (tokens = []) then RunNext else
  let supplied := authorization ≫= parse_bearer_token in
  let token_ok := match supplied with None => false | Some t => any_token tokens t end in
  if token_ok then RunNext
  else Unauthorized401 ("Bearer realm=" +:+ bytes_str [x22] +:+ "otk-node" +:+ bytes_str [x22])
                       "missing or invalid bearer token".

Inductive AuthOp :=
  | SetProducerTokens (new_tokens : list string)
  | SetApiTokens (new_tokens : list string).

(** A sequence of rotations. *)
Definition rotate (op : AuthOp) (st : AuthState) : AuthState :=
  match op with
  | SetProducerTokens ts => snd (set_producer_tokens ts st)
  | SetApiTokens ts => snd (set_api_tokens ts st)
  end.

Example bearer_tab : parse_bearer_token (bytes_str (str_bytes "  bEaRer" ++ [x09] ++ str_bytes " abc  ")) = Some "abc".
Proof. reflexivity. Qed.

Example bearer_empty : parse_bearer_token "Bearer   " = None.
Proof. reflexivity. Qed.

(** ** The comparison *)
Lemma lor_zero a b : N.lor a b = 0%N <-> a = 0%N /\ b = 0%N.
Proof. apply N.lor_eq_0_iff. Qed.

Lemma diff_fold_zero (ps : list (byte * byte)) diff :
  fold_left (fun diff '(x, y) => N.lor diff (N.lxor (Byte.to_N x) (Byte.to_N y))) ps diff = 0%N <->
  diff = 0%N /\ Forall (fun p => p.1 = p.2) ps.
Proof.
  revert diff. induction ps as [|[x y] ps IH]; intros diff; simpl.
  { split; [intros ->; split; [done|constructor]|by intros []]. }
  etransitivity; [apply IH|]. rewrite lor_zero, List.Forall_cons_iff. simpl.
  pose proof (N.lxor_eq_0_iff (Byte.to_N x) (Byte.to_N y)) as Hx. split.
  - intros [[? ?%Hx%byte_to_N_inj] ?]. done.
  - intros (? & -> & ?). by rewrite N.lxor_nilpotent.
Qed.

Lemma zip_diag (a b : bytes) :
  length a = length b -> Forall (fun p => p.1 = p.2) (zip a b) -> a = b.
Proof.
  revert b. induction a as [|x a IH]; intros [|y b] Hl Hf; try done. simpl in *.
  apply List.Forall_cons_iff in Hf as [Hxy Hf]. simpl in Hxy. f_equal; [done|]. apply IH; [lia|done].
Qed.

Lemma constant_time_eq_spec a b : constant_time_eq a b = true <-> a = b.
Proof.
  unfold constant_time_eq. destruct (Nat.eqb_spec (length a) (length b)) as [Hl|Hl]; simpl.
  - rewrite N.eqb_eq, diff_fold_zero. split; [intros [_ H]; by apply zip_diag|]. intros ->.
    split; [done|]. clear Hl. induction b; simpl; by constructor.
  - split; [done|]. by intros ->.
Qed.

Lemma any_token_spec allowed supplied : any_token allowed supplied = true <-> supplied ∈ allowed.
Proof.
  unfold any_token. assert (H : forall hit, fold_left (fun hit allowed_token =>
      hit || constant_time_eq (str_bytes allowed_token) (str_bytes supplied)) allowed hit = true <->
      hit = true \/ supplied ∈ allowed); [|rewrite H; naive_solver].
  induction allowed as [|t ts IH]; intros hit; simpl.
  { rewrite elem_of_nil. naive_solver. }
  rewrite IH, orb_true_iff, constant_time_eq_spec, elem_of_cons.
  assert (str_bytes t = str_bytes supplied <-> supplied = t); [|naive_solver].
  split; [|by intros ->]. intros H. by rewrite <- (bytes_str_bytes t), H, bytes_str_bytes.
Qed.

(** ** The bearer grammar *)
Definition all_ws (bs : bytes) : Prop := Forall (fun c => is_http_ws c = true) bs.

(** Neither end of [bs] is white space. *)
Definition tight (bs : bytes) : Prop :=
  from_option (fun c => is_http_ws c = false) True (head bs) /\
  from_option (fun c => is_http_ws c = false) True (last bs).

(** [OWS scheme 1*WS token OWS], the scheme in any case. *)
Definition bearer_credentials (raw token : string) : Prop :=
  exists before scheme sep after,
    str_bytes raw = before ++ scheme ++ sep ++ str_bytes token ++ after /\
    all_ws before /\ all_ws sep /\ sep <> [] /\ all_ws after /\
    eq_ignore_ascii_case scheme (str_bytes "bearer") = true /\
    str_bytes token <> [] /\ tight (str_bytes token).

Lemma trim_start_split bs :
  exists l, bs = l ++ trim_start bs /\ all_ws l /\
    from_option (fun c => is_http_ws c = false) True (head (trim_start bs)).
Proof.
  induction bs as [|c bs (l & IH & Hl & Hh)]; simpl; [by exists []; repeat constructor|].
  destruct (is_http_ws c) eqn:E; [|by exists []; repeat constructor].
  exists (c :: l). simpl. rewrite <- IH. repeat split; [by constructor|done].
Qed.

Lemma trim_start_app l t :
  all_ws l -> from_option (fun c => is_http_ws c = false) True (head t) -> trim_start (l ++ t) = t.
Proof.
  intros Hl Ht. induction Hl as [|c l Hc _ IH]; simpl; [|by rewrite Hc].
  destruct t; simpl in *; [done|]. by rewrite Ht.
Qed.

Lemma all_ws_rev l : all_ws l -> all_ws (rev l).
Proof. apply Forall_rev. Qed.

Lemma head_rev (bs : bytes) : head (rev bs) = last bs.
Proof.
  destruct bs as [|c bs] using rev_ind; [done|]. by rewrite rev_app_distr, last_snoc.
Qed.

Lemma trim_matches_app l t r : all_ws l -> all_ws r -> tight t -> trim_matches (l ++ t ++ r) = t.
Proof.
  intros Hl Hr [Hh Ht]. unfold trim_matches. destruct t as [|c t].
  { simpl. rewrite <- (app_nil_r (l ++ r)), trim_start_app; [done| |done]. by apply Forall_app. }
  rewrite trim_start_app by done. rewrite rev_app_distr, trim_start_app.
  - by rewrite rev_involutive.
  - by apply all_ws_rev.
  - by rewrite head_rev.
Qed.

Lemma trim_matches_split bs :
  exists l r, bs = l ++ trim_matches bs ++ r /\ all_ws l /\ all_ws r /\ tight (trim_matches bs).
Proof.
  destruct (trim_start_split bs) as (l & Hbs & Hl & Hh).
  destruct (trim_start_split (rev (trim_start bs))) as (r & Hr & Hrws & Hh').
  exists l, (rev r). change (rev (trim_start (rev (trim_start bs)))) with (trim_matches bs) in *.
  assert (Heq : trim_start bs = trim_matches bs ++ rev r).
  { unfold trim_matches. by rewrite <- rev_app_distr, <- Hr, rev_involutive. }
  split; [by rewrite <- Heq|]. split; [done|]. split; [by apply all_ws_rev|]. split.
  - rewrite Heq in Hh. by destruct (trim_matches bs).
  - unfold trim_matches. by rewrite <- head_rev, rev_involutive.
Qed.

Lemma split_once_spec bs a b :
  split_once bs = Some (a, b) <->
  exists c, bs = a ++ c :: b /\ is_http_ws c = true /\ Forall (fun c => is_http_ws c = false) a.
Proof.
  revert a. induction bs as [|x bs IH]; intros a; simpl.
  { split; [done|]. by intros (c & H & _); destruct a. }
  destruct (is_http_ws x) eqn:E.
  - split; [intros [= <- <-]; eauto|]. intros (c & H & Hc & Ha).
    destruct a as [|y a]; simplify_eq/=; [done|]. apply List.Forall_cons_iff in Ha as [? _]. congruence.
  - destruct (split_once bs) as [[a' b']|].
    + split.
      * intros [= <- <-]. apply IH in eq_refl as (c & -> & ? & ?) || destruct (proj1 (IH a') eq_refl) as (c & -> & ? & ?).
        exists c. split; [done|]. split; [done|]. by constructor.
      * intros (c & H & Hc & Ha). destruct a as [|y a]; simplify_eq/=; [congruence|].
        apply List.Forall_cons_iff in Ha as [_ Ha].
        assert (Heq : Some (a', b') = Some (a, b)) by (apply IH; eauto). by simplify_eq.
    + split; [done|]. intros (c & H & Hc & Ha). destruct a as [|y a]; simplify_eq/=; [congruence|].
      apply List.Forall_cons_iff in Ha as [_ Ha].
      assert (Heq : None = Some (a, b)) by (apply IH; eauto). done.
Qed.

Lemma scheme_no_ws scheme :
  eq_ignore_ascii_case scheme (str_bytes "bearer") = true ->
  Forall (fun c => is_http_ws c = false) scheme /\ scheme <> [].
Proof.
  intros H%bool_decide_eq_true_1. split; [|by intros ->]. apply List.Forall_forall. intros c Hc.
  destruct (is_http_ws c) eqn:E; [|done]. exfalso.
  assert (Hin : to_ascii_lowercase c ∈ to_ascii_lowercase <$> scheme)
    by (apply list_elem_of_fmap; exists c; split; [done|by apply list_elem_of_In]).
  rewrite H in Hin. unfold is_http_ws in E. apply orb_true_iff in E as [E|E];
    apply bool_decide_eq_true_1 in E as ->; revert Hin; apply (bool_decide_eq_true_1 (_ ∉ _)); reflexivity.
Qed.

Lemma parse_bearer_spec raw t : parse_bearer_token raw = Some t <-> bearer_credentials raw t.
Proof.
  unfold parse_bearer_token. split.
  - destruct (trim_matches_split (str_bytes raw)) as (l & r & Hraw & Hl & Hr & Htight).
    destruct (split_once _) as [[scheme rest]|] eqn:Hs; [|done].
    apply split_once_spec in Hs as (c & Hs & Hc & Hns).
    destruct (eq_ignore_ascii_case scheme _) eqn:Hsch; [|done].
    destruct (trim_matches_split rest) as (l2 & r2 & Hrest & Hl2 & Hr2 & Ht2).
    simpl. case_bool_decide as Hne; [done|]. intros [= <-].
    exists l, scheme, (c :: l2), (r2 ++ r). rewrite str_bytes_str.
    split; [|by repeat (split; [done || (by constructor) || (by apply Forall_app)|])].
    rewrite Hraw, Hs, Hrest at 1. rewrite <- !app_assoc. simpl. by rewrite <- !app_assoc.
  - intros (l & scheme & sep & r & Hraw & Hl & Hsep & Hne & Hr & Hsch & Hne2 & Ht).
    destruct (scheme_no_ws _ Hsch) as [Hns Hsne]. destruct sep as [|c sep]; [done|].
    apply List.Forall_cons_iff in Hsep as [Hc Hsep].
    replace (trim_matches (str_bytes raw)) with (scheme ++ c :: sep ++ str_bytes t).
    2:{ rewrite Hraw. replace (scheme ++ (c :: sep) ++ str_bytes t ++ r)
          with ((scheme ++ c :: sep ++ str_bytes t) ++ r) by (by rewrite <- app_assoc; simpl; rewrite <- app_assoc).
        symmetry. apply trim_matches_app; [done..|]. destruct Ht as [Hth Htl]. split.
        - destruct scheme; [done|]. by apply List.Forall_cons_iff in Hns as [? _].
        - replace (scheme ++ c :: sep ++ str_bytes t) with ((scheme ++ c :: sep) ++ str_bytes t)
            by (by rewrite <- app_assoc). rewrite last_app.
          by destruct (last (str_bytes t)) eqn:E; [|apply last_None in E]. }
    assert (Hs : split_once (scheme ++ c :: sep ++ str_bytes t) = Some (scheme, sep ++ str_bytes t))
      by (apply split_once_spec; eauto).
    rewrite Hs, Hsch. simpl.
    assert (Htm : trim_matches (sep ++ str_bytes t) = str_bytes t).
    { rewrite <- (app_nil_r (str_bytes t)) at 1. apply trim_matches_app; [done|constructor|done]. }
    rewrite Htm, bool_decide_eq_false_2 by done. by rewrite bytes_str_bytes.
Qed.

(** ** Rotation *)
Definition rotations (ops : list AuthOp) (st : AuthState) : AuthState :=
  fold_left (fun st op => rotate op st) ops st.

(** The list a sequence of rotations leaves in force. *)
Definition in_force (pick : AuthOp -> option (list string)) (initial : list string)
    (ops : list AuthOp) : list string := default initial (last (omap pick ops)).

Definition producer_list (op : AuthOp) : option (list string) :=
  match op with SetProducerTokens ts => Some ts | _ => None end.
Definition api_list (op : AuthOp) : option (list string) :=
  match op with SetApiTokens ts => Some ts | _ => None end.

Lemma rotations_spec ops st :
  producer_tokens (rotations ops st) = in_force producer_list (producer_tokens st) ops /\
  api_tokens (rotations ops st) = in_force api_list (api_tokens st) ops.
Proof.
  induction ops as [|op ops IH] using rev_ind; [done|].
  unfold rotations, in_force in *. rewrite fold_left_app, !omap_app. simpl.
  destruct IH, op; simpl; rewrite ?last_snoc, ?app_nil_r; done.
Qed.

Lemma authorise_spec st pid token :
  (SwappableAuthoriser st pid token = Ok () <->
   producer_tokens st = [] \/ exists t, token = Some t /\ t ∈ producer_tokens st) /\
  (SwappableAuthoriser st pid token = Ok () \/ SwappableAuthoriser st pid token = Err Unauthorized).
Proof.
  unfold SwappableAuthoriser. case_bool_decide as He; [split; [split; auto|auto]|].
  destruct token as [t|];
    [|split; [split; [done|intros [?|(? & ? & _)]; [done|discriminate]]|by right]].
  pose proof (any_token_spec (producer_tokens st) t) as Ht.
  destruct (any_token _ t); split; auto; split; try done.
  - intros _. right. exists t. split; [done|]. by apply Ht.
  - intros [?|(? & [= <-] & Hin)]; [done|]. by apply Ht in Hin.
Qed.

Lemma require_api_spec st header :
  require_api_token st header = RunNext <->
  api_tokens st = [] \/
  exists h t, header = Some h /\ bearer_credentials h t /\ t ∈ api_tokens st.
Proof.
  unfold require_api_token. case_bool_decide as He; [split; auto|].
  destruct header as [h|]; simpl;
    [|split; [done|intros [?|(? & ? & ? & _)]; [done|discriminate]]].
  destruct (parse_bearer_token h) as [t|] eqn:Hp.
  - apply parse_bearer_spec in Hp as Hb. pose proof (any_token_spec (api_tokens st) t) as Ht.
    destruct (any_token _ t); split; try done.
    + intros _. right. exists h, t. split; [done|]. split; [done|]. by apply Ht.
    + intros [?|(? & t' & [= <-] & Hb' & Hin)]; [done|]. apply parse_bearer_spec in Hb'. simplify_eq.
      by apply Ht in Hin.
  - split; [done|]. intros [?|(? & t & [= <-] & Hb & _)]; [done|]. apply parse_bearer_spec in Hb. congruence.
Qed.

(** ** Properties *)

(** C10: access control: after any rotations, a handshake is authorised exactly
    when the producer list in force is empty or contains the presented token,
    and an API request reaches its handler exactly when the API list in force
    is empty or contains the token of a well-formed bearer header; the two
    lists do not influence each other. *)
Theorem token_admission (st : AuthState) (ops : list AuthOp) (pid : ProducerId)
    (token header : option string) :
  let producers := in_force producer_list (producer_tokens st) ops in
  let clients := in_force api_list (api_tokens st) ops in
  (SwappableAuthoriser (rotations ops st) pid token = Ok () <->
     producers = [] \/ exists t, token = Some t /\ t ∈ producers) /\
  (SwappableAuthoriser (rotations ops st) pid token <> Ok () ->
     SwappableAuthoriser (rotations ops st) pid token = Err Unauthorized) /\
  (require_api_token (rotations ops st) header = RunNext <->
     clients = [] \/ exists h t, header = Some h /\ bearer_credentials h t /\ t ∈ clients).
Proof.
  cbv zeta. destruct (rotations_spec ops st) as [<- <-].
  destruct (authorise_spec (rotations ops st) pid token) as [Hiff Hor].
  split; [done|]. split; [|apply require_api_spec]. by destruct Hor.
Qed.
