(* ===== verification/ByteStream.v ===== *)
(** Byte streams: the interface both ends of a connection are written against.

    Sockets, TLS and the asynchronous runtime are third-party code: [read],
    [read_exact] and [write_all] are the operations of a class, and
    [ByteStreamLaws] is their documented behaviour.  [incoming] is everything
    the peer sends and this end has not read yet, [written] what this end has
    handed to the transport; [reliable] says that no call fails. *)
From stdpp Require Import base strings option numbers sorting list.
From S2P Require Import Prelude.

(** [std::io::Error]: the one kind the code tells apart, and the others. *)
Inductive IoError := UnexpectedEof | IoFault (e : string).

#[export] Instance IoError_eq_dec : EqDecision IoError.
Proof. solve_decision. Defined.

Class ByteStream (S : Type) : Type := {
  (** [read(&mut buf)] with a buffer of [n] bytes; [Ok []] is the end of the
      stream. *)
  read : nat -> S -> result bytes IoError * S;
  read_exact : nat -> S -> result bytes IoError * S;
  write_all : bytes -> S -> result unit IoError * S
}.

Class ByteStreamLaws (S : Type) `{ByteStream S} : Type := {
  incoming : S -> bytes;
  written : S -> bytes;
  reliable : S -> Prop;
  read_ok n s c s' : read n s = (Ok c, s') ->
    incoming s = c ++ incoming s' /\ length c <= n /\ written s' = written s /\
    (0 < n -> c = [] -> incoming s = []) /\ (reliable s -> reliable s');
  read_err n s e s' : read n s = (Err e, s') -> written s' = written s /\ ~ reliable s;
  read_exact_ok n s bs s' : read_exact n s = (Ok bs, s') ->
    incoming s = bs ++ incoming s' /\ length bs = n /\ written s' = written s /\
    (reliable s -> reliable s');
  read_exact_err n s e s' : read_exact n s = (Err e, s') ->
    written s' = written s /\ (reliable s -> e = UnexpectedEof) /\
    (e = UnexpectedEof -> reliable s -> length (incoming s) < n);
  write_ok bs s s' : write_all bs s = (Ok tt, s') ->
    written s' = written s ++ bs /\ incoming s' = incoming s /\ (reliable s -> reliable s');
  write_err bs s e s' : write_all bs s = (Err e, s') ->
    incoming s' = incoming s /\ (exists k, written s' = written s ++ take k bs) /\ ~ reliable s
}.

(** ** A concrete stream

    The reads are scripted: each chunk is what one [read] returns at most
    (empty ones are skipped), an error fails one call; the writes succeed. *)
Abbreviation reads := (list (result bytes IoError)).

Record Wire := { script : reads; sent : bytes }.

Fixpoint read_script (n : nat) (cs : reads) : result bytes IoError * reads :=
  match cs with
  | [] => (Ok [], [])
  | Err e :: cs => (Err e, cs)
  | Ok [] :: cs => read_script n cs
  | Ok c :: cs => (Ok (take n c), Ok (drop n c) :: cs)
  end.

Fixpoint read_exact_script (n : nat) (cs : reads) : result bytes IoError * reads :=
  match cs with
  | [] => if n =? 0 then (Ok [], []) else (Err UnexpectedEof, [])
  | Err e :: cs' => if n =? 0 then (Ok [], cs) else (Err e, cs')
  | Ok c :: cs =>
      if n <=? length c then (Ok (take n c), Ok (drop n c) :: cs) else
      let (r, cs) := read_exact_script (n - length c) cs in
      (let? bs := r in Ok (c ++ bs), cs)
  end.

#[export] Instance wire_stream : ByteStream Wire := {|
  read n w := let (r, cs) := read_script n (script w) in (r, {| script := cs; sent := sent w |});
  read_exact n w :=
    let (r, cs) := read_exact_script n (script w) in (r, {| script := cs; sent := sent w |});
  write_all bs w := (Ok tt, {| script := script w; sent := sent w ++ bs |})
|}.

Fixpoint script_bytes (cs : reads) : bytes :=
  match cs with
  | [] => []
  | Err _ :: cs => script_bytes cs
  | Ok c :: cs => c ++ script_bytes cs
  end.

Definition script_reliable (cs : reads) : Prop := Forall (fun r => is_ok r = true) cs.

Lemma read_script_spec n cs r cs' :
  read_script n cs = (r, cs') ->
  match r with
  | Ok c => script_bytes cs = c ++ script_bytes cs' /\ length c <= n /\
      (0 < n -> c = [] -> script_bytes cs = []) /\ (script_reliable cs -> script_reliable cs')
  | Err _ => ~ script_reliable cs
  end.
Proof.
  unfold script_reliable. induction cs as [|[[|b c]|e] cs IH]; simpl; intros H; simplify_eq.
  - repeat split; [simpl; lia|done].
  - specialize (IH H). destruct r; rewrite List.Forall_cons_iff; naive_solver.
  - split_and!; [|rewrite length_take; lia| |by rewrite !List.Forall_cons_iff].
    + simpl. by rewrite app_assoc, (take_drop n (b :: c)).
    + intros Hn. destruct n; [lia|done].
  - rewrite List.Forall_cons_iff. by intros [].
Qed.

Lemma read_exact_script_spec n cs r cs' :
  read_exact_script n cs = (r, cs') ->
  match r with
  | Ok bs => script_bytes cs = bs ++ script_bytes cs' /\ length bs = n /\
      (script_reliable cs -> script_reliable cs')
  | Err e => (script_reliable cs -> e = UnexpectedEof) /\
      (e = UnexpectedEof -> script_reliable cs -> length (script_bytes cs) < n)
  end.
Proof.
  unfold script_reliable. revert n r cs'. induction cs as [|[c|e] cs IH]; intros n r cs'; simpl.
  - destruct (Nat.eqb_spec n 0); intros H; simplify_eq; simpl; split_and!; (done || lia).
  - destruct (Nat.leb_spec n (length c)) as [Hle|Hgt].
    + intros [= <- <-]. simpl. rewrite !List.Forall_cons_iff.
      split_and!; [by rewrite app_assoc, take_drop|rewrite length_take; lia|done].
    + destruct (read_exact_script _ _) as [r1 cs1] eqn:E. specialize (IH _ _ _ E).
      intros [= <- <-]. destruct r1 as [bs|e]; simpl; rewrite List.Forall_cons_iff.
      * destruct IH as (-> & Hl & Hr). rewrite <- app_assoc, length_app.
        split_and!; [done|lia|naive_solver].
      * destruct IH as [He Hl]. rewrite length_app. split; [naive_solver|].
        intros -> [_ Hrel]. specialize (Hl eq_refl Hrel). lia.
  - destruct (Nat.eqb_spec n 0); intros H; simplify_eq; simpl.
    + done.
    + by split; intros; match goal with H : Forall _ (Err _ :: _) |- _ => apply List.Forall_cons_iff in H as [? _] end.
Qed.

#[export] Instance wire_laws : ByteStreamLaws Wire.
Proof.
  refine {| incoming w := script_bytes (script w); written := sent;
            reliable w := script_reliable (script w) |}; simpl.
  - intros n [cs sn] c s'; simpl. destruct (read_script n cs) as [r cs'] eqn:E; intros [= -> <-]; simpl.
    destruct (read_script_spec _ _ _ _ E) as (? & ? & ? & ?). done.
  - intros n [cs sn] e s'; simpl. destruct (read_script n cs) as [r cs'] eqn:E; intros [= -> <-]; simpl.
    split; [done|]. apply (read_script_spec _ _ _ _ E).
  - intros n [cs sn] bs s'; simpl. destruct (read_exact_script n cs) as [r cs'] eqn:E; intros [= -> <-].
    destruct (read_exact_script_spec _ _ _ _ E) as (? & ? & ?). done.
  - intros n [cs sn] e s'; simpl. destruct (read_exact_script n cs) as [r cs'] eqn:E; intros [= -> <-].
    destruct (read_exact_script_spec _ _ _ _ E) as [? ?]. done.
  - intros bs [cs sn] s' [= <-]. done.
  - intros bs [cs sn] e s'. done.
Defined.
