(* ===== verification/IngestSession.v ===== *)
(** One connected producer, server side ([session.rs] of the crates
    [adapter-ingest-tcp] and [adapter-ingest-unix-socket]).

    The two adapters are the same code but for what the end of the stream
    means: [Adapter] is that difference, [TcpAdapter] and [UnixAdapter] its
    two values.  A read loop runs on fuel; [None] is exhausted fuel or a panic
    of the code it calls.  An operation returns the stream or the session as
    it leaves it, also when it fails. *)
From stdpp Require Import base strings option numbers sorting list.
From Stdlib Require Import Strings.Byte.
From S2P Require Import Prelude EventModel WireProtocol StreamCodec IngestProtocol ByteStream.

Inductive IngestError :=
  | ConnectionRefused (m : string)
  | ConnectionReset
  | IngestIo (e : IoError)
  | IngestClosed
  | IngestHandshake (m : string)
  | IngestDecode (m : string).

#[export] Instance IngestError_eq_dec : EqDecision IngestError.
Proof. solve_decision. Defined.

Record IncomingEvent := { inc_event : OtkEvent; inc_traceparent : option string }.

Definition READ_CHUNK : nat := 4096.

Definition frame_err_to_ingest (e : FrameError) : IngestError := IngestDecode (FrameError_display e).
Definition handshake_err_to_ingest (e : HandshakeError) : IngestError :=
  IngestHandshake (HandshakeError_display e).
Definition protocol_err_to_ingest (e : ProtocolError) : IngestError :=
  IngestDecode (ProtocolError_display e).

(** What [Ok(0)] means, by the decoder's state: the handshake's error, and the
    session's error where it is not a clean close. *)
Class Adapter : Type := {
  eof_in_handshake : StreamFrameDecoder -> IngestError;
  eof_in_session : StreamFrameDecoder -> option IngestError
}.

Definition TcpAdapter : Adapter := {|
  eof_in_handshake decoder :=
    if has_pending decoder
    then IngestDecode "truncated Connect frame: EOF mid-frame during handshake"
    else IngestHandshake "EOF before Connect";
  eof_in_session decoder :=
    if has_pending decoder then Some (IngestDecode "truncated frame: EOF before frame completed")
    else None
|}.

Definition UnixAdapter : Adapter := {|
  eof_in_handshake _ := IngestHandshake "EOF before Connect";
  eof_in_session _ := None
|}.

(** What a caller may rely on of an adapter: the end of the stream at a frame
    boundary is a clean close, and a stream that ends does not close the port. *)
Class AdapterLaws (Ad : Adapter) : Prop := {
  eof_clean d : has_pending d = false -> eof_in_session d = None;
  eof_not_closed d : eof_in_handshake d <> IngestClosed
}.

#[export] Instance tcp_laws : AdapterLaws TcpAdapter.
Proof. split; intros d; simpl; [by intros ->|by destruct (has_pending d)]. Qed.

#[export] Instance unix_laws : AdapterLaws UnixAdapter.
Proof. done. Qed.

Section Session.
Context `{BS : ByteStream Conn} `{Ad : Adapter}.
Context `{EnvCbor : Cbor OtkEnvelope} `{CborEvent : Cbor OtkEvent} `{CborHeartbeat : Cbor Heartbeat}.
Context `{CborConnect : Cbor Connect} `{CborAck : Cbor ConnectAck} `{CborReject : Cbor ConnectReject}.

Record IngestSession := {
  stream : Conn;
  peer_addr : string;
  session_producer_id : string;
  decoder : StreamFrameDecoder;
  processor : PostHandshakeProcessor;
  pending : list OtkEnvelope
}.

(** The loop over the results of one [push]: an error ends it, what was queued
    before stays queued. *)
Fixpoint queue_frames (results : list (result OtkEnvelope FrameError)) (pending : list OtkEnvelope)
  : result unit IngestError * list OtkEnvelope :=
  match results with
  | [] => (Ok tt, pending)
  | Err e :: _ => (Err (frame_err_to_ingest e), pending)
  | Ok envelope :: results => queue_frames results (pending ++ [envelope])
  end.

Definition send_envelope (s : Conn) (envelope : OtkEnvelope) (max_frame_size : N)
  : result unit IngestError * Conn :=
  match encode_stream envelope max_frame_size with
  | Err e => (Err (frame_err_to_ingest e), s)
  | Ok frame => let (r, s) := write_all frame s in (map_err IngestIo r, s)
  end.

(** Read until the first complete envelope arrives. *)
Fixpoint await_connect (fuel : nat) (s : Conn) (d : StreamFrameDecoder)
  : option (result (StreamFrameDecoder * list OtkEnvelope) IngestError * Conn) :=
  match fuel with
  | O => None
  | S fuel =>
      match read READ_CHUNK s with
      | (Err e, s) => Some (Err (IngestIo e), s)
      | (Ok [], s) => Some (Err (eof_in_handshake d), s)
      | (Ok chunk, s) =>
          let! (results, d) := push d chunk in
          match queue_frames results [] with
          | (Err e, _) => Some (Err e, s)
          | (Ok _, []) => await_connect fuel s d
          | (Ok _, envelopes) => Some (Ok (d, envelopes), s)
          end
      end
  end.

Definition handshake (fuel : nat) (s : Conn) (peer_addr : string) (max_frame_bytes : N)
    (authoriser : ConnectAuthoriser) : option (result IngestSession IngestError * Conn) :=
  let! (r, s) := await_connect fuel s (new max_frame_bytes) in
  match r with
  | Err e => Some (Err e, s)
  | Ok (_, []) => None
  | Ok (d, connect_env :: pending) =>
      match perform_server_handshake_with_auth connect_env authoriser with
      | Err e => Some (Err (handshake_err_to_ingest e), s)
      | Ok (Accepted reply processor) =>
          match send_envelope s reply max_frame_bytes with
          | (Err e, s) => Some (Err e, s)
          | (Ok _, s) =>
              Some (Ok {| stream := s; peer_addr := peer_addr;
                          session_producer_id := as_str (producer_id processor);
                          decoder := d; processor := processor; pending := pending |}, s)
          end
      | Ok (Rejected reply reason) =>
          let (_, s) := send_envelope s reply max_frame_bytes in
          Some (Err (IngestHandshake ("rejected: " +:+ ConnectRejectReason_debug reason)), s)
      end
  end.

Definition with_input (s : Conn) (d : StreamFrameDecoder) (pending : list OtkEnvelope)
    (x : IngestSession) : IngestSession :=
  {| stream := s; peer_addr := peer_addr x; session_producer_id := session_producer_id x;
     decoder := d; processor := processor x; pending := pending |}.

Fixpoint fill_pending (fuel : nat) (x : IngestSession)
  : option (result bool IngestError * IngestSession) :=
  match fuel with
  | O => None
  | S fuel =>
      match read READ_CHUNK (stream x) with
      | (Err e, s) => Some (Err (IngestIo e), with_input s (decoder x) (pending x) x)
      | (Ok [], s) =>
          Some (from_option Err (Ok false) (eof_in_session (decoder x)),
                with_input s (decoder x) (pending x) x)
      | (Ok chunk, s) =>
          let! (results, d) := push (decoder x) chunk in
          let (r, envelopes) := queue_frames results (pending x) in
          let x := with_input s d envelopes x in
          match r, envelopes with
          | Err e, _ => Some (Err e, x)
          | Ok _, [] => fill_pending fuel x
          | Ok _, _ => Some (Ok true, x)
          end
      end
  end.

Fixpoint next_event (fuel : nat) (x : IngestSession)
  : option (result (option IncomingEvent) IngestError * IngestSession) :=
  match fuel with
  | O => None
  | S fuel =>
      let! (r, x) := if bool_decide (pending x = []) then fill_pending (S fuel) x
                     else Some (Ok true, x) in
      match r with
      | Err e => Some (Err e, x)
      | Ok false => Some (Ok None, x)
      | Ok true =>
          match pending x with
          | [] => None
          | envelope :: rest =>
              let x := with_input (stream x) (decoder x) rest x in
              let! r := process (processor x) envelope in
              match r with
              | Err e => Some (Err (protocol_err_to_ingest e), x)
              | Ok (ActEvent event traceparent) =>
                  Some (Ok (Some {| inc_event := event; inc_traceparent := traceparent |}), x)
              | Ok ActHeartbeat => next_event fuel x
              | Ok ActDisconnect => Some (Ok None, x)
              end
          end
      end
  end.

(** How a caller's loop over [next_event] ends. *)
Inductive Ending := CleanEnd | FailedEnd (e : IngestError).

(** The caller's loop: every event the session gives, and its end. *)
Fixpoint drain (fuel : nat) (x : IngestSession) : option (list IncomingEvent * Ending) :=
  match fuel with
  | O => None
  | S fuel' =>
      let! (r, x) := next_event fuel x in
      match r with
      | Err e => Some ([], FailedEnd e)
      | Ok None => Some ([], CleanEnd)
      | Ok (Some event) => let! (events, ending) := drain fuel' x in Some (event :: events, ending)
      end
  end.

(** A connection from its first byte: the handshake, then the caller's loop. *)
Definition serve (fuel : nat) (s : Conn) (peer_addr : string) (max_frame_bytes : N)
    (authoriser : ConnectAuthoriser) : option (list IncomingEvent * Ending) :=
  let! (r, _) := handshake fuel s peer_addr max_frame_bytes authoriser in
  match r with
  | Err e => Some ([], FailedEnd e)
  | Ok x => drain fuel x
  end.

(** ** Specification

    What the envelopes of a connection mean, in order, when [at_end] is the
    end of the byte stream. *)
Fixpoint interpret (p : PostHandshakeProcessor) (envelopes : list OtkEnvelope) (at_end : Ending)
  : option (list IncomingEvent * Ending) :=
  match envelopes with
  | [] => Some ([], at_end)
  | envelope :: envelopes =>
      let! r := process p envelope in
      match r with
      | Err e => Some ([], FailedEnd (protocol_err_to_ingest e))
      | Ok (ActEvent event traceparent) =>
          let! (events, ending) := interpret p envelopes at_end in
          Some ({| inc_event := event; inc_traceparent := traceparent |} :: events, ending)
      | Ok ActHeartbeat => interpret p envelopes at_end
      | Ok ActDisconnect => Some ([], CleanEnd)
      end
  end.

Definition eof_ending (d : StreamFrameDecoder) : Ending :=
  from_option FailedEnd CleanEnd (eof_in_session d).
End Session.

Arguments IngestSession : clear implicits.

(** ** The Unix adapter's own session *)
Section Unix.
Context `{BS : ByteStream Conn}.
Context `{EnvCbor : Cbor OtkEnvelope} `{CborEvent : Cbor OtkEvent} `{CborHeartbeat : Cbor Heartbeat}.
Context `{CborConnect : Cbor Connect} `{CborAck : Cbor ConnectAck} `{CborReject : Cbor ConnectReject}.

Definition unix_handshake (fuel : nat) (s : Conn) (peer_addr : string) (max_frame_bytes : N)
    (authoriser : ConnectAuthoriser) : option (result (IngestSession Conn) IngestError * Conn) :=
  handshake (Ad := UnixAdapter) fuel s peer_addr max_frame_bytes authoriser.

Definition unix_fill_pending (fuel : nat) (x : IngestSession Conn) :=
  fill_pending (Ad := UnixAdapter) fuel x.

Definition unix_next_event (fuel : nat) (x : IngestSession Conn) :=
  next_event (Ad := UnixAdapter) fuel x.
End Unix.

(** ** Frames and the queue *)
Section Queue.
Context `{EnvCbor : Cbor OtkEnvelope}.

Lemma frames_shrink max skip bs rs skip' rest :
  frames max skip bs rs skip' rest -> length rs + length rest <= length bs.
Proof. induction 1; simpl in *; rewrite ?length_app in *; lia. Qed.

Lemma frames_decoded max skip bs rs skip' rest e :
  frames max skip bs rs skip' rest -> Ok e ∈ rs -> exists payload, cbor_decode payload = Ok e.
Proof.
  induction 1; rewrite ?elem_of_nil, ?elem_of_cons; try tauto; intros [Hd|Hin]; try tauto; [done|].
  destruct (cbor_decode payload) as [e'|] eqn:E; simplify_eq/=. eauto.
Qed.

(** The envelopes before the first error, and that error with what follows. *)
Lemma results_split (rs : list (result OtkEnvelope FrameError)) :
  exists envs tail, rs = (Ok <$> envs) ++ tail /\ (tail = [] \/ exists fe tl, tail = Err fe :: tl).
Proof.
  induction rs as [|[e|fe] rs (envs & tail & -> & Ht)].
  - exists [], []. auto.
  - exists (e :: envs), tail. auto.
  - exists [], (Err fe :: (Ok <$> envs) ++ tail). eauto.
Qed.

Lemma queue_frames_ok envs q : queue_frames (Ok <$> envs) q = (Ok tt, q ++ envs).
Proof.
  revert q. induction envs as [|e envs IH]; intros q; simpl; [by rewrite app_nil_r|].
  rewrite IH. by rewrite <- app_assoc.
Qed.

Lemma queue_frames_err envs fe tl q :
  queue_frames ((Ok <$> envs) ++ Err fe :: tl) q = (Err (frame_err_to_ingest fe), q ++ envs).
Proof.
  revert q. induction envs as [|e envs IH]; intros q; simpl; [by rewrite app_nil_r|].
  rewrite IH. by rewrite <- app_assoc.
Qed.

(** [d] with [input] still to come decodes to [rs] and ends as [d_end]. *)
Record decodes (d : StreamFrameDecoder) (input : bytes) (rs : list (result OtkEnvelope FrameError))
    (d_end : StreamFrameDecoder) : Prop := {
  dec_wf : wf d;
  dec_max : max_frame_size d_end = max_frame_size d;
  dec_frames : frames (max_frame_size d) (skip_bytes d) (buf d ++ input) rs
                 (skip_bytes d_end) (buf d_end)
}.

Lemma decodes_exists d input : wf d -> exists rs d_end, decodes d input rs d_end.
Proof. intros Hwf. destruct (push_spec d input Hwf) as (rs & d' & _ & ? & ? & ?). by exists rs, d'. Qed.

Lemma decodes_end d rs d_end : decodes d [] rs d_end -> rs = [] /\ d_end = d.
Proof.
  intros [Hwf Hm Hf]. rewrite app_nil_r in Hf.
  destruct (frames_det _ _ _ _ _ _ _ _ _ (wf_stuck d Hwf) Hf) as (<- & Hs & Hb).
  destruct d, d_end. simpl in *. by subst.
Qed.

Lemma decodes_push d c input rs d_end :
  decodes d (c ++ input) rs d_end ->
  exists rs1 d1 rs2, push d c = Some (rs1, d1) /\ rs = rs1 ++ rs2 /\ decodes d1 input rs2 d_end /\
    length rs1 + length (buf d1) <= length (buf d) + length c.
Proof.
  intros [Hwf Hm Hf]. destruct (push_spec d c Hwf) as (rs1 & d1 & Hp & Hwf1 & Hm1 & Hf1).
  destruct (push_spec d1 input Hwf1) as (rs2 & d2 & _ & _ & Hm2 & Hf2).
  rewrite Hm1 in Hf2, Hm2. pose proof (frames_app _ _ _ _ _ _ _ _ _ _ Hf1 Hf2) as Hall.
  rewrite <- app_assoc in Hall. destruct (frames_det _ _ _ _ _ _ _ _ _ Hf Hall) as (-> & Hs & Hb).
  exists rs1, d1, rs2. split; [done|]. split; [done|]. split.
  - split; [done|congruence|]. by rewrite Hm1, Hs, Hb.
  - apply frames_shrink in Hf1. by rewrite length_app in Hf1.
Qed.
End Queue.

(** ** The session against its specification *)
Section SessionFacts.
Context `{BS : ByteStream Conn} {BL : ByteStreamLaws Conn} `{Ad : Adapter}.
Context `{EnvCbor : Cbor OtkEnvelope} `{CborEvent : Cbor OtkEvent} `{CborHeartbeat : Cbor Heartbeat}.
(** A decoded text is UTF-8. *)
Hypothesis decoded_text : forall bs e, cbor_decode (A := OtkEnvelope) bs = Ok e -> wf_envelope e.

(** The session [x], whose stream still has [rs] to give, then [tail]. *)
Record live (x : IngestSession Conn) (envs : list OtkEnvelope)
    (tail : list (result OtkEnvelope FrameError)) (d_end : StreamFrameDecoder) : Prop := {
  live_text : Forall wf_envelope (pending x ++ envs);
  live_decodes : decodes (decoder x) (incoming (stream x)) ((Ok <$> envs) ++ tail) d_end;
  live_tail : tail = [] \/ exists fe tl, tail = Err fe :: tl
}.

(** What is left to work through. *)
Definition backlog (x : IngestSession Conn) : nat :=
  length (incoming (stream x)) + length (buf (decoder x)) + length (pending x).

Definition tail_ending (tail : list (result OtkEnvelope FrameError)) (d_end : StreamFrameDecoder)
  : Ending :=
  match tail with
  | Err fe :: _ => FailedEnd (frame_err_to_ingest fe)
  | _ => eof_ending d_end
  end.

Lemma live_exists x :
  wf (decoder x) -> Forall wf_envelope (pending x) -> exists envs tail d_end, live x envs tail d_end.
Proof.
  intros Hwf Hp. destruct (decodes_exists (decoder x) (incoming (stream x)) Hwf) as (rs & d_end & Hd).
  destruct (results_split rs) as (envs & tail & -> & Ht). exists envs, tail, d_end.
  split; [|done..]. apply Forall_app. split; [done|]. apply list.Forall_forall. intros e He.
  edestruct (frames_decoded _ _ _ _ _ _ e (dec_frames _ _ _ _ Hd)) as [bs Hbs]; [|by eapply decoded_text].
  apply elem_of_app. left. by apply list_elem_of_fmap_2.
Qed.

(** Taking the results of one read off what is to come. *)
Lemma take_results (envs : list OtkEnvelope) (tail rs1 rs2 : list (result OtkEnvelope FrameError)) :
  (tail = [] \/ exists fe tl, tail = Err fe :: tl) -> (Ok <$> envs) ++ tail = rs1 ++ rs2 ->
  (exists envs1 envs2, rs1 = Ok <$> envs1 /\ envs = envs1 ++ envs2 /\ rs2 = (Ok <$> envs2) ++ tail) \/
  (exists fe tl tl1, tail = Err fe :: tl /\ rs1 = (Ok <$> envs) ++ Err fe :: tl1).
Proof.
  intros Ht. revert envs. induction rs1 as [|[e|fe] rs1 IH]; intros envs Heq; simpl in Heq.
  - left. exists [], envs. auto.
  - destruct envs as [|e' envs]; simplify_eq/=.
    + by destruct Ht as [?|(? & ? & ?)].
    + destruct (IH envs) as [(e1 & e2 & -> & -> & ->)|(fe & tl & tl1 & -> & ->)]; [done|left|right].
      * by exists (e :: e1), e2.
      * by exists fe, tl, tl1.
  - destruct envs as [|e' envs]; simplify_eq/=. right. eauto.
Qed.

(** One read of a connection. *)
Lemma read_step s0 d envs tail d_end c s :
  decodes d (incoming s0) ((Ok <$> envs) ++ tail) d_end ->
  (tail = [] \/ exists fe tl, tail = Err fe :: tl) -> read READ_CHUNK s0 = (Ok c, s) ->
  (reliable s0 -> reliable s) /\ written s = written s0 /\
  match c with
  | [] => envs = [] /\ tail = [] /\ d_end = d
  | _ => exists rs1 d1, push d c = Some (rs1, d1) /\
      length (incoming s) + length (buf d1) + length rs1 <= length (incoming s0) + length (buf d) /\
      length (incoming s) < length (incoming s0) /\
      ((exists envs1 envs2, rs1 = Ok <$> envs1 /\ envs = envs1 ++ envs2 /\
          decodes d1 (incoming s) ((Ok <$> envs2) ++ tail) d_end) \/
       (exists fe tl tl1, tail = Err fe :: tl /\ rs1 = (Ok <$> envs) ++ Err fe :: tl1))
  end.
Proof.
  intros Hd Htail Hr. destruct (read_ok _ _ _ _ Hr) as (Hin & _ & Hw & Heof & Hrel).
  split; [done|]. split; [done|]. destruct c as [|b c].
  { rewrite Heof in Hd by (done || (unfold READ_CHUNK; lia)).
    apply decodes_end in Hd as [[Ha ->]%app_nil Hde]. by apply fmap_nil_inv in Ha as ->. }
  rewrite Hin in Hd. destruct (decodes_push _ _ _ _ _ Hd) as (rs1 & d1 & rs2 & Hp & Hrs & Hd1 & Hl).
  exists rs1, d1. split; [done|]. rewrite Hin, length_app. split; [lia|]. split; [simpl; lia|].
  destruct (take_results _ _ _ _ Htail Hrs) as [(e1 & e2 & -> & -> & ->)|?]; [left|by right].
  by exists e1, e2.
Qed.

Lemma fill_spec fuel x envs tail d_end :
  live x envs tail d_end -> pending x = [] -> length (incoming (stream x)) < fuel ->
  exists r x', fill_pending fuel x = Some (r, x') /\ processor x' = processor x /\
    (reliable (stream x) -> reliable (stream x')) /\
    ((r = Ok true /\ pending x' <> [] /\ backlog x' <= backlog x /\
        exists envs2, envs = pending x' ++ envs2 /\ live x' envs2 tail d_end) \/
     (r = from_option Err (Ok false) (eof_in_session d_end) /\ envs = [] /\ tail = []) \/
     (exists fe tl, tail = Err fe :: tl /\ r = Err (frame_err_to_ingest fe)) \/
     (exists e, r = Err (IngestIo e) /\ ~ reliable (stream x))).
Proof.
  revert x envs. induction fuel as [|fuel IH]; intros x envs Hlive Hp Hfuel; [lia|].
  cbn [fill_pending]. destruct (read READ_CHUNK (stream x)) as [[c|e] s] eqn:Hr.
  2:{ eexists _, _. split; [done|]. split; [done|]. apply read_err in Hr as [_ Hnr].
      split; [done|]. eauto 10. }
  destruct (read_step _ _ _ _ _ _ _ (live_decodes _ _ _ _ Hlive) (live_tail _ _ _ _ Hlive) Hr)
    as (Hrel & _ & Hstep).
  destruct c as [|b c].
  { destruct Hstep as (-> & -> & ->). eexists _, _. split; [done|]. auto 10. }
  destruct Hstep as (rs1 & d1 & -> & Hback & Hlt & Hcase).
  destruct Hlive as [Htext _ Htail]. rewrite Hp in *.
  destruct Hcase as [(envs1 & envs2 & -> & -> & Hd1)|(fe & tl & tl1 & -> & ->)].
  2:{ rewrite queue_frames_err. eexists _, _. split; [done|]. split; [done|]. split; [done|]. eauto 10. }
  rewrite queue_frames_ok, app_nil_l. rewrite length_fmap in Hback.
  destruct envs1 as [|e1 envs1].
  - destruct (IH (with_input s d1 [] x) envs2) as (r & x' & -> & Hpr & Hrel' & Hout);
      [by split|done|simpl; lia|].
    exists r, x'. split; [done|]. split; [done|]. split; [auto|].
    destruct Hout as [(-> & ? & Hb & ?)|[?|[?|(e & -> & Hn)]]]; [|by auto..|].
    + left. split; [done|]. split; [done|]. split; [|done]. unfold backlog in *. simpl in *. lia.
    + do 3 right. exists e. split; [done|]. simpl in Hn. auto.
  - eexists _, _. split; [done|]. split; [done|]. split; [done|]. left. split; [done|].
    split; [done|]. split; [unfold backlog; rewrite Hp; simpl in *; lia|].
    exists envs2. split; [done|]. by split.
Qed.

(** ** Totality of the specification *)
Lemma interpret_total p envs at_end :
  Forall wf_envelope envs -> exists out, interpret p envs at_end = Some out.
Proof.
  induction 1 as [|e envs He _ [[evs ending] IH]]; simpl; [eauto|].
  destruct (process_total p e He) as [[[ev tp| |]|err] ->]; rewrite ?IH; eauto.
Qed.

Lemma next_event_spec fuel x envs tail d_end evs ending :
  live x envs tail d_end -> backlog x < fuel ->
  interpret (processor x) (pending x ++ envs) (tail_ending tail d_end) = Some (evs, ending) ->
  exists r x', next_event fuel x = Some (r, x') /\ processor x' = processor x /\
    (reliable (stream x) -> reliable (stream x')) /\
    ((exists e evs1 envs2, r = Ok (Some e) /\ evs = e :: evs1 /\ backlog x' < backlog x /\
        live x' envs2 tail d_end /\
        interpret (processor x) (pending x' ++ envs2) (tail_ending tail d_end) = Some (evs1, ending)) \/
     (r = Ok None /\ evs = [] /\ ending = CleanEnd) \/
     (exists e, r = Err e /\ evs = [] /\ ending = FailedEnd e) \/
     (exists fe tl, tail = Err fe :: tl /\ r = Err (frame_err_to_ingest fe)) \/
     (exists e, r = Err (IngestIo e) /\ ~ reliable (stream x))).
Proof.
  revert x envs. induction fuel as [|fuel IH]; intros x envs Hlive Hfuel Hint; [lia|].
  cbn [next_event].
  (* The queue is made non-empty first. *)
  assert (Hfill : exists r x1, (if bool_decide (pending x = []) then fill_pending (S fuel) x
                                else Some (Ok true, x)) = Some (r, x1) /\
    processor x1 = processor x /\ (reliable (stream x) -> reliable (stream x1)) /\
    ((r = Ok true /\ pending x1 <> [] /\ backlog x1 <= backlog x /\
        exists envs2, pending x ++ envs = pending x1 ++ envs2 /\ live x1 envs2 tail d_end) \/
     (r = from_option Err (Ok false) (eof_in_session d_end) /\ pending x ++ envs = [] /\ tail = []) \/
     (exists fe tl, tail = Err fe :: tl /\ r = Err (frame_err_to_ingest fe)) \/
     (exists e, r = Err (IngestIo e) /\ ~ reliable (stream x)))).
  { case_bool_decide as Hp.
    - rewrite Hp. apply fill_spec; [done..|]. unfold backlog in Hfuel. lia.
    - eexists _, _. split; [done|]. split; [done|]. split; [done|]. left. eauto 10. }
  destruct Hfill as (r & x1 & -> & Hpr & Hrel & Hout).
  destruct Hout as [(-> & Hne & Hb & envs2 & Heq & Hlive1)|[(-> & Heq & ->)|[(fe & tl & -> & ->)|(e & -> & Hn)]]].
  - destruct (pending x1) as [|env rest] eqn:Hp1; [done|]. rewrite Heq in Hint. simpl in Hint.
    cbn [with_input processor]. rewrite Hpr. destruct (process (processor x) env) as [[act|err]|] eqn:Hproc; [| |done].
    2:{ eexists _, _. split; [done|]. simplify_eq. split; [done|]. split; [done|]. eauto 10. }
    set (x2 := with_input (stream x1) (decoder x1) rest x1).
    assert (Hlive2 : live x2 envs2 tail d_end).
    { destruct Hlive1 as [Htext ? ?]. split; [|done..]. rewrite Hp1 in Htext. by inv Htext. }
    assert (Hb2 : backlog x2 < backlog x) by (unfold backlog in *; rewrite Hp1 in Hb; simpl in *; lia).
    destruct act as [ev tp| |].
    + destruct (interpret _ (rest ++ envs2) _) as [[evs1 ending1]|] eqn:Hrest; [|done].
      simplify_eq. eexists _, _. split; [done|]. split; [done|]. split; [done|]. left.
      eexists _, _, envs2. done.
    + destruct (IH x2 envs2 Hlive2) as (r & x' & Hn & Hpr' & Hrel' & Hcase);
        [lia|by simpl; rewrite Hpr|].
      rewrite Hn. exists r, x'. simpl in Hpr'. rewrite Hpr' , Hpr. split; [done|]. split; [done|].
      split; [auto|]. simpl in *. rewrite Hpr in Hcase.
      destruct Hcase as [(e & evs1 & envs3 & ? & ? & ? & ? & ?)|[?|[?|[?|(e & ? & Hnr)]]]]; [|by auto 10..|].
      * left. exists e, evs1, envs3. split_and!; (done || lia).
      * do 4 right. exists e. split; [done|]. auto.
    + eexists _, _. split; [done|]. simplify_eq. auto 10.
  - rewrite Heq in Hint. simpl in Hint. unfold tail_ending, eof_ending in Hint.
    destruct (eof_in_session d_end) as [e|]; simplify_eq/=;
      (eexists _, _; split; [done|split; [done|split; [done|]]]); eauto 10.
  - eexists _, _. split; [done|]. split; [done|]. split; [done|]. eauto 10.
  - eexists _, _. split; [done|]. split; [done|]. split; [done|]. eauto 10.
Qed.

Lemma drain_spec fuel x envs tail d_end evs ending :
  live x envs tail d_end -> backlog x < fuel ->
  interpret (processor x) (pending x ++ envs) (tail_ending tail d_end) = Some (evs, ending) ->
  exists evs' ending', drain fuel x = Some (evs', ending') /\
    (evs' = evs /\ ending' = ending \/
     evs' `prefix_of` evs /\
       ((exists fe tl, tail = Err fe :: tl /\ ending' = FailedEnd (frame_err_to_ingest fe)) \/
        (exists e, ending' = FailedEnd (IngestIo e) /\ ~ reliable (stream x)))).
Proof.
  revert x envs evs. induction fuel as [|fuel IH]; intros x envs evs Hlive Hfuel Hint; [lia|].
  destruct (next_event_spec (S fuel) x envs tail d_end evs ending Hlive Hfuel Hint)
    as (r & x' & Hn & Hpr & Hrel & Hcase). cbn [drain]. rewrite Hn.
  destruct Hcase as [(e & evs1 & envs2 & -> & -> & Hb & Hlive' & Hint')|[(-> & -> & ->)|[(e & -> & -> & ->)|[(fe & tl & -> & ->)|(e & -> & Hnr)]]]];
    [|by eexists _, _; split; [done|left]|by eexists _, _; split; [done|left]|
     eexists _, _; split; [done|right; split; [apply prefix_nil|eauto]]..].
  destruct (IH x' envs2 evs1 Hlive') as (evs' & ending' & -> & Hout); [lia|by rewrite Hpr|].
  exists (e :: evs'), ending'. split; [done|]. destruct Hout as [[-> ->]|[Hpre Hbad]]; [by left|right].
  split; [by apply prefix_cons|]. destruct Hbad as [?|(err & -> & Hnr)]; [by left|right].
  exists err. auto.
Qed.

Lemma await_spec fuel s d envs tail d_end :
  decodes d (incoming s) ((Ok <$> envs) ++ tail) d_end ->
  (tail = [] \/ exists fe tl, tail = Err fe :: tl) -> length (incoming s) < fuel ->
  exists r s', await_connect fuel s d = Some (r, s') /\ written s' = written s /\
    (reliable s -> reliable s') /\
    ((exists e q d1 envs2, r = Ok (d1, e :: q) /\ envs = e :: q ++ envs2 /\
        length (incoming s') + length (buf d1) + length q < length (incoming s) + length (buf d) /\
        decodes d1 (incoming s') ((Ok <$> envs2) ++ tail) d_end) \/
     (r = Err (eof_in_handshake d_end) /\ envs = [] /\ tail = []) \/
     (exists fe tl, tail = Err fe :: tl /\ r = Err (frame_err_to_ingest fe)) \/
     (exists e, r = Err (IngestIo e) /\ ~ reliable s)).
Proof.
  revert s d envs. induction fuel as [|fuel IH]; intros s d envs Hd Ht Hfuel; [lia|].
  cbn [await_connect]. destruct (read READ_CHUNK s) as [[c|e] s1] eqn:Hr.
  2:{ apply read_err in Hr as [Hw Hnr]. eexists _, _. split; [done|]. split; [done|].
      split; [done|]. eauto 10. }
  destruct (read_step _ _ _ _ _ _ _ Hd Ht Hr) as (Hrel & Hw & Hstep). destruct c as [|b c].
  { destruct Hstep as (-> & -> & ->). eexists _, _. split; [done|]. auto 10. }
  destruct Hstep as (rs1 & d1 & -> & Hback & Hlt & Hcase).
  destruct Hcase as [(envs1 & envs2 & -> & -> & Hd1)|(fe & tl & tl1 & -> & ->)].
  2:{ rewrite queue_frames_err. eexists _, _. split; [done|]. split; [done|]. split; [done|]. eauto 10. }
  rewrite queue_frames_ok, app_nil_l. rewrite length_fmap in Hback. destruct envs1 as [|e envs1].
  - destruct (IH s1 d1 envs2 Hd1 Ht) as (r & s' & -> & Hw' & Hrel' & Hout); [lia|].
    exists r, s'. split; [done|]. split; [congruence|]. split; [auto|]. simpl in Hback.
    destruct Hout as [(e & q & d2 & envs3 & ? & ? & ? & ?)|[?|[?|(e & -> & Hn)]]]; [|by auto..|].
    + left. exists e, q, d2, envs3. split_and!; (done || lia).
    + do 3 right. exists e. auto.
  - eexists _, _. split; [done|]. split; [done|]. split; [done|]. left.
    exists e, envs1, d1, envs2. simpl in *. split_and!; (done || lia).
Qed.
End SessionFacts.

(** ** A whole connection *)
Section Connection.
Context `{BS : ByteStream Conn} {BL : ByteStreamLaws Conn} `{Ad : Adapter}.
Context `{EnvCbor : Cbor OtkEnvelope} `{CborEvent : Cbor OtkEvent} `{CborHeartbeat : Cbor Heartbeat}.
Context `{CborConnect : Cbor Connect} `{CborAck : Cbor ConnectAck} `{CborReject : Cbor ConnectReject}.
Hypothesis decoded_text : forall bs e, cbor_decode (A := OtkEnvelope) bs = Ok e -> wf_envelope e.

Lemma send_envelope_reliable s env max frame :
  reliable s -> encode_stream env max = Ok frame ->
  exists s', send_envelope s env max = (Ok tt, s') /\ written s' = written s ++ frame /\
    incoming s' = incoming s /\ reliable s'.
Proof.
  intros Hrel He. unfold send_envelope. rewrite He.
  destruct (write_all frame s) as [[[]|e] s'] eqn:Hw.
  - apply write_ok in Hw as (? & ? & ?). exists s'. auto.
  - by apply write_err in Hw as (_ & _ & ?).
Qed.

Lemma send_envelope_incoming s env max r s' : send_envelope s env max = (r, s') -> incoming s' = incoming s.
Proof.
  unfold send_envelope. destruct (encode_stream env max); [|by intros [= _ <-]].
  destruct (write_all _ s) as [[[]|e] s1] eqn:Hw; intros [= _ <-].
  - by apply write_ok in Hw as (_ & ? & _).
  - by apply write_err in Hw as (? & _).
Qed.

Lemma decoded_envs max s envs tail d_end :
  decodes (new max) (incoming s) ((Ok <$> envs) ++ tail) d_end -> Forall wf_envelope envs.
Proof.
  intros Hd. apply list.Forall_forall. intros e He.
  edestruct (frames_decoded _ _ _ _ _ _ e (dec_frames _ _ _ _ Hd)) as [bs Hbs]; [|by eapply decoded_text].
  apply elem_of_app. left. by apply list_elem_of_fmap_2.
Qed.

(** An opened session is live on what follows its [Connect]. *)
Lemma handshake_live fuel s peer max auth envs tail d_end :
  decodes (new max) (incoming s) ((Ok <$> envs) ++ tail) d_end ->
  (tail = [] \/ exists fe tl, tail = Err fe :: tl) -> length (incoming s) < fuel ->
  exists r s', handshake fuel s peer max auth = Some (r, s') /\
    forall x, r = Ok x -> exists connect_env envs1 envs2, envs = connect_env :: envs1 /\
      envs1 = pending x ++ envs2 /\ live x envs2 tail d_end /\ backlog x < fuel /\
      exists reply, perform_server_handshake_with_auth connect_env auth = Ok (Accepted reply (processor x)).
Proof.
  intros Hd Ht Hfuel. unfold handshake. pose proof (decoded_envs _ _ _ _ _ Hd) as Htext.
  destruct (await_spec _ _ _ _ _ _ Hd Ht Hfuel) as (r & s1 & -> & _ & _ & Hout).
  destruct Hout as [(e & q & d1 & envs2 & -> & -> & Hb & Hd1)|[(-> & _)|[(fe & tl & _ & ->)|(err & -> & _)]]];
    [|by eexists _, _; split; [done|]..].
  destruct (perform_server_handshake_with_auth e auth) as [[reply p|reply reason]|err] eqn:Hh;
    [| |by eexists _, _; split; [done|]].
  2:{ destruct (send_envelope s1 reply max). by eexists _, _. }
  destruct (send_envelope s1 reply max) as [[[]|err] s2] eqn:Hsend; [|by eexists _, _; split; [done|]].
  apply send_envelope_incoming in Hsend as Hin.
  eexists _, _. split; [done|]. intros x [= <-]. exists e, (q ++ envs2), envs2.
  split; [done|]. split; [done|]. split; [|split].
  - apply List.Forall_cons_iff in Htext as [_ Htext]. split; simpl; [done|by rewrite Hin|done].
  - unfold backlog. simpl in *. rewrite Hin. lia.
  - by exists reply.
Qed.

Lemma connection_works fuel (s : Conn) (peer : string) (max : N) (auth : ConnectAuthoriser)
    connect_env envs d_end :
  reliable s -> decodes (new max) (incoming s) (Ok <$> connect_env :: envs) d_end ->
  length (incoming s) < fuel ->
  exists r s', handshake fuel s peer max auth = Some (r, s') /\
  match perform_server_handshake_with_auth connect_env auth with
  | Err e => r = Err (handshake_err_to_ingest e) /\ written s' = written s
  | Ok (Rejected reply reason) =>
      (exists m, r = Err (IngestHandshake m)) /\
      forall frame, encode_stream reply max = Ok frame -> written s' = written s ++ frame
  | Ok (Accepted reply p) =>
      forall frame, encode_stream reply max = Ok frame ->
        written s' = written s ++ frame /\
        exists x, r = Ok x /\ session_producer_id x = as_str (source_id connect_env) /\
          stream x = s' /\ drain fuel x = interpret p envs (eof_ending d_end)
  end.
Proof.
  intros Hrel Hd Hfuel. rewrite <- (app_nil_r (Ok <$> _)) in Hd.
  pose proof (decoded_envs _ _ _ _ _ Hd) as [_ Htext]%List.Forall_cons_iff.
  destruct (await_spec _ _ _ _ _ _ Hd (or_introl eq_refl) Hfuel) as (r & s1 & Ha & Hw & Hrel1 & Hout).
  unfold handshake. rewrite Ha.
  destruct Hout as [(e & q & d1 & envs2 & -> & [= <- ->] & Hb & Hd1)|[(_ & ? & _)|[(fe & tl & ? & _)|(err & _ & Hn)]]];
    [|done|done|by destruct Hn].
  specialize (Hrel1 Hrel).
  destruct (perform_server_handshake_with_auth connect_env auth) as [[reply p|reply reason]|err] eqn:Hh.
  - destruct (encode_stream reply max) as [frame|fe] eqn:Hf.
    2:{ unfold send_envelope. rewrite Hf. by eexists _, _. }
    destruct (send_envelope_reliable s1 reply max frame Hrel1 Hf) as (s2 & -> & Hw2 & Hin & Hrel2).
    eexists _, _. split; [done|]. intros ? [= <-]. split; [by rewrite Hw2, Hw|].
    eexists. split; [done|]. destruct (handshake_accepted _ _ _ _ _ Hh) as (_ & _ & ->).
    split; [done|]. split; [done|].
    set (x := {| stream := s2; peer_addr := _; session_producer_id := _; decoder := _; processor := _;
                 pending := _ |}).
    assert (Hlive : live x envs2 [] d_end) by (split; simpl; [done|by rewrite Hin|by left]).
    destruct (interpret_total (processor x) _ (eof_ending d_end) Htext) as [[evs ending] Hint].
    destruct (drain_spec fuel x envs2 [] d_end evs ending Hlive) as (evs' & ending' & Hdr & Hout);
      [unfold backlog; simpl in *; rewrite Hin; lia|done|].
    rewrite Hdr. simpl in Hint. rewrite Hint.
    destruct Hout as [[-> ->]|(_ & [(? & ? & ? & _)|(? & _ & Hn)])]; [done|done|by destruct Hn].
  - destruct (send_envelope s1 reply max) as [rs s2] eqn:Hsend. eexists _, _. split; [done|].
    split; [by eexists|]. intros frame Hf.
    destruct (send_envelope_reliable s1 reply max frame Hrel1 Hf) as (s3 & Hs3 & Hw3 & _).
    rewrite Hsend in Hs3. simplify_eq. by rewrite Hw3, Hw.
  - eexists _, _. done.
Qed.
(** ** Properties *)

(** C9: whatever a peer sends, however it is cut into reads and whatever I/O
    errors occur, the handshake ends, and a session it opens delivers, without
    a panic, a prefix of what the frames after the [Connect] mean, in order;
    it stops early only at a frame error or an I/O error, which it reports. *)
Theorem connection_robust fuel (s : Conn) (peer : string) (max : N) (auth : ConnectAuthoriser) :
  length (incoming s) < fuel ->
  exists r s', handshake fuel s peer max auth = Some (r, s') /\
  forall x, r = Ok x -> exists connect_env envs tail d_end evs ending evs' ending',
    decodes (new max) (incoming s) (Ok connect_env :: (Ok <$> envs) ++ tail) d_end /\
    (exists reply, perform_server_handshake_with_auth connect_env auth = Ok (Accepted reply (processor x))) /\
    interpret (processor x) envs (tail_ending tail d_end) = Some (evs, ending) /\
    drain fuel x = Some (evs', ending') /\
    (evs' = evs /\ ending' = ending \/
     evs' `prefix_of` evs /\
       ((exists fe tl, tail = Err fe :: tl /\ ending' = FailedEnd (frame_err_to_ingest fe)) \/
        (exists e, ending' = FailedEnd (IngestIo e) /\ ~ reliable (stream x)))).
Proof.
  intros Hfuel. destruct (decodes_exists (new max) (incoming s) (new_wf max)) as (rs & d_end & Hd).
  destruct (results_split rs) as (envs & tail & -> & Ht).
  destruct (handshake_live fuel s peer max auth envs tail d_end Hd Ht Hfuel) as (r & s' & -> & Hx).
  exists r, s'. split; [done|]. intros x Hr.
  destruct (Hx x Hr) as (c & envs1 & envs2 & -> & -> & Hlive & Hb & Hacc).
  destruct (interpret_total (processor x) _ (tail_ending tail d_end) (live_text _ _ _ _ Hlive))
    as [[evs ending] Hint].
  destruct (drain_spec fuel x envs2 tail d_end evs ending Hlive Hb Hint) as (evs' & ending' & Hdr & Hout).
  exists c, (pending x ++ envs2), tail, d_end, evs, ending, evs', ending'. done.
Qed.

(** C8: a working connection: when no call fails and every frame decodes, the
    first envelope alone decides; the producer is sent exactly the framed
    answer to it, and an accepted session delivers exactly the events the
    remaining frames mean, in order, and ends as the byte stream ends, under
    any chunking of the stream. *)
Theorem connection_serves fuel (s : Conn) (peer : string) (max : N) (auth : ConnectAuthoriser)
    connect_env envs d_end :
  reliable s -> decodes (new max) (incoming s) (Ok <$> connect_env :: envs) d_end ->
  length (incoming s) < fuel ->
  exists r s', handshake fuel s peer max auth = Some (r, s') /\
  match perform_server_handshake_with_auth connect_env auth with
  | Err e => r = Err (handshake_err_to_ingest e) /\ written s' = written s
  | Ok (Rejected reply reason) =>
      (exists m, r = Err (IngestHandshake m)) /\
      forall frame, encode_stream reply max = Ok frame -> written s' = written s ++ frame
  | Ok (Accepted reply p) =>
      forall frame, encode_stream reply max = Ok frame ->
        written s' = written s ++ frame /\
        exists x, r = Ok x /\ session_producer_id x = as_str (source_id connect_env) /\
          stream x = s' /\ drain fuel x = interpret p envs (eof_ending d_end)
  end.
Proof. apply connection_works. Qed.
End Connection.

(** ** Witnesses *)
Definition sample_ack_envelope : OtkEnvelope :=
  server_envelope MtConnectAck (Some [x81; x00]) 0 (Some (id_new "c1")).

Definition sample_wire_cbor : Cbor OtkEnvelope :=
  table_cbor [(sample_connect_envelope, [xa1; x01]); (sample_event_envelope, [xa1; x02]);
              (sample_ack_envelope, [xa1; x03])].

Lemma sample_text bs e : @cbor_decode _ sample_wire_cbor bs = Ok e -> wf_envelope e.
Proof.
  simpl. repeat case_decide; intros [= <-]; reflexivity.
Qed.

Lemma sample_wire_laws : @CborLaws _ sample_wire_cbor.
Proof. apply table_cbor_laws. apply (bool_decide_eq_true_1 (NoDup _)). reflexivity. Qed.

Definition connect_frame : bytes := [x00; x00; x00; x02; xa1; x01].
Definition event_frame : bytes := [x00; x00; x00; x02; xa1; x02].
Definition ack_frame : bytes := [x00; x00; x00; x02; xa1; x03].

Definition wire (cs : reads) : Wire := {| script := cs; sent := [] |}.

Abbreviation sample_serve adapter cs :=
  (@serve Wire wire_stream adapter sample_wire_cbor sample_event_cbor (table_cbor [])
     sample_connect_cbor sample_ack_cbor sample_reject_cbor 50 (wire cs) "peer" 64 token_t).

Definition sample_incoming : IncomingEvent :=
  {| inc_event := sample_event; inc_traceparent := Some sample_traceparent |}.

Example sample_session :
  sample_serve TcpAdapter [Ok [x00]; Ok [x00; x00; x02; xa1]; Ok ([x01] ++ event_frame ++ event_frame)] =
  Some ([sample_incoming; sample_incoming], CleanEnd).
Proof. vm_compute. reflexivity. Qed.

(** the adapters disagree on a frame the peer did not finish: the TCP
    adapter reports it, the Unix adapter ends the session as if the peer had
    closed at a frame boundary. *)
Theorem unix_truncation_unreported :
  let stream := [Ok (connect_frame ++ event_frame ++ [x00; x00; x00])] in
  sample_serve TcpAdapter stream =
    Some ([sample_incoming], FailedEnd (IngestDecode "truncated frame: EOF before frame completed")) /\
  sample_serve UnixAdapter stream = Some ([sample_incoming], CleanEnd).
Proof. vm_compute. done. Qed.

(** whether an event that arrived whole is delivered depends on how the
    network cut the stream: in a read of its own it is delivered, in one read
    with a later undecodable frame it is dropped with the session, although
    the bytes are the same. *)
Theorem decoded_event_dropped :
  let bad_frame := [x00; x00; x00; x01; xff] in
  let separate := [Ok connect_frame; Ok event_frame; Ok bad_frame] in
  let together := [Ok connect_frame; Ok (event_frame ++ bad_frame)] in
  let failed := FailedEnd (IngestDecode "CBOR decoding of envelope failed: malformed") in
  script_bytes separate = script_bytes together /\
  sample_serve TcpAdapter separate = Some ([sample_incoming], failed) /\
  sample_serve TcpAdapter together = Some ([], failed).
Proof. vm_compute. done. Qed.

Definition sample_conn : Wire :=
  wire [Ok [x00]; Ok [x00; x00; x02; xa1]; Ok ([x01] ++ event_frame); Ok event_frame].

Abbreviation sample_handshake s :=
  (@handshake Wire wire_stream TcpAdapter sample_wire_cbor sample_connect_cbor sample_ack_cbor
     sample_reject_cbor 50 s "peer" 64 token_t).
Abbreviation sample_drain x :=
  (@drain Wire wire_stream TcpAdapter sample_wire_cbor sample_event_cbor (table_cbor []) 50 x).

Lemma connection_robust_witness :
  exists r s', sample_handshake sample_conn = Some (r, s') /\
    forall x, r = Ok x -> exists out, sample_drain x = Some out.
Proof.
  destruct (@connection_robust Wire wire_stream wire_laws TcpAdapter sample_wire_cbor sample_event_cbor
    (table_cbor []) sample_connect_cbor sample_ack_cbor sample_reject_cbor sample_text 50 sample_conn
    "peer" 64 token_t) as (r & s' & Hh & Hx); [vm_compute; lia|].
  exists r, s'. split; [exact Hh|]. intros x Hr.
  destruct (Hx x Hr) as (c & envs & tail & d & evs & ending & evs' & ending' & _ & _ & _ & Hd & _).
  exists (evs', ending'). exact Hd.
Defined.

Lemma connection_serves_witness :
  exists x s', sample_handshake sample_conn = Some (Ok x, s') /\ sent s' = ack_frame /\
    sample_drain x = Some ([sample_incoming; sample_incoming], CleanEnd).
Proof.
  destruct (@connection_serves Wire wire_stream wire_laws TcpAdapter sample_wire_cbor sample_event_cbor
    (table_cbor []) sample_connect_cbor sample_ack_cbor sample_reject_cbor sample_text 50 sample_conn
    "peer" 64 token_t sample_connect_envelope [sample_event_envelope; sample_event_envelope]
    (@new 64)) as (r & s' & Hh & Hm).
  - repeat (constructor; [reflexivity|]). constructor.
  - split; [apply new_wf|reflexivity|]. simpl.
    apply (@frames_encoded sample_wire_cbor sample_wire_laws
             64 64 [sample_connect_envelope; sample_event_envelope; sample_event_envelope]
             [connect_frame; event_frame; event_frame] [] [] 0 []); [lia| |].
    + repeat (constructor; [reflexivity|]). constructor.
    + apply frames_no_header. vm_compute. reflexivity.
  - vm_compute. lia.
  - assert (E : @perform_server_handshake_with_auth sample_connect_cbor sample_ack_cbor sample_reject_cbor
      sample_connect_envelope token_t =
      Ok (Accepted sample_ack_envelope {| producer_id := id_new "p"; negotiated_version := 0 |}))
      by reflexivity.
    rewrite E in Hm. destruct (Hm ack_frame eq_refl) as (Hw & x & -> & _ & _ & Hd).
    exists x, s'. split; [exact Hh|]. split; [exact Hw|]. rewrite Hd. reflexivity.
Defined.
