(* ===== verification/Producer.v ===== *)
(** The producer SDK (crate [otk-sdk], [producer/producer.rs], [error.rs],
    [seq.rs], [time.rs]): configuration, the client side of the handshake, and
    the send operations.

    An operation takes the current span's context where the code reads it from
    the ambient [tracing] span, and the system clock where the code reads it.
    [None] is a panic.  The connection is a [ByteStream]; dialling it is I/O,
    its result an argument of [connect]. *)
From stdpp Require Import base strings option numbers pretty sorting list.
From Stdlib Require Import Strings.Byte.
From S2P Require Import Prelude EventModel WireProtocol TraceContext StreamCodec IngestProtocol ByteStream.

Inductive ProducerError :=
  | PIo (e : IoError)
  | PRejected (reason : ConnectRejectReason) (server_min server_max : N)
  | PHandshake (m : string)
  | PEncode (m : string)
  | PDecode (m : string)
  | PClosed
  | PConfig (m : string).

#[export] Instance ProducerError_eq_dec : EqDecision ProducerError.
Proof. solve_decision. Defined.

Definition MAX_FRAME_BYTES : N := 65535.

Record ProducerConfig := {
  cfg_producer_id : string;
  cfg_streams : list StreamDescriptor;
  cfg_max_frame_bytes : N;
  cfg_auth_token : option string
}.

Definition config_default : ProducerConfig :=
  {| cfg_producer_id := "otk-producer"; cfg_streams := []; cfg_max_frame_bytes := MAX_FRAME_BYTES;
     cfg_auth_token := None |}.

Definition config_new (producer_id : string) : ProducerConfig :=
  {| cfg_producer_id := producer_id; cfg_streams := cfg_streams config_default;
     cfg_max_frame_bytes := cfg_max_frame_bytes config_default;
     cfg_auth_token := cfg_auth_token config_default |}.

Definition with_streams (streams : list StreamDescriptor) (c : ProducerConfig) : ProducerConfig :=
  {| cfg_producer_id := cfg_producer_id c; cfg_streams := streams;
     cfg_max_frame_bytes := cfg_max_frame_bytes c; cfg_auth_token := cfg_auth_token c |}.

Definition with_max_frame_bytes (max_frame_bytes : N) (c : ProducerConfig) : ProducerConfig :=
  {| cfg_producer_id := cfg_producer_id c; cfg_streams := cfg_streams c;
     cfg_max_frame_bytes := max_frame_bytes; cfg_auth_token := cfg_auth_token c |}.

Definition with_auth_token (token : option string) (c : ProducerConfig) : ProducerConfig :=
  {| cfg_producer_id := cfg_producer_id c; cfg_streams := cfg_streams c;
     cfg_max_frame_bytes := cfg_max_frame_bytes c; cfg_auth_token := token |}.

(** [now_ns], from the nanoseconds the system clock is past the Unix epoch. *)
Definition now_ns (clock : Z) : option N :=
  if (clock <? 0)%Z then None
  else if (u64_max <? Z.to_N clock)%N then None else Some (Z.to_N clock).

(** [SequenceCounter]: the next value; [counter_next] also advances it. *)
Definition counter_new : N := 0.
Definition counter_peek_next (c : N) : N := c.
Definition counter_next (c : N) : option (N * N) :=
  let! c' := checked_add64 c 1 in Some (c, c').

(** ** Framing helpers *)
Definition make_envelope (span : SpanContext) (producer_id : ProducerId) (message_type : MessageType)
    (payload : option bytes) : OtkEnvelope :=
  {| protocol_version := PROTOCOL_VERSION; message_type := message_type; source_id := producer_id;
     stream_id := None; env_sequence_number := None; correlation_id := None; payload := payload;
     traceparent := current_traceparent span |}.

Definition with_sequence (seq : N) (e : OtkEnvelope) : OtkEnvelope :=
  {| protocol_version := protocol_version e; message_type := message_type e; source_id := source_id e;
     stream_id := stream_id e; env_sequence_number := Some seq; correlation_id := correlation_id e;
     payload := payload e; traceparent := traceparent e |}.

Definition eof_to_closed (e : IoError) : ProducerError :=
  match e with UnexpectedEof => PClosed | _ => PIo e end.

Section Producer.
Context `{BS : ByteStream Conn}.
Context `{EnvCbor : Cbor OtkEnvelope} `{CborEvent : Cbor OtkEvent} `{CborHeartbeat : Cbor Heartbeat}.
Context `{CborConnect : Cbor Connect} `{CborAck : Cbor ConnectAck} `{CborReject : Cbor ConnectReject}.

Definition encode_envelope (envelope : OtkEnvelope) : result bytes ProducerError :=
  map_err (fun e => PEncode ("envelope encode: " +:+ e)) (cbor_to_vec envelope).

Definition send_frame (payload : bytes) (s : Conn) : result unit ProducerError * Conn :=
  if (u32_max <? len payload)%N
  then (Err (PEncode ("frame too large to send: " +:+ pretty (len payload) +:+ " bytes")), s) else
  if (MAX_FRAME_BYTES <? len payload)%N
  then (Err (PEncode ("frame too large: " +:+ pretty (len payload) +:+ " bytes exceeds the " +:+
               pretty MAX_FRAME_BYTES +:+ " byte protocol maximum")), s) else
  match write_all (to_be_bytes 4 (len payload)) s with
  | (Err e, s) => (Err (PIo e), s)
  | (Ok _, s) => let (r, s) := write_all payload s in (map_err PIo r, s)
  end.

Definition recv_frame (max_bytes : N) (s : Conn) : result bytes ProducerError * Conn :=
  match read 4 s with
  | (Err e, s) => (Err (PIo e), s)
  | (Ok [], s) => (Err PClosed, s)
  | (Ok head, s) =>
      let (r, s) := if length head <? 4 then read_exact (4 - length head) s else (Ok [], s) in
      match r with
      | Err e => (Err (eof_to_closed e), s)
      | Ok rest =>
          let payload_len := from_be_bytes (head ++ rest) in
          if (max_bytes <? payload_len)%N
          then (Err (PDecode ("frame too large: " +:+ pretty payload_len +:+ " bytes (max " +:+
                       pretty max_bytes +:+ ")")), s)
          else let (r, s) := read_exact (N.to_nat payload_len) s in (map_err eof_to_closed r, s)
      end
  end.

Definition send_envelope (envelope : OtkEnvelope) (s : Conn) : result unit ProducerError * Conn :=
  match encode_envelope envelope with
  | Err e => (Err e, s)
  | Ok bs => send_frame bs s
  end.

Record Producer := {
  p_stream : Conn;
  p_producer_id : ProducerId;
  next_seq : N
}.

(** The reading of the server's answer. *)
Definition answer_of (response : OtkEnvelope) : result unit ProducerError :=
  if bool_decide (protocol_version response <> PROTOCOL_VERSION)
  then Err (PHandshake ("server responded with protocol version " +:+ pretty (protocol_version response)
              +:+ " but client offered only " +:+ pretty PROTOCOL_VERSION)) else
  match message_type response with
  | MtConnectAck =>
      match payload response with
      | None => Err (PHandshake "ConnectAck has no payload")
      | Some payload =>
          let? ack := map_err (fun e => PDecode ("ConnectAck decode: " +:+ e))
                              (cbor_decode (A := ConnectAck) payload) in
          if bool_decide (negotiated_version_ack ack <> PROTOCOL_VERSION)
          then Err (PHandshake ("server negotiated version " +:+ pretty (negotiated_version_ack ack)
                      +:+ " but client offered only " +:+ pretty PROTOCOL_VERSION))
          else Ok tt
      end
  | MtConnectReject =>
      match payload response with
      | None => Err (PHandshake "ConnectReject has no payload")
      | Some payload =>
          let? reject := map_err (fun e => PDecode ("ConnectReject decode: " +:+ e))
                                 (cbor_decode (A := ConnectReject) payload) in
          Err (PRejected (reason reject) (supported_version_min reject) (supported_version_max reject))
      end
  | other => Err (PHandshake ("expected ConnectAck or ConnectReject, got " +:+ MessageType_debug other))
  end.

Definition connect_message (config : ProducerConfig) : Connect :=
  {| protocol_version_min := PROTOCOL_VERSION; protocol_version_max := PROTOCOL_VERSION;
     streams := cfg_streams config; auth_token := cfg_auth_token config |}.

(** [connect] from the open connection on. *)
Definition client_handshake (span : SpanContext) (config : ProducerConfig) (s : Conn)
  : result Producer ProducerError * Conn :=
  let producer_id := id_new (cfg_producer_id config) in
  match map_err (fun e => PEncode ("Connect encode: " +:+ e)) (cbor_to_vec (connect_message config)) with
  | Err e => (Err e, s)
  | Ok connect_payload =>
      match send_envelope (make_envelope span producer_id MtConnect (Some connect_payload)) s with
      | (Err e, s) => (Err e, s)
      | (Ok _, s) =>
          let (r, s) := recv_frame (N.min (cfg_max_frame_bytes config) MAX_FRAME_BYTES) s in
          (let? response_bytes := r in
           let? response := map_err (fun e => PDecode ("handshake response decode: " +:+ e))
                                    (cbor_decode (A := OtkEnvelope) response_bytes) in
           let? _ := answer_of response in
           Ok {| p_stream := s; p_producer_id := producer_id; next_seq := 0 |}, s)
      end
  end.

(** [dialled] is the transport's connection attempt. *)
Definition connect (span : SpanContext) (dialled : result Conn IoError) (config : ProducerConfig)
  : result Producer ProducerError :=
  if (cfg_max_frame_bytes config =? 0)%N then Err (PConfig "max_frame_bytes must not be zero") else
  let? s := map_err PIo dialled in fst (client_handshake span config s).

Definition with_conn (s : Conn) (p : Producer) : Producer :=
  {| p_stream := s; p_producer_id := p_producer_id p; next_seq := next_seq p |}.

Definition send_event (span : SpanContext) (event : OtkEvent) (p : Producer)
  : option (result unit ProducerError * Producer) :=
  let seq := next_seq p in
  match map_err (fun e => PEncode ("OtkEvent encode: " +:+ e)) (cbor_to_vec event) with
  | Err e => Some (Err e, p)
  | Ok payload =>
      let env := with_sequence seq (make_envelope span (p_producer_id p) MtEvent (Some payload)) in
      match send_envelope env (p_stream p) with
      | (Err e, s) => Some (Err e, with_conn s p)
      | (Ok _, s) =>
          let! next := checked_add64 (next_seq p) 1 in
          Some (Ok tt, {| p_stream := s; p_producer_id := p_producer_id p; next_seq := next |})
      end
  end.

Definition send_heartbeat (span : SpanContext) (clock : Z) (p : Producer)
  : option (result unit ProducerError * Producer) :=
  let! now := now_ns clock in
  match map_err (fun e => PEncode ("Heartbeat encode: " +:+ e)) (cbor_to_vec {| sent_at_ns := now |}) with
  | Err e => Some (Err e, p)
  | Ok payload =>
      let env := make_envelope span (p_producer_id p) MtHeartbeat (Some payload) in
      let (r, s) := send_envelope env (p_stream p) in Some (r, with_conn s p)
  end.

Definition disconnect (span : SpanContext) (p : Producer) : result unit ProducerError * Conn :=
  send_envelope (make_envelope span (p_producer_id p) MtDisconnect None) (p_stream p).
End Producer.

Arguments Producer : clear implicits.

(** ** A producer at work *)
Inductive ProducerOp :=
  | OpEvent (span : SpanContext) (event : OtkEvent)
  | OpHeartbeat (span : SpanContext) (clock : Z).

Section Run.
Context `{BS : ByteStream Conn}.
Context `{EnvCbor : Cbor OtkEnvelope} `{CborEvent : Cbor OtkEvent} `{CborHeartbeat : Cbor Heartbeat}.

Definition run_op (op : ProducerOp) (p : Producer Conn) : option (result unit ProducerError * Producer Conn) :=
  match op with
  | OpEvent span event => send_event span event p
  | OpHeartbeat span clock => send_heartbeat span clock p
  end.

(** A caller that stops at the first error. *)
Fixpoint run_ops (ops : list ProducerOp) (p : Producer Conn)
  : option (result unit ProducerError * Producer Conn) :=
  match ops with
  | [] => Some (Ok tt, p)
  | op :: ops =>
      let! (r, p) := run_op op p in
      match r with
      | Err e => Some (Err e, p)
      | Ok _ => run_ops ops p
      end
  end.

(** The envelopes the operations send, where everything encodes. *)
Definition op_envelope (pid : ProducerId) (seq : N) (op : ProducerOp) : option OtkEnvelope :=
  match op with
  | OpEvent span event =>
      match cbor_to_vec event with
      | Ok payload => Some (with_sequence seq (make_envelope span pid MtEvent (Some payload)))
      | Err _ => None
      end
  | OpHeartbeat span clock =>
      let! now := now_ns clock in
      match cbor_to_vec {| sent_at_ns := now |} with
      | Ok payload => Some (make_envelope span pid MtHeartbeat (Some payload))
      | Err _ => None
      end
  end.

Definition seq_after (op : ProducerOp) (seq : N) : N :=
  match op with OpEvent _ _ => (seq + 1)%N | OpHeartbeat _ _ => seq end.

Fixpoint op_envelopes (pid : ProducerId) (seq : N) (ops : list ProducerOp) : option (list OtkEnvelope) :=
  match ops with
  | [] => Some []
  | op :: ops =>
      let! env := op_envelope pid seq op in
      let! envs := op_envelopes pid (seq_after op seq) ops in
      Some (env :: envs)
  end.

Definition events_sent (ops : list ProducerOp) : list OtkEvent :=
  omap (fun op => match op with OpEvent _ e => Some e | _ => None end) ops.
End Run.

(** ** Frames on the wire *)
Section Wire.
Context `{BS : ByteStream Conn} {BL : ByteStreamLaws Conn}.
Context `{EnvCbor : Cbor OtkEnvelope}.

(** What a send does, whatever the transport does. *)
Lemma send_envelope_spec env (s : Conn) r s' :
  send_envelope env s = (r, s') ->
  incoming s' = incoming s /\ (reliable s -> reliable s') /\
  match encode_stream env MAX_FRAME_BYTES with
  | Err _ => s' = s /\ exists m, r = Err (PEncode m)
  | Ok frame =>
      (r = Ok tt /\ written s' = written s ++ frame) \/
      (exists e k, r = Err (PIo e) /\ written s' = written s ++ take k frame /\ ~ reliable s)
  end.
Proof.
  unfold send_envelope, encode_envelope, encode_stream.
  destruct (cbor_to_vec env) as [payload|m]; cbn [map_err]; [|by intros [= <- <-]; eauto 10].
  unfold send_frame. change (N.min MAX_FRAME_BYTES u32_max) with MAX_FRAME_BYTES.
  destruct (N.ltb_spec u32_max (len payload)) as [Hu|Hu].
  { intros [= <- <-]. destruct (N.ltb_spec MAX_FRAME_BYTES (len payload)) as [?|Hle]; [by eauto 10|].
    unfold MAX_FRAME_BYTES, u32_max in *. lia. }
  destruct (N.ltb_spec MAX_FRAME_BYTES (len payload)) as [?|Hle]; [by intros [= <- <-]; eauto 10|].
  set (hdr := to_be_bytes 4 (len payload)).
  destruct (write_all hdr s) as [[[]|e] s1] eqn:H1.
  - apply write_ok in H1 as (Hw1 & Hi1 & Hr1). destruct (write_all payload s1) as [[[]|e] s2] eqn:H2.
    + apply write_ok in H2 as (Hw2 & Hi2 & Hr2). intros [= <- <-].
      split; [congruence|]. split; [auto|]. left. split; [done|]. by rewrite Hw2, Hw1, app_assoc.
    + apply write_err in H2 as (Hi2 & (k & Hw2) & Hn). intros [= <- <-].
      split; [congruence|]. split; [by intros ?%Hr1|]. right. exists e, (length hdr + k). split; [done|].
      split; [|by intros ?%Hr1]. by rewrite Hw2, Hw1, <- app_assoc, take_app_add.
  - apply write_err in H1 as (Hi1 & (k & Hw1) & Hn). intros [= <- <-].
    split; [done|]. split; [by intros ?|]. right. exists e, (Nat.min k (length hdr)). split; [done|].
    split; [|done]. rewrite Hw1. f_equal. rewrite take_app_le by lia.
    destruct (decide (k <= length hdr)); [by rewrite Nat.min_l by lia|].
    rewrite Nat.min_r by lia. rewrite !take_ge by lia. done.
Qed.

Lemma send_envelope_works env frame (s : Conn) :
  reliable s -> encode_stream env MAX_FRAME_BYTES = Ok frame ->
  exists s', send_envelope env s = (Ok tt, s') /\ written s' = written s ++ frame /\
    incoming s' = incoming s /\ reliable s'.
Proof.
  intros Hrel He. destruct (send_envelope env s) as [r s'] eqn:Hs.
  apply send_envelope_spec in Hs as (Hi & Hr & Hout). rewrite He in Hout.
  destruct Hout as [[-> ?]|(? & ? & _ & _ & ?)]; [|done]. exists s'. auto.
Qed.

(** A frame is received whole however it arrives. *)
Lemma recv_frame_works max payload rest (s : Conn) :
  reliable s -> incoming s = to_be_bytes 4 (len payload) ++ payload ++ rest ->
  (len payload <= N.min max u32_max)%N ->
  exists s', recv_frame max s = (Ok payload, s') /\ incoming s' = rest /\ written s' = written s /\
    reliable s'.
Proof.
  intros Hrel Hin Hlen. pose proof (length_to_be_bytes 4 (len payload)) as H4.
  assert (Hb : from_be_bytes (to_be_bytes 4 (len payload)) = len payload) by (apply from_be_header; lia).
  unfold recv_frame. destruct (read 4 s) as [[head|e] s1] eqn:Hr.
  2:{ by apply read_err in Hr as [_ ?]. }
  destruct (read_ok _ _ _ _ Hr) as (Hs & Hle & Hw & Heof & Hrel1). specialize (Hrel1 Hrel).
  destruct head as [|b head'].
  { rewrite Heof in Hin by (done || lia). apply (f_equal length) in Hin.
    rewrite !length_app, H4 in Hin. simpl in Hin. lia. }
  set (head := b :: head') in *. clearbody head. clear head' b Heof.
  (* The header, in one or two reads. *)
  assert (Hhdr : exists tail s2,
    (if length head <? 4 then read_exact (4 - length head) s1 else (Ok [], s1)) = (Ok tail, s2) /\
    head ++ tail = to_be_bytes 4 (len payload) /\ incoming s2 = payload ++ rest /\
    written s2 = written s /\ reliable s2).
  { rewrite Hin in Hs. destruct (Nat.ltb_spec (length head) 4) as [Hlt|Hge].
    - destruct (read_exact (4 - length head) s1) as [[tail|e] s2] eqn:Hx.
      + apply read_exact_ok in Hx as (Hi2 & Hl2 & Hw2 & Hr2). rewrite Hi2, (app_assoc head) in Hs.
        apply app_inj_1 in Hs as [Hh Hi]; [|rewrite H4, length_app; lia].
        exists tail, s2. split_and!; [done|done|done|congruence|auto].
      + apply read_exact_err in Hx as (_ & He & Hshort). specialize (He Hrel1).
        specialize (Hshort He Hrel1). apply (f_equal length) in Hs.
        rewrite !length_app, H4 in Hs. lia.
    - apply app_inj_1 in Hs as [Hh Hi]; [|rewrite H4; lia]. exists [], s1.
      rewrite app_nil_r. by split_and!. }
  destruct Hhdr as (tail & s2 & -> & -> & Hi2 & Hw2 & Hr2). rewrite Hb.
  destruct (N.ltb_spec max (len payload)); [lia|].
  destruct (read_exact _ s2) as [[got|e] s3] eqn:Hx; simpl.
  - apply read_exact_ok in Hx as (Hi3 & Hl3 & Hw3 & Hr3). rewrite Hi2 in Hi3.
    apply app_inj_1 in Hi3 as [-> Hi]; [|unfold len in Hl3; lia]. exists s3. split_and!; auto; congruence.
  - apply read_exact_err in Hx as (_ & He & Hshort). specialize (Hshort (He Hr2) Hr2).
    rewrite Hi2, length_app in Hshort. unfold len in Hshort. lia.
Qed.

(** ** Operations on a working connection *)
Section Works.
Context `{CborEvent : Cbor OtkEvent} `{CborHeartbeat : Cbor Heartbeat}.
Context `{CborConnect : Cbor Connect} `{CborAck : Cbor ConnectAck} `{CborReject : Cbor ConnectReject}.

Lemma run_op_works op (p : Producer Conn) env frame :
  reliable (p_stream p) -> op_envelope (p_producer_id p) (next_seq p) op = Some env ->
  encode_stream env MAX_FRAME_BYTES = Ok frame -> (seq_after op (next_seq p) <= u64_max)%N ->
  exists p', run_op op p = Some (Ok tt, p') /\ written (p_stream p') = written (p_stream p) ++ frame /\
    incoming (p_stream p') = incoming (p_stream p) /\ reliable (p_stream p') /\
    p_producer_id p' = p_producer_id p /\ next_seq p' = seq_after op (next_seq p).
Proof.
  intros Hrel Henv Hf Hseq. destruct op as [span event|span clock]; simpl in *.
  - unfold send_event. destruct (cbor_to_vec event) as [payload|]; simplify_eq/=.
    destruct (send_envelope_works _ _ _ Hrel Hf) as (s' & -> & ? & ? & ?).
    unfold checked_add64. replace (next_seq p + 1 <=? u64_max)%N with true by (symmetry; by apply N.leb_le).
    eexists. split; [done|]. done.
  - unfold send_heartbeat. destruct (now_ns clock) as [now|]; [|done].
    destruct (cbor_to_vec {| sent_at_ns := now |}) as [payload|]; simplify_eq/=.
    destruct (send_envelope_works _ _ _ Hrel Hf) as (s' & -> & ? & ? & ?).
    eexists. split; [done|]. done.
Qed.

Lemma seq_after_mono ops seq :
  (seq <= fold_left (fun seq op => seq_after op seq) ops seq)%N.
Proof.
  revert seq. induction ops as [|op ops IH]; intros seq; simpl; [lia|].
  specialize (IH (seq_after op seq)). destruct op; simpl in *; lia.
Qed.

Lemma run_ops_works ops (p : Producer Conn) envs frames :
  reliable (p_stream p) -> op_envelopes (p_producer_id p) (next_seq p) ops = Some envs ->
  Forall2 (encoded MAX_FRAME_BYTES) envs frames ->
  (fold_left (fun seq op => seq_after op seq) ops (next_seq p) <= u64_max)%N ->
  exists p', run_ops ops p = Some (Ok tt, p') /\
    written (p_stream p') = written (p_stream p) ++ concat frames /\
    incoming (p_stream p') = incoming (p_stream p) /\ reliable (p_stream p') /\
    p_producer_id p' = p_producer_id p.
Proof.
  revert p envs frames. induction ops as [|op ops IH]; intros p envs frames Hrel Henvs Hf Hseq; simpl in *.
  { simplify_eq. inv Hf. exists p. rewrite app_nil_r. done. }
  destruct (op_envelope _ _ op) as [env|] eqn:He; [|done].
  destruct (op_envelopes _ _ ops) as [envs'|] eqn:Hes; simplify_eq/=.
  apply Forall2_cons_inv_l in Hf as (frame & frames' & Hfr & Hfrs & ->).
  destruct (run_op_works op p env frame Hrel He Hfr) as (p1 & -> & Hw & Hi & Hr & Hid & Hn).
  { pose proof (seq_after_mono ops (seq_after op (next_seq p))). lia. }
  rewrite <- Hn in Hseq, Hes. rewrite <- Hid in Hes.
  destruct (IH p1 envs' frames' Hr Hes Hfrs Hseq) as (p' & -> & Hw' & Hi' & Hr' & Hid').
  exists p'. split; [done|]. simpl. rewrite Hw', Hw, app_assoc. split_and!; congruence || done.
Qed.

Lemma client_handshake_works span config (c : Conn) cp cf rp rest response :
  reliable c -> cbor_to_vec (connect_message config) = Ok cp ->
  encode_stream (make_envelope span (id_new (cfg_producer_id config)) MtConnect (Some cp))
    MAX_FRAME_BYTES = Ok cf ->
  incoming c = to_be_bytes 4 (len rp) ++ rp ++ rest ->
  (len rp <= N.min (cfg_max_frame_bytes config) MAX_FRAME_BYTES)%N ->
  cbor_decode (A := OtkEnvelope) rp = Ok response ->
  exists s', client_handshake span config c =
      ((let? _ := answer_of response in
        Ok {| p_stream := s'; p_producer_id := id_new (cfg_producer_id config); next_seq := 0 |}), s') /\
    written s' = written c ++ cf /\ incoming s' = rest /\ reliable s'.
Proof.
  intros Hrel Hcp Hcf Hin Hlen Hdec. unfold client_handshake. rewrite Hcp. cbn [map_err].
  destruct (send_envelope_works _ _ _ Hrel Hcf) as (s1 & -> & Hw1 & Hi1 & Hr1).
  rewrite <- Hi1 in Hin.
  destruct (recv_frame_works (N.min (cfg_max_frame_bytes config) MAX_FRAME_BYTES) rp rest s1 Hr1 Hin)
    as (s2 & -> & Hi2 & Hw2 & Hr2); [unfold MAX_FRAME_BYTES, u32_max in *; lia|].
  exists s2. rewrite Hdec. cbn [map_err]. split; [done|]. rewrite Hw2, Hw1. done.
Qed.

(** Reading the server's answers. *)
Lemma answer_of_ack request response :
  answers MtConnectAck {| negotiated_version_ack := PROTOCOL_VERSION |} PROTOCOL_VERSION request response ->
  answer_of response = Ok tt.
Proof.
  intros (Ht & Hv & _ & _ & bs & Hp & Hd). unfold answer_of.
  rewrite Ht, Hv, Hp, bool_decide_eq_false_2 by auto. rewrite Hd. done.
Qed.

Lemma answer_of_reject rj request response :
  answers MtConnectReject rj PROTOCOL_VERSION request response ->
  answer_of response = Err (PRejected (reason rj) (supported_version_min rj) (supported_version_max rj)).
Proof.
  intros (Ht & Hv & _ & _ & bs & Hp & Hd). unfold answer_of.
  rewrite Ht, Hv, Hp, bool_decide_eq_false_2 by auto. by rewrite Hd.
Qed.
End Works.

(** ** Properties *)

(** the producer's framing is the codec's: a send that succeeds puts on the
    wire exactly [encode_stream]'s frame for the protocol maximum; it fails
    with an encode error, and writes nothing, exactly when [encode_stream]
    refuses the envelope; any other failure is the transport's, after a prefix
    of that frame. *)
Theorem send_is_encode_stream env (s : Conn) :
  exists r s', send_envelope env s = (r, s') /\ incoming s' = incoming s /\
  match encode_stream env MAX_FRAME_BYTES with
  | Err _ => s' = s /\ exists m, r = Err (PEncode m)
  | Ok frame =>
      (r = Ok tt /\ written s' = written s ++ frame) \/
      (exists e k, r = Err (PIo e) /\ written s' = written s ++ take k frame /\ ~ reliable s)
  end.
Proof.
  destruct (send_envelope env s) as [r s'] eqn:Hs. exists r, s'. split; [done|].
  apply send_envelope_spec in Hs as (? & _ & ?). done.
Qed.
End Wire.
