(* ===== verification/EventLogPort.v ===== *)
(** The storage port (crate [timing-core], [ports/outbound/event_log.rs]): the
    types of the event log, the interface [EventLog] and its documented
    contract [EventLogLaws].

    The contract is a simulation: [log_rep sure l h k] says that the backend
    state [l] stands for the history [h] of every entry ever appended, of which
    the first [k] have been evicted by retention; and, when it is [sure], that
    from here on an append that fails stores nothing.  The trait promises that;
    the documentation of the segment log does not: there an error may come after
    the commit, with the whole batch stored. *)
From stdpp Require Import base gmap strings list option numbers pretty.
From S2P Require Import Prelude EventModel.

(** ** Offsets and entries *)
Record Offset := offset_new { as_u64 : N }.

#[export] Instance Offset_eq_dec : EqDecision Offset.
Proof. solve_decision. Defined.

Definition checked_next (o : Offset) : option Offset := offset_new <$> checked_add64 (as_u64 o) 1.

Record LogEntry := {
  offset : Offset;
  appended_at_ns : N;
  entry_producer_id : string;
  event : OtkEvent
}.

#[export] Instance LogEntry_eq_dec : EqDecision LogEntry.
Proof. solve_decision. Defined.

Inductive RetentionPolicy :=
  | Indefinite
  | TimeBased (max_age_secs : N)
  | SizeBased (max_bytes : N)
  | Hybrid (max_age_secs max_bytes : N).

Inductive StorageError :=
  | RetentionExpired (requested : Offset) (earliest_available : option Offset)
  | InvalidInput (msg : string)
  | Io (e : string)
  | Corrupted (msg : string)
  | Configuration (msg : string).

#[export] Instance StorageError_eq_dec : EqDecision StorageError.
Proof. solve_decision. Defined.

(** [Display] of an error. *)
Definition storage_error_to_string (e : StorageError) : string :=
  match e with
  | RetentionExpired r (Some ea) =>
      "offset " +:+ pretty (as_u64 r) +:+ " is before earliest retained offset " +:+ pretty (as_u64 ea)
  | RetentionExpired r None =>
      "offset " +:+ pretty (as_u64 r) +:+ " is not available: no retained events remain"
  | InvalidInput msg => "invalid input: " +:+ msg
  | Io e => "I/O error: " +:+ e
  | Corrupted msg => "log corruption: " +:+ msg
  | Configuration msg => "configuration error: " +:+ msg
  end.

(** ** The interface *)
Class EventLog (L : Type) : Type := {
  append : string -> list OtkEvent -> L -> result Offset StorageError * L;
  read_range : Offset -> option Offset -> L -> result (list LogEntry) StorageError * L;
  latest_offset : L -> result (option Offset) StorageError * L;
  earliest_offset : L -> result (option Offset) StorageError * L
}.

(** ** The contract *)

(** The entries of a batch appended at offset [next]. *)
Fixpoint batch_entries (next : N) (producer_id : string) (times : list N) (events : list OtkEvent)
  : list LogEntry :=
  match times, events with
  | t :: times, e :: events =>
      {| offset := offset_new next; appended_at_ns := t; entry_producer_id := producer_id; event := e |}
      :: batch_entries (next + 1) producer_id times events
  | _, _ => []
  end.

(** The entries with offsets in [[from, to)]. *)
Definition history_range (h : list LogEntry) (from : Offset) (to : option Offset) : list LogEntry :=
  let upto := match to with None => h | Some o => take (N.to_nat (as_u64 o)) h end in
  drop (N.to_nat (as_u64 from)) upto.

Class EventLogLaws (L : Type) {E : EventLog L} : Type := {
  log_rep : bool -> L -> list LogEntry -> N -> Prop;
  log_rep_evicted sure l h k : log_rep sure l h k -> (k <= len h)%N;
  (** The entry at position [i] of the history has offset [i]. *)
  log_rep_offsets sure l h k : log_rep sure l h k ->
    forall i e, h !! i = Some e -> as_u64 (offset e) = N.of_nat i;
  log_append_ok sure l h k pid evs o l' :
    log_rep sure l h k -> append pid evs l = (Ok o, l') ->
    pid <> "" /\ evs <> [] /\ as_u64 o = (len h + len evs - 1)%N /\
    exists times k', length times = length evs /\ (k <= k')%N /\
      log_rep sure l' (h ++ batch_entries (len h) pid times evs) k';
  (** An error after the commit leaves the whole batch. *)
  log_append_err sure l h k pid evs e l' :
    log_rep sure l h k -> append pid evs l = (Err e, l') ->
    log_rep sure l' h k \/
    sure = false /\ exists times k', length times = length evs /\ (k <= k')%N /\
      log_rep sure l' (h ++ batch_entries (len h) pid times evs) k';
  log_read_ok sure l h k from to es l' :
    log_rep sure l h k -> read_range from to l = (Ok es, l') ->
    log_rep sure l' h k /\ es = history_range h from to /\ (es <> [] -> (k <= as_u64 from)%N);
  log_read_expired sure l h k from to r ea l' :
    log_rep sure l h k -> read_range from to l = (Err (RetentionExpired r ea), l') ->
    log_rep sure l' h k /\ r = from /\ (as_u64 from < k)%N /\
    ea = if (k <? len h)%N then Some (offset_new k) else None;
  log_read_err sure l h k from to e l' :
    log_rep sure l h k -> read_range from to l = (Err e, l') -> log_rep sure l' h k;
  log_latest sure l h k r l' :
    log_rep sure l h k -> latest_offset l = (r, l') ->
    log_rep sure l' h k /\
    forall o, r = Ok o -> o = if (k <? len h)%N then Some (offset_new (len h - 1)) else None;
  log_earliest sure l h k r l' :
    log_rep sure l h k -> earliest_offset l = (r, l') ->
    log_rep sure l' h k /\
    forall o, r = Ok o -> o = if (k <? len h)%N then Some (offset_new k) else None
}.

(** An append that fails on a [sure] log stores nothing. *)
Lemma log_append_err_sure `{EventLogLaws L} (l l' : L) h k pid evs e :
  log_rep true l h k -> append pid evs l = (Err e, l') -> log_rep true l' h k.
Proof. intros Hrep Ha. by destruct (log_append_err _ _ _ _ _ _ _ _ Hrep Ha) as [?|[? _]]. Qed.

(** ** Lemmas on the contract *)
Lemma length_batch_entries next pid times evs :
  length times = length evs -> length (batch_entries next pid times evs) = length evs.
Proof.
  revert next evs. induction times as [|t times IH]; intros next [|e evs] H; simplify_eq/=; [done|].
  by rewrite IH.
Qed.

Lemma batch_entries_event next pid times evs :
  length times = length evs -> event <$> batch_entries next pid times evs = evs.
Proof.
  revert next evs. induction times as [|t times IH]; intros next [|e evs] H; simplify_eq/=; [done|].
  by rewrite IH.
Qed.

Lemma batch_entries_producer next pid times evs :
  Forall (fun e => entry_producer_id e = pid) (batch_entries next pid times evs).
Proof.
  revert next evs. induction times as [|t times IH]; intros next [|e evs]; simpl; by constructor.
Qed.

Lemma batch_entries_offset next pid times evs i e :
  batch_entries next pid times evs !! i = Some e -> as_u64 (offset e) = (next + N.of_nat i)%N.
Proof.
  revert next evs i. induction times as [|t times IH]; intros next [|ev evs] i; simpl;
    rewrite ?lookup_nil; try done.
  destruct i as [|i]; simpl; [intros [= <-]; simpl; lia|]. intros H%IH. lia.
Qed.

(** The entry at position [i] of a history has offset [i]. *)
Definition offsets_ok (h : list LogEntry) : Prop :=
  forall i e, h !! i = Some e -> as_u64 (offset e) = N.of_nat i.

Lemma offsets_ok_nil : offsets_ok [].
Proof. intros i e. by rewrite lookup_nil. Qed.

Lemma offsets_ok_append h pid times evs :
  offsets_ok h -> offsets_ok (h ++ batch_entries (len h) pid times evs).
Proof.
  intros Hh i e. rewrite lookup_app_Some. intros [H|[Hi H]]; [by apply Hh|].
  apply batch_entries_offset in H. unfold len in H. lia.
Qed.

Lemma batch_entries_app next pid t1 t2 e1 e2 :
  length t1 = length e1 ->
  batch_entries next pid (t1 ++ t2) (e1 ++ e2) =
  batch_entries next pid t1 e1 ++ batch_entries (next + len e1) pid t2 e2.
Proof.
  revert next e1. induction t1 as [|t t1 IH]; intros next [|e e1] H; simplify_eq/=.
  - by rewrite len_nil, N.add_0_r.
  - rewrite IH by done. rewrite len_cons. by replace (next + 1 + len e1)%N with (next + (1 + len e1))%N by lia.
Qed.

Lemma history_range_In h from to e : e ∈ history_range h from to -> e ∈ h.
Proof.
  unfold history_range. intros H. apply list_elem_of_lookup in H as [i H].
  rewrite lookup_drop in H. destruct to as [o|].
  - apply lookup_take_Some in H as [H _]. by eapply list_elem_of_lookup_2.
  - by eapply list_elem_of_lookup_2.
Qed.

Lemma history_range_all h from : history_range h from None = drop (N.to_nat (as_u64 from)) h.
Proof. done. Qed.
