(* ===== verification/SegmentFile.v ===== *)
(** Segment files (crate [adapter-event-log-segment], [segment.rs]): the
    header, the record format, the offset index and crash recovery.

    A file is its list of bytes and reading is a function of them; of the I/O
    errors only [UnexpectedEof] arises here.  The CRC-32 of the [crc32fast]
    crate is a parameter, class [Crc32].  [overflow_checks] says how the
    program was built: with them an arithmetic overflow panics ([None]),
    without them it wraps.  The detail text of a UTF-8 error is left out of
    its message. *)
From stdpp Require Import base gmap strings list option numbers pretty.
From Stdlib Require Import Strings.Byte.
From S2P Require Import Prelude EventModel WireProtocol EventLogPort.

Class Crc32 : Type := crc32 : bytes -> N.
Class Crc32Laws {C : Crc32} : Prop := crc32_u32 : forall bs, (crc32 bs <= u32_max)%N.

Definition MAGIC : bytes := [x4f; x54; x4b; x53].
Definition VERSION : byte := x02.
Definition HEADER_LEN : N := 24.
Definition MAX_EVENT_CBOR : N := 4 * 1024 * 1024.
Definition MAX_PRODUCER_ID_BYTES : N := 256.
Definition MAX_INDEX_BYTES : N := 256 * 1024 * 1024.
Definition SENTINEL_MSG : string := "end-of-segment sentinel".

(** [std::io::Error] of kind [UnexpectedEof]. *)
Definition unexpected_eof : string := "UnexpectedEof".
Definition Eof : StorageError := Io unexpected_eof.

Definition is_eof (e : StorageError) : bool :=
  match e with Io k => bool_decide (k = unexpected_eof) | _ => false end.

Definition is_corrupted (e : StorageError) : bool :=
  match e with Corrupted _ => true | _ => false end.

(** [read_exact] of [n] bytes: the bytes and what follows them. *)
Definition read_exact (n : nat) (bs : bytes) : result (bytes * bytes) StorageError :=
  if (length bs <? n)%nat then Err Eof else Ok (take n bs, drop n bs).

(** ** Header *)
Record SegmentHeader := { base_offset : N; created_at_ns : N }.

Definition encode_header (h : SegmentHeader) : bytes :=
  MAGIC ++ [VERSION; x00; x00; x00] ++ to_le_bytes 8 (base_offset h) ++ to_le_bytes 8 (created_at_ns h).

(** [{:?}] of a byte slice. *)
Fixpoint debug_bytes_tail (bs : bytes) : string :=
  match bs with
  | [] => "]"
  | b :: bs => ", " +:+ pretty (Byte.to_N b) +:+ debug_bytes_tail bs
  end.

Definition debug_bytes (bs : bytes) : string :=
  match bs with
  | [] => "[]"
  | b :: bs => "[" +:+ pretty (Byte.to_N b) +:+ debug_bytes_tail bs
  end.

Definition read_header (file : bytes) : result SegmentHeader StorageError :=
  let? (buf, _) := read_exact 24 file in
  if bool_decide (take 4 buf <> MAGIC)
  then Err (Corrupted ("bad magic: " +:+ debug_bytes (take 4 buf))) else
  let version := default x00 (buf !! 4) in
  if bool_decide (version <> VERSION)
  then Err (Corrupted ("unknown segment version " +:+ pretty (Byte.to_N version))) else
  Ok {| base_offset := from_le_bytes (take 8 (drop 8 buf));
        created_at_ns := from_le_bytes (take 8 (drop 16 buf)) |}.

Section Records.
Context `{CborEvent : Cbor OtkEvent} `{Crc : Crc32}.

(** The part of a record that [payload_len] counts and the CRC covers. *)
Definition record_payload (offset appended_at_ns : N) (producer_id event_cbor : bytes) : bytes :=
  to_le_bytes 8 offset ++ to_le_bytes 8 appended_at_ns ++
  to_le_bytes 2 (len producer_id) ++ producer_id ++
  to_le_bytes 4 (len event_cbor) ++ event_cbor.

(** The bytes [write_record] appends, or its error. *)
Definition encode_record (entry : LogEntry) : result bytes StorageError :=
  let? event_cbor := map_err (fun e => Corrupted ("CBOR encode: " +:+ e)) (cbor_to_vec (event entry)) in
  if (MAX_EVENT_CBOR <? len event_cbor)%N then
    Err (InvalidInput ("event CBOR (" +:+ pretty (len event_cbor) +:+
           " bytes) exceeds maximum record size (" +:+ pretty MAX_EVENT_CBOR +:+ " bytes)")) else
  let producer_id_bytes := str_bytes (entry_producer_id entry) in
  if bool_decide (producer_id_bytes = []) then Err (InvalidInput "producer_id must not be empty") else
  if (MAX_PRODUCER_ID_BYTES <? len producer_id_bytes)%N then
    Err (InvalidInput ("producer_id (" +:+ pretty (len producer_id_bytes) +:+
           " bytes) exceeds maximum length (" +:+ pretty MAX_PRODUCER_ID_BYTES +:+ " bytes)")) else
  let payload_len := (8 + 8 + 2 + len producer_id_bytes + 4 + len event_cbor)%N in
  let payload := record_payload (as_u64 (offset entry)) (appended_at_ns entry)
                                producer_id_bytes event_cbor in
  Ok (to_le_bytes 4 payload_len ++ payload ++ to_le_bytes 4 (crc32 payload)).

(** [write_record] at the end of a file: the new file and the position of the
    record; the file is left as it was on an error. *)
Definition write_record (file : bytes) (entry : LogEntry) : result N StorageError * bytes :=
  match encode_record entry with
  | Err e => (Err e, file)
  | Ok buf => (Ok (len file), file ++ buf)
  end.

(** [payload_len - 8 - 8 - 2 - producer_id_len - 4] on [u32]. *)
Definition event_len_expected (overflow_checks : bool) (payload_len producer_id_len : N) : option N :=
  if (22 + producer_id_len <=? payload_len)%N then Some (payload_len - 22 - producer_id_len)%N
  else if overflow_checks then None
  else Some (payload_len + (u32_max + 1) - 22 - producer_id_len)%N.

Definition read_record (overflow_checks : bool) (file : bytes) (pos : N)
  : option (result LogEntry StorageError) :=
  let at_pos := " at pos " +:+ pretty pos in
  let?! (payload_len_buf, r) := Some (read_exact 4 (drop (N.to_nat pos) file)) in
  let payload_len := from_le_bytes payload_len_buf in
  if (payload_len =? 0)%N then Some (Err (Corrupted SENTINEL_MSG)) else
  if (payload_len <? 22)%N then
    Some (Err (Corrupted ("payload_len " +:+ pretty payload_len +:+ " too small" +:+ at_pos +:+
                          " (minimum 22)"))) else
  let?! (offset_buf, r) := Some (read_exact 8 r) in
  let?! (appended_buf, r) := Some (read_exact 8 r) in
  let?! (producer_id_len_buf, r) := Some (read_exact 2 r) in
  let producer_id_len := from_le_bytes producer_id_len_buf in
  if (producer_id_len =? 0)%N then
    Some (Err (Corrupted ("producer_id_len is 0" +:+ at_pos +:+
                          "; v2 segments require a non-empty producer id"))) else
  if (MAX_PRODUCER_ID_BYTES <? producer_id_len)%N then
    Some (Err (Corrupted ("producer_id_len " +:+ pretty producer_id_len +:+ at_pos +:+
                          " exceeds maximum " +:+ pretty MAX_PRODUCER_ID_BYTES))) else
  let?! (producer_id_bytes, r) := Some (read_exact (N.to_nat producer_id_len) r) in
  if negb (utf8_valid producer_id_bytes) then
    Some (Err (Corrupted ("producer_id" +:+ at_pos +:+ " is not valid UTF-8"))) else
  let! expected := event_len_expected overflow_checks payload_len producer_id_len in
  if (MAX_EVENT_CBOR <? expected)%N then
    Some (Err (Corrupted ("event CBOR length " +:+ pretty expected +:+ at_pos +:+
                          " exceeds maximum " +:+ pretty MAX_EVENT_CBOR))) else
  let?! (event_len_buf, r) := Some (read_exact 4 r) in
  let stored := from_le_bytes event_len_buf in
  if negb (stored =? expected)%N then
    Some (Err (Corrupted ("event_len mismatch" +:+ at_pos +:+ ": payload_len implies " +:+
                          pretty expected +:+ ", stored " +:+ pretty stored))) else
  let?! (event_cbor, r) := Some (read_exact (N.to_nat stored) r) in
  let?! (crc_buf, r) := Some (read_exact 4 r) in
  let stored_crc := from_le_bytes crc_buf in
  let computed_crc := crc32 (offset_buf ++ appended_buf ++ producer_id_len_buf ++
                             producer_id_bytes ++ event_len_buf ++ event_cbor) in
  if negb (computed_crc =? stored_crc)%N then
    Some (Err (Corrupted ("CRC mismatch" +:+ at_pos +:+ ": expected 0x" +:+
                          bytes_str (hex_pad 8 computed_crc) +:+ ", got 0x" +:+
                          bytes_str (hex_pad 8 stored_crc)))) else
  match cbor_decode (A := OtkEvent) event_cbor with
  | Err e => Some (Err (Corrupted ("CBOR decode" +:+ at_pos +:+ ": " +:+ e)))
  | Ok event =>
      Some (Ok {| offset := offset_new (from_le_bytes offset_buf);
                  appended_at_ns := from_le_bytes appended_buf;
                  entry_producer_id := bytes_str producer_id_bytes; event := event |})
  end.

(** ** Crash recovery: the positions, the next position, and the file, cut at
    the first record that does not verify. *)
Fixpoint recover_loop (overflow_checks : bool) (fuel : nat) (file : bytes) (base : N)
    (positions : list N) (pos : N) : option (result (list N * N * bytes) StorageError) :=
  match fuel with
  | O => None
  | S fuel =>
      let stop := Some (Ok (positions, pos, file)) in
      let cut := Some (Ok (positions, pos, take (N.to_nat pos) file)) in
      if (len file <=? pos)%N then stop else
      match read_exact 4 (drop (N.to_nat pos) file) with
      | Err e => if is_eof e then cut else Some (Err e)
      | Ok (plen_buf, _) =>
          let payload_len := from_le_bytes plen_buf in
          if (payload_len =? 0)%N then cut else
          let! r := read_record overflow_checks file pos in
          match r with
          | Ok entry =>
              match checked_add64 base (len positions) with
              | None => Some (Err (Corrupted ("segment base_offset " +:+ pretty base +:+
                                              " + record count overflows u64")))
              | Some expected =>
                  if negb (as_u64 (offset entry) =? expected)%N then cut else
                  match checked_add64 pos payload_len ≫= fun p => checked_add64 p 8 with
                  | Some p => recover_loop overflow_checks fuel file base (positions ++ [pos]) p
                  | None => Some (Ok (positions ++ [pos], pos, take (N.to_nat pos) file))
                  end
              end
          | Err e => if is_eof e || is_corrupted e then cut else Some (Err e)
          end
      end
  end.

Definition recover_active (overflow_checks : bool) (file : bytes) (base : N)
  : option (result (list N * N * N * bytes) StorageError) :=
  let?! (positions, pos, file') :=
    recover_loop overflow_checks (S (length file)) file base [] HEADER_LEN in
  Some (Ok (positions, pos, len positions, file')).
End Records.

(** ** Index *)
Definition encode_index (positions : list N) : bytes := positions ≫= to_le_bytes 8.

Fixpoint chunks8 (fuel : nat) (bs : bytes) : list N :=
  match fuel with
  | O => []
  | S fuel => if (length bs <? 8)%nat then [] else from_le_bytes (take 8 bs) :: chunks8 fuel (drop 8 bs)
  end.

Definition read_index (path : string) (file : bytes) : result (list N) StorageError :=
  if (MAX_INDEX_BYTES <? len file)%N then
    Err (Corrupted ("index file " +:+ path +:+ " is " +:+ pretty (len file) +:+
                    " bytes, exceeding the " +:+ pretty MAX_INDEX_BYTES +:+ "-byte limit")) else
  if negb (len file mod 8 =? 0)%N then
    Err (Corrupted ("index file " +:+ path +:+ " has length " +:+ pretty (len file) +:+
                    " which is not a multiple of 8")) else
  Ok (chunks8 (length file) file).

(** ** Reading facts *)
Lemma drop_len_app {A} (a b : list A) : drop (N.to_nat (len a)) (a ++ b) = b.
Proof. apply drop_app_len. unfold len. lia. Qed.

Lemma take_len_app {A} (a b : list A) : take (N.to_nat (len a)) (a ++ b) = a.
Proof. apply take_app_len. unfold len. lia. Qed.

Lemma read_exact_app a b n : n = length a -> read_exact n (a ++ b) = Ok (a, b).
Proof.
  intros ->. unfold read_exact. rewrite length_app.
  replace (length a + length b <? length a) with false by (symmetry; apply Nat.ltb_ge; lia).
  by rewrite take_app_length, drop_app_length.
Qed.

Lemma read_exact_ok n bs a r : read_exact n bs = Ok (a, r) -> bs = a ++ r /\ length a = n.
Proof.
  unfold read_exact. destruct (Nat.ltb_spec (length bs) n) as [|Hl]; [done|]. intros [= <- <-].
  rewrite take_drop, length_take. split; [done|lia].
Qed.

Lemma read_exact_err n bs e : read_exact n bs = Err e -> e = Eof.
Proof. unfold read_exact. case_match; congruence. Qed.

(** Reading [n] bytes of a file that is missing its tail [more]. *)
Lemma read_exact_prefix n t more a b :
  t ++ more = a ++ b -> length a = n ->
  read_exact n t = Err Eof \/ (exists t', t' ++ more = b /\ read_exact n t = Ok (a, t')).
Proof.
  intros Heq Hn. unfold read_exact. destruct (Nat.ltb_spec (length t) n) as [|Hl]; [by left|]. right.
  assert (Ht : t = take n t ++ drop n t) by by rewrite take_drop.
  rewrite Ht in Heq. rewrite <- app_assoc in Heq.
  apply app_inj_1 in Heq as [Ha Hb]; [|rewrite length_take; lia].
  exists (drop n t). by rewrite Ha.
Qed.

Lemma from_to_le_u64 v : wf_u64 v -> from_le_bytes (to_le_bytes 8 v) = v.
Proof.
  intros Hv. apply from_to_le_bytes. change (256 ^ N.of_nat 8)%N with 18446744073709551616%N.
  unfold wf_u64, u64_max in Hv. lia.
Qed.

Lemma from_to_le_u32 v : (v <= u32_max)%N -> from_le_bytes (to_le_bytes 4 v) = v.
Proof.
  intros Hv. apply from_to_le_bytes. change (256 ^ N.of_nat 4)%N with 4294967296%N.
  unfold u32_max in Hv. lia.
Qed.

Lemma from_to_le_u16 v : (v <= u16_max)%N -> from_le_bytes (to_le_bytes 2 v) = v.
Proof.
  intros Hv. apply from_to_le_bytes. change (256 ^ N.of_nat 2)%N with 65536%N.
  unfold u16_max in Hv. lia.
Qed.

Lemma from_le_u64 bs : length bs = 8%nat -> wf_u64 (from_le_bytes bs).
Proof.
  intros Hl. pose proof (from_le_bytes_bound bs) as Hb. rewrite Hl in Hb.
  change (256 ^ N.of_nat 8)%N with 18446744073709551616%N in Hb. unfold wf_u64, u64_max. lia.
Qed.

Lemma to_from_le_u64 bs : length bs = 8%nat -> to_le_bytes 8 (from_le_bytes bs) = bs.
Proof. intros <-. apply to_from_le_bytes. Qed.

Lemma read_header_fields h p1 p2 p3 rest :
  wf_u64 (base_offset h) -> wf_u64 (created_at_ns h) ->
  read_header (MAGIC ++ [VERSION] ++ [p1; p2; p3] ++ to_le_bytes 8 (base_offset h) ++
               to_le_bytes 8 (created_at_ns h) ++ rest) = Ok h.
Proof.
  intros Hb Hc.
  replace (MAGIC ++ _) with ((MAGIC ++ [VERSION; p1; p2; p3] ++ to_le_bytes 8 (base_offset h) ++
    to_le_bytes 8 (created_at_ns h)) ++ rest) by by rewrite <- !app_assoc.
  unfold read_header. rewrite read_exact_app by (rewrite !length_app, !length_to_le_bytes; done).
  destruct h as [b c]. cbn [base_offset created_at_ns] in *.
  pose proof (length_to_le_bytes 8 b) as Lb. pose proof (length_to_le_bytes 8 c) as Lc.
  pose proof (from_to_le_u64 b Hb) as Fb. pose proof (from_to_le_u64 c Hc) as Fc.
  revert Lb Lc Fb Fc. generalize (to_le_bytes 8 b) (to_le_bytes 8 c). intros lb lc Lb Lc <- <-.
  rewrite bool_decide_eq_false_2 by (intros Hn; by apply Hn). cbn -[from_le_bytes take drop app].
  rewrite bool_decide_eq_false_2 by (intros Hn; by apply Hn).
  change (drop 16 ?l) with (drop 8 (drop 8 l)). do 2 f_equal.
  all: change (drop 8 (MAGIC ++ _)) with (lb ++ lc).
  - by rewrite take_app_len.
  - by rewrite drop_app_len, take_ge by lia.
Qed.

(** ** Index facts *)
Lemma encode_index_len ps : len (encode_index ps) = (8 * len ps)%N.
Proof.
  induction ps as [|p ps IH]; [done|]. unfold encode_index in *. cbn [mbind list_bind].
  rewrite len_app, IH, len_cons. unfold len at 1. rewrite length_to_le_bytes. lia.
Qed.

Lemma chunks8_encode fuel ps :
  Forall wf_u64 ps -> (length ps <= fuel)%nat -> chunks8 fuel (encode_index ps) = ps.
Proof.
  intros Hps. revert fuel. induction Hps as [|p ps Hp Hps IH]; intros fuel Hf.
  { by destruct fuel. }
  destruct fuel as [|fuel]; simpl in Hf; [lia|].
  change (encode_index (p :: ps)) with (to_le_bytes 8 p ++ encode_index ps). cbn [chunks8].
  rewrite (proj2 (Nat.ltb_ge _ _)) by (rewrite length_app, length_to_le_bytes; lia).
  rewrite take_app_len, drop_app_len by done. rewrite from_to_le_u64, IH by (done || lia). done.
Qed.

Lemma encode_chunks8 fuel k bs :
  (length bs = 8 * k)%nat -> (k <= fuel)%nat -> encode_index (chunks8 fuel bs) = bs.
Proof.
  revert k bs. induction fuel as [|fuel IH]; intros k bs Hl Hk.
  { by destruct bs; [|simpl in Hl; lia]. }
  cbn [chunks8]. destruct (Nat.ltb_spec (length bs) 8) as [Hs|Hs].
  { by destruct bs; [|destruct k; simpl in *; lia]. }
  change (to_le_bytes 8 (from_le_bytes (take 8 bs)) ++ encode_index (chunks8 fuel (drop 8 bs)) = bs).
  rewrite (IH (k - 1)%nat) by (rewrite ?length_drop; lia).
  rewrite to_from_le_u64 by (rewrite length_take; lia). apply take_drop.
Qed.

(** ** Records *)
Definition wf_entry (e : LogEntry) : Prop :=
  wf_u64 (as_u64 (offset e)) /\ wf_u64 (appended_at_ns e) /\
  utf8_valid (str_bytes (entry_producer_id e)) = true.

Section RecordFacts.
Context `{CborEvent : Cbor OtkEvent} `{Crc : Crc32} `{!CborLaws OtkEvent} `{!Crc32Laws}.

(** The fields of an encoded record. *)
Record encoded_as (e : LogEntry) (rec : bytes) (plen : N) (pid cbor : bytes) (crc : N) : Prop := {
  ea_bytes : rec = to_le_bytes 4 plen ++ to_le_bytes 8 (as_u64 (offset e)) ++
    to_le_bytes 8 (appended_at_ns e) ++ to_le_bytes 2 (len pid) ++ pid ++
    to_le_bytes 4 (len cbor) ++ cbor ++ to_le_bytes 4 crc;
  ea_plen : plen = (22 + len pid + len cbor)%N;
  ea_pid : pid = str_bytes (entry_producer_id e);
  ea_pid_len : (0 < len pid <= MAX_PRODUCER_ID_BYTES)%N;
  ea_cbor : cbor_decode cbor = Ok (event e);
  ea_cbor_len : (len cbor <= MAX_EVENT_CBOR)%N;
  ea_crc : crc = crc32 (to_le_bytes 8 (as_u64 (offset e)) ++ to_le_bytes 8 (appended_at_ns e) ++
    to_le_bytes 2 (len pid) ++ pid ++ to_le_bytes 4 (len cbor) ++ cbor)
}.

Lemma encode_record_ok e rec :
  encode_record e = Ok rec -> exists plen pid cbor crc, encoded_as e rec plen pid cbor crc.
Proof.
  unfold encode_record. destruct (cbor_to_vec (event e)) as [cbor|] eqn:Hc; cbn [map_err]; [|done].
  destruct (N.ltb_spec MAX_EVENT_CBOR (len cbor)); [done|]. case_bool_decide as Hp; [done|].
  destruct (N.ltb_spec MAX_PRODUCER_ID_BYTES (len (str_bytes (entry_producer_id e)))); [done|].
  intros <-%Ok_inj.
  eexists (8 + 8 + 2 + len (str_bytes (entry_producer_id e)) + 4 + len cbor)%N, _, cbor, _.
  split; try done.
  - unfold record_payload. by rewrite <- !app_assoc.
  - lia.
  - split; [|done]. destruct (str_bytes (entry_producer_id e)); [done|]. rewrite len_cons. lia.
  - by apply cbor_roundtrip.
Qed.

Lemma encoded_length e rec plen pid cbor crc :
  encoded_as e rec plen pid cbor crc -> len rec = (8 + plen)%N.
Proof.
  intros [-> -> _ _ _ _ _]. unfold len. rewrite !length_app, !length_to_le_bytes. lia.
Qed.

Lemma encoded_plen_bounds e rec plen pid cbor crc :
  encoded_as e rec plen pid cbor crc ->
  (22 < plen <= u32_max)%N /\ (len pid <= u16_max)%N /\ (len cbor <= u32_max)%N.
Proof.
  intros [_ -> _ [? Hp] _ Hc _]. unfold MAX_EVENT_CBOR, MAX_PRODUCER_ID_BYTES, u32_max, u16_max in *. lia.
Qed.

Lemma read_record_encoded oc e rec pre post :
  encode_record e = Ok rec -> wf_entry e ->
  read_record oc (pre ++ rec ++ post) (len pre) = Some (Ok e).
Proof.
  intros (plen & pid & cbor & crc & Hea)%encode_record_ok (Ho & Ha & Hu).
  destruct (encoded_plen_bounds _ _ _ _ _ _ Hea) as (Hpl & Hpid & Hcb).
  destruct Hea as [-> Hplen Hpideq [Hp0 Hp1] Hdec Hcl Hcrc]. unfold read_record.
  rewrite drop_len_app, <- !app_assoc.
  rewrite (read_exact_app (to_le_bytes 4 plen)) by done. rewrite from_to_le_u32 by lia.
  replace (plen =? 0)%N with false by (symmetry; apply N.eqb_neq; lia).
  replace (plen <? 22)%N with false by (symmetry; apply N.ltb_ge; lia).
  rewrite (read_exact_app (to_le_bytes 8 (as_u64 (offset e)))) by done.
  rewrite (read_exact_app (to_le_bytes 8 (appended_at_ns e))) by done.
  rewrite (read_exact_app (to_le_bytes 2 (len pid))) by done.
  rewrite from_to_le_u16 by done.
  replace (len pid =? 0)%N with false by (symmetry; apply N.eqb_neq; lia).
  replace (MAX_PRODUCER_ID_BYTES <? len pid)%N with false by (symmetry; apply N.ltb_ge; lia).
  rewrite (read_exact_app pid) by (unfold len; lia). rewrite Hpideq, Hu, <- Hpideq. cbn [negb]. cbv iota.
  unfold event_len_expected.
  replace (22 + len pid <=? plen)%N with true by (symmetry; apply N.leb_le; lia).
  replace (plen - 22 - len pid)%N with (len cbor) by lia.
  replace (MAX_EVENT_CBOR <? len cbor)%N with false by (symmetry; apply N.ltb_ge; lia).
  rewrite (read_exact_app (to_le_bytes 4 (len cbor))) by done. rewrite from_to_le_u32 by done.
  rewrite N.eqb_refl. cbn [negb]. cbv iota.
  rewrite (read_exact_app cbor) by (unfold len; lia).
  rewrite (read_exact_app (to_le_bytes 4 crc)) by done.
  rewrite from_to_le_u32 by (rewrite Hcrc; apply crc32_u32). rewrite <- Hcrc, N.eqb_refl. cbn [negb].
  cbv iota. rewrite Hdec, !from_to_le_u64 by done. subst pid. rewrite bytes_str_bytes.
  by destruct e as [[o] a p ev].
Qed.

(** A record cut anywhere before its end reads as [UnexpectedEof]. *)
Lemma read_record_torn oc e pre t more :
  encode_record e = Ok (t ++ more) -> wf_entry e -> more <> [] ->
  read_record oc (pre ++ t) (len pre) = Some (Err Eof).
Proof.
  intros (plen & pid & cbor & crc & Hea)%encode_record_ok (Ho & Ha & Hu) Hm.
  destruct (encoded_plen_bounds _ _ _ _ _ _ Hea) as (Hpl & Hpid & Hcb).
  destruct Hea as [Heq Hplen Hpideq [Hp0 Hp1] Hdec Hcl Hcrc]. unfold read_record.
  rewrite drop_len_app.
  destruct (read_exact_prefix 4 _ _ _ _ Heq (length_to_le_bytes 4 _)) as [->|(t1 & H1 & ->)]; [done|].
  rewrite from_to_le_u32 by lia.
  replace (plen =? 0)%N with false by (symmetry; apply N.eqb_neq; lia).
  replace (plen <? 22)%N with false by (symmetry; apply N.ltb_ge; lia).
  destruct (read_exact_prefix 8 _ _ _ _ H1 (length_to_le_bytes 8 _)) as [->|(t2 & H2 & ->)]; [done|].
  destruct (read_exact_prefix 8 _ _ _ _ H2 (length_to_le_bytes 8 _)) as [->|(t3 & H3 & ->)]; [done|].
  destruct (read_exact_prefix 2 _ _ _ _ H3 (length_to_le_bytes 2 _)) as [->|(t4 & H4 & ->)]; [done|].
  rewrite from_to_le_u16 by done.
  replace (len pid =? 0)%N with false by (symmetry; apply N.eqb_neq; lia).
  replace (MAX_PRODUCER_ID_BYTES <? len pid)%N with false by (symmetry; apply N.ltb_ge; lia).
  destruct (read_exact_prefix (N.to_nat (len pid)) _ _ _ _ H4) as [->|(t5 & H5 & ->)];
    [unfold len; lia|done|].
  rewrite Hpideq, Hu, <- Hpideq. cbn [negb]. cbv iota. unfold event_len_expected.
  replace (22 + len pid <=? plen)%N with true by (symmetry; apply N.leb_le; lia).
  replace (plen - 22 - len pid)%N with (len cbor) by lia.
  replace (MAX_EVENT_CBOR <? len cbor)%N with false by (symmetry; apply N.ltb_ge; lia).
  destruct (read_exact_prefix 4 _ _ _ _ H5 (length_to_le_bytes 4 _)) as [->|(t6 & H6 & ->)]; [done|].
  rewrite from_to_le_u32, N.eqb_refl by done. cbn [negb]. cbv iota.
  destruct (read_exact_prefix (N.to_nat (len cbor)) _ _ _ _ H6) as [->|(t7 & H7 & ->)];
    [unfold len; lia|done|].
  rewrite <- (app_nil_r (to_le_bytes 4 crc)) in H7.
  destruct (read_exact_prefix 4 _ _ _ _ H7 (length_to_le_bytes 4 _)) as [->|(t8 & H8 & _)]; [done|].
  by apply app_eq_nil in H8 as [_ ?].
Qed.

(** Without overflow checks no file makes the reader panic. *)
Lemma read_record_no_panic file pos : read_record false file pos <> None.
Proof.
  unfold read_record. intros Hr.
  repeat match type of Hr with
  | match read_exact ?n ?b with _ => _ end = _ => destruct (read_exact n b) as [[? ?]|?]; [|done]
  | (if ?c then _ else _) = _ => destruct c; [done|]
  | match event_len_expected _ ?p ?q with _ => _ end = _ =>
      destruct (event_len_expected false p q) eqn:X; [|unfold event_len_expected in X; by case_match]
  | match ?m with _ => _ end = _ => destruct m as [?|]; try done
  end.
Qed.

(** [rec] reads as [e] wherever it lies in a file. *)
Definition reads_as (oc : bool) (rec : bytes) (e : LogEntry) : Prop :=
  (4 <= length rec)%nat /\ len rec = (8 + from_le_bytes (take 4 rec))%N /\
  from_le_bytes (take 4 rec) <> 0%N /\
  forall pre post, read_record oc (pre ++ rec ++ post) (len pre) = Some (Ok e).

Lemma encoded_reads_as oc e rec : encode_record e = Ok rec -> wf_entry e -> reads_as oc rec e.
Proof.
  intros He Hwf. pose proof He as (plen & pid & cbor & crc & Hea)%encode_record_ok.
  pose proof (encoded_length _ _ _ _ _ _ Hea) as Hl.
  pose proof (encoded_plen_bounds _ _ _ _ _ _ Hea) as [Hb _].
  assert (Hp : from_le_bytes (take 4 rec) = plen).
  { rewrite (ea_bytes _ _ _ _ _ _ Hea), take_app_len by done. apply from_to_le_u32. lia. }
  rewrite <- Hp in Hl, Hb. split; [unfold len in Hl; lia|]. split; [done|]. split; [lia|].
  intros pre post. by apply read_record_encoded.
Qed.

Lemma event_len_expected_ok oc p q n :
  event_len_expected oc p q = Some n -> (n <= MAX_EVENT_CBOR)%N -> (q <= MAX_PRODUCER_ID_BYTES)%N ->
  p = (22 + q + n)%N.
Proof.
  unfold event_len_expected, MAX_EVENT_CBOR, MAX_PRODUCER_ID_BYTES, u32_max.
  destruct (N.leb_spec (22 + q) p); [intros [= <-]; lia|]. destruct oc; [done|]. intros [= <-]. lia.
Qed.

(** A record that verifies occupies [payload_len + 8] bytes, and it is only
    these that are read. *)
Lemma read_record_inv oc file pos e :
  read_record oc file pos = Some (Ok e) ->
  exists rec rest, file = take (N.to_nat pos) file ++ rec ++ rest /\
    (pos <= len file)%N /\ reads_as oc rec e.
Proof.
  unfold read_record. set (f := drop (N.to_nat pos) file). intros H1.
  destruct (read_exact 4 f) as [[b1 r1]|] eqn:E1; [|done]. apply read_exact_ok in E1 as [Hf L1].
  destruct (N.eqb_spec (from_le_bytes b1) 0) as [|N0]; [done|].
  destruct (N.ltb_spec (from_le_bytes b1) 22) as [|N22]; [done|].
  destruct (read_exact 8 r1) as [[b2 r2]|] eqn:E2; [|done]. apply read_exact_ok in E2 as [-> L2].
  destruct (read_exact 8 r2) as [[b3 r3]|] eqn:E3; [|done]. apply read_exact_ok in E3 as [-> L3].
  destruct (read_exact 2 r3) as [[b4 r4]|] eqn:E4; [|done]. apply read_exact_ok in E4 as [-> L4].
  destruct (from_le_bytes b4 =? 0)%N eqn:Z4; [done|].
  destruct (MAX_PRODUCER_ID_BYTES <? from_le_bytes b4)%N eqn:M4; [done|].
  destruct (read_exact (N.to_nat (from_le_bytes b4)) r4) as [[b5 r5]|] eqn:E5; [|done].
  apply read_exact_ok in E5 as [-> L5].
  destruct (negb (utf8_valid b5)) eqn:U5; [done|].
  destruct (event_len_expected oc (from_le_bytes b1) (from_le_bytes b4)) as [ex|] eqn:X; [|done].
  destruct (MAX_EVENT_CBOR <? ex)%N eqn:M5; [done|].
  destruct (read_exact 4 r5) as [[b6 r6]|] eqn:E6; [|done]. apply read_exact_ok in E6 as [-> L6].
  destruct (negb (from_le_bytes b6 =? ex)%N) eqn:X6; [done|].
  destruct (read_exact (N.to_nat (from_le_bytes b6)) r6) as [[b7 r7]|] eqn:E7; [|done].
  apply read_exact_ok in E7 as [-> L7].
  destruct (read_exact 4 r7) as [[b8 r8]|] eqn:E8; [|done]. apply read_exact_ok in E8 as [-> L8].
  destruct (negb _) eqn:C8 in H1; [done|].
  destruct (cbor_decode b7) as [ev|] eqn:D7; [|done]. apply Some_inj, Ok_inj in H1 as <-.
  exists (b1 ++ b2 ++ b3 ++ b4 ++ b5 ++ b6 ++ b7 ++ b8), r8.
  assert (Hlen : length f = length (b1 ++ b2 ++ b3 ++ b4 ++ b5 ++ b6 ++ b7 ++ b8 ++ r8)) by by rewrite Hf.
  split; [rewrite <- !app_assoc, <- Hf; unfold f; by rewrite take_drop|].
  split; [unfold f in Hlen; rewrite length_drop, !length_app in Hlen; unfold len; lia|].
  apply N.ltb_ge in M4 as M4'. apply N.ltb_ge in M5 as M5'.
  apply negb_false_iff, N.eqb_eq in X6 as X6'.
  pose proof (event_len_expected_ok _ _ _ _ X M5' M4') as Hp.
  split; [rewrite length_app; lia|]. rewrite take_app_len by done.
  split; [unfold len; rewrite !length_app; lia|]. split; [done|].
  intros pre post. unfold read_record. rewrite drop_len_app, <- !app_assoc.
  rewrite (read_exact_app b1) by done. rewrite (proj2 (N.eqb_neq _ _) N0), (proj2 (N.ltb_ge _ _) N22).
  rewrite (read_exact_app b2), (read_exact_app b3), (read_exact_app b4) by done. rewrite Z4, M4.
  rewrite (read_exact_app b5), U5, X, M5 by lia. rewrite (read_exact_app b6), X6 by done.
  rewrite (read_exact_app b7) by lia. rewrite (read_exact_app b8) by done. by rewrite C8, D7.
Qed.

(** ** Recovery *)
Fixpoint positions_from (pos : N) (recs : list bytes) : list N :=
  match recs with [] => [] | r :: recs => pos :: positions_from (pos + len r)%N recs end.

(** Entries carrying consecutive offsets from [base]. *)
Definition numbered (base : N) (es : list LogEntry) : Prop :=
  forall i e, es !! i = Some e -> as_u64 (offset e) = (base + N.of_nat i)%N.

Lemma numbered_cons base e es :
  numbered base (e :: es) <-> as_u64 (offset e) = base /\ numbered (base + 1) es.
Proof.
  split.
  - intros Hn. split; [rewrite (Hn 0%nat e eq_refl); lia|]. intros i e' Hi.
    rewrite (Hn (S i) e' Hi). lia.
  - intros [He Hn] [|i] e' Hi; simplify_eq/=; [lia|]. rewrite (Hn i e' Hi). lia.
Qed.

(** What can follow the last whole record after a crash: nothing or less than
    a length field, the zero length of a roll's sentinel, or part of a
    record. *)
Definition torn_tail (tail : bytes) : Prop :=
  (length tail < 4)%nat \/ (exists r, tail = [x00; x00; x00; x00] ++ r) \/
  (exists e more, wf_entry e /\ encode_record e = Ok (tail ++ more) /\ more <> []).

Lemma recover_loop_tail oc fuel pre tail base ps :
  torn_tail tail ->
  recover_loop oc (S fuel) (pre ++ tail) base ps (len pre) = Some (Ok (ps, len pre, pre)).
Proof.
  intros Ht. cbn [recover_loop]. rewrite drop_len_app, take_len_app, len_app. destruct (N.leb_spec (len pre + len tail) (len pre)) as [Hl|Hl].
  { rewrite (len_zero_nil tail) by lia. by rewrite app_nil_r. }
  destruct Ht as [Hs|[[r ->]|(e & more & Hwf & He & Hm)]]; [|done|].
  { unfold read_exact. by rewrite (proj2 (Nat.ltb_lt _ _) Hs). }
  pose proof (read_record_torn oc e pre tail more He Hwf Hm) as Hr.
  destruct (read_exact 4 tail) as [[b r]|err] eqn:E; [|by apply read_exact_err in E as ->].
  destruct (from_le_bytes b =? 0)%N; [done|]. by rewrite Hr.
Qed.

(** One whole record is one turn of the loop. *)
Lemma recover_loop_record oc fuel pre rec post base ps e :
  reads_as oc rec e -> as_u64 (offset e) = (base + len ps)%N -> (base + len ps <= u64_max)%N ->
  (len (pre ++ rec ++ post) <= u64_max)%N ->
  recover_loop oc (S fuel) (pre ++ rec ++ post) base ps (len pre) =
  recover_loop oc fuel (pre ++ rec ++ post) base (ps ++ [len pre]) (len (pre ++ rec)).
Proof.
  intros (Hl4 & Hlen & Hnz & Hr) Ho Hb Hu. rewrite !len_app in Hu. cbn [recover_loop]. rewrite Hr.
  replace (drop (N.to_nat (len pre)) (pre ++ rec ++ post)) with (take 4 rec ++ drop 4 rec ++ post)
    by (by rewrite app_assoc, take_drop, drop_len_app).
  rewrite read_exact_app by (rewrite length_take; lia). rewrite (proj2 (N.eqb_neq _ _) Hnz).
  rewrite !len_app. replace (_ <=? len pre)%N with false by (symmetry; apply N.leb_gt; lia).
  unfold checked_add64 at 1. rewrite (proj2 (N.leb_le _ _) Hb), Ho, N.eqb_refl. cbn [negb].
  unfold checked_add64 at 2. rewrite (proj2 (N.leb_le _ _)) by lia. cbn [mbind option_bind].
  unfold checked_add64. rewrite (proj2 (N.leb_le _ _)) by lia.
  by replace (len pre + from_le_bytes (take 4 rec) + 8)%N with (len pre + len rec)%N by lia.
Qed.

Lemma recover_loop_records oc fuel recs es pre tail base ps :
  Forall2 (reads_as oc) recs es -> numbered (base + len ps) es ->
  (base + len ps + len es <= u64_max + 1)%N -> (len (pre ++ concat recs ++ tail) <= u64_max)%N ->
  recover_loop oc (length recs + fuel) (pre ++ concat recs ++ tail) base ps (len pre) =
  recover_loop oc fuel (pre ++ concat recs ++ tail) base (ps ++ positions_from (len pre) recs)
    (len (pre ++ concat recs)).
Proof.
  intros Hf. revert pre ps. induction Hf as [|rec e recs es Hr Hf IH]; intros pre ps Hn Hb Hu.
  { by rewrite !app_nil_r. }
  apply numbered_cons in Hn as [He Hn]. rewrite len_cons in Hb.
  cbn [concat length Nat.add positions_from] in *. rewrite <- app_assoc in *.
  rewrite (recover_loop_record oc _ pre rec (concat recs ++ tail) base ps e) by (done || lia).
  rewrite (app_assoc pre rec (concat recs ++ tail)) in *. rewrite IH.
  - by rewrite <- !app_assoc, (len_app pre rec).
  - rewrite len_app, len_cons, len_nil. by replace (base + (len ps + (1 + 0)))%N with (base + len ps + 1)%N by lia.
  - rewrite len_app, len_cons, len_nil. lia.
  - done.
Qed.

Lemma length_recs_le oc recs es :
  Forall2 (reads_as oc) recs es -> (length recs <= length (concat recs))%nat.
Proof.
  induction 1 as [|rec e recs es (H4 & _) _ IH]; simpl; [lia|]. rewrite length_app. lia.
Qed.

Lemma positions_from_len pos recs : len (positions_from pos recs) = len recs.
Proof. revert pos. induction recs as [|r rs IH]; intros pos; simpl; [done|]. by rewrite !len_cons, IH. Qed.

Lemma positions_from_lookup oc recs es pre i p :
  Forall2 (reads_as oc) recs es -> positions_from (len pre) recs !! i = Some p ->
  exists e, es !! i = Some e /\ read_record oc (pre ++ concat recs) p = Some (Ok e).
Proof.
  intros Hf. revert pre i. induction Hf as [|rec e recs es Hr Hf IH]; intros pre i; [done|].
  destruct i as [|i]; cbn [positions_from concat].
  - intros [= <-]. exists e. split; [done|]. apply Hr.
  - rewrite <- len_app, app_assoc. apply IH.
Qed.

Lemma recover_active_records oc hdr recs es tail base :
  Forall2 (reads_as oc) recs es -> numbered base es -> (base + len es <= u64_max + 1)%N ->
  (len (hdr ++ concat recs ++ tail) <= u64_max)%N -> len hdr = HEADER_LEN -> torn_tail tail ->
  recover_active oc (hdr ++ concat recs ++ tail) base =
  Some (Ok (positions_from HEADER_LEN recs, len (hdr ++ concat recs), len recs, hdr ++ concat recs)).
Proof.
  intros Hf Hn Hb Hu Hh Ht. unfold recover_active. rewrite <- Hh.
  pose proof (length_recs_le _ _ _ Hf) as Hl. rewrite !length_app.
  replace (S _) with
    (length recs + S (length hdr + (length (concat recs) + length tail) - length recs))%nat by lia.
  rewrite recover_loop_records with (es := es); rewrite ?len_nil, ?N.add_0_r; try done.
  rewrite (app_assoc hdr), recover_loop_tail by done. simpl.
  by rewrite positions_from_len.
Qed.

Lemma read_record_err oc file pos err :
  read_record oc file pos = Some (Err err) -> is_eof err || is_corrupted err = true.
Proof.
  unfold read_record. intros Hr.
  repeat match type of Hr with
  | match match ?m with _ => _ end with _ => _ end = _ => fail
  | match read_exact ?n ?b with _ => _ end = _ =>
      let E := fresh "E" in destruct (read_exact n b) as [[? ?]|?] eqn:E;
      [clear E|apply read_exact_err in E as ->]
  | (if ?c then _ else _) = _ => destruct c
  | match ?m with _ => _ end = _ => destruct m as [?|]
  end; by simplify_eq/=.
Qed.

(** What recovery leaves of any file: whole records with consecutive
    offsets, and their positions. *)
Definition recovered (oc : bool) (base : N) (pos : N) (pre : bytes)
    (r : list N * N * bytes) (ps : list N) : Prop :=
  exists recs es, r = (ps ++ positions_from pos recs, len (pre ++ concat recs), pre ++ concat recs) /\
    Forall2 (reads_as oc) recs es /\ numbered (base + len ps) es.

Lemma recover_loop_any oc fuel file base ps pos :
  (length (drop (N.to_nat pos) file) < fuel)%nat -> (pos <= len file)%N ->
  (base + len ps + len (drop (N.to_nat pos) file) <= u64_max)%N -> (len file <= u64_max)%N ->
  match recover_loop oc fuel file base ps pos with
  | None => oc = true
  | Some (Err _) => False
  | Some (Ok r) => (exists tail, file = r.2 ++ tail) /\ recovered oc base pos (take (N.to_nat pos) file) r ps
  end.
Proof.
  revert ps pos. induction fuel as [|fuel IH]; intros ps pos Hf Hp Hb Hu; [lia|].
  assert (Hcut : (exists tail, file = take (N.to_nat pos) file ++ tail) /\
    recovered oc base pos (take (N.to_nat pos) file) (ps, pos, take (N.to_nat pos) file) ps).
  { split; [exists (drop (N.to_nat pos) file); by rewrite take_drop|].
    exists [], []. rewrite !app_nil_r. split; [|split; [constructor|by intros ?]].
    do 2 f_equal. unfold len in *. rewrite length_take. f_equal. lia. }
  cbn [recover_loop]. destruct (N.leb_spec (len file) pos) as [Hge|Hlt].
  { rewrite take_ge in Hcut by (unfold len in *; lia). rewrite take_ge by (unfold len in *; lia). done. }
  destruct (read_exact 4 (drop (N.to_nat pos) file)) as [[b r]|err] eqn:E;
    [|by apply read_exact_err in E as ->].
  destruct (N.eqb_spec (from_le_bytes b) 0) as [|Hnz]; [done|].
  destruct (read_record oc file pos) as [[e|err]|] eqn:Hr.
  2:{ by rewrite (read_record_err _ _ _ _ Hr). }
  2:{ destruct oc; [done|]. by apply read_record_no_panic in Hr. }
  apply read_record_inv in Hr as (rec & rest & Hfile & _ & Hra).
  pose proof Hra as (Hl4 & Hlen & _ & _).
  set (pre := take (N.to_nat pos) file) in *.
  assert (Hpre : len pre = pos) by (unfold pre, len in *; rewrite length_take; lia).
  assert (Hd : drop (N.to_nat pos) file = rec ++ rest)
    by (rewrite Hfile at 1; rewrite <- Hpre; apply drop_len_app).
  assert (Hbp : from_le_bytes b = from_le_bytes (take 4 rec)).
  { rewrite Hd in E. apply read_exact_ok in E as [E L]. f_equal.
    rewrite <- (take_app_len b r 4), <- E by done. rewrite take_app_le by lia. done. }
  rewrite Hd, length_app in Hf. rewrite Hd, len_app in Hb.
  assert (Hfl : len file = (pos + len rec + len rest)%N) by (rewrite Hfile, !len_app; lia).
  unfold checked_add64 at 1. rewrite (proj2 (N.leb_le _ _)) by lia.
  destruct (N.eqb_spec (as_u64 (offset e)) (base + len ps)) as [Ho|]; [|done]. cbn [negb].
  rewrite Hbp. unfold checked_add64 at 2. rewrite (proj2 (N.leb_le _ _)) by lia. cbn [mbind option_bind].
  unfold checked_add64. rewrite (proj2 (N.leb_le _ _)) by lia.
  replace (pos + from_le_bytes (take 4 rec) + 8)%N with (len (pre ++ rec)) by (rewrite len_app; lia).
  assert (Hd2 : drop (N.to_nat (len (pre ++ rec))) file = rest)
    by (rewrite Hfile, app_assoc; apply drop_len_app).
  assert (Ht2 : take (N.to_nat (len (pre ++ rec))) file = pre ++ rec)
    by (rewrite Hfile, app_assoc; apply take_len_app).
  specialize (IH (ps ++ [pos]) (len (pre ++ rec))). rewrite Hd2, Ht2 in IH.
  do 4 (discharge IH ltac:(rewrite ?len_app, ?len_cons, ?len_nil; unfold len in *; lia)).
  destruct (recover_loop oc fuel file base (ps ++ [pos]) (len (pre ++ rec))) as [[r'|]|]; [|done..].
  destruct IH as [Htl (recs & es & -> & Hf2 & Hn)]. split; [done|].
  exists (rec :: recs), (e :: es). cbn [concat positions_from].
  rewrite (len_app pre rec), Hpre, <- !app_assoc. split; [done|]. split; [by constructor|].
  apply numbered_cons. split; [done|]. rewrite len_app, len_cons, len_nil in Hn.
  by replace (base + len ps + 1)%N with (base + (len ps + (1 + 0)))%N by lia.
Qed.

(** Record round trip and append atomicity.  [write_record] at the end of
    a file either fails and leaves the file as it was, or appends one record
    and returns its position, where [read_record] reads back the very entry
    (offset, timestamp, producer and event) whatever is written after it.
    The CRC never rejects it. *)
Theorem record_roundtrip oc file e r file' :
  wf_entry e -> write_record file e = (r, file') ->
  match r with
  | Err _ => file' = file
  | Ok pos => pos = len file /\ exists rec, file' = file ++ rec /\
      forall post, read_record oc (file' ++ post) pos = Some (Ok e)
  end.
Proof.
  intros Hwf. unfold write_record. destruct (encode_record e) as [rec|err] eqn:He; intros [= <- <-]; [|done].
  split; [done|]. exists rec. split; [done|]. intros post. rewrite <- app_assoc.
  by apply read_record_encoded.
Qed.

(** Crash recovery loses nothing that was whole.  For a segment made of
    its header, any number of written records with consecutive offsets, and
    whatever a crash can leave behind them (less than a length field, the
    sentinel of an unfinished roll, a record cut at any byte), [recover_active] returns the
    position of every record, the end position and the record count, and cuts
    the file exactly after the last whole record. *)
Theorem recover_torn_tail oc hdr es recs tail base :
  len hdr = HEADER_LEN -> Forall2 (fun rec e => encode_record e = Ok rec) recs es ->
  Forall wf_entry es -> numbered base es -> (base + len es <= u64_max + 1)%N ->
  torn_tail tail -> (len (hdr ++ concat recs ++ tail) <= u64_max)%N ->
  recover_active oc (hdr ++ concat recs ++ tail) base =
    Some (Ok (positions_from HEADER_LEN recs, len (hdr ++ concat recs), len recs, hdr ++ concat recs)).
Proof.
  intros Hh Hf Hwf Hn Hb Ht Hu. apply (recover_active_records oc hdr recs es); try done.
  clear -Hf Hwf CborLaws0 H. induction Hf; inversion_clear Hwf; constructor; eauto using encoded_reads_as.
Qed.

(** C23: Recovery of any file at all.  Whatever bytes follow the header, the
    recovery loop terminates, and it panics only in a build with overflow
    checks; otherwise it succeeds, it only cuts the file and never rewrites
    it, what it keeps is the header and whole records, each readable at its
    position and numbered consecutively from the base offset, and recovering
    the result again changes nothing. *)
Theorem recover_any oc file base :
  (HEADER_LEN <= len file)%N -> (base + len file <= u64_max)%N ->
  match recover_active oc file base with
  | None => oc = true
  | Some (Err _) => False
  | Some (Ok (ps, pos, n, file')) =>
      (exists tail, file = file' ++ tail) /\ (HEADER_LEN <= len file')%N /\
      pos = len file' /\ n = len ps /\
      (forall i p, ps !! i = Some p -> exists e,
         read_record oc file' p = Some (Ok e) /\ as_u64 (offset e) = (base + N.of_nat i)%N) /\
      recover_active oc file' base = Some (Ok (ps, pos, n, file'))
  end.
Proof.
  intros Hh Hb.
  pose proof (recover_loop_any oc (S (length file)) file base [] HEADER_LEN) as Hr.
  unfold recover_active at 1.
  do 4 (discharge Hr ltac:(rewrite ?len_nil; unfold len in *; rewrite ?length_drop; lia)).
  destruct (recover_loop oc (S (length file)) file base [] HEADER_LEN) as [[r|]|]; [|done..].
  destruct Hr as [[tail Htl] (recs & es & -> & Hf & Hn)]. rewrite len_nil, N.add_0_r in Hn.
  set (hdr := take (N.to_nat HEADER_LEN) file) in *. cbn [app snd] in Htl |- *.
  assert (Hhl : len hdr = HEADER_LEN) by (unfold hdr, len in *; rewrite length_take; lia).
  pose proof (length_recs_le _ _ _ Hf) as Hle. pose proof (Forall2_length _ _ _ Hf) as Hle2.
  assert (Hlen : (len file = len hdr + len (concat recs) + len tail)%N)
    by (rewrite Htl, !len_app; lia).
  rewrite positions_from_len.
  split; [by exists tail|]. rewrite len_app. split; [lia|]. split; [done|]. split; [done|]. split.
  - intros i p Hp. rewrite <- Hhl in Hp. destruct (positions_from_lookup _ _ _ hdr _ _ Hf Hp) as (e & He & Hre).
    exists e. split; [done|]. by apply Hn.
  - pose proof (recover_active_records oc hdr recs es [] base Hf Hn) as Hrec.
    rewrite app_nil_r, len_app in Hrec. apply Hrec; [unfold len in *; lia..|done|left; simpl; lia].
Qed.

(** A record whose [payload_len] is 22 and whose producer id has ten bytes. *)
Definition corrupt_record : bytes :=
  to_le_bytes 4 22 ++ repeat x00 16 ++ to_le_bytes 2 10 ++ repeat x61 10.

(** A corrupt length panics.  A record whose [payload_len] is too small
    for its producer id makes [payload_len - 8 - 8 - 2 - producer_id_len - 4]
    underflow: in a build with overflow checks (a debug build) recovery of the
    segment panics instead of cutting it, in a release build the wrapped
    length is rejected and the segment is cut there. *)
Theorem corrupt_length_panics hdr post base :
  len hdr = HEADER_LEN ->
  recover_active true (hdr ++ corrupt_record ++ post) base = None /\
  recover_active false (hdr ++ corrupt_record ++ post) base = Some (Ok ([], HEADER_LEN, 0%N, hdr)).
Proof.
  intros Hh. unfold recover_active. cbn [recover_loop].
  rewrite (proj2 (N.leb_gt _ _)) by (rewrite !len_app; unfold len in *; simpl; lia).
  unfold read_record. rewrite <- Hh, drop_len_app, take_len_app. split; reflexivity.
Qed.
End RecordFacts.

(** Header format.  A written header is 24 bytes and reads back; and a
    file's header reads as [h] exactly when the file starts with the magic,
    version 2, three ignored bytes (flags and padding) and the two numbers of
    [h] in little endian, so a header of another version is refused. *)
Theorem read_header_iff file h :
  (wf_u64 (base_offset h) -> wf_u64 (created_at_ns h) ->
     len (encode_header h) = HEADER_LEN /\ read_header (encode_header h ++ file) = Ok h) /\
  (read_header file = Ok h <->
   wf_u64 (base_offset h) /\ wf_u64 (created_at_ns h) /\
   exists pad rest, length pad = 3%nat /\
     file = MAGIC ++ [VERSION] ++ pad ++ to_le_bytes 8 (base_offset h) ++
            to_le_bytes 8 (created_at_ns h) ++ rest).
Proof.
  split; [|split].
  - intros Hb Hc. split.
    + unfold len, encode_header. by rewrite !length_app, !length_to_le_bytes.
    + unfold encode_header. rewrite <- !app_assoc. apply (read_header_fields h x00 x00 x00 file Hb Hc).
  - unfold read_header. destruct (read_exact 24 file) as [[buf r]|] eqn:E; [|done].
    apply read_exact_ok in E as [-> Hl]. case_bool_decide as Hm; [done|].
    case_bool_decide as Hv; [done|]. intros <-%Ok_inj.
    cbn [base_offset created_at_ns].
    assert (Hs : buf = take 4 buf ++ take 4 (drop 4 buf) ++ take 8 (drop 8 buf) ++ take 8 (drop 16 buf)).
    { rewrite <- (take_drop 4 buf) at 1. f_equal. rewrite <- (take_drop 4 (drop 4 buf)) at 1. f_equal.
      rewrite drop_drop. rewrite <- (take_drop 8 (drop _ buf)) at 1. f_equal. rewrite drop_drop.
      symmetry. apply take_ge. rewrite length_drop. lia. }
    assert (L1 : length (take 8 (drop 8 buf)) = 8%nat) by (rewrite length_take, length_drop; lia).
    assert (L2 : length (take 8 (drop 16 buf)) = 8%nat) by (rewrite length_take, length_drop; lia).
    assert (L0 : length (take 4 (drop 4 buf)) = 4%nat) by (rewrite length_take, length_drop; lia).
    split; [by apply from_le_u64|]. split; [by apply from_le_u64|].
    destruct (take 4 (drop 4 buf)) as [|v pad] eqn:Ev; [done|]. exists pad, r. split; [simpl in L0; lia|].
    assert (v = VERSION) as ->.
    { rewrite <- Hv, Hs. rewrite lookup_app_r by (rewrite length_take; lia). rewrite length_take.
      by replace (4 - 4 `min` length buf)%nat with 0%nat by lia. }
    rewrite !to_from_le_u64 by done.
    rewrite Hs at 1. rewrite Hm, <- !app_assoc. done.
  - intros (Hb & Hc & pad & rest & Hp & ->). destruct pad as [|p1 [|p2 [|p3 [|]]]]; try done.
    by apply read_header_fields.
Qed.

(** Index round trip.  The offset index of a segment reads back exactly,
    and a file that [read_index] accepts is the encoding of what it returns:
    a truncated or oversize index is an error, never a shorter list. *)
Theorem index_roundtrip path :
  (forall ps, Forall wf_u64 ps -> (8 * len ps <= MAX_INDEX_BYTES)%N ->
     read_index path (encode_index ps) = Ok ps) /\
  (forall file ps, read_index path file = Ok ps -> encode_index ps = file).
Proof.
  unfold read_index. split.
  - intros ps Hps Hm. rewrite encode_index_len.
    rewrite (proj2 (N.ltb_ge _ _) Hm), N.mul_comm, N.Div0.mod_mul. cbn [negb N.eqb].
    rewrite chunks8_encode; [done|done|]. pose proof (encode_index_len ps). unfold len in *. lia.
  - intros file ps. destruct (_ <? _)%N; [done|]. destruct (N.eqb_spec (len file mod 8) 0) as [Hm|]; [|done].
    intros <-%Ok_inj. apply N.Div0.mod_divides in Hm as [k Hk].
    apply (encode_chunks8 (length file) (N.to_nat k)); unfold len in *; lia.
Qed.

(** ** Concrete runs *)

(** A checksum of 32 bits and a codec for one event. *)
Definition sum_crc : Crc32 :=
  fun bs => (foldr (fun b a => Byte.to_N b + a)%N 0%N bs mod (u32_max + 1))%N.

Lemma sum_crc_laws : @Crc32Laws sum_crc.
Proof.
  intros bs. unfold crc32, sum_crc. generalize (foldr (fun b a => Byte.to_N b + a)%N 0%N bs).
  intros n. unfold u32_max. pose proof (N.mod_lt n (4294967295 + 1) ltac:(done)). lia.
Qed.

Definition sample_event : OtkEvent := EvDetection (sample_detection 1 100 (Some "k") BeamBreak).

Definition event_cbor : Cbor OtkEvent := table_cbor [(sample_event, [x81; x01])].

Lemma event_cbor_laws : @CborLaws OtkEvent event_cbor.
Proof. apply table_cbor_laws. repeat constructor. set_solver. Qed.

Definition sample_entry (o : N) : LogEntry :=
  {| offset := offset_new o; appended_at_ns := 7; entry_producer_id := "loop-1"; event := sample_event |}.

Lemma sample_entry_wf o : (o <= 9)%N -> wf_entry (sample_entry o).
Proof. intros Ho. repeat split; unfold wf_u64, u64_max; simpl; lia. Qed.

Definition sample_record (o : N) : bytes :=
  match @encode_record event_cbor sum_crc (sample_entry o) with Ok b => b | Err _ => [] end.

Definition sample_hdr : bytes := encode_header {| base_offset := 3; created_at_ns := 5 |}.

Lemma record_roundtrip_witness :
  wf_entry (sample_entry 3) /\
  exists rec, @write_record event_cbor sum_crc sample_hdr (sample_entry 3) = (Ok 24%N, sample_hdr ++ rec) /\
  forall post, @read_record event_cbor sum_crc true ((sample_hdr ++ rec) ++ post) 24 =
    Some (Ok (sample_entry 3)).
Proof.
  split; [by apply sample_entry_wf|]. exists (sample_record 3). split; [reflexivity|].
  destruct (@record_roundtrip event_cbor sum_crc event_cbor_laws sum_crc_laws true sample_hdr
    (sample_entry 3) (Ok 24%N) (sample_hdr ++ sample_record 3)) as (_ & rec & E & Hr);
    [by apply sample_entry_wf|reflexivity|exact Hr].
Defined.

Lemma recover_torn_tail_witness :
  @recover_active event_cbor sum_crc true
    (sample_hdr ++ concat [sample_record 3; sample_record 4] ++ take 20 (sample_record 5)) 3 =
  Some (Ok ([24; 62]%N, 100%N, 2%N, sample_hdr ++ sample_record 3 ++ sample_record 4)).
Proof.
  rewrite (@recover_torn_tail event_cbor sum_crc event_cbor_laws sum_crc_laws true sample_hdr
    [sample_entry 3; sample_entry 4]); [reflexivity|reflexivity| | | |done| |done].
  - repeat constructor.
  - repeat constructor; by apply sample_entry_wf.
  - by intros [|[|i]] e Hi; simplify_eq/=.
  - right; right. exists (sample_entry 5), (drop 20 (sample_record 5)).
    split; [by apply sample_entry_wf|]. rewrite take_drop. by split.
Defined.

Lemma recover_any_witness :
  match @recover_active event_cbor sum_crc false (sample_hdr ++ sample_record 3 ++ [x05; xff]) 3 with
  | Some (Ok (ps, pos, n, file')) => ps = [24%N] /\ file' = sample_hdr ++ sample_record 3 /\
      @recover_active event_cbor sum_crc false file' 3 = Some (Ok (ps, pos, n, file'))
  | _ => False
  end.
Proof.
  pose proof (@recover_any event_cbor sum_crc event_cbor_laws false
    (sample_hdr ++ sample_record 3 ++ [x05; xff]) 3 ltac:(by vm_compute) ltac:(by vm_compute)) as H.
  assert (E : @recover_active event_cbor sum_crc false (sample_hdr ++ sample_record 3 ++ [x05; xff]) 3 =
    Some (Ok ([24%N], 62%N, 1%N, sample_hdr ++ sample_record 3))) by reflexivity.
  rewrite E in *. split; [done|]. split; [done|]. apply H.
Defined.

Lemma corrupt_length_panics_witness :
  @recover_active event_cbor sum_crc true (sample_hdr ++ corrupt_record ++ []) 3 = None.
Proof. by apply (@corrupt_length_panics event_cbor sum_crc sample_hdr [] 3). Defined.

Lemma read_header_iff_witness :
  read_header (sample_hdr ++ [x05]) = Ok {| base_offset := 3; created_at_ns := 5 |}.
Proof. by apply (read_header_iff [x05] {| base_offset := 3; created_at_ns := 5 |}). Defined.

Lemma index_roundtrip_witness : read_index "00.idx" (encode_index [24; 62]%N) = Ok [24; 62]%N.
Proof. apply (index_roundtrip "00.idx"); [repeat constructor; done|done]. Defined.
