(* ===== verification/SegmentFs.v ===== *)
(** The file system the segment log runs on, and the monad its operations are
    written in.

    The log's directory is a map from file names to contents.  Every I/O call
    consumes one outcome of a schedule: it succeeds, it fails (a write after a
    prefix of its bytes), or the process is killed there, after which no call
    has any effect: a killed run leaves exactly what a crash of the process
    leaves on disk.  What a power failure can take from the disk as well is
    the [cache]: the files whose last bytes are not synced, and the names whose
    directory entries are not ([power_loss]).

    [tokio]'s [write_all] hands its bytes to a thread.  The next call on the
    file waits for them, so that their effect is that of a write at the call;
    but an error of the thread is reported by the next write to the file only,
    not by [set_len], a seek or [sync_all], and the code never flushes.  Such a
    write [FailsLate]: the call succeeds, and the error stays [unreported].
    [prompt] worlds are those in which no write does; the rules below are for
    these, and [SegmentLate] has what happens in the others.

    [M S A] is a computation on a state that returns a [Result]; [None] is a
    panic. *)
From stdpp Require Import base gmap strings list option numbers pretty.
From Stdlib Require Import Strings.Byte.
From S2P Require Import Prelude EventModel EventLogPort SegmentFile.

(** ** The monad *)
Definition M (S A : Type) : Type := S -> option (result A StorageError * S).

Section Monad.
Context {S : Type}.

Definition mok {A} (a : A) : M S A := fun s => Some (Ok a, s).
Definition merr {A} (e : StorageError) : M S A := fun s => Some (Err e, s).
Definition mpanic {A} : M S A := fun _ => None.

(** [m?] and the rest of the function. *)
Definition mthen {A B} (m : M S A) (f : A -> M S B) : M S B := fun s =>
  match m s with
  | None => None
  | Some (Err e, s) => Some (Err e, s)
  | Some (Ok a, s) => f a s
  end.

(** The result of [m] as a value, for the code that matches on it. *)
Definition mtry {A} (m : M S A) : M S (result A StorageError) := fun s =>
  match m s with None => None | Some (r, s) => Some (Ok r, s) end.

Definition mget : M S S := fun s => Some (Ok s, s).
Definition mset (s : S) : M S () := fun _ => Some (Ok (), s).

(** A pure result, and a pure computation that may panic. *)
Definition mresult {A} (r : result A StorageError) : M S A := fun s => Some (r, s).
Definition mopt {A} (o : option A) : M S A :=
  match o with Some a => mok a | None => mpanic end.
End Monad.

Notation "x <- m ;; k" := (mthen m (fun x => k))
  (at level 100, m at next level, k at level 200, right associativity) : otk_scope.
Notation "m ;;; k" := (mthen m (fun _ => k))
  (at level 100, k at level 200, right associativity) : otk_scope.

(** *** Equations *)
Lemma mthen_assoc {S A B C} (m : M S A) (f : A -> M S B) (g : B -> M S C) s :
  mthen (mthen m f) g s = mthen m (fun a => mthen (f a) g) s.
Proof. unfold mthen. by destruct (m s) as [[[a|e] s']|]. Qed.

Lemma mthen_ext {S A B} (m : M S A) (f g : A -> M S B) s :
  (forall a s', f a s' = g a s') -> mthen m f s = mthen m g s.
Proof. intros E. unfold mthen. destruct (m s) as [[[a|e] s']|]; [apply E|done..]. Qed.

Lemma mthen_cong {S A B} (m m' : M S A) (f : A -> M S B) s : m s = m' s -> mthen m f s = mthen m' f s.
Proof. unfold mthen. by intros ->. Qed.

(** A computation on one part of the state. *)
Definition on_right {S W A} (m : M W A) : M (S * W) A := fun sw =>
  match m (snd sw) with
  | None => None
  | Some (r, w) => Some (r, (fst sw, w))
  end.

(** ** The world *)
Inductive fault :=
  | Succeeds
  | Fails (e : string) (written : nat)
  | Killed (written : nat)
  (** A write that fails after it was reported as done; any other call succeeds. *)
  | FailsLate (e : string) (written : nat).

(** What is not on stable storage: of a file in [unsynced] the bytes from the
    given one on, and the directory entries of the names in [unlisted]; and the
    error that an open file keeps for its next write. *)
Record Cache := {
  unsynced : gmap string N;
  unlisted : gset string;
  unreported : gmap string string
}.

(** A new process has none of the old one's open files. *)
Definition forgotten (c : Cache) : Cache :=
  {| unsynced := unsynced c; unlisted := unlisted c; unreported := ∅ |}.

Definition settled : Cache := {| unsynced := ∅; unlisted := ∅; unreported := ∅ |}.

Record World := {
  disk : gmap string bytes;
  schedule : list fault;
  dead : bool;
  clock : N;
  cache : Cache
}.

Definition with_disk (w : World) (d : gmap string bytes) : World :=
  {| disk := d; schedule := schedule w; dead := dead w; clock := clock w; cache := cache w |}.

Definition with_cache (w : World) (c : Cache) : World :=
  {| disk := disk w; schedule := schedule w; dead := dead w; clock := clock w; cache := c |}.

(** The disks a power failure can leave.  A synced file keeps its content, any
    other one the bytes that were synced. *)
Definition power_loss (w : World) (d : gmap string bytes) : Prop :=
  forall name, name ∉ unlisted (cache w) ->
    match disk w !! name with
    | None => d !! name = None
    | Some c => exists c', d !! name = Some c' /\
        match unsynced (cache w) !! name with
        | None => c' = c
        | Some k => take (N.to_nat k) c' = take (N.to_nat k) c
        end
    end.

(** The outcome of the next call: [None] to go ahead, or the error and how
    much of a write is done. *)
Definition next_fault (w : World) : option (string * nat) * World :=
  if dead w then (Some ("killed", 0%nat), w) else
  match schedule w with
  | [] => (None, w)
  | f :: fs =>
      let w' := {| disk := disk w; schedule := fs; dead := false; clock := clock w; cache := cache w |} in
      match f with
      | Succeeds | FailsLate _ _ => (None, w')
      | Fails e n => (Some (e, n), w')
      | Killed n => (Some ("killed", n),
                     {| disk := disk w; schedule := fs; dead := true; clock := clock w; cache := cache w |})
      end
  end.

(** A change of the cache, on the disk before the call. *)
Definition Mark : Type := gmap string bytes -> Cache -> Cache.

(** A call that changes the disk by [act] or reports an error of its own;
    [part n] is what it has done when it fails after [n] bytes.  [mark_part]
    and [mark] are what the cache holds then. *)
Definition io_mark {A} (mark_part mark : Mark) (part : nat -> gmap string bytes -> gmap string bytes)
    (act : gmap string bytes -> result (A * gmap string bytes) StorageError) : M World A := fun w =>
  match next_fault w with
  | (Some (e, n), w') =>
      Some (Err (Io e), with_cache (with_disk w' (part n (disk w)))
                          (if dead w then cache w else mark_part (disk w) (cache w)))
  | (None, w') =>
      match act (disk w) with
      | Ok (a, d) => Some (Ok a, with_cache (with_disk w' d) (mark (disk w) (cache w)))
      | Err e => Some (Err e, w')
      end
  end.

Definition unmarked : Mark := fun _ c => c.

(** The cache as it was. *)
Definition io_call {A} := io_mark (A := A) unmarked unmarked.

Definition no_part (n : nat) (d : gmap string bytes) : gmap string bytes := d.

Definition not_found : string := "NotFound".
Definition NotFound : StorageError := Io not_found.

Definition is_not_found (e : StorageError) : bool :=
  match e with Io k => bool_decide (k = not_found) | _ => false end.

(** [data] written at [pos]: what was there is replaced, a gap is filled with
    zeros. *)
Definition splice (pos : N) (data content : bytes) : bytes :=
  if bool_decide (data = []) then content else
  take (N.to_nat pos) content ++ repeat x00 (N.to_nat pos - length content) ++
  data ++ drop (N.to_nat pos + length data) content.

Definition resize (n : N) (content : bytes) : bytes :=
  take (N.to_nat n) content ++ repeat x00 (N.to_nat n - length content).

(** *** What the calls leave in the cache *)

(** A change of the content from [pos] on. *)
Definition dirty (name : string) (pos : N) : Mark := fun d c =>
  {| unsynced := <[name := N.min (default (len (default [] (d !! name))) (unsynced c !! name)) pos]> (unsynced c);
     unlisted := unlisted c; unreported := unreported c |}.

Definition synced (name : string) : Mark := fun _ c =>
  {| unsynced := delete name (unsynced c); unlisted := unlisted c; unreported := unreported c |}.

Definition dir_synced : Mark := fun _ c => {| unsynced := unsynced c; unlisted := ∅; unreported := unreported c |}.

(** A new handle has no error to report. *)
Definition reopened (name : string) : Mark := fun _ c =>
  {| unsynced := unsynced c; unlisted := unlisted c; unreported := delete name (unreported c) |}.

Definition created (name : string) : Mark := fun d c =>
  {| unsynced := <[name := 0%N]> (unsynced c);
     unlisted := match d !! name with Some _ => unlisted c | None => {[name]} ∪ unlisted c end;
     unreported := delete name (unreported c) |}.

(** A write went wrong after it was reported as done. *)
Definition failed_late (name e : string) : Mark := fun _ c =>
  {| unsynced := unsynced c; unlisted := unlisted c; unreported := <[name := e]> (unreported c) |}.

Definition removed (name : string) : Mark := fun _ c =>
  {| unsynced := delete name (unsynced c); unlisted := {[name]} ∪ unlisted c; unreported := unreported c |}.

Definition renamed (from to : string) : Mark := fun _ c =>
  {| unsynced := partial_alter (fun _ => unsynced c !! from) to (delete from (unsynced c));
     unlisted := {[from; to]} ∪ unlisted c; unreported := unreported c |}.

(** [OpenOptions::open] without [create]: the file must exist. *)
Definition fs_open (name : string) : M World () :=
  io_call no_part (fun d => match d !! name with Some _ => Ok ((), d) | None => Err NotFound end).

(** [create(true).truncate(true)] and [create(true).truncate(false)]. *)
Definition fs_create_truncate (name : string) : M World () :=
  io_mark unmarked (created name) no_part (fun d => Ok ((), <[name := []]> d)).
Definition fs_open_or_create (name : string) : M World () :=
  io_mark unmarked (fun d c => match d !! name with Some _ => reopened name d c | None => created name d c end) no_part (fun d =>
    match d !! name with Some _ => Ok ((), d) | None => Ok ((), <[name := []]> d) end).

(** [write_all] at [pos] of an open file: by how much its position moved.
    [write_now] reports what happened. *)
Definition write_now (name : string) (pos : N) (data : bytes) : M World N :=
  io_mark (dirty name pos) (dirty name pos) (fun n => alter (splice pos (take n data)) name)
          (fun d => Ok (len data, alter (splice pos data) name d)).

Definition fs_write (name : string) (pos : N) (data : bytes) : M World N := fun w =>
  match unreported (cache w) !! name with
  | Some e =>
      if dead w then Some (Err (Io "killed"), w)
      else Some (Err (Io e), with_cache w (reopened name (disk w) (cache w)))
  | None =>
      match dead w, schedule w with
      | false, FailsLate e n :: fs =>
          let data := take n data in
          Some (Ok (len data),
                {| disk := alter (splice pos data) name (disk w); schedule := fs; dead := false; clock := clock w;
                   cache := failed_late name e (disk w) (dirty name pos (disk w) (cache w)) |})
      | _, _ => write_now name pos data w
      end
  end.

Definition fs_set_len (name : string) (n : N) : M World () :=
  io_mark unmarked (dirty name n) no_part (fun d => Ok ((), alter (resize n) name d)).

(** A call without an effect on the disk. *)
Definition fs_mark (mark : Mark) : M World () := io_mark unmarked mark no_part (fun d => Ok ((), d)).

(** A seek, or the opening of the directory. *)
Definition fs_nop : M World () := fs_mark unmarked.

(** [sync_all] of a file, and of the directory. *)
Definition fs_sync (name : string) : M World () := fs_mark (synced name).
Definition fs_sync_dir : M World () := fs_mark dir_synced.

Definition fs_metadata_len (name : string) : M World N :=
  io_call no_part (fun d =>
    match d !! name with Some c => Ok (len c, d) | None => Err NotFound end).

(** [seek(End(0))] of an open file. *)
Definition fs_seek_end (name : string) : M World N :=
  io_call no_part (fun d => Ok (len (default [] (d !! name)), d)).

(** The content of a file, for the functions that read it. *)
Definition fs_read (name : string) : M World bytes :=
  io_call no_part (fun d => match d !! name with Some c => Ok (c, d) | None => Err NotFound end).

Definition fs_remove (name : string) : M World () :=
  io_mark unmarked (removed name) no_part (fun d =>
    match d !! name with Some _ => Ok ((), delete name d) | None => Err NotFound end).

Definition fs_rename (from to : string) : M World () :=
  io_mark unmarked (renamed from to) no_part (fun d =>
    match d !! from with
    | Some c => Ok ((), <[to := c]> (delete from d))
    | None => Err NotFound
    end).

Definition fs_read_dir : M World (list string) :=
  io_call no_part (fun d => Ok ((map_to_list d).*1, d)).

(** The best-effort fsync of the directory: its errors are ignored. *)
Definition fsync_dir : M World () :=
  r <- mtry fs_nop ;;
  match r with
  | Ok _ => mtry fs_sync_dir ;;; mok ()
  | Err _ => mok ()
  end.

Definition now_ns (readings : N -> N) : M World N := fun w =>
  Some (Ok (readings (clock w)),
        {| disk := disk w; schedule := schedule w; dead := dead w; clock := clock w + 1; cache := cache w |}).

(** ** Reasoning

    A state is [prompt] when no write fails late in it, before or after.
    [wp P m Q s]: [m] run in a prompt [s] ends in a prompt state and with a
    result that satisfy [Q], or it panics and [P] holds. *)
Definition is_late (f : fault) : bool := match f with FailsLate _ _ => true | _ => false end.

Class Prompt (S : Type) := prompt : S -> Prop.
#[export] Instance prompt_world : Prompt World := fun w =>
  Forall (fun f => is_late f = false) (schedule w) /\ unreported (cache w) = ∅.
#[export] Instance prompt_pair {S W} `{Prompt W} : Prompt (S * W) := fun s => prompt (snd s).

Definition wp {S A} `{Prompt S} (P : Prop) (m : M S A) (Q : result A StorageError -> S -> Prop) (s : S) : Prop :=
  prompt s -> match m s with Some (r, s') => prompt s' /\ Q r s' | None => P end.

Section Wp.
Context {S A B : Type} `{Prompt S} {P : Prop}.
Implicit Types (Q : result A StorageError -> S -> Prop) (R : result B StorageError -> S -> Prop).

Lemma wp_mono (m : M S A) Q Q' s :
  wp P m Q s -> (forall r s', Q r s' -> Q' r s') -> wp P m Q' s.
Proof.
  unfold wp. intros Hm HQ Hs. specialize (Hm Hs). destruct (m s) as [[r s']|]; [|done].
  destruct Hm as [Hp Hm]. split; [done|by apply HQ].
Qed.

Lemma wp_ok a Q s : Q (Ok a) s -> wp P (mok a) Q s.
Proof. by intros HQ Hs. Qed.

Lemma wp_err e Q s : Q (Err e) s -> wp P (merr e) Q s.
Proof. by intros HQ Hs. Qed.

Lemma wp_result r Q s : Q r s -> wp P (mresult r) Q s.
Proof. by intros HQ Hs. Qed.

(** The rule of [m?] followed by the rest: the result of [m] is described by
    [Q], and an error ends the function. *)
Lemma wp_then (m : M S A) (f : A -> M S B) Q R s :
  wp P m Q s ->
  (forall a s', Q (Ok a) s' -> wp P (f a) R s') ->
  (forall e s', Q (Err e) s' -> R (Err e) s') ->
  wp P (mthen m f) R s.
Proof.
  unfold wp, mthen. intros Hm Ho He Hs. specialize (Hm Hs).
  destruct (m s) as [[[a|e] s']|]; [..|done]; destruct Hm as [Hp HQ]; [by apply Ho|split; [done|by apply He]].
Qed.

Lemma wp_inv (m : M S A) Q s r s' : m s = Some (r, s') -> prompt s -> wp P m Q s -> prompt s' /\ Q r s'.
Proof. unfold wp. intros -> Hs Hm. by apply Hm. Qed.

(** What a step does whatever the rest of the world. *)
Lemma wp_run (m : M S A) (Q : result A StorageError -> S -> Prop) s :
  (prompt s -> exists r s', m s = Some (r, s') /\ prompt s' /\ Q r s') -> wp P m Q s.
Proof. intros Hm Hs. destruct (Hm Hs) as (r & s' & -> & ? & ?). done. Qed.
End Wp.

Lemma wp_and {S A} `{Prompt S} (P : Prop) (m : M S A) (Q Q' : result A StorageError -> S -> Prop) s :
  wp P m Q s -> wp P m Q' s -> wp P m (fun r s' => Q r s' /\ Q' r s') s.
Proof.
  unfold wp. intros H1 H2 Hs. specialize (H1 Hs). specialize (H2 Hs). destruct (m s) as [[r s']|]; [|done].
  destruct H1, H2. done.
Qed.

Lemma wp_try {S A} `{Prompt S} {P : Prop} (m : M S A) Q (s : S) :
  wp P m (fun r s' => Q (Ok r) s') s -> wp P (mtry m) Q s.
Proof. unfold wp, mtry. intros Hm Hs. specialize (Hm Hs). by destruct (m s) as [[r s']|]. Qed.

(** The rule of a call whose result is matched on. *)
Lemma wp_try_then {S A B} `{Prompt S} {P : Prop} (m : M S A) (f : result A StorageError -> M S B) Q R (s : S) :
  wp P m Q s -> (forall r s', Q r s' -> wp P (f r) R s') -> wp P (mthen (mtry m) f) R s.
Proof.
  unfold wp, mthen, mtry. intros Hm Hf Hs. specialize (Hm Hs). destruct (m s) as [[r s']|]; [|done].
  destruct Hm. by apply Hf.
Qed.

Lemma wp_get {S} `{Prompt S} {P : Prop} Q (s : S) : Q (Ok s) s -> wp P mget Q s.
Proof. by intros HQ Hs. Qed.

Lemma wp_opt_then {S A B} `{Prompt S} {P : Prop} (o : option A) (f : A -> M S B) R (s : S) :
  (o = None -> P) -> (forall a, o = Some a -> wp P (f a) R s) -> wp P (mthen (mopt o) f) R s.
Proof. destruct o as [a|]; simpl; intros HP Hf; [by apply Hf|intros _; by apply HP]. Qed.

Lemma wp_right {S W A} `{Prompt W} {P : Prop} (m : M W A) Q (l : S) (w : W) :
  wp P m (fun r w' => Q r (l, w')) w -> wp P (on_right m) Q (l, w).
Proof. unfold wp, on_right. intros Hm Hs. specialize (Hm Hs). simpl. by destruct (m w) as [[r w']|]. Qed.

(** *** The rule of an I/O call *)

(** No call is scheduled to fail. *)
Definition faultless (w : World) : Prop := schedule w = [] /\ dead w = false.

(** Nor has one failed unnoticed. *)
Definition healthy (w : World) : Prop := faultless w /\ unreported (cache w) = ∅.

Lemma healthy_prompt w : healthy w -> prompt w.
Proof. intros [[Hs _] Hu]. split; [by rewrite Hs|done]. Qed.

(** No scheduled failure claims that an existing file is not there. *)
Definition honest (w : World) : Prop := Forall (fun f => forall n, f <> Fails not_found n) (schedule w).

Lemma healthy_honest w : healthy w -> honest w.
Proof. intros [[E _] _]. unfold honest. by rewrite E. Qed.

(** From [w] to [w'] nothing new is scheduled to fail, and a dead process does
    nothing. *)
Definition later (w w' : World) : Prop :=
  (faultless w -> faultless w') /\ (honest w -> honest w') /\
  (dead w = true -> dead w' = true /\ disk w' = disk w).

Lemma later_refl w : later w w.
Proof. by split. Qed.

Lemma later_trans w1 w2 w3 : later w1 w2 -> later w2 w3 -> later w1 w3.
Proof.
  intros (H1 & O1 & D1) (H2 & O2 & D2). split; [tauto|]. split; [tauto|].
  intros Hd. destruct (D1 Hd) as [Hd2 E2]. destruct (D2 Hd2) as [? E3]. by rewrite E3, E2.
Qed.

Lemma later_healthy w w' : later w w' -> prompt w' -> healthy w -> healthy w'.
Proof. intros (Hf & _) [_ Hu] [Hw _]. split; [by apply Hf|done]. Qed.

(** The error [k] can come from the schedule of [w]. *)
Definition failure (w : World) (k : string) : Prop := ~ faultless w /\ (honest w -> k <> not_found).

(** What a call that is not a write does to the cache. *)
Class Reports (mark : Mark) : Prop :=
  reports d c : unreported c = ∅ -> unreported (mark d c) = ∅.

#[export] Instance reports_unmarked : Reports unmarked.
Proof. by intros d c. Qed.
#[export] Instance reports_dirty name pos : Reports (dirty name pos).
Proof. by intros d c. Qed.
#[export] Instance reports_synced name : Reports (synced name).
Proof. by intros d c. Qed.
#[export] Instance reports_dir_synced : Reports dir_synced.
Proof. by intros d c. Qed.
#[export] Instance reports_reopened name : Reports (reopened name).
Proof. intros d c H. simpl. rewrite H. apply delete_empty. Qed.
#[export] Instance reports_created name : Reports (created name).
Proof. intros d c H. simpl. rewrite H. apply delete_empty. Qed.
#[export] Instance reports_opened name :
  Reports (fun d c => match d !! name with Some _ => reopened name d c | None => created name d c end).
Proof. intros d c H. destruct (d !! name); by apply reports. Qed.
#[export] Instance reports_removed name : Reports (removed name).
Proof. by intros d c. Qed.
#[export] Instance reports_renamed from to : Reports (renamed from to).
Proof. by intros d c. Qed.

(** What a call can do: fail after part of its work, which is nothing when
    the process is dead, or act, which only a live process does. *)
Lemma wp_io {A P} mark_part mark `{!Reports mark_part} `{!Reports mark} part (act : gmap string bytes -> result (A * gmap string bytes) StorageError) Q w :
  (forall d, part 0%nat d = d) ->
  (forall e n w', later w w' -> failure w e -> disk w' = part n (disk w) -> Q (Err (Io e)) w') ->
  (forall w', later w w' -> dead w' = false ->
     match act (disk w) with
     | Ok (a, d) => disk w' = d -> Q (Ok a) w'
     | Err e => disk w' = disk w -> Q (Err e) w'
     end) ->
  wp P (io_mark mark_part mark part act) Q w.
Proof.
  intros H0 Hf Ha. unfold wp, io_mark, next_fault, with_cache, with_disk. destruct w as [d sch dd c ca].
  cbn [dead schedule disk clock cache] in *. intros [Hpr Hu]. cbn [schedule cache] in Hpr, Hu. rewrite Forall_forall in Hpr.
  assert (Hgo : forall sch', dd = false -> (sch = [] -> sch' = []) ->
    (forall f, f ∈ sch' -> f ∈ sch) ->
    match match act d with
          | Ok (a, d') => Some (Ok a, {| disk := d'; schedule := sch'; dead := dd; clock := c; cache := mark d ca |})
          | Err e => Some (Err e, {| disk := d; schedule := sch'; dead := dd; clock := c; cache := ca |})
          end with Some (r, s') => prompt s' /\ Q r s' | None => P end).
  { intros sch' -> Hs Hin.
    assert (Hl : forall d' ca', later {| disk := d; schedule := sch; dead := false; clock := c; cache := ca |}
                              {| disk := d'; schedule := sch'; dead := false; clock := c; cache := ca' |}).
    { intros d' ca'. split; [|split; [|done]].
      - intros [??]. split; simpl in *; auto.
      - unfold honest. simpl. rewrite !Forall_forall. auto. }
    assert (Hpr' : Forall (fun f => is_late f = false) sch') by (apply Forall_forall; auto).
    destruct (act d) as [[a d']|e] eqn:E.
    - split; [by split; [|apply reports]|].
      by apply (Ha {| disk := d'; schedule := sch'; dead := false; clock := c; cache := mark d ca |}).
    - split; [done|]. by apply (Ha {| disk := d; schedule := sch'; dead := false; clock := c; cache := ca |}). }
  assert (Hpart : forall n sch' dd' (k : string), (forall f, f ∈ sch' -> f ∈ sch) ->
    later {| disk := d; schedule := sch; dead := dd; clock := c; cache := ca |}
      {| disk := part n d; schedule := sch'; dead := dd'; clock := c; cache := if dd then ca else mark_part d ca |} ->
    failure {| disk := d; schedule := sch; dead := dd; clock := c; cache := ca |} k ->
    prompt {| disk := part n d; schedule := sch'; dead := dd'; clock := c; cache := if dd then ca else mark_part d ca |} /\
    Q (Err (Io k)) {| disk := part n d; schedule := sch'; dead := dd'; clock := c; cache := if dd then ca else mark_part d ca |}).
  { intros n sch' dd' k Hin Hl Hk. split; [|by eapply Hf].
    split; [apply Forall_forall; auto|]. simpl. destruct dd; [done|by apply reports]. }
  destruct dd; cbn [dead schedule disk clock cache].
  { apply Hpart; [done| |split; [by intros [_ ?]|done]].
    split; [by intros [_ ?]|split; [done|]]. intros _. simpl. by rewrite H0. }
  destruct sch as [|[|e n|n|e n] sch]; cbn [dead schedule disk clock cache].
  - by apply Hgo.
  - apply Hgo; [done..|]. intros f. apply list_elem_of_further.
  - apply Hpart; [intros f; apply list_elem_of_further| |split; [by intros [? _]|]].
    + split; [by intros [? _]|]. split; [|done]. by apply Forall_cons.
    + intros Ho ->. apply Forall_cons in Ho as [Ho _]. by apply (Ho n).
  - apply Hpart; [intros f; apply list_elem_of_further| |split; [by intros [? _]|done]].
    split; [by intros [? _]|]. split; [|done]. by apply Forall_cons.
  - by assert (is_late (FailsLate e n) = false) by (apply Hpr; left).
Qed.

(** In a prompt world a write reports what happened. *)
Lemma fs_write_prompt name pos data w : prompt w -> fs_write name pos data w = write_now name pos data w.
Proof.
  intros [Hl Hu]. unfold fs_write. rewrite Hu, lookup_empty. destruct (dead w); [done|].
  destruct (schedule w) as [|[]]; try done. by apply Forall_cons in Hl as [? _].
Qed.

Lemma wp_write_now {P} name pos data Q w : wp P (write_now name pos data) Q w -> wp P (fs_write name pos data) Q w.
Proof. unfold wp. intros Hw Hp. rewrite fs_write_prompt by done. by apply Hw. Qed.

(** *** Writes that fail late

    Only a write can fail late, or notice that one did: in the [heeded] world,
    where none does, everything else goes the same way. *)
Definition heed (f : fault) : fault := match f with FailsLate _ _ => Succeeds | _ => f end.

Definition heeded (w : World) : World :=
  {| disk := disk w; schedule := heed <$> schedule w; dead := dead w; clock := clock w;
     cache := forgotten (cache w) |}.

Lemma heeded_prompt w : prompt (heeded w).
Proof. split; [|done]. apply Forall_fmap, Forall_true. by intros []. Qed.

Lemma faultless_heeded w : faultless (heeded w) <-> faultless w.
Proof. unfold faultless. cbn [schedule dead heeded]. destruct (schedule w); split; by intros [? ?]. Qed.

Class Heed (S : Type) := heeded_state : S -> S.
#[export] Instance heed_world : Heed World := heeded.
#[export] Instance heed_pair {S W} `{Heed W} : Heed (S * W) := fun s => (fst s, heeded_state (snd s)).

Class Unheeding {S A} `{Heed S} (m : M S A) : Prop :=
  unheeding s : m (heeded_state s) = match m s with Some (r, s') => Some (r, heeded_state s') | None => None end.

Section Unheeding.
Context {S A : Type} `{Heed S}.
#[export] Instance unheeding_ok (a : A) : Unheeding (mok a).
Proof. done. Qed.
#[export] Instance unheeding_err e : Unheeding (merr (A := A) e).
Proof. done. Qed.
#[export] Instance unheeding_result (r : result A StorageError) : Unheeding (mresult r).
Proof. done. Qed.
#[export] Instance unheeding_opt (o : option A) : Unheeding (mopt o).
Proof. by destruct o. Qed.
#[export] Instance unheeding_then {B} (m : M S A) (f : A -> M S B) :
  Unheeding m -> (forall a, Unheeding (f a)) -> Unheeding (mthen m f).
Proof. intros Hm Hf s. unfold mthen. rewrite Hm. destruct (m s) as [[[a|e] s']|]; [apply Hf|done..]. Qed.
#[export] Instance unheeding_right {T} (m : M S A) : Unheeding m -> Unheeding (on_right (S := T) m).
Proof. intros Hm [t s]. unfold on_right. cbn. rewrite Hm. by destruct (m s) as [[r s']|]. Qed.
End Unheeding.

#[export] Instance unheeding_call {A} part (act : gmap string bytes -> result (A * gmap string bytes) StorageError) :
  Unheeding (io_call part act).
Proof.
  intros [d sch dd c ca]. unfold io_call, io_mark, next_fault, heeded_state, heed_world, heeded, with_cache, with_disk.
  destruct dd; [reflexivity|]. destruct (act d) as [[a d']|e] eqn:E; destruct sch as [|[] sch]; cbn; rewrite ?E; try reflexivity.
Qed.
#[export] Hint Extern 2 (Unheeding (match ?x with _ => _ end)) => destruct x : typeclass_instances.
#[export] Hint Extern 2 (Unheeding (fs_open _)) => apply unheeding_call : typeclass_instances.
#[export] Hint Extern 2 (Unheeding (fs_read _)) => apply unheeding_call : typeclass_instances.

(** ** The calls on a file whose content starts with a known prefix *)

(** The only error is a scheduled failure. *)
Definition io_error {A} (w : World) (r : result A StorageError) : Prop :=
  forall e, r = Err e -> exists k, e = Io k /\ failure w k.

Lemma io_error_ok {A} w (a : A) : io_error w (Ok a).
Proof. by intros e. Qed.

Lemma io_error_io {A} w k : failure w k -> @io_error A w (Err (Io k)).
Proof. intros Hn e [= <-]. eauto. Qed.

Lemma io_error_healthy {A} w (r : result A StorageError) : io_error w r -> faultless w -> exists a, r = Ok a.
Proof. destruct r as [a|e]; [by exists a|]. intros Hr Hh. by destruct (Hr e eq_refl) as (k & _ & Hn & _). Qed.

(** Without a scheduled failure there is no error. *)
Lemma io_error_never {A} w e : io_error (A := A) w (Err e) -> ~ faultless w.
Proof. intros Hr Hh. by destruct (Hr e eq_refl) as (k & _ & Hn & _). Qed.

Lemma io_error_later {A} w w' (r : result A StorageError) : later w w' -> io_error w' r -> io_error w r.
Proof.
  intros (Hh & Ho & _) Hr e He. destruct (Hr e He) as (k & -> & Hn & Hk). exists k. split; [done|].
  split; [tauto|]. auto.
Qed.

(** The type of the value does not matter to an error. *)
Lemma io_error_as {A B} w e : io_error (A := A) w (Err e) -> io_error (A := B) w (Err e).
Proof. intros Hr e' [= <-]. by apply Hr. Qed.

Lemma splice_app p data t : splice (len p) data (p ++ t) = p ++ splice 0 data t.
Proof.
  unfold splice. case_bool_decide; [done|]. unfold len. rewrite Nat2N.id, take_app_length, length_app.
  replace (length p - (length p + length t))%nat with 0%nat by lia. simpl.
  f_equal. f_equal. rewrite drop_app_ge by lia. f_equal. lia.
Qed.

Lemma splice_0 data t : splice 0 data t = data ++ drop (length data) t.
Proof. unfold splice. case_bool_decide as H; [by rewrite H|]. done. Qed.

Lemma resize_app p t : resize (len p) (p ++ t) = p.
Proof.
  unfold resize, len. rewrite Nat2N.id, take_app_length, length_app.
  replace (length p - (length p + length t))%nat with 0%nat by lia. apply app_nil_r.
Qed.

Lemma splice_nil pos c : splice pos [] c = c.
Proof. unfold splice. by rewrite bool_decide_eq_true_2. Qed.

Lemma alter_insert_eq (d : gmap string bytes) f name c :
  d !! name = Some c -> alter f name d = <[name := f c]> d.
Proof. intros Hd. apply map_eq. intros i. rewrite lookup_insert. case_decide; subst.
  - by rewrite lookup_alter_eq, Hd.
  - by rewrite lookup_alter_ne.
Qed.

Section Calls.
Context {P : Prop}.

(** A call that fails or not, without an effect on the disk. *)
Definition quiet {A} (w : World) (r : result A StorageError) (w' : World) : Prop :=
  later w w' /\ disk w' = disk w /\ io_error w r.

Lemma wp_nop mark `{!Reports mark} w : wp P (fs_mark mark) (quiet w) w.
Proof.
  apply wp_io; [apply _..|done| |].
  - intros e n w' Hl Hh Hd. split; [done|]. split; [done|by apply io_error_io].
  - intros w' Hl _ Hd. split; [done|]. split; [done|apply io_error_ok].
Qed.

Lemma wp_now readings w :
  wp P (now_ns readings) (fun r w' => quiet w r w' /\ exists n, r = Ok (readings n)) w.
Proof.
  intros Hp. unfold now_ns. split; [exact Hp|]. split; [|by eexists]. split; [by split|]. split; [done|apply io_error_ok].
Qed.

(** A write at the end of the prefix [p]. *)
Lemma wp_write path p t data w :
  disk w !! path = Some (p ++ t) ->
  wp P (fs_write path (len p) data) (fun r w' => later w w' /\ io_error w r /\
    exists t', disk w' = <[path := p ++ t']> (disk w) /\
      (forall n, r = Ok n -> n = len data /\ t' = data ++ drop (length data) t)) w.
Proof.
  intros Hd. apply wp_write_now, wp_io; [apply _..| | |].
  - intros d. apply alter_id. intros c _. apply splice_nil.
  - intros e n w' Hl Hh E. split; [done|]. split; [by apply io_error_io|].
    exists (splice 0 (take n data) t). by rewrite E, (alter_insert_eq _ _ _ _ Hd), splice_app.
  - intros w' Hl _ E. split; [done|]. split; [apply io_error_ok|].
    exists (data ++ drop (length data) t).
    rewrite E, (alter_insert_eq _ _ _ _ Hd), splice_app, splice_0. split; [done|]. by intros n [= <-].
Qed.

Lemma wp_set_len path p t w :
  disk w !! path = Some (p ++ t) ->
  wp P (fs_set_len path (len p)) (fun r w' => later w w' /\ io_error w r /\
    exists t', disk w' = <[path := p ++ t']> (disk w) /\ (r = Ok () -> t' = [])) w.
Proof.
  intros Hd. apply wp_io; [apply _..|done| |].
  - intros e n w' Hl Hh E. split; [done|]. split; [by apply io_error_io|]. exists t.
    by rewrite E, insert_id.
  - intros w' Hl _ E. split; [done|]. split; [apply io_error_ok|]. exists [].
    by rewrite E, (alter_insert_eq _ _ _ _ Hd), resize_app, app_nil_r.
Qed.

(** A write at the end of the file [p]. *)
Lemma wp_append path p data w :
  disk w !! path = Some p ->
  wp P (fs_write path (len p) data) (fun r w' => later w w' /\ io_error w r /\
    exists n, disk w' = <[path := p ++ take n data]> (disk w) /\
      (forall m, r = Ok m -> m = len data /\ take n data = data)) w.
Proof.
  intros Hd. rewrite <- (app_nil_r p) in Hd.
  assert (Hs : forall data', alter (splice (len p) data') path (disk w) = <[path := p ++ data']> (disk w)).
  { intros data'. rewrite (alter_insert_eq _ _ _ _ Hd), splice_app, splice_0, drop_nil. by rewrite app_nil_r. }
  apply wp_write_now, wp_io; [apply _..| | |].
  - intros d. apply alter_id. intros c _. apply splice_nil.
  - intros e n w' Hl Hh E. split; [done|]. split; [by apply io_error_io|]. exists n. by rewrite E, Hs.
  - intros w' Hl _ E. split; [done|]. split; [apply io_error_ok|]. exists (length data).
    rewrite firstn_all, E, Hs. split; [done|]. by intros m [= <-].
Qed.

(** A cut back to the prefix [p]. *)
Lemma wp_cut path p t w :
  disk w !! path = Some (p ++ t) ->
  wp P (fs_set_len path (len p)) (fun r w' => later w w' /\ io_error w r /\
    disk w' = match r with Ok _ => <[path := p]> (disk w) | Err _ => disk w end) w.
Proof.
  intros Hd. apply wp_io; [apply _..|done| |].
  - intros e n w' Hl Hh E. split; [done|]. by split; [by apply io_error_io|].
  - intros w' Hl _ E. split; [done|]. split; [apply io_error_ok|].
    by rewrite E, (alter_insert_eq _ _ _ _ Hd), resize_app.
Qed.

Lemma wp_metadata_len path c w :
  disk w !! path = Some c ->
  wp P (fs_metadata_len path) (fun r w' => quiet w r w' /\ forall n, r = Ok n -> n = len c) w.
Proof.
  intros Hd. apply wp_io; [apply _..|done| |].
  - intros e n w' Hl Hh E. split; [|done]. split; [done|]. split; [done|by apply io_error_io].
  - intros w' Hl _. rewrite Hd. intros E. split; [|by intros n [= <-]].
    split; [done|]. split; [done|apply io_error_ok].
Qed.

Lemma wp_seek_end path c w :
  disk w !! path = Some c ->
  wp P (fs_seek_end path) (fun r w' => quiet w r w' /\ forall n, r = Ok n -> n = len c) w.
Proof.
  intros Hd. apply wp_io; [apply _..|done| |].
  - intros e n w' Hl Hh E. split; [|done]. split; [done|]. split; [done|by apply io_error_io].
  - intros w' Hl _. rewrite Hd. intros E. split; [|by intros n [= <-]].
    split; [done|]. split; [done|apply io_error_ok].
Qed.

Lemma wp_read path c w :
  disk w !! path = Some c ->
  wp P (fs_read path) (fun r w' => quiet w r w' /\ forall b, r = Ok b -> b = c) w.
Proof.
  intros Hd. apply wp_io; [apply _..|done| |].
  - intros e n w' Hl Hh E. split; [|done]. split; [done|]. split; [done|by apply io_error_io].
  - intros w' Hl _. rewrite Hd. intros E. split; [|by intros n [= <-]].
    split; [done|]. split; [done|apply io_error_ok].
Qed.

Lemma wp_open path c w : disk w !! path = Some c -> wp P (fs_open path) (quiet w) w.
Proof.
  intros Hd. apply wp_io; [apply _..|done| |].
  - intros e n w' Hl Hh E. split; [done|]. split; [done|by apply io_error_io].
  - intros w' Hl _. rewrite Hd. intros E. split; [done|]. split; [done|apply io_error_ok].
Qed.

Lemma wp_create_truncate path w :
  wp P (fs_create_truncate path) (fun r w' => later w w' /\ io_error w r /\
    disk w' = match r with Ok _ => <[path := []]> (disk w) | Err _ => disk w end) w.
Proof.
  apply wp_io; [apply _..|done| |].
  - intros e n w' Hl Hh E. split; [done|]. split; [by apply io_error_io|done].
  - intros w' Hl _ E. split; [done|]. split; [apply io_error_ok|done].
Qed.

(** Removing may also fail because the file is not there. *)
Lemma wp_remove path w :
  wp P (fs_remove path) (fun r w' => later w w' /\
    match r with
    | Ok _ => disk w' = delete path (disk w)
    | Err e => disk w' = disk w /\
        (io_error (A := ()) w (Err e) \/ disk w !! path = None /\ e = NotFound)
    end) w.
Proof.
  apply wp_io; [apply _..|done| |].
  - intros e n w' Hl Hh E. split; [done|]. split; [done|]. left. by apply io_error_io.
  - intros w' Hl _. destruct (disk w !! path) eqn:E; intros E'; (split; [done|]); [done|by split; [|right]].
Qed.

Lemma wp_rename from to c w :
  disk w !! from = Some c ->
  wp P (fs_rename from to) (fun r w' => later w w' /\ io_error w r /\
    disk w' = match r with Ok _ => <[to := c]> (delete from (disk w)) | Err _ => disk w end) w.
Proof.
  intros Hd. apply wp_io; [apply _..|done| |].
  - intros e n w' Hl Hh E. split; [done|]. split; [by apply io_error_io|done].
  - intros w' Hl _. rewrite Hd. intros E. split; [done|]. split; [apply io_error_ok|done].
Qed.

Lemma wp_fsync_dir w :
  wp P fsync_dir (fun r w' => later w w' /\ disk w' = disk w /\ r = Ok ()) w.
Proof.
  unfold fsync_dir. eapply wp_try_then; [apply wp_nop, _|].
  intros [[]|e] w1 (Hl1 & Hd1 & _); [|by apply wp_ok].
  eapply wp_try_then; [apply wp_nop, _|]. intros _ w2 (Hl2 & Hd2 & _).
  apply wp_ok. split; [by eapply later_trans|]. split; [congruence|done].
Qed.
End Calls.

(** *** Steps that succeed unless a call fails

    [steps D m V w]: [m] does not panic; it succeeds with a value and a world
    that satisfy [V], or a scheduled failure ends it and the disk is in [D]. *)
Definition steps {A} (D : gmap string bytes -> Prop) (m : M World A) (V : A -> World -> Prop) (w : World) : Prop :=
  wp False m (fun r w' => later w w' /\ io_error w r /\
    match r with Ok a => V a w' | Err _ => D (disk w') end) w.

(** The disk is [d], and existing files are not reported as missing. *)
Definition at_disk (d : gmap string bytes) (w : World) : Prop := disk w = d /\ honest w.

Section StepRules.
Context {D : gmap string bytes -> Prop}.

Lemma steps_ok {A} (a : A) (V : A -> World -> Prop) w : V a w -> steps D (mok a) V w.
Proof. intros HV. apply wp_ok. split; [apply later_refl|]. split; [apply io_error_ok|done]. Qed.

Lemma steps_then {A B} (m : M World A) (f : A -> M World B) V w :
  steps D m (fun a => steps D (f a) V) w -> steps D (mthen m f) V w.
Proof.
  intros Hm. unfold steps. eapply wp_then; [exact Hm|..].
  - intros a w1 (Hl1 & _ & Hf). eapply wp_mono; [exact Hf|]. intros r w2 (Hl2 & Hr2 & HV).
    split; [by eapply later_trans|]. split; [by eapply io_error_later|done].
  - intros e w1 (Hl1 & Hr1 & HD). split; [done|]. split; [|done]. intros e' [= <-]. by apply Hr1.
Qed.

(** A call whose error is passed on by the code that matches on it. *)
Lemma steps_try_then {A B} (m : M World A) (f : result A StorageError -> M World B) V w :
  steps D m (fun a => steps D (f (Ok a)) V) w ->
  (forall e w', later w w' -> io_error (A := ()) w (Err e) -> D (disk w') -> f (Err e) w' = merr e w') ->
  steps D (mthen (mtry m) f) V w.
Proof.
  intros Hm He. unfold steps. eapply wp_try_then; [exact Hm|]. intros [a|e] w1 (Hl1 & Hr1 & H1).
  - eapply wp_mono; [exact H1|]. intros r w2 (Hl2 & Hr2 & HV).
    split; [by eapply later_trans|]. split; [by eapply io_error_later|done].
  - assert (Hio : forall A', io_error (A := A') w (Err e)) by (intros A' e' [= <-]; by apply Hr1).
    intros Hp. rewrite He by done. done.
Qed.

Lemma steps_weaken {A} (m : M World A) (V V' : A -> World -> Prop) w :
  steps D m V w -> (forall a w', V a w' -> V' a w') -> steps D m V' w.
Proof. intros Hm HV. eapply wp_mono; [exact Hm|]. intros [a|e] w' (Hl & Hr & H); auto. Qed.

Lemma steps_now readings (V : N -> World -> Prop) w d :
  at_disk d w -> (forall n w', at_disk d w' -> V (readings n) w') -> steps D (now_ns readings) V w.
Proof.
  intros [Hd Ho] HV. eapply wp_mono; [apply wp_now|]. intros r w' ((Hl & Hd' & Hr) & n & ->).
  split; [done|]. split; [done|]. apply HV. split; [congruence|]. destruct Hl as (_ & Hho & _). by apply Hho.
Qed.

Section Read.
Context (d : gmap string bytes) (HD : D d).

Lemma steps_io {A} mark `{!Reports mark} (act : gmap string bytes -> result (A * gmap string bytes) StorageError) a d' V w :
  at_disk d w -> act d = Ok (a, d') -> (forall w', at_disk d' w' -> V a w') ->
  steps D (io_mark unmarked mark no_part act) V w.
Proof.
  intros [Hd Ho] E HV. apply wp_io; [apply _..|done| |].
  - intros e n w' Hl Hf Hd'. split; [done|]. split; [by apply io_error_io|]. by rewrite Hd', Hd.
  - intros w' Hl _. rewrite Hd, E. intros Hd'. split; [done|]. split; [apply io_error_ok|].
    apply HV. split; [done|]. destruct Hl as (_ & Hho & _). by apply Hho.
Qed.

Lemma steps_nop mark `{!Reports mark} V w : at_disk d w -> (forall w', at_disk d w' -> V () w') -> steps D (fs_mark mark) V w.
Proof. intros Hw. by apply (steps_io _ _ _ d). Qed.

Lemma steps_open path V w :
  at_disk d w -> is_Some (d !! path) -> (forall w', at_disk d w' -> V () w') -> steps D (fs_open path) V w.
Proof. intros Hw [c E]. apply (steps_io _ _ _ d); [done|]. by rewrite E. Qed.

Lemma steps_open_or_create path V w :
  at_disk d w -> is_Some (d !! path) -> (forall w', at_disk d w' -> V () w') -> steps D (fs_open_or_create path) V w.
Proof. intros Hw [c E]. apply (steps_io _ _ _ d); [done|]. by rewrite E. Qed.

Lemma steps_metadata_len path c V w :
  at_disk d w -> d !! path = Some c -> (forall w', at_disk d w' -> V (len c) w') -> steps D (fs_metadata_len path) V w.
Proof. intros Hw E. apply (steps_io _ _ _ d); [done|]. by rewrite E. Qed.

Lemma steps_read path c V w :
  at_disk d w -> d !! path = Some c -> (forall w', at_disk d w' -> V c w') -> steps D (fs_read path) V w.
Proof. intros Hw E. apply (steps_io _ _ _ d); [done|]. by rewrite E. Qed.

Lemma steps_cut path p t V w :
  at_disk d w -> d !! path = Some (p ++ t) -> (forall w', at_disk (<[path := p]> d) w' -> V () w') ->
  steps D (fs_set_len path (len p)) V w.
Proof.
  intros Hw E. apply (steps_io _ _ _ (<[path := p]> d)); [done|].
  by rewrite (alter_insert_eq _ _ _ _ E), resize_app.
Qed.

(** A write may leave part of its data. *)
Lemma steps_append path p data V w :
  at_disk d w -> d !! path = Some p -> (forall n, D (<[path := p ++ take n data]> d)) ->
  (forall w', at_disk (<[path := p ++ data]> d) w' -> V (len data) w') -> steps D (fs_write path (len p) data) V w.
Proof.
  intros [Hd Ho] E Hpart HV. eapply wp_mono; [apply (wp_append path p); by rewrite Hd|].
  intros r w' (Hl & Hr & n & Hd' & Hn). split; [done|]. split; [done|]. rewrite Hd in Hd'. destruct r as [m|e].
  - destruct (Hn _ eq_refl) as [-> E']. rewrite E' in Hd'. apply HV. split; [done|]. destruct Hl as (_ & Hho & _). by apply Hho.
  - rewrite Hd'. apply Hpart.
Qed.
End Read.
End StepRules.

(** When nothing fails, steps succeed. *)
Lemma steps_healthy {A} D (m : M World A) V w :
  steps D m V w -> healthy w -> exists a w', m w = Some (Ok a, w') /\ healthy w' /\ V a w'.
Proof.
  unfold steps, wp. intros Hm Hh. specialize (Hm (healthy_prompt _ Hh)).
  destruct (m w) as [[r w']|]; [|done]. destruct Hm as ([_ Hu] & Hl & Hr & HV), Hh as [Hf _].
  destruct (io_error_healthy _ _ Hr Hf) as [a ->]. exists a, w'. split; [done|]. split; [|done].
  split; [by apply Hl|done].
Qed.

Lemma honest_found {A} w e : honest w -> io_error (A := A) w (Err e) -> is_not_found e = false.
Proof.
  intros Ho Hr. destruct (Hr e eq_refl) as (k & -> & _ & Hk). simpl. apply bool_decide_eq_false_2. auto.
Qed.

(** A call on a file that is not there, by code that has a branch for it. *)
Lemma steps_missing {A B} {D : gmap string bytes -> Prop} d
    (act : gmap string bytes -> result (A * gmap string bytes) StorageError)
    (f : result A StorageError -> M World B) V w :
  at_disk d w -> D d -> act d = Err NotFound ->
  (forall e w', is_not_found e = false -> f (Err e) w' = merr e w') ->
  (forall w', at_disk d w' -> steps D (f (Err NotFound)) V w') ->
  steps D (mthen (mtry (io_call no_part act)) f) V w.
Proof.
  intros [Hd Ho] HD E Hmerr HV. unfold steps.
  eapply wp_try_then with (Q := fun r w' => later w w' /\ disk w' = d /\
    (r = Err NotFound \/ exists e, r = Err e /\ io_error (A := A) w (Err e))).
  { apply wp_io; [apply _..|done| |].
    - intros e n w' Hl Hf Hd'. split; [done|]. split; [by rewrite Hd', Hd|]. right. eexists. split; [done|by apply io_error_io].
    - intros w' Hl _. rewrite Hd, E. intros Hd'. split; [done|]. split; [done|by left]. }
  intros r w1 (Hl1 & Hd1 & [->|(e & -> & Hr)]).
  - assert (Hw1 : at_disk d w1) by (split; [done|]; destruct Hl1 as (_ & Hho & _); by apply Hho).
    eapply wp_mono; [by apply HV|]. intros r w2 (Hl2 & Hr2 & HV2).
    split; [by eapply later_trans|]. split; [by eapply io_error_later|done].
  - intros Hp. rewrite Hmerr by by eapply honest_found. simpl. split; [done|]. split; [done|]. split; [|by rewrite Hd1].
    intros e' [= <-]. by apply Hr.
Qed.
