(* ===== verification/SegmentLog.v ===== *)
(** The segment log (crate [adapter-event-log-segment], [config.rs] and
    [log.rs]): opening a directory, appending batches, rolling segments,
    retention, the watermark, and reading ranges.

    Every operation runs in the monad [M] of [SegmentFs], whose schedule can
    make any I/O call fail or kill the process.  Paths are file names in the
    log's directory.  A file handle is its name; the active one also has its
    cursor, [None] where a failed read has left it (nothing writes before it
    is set again).  Reading one record is one I/O call.  [now] gives the
    readings of the clock.  [overflow_checks] is as in [SegmentFile]. *)
From stdpp Require Import base gmap strings list option numbers pretty sorting.
From Stdlib Require Import Strings.Byte.
From S2P Require Import Prelude EventModel EventLogPort SegmentFile SegmentFs.

(** ** Names *)
Definition digit (d : N) : byte := byte_of_N (48 + d).

(** [{:020}] of a [u64]: twenty decimal digits. *)
Fixpoint dec_digits (k : nat) (n : N) : bytes :=
  match k with
  | O => []
  | S k => dec_digits k (n / 10) ++ [digit (n mod 10)]
  end.

Definition seg_name (base : N) : string := bytes_str (dec_digits 20 base ++ str_bytes ".seg").
Definition idx_name (base : N) : string := bytes_str (dec_digits 20 base ++ str_bytes ".idx").
Definition WATERMARK : string := "WATERMARK".

Definition strip_suffix (suffix bs : bytes) : option bytes :=
  let n := (length bs - length suffix)%nat in
  if bool_decide (drop n bs = suffix) then Some (take n bs) else None.

(** [str::parse::<u64>]: an optional plus sign and at least one digit. *)
Definition parse_digits (bs : bytes) : option N :=
  if bool_decide (bs = []) then None else
  foldl (fun acc b =>
    let! n := acc in
    if in_range 48 57 b then
      let m := (10 * n + (Byte.to_N b - 48))%N in
      if (m <=? u64_max)%N then Some m else None
    else None) (Some 0%N) bs.

Definition parse_u64 (bs : bytes) : option N :=
  match bs with
  | b :: bs' => if bool_decide (b = x2b) then parse_digits bs' else parse_digits bs
  | [] => None
  end.

(** The base offset of a canonical segment file name. *)
Definition seg_base (name : string) : option N :=
  let! stem := strip_suffix (str_bytes ".seg") (str_bytes name) in
  if negb (length stem =? 20)%nat then None else
  let! base := parse_u64 stem in
  if bool_decide (dec_digits 20 base = stem) then Some base else None.

(** ** State *)
Record SegmentLogConfig := {
  max_segment_bytes : N;
  max_segment_age_secs : N;
  flush_interval_ms : N;
  retention : RetentionPolicy
}.

Definition default_log_config : SegmentLogConfig :=
  {| max_segment_bytes := 64 * 1024 * 1024; max_segment_age_secs := 3600;
     flush_interval_ms := 0; retention := Indefinite |}.

Record ClosedSegment := {
  cs_base_offset : N;
  last_offset : N;
  cs_last_appended_at_ns : N;
  cs_byte_size : N;
  cs_path : string;
  cs_positions : list N
}.

Record ActiveSegment := {
  as_base_offset : N;
  as_path : string;
  cursor : option N;
  as_positions : list N;
  as_byte_size : N;
  as_created_at_ns : N;
  next_file_pos : N;
  as_last_appended_at_ns : N
}.

Record SegmentLog := {
  config : SegmentLogConfig;
  closed : list ClosedSegment;
  active : option ActiveSegment;
  next_offset : N;
  (** How often [notify_waiters] was called. *)
  notified : N;
  poisoned : bool
}.

Definition set_closed (l : SegmentLog) (c : list ClosedSegment) : SegmentLog :=
  {| config := config l; closed := c; active := active l; next_offset := next_offset l;
     notified := notified l; poisoned := poisoned l |}.

Definition set_active (l : SegmentLog) (a : option ActiveSegment) : SegmentLog :=
  {| config := config l; closed := closed l; active := a; next_offset := next_offset l;
     notified := notified l; poisoned := poisoned l |}.

Definition poison (l : SegmentLog) : SegmentLog :=
  {| config := config l; closed := closed l; active := active l; next_offset := next_offset l;
     notified := notified l; poisoned := true |}.

Definition set_cursor (a : ActiveSegment) (c : option N) : ActiveSegment :=
  {| as_base_offset := as_base_offset a; as_path := as_path a; cursor := c;
     as_positions := as_positions a; as_byte_size := as_byte_size a;
     as_created_at_ns := as_created_at_ns a; next_file_pos := next_file_pos a;
     as_last_appended_at_ns := as_last_appended_at_ns a |}.

(** ** Checked arithmetic: [a + b] and [a - b] on [u64]. *)
Definition add64 (overflow_checks : bool) (a b : N) : option N :=
  if (a + b <=? u64_max)%N then Some (a + b)%N
  else if overflow_checks then None else Some ((a + b) mod (u64_max + 1))%N.

Definition sub64 (overflow_checks : bool) (a b : N) : option N :=
  if (b <=? a)%N then Some (a - b)%N
  else if overflow_checks then None else Some (a + (u64_max + 1) - b)%N.

(** [iter().sum::<u64>()]. *)
Definition sum64 (overflow_checks : bool) (ns : list N) : option N :=
  foldl (fun acc n => let! a := acc in add64 overflow_checks a n) (Some 0%N) ns.

Definition idx_tmp_name (base : N) : string :=
  bytes_str (dec_digits 20 base ++ str_bytes ".idx.tmp").
Definition WATERMARK_TMP : string := "WATERMARK.tmp".

(** ** File-level operations *)
Section Files.
Context `{CborEvent : Cbor OtkEvent} `{Crc : Crc32}.
Variable overflow_checks : bool.

(** [write_record] at the cursor [cur]: the record's position and the new
    cursor. *)
Definition write_record_at (path : string) (cur : N) (entry : LogEntry) : M World (N * N) :=
  buf <- mresult (encode_record entry) ;;
  fs_nop ;;;
  r <- mtry (fs_write path cur buf) ;;
  match r with
  | Ok n => mok (cur, (cur + n)%N)
  | Err e => mtry (fs_set_len path cur) ;;; merr e
  end.

Definition read_record_at (path : string) (pos : N) : M World LogEntry :=
  content <- fs_read path ;;
  r <- mopt (read_record overflow_checks content pos) ;;
  mresult r.

Definition write_index (base : N) (positions : list N) : M World () :=
  fs_create_truncate (idx_tmp_name base) ;;;
  fs_write (idx_tmp_name base) 0 (encode_index positions) ;;;
  fs_sync (idx_tmp_name base) ;;;
  fs_rename (idx_tmp_name base) (idx_name base) ;;;
  fsync_dir.

Definition delete_segment (seg_path idx_path : string) : M World () :=
  r <- mtry (fs_remove seg_path) ;;
  match r with
  | Err e => if is_not_found e then mok () else merr e
  | Ok _ => mok ()
  end ;;;
  mtry (fs_remove idx_path) ;;;
  fsync_dir.

Definition write_watermark (next_offset : N) : M World () :=
  fs_create_truncate WATERMARK_TMP ;;;
  fs_write WATERMARK_TMP 0 (to_le_bytes 8 next_offset) ;;;
  fs_sync WATERMARK_TMP ;;;
  fs_rename WATERMARK_TMP WATERMARK ;;;
  fsync_dir.

Definition read_watermark : M World (option N) :=
  r <- mtry (fs_open WATERMARK) ;;
  match r with
  | Err e => if is_not_found e then mok None else merr e
  | Ok _ =>
      content <- fs_read WATERMARK ;;
      match read_exact 8 content with
      | Ok (buf, _) => mok (Some (from_le_bytes buf))
      | Err _ => mok None
      end
  end.
End Files.

(** ** The log *)
Section Log.
Context `{CborEvent : Cbor OtkEvent} `{Crc : Crc32}.
Variable overflow_checks : bool.
Variable now : N -> N.

Abbreviation LM := (M (SegmentLog * World)).
Abbreviation add := (add64 overflow_checks).
Abbreviation sub := (sub64 overflow_checks).

Definition getl : LM SegmentLog := s <- mget ;; mok (fst s).
Definition modl (f : SegmentLog -> SegmentLog) : LM () := s <- mget ;; mset (f (fst s), snd s).
Definition fs {A} (m : M World A) : LM A := on_right m.

Definition map_active (f : ActiveSegment -> ActiveSegment) (l : SegmentLog) : SegmentLog :=
  set_active l (f <$> active l).

(** [file.seek(Start(pos))] on the active file. *)
Definition seek_active (pos : N) : LM () :=
  fs fs_nop ;;; modl (map_active (fun a => set_cursor a (Some pos))).

Definition ensure_active : LM () :=
  l <- getl ;;
  match active l with
  | Some _ => mok ()
  | None =>
      let base := next_offset l in
      let path := seg_name base in
      ts <- fs (now_ns now) ;;
      fs (fs_create_truncate path) ;;;
      n <- fs (fs_write path 0 (encode_header {| base_offset := base; created_at_ns := ts |})) ;;
      fs fsync_dir ;;;
      modl (fun l => set_active l (Some
        {| as_base_offset := base; as_path := path; cursor := Some n; as_positions := [];
           as_byte_size := 0; as_created_at_ns := ts; next_file_pos := HEADER_LEN;
           as_last_appended_at_ns := 0 |}))
  end.

(** ** Retention *)
Definition pop_front : LM () := modl (fun l => set_closed l (tail (closed l))).

(** The loop of time-based retention over [self.closed.front()]. *)
Fixpoint evict_older (cutoff : N) (segs : list ClosedSegment) : LM () :=
  match segs with
  | seg :: segs =>
      if (cs_last_appended_at_ns seg <? cutoff)%N then
        fs (delete_segment (cs_path seg) (idx_name (cs_base_offset seg))) ;;;
        pop_front ;;;
        evict_older cutoff segs
      else mok ()
  | [] => mok ()
  end.

Fixpoint evict_larger (max_bytes total : N) (segs : list ClosedSegment) : LM () :=
  if (max_bytes <? total)%N then
    match segs with
    | front :: segs =>
        fs (delete_segment (cs_path front) (idx_name (cs_base_offset front))) ;;;
        pop_front ;;;
        evict_larger max_bytes (saturating_sub total (cs_byte_size front)) segs
    | [] => mok ()
    end
  else mok ().

Definition enforce_age (max_age_secs : N) : LM () :=
  t <- fs (now_ns now) ;;
  let cutoff := saturating_sub t (saturating_mul64 max_age_secs 1000000000) in
  l <- getl ;;
  evict_older cutoff (closed l).

Definition enforce_size (max_bytes : N) : LM () :=
  l <- getl ;;
  sum <- mopt (sum64 overflow_checks (cs_byte_size <$> closed l)) ;;
  total <- mopt (add sum (from_option as_byte_size 0%N (active l))) ;;
  evict_larger max_bytes total (closed l).

Definition enforce_retention : LM () :=
  l <- getl ;;
  match retention (config l) with
  | Indefinite => mok ()
  | TimeBased max_age_secs => enforce_age max_age_secs
  | SizeBased max_bytes => enforce_size max_bytes
  | Hybrid max_age_secs max_bytes => enforce_age max_age_secs ;;; enforce_size max_bytes
  end.

(** ** Rolling *)
Definition should_roll : LM bool :=
  l <- getl ;;
  match active l with
  | None => mok false
  | Some active =>
      if (max_segment_bytes (config l) <=? as_byte_size active)%N then mok true else
      t <- fs (now_ns now) ;;
      let elapsed_ns := saturating_sub t (as_created_at_ns active) in
      mok (saturating_mul64 (max_segment_age_secs (config l)) 1000000000 <=? elapsed_ns)%N
  end.

(** Undo a sentinel at [sentinel_pos]; both errors are ignored. *)
Definition undo_sentinel (path : string) (sentinel_pos : N) : LM () :=
  mtry (fs (fs_set_len path sentinel_pos)) ;;;
  mtry (seek_active sentinel_pos) ;;;
  mok ().

(** A segment with records becomes closed: sync, sentinel, index. *)
Definition close_active (a : ActiveSegment) : LM () :=
  let path := as_path a in
  fs (fs_sync path) ;;;
  let sentinel_pos := next_file_pos a in
  cur <- mopt (cursor a) ;;
  r <- mtry (fs (fs_write path cur (to_le_bytes 4 0))) ;;
  match r with
  | Err e => modl (map_active (fun a => set_cursor a None)) ;;; merr e
  | Ok n => modl (map_active (fun a => set_cursor a (Some (cur + n)%N)))
  end ;;;
  r <- mtry (fs (fs_sync path)) ;;
  match r with
  | Err e => undo_sentinel path sentinel_pos ;;; merr e
  | Ok _ => mok ()
  end ;;;
  r <- mtry (fs (write_index (as_base_offset a) (as_positions a))) ;;
  match r with
  | Err e => undo_sentinel path sentinel_pos ;;; merr e
  | Ok _ => mok ()
  end ;;;
  r <- mtry (fs (fs_metadata_len path)) ;;
  let seg_size := match r with Ok n => n | Err _ => next_file_pos a end in
  n <- mopt (add (as_base_offset a) (len (as_positions a))) ;;
  last <- mopt (sub n 1) ;;
  modl (fun l => set_closed (set_active l None) (closed l ++
    [{| cs_base_offset := as_base_offset a; last_offset := last;
        cs_last_appended_at_ns := as_last_appended_at_ns a; cs_byte_size := seg_size;
        cs_path := path; cs_positions := as_positions a |}])).

Definition roll_active (a : ActiveSegment) : LM () :=
  close_active a ;;;
  l <- getl ;;
  fs (write_watermark (next_offset l)) ;;;
  enforce_retention.

Definition roll_segment : LM () :=
  l <- getl ;;
  match active l with
  | None => mok ()
  | Some a =>
      if bool_decide (as_positions a = []) then
        modl (fun l => set_active l None) ;;;
        mtry (fs (fs_remove (as_path a))) ;;;
        mok ()
      else roll_active a
  end.

(** ** Appending *)

(** The loop over the events: the cursor, the next offset and the positions
    of the new records. *)
Fixpoint append_events (producer_id : string) (ts : N) (path : string) (batch_start : N)
    (events : list OtkEvent) (cur local_next_offset : N) (new_positions : list N)
  : M World (N * N * list N) :=
  match events with
  | [] => mok (cur, local_next_offset, new_positions)
  | event :: events =>
      if (local_next_offset =? u64_max)%N then
        mtry (fs_set_len path batch_start) ;;; merr (InvalidInput "offset space exhausted")
      else
        let entry := {| offset := offset_new local_next_offset; appended_at_ns := ts;
                        entry_producer_id := producer_id; event := event |} in
        r <- mtry (write_record_at path cur entry) ;;
        match r with
        | Ok (pos, cur) =>
            append_events producer_id ts path batch_start events cur (local_next_offset + 1)
              (new_positions ++ [pos])
        | Err e => mtry (fs_set_len path batch_start) ;;; merr e
        end
  end.

Definition POISONED_MSG : string :=
  "log is poisoned: position query failed after a durable write; reopen the log to recover".

(** The position after the batch: [stream_position], or else a seek to the
    end; when both fail the log is poisoned. *)
Definition query_position (path : string) (cur : N) : LM N :=
  r <- mtry (fs fs_nop) ;;
  match r with
  | Ok _ => mok cur
  | Err e1 =>
      r <- mtry (fs (fs_seek_end path)) ;;
      match r with
      | Ok pos => modl (map_active (fun a => set_cursor a (Some pos))) ;;; mok pos
      | Err _ => modl poison ;;; merr e1
      end
  end.

(** The commit of a batch to the in-memory state. *)
Definition commit_batch (ts new_file_pos next : N) (new_positions : list N) (l : SegmentLog)
  : SegmentLog :=
  {| config := config l; closed := closed l;
     active := (fun a =>
       {| as_base_offset := as_base_offset a; as_path := as_path a; cursor := cursor a;
          as_positions := as_positions a ++ new_positions;
          as_byte_size := saturating_sub new_file_pos HEADER_LEN;
          as_created_at_ns := as_created_at_ns a; next_file_pos := new_file_pos;
          as_last_appended_at_ns := ts |}) <$> active l;
     next_offset := next; notified := notified l + 1; poisoned := poisoned l |}.

Definition sync_batch (path : string) (batch_start : N) : LM () :=
  l <- getl ;;
  if (flush_interval_ms (config l) =? 0)%N then
    r <- mtry (fs (fs_sync path)) ;;
    match r with
    | Ok _ => mok ()
    | Err e => mtry (fs (fs_set_len path batch_start)) ;;; merr e
    end
  else mok ().

(** From the seek to the commit. *)
Definition write_active (a : ActiveSegment) (producer_id : string) (ts : N) (events : list OtkEvent)
    (next_offset : N) : LM () :=
  let path := as_path a in
  let batch_start := next_file_pos a in
  seek_active batch_start ;;;
  r <- mtry (fs (append_events producer_id ts path batch_start events batch_start next_offset [])) ;;
  match r with
  | Err e => modl (map_active (fun a => set_cursor a None)) ;;; merr e
  | Ok (cur, next, new_positions) =>
      modl (map_active (fun a => set_cursor a (Some cur))) ;;;
      sync_batch path batch_start ;;;
      new_file_pos <- query_position path cur ;;
      modl (commit_batch ts new_file_pos next new_positions)
  end.

(** Up to the commit: the batch is written and stored. *)
Definition write_batch (producer_id : string) (events : list OtkEvent) : LM () :=
  l <- getl ;;
  if poisoned l then merr (Corrupted POISONED_MSG) else
  if bool_decide (events = []) then merr (InvalidInput "events slice must not be empty") else
  if bool_decide (producer_id = "") then merr (InvalidInput "producer_id must not be empty") else
  ensure_active ;;;
  ts <- fs (now_ns now) ;;
  l <- getl ;;
  a <- mopt (active l) ;;
  write_active a producer_id ts events (next_offset l).

Definition log_append (producer_id : string) (events : list OtkEvent) : LM Offset :=
  write_batch producer_id events ;;;
  roll <- should_roll ;;
  (if roll : bool then roll_segment else mok ()) ;;;
  l <- getl ;;
  o <- mopt (sub (next_offset l) 1) ;;
  mok (offset_new o).

(** ** Offsets *)
Definition earliest_offset_raw (l : SegmentLog) : option N :=
  match closed l with
  | first :: _ => Some (cs_base_offset first)
  | [] =>
      match active l with
      | Some a => if bool_decide (as_positions a = []) then None else Some (as_base_offset a)
      | None => None
      end
  end.

Definition active_records (l : SegmentLog) : N := from_option (fun a => len (as_positions a)) 0%N (active l).

(** The latest offset without an active record: the watermark when every
    segment is evicted. *)
Definition closed_latest (l : SegmentLog) : option N :=
  match last (closed l) with
  | Some back => Some (last_offset back)
  | None => if (0 <? next_offset l)%N then Some (next_offset l - 1)%N else None
  end.

(** [None] is an overflow panic. *)
Definition latest_offset_raw (l : SegmentLog) : option (option N) :=
  match active l with
  | Some a =>
      if bool_decide (as_positions a = []) then Some (closed_latest l)
      else
        let! n := add (as_base_offset a) (len (as_positions a)) in
        let! o := sub n 1 in
        Some (Some o)
  | None => Some (closed_latest l)
  end.

Definition is_fully_evicted (l : SegmentLog) : bool :=
  bool_decide (closed l = []) && (active_records l =? 0)%N && (0 <? next_offset l)%N.

Definition log_latest_offset : LM (option Offset) :=
  l <- getl ;; o <- mopt (latest_offset_raw l) ;; mok (offset_new <$> o).

Definition log_earliest_offset : LM (option Offset) :=
  l <- getl ;; mok (offset_new <$> earliest_offset_raw l).

(** ** Reading *)

(** [for offset in start..end] over the records of one segment. *)
Fixpoint read_offsets (n : nat) (path : string) (base : N) (positions : list N) (o : N)
    (entries : list LogEntry) : M World (list LogEntry) :=
  match n with
  | O => mok entries
  | S n =>
      match positions !! N.to_nat (o - base) with
      | None => mok entries
      | Some pos =>
          entry <- read_record_at overflow_checks path pos ;;
          if negb (as_u64 (offset entry) =? o)%N then
            merr (Corrupted ("index points to wrong record at position " +:+ pretty pos +:+
                             ": expected offset " +:+ pretty o +:+ ", got " +:+
                             pretty (as_u64 (offset entry))))
          else read_offsets n path base positions (o + 1) (entries ++ [entry])
      end
  end.

Fixpoint read_closed (from_raw effective_to : N) (segs : list ClosedSegment) (entries : list LogEntry)
  : M World (list LogEntry) :=
  match segs with
  | [] => mok entries
  | seg :: segs =>
      if (last_offset seg <? from_raw)%N then read_closed from_raw effective_to segs entries else
      if (effective_to <=? cs_base_offset seg)%N then mok entries else
      let start := N.max from_raw (cs_base_offset seg) in
      next <- mopt (add (last_offset seg) 1) ;;
      let end_ := N.min effective_to next in
      fs_open (cs_path seg) ;;;
      entries <- read_offsets (N.to_nat (end_ - start)) (cs_path seg) (cs_base_offset seg)
                              (cs_positions seg) start entries ;;
      read_closed from_raw effective_to segs entries
  end.

Definition read_active (from_raw effective_to : N) (a : ActiveSegment) (entries : list LogEntry)
  : LM (list LogEntry) :=
  if (effective_to <=? as_base_offset a)%N || bool_decide (as_positions a = []) then mok entries else
  active_end <- mopt (add (as_base_offset a) (len (as_positions a))) ;;
  if (active_end <=? from_raw)%N then mok entries else
  let start := N.max from_raw (as_base_offset a) in
  let end_ := N.min effective_to active_end in
  modl (map_active (fun a => set_cursor a None)) ;;;
  fs (read_offsets (N.to_nat (end_ - start)) (as_path a) (as_base_offset a) (as_positions a) start entries).

Definition log_read_range (from : Offset) (to : option Offset) : LM (list LogEntry) :=
  l <- getl ;;
  let from_raw := as_u64 from in
  let to_raw := as_u64 <$> to in
  if from_option (fun to_raw => to_raw <=? from_raw)%N false to_raw then mok [] else
  if (next_offset l <=? from_raw)%N then mok [] else
  if is_fully_evicted l then merr (RetentionExpired from None) else
  match earliest_offset_raw l with
  | Some earliest =>
      if (from_raw <? earliest)%N then merr (RetentionExpired from (Some (offset_new earliest)))
      else mok ()
  | None => mok ()
  end ;;;
  let effective_to := default u64_max to_raw in
  entries <- fs (read_closed from_raw effective_to (closed l) []) ;;
  match active l with
  | Some a => read_active from_raw effective_to a entries
  | None => mok entries
  end.
End Log.

(** ** Opening *)
Section Open.
Context `{CborEvent : Cbor OtkEvent} `{Crc : Crc32}.
Variable overflow_checks : bool.
Variable now : N -> N.

Definition base_str (base : N) : string := bytes_str (dec_digits 20 base).

(** [metadata] as an existence test: only [NotFound] means no. *)
Definition fs_exists (name : string) : M World bool :=
  r <- mtry (fs_metadata_len name) ;;
  match r with
  | Ok _ => mok true
  | Err e => if is_not_found e then mok false else merr e
  end.

Definition check_base (kind : string) (base header_base : N) : M World () :=
  if negb (header_base =? base)%N then
    merr (Corrupted (kind +:+ " segment " +:+ base_str base +:+ ": header base_offset " +:+
                     pretty header_base +:+ " does not match filename"))
  else mok ().

(** A segment with an index: [None] when it is skipped, otherwise the segment
    and the next offset. *)
Definition open_closed (base : N) : M World (option (ClosedSegment * N)) :=
  let seg_path := seg_name base in
  let idx_path := idx_name base in
  r <- mtry (fs_open seg_path) ;;
  match r with
  | Err e => if is_not_found e then mok None else merr e
  | Ok _ =>
      fs_metadata_len idx_path ;;;
      content <- fs_read idx_path ;;
      positions <- mresult (read_index idx_path content) ;;
      let record_count := len positions in
      match last positions with
      | None => mok None
      | Some last_pos =>
          match checked_add64 base record_count with
          | None => merr (Corrupted ("segment " +:+ base_str base +:+ ": base + index_len overflows u64"))
          | Some next_seg_base =>
              let last := (next_seg_base - 1)%N in
              content <- fs_read seg_path ;;
              hdr <- mresult (read_header content) ;;
              check_base "closed" base (base_offset hdr) ;;;
              last_entry <- read_record_at overflow_checks seg_path last_pos ;;
              if negb (as_u64 (offset last_entry) =? last)%N then
                merr (Corrupted ("closed segment " +:+ base_str base +:+ ": index claims last offset " +:+
                                 pretty last +:+ " but record contains " +:+
                                 pretty (as_u64 (offset last_entry))))
              else
                seg_size <- fs_metadata_len seg_path ;;
                mok (Some ({| cs_base_offset := base; last_offset := last;
                              cs_last_appended_at_ns := appended_at_ns last_entry;
                              cs_byte_size := seg_size; cs_path := seg_path;
                              cs_positions := positions |}, next_seg_base))
          end
      end
  end.

(** The header of an unindexed segment, written afresh when it is torn; the
    creation time. *)
Definition open_header (base : N) : M World N :=
  let seg_path := seg_name base in
  fs_open_or_create seg_path ;;;
  file_len <- fs_metadata_len seg_path ;;
  if (HEADER_LEN <=? file_len)%N then
    content <- fs_read seg_path ;;
    hdr <- mresult (read_header content) ;;
    check_base "active" base (base_offset hdr) ;;;
    mok (created_at_ns hdr)
  else
    ts <- now_ns now ;;
    fs_set_len seg_path 0 ;;;
    fs_nop ;;;
    fs_write seg_path 0 (encode_header {| base_offset := base; created_at_ns := ts |}) ;;;
    mok ts.

(** [recover_active] on the file: the cut is a [set_len] and a seek. *)
Definition recover_file (base : N) : M World (list N * N * N) :=
  let seg_path := seg_name base in
  fs_metadata_len seg_path ;;;
  content <- fs_read seg_path ;;
  r <- mopt (recover_active overflow_checks content base) ;;
  r <- mresult r ;;
  let '(positions, pos, record_count, content') := r in
  (if (len content' <? len content)%N then fs_set_len seg_path pos ;;; fs_nop else mok ()) ;;;
  mok (positions, pos, record_count).

(** The highest segment without an index, and the next offset. *)
Definition open_active (base : N) : M World (ActiveSegment * N) :=
  let seg_path := seg_name base in
  ts <- open_header base ;;
  r <- recover_file base ;;
  let '(positions, next_pos, record_count) := r in
  last_at <- match last positions with
             | Some last_pos =>
                 e <- read_record_at overflow_checks seg_path last_pos ;; mok (appended_at_ns e)
             | None => mok 0%N
             end ;;
  match checked_add64 base record_count with
  | None => merr (Corrupted ("active segment " +:+ base_str base +:+ ": base + record_count overflows u64"))
  | Some next =>
      mok ({| as_base_offset := base; as_path := seg_path; cursor := None; as_positions := positions;
              as_byte_size := saturating_sub next_pos HEADER_LEN; as_created_at_ns := ts;
              next_file_pos := next_pos; as_last_appended_at_ns := last_at |}, next)
  end.

(** An earlier unindexed segment: an error if it has records, an orphan to
    remove if it is empty. *)
Definition discard_orphan (prev : option ActiveSegment) : M World () :=
  match prev with
  | None => mok ()
  | Some prev =>
      if bool_decide (as_positions prev = []) then mtry (fs_remove (as_path prev)) ;;; mok ()
      else merr (Corrupted ("segment " +:+ base_str (as_base_offset prev) +:+
             " has no index but is not the highest unindexed segment; " +:+
             pretty (len (as_positions prev)) +:+ " record(s) would be lost"))
  end.

Fixpoint open_segments (bases : list N) (closed : list ClosedSegment) (active : option ActiveSegment)
    (next_offset : N) : M World (list ClosedSegment * option ActiveSegment * N) :=
  match bases with
  | [] => mok (closed, active, next_offset)
  | base :: bases =>
      idx_exists <- fs_exists (idx_name base) ;;
      if idx_exists : bool then
        r <- open_closed base ;;
        match r with
        | None => open_segments bases closed active next_offset
        | Some (seg, next) => open_segments bases (closed ++ [seg]) active next
        end
      else
        discard_orphan active ;;;
        r <- open_active base ;;
        open_segments bases closed (Some (fst r)) (snd r)
  end.

Definition log_open (config : SegmentLogConfig) : M World SegmentLog :=
  fs_nop ;;;
  names <- fs_read_dir ;;
  let seg_bases := merge_sort N.le (omap seg_base names) in
  r <- open_segments seg_bases [] None 0 ;;
  let '(closed, active, next_offset) := r in
  wm <- (match active, closed with
         | None, [] => if (next_offset =? 0)%N then read_watermark else mok None
         | _, _ => mok None
         end) ;;
  mok {| config := config; closed := closed; active := active;
         next_offset := default next_offset wm; notified := 0; poisoned := false |}.
End Open.

