(* ===== verification/SegmentLogSafety.v ===== *)
(** The segment log keeps its promises while it runs, whatever I/O calls fail,
    as long as they fail when they are made ([prompt]).

    [seg_inv (l, w) h k] relates the log's memory [l] and disk [w] to the
    history [h] of every entry stored and the number [k] of entries evicted:
    the segments are consecutive from [k], and every position in memory finds
    its entry in the file.  The bytes of the active file past
    [next_file_pos] are arbitrary: a failed batch whose truncation failed too
    leaves some.  A panic is possible only in a build with overflow checks
    ([oc = true]), and only of the sum of the segment sizes. *)
From stdpp Require Import base gmap strings list option numbers pretty.
From Stdlib Require Import Strings.Byte.
From S2P Require Import Prelude EventModel EventLogPort SegmentFile SegmentFs SegmentLog.

(** ** Names *)
Definition dec_value (bs : bytes) : N := foldl (fun n b => 10 * n + (Byte.to_N b - 48))%N 0%N bs.

Lemma length_dec_digits k n : length (dec_digits k n) = k.
Proof. revert n. induction k as [|k IH]; intros n; simpl; [done|]. rewrite length_app, IH. simpl. lia. Qed.

Lemma digit_value d : (d < 10)%N -> (Byte.to_N (digit d) - 48 = d)%N.
Proof. intros Hd. unfold digit. rewrite byte_to_N_of_N, N.mod_small by lia. lia. Qed.

Lemma dec_value_digits k n : dec_value (dec_digits k n) = (n mod 10 ^ N.of_nat k)%N.
Proof.
  revert n. induction k as [|k IH]; intros n; [by rewrite N.mod_1_r|].
  cbn [dec_digits]. unfold dec_value in *. rewrite foldl_app. simpl. rewrite IH.
  rewrite digit_value by (apply N.mod_lt; done).
  rewrite Nat2N.inj_succ, N.pow_succ_r', N.Div0.mod_mul_r by (try done; apply N.pow_nonzero; done). lia.
Qed.

Lemma dec_digits_inj a b : wf_u64 a -> wf_u64 b -> dec_digits 20 a = dec_digits 20 b -> a = b.
Proof.
  unfold wf_u64, u64_max. intros Ha Hb H. apply (f_equal dec_value) in H. rewrite !dec_value_digits in H.
  change (10 ^ N.of_nat 20)%N with 100000000000000000000%N in H. rewrite !N.mod_small in H; lia.
Qed.

Lemma bytes_str_inj a b : bytes_str a = bytes_str b -> a = b.
Proof. intros H. by rewrite <- (str_bytes_str a), H, str_bytes_str. Qed.

Lemma seg_name_inj a b : wf_u64 a -> wf_u64 b -> seg_name a = seg_name b -> a = b.
Proof.
  intros Ha Hb H%bytes_str_inj. apply app_inj_1 in H as [H _]; [by apply dec_digits_inj|].
  by rewrite !length_dec_digits.
Qed.

Lemma seg_name_other a b suffix :
  suffix <> str_bytes ".seg" -> seg_name a <> bytes_str (dec_digits 20 b ++ suffix).
Proof.
  intros Hs H%bytes_str_inj. apply app_inj_1 in H as [_ H]; [done|]. by rewrite !length_dec_digits.
Qed.

Lemma seg_name_idx a b : seg_name a <> idx_name b.
Proof. by apply seg_name_other. Qed.

Lemma seg_name_idx_tmp a b : seg_name a <> idx_tmp_name b.
Proof. by apply seg_name_other. Qed.

Lemma seg_name_watermark a : seg_name a <> WATERMARK /\ seg_name a <> WATERMARK_TMP.
Proof.
  split; intros H; apply (f_equal (fun s => length (str_bytes s))) in H;
    unfold seg_name in H; rewrite str_bytes_str, length_app, length_dec_digits in H; done.
Qed.

(** ** Rules for the log's own steps *)
Lemma mthen_getl {B} (f : SegmentLog -> M (SegmentLog * World) B) s : mthen getl f s = f (fst s) s.
Proof. done. Qed.

Section Steps.
Context {A B : Type} {P : Prop}.
Implicit Types (R : result B StorageError -> SegmentLog * World -> Prop).

Lemma wp_getl_then (f : SegmentLog -> M (SegmentLog * World) B) R l w :
  wp P (f l) R (l, w) -> wp P (mthen getl f) R (l, w).
Proof. done. Qed.

Lemma wp_modl_then g (f : () -> M (SegmentLog * World) B) R l w :
  wp P (f ()) R (g l, w) -> wp P (mthen (modl g) f) R (l, w).
Proof. done. Qed.

Lemma wp_modl g (Q : result () StorageError -> SegmentLog * World -> Prop) l w :
  Q (Ok ()) (g l, w) -> wp P (modl g) Q (l, w).
Proof. done. Qed.

Lemma wp_fs (m : M World A) (Q : result A StorageError -> SegmentLog * World -> Prop) l w :
  wp P m (fun r w' => Q r (l, w')) w -> wp P (fs m) Q (l, w).
Proof. apply wp_right. Qed.

Lemma wp_fs_then (m : M World A) (f : A -> M (SegmentLog * World) B) Q R l w :
  wp P m Q w ->
  (forall a w', Q (Ok a) w' -> wp P (f a) R (l, w')) ->
  (forall e w', Q (Err e) w' -> R (Err e) (l, w')) ->
  wp P (mthen (fs m) f) R (l, w).
Proof.
  intros Hm Ho He. apply wp_then with (Q := fun r s => fst s = l /\ Q r (snd s)).
  - apply wp_right. eapply wp_mono; [exact Hm|done].
  - intros a [l' w'] [E HQ]. simpl in HQ, E. subst. by apply Ho.
  - intros e [l' w'] [E HQ]. simpl in HQ, E. subst. by apply He.
Qed.

(** A step that always fails ends the function. *)
Lemma wp_errs_then (m : M (SegmentLog * World) B) (f : B -> M (SegmentLog * World) B) R s :
  wp P m (fun r s' => (exists e, r = Err e) /\ R r s') s -> wp P (mthen m f) R s.
Proof. intros Hm. eapply wp_then; [exact Hm|by intros a s' [[? ?] _]|by intros e s' [_ ?]]. Qed.

Lemma wp_try_fs_then (m : M World A) (f : result A StorageError -> M (SegmentLog * World) B) Q R l w :
  wp P m Q w ->
  (forall r w', Q r w' -> wp P (f r) R (l, w')) ->
  wp P (mthen (mtry (fs m)) f) R (l, w).
Proof.
  intros Hm Ho. apply wp_try_then with (Q := fun r s => fst s = l /\ Q r (snd s)).
  - apply wp_right. eapply wp_mono; [exact Hm|done].
  - intros r [l' w'] [E HQ]. simpl in HQ, E. subst. by apply Ho.
Qed.
End Steps.

(** ** The invariant *)
Section Inv.
Context `{CborEvent : Cbor OtkEvent} `{Crc : Crc32} `{!CborLaws OtkEvent} `{!Crc32Laws}.
Variable oc : bool.

(** The known prefix [p] of a file holds [e] at [pos]. *)
Definition reads_in (p : bytes) (pos : N) (e : LogEntry) : Prop :=
  exists pre rec post, p = pre ++ rec ++ post /\ len pre = pos /\ reads_as oc rec e.

Definition stores (p : bytes) : list N -> list LogEntry -> Prop := Forall2 (reads_in p).

Lemma reads_in_app p t pos e : reads_in p pos e -> reads_in (p ++ t) pos e.
Proof. intros (pre & rec & post & -> & Hl & Hr). exists pre, rec, (post ++ t). by rewrite <- !app_assoc. Qed.

Lemma stores_app p t ps es : stores p ps es -> stores (p ++ t) ps es.
Proof. intros Hs. eapply Forall2_impl; [exact Hs|]. intros. by apply reads_in_app. Qed.

Lemma stores_snoc p ps es rec e :
  stores p ps es -> reads_as oc rec e -> stores (p ++ rec) (ps ++ [len p]) (es ++ [e]).
Proof.
  intros Hs Hr. apply Forall2_app; [by apply stores_app|]. constructor; [|constructor].
  exists p, rec, []. by rewrite app_nil_r.
Qed.

Lemma reads_in_read p t pos e : reads_in p pos e -> read_record oc (p ++ t) pos = Some (Ok e).
Proof.
  intros (pre & rec & post & -> & <- & _ & _ & _ & Hr). rewrite <- !app_assoc. apply Hr.
Qed.

Definition slice (base n : N) (h : list LogEntry) : list LogEntry :=
  take (N.to_nat n) (drop (N.to_nat base) h).

Definition closed_ok (d : gmap string bytes) (h : list LogEntry) (s : ClosedSegment) : Prop :=
  cs_path s = seg_name (cs_base_offset s) /\ cs_positions s <> [] /\
  (cs_base_offset s + len (cs_positions s) <= len h)%N /\
  (last_offset s + 1 = cs_base_offset s + len (cs_positions s))%N /\
  exists file, d !! cs_path s = Some file /\
    stores file (cs_positions s) (slice (cs_base_offset s) (len (cs_positions s)) h).

(** Closed segments that follow each other from [k] to [m]. *)
Fixpoint chain (k : N) (segs : list ClosedSegment) (m : N) : Prop :=
  match segs with
  | [] => k = m
  | s :: segs => cs_base_offset s = k /\ chain (k + len (cs_positions s)) segs m
  end.

(** The file of the active segment: a known prefix up to [next_file_pos]. *)
Definition active_file (d : gmap string bytes) (a : ActiveSegment) (p t : bytes) (es : list LogEntry) : Prop :=
  d !! as_path a = Some (p ++ t) /\ len p = next_file_pos a /\ stores p (as_positions a) es.

Definition active_ok (d : gmap string bytes) (h : list LogEntry) (m : N) (a : ActiveSegment) : Prop :=
  as_base_offset a = m /\ as_path a = seg_name m /\
  exists p t, active_file d a p t (drop (N.to_nat m) h).

Definition seg_inv (s : SegmentLog * World) (h : list LogEntry) (k : N) : Prop :=
  let (l, w) := s in
  next_offset l = len h /\ (len h <= u64_max)%N /\ offsets_ok h /\
  exists m, (m <= len h)%N /\ chain k (closed l) m /\ Forall (closed_ok (disk w) h) (closed l) /\
    match active l with
    | None => m = len h
    | Some a => active_ok (disk w) h m a
    end.

(** *** What keeps it *)
Lemma chain_bounds k segs m : chain k segs m -> (k <= m)%N.
Proof.
  revert k. induction segs as [|s segs IH]; intros k; simpl; [lia|]. intros [_ Hc%IH]. lia.
Qed.

Lemma chain_base k segs m s :
  chain k segs m -> s ∈ segs -> cs_positions s <> [] -> (k <= cs_base_offset s < m)%N.
Proof.
  revert k. induction segs as [|s' segs IH]; intros k; simpl; [set_solver|].
  intros [<- Hc] Hin Hp. apply elem_of_cons in Hin as [->|Hin].
  - apply chain_bounds in Hc. destruct (cs_positions s'); [done|]. rewrite len_cons in Hc. lia.
  - apply (IH _ Hc) in Hin; [lia|done].
Qed.

Lemma chain_app k s1 s2 m : chain k (s1 ++ s2) m <-> exists m', chain k s1 m' /\ chain m' s2 m.
Proof.
  revert k. induction s1 as [|s s1 IH]; intros k; simpl; [naive_solver|]. rewrite IH. naive_solver.
Qed.

Lemma slice_app base n h h' :
  (base + n <= len h)%N -> slice base n (h ++ h') = slice base n h.
Proof.
  intros Hle. unfold slice, len in *. rewrite drop_app_le by lia. rewrite take_app_le; [done|].
  rewrite length_drop. lia.
Qed.

Lemma closed_ok_app d h h' s : closed_ok d h s -> closed_ok d (h ++ h') s.
Proof.
  intros (Hp & Hn & Hb & Hl & f & Hf & Hs). split; [done|]. split; [done|].
  split; [rewrite len_app; lia|]. split; [done|]. exists f. by rewrite slice_app.
Qed.

Lemma closed_ok_disk d d' h s :
  d' !! cs_path s = d !! cs_path s -> closed_ok d h s -> closed_ok d' h s.
Proof. intros E (Hp & Hn & Hb & Hl & f & Hf & Hs). repeat split; try done. exists f. by rewrite E. Qed.

(** The invariant does not depend on cursors, notifications and poison, nor on
    other files. *)
Definition same_core (l l' : SegmentLog) : Prop :=
  closed l' = closed l /\ next_offset l' = next_offset l /\ config l' = config l /\
  match active l, active l' with
  | None, None => True
  | Some a, Some a' => as_base_offset a' = as_base_offset a /\ as_path a' = as_path a /\
      as_positions a' = as_positions a /\ next_file_pos a' = next_file_pos a
  | _, _ => False
  end.

Lemma seg_inv_core l l' w w' h k :
  same_core l l' -> (forall b, disk w' !! seg_name b = disk w !! seg_name b) ->
  seg_inv (l, w) h k -> seg_inv (l', w') h k.
Proof.
  intros (Hc & Hn & _ & Ha) Hd (Hnext & Hu & Ho & m & Hm & Hch & Hcl & Hact). unfold seg_inv.
  rewrite Hn, Hc. do 3 (split; [done|]). exists m. split; [done|]. split; [done|]. split.
  - eapply Forall_impl; [exact Hcl|]. intros s Hs. pose proof Hs as (Hp & _).
    apply (closed_ok_disk (disk w)); [|done]. by rewrite Hp.
  - destruct (active l) as [a|], (active l') as [a'|]; try done.
    destruct Ha as (E1 & E2 & E3 & E4). destruct Hact as (Hb & Hp & p & t & Hf & Hl & Hs).
    unfold active_ok, active_file. rewrite E1, E2, E3, E4. split; [done|]. split; [done|].
    exists p, t. by rewrite Hp, Hd, <- Hp.
Qed.

(** *** Creating the active segment *)
Variable now : N -> N.
Hypothesis now_u64 : forall n, wf_u64 (now n).
Abbreviation panics := (oc = true).

(** The outcome of a step that does not change what is stored. *)
Definition keeps {A} (h : list LogEntry) (k : N) (w : World) (r : result A StorageError)
    (s' : SegmentLog * World) : Prop :=
  later w (snd s') /\ seg_inv s' h k /\ io_error w r.

Lemma later_io {A} w w' (r : result A StorageError) : later w w' -> io_error w' r -> io_error w r.
Proof. apply io_error_later. Qed.

Lemma insert_seg_other (d : gmap string bytes) name c :
  (forall b, seg_name b <> name) -> forall b, <[name := c]> d !! seg_name b = d !! seg_name b.
Proof. intros Hn b. apply lookup_insert_ne. intros E. by apply (Hn b). Qed.

(** A file at [seg_name m] beyond every closed segment may change freely. *)
Lemma closed_ok_insert d h k m segs c :
  chain k segs m -> (m <= u64_max)%N -> Forall (closed_ok d h) segs ->
  Forall (closed_ok (<[seg_name m := c]> d) h) segs.
Proof.
  intros Hch Hm Hall. rewrite Forall_forall in Hall |- *. intros s Hin.
  pose proof (Hall s Hin) as Hs.
  apply (closed_ok_disk d); [|done]. destruct Hs as (-> & Hn & Hb & _).
  pose proof (chain_base _ _ _ _ Hch Hin Hn). apply lookup_insert_ne.
  intros E. apply seg_name_inj in E; [lia|done|unfold wf_u64; lia].
Qed.

Lemma ensure_active_spec l w h k :
  seg_inv (l, w) h k ->
  wp panics (ensure_active now) (fun r s' => keeps h k w r s' /\
    config (fst s') = config l /\ poisoned (fst s') = poisoned l /\
    (r = Ok () -> is_Some (active (fst s')))) (l, w).
Proof.
  intros Hinv. unfold ensure_active. apply wp_getl_then.
  destruct (active l) as [a|] eqn:Ha.
  { apply wp_ok. split; [split; [apply later_refl|]; split; [done|apply io_error_ok]|].
    do 2 (split; [done|]). simpl. by rewrite Ha. }
  pose proof Hinv as (Hnext & Hu & Ho & m & Hm & Hch & Hcl & Hact). rewrite Ha in Hact. subst m.
  eapply wp_fs_then; [apply wp_now|..].
  2:{ intros e w1 [_ [? ?]]. done. }
  intros ts w1 [(Hl1 & Hd1 & _) _]. set (path := seg_name (next_offset l)).
  (* the new file may have any content: no stored entry lies in it *)
  assert (Hkeep : forall w' c, disk w' = <[path := c]> (disk w) -> seg_inv (l, w') h k).
  { intros w' c Hd. unfold seg_inv. do 3 (split; [done|]). exists (len h). rewrite Ha.
    do 2 (split; [done|]). split; [|done]. rewrite Hd. unfold path. rewrite Hnext.
    by eapply closed_ok_insert. }
  assert (Hkeep0 : forall w', disk w' = disk w -> seg_inv (l, w') h k).
  { intros w' Hd. apply (seg_inv_core l l w w'); [|by intros b; rewrite Hd|done].
    do 3 (split; [done|]). by destruct (active l). }
  eapply wp_fs_then; [apply wp_create_truncate|..].
  2:{ intros e w2 (Hl2 & Hr2 & Hd2). split; [|done]. split; [by eapply later_trans|].
      split; [apply Hkeep0; congruence|by eapply io_error_later]. }
  intros [] w2 (Hl2 & _ & Hd2). rewrite Hd1 in Hd2. pose proof (later_trans _ _ _ Hl1 Hl2) as Hl12.
  eapply wp_fs_then; [apply (wp_write path [] []); rewrite Hd2; apply lookup_insert_eq|..].
  2:{ intros e w3 (Hl3 & Hr3 & t' & Hd3 & _). split; [|done]. split; [by eapply later_trans|].
      split; [|by eapply io_error_as, io_error_later]. apply (Hkeep _ ([] ++ t')). by rewrite Hd3, Hd2, insert_insert_eq. }
  intros n w3 (Hl3 & _ & t' & Hd3 & Ht). destruct (Ht _ eq_refl) as [-> ->].
  rewrite Hd2, insert_insert_eq, drop_nil, app_nil_l, app_nil_r in Hd3.
  pose proof (later_trans _ _ _ Hl12 Hl3) as Hl13.
  eapply wp_fs_then; [apply wp_fsync_dir|..]; [|by intros e w4 (_ & _ & ?)].
  intros _ w4 (Hl4 & Hd4 & _). apply wp_modl. cbn [fst snd set_active config poisoned active].
  split; [|split; [done|split; [done|by eexists]]].
  split; [by eapply later_trans|]. split; [|apply io_error_ok].
  unfold seg_inv. cbn [set_active next_offset closed active]. do 3 (split; [done|]).
  exists (len h). do 2 (split; [done|]). rewrite Hd4, Hd3. split.
  { unfold path. rewrite Hnext. by eapply closed_ok_insert. }
  split; [done|]. split; [simpl; unfold path; by rewrite Hnext|].
  exists (encode_header {| base_offset := next_offset l; created_at_ns := ts |}), [].
  split; [|split]; cbn [as_path next_file_pos as_positions].
  - rewrite app_nil_r. apply lookup_insert_eq.
  - unfold len, encode_header. by rewrite !length_app, !length_to_le_bytes.
  - rewrite drop_ge by (unfold len; lia). constructor.
Qed.

(** *** Writing a batch *)
Definition batch_entry (producer_id : string) (ts next : N) (ev : OtkEvent) : LogEntry :=
  {| offset := offset_new next; appended_at_ns := ts; entry_producer_id := producer_id; event := ev |}.

Definition batch (producer_id : string) (ts next : N) (events : list OtkEvent) : list LogEntry :=
  batch_entries next producer_id (repeat ts (length events)) events.

(** Why a batch is refused without an I/O failure: the offsets run out or an
    event cannot be encoded. *)
Definition refused (producer_id : string) (ts next : N) (events : list OtkEvent) (e : StorageError) : Prop :=
  (u64_max < next + len events)%N \/
  exists i ev, events !! i = Some ev /\
    encode_record (batch_entry producer_id ts (next + N.of_nat i) ev) = Err e.

Lemma write_record_at_spec path p t entry w :
  disk w !! path = Some (p ++ t) -> wf_entry entry ->
  wp panics (write_record_at path (len p) entry) (fun r w' => later w w' /\
    exists t', disk w' = <[path := p ++ t']> (disk w) /\
    match r with
    | Ok (pos, cur) => pos = len p /\
        exists rec t'', t' = rec ++ t'' /\ reads_as oc rec entry /\ cur = len (p ++ rec)
    | Err e => io_error (A := ()) w (Err e) \/ encode_record entry = Err e
    end) w.
Proof.
  intros Hd Hwf. unfold write_record_at.
  destruct (encode_record entry) as [buf|e] eqn:He.
  2:{ apply wp_err. split; [apply later_refl|]. exists t. rewrite insert_id by done. auto. }
  change (mthen (mresult (Ok buf)) ?f) with (f buf).
  eapply wp_then; [apply wp_nop, _|..].
  2:{ intros e w1 (Hl1 & Hd1 & Hr1). split; [done|]. exists t.
      rewrite Hd1, insert_id by done. split; [done|]. left. intros e' [= <-]. by apply Hr1. }
  intros _ w1 (Hl1 & Hd1 & _).
  eapply wp_try_then; [apply (wp_write path p t); by rewrite Hd1|].
  intros [n|e] w2 (Hl2 & Hr2 & t2 & Hd2 & Ht2); rewrite Hd1 in Hd2.
  - destruct (Ht2 _ eq_refl) as [-> E2]. apply wp_ok. split; [by eapply later_trans|].
    exists t2. split; [done|]. split; [done|].
    exists buf, (drop (length buf) t). split; [done|]. split; [by apply encoded_reads_as|].
    by rewrite len_app.
  - eapply wp_try_then; [apply (wp_set_len path p t2); by rewrite Hd2, lookup_insert_eq|].
    intros r w3 (Hl3 & _ & t3 & Hd3 & _). rewrite Hd2, insert_insert_eq in Hd3.
    pose proof (later_trans _ _ _ Hl1 Hl2) as Hl12.
    apply wp_err. split; [by eapply later_trans|]. exists t3. split; [done|]. left.
    eapply io_error_later; [exact Hl1|]. intros e' [= <-]. by apply Hr2.
Qed.

Lemma batch_cons pid ts next ev events :
  batch pid ts next (ev :: events) = batch_entry pid ts next ev :: batch pid ts (next + 1) events.
Proof. done. Qed.

(** What [append_events] leaves in the file, whose first [len p0] bytes it
    does not touch. *)
Definition batch_outcome (w : World) (path : string) (p0 : bytes) (pid : string) (ts next : N)
    (events : list OtkEvent) (ps0 : list N) (es : list LogEntry)
    (r : result (N * N * list N) StorageError) (w' : World) : Prop :=
  later w w' /\ exists t', disk w' = <[path := p0 ++ t']> (disk w) /\
  match r with
  | Ok (cur, next', nps) => exists q t'', t' = q ++ t'' /\ cur = len (p0 ++ q) /\
      (next' = next + len events)%N /\ (next' <= u64_max)%N /\
      stores (p0 ++ q) (ps0 ++ nps) (es ++ batch pid ts next events)
  | Err e => io_error (A := ()) w (Err e) \/ refused pid ts next events e
  end.

Lemma refused_later pid ts next ev events e :
  refused pid ts (next + 1) events e -> refused pid ts next (ev :: events) e.
Proof.
  intros [Hlt|(i & ev' & Hi & He)]; [left; rewrite len_cons; lia|].
  right. exists (S i), ev'. split; [done|]. by replace (next + N.of_nat (S i))%N with (next + 1 + N.of_nat i)%N by lia.
Qed.

(** After a failure the file is cut back to the start of the batch, or not. *)
Lemma batch_cut path p0 pid ts next events ps0 es w w1 e t1 :
  later w w1 -> disk w1 = <[path := p0 ++ t1]> (disk w) ->
  io_error (A := ()) w (Err e) \/ refused pid ts next events e ->
  wp panics (mthen (mtry (fs_set_len path (len p0))) (fun _ => merr e))
    (batch_outcome w path p0 pid ts next events ps0 es) w1.
Proof.
  intros Hl1 Hd1 He.
  eapply wp_try_then; [apply (wp_set_len path p0 t1); by rewrite Hd1, lookup_insert_eq|].
  intros r w2 (Hl2 & _ & t2 & Hd2 & _). rewrite Hd1, insert_insert_eq in Hd2.
  apply wp_err. split; [by eapply later_trans|]. by exists t2.
Qed.

Lemma append_events_spec pid ts path p0 q t events next ps0 nps es w :
  utf8_valid (str_bytes pid) = true -> wf_u64 ts -> wf_u64 next ->
  disk w !! path = Some ((p0 ++ q) ++ t) -> stores (p0 ++ q) (ps0 ++ nps) es ->
  wp panics (append_events pid ts path (len p0) events (len (p0 ++ q)) next nps)
    (batch_outcome w path p0 pid ts next events ps0 es) w.
Proof.
  intros Hpid Hts. revert q t next nps es w.
  induction events as [|ev events IH]; intros q t next nps es w Hnext Hd Hs; cbn [append_events].
  { apply wp_ok. split; [apply later_refl|]. exists (q ++ t). rewrite app_assoc, insert_id by done.
    split; [done|]. exists q, t. rewrite len_nil, N.add_0_r. unfold batch. simpl. by rewrite app_nil_r. }
  destruct (N.eqb_spec next u64_max) as [Hmax|Hmax].
  { apply (batch_cut _ _ _ _ _ _ _ _ _ _ _ (q ++ t)); [apply later_refl|by rewrite app_assoc, insert_id|].
    right. left. rewrite len_cons. lia. }
  eapply wp_try_then; [apply (write_record_at_spec path (p0 ++ q) t); [done|by split]|].
  intros [[pos cur]|e] w1 (Hl1 & t1 & Hd1 & Hr1).
  - destruct Hr1 as (-> & rec & t'' & -> & Hra & ->). rewrite !app_assoc in Hd1.
    rewrite <- (app_assoc p0 q rec) in Hd1 |- *.
    eapply wp_mono; [apply (IH (q ++ rec) t'' _ (nps ++ [len (p0 ++ q)])
      (es ++ [batch_entry pid ts next ev]))|].
    + unfold wf_u64 in *. lia.
    + by rewrite Hd1, lookup_insert_eq.
    + rewrite !app_assoc. by apply stores_snoc.
    + intros r w2 (Hl2 & t2 & Hd2 & Hr2). split; [by eapply later_trans|]. exists t2.
      rewrite Hd1, insert_insert_eq in Hd2. split; [done|].
      destruct r as [[[cur' next'] nps']|e].
      * destruct Hr2 as (q' & t3 & -> & -> & Hn & Hu & Hst). exists q', t3.
        rewrite batch_cons, len_cons. rewrite <- app_assoc in Hst. repeat split; try done. lia.
      * destruct Hr2 as [Hio|Href]; [left|right; by apply refused_later].
        by eapply io_error_later.
  - apply (batch_cut _ _ _ _ _ _ _ _ _ _ _ (q ++ t1)); [done|by rewrite app_assoc|].
    destruct Hr1 as [Hio|Henc]; [by left|]. right. right. exists 0%nat, ev.
    split; [done|]. by rewrite N.add_0_r.
Qed.

(** The position query: the cursor, or the length of the file, or the log is
    poisoned. *)
Lemma query_position_spec path p t l w :
  disk w !! path = Some (p ++ t) ->
  wp panics (query_position path (len p)) (fun r s' => later w (snd s') /\ disk (snd s') = disk w /\
    match r with
    | Ok pos => (pos = len p \/ pos = len (p ++ t)) /\
        (fst s' = l /\ pos = len p \/ fst s' = map_active (fun a => set_cursor a (Some pos)) l)
    | Err e => io_error (A := ()) w (Err e) /\ fst s' = poison l
    end) (l, w).
Proof.
  intros Hd. unfold query_position. eapply wp_try_fs_then; [apply wp_nop, _|].
  intros [[]|e1] w1 (Hl1 & Hd1 & Hr1); [by apply wp_ok; simpl; auto 6|].
  eapply wp_try_fs_then; [apply (wp_seek_end path (p ++ t)); by rewrite Hd1|].
  intros [n|e2] w2 [(Hl2 & Hd2 & Hr2) Hn]; apply wp_modl_then.
  - apply wp_ok. simpl. rewrite (Hn n eq_refl). split; [by eapply later_trans|]. split; [congruence|]. auto.
  - apply wp_err. simpl. split; [by eapply later_trans|]. split; [congruence|]. split; [|done].
    intros e [= <-]. by apply Hr1.
Qed.

Lemma seg_inv_world l w w' h k :
  disk w' = disk w -> seg_inv (l, w) h k -> seg_inv (l, w') h k.
Proof.
  intros Hd. apply seg_inv_core; [|by intros b; rewrite Hd]. do 3 (split; [done|]). by destruct (active l).
Qed.

Lemma seg_inv_cursor l w h k f :
  (forall a, as_base_offset (f a) = as_base_offset a /\ as_path (f a) = as_path a /\
             as_positions (f a) = as_positions a /\ next_file_pos (f a) = next_file_pos a) ->
  seg_inv (l, w) h k -> seg_inv (map_active f l, w) h k.
Proof.
  intros Hf. apply seg_inv_core; [|done]. do 3 (split; [done|]). simpl.
  destruct (active l) as [a|]; [apply Hf|done].
Qed.

(** Bytes past the known prefix do not matter. *)
Lemma seg_inv_tail l w w' a h k p t t' :
  active l = Some a -> seg_inv (l, w) h k ->
  disk w !! as_path a = Some (p ++ t) -> len p = next_file_pos a ->
  disk w' = <[as_path a := p ++ t']> (disk w) -> seg_inv (l, w') h k.
Proof.
  intros Ha (Hnext & Hu & Ho & m & Hm & Hch & Hcl & Hact) Hd Hp Hd'. unfold seg_inv.
  do 3 (split; [done|]). exists m. rewrite Ha in *. destruct Hact as (Hb & Hpa & p1 & t1 & Hf & Hl & Hs).
  rewrite Hd in Hf. injection Hf as Hf.
  assert (p = p1 /\ t = t1) as [-> ->] by (apply app_inj_1; [unfold len in *; lia|done]).
  do 2 (split; [done|]). rewrite Hd'. split.
  { rewrite Hpa. eapply closed_ok_insert; [done|lia|done]. }
  split; [done|]. split; [done|]. exists p1, t'. split; [apply lookup_insert_eq|done].
Qed.

(** The commit of a batch that is in the file. *)
Lemma seg_inv_commit l w a h k p t pid ts pos nps events :
  active l = Some a -> seg_inv (l, w) h k ->
  disk w !! as_path a = Some (p ++ t) -> len p = pos ->
  (len h + len events <= u64_max)%N ->
  stores p (as_positions a ++ nps) (drop (N.to_nat (as_base_offset a)) h ++ batch pid ts (len h) events) ->
  seg_inv (commit_batch ts pos (len h + len events) nps l, w) (h ++ batch pid ts (len h) events) k.
Proof.
  intros Ha (Hnext & Hu & Ho & m & Hm & Hch & Hcl & Hact) Hd Hp Hle Hs. rewrite Ha in Hact.
  destruct Hact as (Hb & Hpa & _). unfold seg_inv, commit_batch. cbn [next_offset closed active].
  assert (Hlen : len (h ++ batch pid ts (len h) events) = (len h + len events)%N).
  { rewrite len_app. unfold batch. f_equal. unfold len at 1. rewrite length_batch_entries; [done|].
    apply repeat_length. }
  rewrite Hlen. do 2 (split; [done|]). split; [by apply offsets_ok_append|].
  exists m. split; [lia|]. split; [done|]. split.
  { eapply Forall_impl; [exact Hcl|]. intros s. apply closed_ok_app. }
  rewrite Ha. simpl. split; [done|]. split; [done|]. exists p, t. split; [done|]. split; [done|].
  rewrite drop_app_le by (unfold len in Hm; lia). by rewrite <- Hb.
Qed.

(** Why [append] can fail before anything is stored. *)
Definition batch_error (l : SegmentLog) (w : World) (next : N) (pid : string) (events : list OtkEvent)
    (e : StorageError) : Prop :=
  io_error (A := ()) w (Err e) \/ poisoned l = true \/ events = [] \/ pid = "" \/
  exists ts, refused pid ts next events e.

(** The active segment is ready for the sentinel of a roll. *)
Definition at_end (l : SegmentLog) : Prop :=
  exists a, active l = Some a /\ as_positions a <> [] /\ cursor a = Some (next_file_pos a).

Definition batch_stored (l : SegmentLog) (w : World) (h : list LogEntry) (k : N) (pid : string)
    (events : list OtkEvent) (ts : N) (r : result () StorageError) (s' : SegmentLog * World) : Prop :=
  later w (snd s') /\ config (fst s') = config l /\
  match r with
  | Ok _ => wf_u64 ts /\ events <> [] /\ pid <> "" /\
      seg_inv s' (h ++ batch pid ts (len h) events) k /\ at_end (fst s')
  | Err e => seg_inv s' h k /\ batch_error l w (len h) pid events e
  end.

Lemma seek_active_spec pos l w :
  wp panics (seek_active pos) (fun r s' => quiet w r (snd s') /\
    fst s' = match r with
             | Ok _ => map_active (fun a => set_cursor a (Some pos)) l
             | Err _ => l
             end) (l, w).
Proof.
  unfold seek_active. eapply wp_fs_then; [apply wp_nop, _|..].
  - intros [] w1 (Hl1 & Hd1 & _). apply wp_modl. split; [|done]. split; [done|]. split; [done|apply io_error_ok].
  - intros e w1 (Hl1 & Hd1 & Hr1). split; [|done]. split; [done|]. split; [done|]. intros e' [= <-]. by apply Hr1.
Qed.

Lemma sync_batch_spec path p t l w :
  disk w !! path = Some (p ++ t) ->
  wp panics (sync_batch path (len p)) (fun r s' => later w (snd s') /\ fst s' = l /\ io_error w r /\
    exists t', disk (snd s') = <[path := p ++ t']> (disk w) /\ (r = Ok () -> t' = t)) (l, w).
Proof.
  intros Hd. unfold sync_batch. apply wp_getl_then.
  assert (Hid : disk w = <[path := p ++ t]> (disk w)) by by rewrite insert_id.
  destruct (flush_interval_ms (config l) =? 0)%N.
  2:{ apply wp_ok. split; [apply later_refl|]. split; [done|]. split; [apply io_error_ok|]. by exists t. }
  eapply wp_try_fs_then; [apply wp_nop, _|]. intros [[]|e] w1 (Hl1 & Hd1 & Hr1).
  { apply wp_ok. split; [done|]. split; [done|]. split; [apply io_error_ok|]. exists t. by rewrite <- Hid. }
  eapply wp_try_fs_then; [apply (wp_set_len path p t); by rewrite Hd1|].
  intros r w2 (Hl2 & _ & t2 & Hd2 & _). apply wp_err. rewrite Hd1 in Hd2.
  split; [by eapply later_trans|]. split; [done|]. split; [intros e' [= <-]; by apply Hr1|]. by exists t2.
Qed.

Lemma set_cursor_inv c l w h k :
  seg_inv (l, w) h k -> seg_inv (map_active (fun a => set_cursor a c) l, w) h k.
Proof. by apply seg_inv_cursor. Qed.

(** The position query moves the cursor, at most. *)
Lemma queried_inv l w l' w' a h k pos :
  active l = Some a -> seg_inv (l, w) h k -> disk w' = disk w ->
  l' = l /\ cursor a = Some pos \/ l' = map_active (fun a => set_cursor a (Some pos)) l ->
  seg_inv (l', w') h k /\ config l' = config l /\ exists a', active l' = Some a' /\
    as_path a' = as_path a /\ as_positions a' = as_positions a /\ as_base_offset a' = as_base_offset a /\
    cursor a' = Some pos.
Proof.
  intros Ha Hinv Hd El. assert (Hw : seg_inv (l, w') h k) by by eapply seg_inv_world.
  destruct El as [[-> Hcur]| ->].
  - split; [done|]. split; [done|]. by exists a.
  - split; [by apply set_cursor_inv|]. split; [done|]. exists (set_cursor a (Some pos)). split; [|done].
    unfold map_active. cbn [active set_active]. by rewrite Ha.
Qed.

(** From the fsync on: the records are written, and the batch is committed or
    the history is as before. *)
Lemma sync_commit_spec l0 w0 l w a h k p q t pid ts events nps :
  pid <> "" -> events <> [] -> wf_u64 ts -> later w0 w -> config l = config l0 ->
  active l = Some a -> cursor a = Some (len (p ++ q)) -> len p = next_file_pos a -> seg_inv (l, w) h k ->
  disk w !! as_path a = Some (p ++ q ++ t) -> (len h + len events <= u64_max)%N ->
  stores (p ++ q) (as_positions a ++ nps) (drop (N.to_nat (as_base_offset a)) h ++ batch pid ts (len h) events) ->
  wp panics
    (sync_batch (as_path a) (len p) ;;;
     pos <- query_position (as_path a) (len (p ++ q)) ;;
     modl (commit_batch ts pos (len h + len events) nps))
    (batch_stored l0 w0 h k pid events ts) (l, w).
Proof.
  intros Hne Hev Hts Hl02 Hc0 Ha Hcur Hlen Hinv2 Hfile2 Hu2 Hst2.
  eapply wp_then; [by apply (sync_batch_spec (as_path a) p (q ++ t))|..].
  2:{ intros e [l3 w3] (Hl3 & E & Hr3 & t4 & Hd3 & _). simpl in *. subst l3.
      split; [by eapply later_trans|]. split; [done|]. split.
      - by eapply (seg_inv_tail l w w3 a).
      - left. eapply io_error_later; [exact Hl02|]. intros e' [= <-]. by apply Hr3. }
  intros [] [l3 w3] (Hl3 & E & _ & t4 & Hd3 & Ht4). simpl in Hl3, E, Hd3. subst l3.
  specialize (Ht4 eq_refl). subst t4. rewrite insert_id in Hd3 by done.
  pose proof (later_trans _ _ _ Hl02 Hl3) as Hl03.
  eapply wp_then; [apply (query_position_spec (as_path a) (p ++ q) t); by rewrite Hd3, <- app_assoc|..].
  2:{ intros e [l4 w4] (Hl4 & Hd4 & Hr4 & E). simpl in *. subst l4.
      split; [by eapply later_trans|]. split; [done|]. split.
      - apply (seg_inv_core l (poison l) w w4); [|intros b; by rewrite Hd4, Hd3|done].
        do 3 (split; [done|]). simpl. by rewrite Ha.
      - left. by eapply io_error_later; [exact Hl03|]. }
  intros pos [l4 w4] (Hl4 & Hd4 & Hpos & El). simpl in Hl4, Hd4, El.
  apply wp_modl. split; [by eapply later_trans|].
  destruct (queried_inv l w l4 w4 a h k pos Ha Hinv2) as (Hinv4 & Hc4 & a4 & Ha4 & Ep & Eps & Eb & Ecur);
    [congruence|destruct El as [[? ->]|?]; [left; by split|by right]|].
  split; [by rewrite <- Hc0|]. do 3 (split; [done|]). simpl. split.
  - destruct Hpos as [-> | ->].
    + eapply (seg_inv_commit l4 w4 a4 h k (p ++ q) t); rewrite ?Ep, ?Eps, ?Eb; try done.
      by rewrite Hd4, Hd3, <- app_assoc.
    + eapply (seg_inv_commit l4 w4 a4 h k ((p ++ q) ++ t) []); rewrite ?Ep, ?Eps, ?Eb; try done.
      * by rewrite Hd4, Hd3, app_nil_r, <- app_assoc.
      * by apply stores_app.
  - eexists. unfold commit_batch. cbn [active]. rewrite Ha4. split; [reflexivity|]. simpl.
    split; [|done]. rewrite Eps. intros En. rewrite En in Hst2. apply Forall2_nil_inv_l in Hst2.
    destruct events; [done|]. by apply app_eq_nil in Hst2 as [_ ?].
Qed.

Lemma write_active_spec l0 w0 l w a h k pid ts events :
  utf8_valid (str_bytes pid) = true -> pid <> "" -> events <> [] -> wf_u64 ts ->
  seg_inv (l, w) h k -> active l = Some a -> later w0 w -> config l = config l0 ->
  wp panics (write_active a pid ts events (next_offset l)) (batch_stored l0 w0 h k pid events ts) (l, w).
Proof.
  intros Hpid Hne Hev Hts Hinv Ha Hl0 Hc0. unfold write_active.
  pose proof Hinv as (Hnext & Hu & _ & m & Hm & _ & _ & Hact). rewrite Ha in Hact.
  destruct Hact as (Hb & Hpa & p & t & Hf & Hlen & Hst). rewrite <- Hb in Hst.
  eapply wp_then; [apply seek_active_spec|..].
  2:{ intros e [l1 w1] [(Hl1 & Hd1 & Hr1) E]. simpl in *. subst l1.
      split; [by eapply later_trans|]. split; [done|]. split; [by eapply seg_inv_world|].
      left. eapply io_error_later; [exact Hl0|]. intros e' [= <-]. by apply Hr1. }
  intros [] [l1 w1] [(Hl1 & Hd1 & _) E]. simpl in Hl1, Hd1, E. subst l1.
  set (l1 := map_active _ l). set (a1 := set_cursor a (Some (next_file_pos a))).
  assert (Ha1 : active l1 = Some a1) by (unfold l1, map_active; simpl; rewrite Ha; done).
  assert (Hinv1 : seg_inv (l1, w1) h k) by (eapply seg_inv_world; [exact Hd1|by apply set_cursor_inv]).
  assert (Hl01 : later w0 w1) by by eapply later_trans.
  rewrite <- Hlen, Hnext.
  assert (Happ : wp panics (append_events pid ts (as_path a) (len p) events (len p) (len h) [])
    (batch_outcome w1 (as_path a) p pid ts (len h) events (as_positions a)
       (drop (N.to_nat (as_base_offset a)) h)) w1).
  { rewrite <- (app_nil_r p) at 2. apply (append_events_spec pid ts (as_path a) p [] t);
      rewrite ?app_nil_r; try done. by rewrite Hd1. }
  eapply wp_try_fs_then; [exact Happ|].
  intros r w2 (Hl2 & t2 & Hd2 & Hr2). pose proof (later_trans _ _ _ Hl01 Hl2) as Hl02.
  assert (Hinv2 : seg_inv (l1, w2) h k)
    by (eapply (seg_inv_tail l1 w1 w2 a1); [done|done|simpl; by rewrite Hd1|done|done]).
  destruct r as [[[cur next] nps]|e].
  2:{ apply wp_modl_then, wp_err. split; [done|]. split; [done|]. split; [by apply set_cursor_inv|].
      destruct Hr2 as [Hio|Href]; [left|do 4 right; by exists ts].
      by eapply io_error_later; [exact Hl01|]. }
  destruct Hr2 as (q & t3 & -> & -> & -> & Hu2 & Hst2).
  apply wp_modl_then. set (a2 := set_cursor a1 (Some (len (p ++ q)))).
  apply (sync_commit_spec l0 w0 _ w2 a2 h k p q t3); try done.
  - unfold map_active. cbn [active set_active]. by rewrite Ha1.
  - by apply set_cursor_inv.
  - simpl. by rewrite Hd2, lookup_insert_eq.
Qed.

Lemma write_batch_spec l w h k pid events :
  utf8_valid (str_bytes pid) = true -> seg_inv (l, w) h k ->
  wp panics (write_batch now pid events)
    (fun r s' => exists ts, batch_stored l w h k pid events ts r s') (l, w).
Proof.
  intros Hpid Hinv. unfold write_batch. apply wp_getl_then.
  assert (Hfail : forall e, batch_error l w (len h) pid events e ->
    wp panics (merr e) (fun r s' => exists ts, batch_stored l w h k pid events ts r s') (l, w)).
  { intros e He. apply wp_err. exists 0%N. split; [apply later_refl|]. done. }
  destruct (poisoned l) eqn:Hpo; [by apply Hfail; right; left|].
  case_bool_decide as Hev; [by apply Hfail; right; right; left|].
  case_bool_decide as Hne; [by apply Hfail; do 3 right; left|]. clear Hfail.
  eapply wp_then; [by eapply ensure_active_spec|..].
  2:{ intros e [l1 w1] ((Hl1 & Hinv1 & Hr1) & Hc1 & _). exists 0%N.
      split; [done|]. split; [done|]. split; [done|]. left. intros e' [= <-]. by apply Hr1. }
  intros [] [l1 w1] ((Hl1 & Hinv1 & _) & Hc1 & _ & Ha1). simpl in Hl1, Hc1, Ha1.
  destruct (Ha1 eq_refl) as [a Ha].
  eapply wp_fs_then; [apply wp_now|..]; [|by intros e w2 [_ [? ?]]].
  intros ts w2 [(Hl2 & Hd2 & _) [n [= ->]]]. apply wp_getl_then.
  apply wp_opt_then; [by rewrite Ha|]. intros a' Ha'. rewrite Ha in Ha'. injection Ha' as <-.
  eapply wp_mono; [apply (write_active_spec l w l1 w2 a h k pid (now n) events); try done|].
  - by eapply seg_inv_world.
  - by eapply later_trans.
  - intros r s' Hr. by exists (now n).
Qed.

(** *** Files other than segments *)

(** A file written under a temporary name and renamed: the final name has the
    old or the new content, and no third file changes. *)
Definition published (final : string) (data : bytes) (yes : bool) (d : gmap string bytes) : gmap string bytes :=
  if yes then <[final := data]> d else d.

Lemma publish_spec tmp final data w :
  wp panics (fs_create_truncate tmp ;;; fs_write tmp 0 data ;;; fs_sync tmp ;;; fs_rename tmp final ;;; fsync_dir)
    (fun r w' => later w w' /\ io_error w r /\
       forall name, name <> tmp -> disk w' !! name = published final data (is_ok r) (disk w) !! name) w.
Proof.
  eapply wp_then; [apply wp_create_truncate|..].
  2:{ intros e w1 (Hl1 & Hr1 & Hd1). split; [done|]. split; [intros e' [= <-]; by apply Hr1|].
      intros name _. by rewrite Hd1. }
  intros [] w1 (Hl1 & _ & Hd1).
  assert (Hno : forall w2 t2 e, later w w2 -> io_error (A := ()) w (Err e) -> disk w2 = <[tmp := t2]> (disk w) ->
    later w w2 /\ io_error (A := ()) w (Err e) /\
       forall name, name <> tmp -> disk w2 !! name = published final data (is_ok (A := ()) (Err e)) (disk w) !! name).
  { intros w2 t2 e Hl2 He Hd2. split; [done|]. split; [done|].
    intros name Hn. by rewrite Hd2, lookup_insert_ne. }
  eapply wp_then; [apply (wp_write tmp [] []); by rewrite Hd1, lookup_insert_eq|..].
  2:{ intros e w2 (Hl2 & Hr2 & t2 & Hd2 & _). apply (Hno _ ([] ++ t2)); [by eapply later_trans| |].
      - eapply io_error_later; [exact Hl1|]. intros e' [= <-]. by apply Hr2.
      - by rewrite Hd2, Hd1, insert_insert_eq. }
  intros n w2 (Hl2 & _ & t2 & Hd2 & Ht2). rewrite (proj2 (Ht2 _ eq_refl)), drop_nil, app_nil_r, app_nil_l in Hd2.
  rewrite Hd1, insert_insert_eq in Hd2. pose proof (later_trans _ _ _ Hl1 Hl2) as Hl12.
  eapply wp_then; [apply wp_nop, _|..].
  2:{ intros e w3 (Hl3 & Hd3 & Hr3). apply (Hno _ data); [by eapply later_trans| |congruence].
      eapply io_error_later; [exact Hl12|]. intros e' [= <-]. by apply Hr3. }
  intros [] w3 (Hl3 & Hd3 & _). pose proof (later_trans _ _ _ Hl12 Hl3) as Hl13. rewrite Hd2 in Hd3.
  eapply wp_then; [apply (wp_rename tmp final data); by rewrite Hd3, lookup_insert_eq|..].
  2:{ intros e w4 (Hl4 & Hr4 & Hd4). apply (Hno _ data); [by eapply later_trans| |congruence].
      eapply io_error_later; [exact Hl13|]. intros e' [= <-]. by apply Hr4. }
  intros [] w4 (Hl4 & _ & Hd4). pose proof (later_trans _ _ _ Hl13 Hl4) as Hl14.
  eapply wp_mono; [apply wp_fsync_dir|]. intros r w5 (Hl5 & Hd5 & ->).
  split; [by eapply later_trans|]. split; [apply io_error_ok|].
  intros name Hn. rewrite Hd5, Hd4, Hd3. unfold published. cbn [is_ok]. rewrite !lookup_insert.
  case_decide; [done|]. by rewrite lookup_delete_ne, lookup_insert_ne.
Qed.

(** No segment file has changed. *)
Definition segs_same (w w' : World) : Prop := forall b, disk w' !! seg_name b = disk w !! seg_name b.

Lemma write_index_spec base positions w :
  wp panics (write_index base positions) (fun r w' => later w w' /\ io_error w r /\ segs_same w w') w.
Proof.
  eapply wp_mono; [apply publish_spec|]. intros r w' (Hl & Hr & Hd).
  split; [done|]. split; [done|]. intros b. rewrite Hd by apply seg_name_idx_tmp.
  destruct (is_ok r); [|done]. apply lookup_insert_ne. intros E. by apply (seg_name_idx b base).
Qed.

Lemma write_watermark_spec n w :
  wp panics (write_watermark n) (fun r w' => later w w' /\ io_error w r /\ segs_same w w') w.
Proof.
  eapply wp_mono; [apply publish_spec|]. intros r w' (Hl & Hr & Hd).
  split; [done|]. split; [done|]. intros b. destruct (seg_name_watermark b) as [H1 H2].
  rewrite Hd by done. destruct (is_ok r); [|done]. apply lookup_insert_ne. intros E. by apply H1.
Qed.

(** Deleting a segment: on success it may be gone; no other segment changes. *)
Lemma delete_segment_spec b w :
  wp panics (delete_segment (seg_name b) (idx_name b)) (fun r w' => later w w' /\ io_error w r /\
    match r with
    | Ok _ => forall b', seg_name b' <> seg_name b -> disk w' !! seg_name b' = disk w !! seg_name b'
    | Err _ => segs_same w w'
    end) w.
Proof.
  unfold delete_segment. eapply wp_try_then; [apply wp_remove|]. intros r1 w1 (Hl1 & Hr1).
  assert (Hrest : (forall b', seg_name b' <> seg_name b -> disk w1 !! seg_name b' = disk w !! seg_name b') ->
    wp panics (mtry (fs_remove (idx_name b)) ;;; fsync_dir) (fun r w' => later w w' /\ io_error w r /\
      match r with
      | Ok _ => forall b', seg_name b' <> seg_name b -> disk w' !! seg_name b' = disk w !! seg_name b'
      | Err _ => segs_same w w'
      end) w1).
  { intros Hsame. eapply wp_try_then; [apply wp_remove|]. intros r2 w2 (Hl2 & Hr2).
    eapply wp_mono; [apply wp_fsync_dir|]. intros r3 w3 (Hl3 & Hd3 & ->).
    pose proof (later_trans _ _ _ Hl1 Hl2) as Hl12.
    split; [by eapply later_trans|]. split; [apply io_error_ok|]. intros b' Hb'. rewrite Hd3, <- Hsame by done.
    destruct r2; [rewrite Hr2|by destruct Hr2 as [-> _]]. apply lookup_delete_ne.
    intros E. by apply (seg_name_idx b' b). }
  destruct r1 as [[]|e].
  - change (mthen (mok ()) ?f) with (f ()). apply Hrest. intros b' Hb'. rewrite Hr1. by apply lookup_delete_ne.
  - destruct Hr1 as [Hd1 Hio]. destruct (is_not_found e) eqn:Hnf.
    + change (mthen (mok ()) ?f) with (f ()). apply Hrest. intros b' _. by rewrite Hd1.
    + change (mthen (merr e) ?f) with (merr (S := World) (A := ()) e). apply wp_err. split; [done|].
      split; [|intros b'; by rewrite Hd1]. destruct Hio as [Hio|[_ ->]]; [exact Hio|done].
Qed.

(** *** Retention *)
Lemma seg_inv_pop l w w' h k s segs :
  seg_inv (l, w) h k -> closed l = s :: segs ->
  (forall b, seg_name b <> seg_name (cs_base_offset s) -> disk w' !! seg_name b = disk w !! seg_name b) ->
  seg_inv (set_closed l (tail (closed l)), w') h (k + len (cs_positions s)).
Proof.
  intros (Hnext & Hu & Ho & m & Hm & Hch & Hcl & Hact) Hc Hd. rewrite Hc in *. simpl in Hch.
  destruct Hch as [Hb Hch]. apply Forall_cons in Hcl as [Hs Hcl]. pose proof Hs as (_ & Hne & _).
  pose proof (chain_bounds _ _ _ Hch) as Hle.
  assert (Hpos : (0 < len (cs_positions s))%N) by (destruct (cs_positions s); [done|rewrite len_cons; lia]).
  assert (Hdm : forall b, (cs_base_offset s < b)%N -> (b <= u64_max)%N ->
    disk w' !! seg_name b = disk w !! seg_name b).
  { intros b Hlt Hbu. apply Hd. intros E%seg_name_inj; unfold wf_u64; lia. }
  unfold seg_inv. cbn [set_closed next_offset closed active]. do 3 (split; [done|]).
  exists m. split; [done|]. split; [done|]. split.
  - rewrite Forall_forall in Hcl |- *. intros s' Hin. pose proof (Hcl s' Hin) as Hs'.
    apply (closed_ok_disk (disk w)); [|done]. destruct Hs' as (-> & Hne' & Hb' & _).
    pose proof (chain_base _ _ _ _ Hch Hin Hne'). apply Hdm; lia.
  - destruct (active l) as [a|]; [|done]. destruct Hact as (Hab & Hap & p & t & Hf & Hrest).
    split; [done|]. split; [done|]. exists p, t. split; [|done]. rewrite Hap in *. rewrite Hdm; [done|lia..].
Qed.

Lemma add64_panics a b : add64 oc a b = None -> panics.
Proof. unfold add64. destruct (_ <=? _)%N; [done|]. by destruct oc. Qed.

Lemma sum64_panics ns : sum64 oc ns = None -> panics.
Proof.
  unfold sum64. assert (Hg : forall acc, foldl (fun acc n => let! a := acc in add64 oc a n) acc ns = None ->
    acc = None \/ panics).
  { induction ns as [|n ns IH]; intros acc; simpl; [by left|]. intros [Hn|]%IH; [|by right].
    destruct acc as [a|]; [|by left]. right. by eapply add64_panics. }
  intros [|]%Hg; done.
Qed.

(** Evictions only move the front of the log, and [Indefinite] allows none. *)
Definition evictions (p : RetentionPolicy) (k k' : N) : Prop := (k <= k')%N /\ (p = Indefinite -> k' = k).

Lemma evictions_refl p k : evictions p k k.
Proof. by split. Qed.

(** The eviction loops keep any invariant [I] of the log and the number of
    evicted entries that deleting the front segment keeps. *)
Section Evict.
Variable I : SegmentLog * World -> N -> Prop.

(** Only whole segments at the front are lost; the numbers of evicted entries
    before and after are related by [R]. *)
Definition evicts_by (R : N -> N -> Prop) (l : SegmentLog) (w : World) (k : N) (r : result () StorageError)
    (s' : SegmentLog * World) : Prop :=
  later w (snd s') /\ io_error w r /\ config (fst s') = config l /\
  next_offset (fst s') = next_offset l /\ exists k', R k k' /\ I s' k'.

(** The loops evict whatever the policy is; what calls them respects it. *)
Abbreviation drops := (evicts_by N.le).
Abbreviation evicts l := (evicts_by (evictions (retention (config l))) l).

Lemma evicts_refl (R : N -> N -> Prop) l w k r : R k k -> I (l, w) k -> io_error w r -> evicts_by R l w k r (l, w).
Proof. intros HR Hi Hr. split; [apply later_refl|]. do 3 (split; [done|]). by exists k. Qed.

Lemma evicts_step (R R' : N -> N -> Prop) l w l1 w1 k k1 r s' :
  later w w1 -> config l1 = config l -> next_offset l1 = next_offset l ->
  (forall k', R k1 k' -> R' k k') -> evicts_by R l1 w1 k1 r s' -> evicts_by R' l w k r s'.
Proof.
  intros Hl Hc Hn Hk (Hl' & Hr & Hc' & Hn' & k' & Hk' & Hi). split; [by eapply later_trans|].
  split; [by eapply io_error_later|]. split; [congruence|]. split; [congruence|]. exists k'. auto.
Qed.

Lemma evicts_drops p l w k r s' :
  p <> Indefinite -> drops l w k r s' -> evicts_by (evictions p) l w k r s'.
Proof. intros Hp. apply evicts_step; [apply later_refl|done..|]. intros k' Hk. by split. Qed.

Hypothesis I_later : forall l w w' k, I (l, w) k -> later w w' -> disk w' = disk w -> I (l, w') k.

(** Deleting the front segment: done, or nothing has happened. *)
Hypothesis I_delete : forall s segs l w k, I (l, w) k -> closed l = s :: segs ->
  wp panics (delete_segment (cs_path s) (idx_name (cs_base_offset s))) (fun r w' => later w w' /\ io_error w r /\
    match r with
    | Ok _ => exists k', (k <= k')%N /\ I (set_closed l (tail (closed l)), w') k'
    | Err _ => I (l, w') k
    end) w.

Lemma delete_front_spec s segs l w k (f : M (SegmentLog * World) ()) :
  I (l, w) k -> closed l = s :: segs ->
  (forall l1 w1 k1, I (l1, w1) k1 -> closed l1 = segs -> wp panics f (drops l1 w1 k1) (l1, w1)) ->
  wp panics (fs (delete_segment (cs_path s) (idx_name (cs_base_offset s))) ;;; pop_front ;;; f)
    (drops l w k) (l, w).
Proof.
  intros Hinv Hc Hf. eapply wp_fs_then; [by eapply I_delete|..].
  2:{ intros e w1 (Hl1 & Hr1 & Hi1). split; [done|]. split; [intros e' [= <-]; by apply Hr1|].
      do 2 (split; [done|]). exists k. split; [lia|done]. }
  intros [] w1 (Hl1 & _ & k1 & Hk1 & Hi1). apply wp_modl_then.
  eapply wp_mono; [apply (Hf _ _ k1 Hi1); simpl; by rewrite Hc|].
  intros r s' Hev. eapply evicts_step; [exact Hl1|done|done| |exact Hev]; lia.
Qed.

Lemma evict_older_spec cutoff segs l w k :
  I (l, w) k -> closed l = segs -> wp panics (evict_older cutoff segs) (drops l w k) (l, w).
Proof.
  revert l w k. induction segs as [|s segs IH]; intros l w k Hinv Hc; cbn [evict_older].
  { apply wp_ok, evicts_refl; [lia|done|apply io_error_ok]. }
  destruct (_ <? _)%N; [|apply wp_ok, evicts_refl; [lia|done|apply io_error_ok]].
  by eapply delete_front_spec.
Qed.

Lemma evict_larger_spec max_bytes total segs l w k :
  I (l, w) k -> closed l = segs -> wp panics (evict_larger max_bytes total segs) (drops l w k) (l, w).
Proof.
  revert total l w k. induction segs as [|s segs IH]; intros total l w k Hinv Hc; cbn [evict_larger];
    (destruct (_ <? _)%N; [|apply wp_ok, evicts_refl; [lia|done|apply io_error_ok]]).
  - apply wp_ok, evicts_refl; [lia|done|apply io_error_ok].
  - eapply delete_front_spec; [done..|]. intros l1 w1 k1 Hi1 Hc1. by apply IH.
Qed.

Lemma enforce_age_spec max_age_secs l w k :
  I (l, w) k -> wp panics (enforce_age now max_age_secs) (drops l w k) (l, w).
Proof.
  intros Hinv. unfold enforce_age. eapply wp_fs_then; [apply wp_now|..]; [|by intros e w1 [_ [? ?]]].
  intros t w1 [(Hl1 & Hd1 & _) _]. apply wp_getl_then.
  eapply wp_mono; [apply (evict_older_spec _ _ l w1 k)|]; [by eapply I_later|done|].
  intros r s' Hev. eapply evicts_step; [exact Hl1|done|done|done|exact Hev].
Qed.

Lemma enforce_size_spec max_bytes l w k :
  I (l, w) k -> wp panics (enforce_size oc max_bytes) (drops l w k) (l, w).
Proof.
  intros Hinv. unfold enforce_size. apply wp_getl_then.
  apply wp_opt_then; [apply sum64_panics|]. intros sum _.
  apply wp_opt_then; [apply add64_panics|]. intros total _. by apply evict_larger_spec.
Qed.

Lemma enforce_retention_gen l w k :
  I (l, w) k -> wp panics (enforce_retention oc now) (evicts l w k) (l, w).
Proof.
  intros Hinv. unfold enforce_retention. apply wp_getl_then.
  destruct (retention (config l)); [apply wp_ok, evicts_refl; [done|done|apply io_error_ok]|..];
    (eapply wp_mono; [|intros r s'; by apply evicts_drops]).
  - by apply enforce_age_spec.
  - by apply enforce_size_spec.
  - eapply wp_then; [by apply enforce_age_spec|..].
    + intros [] [l1 w1] (Hl1 & _ & Hc1 & Hn1 & k1 & Hk1 & Hi1). simpl in *.
      eapply wp_mono; [by apply enforce_size_spec|]. intros r s' Hev.
      eapply (evicts_step _ _ l w l1 w1); [done..| |exact Hev]. lia.
    + intros e s' (Hl1 & Hr1 & Hrest). split; [done|]. split; [|done]. intros e' [= <-]. by apply Hr1.
Qed.
End Evict.

(** The invariant of the running log is one of those. *)
Abbreviation evicted l w h := (evicts_by (fun s => seg_inv s h) (evictions (retention (config l))) l w).

Lemma seg_inv_delete h s segs l w k :
  seg_inv (l, w) h k -> closed l = s :: segs ->
  wp panics (delete_segment (cs_path s) (idx_name (cs_base_offset s))) (fun r w' => later w w' /\ io_error w r /\
    match r with
    | Ok _ => exists k', (k <= k')%N /\ seg_inv (set_closed l (tail (closed l)), w') h k'
    | Err _ => seg_inv (l, w') h k
    end) w.
Proof.
  intros Hinv Hc. pose proof Hinv as (_ & _ & _ & m & _ & _ & Hcl & _). rewrite Hc in Hcl.
  apply Forall_cons in Hcl as [(-> & _) _].
  eapply wp_mono; [apply delete_segment_spec|]. intros [[]|e] w' (Hl & Hr & Hsame); (split; [done|]; split; [done|]).
  - eexists. split; [|by eapply seg_inv_pop]. lia.
  - apply (seg_inv_core l l w w'); [|done|done]. do 3 (split; [done|]). by destruct (active l).
Qed.

Lemma enforce_retention_spec l w h k :
  seg_inv (l, w) h k -> wp panics (enforce_retention oc now) (evicted l w h k) (l, w).
Proof.
  apply (enforce_retention_gen (fun s => seg_inv s h)).
  - intros l' w1 w2 k' Hi _ Hd. by eapply seg_inv_world.
  - intros. by eapply seg_inv_delete.
Qed.

(** *** Rolling *)

(** The active segment has not reached the size at which it is rolled. *)
Definition roomy (l : SegmentLog) : Prop :=
  match active l with Some a => (as_byte_size a < max_segment_bytes (config l))%N | None => True end.

Lemma should_roll_spec l w :
  wp panics (should_roll now) (fun r s' => quiet w r (snd s') /\ fst s' = l /\
    exists b, r = Ok b /\ (b = false -> roomy l)) (l, w).
Proof.
  unfold should_roll, roomy. apply wp_getl_then.
  assert (Hq : forall b : bool, quiet w (Ok b) w) by (intros b; split; [apply later_refl|split; [done|apply io_error_ok]]).
  destruct (active l) as [a|]; [|by apply wp_ok; eauto].
  destruct (N.leb_spec (max_segment_bytes (config l)) (as_byte_size a)) as [|Hlt];
    [apply wp_ok; split; [apply Hq|]; split; [done|by exists true]|].
  eapply wp_fs_then; [apply wp_now|..]; [|by intros e w1 [_ [? ?]]].
  intros t w1 [(Hl1 & Hd1 & _) _]. apply wp_ok. simpl. split; [|eauto].
  split; [done|]. split; [done|apply io_error_ok].
Qed.

(** The outcome of the parts of a roll before the segment is closed: the
    active file may have grown past its known prefix. *)
Definition tail_changed (l : SegmentLog) (w : World) (path : string) (p : bytes) (s' : SegmentLog * World) : Prop :=
  later w (snd s') /\ (exists c, fst s' = map_active (fun a => set_cursor a c) l) /\
  exists t', forall b, disk (snd s') !! seg_name b = <[path := p ++ t']> (disk w) !! seg_name b.

Lemma tail_changed_inv l w path p t a h k s' :
  seg_inv (l, w) h k -> active l = Some a -> path = as_path a ->
  disk w !! path = Some (p ++ t) -> len p = next_file_pos a ->
  tail_changed l w path p s' -> seg_inv s' h k.
Proof.
  destruct s' as [l' w']. intros Hinv Ha -> Hf Hp (_ & [c E] & t' & Hd). simpl in *. subst l'.
  apply set_cursor_inv. set (w1 := with_disk w (<[as_path a := p ++ t']> (disk w))).
  apply (seg_inv_core l l w1 w'); [|done|by eapply seg_inv_tail].
  do 3 (split; [done|]). by rewrite Ha.
Qed.

Lemma map_cursor_twice c c' l :
  map_active (fun a => set_cursor a c') (map_active (fun a => set_cursor a c) l) =
  map_active (fun a => set_cursor a c') l.
Proof. unfold map_active, set_active. simpl. by destruct (active l). Qed.

Lemma undo_sentinel_spec path p t l0 w0 l w e :
  disk w !! path = Some (p ++ t) -> tail_changed l0 w0 path p (l, w) -> (exists b, path = seg_name b) ->
  io_error (A := ()) w0 (Err e) ->
  wp panics (undo_sentinel path (len p) ;;; merr e) (fun r s' => io_error (A := ()) w0 r /\
    (exists e', r = Err e') /\ tail_changed l0 w0 path p s') (l, w).
Proof.
  intros Hd (Hl & [c Ec] & t0 & Hd0) [b0 ->] He. simpl in *. subst l.
  eapply wp_then with (Q := fun r s' => r = Ok () /\ tail_changed l0 w0 (seg_name b0) p s').
  2:{ intros [] s' [_ Ht]. apply wp_err. eauto. }
  2:{ by intros e' s' [? _]. }
  unfold undo_sentinel. eapply wp_try_fs_then; [by apply (wp_set_len (seg_name b0) p t)|].
  intros r1 w1 (Hl1 & _ & t1 & Hd1 & _).
  eapply wp_try_then; [apply seek_active_spec|]. intros r2 [l2 w2] [(Hl2 & Hd2 & _) E2]. simpl in *.
  apply wp_ok. split; [done|]. pose proof (later_trans _ _ _ Hl Hl1) as Hl01.
  split; [by eapply later_trans|]. split.
  - simpl. destruct r2; [rewrite E2, map_cursor_twice|subst l2]; by eexists.
  - exists t1. intros b. simpl. rewrite Hd2, Hd1, !lookup_insert. case_decide; [done|].
    rewrite Hd0, lookup_insert_ne; done.
Qed.

(** The active segment becomes the last closed one. *)
Lemma seg_inv_close l w a h k size last :
  seg_inv (l, w) h k -> active l = Some a -> as_positions a <> [] ->
  (last + 1 = as_base_offset a + len (as_positions a))%N ->
  seg_inv (set_closed (set_active l None) (closed l ++
    [{| cs_base_offset := as_base_offset a; last_offset := last;
        cs_last_appended_at_ns := as_last_appended_at_ns a; cs_byte_size := size;
        cs_path := as_path a; cs_positions := as_positions a |}]), w) h k.
Proof.
  intros (Hnext & Hu & Ho & m & Hm & Hch & Hcl & Hact) Ha Hne Hlast. rewrite Ha in Hact.
  destruct Hact as (Hb & Hpa & p & t & Hf & Hlen & Hst).
  assert (Hcount : (m + len (as_positions a) = len h)%N).
  { apply Forall2_length in Hst. rewrite length_drop in Hst. unfold len in *. lia. }
  unfold seg_inv. cbn [set_closed set_active next_offset closed active].
  do 3 (split; [done|]). exists (len h). split; [done|]. split.
  { apply chain_app. exists m. split; [done|]. simpl. by rewrite Hcount. }
  split; [|done]. apply Forall_app. split; [done|]. apply Forall_singleton.
  split; [simpl; by rewrite Hb|]. split; [done|]. simpl. rewrite Hb in *. split; [lia|]. split; [done|].
  exists (p ++ t). split; [done|]. apply stores_app. unfold slice.
  rewrite take_ge; [done|]. rewrite length_drop. unfold len in *. lia.
Qed.

(** What closing the active segment leaves. *)
Definition closes (l : SegmentLog) (w : World) (h : list LogEntry) (k : N) (r : result () StorageError)
    (s' : SegmentLog * World) : Prop :=
  later w (snd s') /\ io_error w r /\ config (fst s') = config l /\
  next_offset (fst s') = next_offset l /\ seg_inv s' h k /\ (r = Ok () -> active (fst s') = None).

(** A roll that fails before the segment is closed changes the tail of the
    file, at most. *)
Lemma closes_failed l w a h k p t e s' :
  seg_inv (l, w) h k -> active l = Some a -> disk w !! as_path a = Some (p ++ t) -> len p = next_file_pos a ->
  io_error (A := ()) w (Err e) -> tail_changed l w (as_path a) p s' -> closes l w h k (Err e) s'.
Proof.
  intros Hinv Ha Hf Hlen Hr Ht. pose proof (tail_changed_inv _ _ _ _ _ _ _ _ _ Hinv Ha eq_refl Hf Hlen Ht) as Hi.
  destruct Ht as (Hl & [c E] & _). destruct s' as [l' w']. simpl in *. subst l'.
  split; [done|]. split; [done|]. do 3 (split; [done|]). done.
Qed.

Lemma tail_same l w a p t w' :
  active l = Some a -> disk w !! as_path a = Some (p ++ t) -> later w w' -> disk w' = disk w ->
  tail_changed l w (as_path a) p (l, w').
Proof.
  intros Ha Hf Hl' Hd'. split; [done|]. split; [exists (cursor a)|exists t].
  - unfold map_active, set_active. rewrite Ha. simpl. destruct l, a; simpl in *. by subst.
  - intros b. simpl. by rewrite Hd', insert_id.
Qed.

Lemma undo_closes l w a h k p t l' w' e :
  seg_inv (l, w) h k -> active l = Some a -> disk w !! as_path a = Some (p ++ t) -> len p = next_file_pos a ->
  tail_changed l w (as_path a) p (l', w') -> io_error (A := ()) w (Err e) ->
  wp panics (undo_sentinel (as_path a) (len p) ;;; merr e)
    (fun r s' => (exists e', r = Err e') /\ closes l w h k r s') (l', w').
Proof.
  intros Hinv Ha Hf Hlen Ht He. pose proof Hinv as (_ & _ & _ & m & _ & _ & _ & Hact). rewrite Ha in Hact.
  destruct Hact as (_ & Hpa & _). pose proof Ht as (_ & _ & t' & Hd).
  eapply wp_mono; [apply (undo_sentinel_spec (as_path a) p t' l w)|].
  - specialize (Hd m). simpl in Hd. by rewrite Hpa, Hd, <- Hpa, lookup_insert_eq.
  - done.
  - by exists m.
  - exact He.
  - intros r s' (Hr & [e' ->] & Ht'). split; [by eexists|]. by eapply closes_failed.
Qed.

(** The end of a roll: the segment joins the closed ones. *)
Lemma close_finish_spec l w a h k size :
  seg_inv (l, w) h k -> active l = Some a -> as_positions a <> [] ->
  wp panics
    (n <- mopt (add64 oc (as_base_offset a) (len (as_positions a))) ;;
     last <- mopt (sub64 oc n 1) ;;
     modl (fun l => set_closed (set_active l None) (closed l ++
       [{| cs_base_offset := as_base_offset a; last_offset := last;
           cs_last_appended_at_ns := as_last_appended_at_ns a; cs_byte_size := size;
           cs_path := as_path a; cs_positions := as_positions a |}])))
    (fun r s' => r = Ok () /\ snd s' = w /\ config (fst s') = config l /\ next_offset (fst s') = next_offset l /\
       seg_inv s' h k /\ active (fst s') = None) (l, w).
Proof.
  intros Hinv Ha Hne. pose proof Hinv as (Hnext & Hu & _ & m & Hm & _ & _ & Hact). rewrite Ha in Hact.
  destruct Hact as (Hb & _ & p & t & _ & _ & Hst).
  assert (Hcount : (m + len (as_positions a) = len h)%N).
  { apply Forall2_length in Hst. rewrite length_drop in Hst. unfold len in *. lia. }
  apply wp_opt_then; [apply add64_panics|]. unfold add64. rewrite (proj2 (N.leb_le _ _)) by lia.
  intros n [= <-]. apply wp_opt_then; unfold sub64; rewrite (proj2 (N.leb_le _ _)) by
    (destruct (as_positions a); [done|rewrite len_cons; lia]); [done|]. intros last [= <-].
  apply wp_modl.
  pose proof (seg_inv_close l w a h k size (as_base_offset a + len (as_positions a) - 1) Hinv Ha Hne) as Hi3.
  discharge Hi3 ltac:(simpl; destruct (as_positions a); [done|rewrite len_cons; lia]). by split_and!.
Qed.

Lemma close_active_spec l w a h k :
  seg_inv (l, w) h k -> active l = Some a -> as_positions a <> [] ->
  cursor a = Some (next_file_pos a) ->
  wp panics (close_active oc a) (closes l w h k) (l, w).
Proof.
  intros Hinv Ha Hne Hcur. pose proof Hinv as (_ & _ & _ & m & _ & _ & _ & Hact). rewrite Ha in Hact.
  destruct Hact as (_ & Hpa & p & t & Hf & Hlen & _).
  unfold close_active. eapply wp_fs_then; [apply wp_nop, _|..].
  2:{ intros e w1 (Hl1 & Hd1 & Hr1). apply (closes_failed l w a h k p t e _ Hinv Ha Hf Hlen); [intros e' [= <-]; by apply Hr1|].
      by eapply tail_same. }
  intros [] w1 (Hl1 & Hd1 & _). apply wp_opt_then; [by rewrite Hcur|]. intros cur Hcur'.
  rewrite Hcur in Hcur'. injection Hcur' as <-. rewrite <- Hlen.
  eapply wp_try_fs_then; [apply (wp_write (as_path a) p t); by rewrite Hd1|].
  intros r2 w2 (Hl2 & Hr2 & t2 & Hd2 & _). rewrite Hd1 in Hd2. pose proof (later_trans _ _ _ Hl1 Hl2) as Hl12.
  assert (Ht2 : forall c w', later w w' -> (forall b, disk w' !! seg_name b = disk w2 !! seg_name b) ->
    tail_changed l w (as_path a) p (map_active (fun a => set_cursor a c) l, w')).
  { intros c w' Hl' Hd'. split; [done|]. split; [by eexists|]. exists t2. intros b. simpl. by rewrite Hd', Hd2. }
  destruct r2 as [n2|e].
  2:{ apply wp_errs_then, wp_modl_then, wp_err. split; [by eexists|].
      apply (closes_failed l w a h k p t e _ Hinv Ha Hf Hlen); [|by apply Ht2].
      eapply io_error_later; [exact Hl1|]. intros e' [= <-]. by apply Hr2. }
  apply wp_modl_then. set (l2 := map_active _ l).
  assert (Ha2 : active l2 = Some (set_cursor a (Some (len p + n2)%N)))
    by (unfold l2, map_active; cbn [active set_active]; by rewrite Ha).
  eapply wp_try_fs_then; [apply wp_nop, _|]. intros [[]|e] w3 (Hl3 & Hd3 & Hr3);
    pose proof (later_trans _ _ _ Hl12 Hl3) as Hl13.
  2:{ apply wp_errs_then. apply (undo_closes l w a h k p t _ _ e Hinv Ha Hf Hlen); [apply Ht2; [done|by rewrite Hd3]|].
      eapply io_error_later; [exact Hl12|]. intros e' [= <-]. by apply Hr3. }
  change (mthen (mok ()) ?f) with (f ()). cbv beta.
  eapply wp_try_fs_then; [apply write_index_spec|]. intros [[]|e] w4 (Hl4 & Hr4 & Hsame4);
    pose proof (later_trans _ _ _ Hl13 Hl4) as Hl14.
  2:{ apply wp_errs_then. apply (undo_closes l w a h k p t _ _ e Hinv Ha Hf Hlen); [apply Ht2; [done|intros b; by rewrite Hsame4, Hd3]|].
      eapply io_error_later; [exact Hl13|]. intros e' [= <-]. by apply Hr4. }
  change (mthen (mok ()) ?f) with (f ()). cbv beta.
  eapply wp_try_fs_then; [apply (wp_metadata_len (as_path a) (p ++ t2));
    by rewrite Hpa, Hsame4, Hd3, Hd2, Hpa, lookup_insert_eq|].
  intros r5 w5 [(Hl5 & Hd5 & _) _]. pose proof (later_trans _ _ _ Hl14 Hl5) as Hl15.
  assert (Hi2 : seg_inv (l2, w5) h k).
  { eapply (tail_changed_inv l w (as_path a) p t a); [done..|]. apply Ht2; [done|]. intros b. by rewrite Hd5, Hsame4, Hd3. }
  eapply wp_mono; [exact (close_finish_spec l2 w5 _ h k _ Hi2 Ha2 Hne)|].
  intros r [l6 w6] (-> & E & Hc & Hn & Hi & Hact). simpl in E. subst w6. split; [done|]. split; [apply io_error_ok|done].
Qed.

Lemma roll_active_spec l w a h k :
  seg_inv (l, w) h k -> active l = Some a -> as_positions a <> [] ->
  cursor a = Some (next_file_pos a) ->
  wp panics (roll_active oc now a) (evicted l w h k) (l, w).
Proof.
  intros Hinv Ha Hne Hcur. unfold roll_active. eapply wp_then; [by apply close_active_spec|..].
  2:{ intros e s' (Hl & Hr & Hc & Hn & Hi & _). do 4 (split; [done|]). by exists k. }
  intros [] [l1 w1] (Hl1 & _ & Hc1 & Hn1 & Hi1 & Hnone). simpl in *. specialize (Hnone eq_refl).
  apply wp_getl_then. eapply wp_fs_then; [apply write_watermark_spec|..].
  2:{ intros e w2 (Hl2 & Hr2 & Hsame). split; [by eapply later_trans|].
      split; [eapply io_error_later; [exact Hl1|]; intros e' [= <-]; by apply Hr2|].
      do 2 (split; [done|]). exists k. split; [done|]. apply (seg_inv_core l1 l1 w1 w2); [|done|done].
      do 3 (split; [done|]). by rewrite Hnone. }
  intros [] w2 (Hl2 & _ & Hsame).
  eapply wp_mono; [apply (enforce_retention_spec l1 w2 h k)|].
  - apply (seg_inv_core l1 l1 w1 w2); [|done|done]. do 3 (split; [done|]). by rewrite Hnone.
  - intros r s' Hev. eapply (evicts_step _ _ _ l w l1 w2 k k r s'); [by eapply later_trans|done|done| |exact Hev]. by rewrite Hc1.
Qed.

Lemma roll_segment_spec l w h k :
  seg_inv (l, w) h k -> at_end l -> wp panics (roll_segment oc now) (evicted l w h k) (l, w).
Proof.
  intros Hinv (a & Ha & Hne & Hcur). unfold roll_segment. apply wp_getl_then. rewrite Ha.
  rewrite bool_decide_eq_false_2 by done. by apply roll_active_spec.
Qed.

(** *** The whole append *)
Definition append_outcome (l : SegmentLog) (w : World) (h : list LogEntry) (k : N) (pid : string)
    (events : list OtkEvent) (r : result Offset StorageError) (s' : SegmentLog * World) : Prop :=
  (exists e, r = Err e /\ seg_inv s' h k /\ batch_error l w (len h) pid events e) \/
  (exists ts k', wf_u64 ts /\ events <> [] /\ pid <> "" /\ evictions (retention (config l)) k k' /\
     seg_inv s' (h ++ batch pid ts (len h) events) k' /\
     match r with
     | Ok o => as_u64 o = (len h + len events - 1)%N
     | Err e => io_error (A := ()) w (Err e)
     end).

Lemma len_batch pid ts next events : len (batch pid ts next events) = len events.
Proof. unfold batch, len. rewrite length_batch_entries; [done|apply repeat_length]. Qed.

(** What follows the commit of a batch. *)
Definition after_batch : M (SegmentLog * World) Offset :=
  roll <- should_roll now ;;
  (if roll : bool then roll_segment oc now else mok ()) ;;;
  l <- getl ;;
  o <- mopt (sub64 oc (next_offset l) 1) ;;
  mok (offset_new o).

Lemma append_commit pid events :
  log_append oc now pid events = (write_batch now pid events ;;; after_batch).
Proof. done. Qed.

Lemma after_batch_spec l w h k :
  seg_inv (l, w) h k -> at_end l -> h <> [] ->
  wp panics after_batch (fun r s' => later w (snd s') /\ io_error w r /\ config (fst s') = config l /\
    (exists k', evictions (retention (config l)) k k' /\ seg_inv s' h k') /\
    forall o, r = Ok o -> as_u64 o = (len h - 1)%N) (l, w).
Proof.
  intros Hinv Hend Hne. unfold after_batch.
  eapply wp_then; [apply should_roll_spec|..].
  2:{ by intros e s' (_ & _ & ? & ? & ?). }
  intros roll [l1 w1] ((Hl1 & Hd1 & _) & E & _). simpl in Hl1, Hd1, E. subst l1.
  assert (Hi1 : seg_inv (l, w1) h k) by by eapply seg_inv_world.
  assert (Hroll : wp panics (if roll then roll_segment oc now else mok ()) (evicted l w1 h k) (l, w1)).
  { destruct roll; [by apply roll_segment_spec|]. apply wp_ok, evicts_refl; [done|exact Hi1|apply io_error_ok]. }
  eapply wp_then; [exact Hroll|..].
  2:{ intros e s' (Hl2 & Hr2 & Hc2 & _ & Hk). split; [by eapply later_trans|].
      split; [eapply io_error_later; [exact Hl1|]; intros e' [= <-]; by apply Hr2|]. by split_and!. }
  intros [] [l2 w2] (Hl2 & _ & Hc2 & _ & Hk). simpl in Hl2, Hc2. apply wp_getl_then.
  destruct Hk as (k' & Hk' & Hi2). pose proof Hi2 as [Hn2 _].
  assert (Hpos : (1 <= len h)%N) by (destruct h; [done|rewrite len_cons; lia]).
  apply wp_opt_then; unfold sub64; rewrite (proj2 (N.leb_le _ _)) by lia; [done|]. intros o [= <-].
  apply wp_ok. split; [by eapply later_trans|]. split; [apply io_error_ok|]. split; [done|].
  split; [by exists k'|]. intros o [= <-]. simpl. lia.
Qed.

Lemma log_append_spec l w h k pid events :
  utf8_valid (str_bytes pid) = true -> seg_inv (l, w) h k ->
  wp panics (log_append oc now pid events) (fun r s' => later w (snd s') /\
    append_outcome l w h k pid events r s') (l, w).
Proof.
  intros Hpid Hinv. rewrite append_commit.
  eapply wp_then; [by apply write_batch_spec|..].
  2:{ intros e s' (_ & Hl & _ & Hi & He). split; [done|]. left. eauto. }
  intros [] [l1 w1] (ts & Hl1 & Hc1 & Hts & Hev & Hne & Hi1 & Hend). simpl in Hl1, Hc1, Hend.
  assert (Hpos : (1 <= len events)%N) by (destruct events; [done|rewrite len_cons; lia]).
  eapply wp_mono; [apply (after_batch_spec l1 w1 _ k Hi1 Hend)|].
  { intros E. apply (f_equal len) in E. rewrite len_app, len_batch, len_nil in E. lia. }
  intros r s' (Hl2 & Hr2 & _ & (k' & Hk' & Hi2) & Ho). split; [by eapply later_trans|]. right.
  exists ts, k'. rewrite Hc1 in Hk'. do 5 (split; [done|]). destruct r as [o|e].
  - rewrite (Ho o eq_refl), len_app, len_batch. lia.
  - eapply io_error_later; [exact Hl1|]. intros e' [= <-]. by apply Hr2.
Qed.

(** *** Reading *)
Lemma read_record_at_spec path p t pos e w :
  disk w !! path = Some (p ++ t) -> reads_in p pos e ->
  wp panics (read_record_at oc path pos) (fun r w' => quiet w r w' /\ forall e', r = Ok e' -> e' = e) w.
Proof.
  intros Hd Hr. unfold read_record_at. eapply wp_then; [by apply (wp_read path (p ++ t))|..].
  - intros c w1 [Hq Hc]. rewrite (Hc c eq_refl), (reads_in_read p t pos e Hr).
    apply wp_opt_then; [done|]. intros r [= <-]. apply wp_result. split; [|by intros e' [= <-]].
    destruct Hq as (Hl & Hdk & _). split; [done|]. split; [done|apply io_error_ok].
  - intros err w1 [(Hl & Hdk & Hio) _]. split; [|done]. split; [done|]. split; [done|].
    intros e' [= <-]. by apply Hio.
Qed.

Lemma stores_lookup p ps es i pos :
  stores p ps es -> ps !! i = Some pos -> exists e, es !! i = Some e /\ reads_in p pos e.
Proof. intros Hs Hi. by eapply Forall2_lookup_l in Hs. Qed.

Lemma take_drop_S {A} (l : list A) i n x :
  l !! i = Some x -> take (S n) (drop i l) = x :: take n (drop (S i) l).
Proof. intros Hi. by rewrite (drop_S l x i Hi). Qed.

Lemma quiet_trans {A B} w w1 w2 (r1 : result A StorageError) (r2 : result B StorageError) :
  quiet w r1 w1 -> quiet w1 r2 w2 -> quiet w r2 w2.
Proof.
  intros (Hl1 & Hd1 & _) (Hl2 & Hd2 & Hr2). split; [by eapply later_trans|]. split; [congruence|].
  by eapply io_error_later.
Qed.

Lemma quiet_ok {A} w (a : A) : quiet w (Ok a) w.
Proof. split; [apply later_refl|]. split; [done|apply io_error_ok]. Qed.

Lemma quiet_err {A B} w w' e : quiet (A := A) w (Err e) w' -> quiet (A := B) w (Err e) w'.
Proof. intros (Hl & Hd & Hr). split; [done|]. split; [done|]. intros e' [= <-]. by apply Hr. Qed.

Lemma read_offsets_spec n path base positions o entries p t es w :
  disk w !! path = Some (p ++ t) -> stores p positions es -> (base <= o)%N ->
  (forall i e, es !! i = Some e -> as_u64 (offset e) = (base + N.of_nat i)%N) ->
  (N.to_nat (o - base) + n <= length positions)%nat ->
  wp panics (read_offsets oc n path base positions o entries) (fun r w' => quiet w r w' /\
    forall res, r = Ok res -> res = entries ++ take n (drop (N.to_nat (o - base)) es)) w.
Proof.
  intros Hd Hs Hbo Hoff. revert o entries w Hd Hbo.
  induction n as [|n IH]; intros o entries w Hd Hbo Hn; cbn [read_offsets].
  { apply wp_ok. split; [apply quiet_ok|]. intros res [= <-]. by rewrite take_0, app_nil_r. }
  destruct (lookup_lt_is_Some_2 positions (N.to_nat (o - base)) ltac:(lia)) as [pos Hpos]. rewrite Hpos.
  destruct (stores_lookup _ _ _ _ _ Hs Hpos) as (e & He & Hr).
  eapply wp_then; [by apply (read_record_at_spec path p t pos e)|..].
  2:{ intros err w1 [Hq _]. split; [by eapply quiet_err|done]. }
  intros e' w1 [Hq He']. specialize (He' e' eq_refl). subst e'.
  rewrite (Hoff _ _ He). replace (base + N.of_nat (N.to_nat (o - base)))%N with o by lia.
  rewrite N.eqb_refl. cbn [negb]. pose proof Hq as (_ & Hd1 & _).
  eapply wp_mono; [apply (IH (o + 1)%N); [by rewrite Hd1|lia|lia]|].
  intros r w2 [Hq2 Hres]. split; [by eapply quiet_trans|]. intros res E. rewrite (Hres res E).
  rewrite <- app_assoc. f_equal. rewrite (take_drop_S _ _ _ _ He). simpl. do 3 f_equal. lia.
Qed.

Lemma slice_offsets h base n i e :
  offsets_ok h -> slice base n h !! i = Some e -> as_u64 (offset e) = (base + N.of_nat i)%N.
Proof.
  intros Ho Hi. unfold slice in Hi. apply lookup_take_Some in Hi as [Hi _].
  rewrite lookup_drop in Hi. rewrite (Ho _ _ Hi). lia.
Qed.

Lemma take_drop_slice h base n i m :
  (i + m <= n)%N -> take (N.to_nat m) (drop (N.to_nat i) (slice base n h)) = slice (base + i) m h.
Proof.
  intros Hle. unfold slice. rewrite skipn_firstn_comm, drop_drop, take_take.
  f_equal; [lia|]. f_equal. lia.
Qed.

Lemma slice_join h a n m : slice a n h ++ slice (a + n) m h = slice a (n + m) h.
Proof.
  unfold slice. rewrite <- (take_drop (N.to_nat n) (take (N.to_nat (n + m)) (drop (N.to_nat a) h))).
  rewrite take_take, skipn_firstn_comm, drop_drop. f_equal; f_equal; f_equal; lia.
Qed.

Lemma slice_none h a n : n = 0%N -> slice a n h = [].
Proof. intros ->. done. Qed.

(** The entries of [[k, m)] that lie in [[from, to)]. *)
Definition window (from to k m : N) (h : list LogEntry) : list LogEntry :=
  slice (N.max from k) (N.min to m - N.max from k) h.

Lemma window_join from to k m n h :
  (k <= m)%N -> (m <= n)%N -> window from to k m h ++ window from to m n h = window from to k n h.
Proof.
  intros Hkm Hmn. unfold window. destruct (N.le_gt_cases to m) as [Ht|Ht].
  - rewrite (slice_none _ (N.max from m)) by lia. rewrite app_nil_r. f_equal. lia.
  - destruct (N.le_gt_cases m from) as [Hf|Hf].
    + rewrite (slice_none _ (N.max from k) (N.min to m - N.max from k)) by lia. simpl. f_equal; lia.
    + replace (N.max from m) with (N.max from k + (N.min to m - N.max from k))%N at 1 by lia.
      rewrite slice_join. f_equal. lia.
Qed.

Lemma read_closed_spec from to segs k m h entries w :
  offsets_ok h -> (len h <= u64_max)%N -> chain k segs m -> Forall (closed_ok (disk w) h) segs ->
  wp panics (read_closed oc from to segs entries) (fun r w' => quiet w r w' /\
    forall res, r = Ok res -> res = entries ++ window from to k m h) w.
Proof.
  intros Ho Hu. revert k entries w. induction segs as [|s segs IH]; intros k entries w Hch Hcl; cbn [read_closed].
  { simpl in Hch. subst m. apply wp_ok. split; [apply quiet_ok|]. intros res [= <-].
    unfold window. by rewrite slice_none, app_nil_r by lia. }
  simpl in Hch. destruct Hch as [Hb Hch]. apply Forall_cons in Hcl as [Hs Hcl].
  pose proof (chain_bounds _ _ _ Hch) as Hm. destruct Hs as (Hp & Hne & Hle & Hlast & f & Hf & Hst).
  rewrite <- (window_join from to k (k + len (cs_positions s)) m h) by lia. rewrite Hb in *.
  destruct (N.ltb_spec (last_offset s) from) as [Hlt|Hge].
  { unfold window at 1. rewrite slice_none by lia. by apply IH. }
  destruct (N.leb_spec to k) as [Hto|Hto].
  { apply wp_ok. split; [apply quiet_ok|]. intros res [= <-]. unfold window.
    by rewrite !slice_none, !app_nil_r by lia. }
  apply wp_opt_then; [apply add64_panics|]. unfold add64. rewrite (proj2 (N.leb_le _ _)) by lia.
  intros next [= <-]. eapply wp_then; [by eapply wp_open|..].
  2:{ intros e w1 Hq. split; [by eapply quiet_err|done]. }
  intros [] w1 Hq1. pose proof Hq1 as (_ & Hd1 & _).
  rewrite Hlast. set (start := N.max from k). set (n := (N.min to (k + len (cs_positions s)) - start)%N).
  assert (Hread : wp panics (read_offsets oc (N.to_nat n) (cs_path s) k (cs_positions s) start entries)
    (fun r w' => quiet w1 r w' /\ forall res, r = Ok res -> res = entries ++ window from to k (k + len (cs_positions s)) h) w1).
  { eapply wp_mono; [apply (read_offsets_spec _ _ _ _ _ _ f [] (slice k (len (cs_positions s)) h))|].
    - by rewrite Hd1, app_nil_r.
    - done.
    - unfold start. lia.
    - intros i e. by apply slice_offsets.
    - unfold n, start. unfold len in *. lia.
    - intros r w' [Hq Hres]. split; [done|]. intros res E. rewrite (Hres res E). f_equal.
      rewrite take_drop_slice by (unfold n, start; lia). unfold window. f_equal; unfold n, start; lia. }
  eapply wp_then; [exact Hread|..].
  2:{ intros e w2 [Hq2 _]. split; [|done]. by eapply quiet_err, (quiet_trans w w1 w2). }
  intros es2 w2 [Hq2 Hres2]. pose proof Hq2 as (_ & Hd2 & _). rewrite (Hres2 es2 eq_refl).
  eapply wp_mono; [apply (IH (k + len (cs_positions s))%N); [done|by rewrite Hd2, Hd1]|].
  intros r w3 [Hq3 Hres3]. split; [by eapply (quiet_trans w w2), Hq3; eapply (quiet_trans w w1 w2)|].
  intros res E. by rewrite (Hres3 res E), app_assoc.
Qed.

Lemma active_drop h m a d p t :
  (m <= len h)%N -> active_file d a p t (drop (N.to_nat m) h) -> (m + len (as_positions a) = len h)%N.
Proof.
  intros Hm (_ & _ & Hst). apply Forall2_length in Hst. rewrite length_drop in Hst.
  unfold len in *. lia.
Qed.

Lemma read_active_spec from to l w a h k m entries :
  seg_inv (l, w) h k -> active l = Some a -> chain k (closed l) m -> as_base_offset a = m ->
  wp panics (read_active oc from to a entries) (fun r s' => later w (snd s') /\ io_error w r /\
    seg_inv s' h k /\ forall res, r = Ok res -> res = entries ++ window from to m (len h) h) (l, w).
Proof.
  intros Hinv Ha Hch Hb. pose proof Hinv as (_ & Hu & Ho & m' & Hm & Hch' & _ & Hact). rewrite Ha in Hact.
  destruct Hact as (Hb' & Hpa & p & t & Hf). rewrite Hb in Hb'. subst m'.
  pose proof (active_drop _ _ _ _ _ _ Hm Hf) as Hcount. destruct Hf as (Hf & Hlen & Hst).
  assert (Hnone : (N.min to (len h) <= N.max from m)%N ->
    wp panics (mok entries) (fun r s' => later w (snd s') /\ io_error w r /\
      seg_inv s' h k /\ forall res, r = Ok res -> res = entries ++ window from to m (len h) h) (l, w)).
  { intros Hle. unfold window. rewrite slice_none, app_nil_r by lia.
    apply wp_ok. split; [apply later_refl|]. split; [apply io_error_ok|]. split; [done|]. by intros res [= <-]. }
  unfold read_active. rewrite Hb.
  destruct (N.leb_spec to m) as [Hto|Hto]; [by apply Hnone; lia|]. cbn [orb].
  case_bool_decide as Hne; [apply Hnone; rewrite Hne, len_nil in Hcount; lia|].
  apply wp_opt_then; [apply add64_panics|]. unfold add64. rewrite (proj2 (N.leb_le _ _)) by lia.
  intros ae [= <-]. rewrite Hcount. destruct (N.leb_spec (len h) from) as [Hge|Hlt]; [by apply Hnone; lia|].
  apply wp_modl_then, wp_fs.
  eapply wp_mono; [apply (read_offsets_spec _ _ _ _ _ _ p t (drop (N.to_nat m) h))|].
  - done.
  - done.
  - lia.
  - intros i e Hi. rewrite lookup_drop in Hi. rewrite (Ho _ _ Hi). lia.
  - unfold len in *. lia.
  - intros r w' [(Hl & Hd & Hr) Hres]. split; [done|]. split; [done|]. split.
    + eapply seg_inv_world; [exact Hd|]. by apply set_cursor_inv.
    + intros res E. rewrite (Hres res E). f_equal. unfold window, slice. rewrite drop_drop. f_equal; f_equal; lia.
Qed.

(** *** What a read answers *)

(** The order of the tests is the code's: an empty range and a range past the
    end are answered before the retention check. *)
Definition read_spec (h : list LogEntry) (k : N) (from : Offset) (to : option Offset)
  : result (list LogEntry) StorageError :=
  if from_option (fun to => as_u64 to <=? as_u64 from)%N false to then Ok [] else
  if (len h <=? as_u64 from)%N then Ok [] else
  if (as_u64 from <? k)%N then
    Err (RetentionExpired from (if (k <? len h)%N then Some (offset_new k) else None))
  else Ok (history_range h from to).

Lemma earliest_offset_spec l w h k :
  seg_inv (l, w) h k -> earliest_offset_raw l = if (k <? len h)%N then Some k else None.
Proof.
  intros (_ & _ & _ & m & Hm & Hch & Hcl & Hact). unfold earliest_offset_raw.
  destruct (closed l) as [|s segs]; simpl in Hch.
  - subst m. destruct (active l) as [a|].
    + destruct Hact as (Hb & _ & p & t & Hf). pose proof (active_drop _ _ _ _ _ _ Hm Hf) as Hcount.
      case_bool_decide as Hne.
      * rewrite Hne, len_nil in Hcount. by rewrite (proj2 (N.ltb_ge _ _)) by lia.
      * rewrite (proj2 (N.ltb_lt _ _)); [by rewrite Hb|]. destruct (as_positions a); [done|].
        rewrite len_cons in Hcount. lia.
    + by rewrite (proj2 (N.ltb_ge _ _)) by lia.
  - destruct Hch as [-> Hch]. apply chain_bounds in Hch. apply Forall_cons in Hcl as [(_ & Hne & _) _].
    rewrite (proj2 (N.ltb_lt _ _)); [done|]. destruct (cs_positions s); [done|]. rewrite len_cons in Hch. lia.
Qed.

Lemma is_fully_evicted_spec l w h k :
  seg_inv (l, w) h k -> is_fully_evicted l = (len h <=? k)%N && (0 <? len h)%N.
Proof.
  intros Hinv. pose proof Hinv as (Hnext & _ & _ & m & Hm & Hch & Hcl & Hact).
  unfold is_fully_evicted, active_records. rewrite Hnext. f_equal.
  destruct (closed l) as [|s segs]; simpl in Hch.
  - subst m. rewrite bool_decide_eq_true_2 by done. simpl. destruct (active l) as [a|]; simpl.
    + destruct Hact as (_ & _ & p & t & Hf). pose proof (active_drop _ _ _ _ _ _ Hm Hf) as Hcount.
      destruct (N.eqb_spec (len (as_positions a)) 0), (N.leb_spec (len h) k); (done || lia).
    + symmetry. apply N.leb_le. lia.
  - rewrite bool_decide_eq_false_2 by done. symmetry. apply N.leb_gt.
    destruct Hch as [_ Hch]. apply chain_bounds in Hch. apply Forall_cons in Hcl as [(_ & Hne & _) _].
    destruct (cs_positions s); [done|]. rewrite len_cons in Hch. lia.
Qed.

Lemma window_all h k from to :
  (k <= as_u64 from)%N -> (len h <= u64_max)%N ->
  window (as_u64 from) (default u64_max (as_u64 <$> to)) k (len h) h = history_range h from to.
Proof.
  intros Hk Hu. unfold window, slice, history_range. rewrite N.max_l by lia. destruct to as [o|]; simpl.
  - rewrite skipn_firstn_comm. unfold len in *.
    destruct (decide (N.to_nat (as_u64 o) <= length h)%nat); [f_equal; lia|].
    rewrite !take_ge; [done|rewrite length_drop; lia..].
  - rewrite take_ge; [done|]. rewrite length_drop. unfold len in *. lia.
Qed.

Lemma log_read_range_spec l w h k from to :
  seg_inv (l, w) h k ->
  wp panics (log_read_range oc from to) (fun r s' => later w (snd s') /\ seg_inv s' h k /\
    (r = read_spec h k from to \/ exists e, r = Err e /\ io_error (A := ()) w (Err e))) (l, w).
Proof.
  intros Hinv. pose proof Hinv as (Hnext & Hu & Ho & m & Hm & Hch & Hcl & Hact).
  unfold log_read_range. apply wp_getl_then. unfold read_spec. rewrite Hnext.
  assert (Hdone : forall r : result (list LogEntry) StorageError, wp panics (mresult r) (fun r' s' => later w (snd s') /\ seg_inv s' h k /\
    (r' = r \/ exists e, r' = Err e /\ io_error (A := ()) w (Err e))) (l, w))
    by (intros r; apply wp_result; split; [apply later_refl|]; auto).
  replace (from_option (fun to_raw => to_raw <=? as_u64 from)%N false (as_u64 <$> to))
    with (from_option (fun to => as_u64 to <=? as_u64 from)%N false to) by by destruct to.
  destruct (from_option _ _ _); [apply (Hdone (Ok []))|].
  destruct (N.leb_spec (len h) (as_u64 from)) as [|Hlt]; [apply (Hdone (Ok []))|].
  rewrite (is_fully_evicted_spec l w h k Hinv), (earliest_offset_spec l w h k Hinv).
  rewrite (proj2 (N.ltb_lt 0 (len h))) by lia. rewrite andb_true_r.
  destruct (N.leb_spec (len h) k) as [Hev|Hev].
  { rewrite (proj2 (N.ltb_lt (as_u64 from) k)), (proj2 (N.ltb_ge k (len h))) by lia. apply (Hdone (Err _)). }
  rewrite (proj2 (N.ltb_lt k (len h))) by done.
  destruct (N.ltb_spec (as_u64 from) k) as [Hexp|Hk]; [apply (Hdone (Err _))|]. clear Hdone.
  change (mthen (mok ()) ?f) with (f ()). cbv beta zeta.
  eapply wp_fs_then; [by apply (read_closed_spec _ _ _ k m h)|..].
  2:{ intros e w1 [(Hl1 & Hd1 & Hr1) _]. split; [done|]. split; [by eapply seg_inv_world|]. right.
      exists e. split; [done|]. intros e' [= <-]. by apply Hr1. }
  intros entries w1 [(Hl1 & Hd1 & _) Hes]. rewrite (Hes entries eq_refl).
  assert (Hi1 : seg_inv (l, w1) h k) by by eapply seg_inv_world.
  destruct (active l) as [a|] eqn:Ha.
  - destruct Hact as (Hb & _).
    eapply wp_mono; [by apply (read_active_spec _ _ l w1 a h k m)|].
    intros r s' (Hl2 & Hr2 & Hi2 & Hres). split; [by eapply later_trans|]. split; [done|].
    destruct r as [res|e].
    + left. rewrite (Hres res eq_refl). simpl. rewrite window_join; [|by eapply chain_bounds|done].
      by rewrite window_all.
    + right. exists e. split; [done|]. eapply io_error_later; [exact Hl1|]. intros e' [= <-]. by apply Hr2.
  - subst m. apply wp_ok. split; [done|]. split; [done|]. left. simpl. by rewrite window_all.
Qed.

Lemma latest_offset_spec l w h k :
  seg_inv (l, w) h k -> latest_offset_raw oc l = Some (if (0 <? len h)%N then Some (len h - 1)%N else None).
Proof.
  intros (Hnext & Hu & _ & m & Hm & Hch & Hcl & Hact). unfold latest_offset_raw.
  assert (Hclosed : m = len h -> closed_latest l = if (0 <? len h)%N then Some (len h - 1)%N else None).
  { intros ->. unfold closed_latest. rewrite Hnext. destruct (last (closed l)) as [s|] eqn:Hlast; [|done].
    apply last_Some in Hlast as [segs Hsegs]. rewrite Hsegs in *.
    apply chain_app in Hch as (m' & _ & Hb & Hm'). simpl in Hm'.
    apply Forall_app in Hcl as [_ Hs]. apply Forall_singleton in Hs as (_ & Hne & _ & Hl & _).
    rewrite (proj2 (N.ltb_lt _ _)); [f_equal; lia|]. lia. }
  destruct (active l) as [a|]; [|by rewrite Hclosed].
  destruct Hact as (Hb & _ & p & t & Hf). pose proof (active_drop _ _ _ _ _ _ Hm Hf) as Hcount.
  case_bool_decide as Hne.
  - rewrite Hne, len_nil in Hcount. rewrite Hclosed; [done|lia].
  - assert (1 <= len (as_positions a))%N by (destruct (as_positions a); [done|rewrite len_cons; lia]).
    unfold add64, sub64. rewrite (proj2 (N.leb_le _ _)), (proj2 (N.leb_le _ _)), (proj2 (N.ltb_lt _ _)) by lia.
    do 2 f_equal. lia.
Qed.
End Inv.

(** ** Reads do not notice a write that fails late *)
Section Unheeding.
Context `{CborEvent : Cbor OtkEvent} `{Crc : Crc32}.
Variable oc : bool.

#[export] Instance unheeding_offsets n path base ps o es : Unheeding (read_offsets oc n path base ps o es).
Proof. revert o es. induction n; intros o es; cbn [read_offsets]; unfold read_record_at; apply _. Qed.
#[export] Instance unheeding_closed from to segs es : Unheeding (read_closed oc from to segs es).
Proof. revert es. induction segs; intros es; cbn [read_closed]; apply _. Qed.
#[export] Instance unheeding_getl : Unheeding getl.
Proof. done. Qed.
#[export] Instance unheeding_modl f : Unheeding (modl f).
Proof. done. Qed.
#[export] Instance unheeding_read from to : Unheeding (log_read_range oc from to).
Proof. unfold log_read_range, read_active, fs. apply _. Qed.
End Unheeding.

(** ** Claims *)
Section Claims.
Context `{CborEvent : Cbor OtkEvent} `{Crc : Crc32} `{!CborLaws OtkEvent} `{!Crc32Laws}.
Variable oc : bool.
Variable now : N -> N.
Hypothesis now_u64 : forall n, wf_u64 (now n).


(** C18: A read returns exactly the history.  [read_range] panics only with
    overflow checks, leaves the log as it was, and answers with exactly the
    retained entries of the range in order, with [RetentionExpired] and the
    earliest available offset, or with the error of an I/O call that failed;
    an empty range and a range past the end are answered before the retention
    check. *)
Theorem read_range_exact l w h k from to :
  seg_inv oc (l, w) h k ->
  match log_read_range oc from to (l, w) with
  | None => oc = true
  | Some (r, s') => seg_inv oc s' h k /\
      (r = read_spec h k from to \/ exists e, r = Err (Io e) /\ ~ faultless w)
  end.
Proof.
  intros Hinv. pose proof (log_read_range_spec oc l (heeded w) h k from to Hinv (heeded_prompt w)) as Hwp.
  change (l, heeded w) with (heeded_state (l, w)) in Hwp. rewrite (unheeding_read oc from to (l, w)) in Hwp.
  destruct (log_read_range oc from to (l, w)) as [[r [l' w']]|]; [|done]. cbn [fst snd] in Hwp.
  destruct Hwp as (_ & _ & Hi & [Hr|(e & -> & He)]); (split; [exact Hi|]); [by left|].
  destruct (He e eq_refl) as (kd & -> & Hf & _). right. exists kd. split; [done|]. by rewrite <- faultless_heeded.
Qed.

(** The reported offsets.  [earliest_offset] is the first retained offset
    and [None] when nothing is retained; [latest_offset] is the last offset
    ever stored, also after retention has evicted every entry. *)
Theorem offsets_reported l w h k :
  seg_inv oc (l, w) h k ->
  log_earliest_offset (l, w) = Some (Ok (if (k <? len h)%N then Some (offset_new k) else None), (l, w)) /\
  log_latest_offset oc (l, w) =
    Some (Ok (if (0 <? len h)%N then Some (offset_new (len h - 1)) else None), (l, w)).
Proof.
  intros Hinv. unfold log_earliest_offset, log_latest_offset, getl, mthen, mget, mok, mopt. simpl.
  rewrite (earliest_offset_spec oc l w h k Hinv), (latest_offset_spec oc l w h k Hinv). split.
  - by destruct (k <? len h)%N.
  - by destruct (0 <? len h)%N.
Qed.
End Claims.

(** ** Concrete runs *)
Definition sample_now (n : N) : N := (1000 + N.min n 1000)%N.

Lemma sample_now_u64 n : wf_u64 (sample_now n).
Proof. unfold wf_u64, sample_now, u64_max. lia. Qed.

(** Every segment is rolled after its first batch. *)
Definition small_config : SegmentLogConfig :=
  {| max_segment_bytes := 1; max_segment_age_secs := 3600; flush_interval_ms := 0; retention := Indefinite |}.

Definition fresh_log : SegmentLog :=
  {| config := small_config; closed := []; active := None; next_offset := 0; notified := 0; poisoned := false |}.

Definition world (faults : list fault) : World :=
  {| disk := ∅; schedule := faults; dead := false; clock := 0; cache := settled |}.

Lemma world_prompt faults : forallb (fun f => negb (is_late f)) faults = true -> prompt (world faults).
Proof.
  intros H. split; [|done]. apply List.Forall_forall. intros f Hf. eapply forallb_forall in H; [|exact Hf].
  by destruct (is_late f).
Qed.

Lemma fresh_inv oc faults : @seg_inv event_cbor sum_crc oc (fresh_log, world faults) [] 0.
Proof.
  split; [done|]. split; [done|]. split; [apply offsets_ok_nil|]. exists 0%N. by repeat split.
Qed.

(** Opening an empty directory gives that log. *)
Example open_fresh : @log_open event_cbor sum_crc true sample_now small_config (world []) =
  Some (Ok fresh_log, world []).
Proof. reflexivity. Qed.

Definition sample_batch (pid : string) (l : SegmentLog) (w : World) :=
  @log_append event_cbor sum_crc true sample_now pid [sample_event] (l, w).

(** The log after one successful append. *)
Definition one_entry : SegmentLog * World :=
  Eval vm_compute in
  match sample_batch "loop-1" fresh_log (world []) with
  | Some (_, s) => s
  | None => (fresh_log, world [])
  end.

Definition stored_entry : LogEntry :=
  {| offset := offset_new 0; appended_at_ns := 1001; entry_producer_id := "loop-1"; event := sample_event |}.

Lemma one_entry_append :
  @log_append event_cbor sum_crc true sample_now "loop-1" [sample_event] (fresh_log, world []) =
    Some (Ok (offset_new 0), one_entry).
Proof. vm_compute. reflexivity. Qed.

Lemma one_entry_inv : exists h k, @seg_inv event_cbor sum_crc true one_entry h k /\ len h = 1%N.
Proof.
  pose proof (@log_append_spec event_cbor sum_crc event_cbor_laws sum_crc_laws true sample_now
    sample_now_u64 fresh_log (world []) [] 0 "loop-1" [sample_event] eq_refl (fresh_inv true [])) as Hwp.
  pose proof (wp_inv _ _ _ _ _ one_entry_append (world_prompt [] eq_refl) Hwp) as H. clear Hwp. cbv beta in H.
  destruct H as (_ & _ & H).
  destruct H as [(? & ? & _)|(ts & k & _ & _ & _ & _ & Hi & _)]; [done|].
  by exists ([] ++ batch "loop-1" ts 0 [sample_event]), k.
Qed.

(** The record's write fails after seven bytes. *)
Definition write_fails : list fault := repeat Succeeds 6 ++ [Fails "ENOSPC" 7].

Lemma write_fails_append : exists s',
  @log_append event_cbor sum_crc true sample_now "loop-1" [sample_event] (fresh_log, world write_fails) =
    Some (Err (Io "ENOSPC"), s').
Proof. vm_compute. eexists. reflexivity. Qed.


Lemma read_range_exact_witness :
  exists h k, @seg_inv event_cbor sum_crc true one_entry h k /\
  match @log_read_range event_cbor sum_crc true (offset_new 0) None one_entry with
  | None => True
  | Some (r, s') => r = read_spec h k (offset_new 0) None
  end.
Proof.
  destruct one_entry_inv as (h & k & Hi & _). exists h, k. split; [done|].
  pose proof (@read_range_exact event_cbor sum_crc true (fst one_entry) (snd one_entry) h k
    (offset_new 0) None Hi) as Hr.
  change (fst one_entry, snd one_entry) with one_entry in Hr.
  destruct (@log_read_range event_cbor sum_crc true (offset_new 0) None one_entry) as [[r s']|]; [|done].
  destruct Hr as [_ [->|(e & _ & Hh)]]; [done|]. by destruct Hh.
Defined.

Lemma offsets_reported_witness :
  @log_latest_offset true one_entry = Some (Ok (Some (offset_new 0)), one_entry).
Proof.
  destruct one_entry_inv as (h & k & Hi & Hl).
  destruct (@offsets_reported event_cbor sum_crc true (fst one_entry) (snd one_entry) h k Hi) as [_ Hr].
  rewrite Hl in Hr. exact Hr.
Defined.

(** The roll after the commit fails while writing its sentinel. *)
Definition roll_fails : list fault := repeat Succeeds 10 ++ [Fails "ENOSPC" 2].

(** A failed roll duplicates the batch.  The roll that follows the commit
    of a batch fails: [append] reports an error although the batch is stored
    and readable, so the caller that trusts the contract (an error means that
    nothing was appended) and sends the batch again has it stored twice. *)
Theorem roll_failure_duplicates : exists s1 s2 s3 s4 e1 e2,
  sample_batch "loop-1" fresh_log (world roll_fails) = Some (Err (Io "ENOSPC"), s1) /\
  @log_read_range event_cbor sum_crc true (offset_new 0) None s1 = Some (Ok [e1], s2) /\
  sample_batch "loop-1" (fst s2) (snd s2) = Some (Ok (offset_new 1), s3) /\
  @log_read_range event_cbor sum_crc true (offset_new 0) None s3 = Some (Ok [e1; e2], s4) /\
  event e1 = sample_event /\ event e2 = sample_event.
Proof.
  do 6 eexists. split; [vm_compute; reflexivity|]. split; [vm_compute; reflexivity|].
  split; [vm_compute; reflexivity|]. split; [vm_compute; reflexivity|]. split; reflexivity.
Qed.

