(* ===== verification/SegmentLogLayout.v ===== *)
(** The directory of the segment log, as an append can leave it and as
    [open] finds it.

    [layout d h k cs m af] relates a disk [d] to a history [h] with its first
    [k] entries evicted: the closed segments [cs] are indexed and consecutive
    from [k], the segment after them starts at [m] and its file is [af]: not
    there, with a torn header, or live with whole records and a torn tail.
    [open_layout] proves that opening any such directory succeeds and finds
    exactly this history. *)
From stdpp Require Import base gmap strings list option numbers pretty sorting.
From Stdlib Require Import Strings.Byte.
From S2P Require Import Prelude EventModel EventLogPort SegmentFile SegmentFs SegmentLog SegmentLogSafety.

(** ** File names *)
Lemma name_inj a b sa sb :
  wf_u64 a -> wf_u64 b -> bytes_str (dec_digits 20 a ++ sa) = bytes_str (dec_digits 20 b ++ sb) ->
  a = b /\ sa = sb.
Proof.
  intros Ha Hb H%bytes_str_inj. apply app_inj_1 in H as [H ->]; [|by rewrite !length_dec_digits].
  split; [by apply dec_digits_inj|done].
Qed.

Lemma idx_name_inj a b : wf_u64 a -> wf_u64 b -> idx_name a = idx_name b -> a = b.
Proof. intros Ha Hb H. by apply (name_inj a b) in H as [? _]. Qed.

Lemma idx_name_tmp a b : idx_name a <> idx_tmp_name b.
Proof.
  intros H%bytes_str_inj. apply app_inj_1 in H as [_ H]; [done|]. by rewrite !length_dec_digits.
Qed.

Lemma long_name_watermark a s : bytes_str (dec_digits 20 a ++ s) <> WATERMARK /\
  bytes_str (dec_digits 20 a ++ s) <> WATERMARK_TMP.
Proof.
  split; intros H; apply (f_equal (fun s => length (str_bytes s))) in H;
    rewrite str_bytes_str, length_app, length_dec_digits in H; simpl in H; lia.
Qed.

(** *** The name filter of [open] *)
Lemma parse_digits_dec k n :
  (n <= u64_max)%N -> (n < 10 ^ N.of_nat k)%N ->
  foldl (fun acc b =>
    let! n := acc in
    if in_range 48 57 b then
      let m := (10 * n + (Byte.to_N b - 48))%N in
      if (m <=? u64_max)%N then Some m else None
    else None) (Some 0%N) (dec_digits k n) = Some n.
Proof.
  revert n. induction k as [|k IH]; intros n Hu Hn; cbn [dec_digits].
  { change (10 ^ N.of_nat 0)%N with 1%N in Hn. simpl. f_equal. lia. }
  rewrite foldl_app, IH.
  2:{ etrans; [apply N.Div0.div_le_upper_bound with (q := n); lia|done]. }
  2:{ apply N.Div0.div_lt_upper_bound. by rewrite Nat2N.inj_succ, N.pow_succ_r' in Hn. }
  pose proof (N.mod_lt n 10 ltac:(done)) as Hm. pose proof (N.div_mod n 10 ltac:(done)) as Hd.
  cbn [foldl]. rewrite (digit_value _ Hm).
  assert (Hr : in_range 48 57 (digit (n mod 10)) = true).
  { unfold in_range, digit. rewrite byte_to_N_of_N, (N.mod_small (48 + n mod 10)) by lia.
    revert Hm. clear. generalize (n mod 10)%N. intros m Hm.
    apply andb_true_intro; split; apply N.leb_le; lia. }
  rewrite Hr, <- Hd. by rewrite (proj2 (N.leb_le _ _) Hu).
Qed.

Lemma parse_u64_dec n : wf_u64 n -> parse_u64 (dec_digits 20 n) = Some n.
Proof.
  intros Hn. assert (Hp : parse_digits (dec_digits 20 n) = Some n).
  { unfold parse_digits. rewrite bool_decide_eq_false_2.
    - apply parse_digits_dec; [done|]. unfold wf_u64, u64_max in Hn.
      change (10 ^ N.of_nat 20)%N with 100000000000000000000%N. lia.
    - intros E. pose proof (length_dec_digits 20 n) as Hl. by rewrite E in Hl. }
  unfold parse_u64. destruct (dec_digits 20 n) as [|b bs]; [done|].
  case_bool_decide as Hb; [|done]. subst b. unfold parse_digits in Hp. cbn in Hp.
  exfalso. revert Hp. clear. induction bs as [|b bs IH]; [done|exact IH].
Qed.

Lemma parse_u64_bound bs n : parse_u64 bs = Some n -> wf_u64 n.
Proof.
  unfold wf_u64.
  assert (Hf : forall bs acc, (forall a, acc = Some a -> (a <= u64_max)%N) ->
    forall n, foldl (fun acc b =>
      let! n := acc in
      if in_range 48 57 b then
        let m := (10 * n + (Byte.to_N b - 48))%N in
        if (m <=? u64_max)%N then Some m else None
      else None) acc bs = Some n -> (n <= u64_max)%N).
  { clear. induction bs as [|b bs IH]; intros acc Hacc n; [by apply Hacc|]. cbn [foldl]. apply IH.
    intros a. destruct acc as [c|]; [|done]. destruct (in_range 48 57 b); [|done]. cbv zeta.
    destruct (N.leb_spec (10 * c + (Byte.to_N b - 48)) u64_max); [|done]. by intros [= <-]. }
  assert (Hd : forall bs, parse_digits bs = Some n -> (n <= u64_max)%N).
  { intros bs'. unfold parse_digits. case_bool_decide; [done|]. apply Hf. intros a [= <-]. done. }
  unfold parse_u64. destruct bs as [|b bs]; [done|]. case_bool_decide; apply Hd.
Qed.

(** Exactly the names that [seg_path] gives are taken for segments. *)
Lemma seg_base_spec name b : seg_base name = Some b <-> wf_u64 b /\ name = seg_name b.
Proof.
  unfold seg_base, strip_suffix. split.
  - case_bool_decide as Hs; [|done]. destruct (negb _); [done|].
    set (stem := take _ (str_bytes name)) in *. destruct (parse_u64 stem) as [base|] eqn:Hp; [|done].
    case_bool_decide as Hd; [|done]. intros [= <-]. split; [by eapply parse_u64_bound|].
    unfold seg_name. rewrite Hd, <- Hs. unfold stem. by rewrite take_drop, bytes_str_bytes.
  - intros [Hb ->]. unfold seg_name. rewrite str_bytes_str, length_app.
    replace (length (dec_digits 20 b) + length (str_bytes ".seg") - length (str_bytes ".seg"))%nat
      with (length (dec_digits 20 b)) by lia.
    rewrite drop_app_length, take_app_length, bool_decide_eq_true_2 by done.
    rewrite length_dec_digits, (parse_u64_dec b Hb). cbn [negb Nat.eqb].
    by rewrite bool_decide_eq_true_2.
Qed.

(** ** The layout *)

(** [hdr] is the header of the segment that starts at [base]. *)
Definition header_of (hdr : bytes) (base : N) : Prop :=
  len hdr = HEADER_LEN /\
  exists sh, base_offset sh = base /\ forall rest, read_header (hdr ++ rest) = Ok sh.

Lemma encode_header_of base ts :
  wf_u64 base -> wf_u64 ts -> header_of (encode_header {| base_offset := base; created_at_ns := ts |}) base.
Proof.
  intros Hb Ht. set (sh := {| base_offset := base; created_at_ns := ts |}). split.
  - unfold len, encode_header. by rewrite !length_app, !length_to_le_bytes.
  - exists sh. split; [done|]. intros rest. by apply (read_header_iff rest sh).
Qed.

(** The file of the segment after the closed ones. *)
Inductive ActiveFile :=
  | NoFile
  | TornHeader (content : bytes)
  | Live (hdr : bytes) (recs : list bytes) (tail : bytes).

(** The next offset of a directory without segments. *)
Definition watermark_value (d : gmap string bytes) : N :=
  match d !! WATERMARK with
  | Some content =>
      match read_exact 8 content with Ok (buf, _) => from_le_bytes buf | Err _ => 0%N end
  | None => 0%N
  end.

Section Layout.
Context `{CborEvent : Cbor OtkEvent} `{Crc : Crc32} `{!CborLaws OtkEvent} `{!Crc32Laws}.
Variable oc : bool.

Definition readable (rec : bytes) : Prop := exists e, reads_as oc rec e.

(** The index of a closed segment, and its file: header, records, sentinel. *)
Definition closed_index (d : gmap string bytes) (s : ClosedSegment) : Prop :=
  d !! idx_name (cs_base_offset s) = Some (encode_index (cs_positions s)) /\
  (8 * len (cs_positions s) <= MAX_INDEX_BYTES)%N /\
  exists hdr recs rest,
    d !! seg_name (cs_base_offset s) = Some (hdr ++ concat recs ++ to_le_bytes 4 0 ++ rest) /\
    header_of hdr (cs_base_offset s) /\ Forall readable recs /\
    cs_positions s = positions_from HEADER_LEN recs.

Definition active_on_disk (d : gmap string bytes) (h : list LogEntry) (m : N) (af : ActiveFile) : Prop :=
  match af with
  | NoFile => d !! seg_name m = None /\ m = len h
  | TornHeader content =>
      d !! seg_name m = Some content /\ (len content < HEADER_LEN)%N /\ m = len h
  | Live hdr recs tail =>
      d !! seg_name m = Some (hdr ++ concat recs ++ tail) /\ header_of hdr m /\
      Forall2 (reads_as oc) recs (drop (N.to_nat m) h) /\ torn_tail tail
  end.

Record layout (d : gmap string bytes) (h : list LogEntry) (k : N) (cs : list ClosedSegment) (m : N)
    (af : ActiveFile) : Prop := {
  lay_u64 : (len h <= u64_max)%N;
  lay_offsets : offsets_ok h;
  lay_le : (m <= len h)%N;
  lay_chain : chain k cs m;
  lay_closed : Forall (closed_ok oc d h) cs;
  lay_index : Forall (closed_index d) cs;
  (** No other segment file, and no index from [m] on. *)
  lay_names : forall b, wf_u64 b -> is_Some (d !! seg_name b) -> b = m \/ exists s, s ∈ cs /\ b = cs_base_offset s;
  lay_no_index : forall b, wf_u64 b -> (m <= b)%N -> d !! idx_name b = None;
  lay_active : active_on_disk d h m af;
  (** Without a segment the watermark is the next offset. *)
  lay_watermark : cs = [] -> af = NoFile -> watermark_value d = m
}.

Definition on_disk (d : gmap string bytes) (h : list LogEntry) (k : N) : Prop :=
  exists cs m af, layout d h k cs m af.

(** The memory of the log agrees with the disk, whose active segment ends
    after its last record. *)
Definition active_clean (a : option ActiveSegment) (m : N) (af : ActiveFile) : Prop :=
  match a with
  | None => af = NoFile
  | Some a => as_base_offset a = m /\ as_path a = seg_name m /\
      as_byte_size a = saturating_sub (next_file_pos a) HEADER_LEN /\ exists hdr recs, af = Live hdr recs [] /\
      as_positions a = positions_from HEADER_LEN recs /\ next_file_pos a = len (hdr ++ concat recs)
  end.

Definition clean (s : SegmentLog * World) (h : list LogEntry) (k : N) : Prop :=
  let (l, w) := s in
  next_offset l = len h /\
  exists m af, layout (disk w) h k (closed l) m af /\ active_clean (active l) m af.

Lemma clean_on_disk l w h k : clean (l, w) h k -> on_disk (disk w) h k.
Proof. intros (_ & m & af & Hl & _). by exists (closed l), m, af. Qed.

(** A clean log satisfies the invariant of the running log. *)
Lemma stores_positions_from hdr recs es :
  Forall2 (reads_as oc) recs es -> stores oc (hdr ++ concat recs) (positions_from (len hdr) recs) es.
Proof.
  intros Hf. revert hdr. induction Hf as [|rec e recs es Hr Hf IH]; intros hdr; [constructor|].
  cbn [concat positions_from]. rewrite app_assoc. constructor.
  - exists hdr, rec, (concat recs). by rewrite <- app_assoc.
  - rewrite <- len_app. apply IH.
Qed.

Lemma clean_inv l w h k : clean (l, w) h k -> seg_inv oc (l, w) h k.
Proof.
  intros (Hn & m & af & Hl & Ha). split; [done|]. split; [apply Hl|]. split; [apply Hl|].
  exists m. do 3 (split; [apply Hl|]). pose proof (lay_active _ _ _ _ _ _ Hl) as Hd.
  destruct (active l) as [a|]; simpl in Ha; [|subst af; apply Hd].
  destruct Ha as (Hb & Hp & _ & hdr & recs & -> & Hps & Hnf). destruct Hd as (Hd & [Hlen _] & Hr & _).
  split; [done|]. split; [done|]. exists (hdr ++ concat recs), [].
  split; [by rewrite Hp, <- app_assoc|]. split; [done|]. rewrite Hps, <- Hlen.
  by apply stores_positions_from.
Qed.

(** *** Changes of the disk *)

(** The files that matter are the same. *)
Definition same_files (d d' : gmap string bytes) : Prop :=
  (forall b, d' !! seg_name b = d !! seg_name b) /\
  (forall b, d' !! idx_name b = d !! idx_name b) /\ d' !! WATERMARK = d !! WATERMARK.

Lemma closed_index_disk d d' s :
  d' !! idx_name (cs_base_offset s) = d !! idx_name (cs_base_offset s) ->
  d' !! seg_name (cs_base_offset s) = d !! seg_name (cs_base_offset s) ->
  closed_index d s -> closed_index d' s.
Proof. intros E1 E2 (Hi & Hm & hdr & recs & rest & Hs & Hh). rewrite <- E1 in Hi. rewrite <- E2 in Hs. split; [done|]. eauto 8. Qed.

Lemma layout_same d d' h k cs m af : same_files d d' -> layout d h k cs m af -> layout d' h k cs m af.
Proof.
  intros (Hs & Hi & Hw) [Hu Ho Hm Hch Hcl Hix Hn Hni Ha Hwm].
  split; try done.
  - eapply Forall_impl; [exact Hcl|]. intros s Hc. pose proof Hc as (Hp & _).
    apply (closed_ok_disk _ d); [|done]. by rewrite Hp.
  - eapply Forall_impl; [exact Hix|]. intros s. by apply closed_index_disk.
  - intros b. rewrite Hs. apply Hn.
  - intros b. rewrite Hi. apply Hni.
  - unfold active_on_disk in *. by rewrite Hs.
  - intros H1 H2. rewrite <- Hwm by done. unfold watermark_value. by rewrite Hw.
Qed.

Lemma clean_same l w w' h k : same_files (disk w) (disk w') -> clean (l, w) h k -> clean (l, w') h k.
Proof. intros Hs (Hn & m & af & Hl & Ha). split; [done|]. exists m, af. split; [by eapply layout_same|done]. Qed.

Lemma same_files_refl d : same_files d d.
Proof. done. Qed.

Lemma same_files_eq d d' : d' = d -> same_files d d'.
Proof. by intros ->. Qed.

(** Segment files stay, and grow behind their header. *)
Definition grown (c c' : bytes) : Prop :=
  exists t, drop (N.to_nat HEADER_LEN) c' = drop (N.to_nat HEADER_LEN) c ++ t.

Definition grows (d d' : gmap string bytes) : Prop :=
  forall b c, d !! seg_name b = Some c -> exists c', d' !! seg_name b = Some c' /\ grown c c'.

Lemma grown_refl c : grown c c.
Proof. exists []. by rewrite app_nil_r. Qed.

Lemma grows_trans d1 d2 d3 : grows d1 d2 -> grows d2 d3 -> grows d1 d3.
Proof.
  intros H1 H2 b c (c2 & E2 & t2 & Hg2)%H1. destruct (H2 b c2 E2) as (c3 & E3 & t3 & Hg3).
  exists c3. split; [done|]. exists (t2 ++ t3). by rewrite Hg3, Hg2, app_assoc.
Qed.

Lemma grows_same d d' : (forall b, d' !! seg_name b = d !! seg_name b) -> grows d d'.
Proof. intros Hs b c E. exists c. rewrite Hs. split; [done|apply grown_refl]. Qed.

Lemma grows_new d m c : d !! seg_name m = None -> grows d (<[seg_name m := c]> d).
Proof.
  intros Hm b c' E. exists c'. split; [|apply grown_refl]. rewrite lookup_insert_ne; [done|].
  intros En. rewrite En in Hm. congruence.
Qed.

Lemma grows_insert d m p t :
  (HEADER_LEN <= len p)%N -> d !! seg_name m = Some p -> grows d (<[seg_name m := p ++ t]> d).
Proof.
  intros Hl Hm b c E. destruct (decide (seg_name m = seg_name b)) as [En|En].
  - exists (p ++ t). rewrite En, lookup_insert_eq. split; [done|]. exists t. rewrite En, E in Hm.
    injection Hm as ->. rewrite drop_app_le; [done|]. unfold len in Hl. lia.
  - exists c. rewrite lookup_insert_ne by done. split; [done|apply grown_refl].
Qed.

Lemma layout_base d h k cs m af s : layout d h k cs m af -> s ∈ cs -> (k <= cs_base_offset s < m)%N.
Proof.
  intros Hl Hin. pose proof (lay_closed _ _ _ _ _ _ Hl) as Hc. rewrite Forall_forall in Hc.
  eapply chain_base; [apply Hl|done|]. by destruct (Hc s Hin) as (_ & ? & _).
Qed.

(** A new content of the active file, with entries after [h]. *)
Lemma layout_active d d' h x k cs m af af' content :
  layout d h k cs m af -> same_files (<[seg_name m := content]> d) d' ->
  offsets_ok (h ++ x) -> (len (h ++ x) <= u64_max)%N -> af' <> NoFile ->
  active_on_disk (<[seg_name m := content]> d) (h ++ x) m af' ->
  layout d' (h ++ x) k cs m af'.
Proof.
  intros Hl Hs Ho' Hu' Hne Ha'. eapply layout_same; [exact Hs|]. clear Hs.
  pose proof (fun s => layout_base _ _ _ _ _ _ s Hl) as Hb. destruct Hl as [Hu Ho Hm Hch Hcl Hix Hn Hni Ha Hwm].
  assert (Hw : wf_u64 m) by (unfold wf_u64; lia).
  assert (Hseg : forall b, wf_u64 b -> b <> m -> <[seg_name m := content]> d !! seg_name b = d !! seg_name b).
  { intros b Hwb Hne'. apply lookup_insert_ne. intros E%seg_name_inj; done. }
  assert (Hidx : forall b, <[seg_name m := content]> d !! idx_name b = d !! idx_name b).
  { intros b. apply lookup_insert_ne, seg_name_idx. }
  assert (Hold : forall s, s ∈ cs -> wf_u64 (cs_base_offset s) /\ cs_base_offset s <> m).
  { intros s Hin%Hb. unfold wf_u64 in *. lia. }
  split; try done.
  - rewrite len_app. lia.
  - rewrite Forall_forall in Hcl |- *. intros s Hin. destruct (Hold s Hin). apply closed_ok_app.
    pose proof (Hcl s Hin) as Hc. pose proof Hc as (Hp & _). apply (closed_ok_disk _ d); [|done].
    rewrite Hp. by apply Hseg.
  - rewrite Forall_forall in Hix |- *. intros s Hin. destruct (Hold s Hin).
    apply (closed_index_disk d); [done|by apply Hseg|by apply Hix].
  - intros b Hwb Hsome. destruct (decide (b = m)) as [|Hbm]; [by left|]. rewrite Hseg in Hsome by done. by apply Hn.
  - intros b Hwb Hle. rewrite Hidx. by apply Hni.
Qed.
End Layout.
