(* ===== verification/SegmentLogOpen.v ===== *)
(** Opening a directory of the segment log: every layout opens to a log that
    agrees with the disk and stands for its history, unless an I/O call fails;
    then the directory still holds that history. *)
From stdpp Require Import base gmap strings list option numbers pretty sorting.
From Stdlib Require Import Strings.Byte.
From S2P Require Import Prelude EventModel EventLogPort SegmentFile SegmentFs SegmentLog SegmentLogSafety SegmentLogLayout.

(** A file length is a [u64]. *)
Definition sizes_ok (d : gmap string bytes) : Prop :=
  forall name content, d !! name = Some content -> (len content <= u64_max)%N.

(** ** The scan of the directory *)
Lemma NoDup_omap_inj {A B} (f : A -> option B) (l : list A) :
  (forall x y b, f x = Some b -> f y = Some b -> x = y) -> NoDup l -> NoDup (omap f l).
Proof.
  intros Hf Hl. induction Hl as [|x l Hx Hl IH]; [constructor|].
  cbn [omap list_omap]. destruct (f x) as [b|] eqn:E; [|done]. constructor; [|done].
  rewrite list_elem_of_omap. intros (y & Hy & E'). by rewrite (Hf _ _ _ E E') in Hx.
Qed.

Definition file_bases (cs : list ClosedSegment) (m : N) (af : ActiveFile) : list N :=
  (cs_base_offset <$> cs) ++ match af with NoFile => [] | _ => [m] end.

Lemma StronglySorted_chain k cs m bases :
  chain k cs m -> Forall (fun s => cs_positions s <> []) cs -> StronglySorted N.le bases ->
  Forall (N.le m) bases ->
  StronglySorted N.le ((cs_base_offset <$> cs) ++ bases) /\ Forall (N.le k) ((cs_base_offset <$> cs) ++ bases).
Proof.
  intros Hc Hne Hb Hm. revert k Hc. induction Hne as [|s cs Hs Hne IH]; intros k; simpl.
  { by intros ->. }
  intros [Hk Hc]. apply IH in Hc as [H1 H2]. subst k. split.
  - constructor; [done|]. eapply Forall_impl; [exact H2|]. intros b. lia.
  - constructor; [lia|]. eapply Forall_impl; [exact H2|]. intros b. lia.
Qed.

Lemma NoDup_chain k cs m :
  chain k cs m -> Forall (fun s => cs_positions s <> []) cs ->
  NoDup (cs_base_offset <$> cs) /\ Forall (fun b => (k <= b < m)%N) (cs_base_offset <$> cs).
Proof.
  intros Hc Hne. revert k Hc. induction Hne as [|s cs Hs Hne IH]; intros k; simpl.
  { intros ->. split; constructor. }
  intros [Hk Hc]. pose proof (chain_bounds _ _ _ Hc) as Hle. apply IH in Hc as [H1 H2]. subst k.
  assert (1 <= len (cs_positions s))%N by (destruct (cs_positions s); [done|rewrite len_cons; lia]).
  split; constructor; [|done|lia|].
  - intros Hin. rewrite Forall_forall in H2. apply H2 in Hin. lia.
  - eapply Forall_impl; [exact H2|]. intros b. simpl. lia.
Qed.

Section Open.
Context `{CborEvent : Cbor OtkEvent} `{Crc : Crc32} `{!CborLaws OtkEvent} `{!Crc32Laws}.
Variable oc : bool.

Lemma elem_of_bases (d : gmap string bytes) b :
  b ∈ omap seg_base (map_to_list d).*1 <-> wf_u64 b /\ is_Some (d !! seg_name b).
Proof.
  rewrite list_elem_of_omap. split.
  - intros (name & Hin & E). apply seg_base_spec in E as [Hb ->]. split; [done|].
    apply list_elem_of_fmap in Hin as ([n c] & -> & Hin). apply elem_of_map_to_list in Hin. by eexists.
  - intros [Hb [c Hc]]. exists (seg_name b). split; [|by apply seg_base_spec].
    apply list_elem_of_fmap. exists (seg_name b, c). split; [done|]. by apply elem_of_map_to_list.
Qed.

Lemma layout_positions d h k cs m af :
  layout oc d h k cs m af -> Forall (fun s => cs_positions s <> []) cs.
Proof. intros Hl. eapply Forall_impl; [apply Hl|]. by intros s (_ & ? & _). Qed.

Lemma scan_layout d h k cs m af :
  layout oc d h k cs m af -> merge_sort N.le (omap seg_base (map_to_list d).*1) = file_bases cs m af.
Proof.
  intros Hl. pose proof (layout_positions _ _ _ _ _ _ Hl) as Hne.
  pose proof (lay_chain _ _ _ _ _ _ _ Hl) as Hc. pose proof (lay_active _ _ _ _ _ _ _ Hl) as Ha.
  destruct (NoDup_chain _ _ _ Hc Hne) as [Hnd Hb].
  assert (Hm : wf_u64 m) by (pose proof (lay_le _ _ _ _ _ _ _ Hl); pose proof (lay_u64 _ _ _ _ _ _ _ Hl); unfold wf_u64; lia).
  apply (Sorted_unique N.le).
  - apply Sorted_merge_sort. intros x y. lia.
  - apply StronglySorted_Sorted. eapply (StronglySorted_chain k cs m); [done|done|..].
    + destruct af; repeat constructor.
    + destruct af; repeat constructor; lia.
  - rewrite merge_sort_Permutation. apply NoDup_Permutation.
    + apply NoDup_omap_inj; [|apply NoDup_fst_map_to_list].
      intros x y b Hx%seg_base_spec Hy%seg_base_spec. destruct Hx as [_ ->], Hy as [_ ->]. done.
    + unfold file_bases. apply NoDup_app. split; [done|]. split.
      * intros b Hin. rewrite Forall_forall in Hb. apply Hb in Hin. destruct af; set_solver by lia.
      * destruct af; repeat constructor; set_solver.
    + intros b. rewrite elem_of_bases. unfold file_bases. rewrite elem_of_app, list_elem_of_fmap. split.
      * intros [Hw Hs]. destruct (lay_names _ _ _ _ _ _ _ Hl b Hw Hs) as [->|(s & Hin & ->)]; [right|left; eauto].
        destruct af; [destruct Ha as [E _]; rewrite E in Hs; by destruct Hs|set_solver..].
      * intros [(s & -> & Hin)|Hin].
        -- pose proof (layout_base _ _ _ _ _ _ _ _ Hl Hin) as Hlt. split; [unfold wf_u64 in *; lia|].
           pose proof (lay_closed _ _ _ _ _ _ _ Hl) as Hcl. rewrite Forall_forall in Hcl.
           destruct (Hcl s Hin) as (<- & _ & _ & _ & f & Hf & _). by exists f.
        -- destruct af; [set_solver| |]; apply list_elem_of_singleton in Hin as ->; (split; [done|]);
             destruct Ha as [E _]; by rewrite E.
Qed.

(** ** Segments with an index *)

(** What [open] finds of a closed segment; its size and time may differ. *)
Definition same_seg (s s' : ClosedSegment) : Prop :=
  cs_base_offset s' = cs_base_offset s /\ last_offset s' = last_offset s /\ cs_path s' = cs_path s /\
  cs_positions s' = cs_positions s.

Lemma layout_same_seg d h k cs cs' m af :
  Forall2 same_seg cs cs' -> layout oc d h k cs m af -> layout oc d h k cs' m af.
Proof.
  intros Hs [Hu Ho Hm Hch Hcl Hix Hn Hni Ha Hwm]. split; try done.
  - clear -Hs Hch. revert k Hch. induction Hs as [|s s' cs cs' (Eb & _ & _ & Ep) Hs IH]; intros k; [done|].
    simpl. rewrite Eb, Ep. intros [-> Hc]. split; [done|]. by apply IH.
  - clear -Hs Hcl. induction Hs as [|s s' cs cs' (Eb & El & Epa & Ep) Hs IH]; [done|].
    apply Forall_cons in Hcl as [Hc Hcl]. constructor; [|by apply IH].
    unfold closed_ok in *. by rewrite Eb, El, Epa, Ep.
  - clear -Hs Hix. induction Hs as [|s s' cs cs' (Eb & El & Epa & Ep) Hs IH]; [done|].
    apply Forall_cons in Hix as [Hc Hix]. constructor; [|by apply IH].
    unfold closed_index in *. by rewrite Eb, Ep.
  - intros b Hb Hsome. destruct (Hn b Hb Hsome) as [|(s & Hin & ->)]; [by left|]. right.
    apply list_elem_of_lookup in Hin as [i Hi]. destruct (Forall2_lookup_l _ _ _ _ _ Hs Hi) as (s' & Hi' & Eb & _).
    exists s'. split; [by eapply list_elem_of_lookup_2|done].
  - intros -> . inversion Hs. by apply Hwm.
Qed.

Lemma positions_u64 p ps es :
  stores oc p ps es -> (len p <= u64_max)%N -> Forall wf_u64 ps.
Proof.
  intros Hs Hu. induction Hs as [|pos e ps es (pre & rec & post & -> & <- & _) Hs IH]; constructor; [|done].
  rewrite len_app in Hu. unfold wf_u64. lia.
Qed.

Section Steps.
Context {D : gmap string bytes -> Prop} (d : gmap string bytes) (HD : D d).

Lemma steps_read_record path p pos e V w :
  at_disk d w -> d !! path = Some p -> reads_in oc p pos e -> (forall w', at_disk d w' -> V e w') ->
  steps D (read_record_at oc path pos) V w.
Proof.
  intros Hw E Hr HV. apply steps_then, (steps_read d HD path p); [done..|]. intros w1 Hw1.
  rewrite <- (app_nil_r p), (reads_in_read _ p [] pos e Hr). by apply (steps_ok e), HV.
Qed.

Lemma steps_exists name V w :
  at_disk d w -> (forall w', at_disk d w' -> V (bool_decide (is_Some (d !! name))) w') ->
  steps D (fs_exists name) V w.
Proof.
  intros Hw HV. unfold fs_exists. destruct (d !! name) as [c|] eqn:E.
  - rewrite bool_decide_eq_true_2 in HV by by eexists. apply steps_try_then.
    + apply (steps_metadata_len d HD _ c); [done..|]. intros w1 Hw1. by apply steps_ok, HV.
    + intros e w1 _ He _. by rewrite (honest_found w e) by (by apply Hw || done).
  - rewrite bool_decide_eq_false_2 in HV by by destruct 1.
    apply (steps_missing d); [done|done|by rewrite E|..].
    + by intros e w1 ->.
    + intros w1 Hw1. by apply (steps_ok false), HV.
Qed.

Lemma slice_last base n (h : list LogEntry) :
  (0 < n)%N -> (base + n <= len h)%N -> last (slice base n h) = h !! N.to_nat (base + n - 1).
Proof.
  intros Hn Hle. unfold slice. rewrite last_lookup, length_take, length_drop.
  unfold len in *. rewrite lookup_take_lt by lia. rewrite lookup_drop. f_equal. lia.
Qed.

(** The last record of a closed segment. *)
Lemma closed_last h s file :
  offsets_ok h -> cs_positions s <> [] -> (cs_base_offset s + len (cs_positions s) <= len h)%N ->
  stores oc file (cs_positions s) (slice (cs_base_offset s) (len (cs_positions s)) h) ->
  exists pos e, last (cs_positions s) = Some pos /\ reads_in oc file pos e /\
    as_u64 (offset e) = (cs_base_offset s + len (cs_positions s) - 1)%N.
Proof.
  intros Ho Hne Hle Hst. assert (Hp : (0 < len (cs_positions s))%N).
  { destruct (cs_positions s); [done|]. rewrite len_cons. lia. }
  destruct (last (cs_positions s)) as [pos|] eqn:El; [|by apply last_None in El].
  rewrite last_lookup in El. destruct (stores_lookup _ _ _ _ _ _ Hst El) as (e & He & Hr).
  exists pos, e. split; [done|]. split; [done|].
  pose proof (Forall2_length _ _ _ Hst) as Hl. rewrite Hl, <- last_lookup, slice_last in He by done.
  rewrite (Ho _ _ He). lia.
Qed.

Lemma open_closed_steps h s V w :
  at_disk d w -> sizes_ok d -> offsets_ok h -> (len h <= u64_max)%N ->
  closed_ok oc d h s -> closed_index oc d s ->
  (forall s' w', at_disk d w' -> same_seg s s' ->
     V (Some (s', (cs_base_offset s + len (cs_positions s))%N)) w') ->
  steps D (open_closed oc (cs_base_offset s)) V w.
Proof.
  intros Hw Hsz Ho Hu (Hp & Hne & Hle & Hlast & file & Hf & Hst) (Hi & Hmax & hdr & recs & rest & Hf' & (Hlen & sh & Hb & Hrd) & _) HV.
  rewrite Hp in Hf. destruct (closed_last h s file Ho Hne Hle Hst) as (pos & e & El & Hre & Heo).
  assert (Hn : (0 < len (cs_positions s))%N) by (destruct (cs_positions s); [done|rewrite len_cons; lia]).
  unfold open_closed. apply steps_try_then; [apply (steps_open d HD); [done|by eexists|]; intros w1 Hw1|].
  2:{ intros err w1 _ He _. by rewrite (honest_found w err) by (by apply Hw || done). }
  apply steps_then, (steps_metadata_len d HD _ _ _ _ Hw1 Hi). clear w Hw w1 Hw1. intros w Hw.
  apply steps_then, (steps_read d HD _ _ _ _ Hw Hi). clear w Hw. intros w Hw.
  destruct (index_roundtrip (idx_name (cs_base_offset s))) as [Hround _].
  rewrite (Hround (cs_positions s)); [|by eapply positions_u64, Hsz|done].
  change (mthen (mresult (Ok ?x)) ?f) with (f x). cbv beta zeta. rewrite El.
  unfold checked_add64 at 1. rewrite (proj2 (N.leb_le _ _)) by lia.
  apply steps_then, (steps_read d HD _ _ _ _ Hw Hf'). clear w Hw. intros w Hw. rewrite Hrd.
  change (mthen (mresult (Ok ?x)) ?f) with (f x). cbv beta.
  unfold check_base. rewrite Hb, N.eqb_refl. cbn [negb]. change (mthen (mok ()) ?f) with (f ()). cbv beta.
  apply steps_then, (steps_read_record _ file pos e); [done..|]. clear w Hw. intros w Hw.
  rewrite Heo, N.eqb_refl. cbn [negb].
  apply steps_then, (steps_metadata_len d HD _ _ _ _ Hw Hf'). clear w Hw. intros w Hw. apply steps_ok, HV; [done|].
  split; [done|]. split; [simpl; lia|]. by split.
Qed.

(** The loop over the closed segments. *)
Lemma open_segments_steps now h segs k m rest cs0 next0 V w :
  at_disk d w -> sizes_ok d -> offsets_ok h -> (len h <= u64_max)%N -> chain k segs m ->
  Forall (closed_ok oc d h) segs -> Forall (closed_index oc d) segs ->
  (forall segs' w', at_disk d w' -> Forall2 same_seg segs segs' ->
     steps D (open_segments oc now rest (cs0 ++ segs') None (if bool_decide (segs = []) then next0 else m)) V w') ->
  steps D (open_segments oc now ((cs_base_offset <$> segs) ++ rest) cs0 None next0) V w.
Proof.
  intros Hw Hsz Ho Hu. revert w Hw k cs0 next0. induction segs as [|s segs IH]; intros w Hw k cs0 next0 Hc Hcl Hix HV.
  { specialize (HV [] w Hw ltac:(constructor)). by rewrite app_nil_r in HV. }
  apply Forall_cons in Hcl as [Hs Hcl]. apply Forall_cons in Hix as [Hi Hix]. destruct Hc as [Hb Hc].
  cbn [fmap list_fmap app open_segments]. apply steps_then, steps_exists; [done|]. clear w Hw. intros w Hw.
  rewrite bool_decide_eq_true_2 by (destruct Hi as [-> _]; by eexists).
  apply steps_then, (open_closed_steps h s); [done..|]. clear w Hw. intros s' w Hw Hss.
  cbv beta iota. eapply IH; [done|exact Hc|done|done|]. clear w Hw. intros segs' w Hw Hsegs. rewrite <- app_assoc.
  specialize (HV (s' :: segs') w Hw ltac:(by constructor)).
  rewrite bool_decide_eq_false_2 in HV by done.
  case_bool_decide as Hnil; [|exact HV]. subst segs. simpl in Hc. by rewrite Hb, Hc.
Qed.

Lemma read_watermark_steps V w :
  at_disk d w -> (forall wm w', at_disk d w' -> default 0%N wm = watermark_value d -> V wm w') ->
  steps D read_watermark V w.
Proof.
  intros Hw HV. unfold read_watermark, watermark_value in *.
  destruct (d !! WATERMARK) as [c|] eqn:E.
  - apply steps_try_then.
    + apply (steps_open d HD); [done|by eexists|]. intros w1 Hw1.
      apply steps_then, (steps_read d HD _ _ _ _ Hw1 E). intros w2 Hw2.
      destruct (read_exact 8 c) as [[buf r]|]; apply steps_ok; by apply HV.
    + intros e w1 _ He _. by rewrite (honest_found w e) by (by apply Hw || done).
  - apply (steps_missing d); [done|done|by rewrite E|..].
    + by intros e w1 ->.
    + intros w1 Hw1. by apply (steps_ok None), HV.
Qed.
End Steps.

(** ** The active segment *)
Variable now : N -> N.
Hypothesis now_u64 : forall n, wf_u64 (now n).

(** The same history with another content of the active file. *)
Lemma layout_rewrite d h k cs m af af' content :
  layout oc d h k cs m af -> af' <> NoFile -> active_on_disk oc (<[seg_name m := content]> d) h m af' ->
  layout oc (<[seg_name m := content]> d) h k cs m af'.
Proof.
  intros Hl Hne Ha. rewrite <- (app_nil_r h).
  apply (layout_active oc d _ h [] k cs m af af' content); rewrite ?app_nil_r; try done; apply Hl.
Qed.

Lemma layout_m d h k cs m af : layout oc d h k cs m af -> wf_u64 m.
Proof. intros Hl. pose proof (lay_le _ _ _ _ _ _ _ Hl). pose proof (lay_u64 _ _ _ _ _ _ _ Hl). unfold wf_u64. lia. Qed.

(** A header written in part, or whole. *)
Lemma layout_header d h k cs m af ts n :
  layout oc d h k cs m af -> (forall hdr recs tail, af <> Live hdr recs tail) -> wf_u64 ts ->
  let hdr := encode_header {| base_offset := m; created_at_ns := ts |} in
  layout oc (<[seg_name m := take n hdr]> d) h k cs m
    (if decide (length hdr <= n)%nat then Live hdr [] [] else TornHeader (take n hdr)).
Proof.
  intros Hl Hnl Hts hdr.
  assert (Hm : m = len h).
  { pose proof (lay_active _ _ _ _ _ _ _ Hl) as Ha. destruct af; [apply Ha|apply Ha|by edestruct Hnl]. }
  assert (Hhdr : header_of hdr m) by (apply encode_header_of; [by eapply layout_m|done]).
  destruct (decide (length hdr <= n)%nat) as [Hn|Hn]; (eapply layout_rewrite; [exact Hl|done|]).
  - rewrite take_ge by done. split; [by rewrite lookup_insert_eq, !app_nil_r|].
    split; [done|]. split; [|left; simpl; lia]. rewrite drop_ge; [constructor|unfold len in Hm; lia].
  - destruct Hhdr as [Hlen _]. split; [apply lookup_insert_eq|]. split; [|done].
    unfold len in *. rewrite length_take. lia.
Qed.

(** What every interrupted opening leaves. *)
Definition still_holds (h : list LogEntry) (k : N) (d : gmap string bytes) : Prop :=
  on_disk oc d h k /\ sizes_ok d.

Lemma sizes_ok_insert d name c : sizes_ok d -> (len c <= u64_max)%N -> sizes_ok (<[name := c]> d).
Proof. intros Hs Hc n' c'. rewrite lookup_insert. case_decide; [by intros [= <-]|apply Hs]. Qed.

Lemma open_header_steps d h k cs m af V w :
  at_disk d w -> sizes_ok d -> layout oc d h k cs m af -> af <> NoFile ->
  (forall ts d' hdr recs tail w', at_disk d' w' -> sizes_ok d' ->
     layout oc d' h k cs m (Live hdr recs tail) -> V ts w') ->
  steps (still_holds h k) (open_header now m) V w.
Proof.
  intros Hw Hsz Hl Hne HV. pose proof (lay_active _ _ _ _ _ _ _ Hl) as Ha.
  assert (HD : still_holds h k d) by (split; [by eexists _, _, _|done]).
  unfold open_header. destruct af as [|c|hdr recs tail]; [done| |].
  - destruct Ha as (E & Hlen & Hm).
    apply steps_then, (steps_open_or_create d HD); [done|by eexists|]. clear w Hw. intros w Hw.
    apply steps_then, (steps_metadata_len d HD _ c); [done..|]. clear w Hw. intros w Hw.
    rewrite (proj2 (N.leb_gt _ _) Hlen).
    apply steps_then, (steps_now now _ _ d Hw). clear w Hw. intros n w Hw.
    pose proof (fun i => layout_header d h k cs m _ (now n) i Hl ltac:(done) (now_u64 n)) as Hhdr.
    cbv zeta in Hhdr. set (hdr := encode_header _) in *.
    assert (Hl24 : length hdr = 24%nat) by (unfold hdr, encode_header; by rewrite !length_app, !length_to_le_bytes).
    assert (Hsz' : forall i, sizes_ok (<[seg_name m := take i hdr]> d)).
    { intros i. apply sizes_ok_insert; [done|]. unfold len, u64_max. rewrite length_take. lia. }
    set (d1 := <[seg_name m := []]> d).
    assert (HD1 : still_holds h k d1) by (split; [by eexists _, _, _; apply (Hhdr 0%nat)|apply (Hsz' 0%nat)]).
    apply steps_then. change 0%N with (len (@nil byte)) at 1.
    apply (steps_cut d HD _ [] c); [done|done|]. clear w Hw. intros w Hw.
    apply steps_then, (steps_nop d1 HD1 unmarked); [done|]. clear w Hw. intros w Hw.
    apply steps_then. change 0%N with (len (@nil byte)).
    apply (steps_append d1 _ [] hdr); [done|apply lookup_insert_eq|..]; unfold d1; cbn [app].
    + intros i. rewrite insert_insert_eq. split; [by eexists _, _, _; apply (Hhdr i)|apply Hsz'].
    + clear w Hw. intros w Hw. rewrite insert_insert_eq in Hw. apply steps_ok.
      specialize (Hhdr 24%nat). rewrite decide_True, take_ge in Hhdr by lia.
      specialize (Hsz' 24%nat). rewrite take_ge in Hsz' by lia. by eapply HV.
  - destruct Ha as (E & (Hlen & sh & Hb & Hrd) & _).
    apply steps_then, (steps_open_or_create d HD); [done|by eexists|]. clear w Hw. intros w Hw.
    apply steps_then, (steps_metadata_len d HD _ _ _ _ Hw E). clear w Hw. intros w Hw.
    rewrite (proj2 (N.leb_le HEADER_LEN _)) by (rewrite len_app; lia).
    apply steps_then, (steps_read d HD _ _ _ _ Hw E). clear w Hw. intros w Hw. rewrite Hrd.
    change (mthen (mresult (Ok ?x)) ?f) with (f x). cbv beta.
    unfold check_base. rewrite Hb, N.eqb_refl. cbn [negb]. change (mthen (mok ()) ?f) with (f ()). cbv beta.
    apply steps_ok. by eapply HV.
Qed.

Lemma layout_count d h k cs m hdr recs tail :
  layout oc d h k cs m (Live hdr recs tail) -> (m + len recs = len h)%N.
Proof.
  intros Hl. pose proof (lay_active _ _ _ _ _ _ _ Hl) as (_ & _ & Hf & _).
  apply Forall2_length in Hf. rewrite length_drop in Hf. pose proof (lay_le _ _ _ _ _ _ _ Hl). unfold len in *. lia.
Qed.

Lemma recover_file_steps d h k cs m hdr recs tail V w :
  at_disk d w -> sizes_ok d -> layout oc d h k cs m (Live hdr recs tail) ->
  (forall d' w', at_disk d' w' -> sizes_ok d' -> layout oc d' h k cs m (Live hdr recs []) ->
     V (positions_from HEADER_LEN recs, len (hdr ++ concat recs), len recs) w') ->
  steps (still_holds h k) (recover_file oc m) V w.
Proof.
  intros Hw Hsz Hl HV. pose proof (lay_active _ _ _ _ _ _ _ Hl) as (E & Hhdr & Hf & Ht).
  assert (HD : still_holds h k d) by (split; [by eexists _, _, _|done]).
  pose proof (layout_count _ _ _ _ _ _ _ _ Hl) as Hcount. pose proof (Hsz _ _ E) as Hlen.
  unfold recover_file. apply steps_then, (steps_metadata_len d HD _ _ _ _ Hw E). clear w Hw. intros w Hw.
  apply steps_then, (steps_read d HD _ _ _ _ Hw E). clear w Hw. intros w Hw.
  rewrite (recover_active_records oc hdr recs (drop (N.to_nat m) h)); [|done|..|done|apply Hhdr|done].
  2:{ intros i e Hi. rewrite lookup_drop in Hi. rewrite (lay_offsets _ _ _ _ _ _ _ Hl _ _ Hi). lia. }
  2:{ pose proof (lay_u64 _ _ _ _ _ _ _ Hl). apply Forall2_length in Hf. unfold len in *. lia. }
  change (mthen (mopt (Some (Ok ?x))) ?f) with (f (Ok x)). cbv beta.
  change (mthen (mresult (Ok ?x)) ?f) with (f x). cbv beta iota.
  destruct (N.ltb_spec (len (hdr ++ concat recs)) (len (hdr ++ concat recs ++ tail))) as [Hlt|Hge].
  - set (d1 := <[seg_name m := hdr ++ concat recs]> d).
    assert (Hl1 : layout oc d1 h k cs m (Live hdr recs [])).
    { eapply layout_rewrite; [done..|]. split; [by rewrite lookup_insert_eq, app_nil_r|].
      split; [done|]. split; [done|left; simpl; lia]. }
    assert (Hsz1 : sizes_ok d1) by (apply sizes_ok_insert; [done|lia]).
    assert (HD1 : still_holds h k d1) by (split; [by eexists _, _, _|done]).
    apply steps_then, steps_then. rewrite app_assoc in E.
    eapply (steps_cut d HD _ _ tail _ _ Hw E). clear w Hw. intros w Hw.
    apply (steps_nop d1 HD1 unmarked); [done|]. clear w Hw. intros w Hw. apply steps_ok. by eapply HV.
  - assert (tail = []) as -> by (rewrite app_assoc, len_app in Hge; apply len_zero_nil; lia).
    change (mthen (mok ()) ?f) with (f ()). cbv beta. apply steps_ok. by eapply HV.
Qed.

(** The time of the last record. *)
Lemma last_record_steps d h k cs m hdr recs V w :
  at_disk d w -> sizes_ok d -> layout oc d h k cs m (Live hdr recs []) ->
  (forall t w', at_disk d w' -> V t w') ->
  steps (still_holds h k) (match last (positions_from HEADER_LEN recs) with
    | Some last_pos => e <- read_record_at oc (seg_name m) last_pos ;; mok (appended_at_ns e)
    | None => mok 0%N
    end) V w.
Proof.
  intros Hw Hsz Hl HV. pose proof (lay_active _ _ _ _ _ _ _ Hl) as (Ed & [Hlen _] & Hf & _).
  assert (HD : still_holds h k d) by (split; [by eexists _, _, _|done]).
  assert (Hst : stores oc (hdr ++ concat recs) (positions_from HEADER_LEN recs) (drop (N.to_nat m) h))
    by (rewrite <- Hlen; by apply stores_positions_from).
  destruct (last (positions_from HEADER_LEN recs)) as [pos|] eqn:El; [|by apply steps_ok, HV].
  rewrite last_lookup in El. destruct (stores_lookup _ _ _ _ _ _ Hst El) as (e & _ & Hr).
  apply steps_then, (steps_read_record d HD _ (hdr ++ concat recs) pos e); [done|by rewrite Ed, app_nil_r|done|].
  intros w1 Hw1. by apply steps_ok, HV.
Qed.

Lemma open_active_steps d h k cs m af V w :
  at_disk d w -> sizes_ok d -> layout oc d h k cs m af -> af <> NoFile ->
  (forall a d' hdr recs w', at_disk d' w' -> sizes_ok d' -> layout oc d' h k cs m (Live hdr recs []) ->
     active_clean (Some a) m (Live hdr recs []) -> V (a, len h) w') ->
  steps (still_holds h k) (open_active oc now m) V w.
Proof.
  intros Hw Hsz Hl Hne HV. unfold open_active.
  apply steps_then, (open_header_steps d h k cs m af); [done..|]. clear d w Hw Hsz Hl.
  intros ts d hdr recs tail w Hw Hsz Hl.
  apply steps_then, (recover_file_steps d h k cs m hdr recs tail); [done..|]. clear d w Hw Hsz Hl.
  intros d w Hw Hsz Hl. cbv beta iota.
  apply steps_then, (last_record_steps d h k cs m hdr recs); [done..|]. clear w Hw. intros last_at w Hw.
  unfold checked_add64. rewrite (layout_count _ _ _ _ _ _ _ _ Hl), (proj2 (N.leb_le _ _)) by apply Hl.
  apply steps_ok. eapply HV; [done|done|done|]. do 3 (split; [done|]). by exists hdr, recs.
Qed.

(** ** The whole directory *)
Lemma log_open_steps config d h k w :
  at_disk d w -> sizes_ok d -> on_disk oc d h k ->
  steps (still_holds h k) (log_open oc now config)
    (fun l w' => poisoned l = false /\ clean oc (l, w') h k /\ honest w' /\ sizes_ok (disk w')) w.
Proof.
  intros Hw Hsz (cs & m & af & Hl).
  assert (HD : still_holds h k d) by (split; [by eexists _, _, _|done]).
  unfold log_open. apply steps_then, (steps_nop d HD unmarked); [done|]. clear w Hw. intros w Hw.
  apply steps_then, (steps_io d HD unmarked _ ((map_to_list d).*1) d); [done|done|]. clear w Hw. intros w Hw.
  rewrite (scan_layout _ _ _ _ _ _ Hl). apply steps_then.
  eapply (open_segments_steps d HD now h cs k m); [done|done|apply Hl..|]. clear w Hw. intros cs' w Hw Hsegs. cbn [app].
  pose proof (layout_same_seg _ _ _ _ _ _ _ Hsegs Hl) as Hl'.
  assert (Hcase : af = NoFile \/ af <> NoFile) by (destruct af; auto). destruct Hcase as [->|Hne].
  - pose proof (lay_active _ _ _ _ _ _ _ Hl') as [_ Hm]. cbn [open_segments]. apply steps_ok. cbv beta iota.
    destruct Hsegs as [|s s' cs cs' Hs Hsegs].
    + rewrite bool_decide_eq_true_2 by done. rewrite N.eqb_refl.
      apply steps_then, (read_watermark_steps d HD); [done|]. clear w Hw. intros wm w Hw Hwm. apply steps_ok.
      split; [done|]. rewrite (lay_watermark _ _ _ _ _ _ _ Hl' eq_refl eq_refl) in Hwm.
      destruct Hw as [<- Ho]. split; [|done]. split; [cbn [next_offset]; congruence|]. by exists m, NoFile.
    + rewrite bool_decide_eq_false_2 by done. change (mthen (mok None) ?f) with (f None). cbv beta.
      apply steps_ok. split; [done|]. destruct Hw as [<- Ho]. split; [|done].
      split; [cbn [next_offset default]; congruence|]. by exists m, NoFile.
  - replace (match af with NoFile => [] | _ => [m] end) with [m] by by destruct af.
    cbn [open_segments]. apply steps_then, (steps_exists d HD); [done|]. clear w Hw. intros w Hw.
    rewrite (lay_no_index _ _ _ _ _ _ _ Hl m (layout_m _ _ _ _ _ _ Hl)) by lia.
    rewrite bool_decide_eq_false_2 by by destruct 1. cbn [discard_orphan].
    change (mthen (mok ()) ?f) with (f ()). cbv beta.
    apply steps_then, (open_active_steps d h k cs' m af); [done..|]. clear d w Hw Hsz Hl Hl' HD.
    intros a d hdr recs w [<- Ho] Hsz Hl Ha. apply steps_ok. cbv beta iota.
    change (mthen (mok None) ?f) with (f None). cbv beta.
    apply steps_ok. split; [done|]. split; [|done]. split; [done|]. by exists m, (Live hdr recs []).
Qed.
End Open.
