(* ===== verification/SegmentLogRecovery.v ===== *)
(** Crash recovery of the segment log: what an append leaves on disk when I/O
    calls fail or the process is killed at any of them, and what reopening the
    directory makes of it.  A write that fails after its call has returned is
    not among them ([prompt], [SegmentLate]).

    From a clean log (memory and disk agree) every append ends in a clean log
    or leaves a layout that holds the history and a prefix of the batch, which
    [open] turns into a clean log again. *)
From stdpp Require Import base gmap strings list option numbers pretty sorting.
From Stdlib Require Import Strings.Byte.
From S2P Require Import Prelude EventModel EventLogPort SegmentFile SegmentFs SegmentLog SegmentLogSafety SegmentLogLayout SegmentLogOpen.

Section Recovery.
Context `{CborEvent : Cbor OtkEvent} `{Crc : Crc32} `{!CborLaws OtkEvent} `{!Crc32Laws}.
Variable oc : bool.
Variable now : N -> N.
Hypothesis now_u64 : forall n, wf_u64 (now n).
Abbreviation panics := (oc = true).

(** ** Writing records at the end of a file *)

(** A record written in part, or whole. *)
Definition piece (entry : LogEntry) (t : bytes) : Prop := torn_tail t \/ reads_as oc t entry.

Lemma torn_nil : torn_tail [].
Proof. left. simpl. lia. Qed.

Lemma piece_take entry rec n : encode_record entry = Ok rec -> wf_entry entry -> piece entry (take n rec).
Proof.
  intros He Hwf. destruct (decide (length rec <= n)%nat) as [Hn|Hn].
  - right. rewrite take_ge by done. by apply encoded_reads_as.
  - left. right. right. exists entry, (drop n rec). rewrite take_drop. split; [done|]. split; [done|].
    intros E. apply (f_equal length) in E. rewrite length_drop in E. simpl in E. lia.
Qed.

Lemma write_record_at_end path p entry w :
  disk w !! path = Some p -> wf_entry entry ->
  wp panics (write_record_at path (len p) entry) (fun r w' => later w w' /\
    exists t, disk w' = <[path := p ++ t]> (disk w) /\
    match r with
    | Ok (pos, cur) => pos = len p /\ reads_as oc t entry /\ cur = len (p ++ t)
    | Err _ => piece entry t
    end) w.
Proof.
  intros Hd Hwf. unfold write_record_at.
  assert (Hid : disk w = <[path := p ++ []]> (disk w)) by by rewrite app_nil_r, insert_id.
  destruct (encode_record entry) as [buf|e] eqn:He.
  2:{ apply wp_err. split; [apply later_refl|]. exists []. split; [done|]. left. apply torn_nil. }
  change (mthen (mresult (Ok buf)) ?f) with (f buf).
  eapply wp_then; [apply wp_nop, _|..].
  2:{ intros e w1 (Hl1 & Hd1 & _). split; [done|]. exists []. rewrite Hd1. split; [done|]. left. apply torn_nil. }
  intros _ w1 (Hl1 & Hd1 & _).
  eapply wp_try_then; [apply (wp_append path p); by rewrite Hd1|].
  intros [m|e] w2 (Hl2 & _ & n & Hd2 & Hn); rewrite Hd1 in Hd2; pose proof (later_trans _ _ _ Hl1 Hl2) as Hl12.
  - destruct (Hn _ eq_refl) as [-> E]. rewrite E in Hd2. apply wp_ok. split; [done|]. exists buf. split; [done|]. split; [done|].
    split; [by apply encoded_reads_as|]. by rewrite len_app.
  - eapply wp_try_then; [apply (wp_cut path p (take n buf)); by rewrite Hd2, lookup_insert_eq|].
    intros r w3 (Hl3 & _ & Hd3). apply wp_err. split; [by eapply later_trans|].
    destruct r as [[]|e3].
    + exists []. rewrite Hd3, Hd2, insert_insert_eq, app_nil_r. split; [done|]. left. apply torn_nil.
    + exists (take n buf). rewrite Hd3. split; [done|]. by apply piece_take.
Qed.

(** The file [p0] followed by whole records for the first [j] of [all] and a
    torn tail. *)
Definition stored_part (path : string) (p0 : bytes) (start : N) (all : list LogEntry)
    (d d' : gmap string bytes) : Prop :=
  exists recs tail j, d' = <[path := p0 ++ concat recs ++ tail]> d /\ torn_tail tail /\
    Forall2 (reads_as oc) recs (take j all) /\ (start + len recs <= u64_max)%N.

Lemma stored_part_all path p0 start done rest recs d d' :
  d' = <[path := p0 ++ concat recs]> d -> Forall2 (reads_as oc) recs done ->
  (start + len recs <= u64_max)%N -> stored_part path p0 start (done ++ rest) d d'.
Proof.
  intros -> Hf Hu. exists recs, [], (length done). rewrite app_nil_r, take_app_length.
  split; [done|]. split; [apply torn_nil|done].
Qed.

Lemma stored_part_none path p0 start all d d' :
  d' = <[path := p0]> d -> (start <= u64_max)%N -> stored_part path p0 start all d d'.
Proof.
  intros -> Hu. exists [], [], 0%nat. rewrite !app_nil_r. split; [done|]. split; [apply torn_nil|].
  split; [constructor|]. rewrite len_nil. lia.
Qed.

Lemma stored_part_piece path p0 start done entry rest recs t d d' :
  d' = <[path := (p0 ++ concat recs) ++ t]> d -> piece entry t -> Forall2 (reads_as oc) recs done ->
  (start + len recs < u64_max)%N -> stored_part path p0 start (done ++ entry :: rest) d d'.
Proof.
  intros -> [Ht|Hr] Hf Hu.
  - exists recs, t, (length done). rewrite take_app_length, <- app_assoc.
    split; [done|]. split; [done|]. split; [done|lia].
  - replace (done ++ entry :: rest) with ((done ++ [entry]) ++ rest) by by rewrite <- app_assoc.
    eapply (stored_part_all _ _ _ _ _ (recs ++ [t])).
    + by rewrite concat_app, <- app_assoc; simpl; rewrite app_nil_r.
    + apply Forall2_app; [done|]. constructor; [done|constructor].
    + rewrite len_app, len_cons, len_nil. lia.
Qed.

(** A failed batch is cut off, or the cut fails too. *)
Lemma cut_batch path p0 start all t d w e (Q : result (N * N * list N) StorageError -> World -> Prop) :
  disk w = <[path := p0 ++ t]> d -> (start <= u64_max)%N -> stored_part path p0 start all d (disk w) ->
  (forall w', later w w' -> stored_part path p0 start all d (disk w') ->
     (faultless w -> disk w' = <[path := p0]> d) -> Q (Err e) w') ->
  wp panics (mthen (mtry (fs_set_len path (len p0))) (fun _ => merr e)) Q w.
Proof.
  intros Hd Hu Hs HQ. eapply wp_try_then; [apply (wp_cut path p0 t); by rewrite Hd, lookup_insert_eq|].
  intros r w' (Hl & Hr & Hd'). rewrite Hd, insert_insert_eq in Hd'.
  apply wp_err, HQ; [done|..]; destruct r as [[]|e'].
  - by apply stored_part_none.
  - by rewrite Hd', <- Hd.
  - done.
  - by intros ?%(io_error_never _ _ Hr).
Qed.

Lemma append_events_end pid ts path p0 start d events recs done next nps w :
  utf8_valid (str_bytes pid) = true -> wf_u64 ts ->
  disk w = <[path := p0 ++ concat recs]> d -> Forall2 (reads_as oc) recs done ->
  nps = positions_from (len p0) recs -> next = (start + len recs)%N -> (next <= u64_max)%N ->
  wp panics (append_events pid ts path (len p0) events (len (p0 ++ concat recs)) next nps)
    (fun r w' => later w w' /\
      match r with
      | Ok (cur, next', nps') => exists recs', disk w' = <[path := p0 ++ concat recs']> d /\
          Forall2 (reads_as oc) recs' (done ++ batch pid ts next events) /\
          nps' = positions_from (len p0) recs' /\ cur = len (p0 ++ concat recs') /\
          next' = (start + len recs')%N /\ (next' <= u64_max)%N
      | Err _ => stored_part path p0 start (done ++ batch pid ts next events) d (disk w') /\
          (faultless w -> disk w' = <[path := p0]> d)
      end) w.
Proof.
  intros Hpid Hts. revert recs done next nps w.
  induction events as [|ev events IH]; intros recs done next nps w Hd Hf Hnps Hnext Hu; cbn [append_events].
  { apply wp_ok. split; [apply later_refl|]. exists recs. unfold batch. simpl. by rewrite app_nil_r. }
  assert (Hst : stored_part path p0 start (done ++ batch pid ts next (ev :: events)) d (disk w))
    by (apply (stored_part_all _ _ _ _ _ recs); [done|done|lia]).
  destruct (N.eqb_spec next u64_max) as [Hmax|Hmax].
  { eapply (cut_batch _ _ start (done ++ batch pid ts next (ev :: events))); [exact Hd|lia|done|]. by split. }
  eapply wp_try_then; [apply (write_record_at_end path (p0 ++ concat recs));
    [by rewrite Hd, lookup_insert_eq|by split]|].
  intros [[pos cur]|e] w1 (Hl1 & t & Hd1 & Hr1); rewrite Hd, insert_insert_eq in Hd1.
  - destruct Hr1 as (-> & Hra & ->).
    assert (Hcat : (p0 ++ concat recs) ++ t = p0 ++ concat (recs ++ [t]))
      by (rewrite concat_app; simpl; by rewrite app_nil_r, <- app_assoc).
    rewrite Hcat in Hd1 |- *.
    eapply wp_mono; [apply (IH (recs ++ [t]) (done ++ [batch_entry pid ts next ev]))|].
    + done.
    + apply Forall2_app; [done|]. constructor; [done|constructor].
    + rewrite Hnps. clear. revert p0. induction recs as [|r recs IH]; intros p0; cbn [app positions_from concat].
      * by rewrite app_nil_r.
      * f_equal. specialize (IH (p0 ++ r)). rewrite <- app_assoc, (len_app p0 r) in IH. done.
    + rewrite len_app, len_cons, len_nil. lia.
    + lia.
    + intros r w2 (Hl2 & Hr2). split; [by eapply later_trans|].
      rewrite <- app_assoc in Hr2. destruct r as [[[c n] ps]|e]; [exact Hr2|]. destruct Hr2 as [Hs Hh].
      split; [exact Hs|]. intros Hw. apply Hh, Hl1, Hw.
  - eapply (cut_batch _ _ start (done ++ batch pid ts next (ev :: events)) (concat recs ++ t)); [by rewrite Hd1, app_assoc|lia|..].
    + rewrite batch_cons. eapply stored_part_piece; [done|done|done|lia].
    + intros w' Hl Hs Hh. split; [by eapply later_trans|]. split; [done|]. intros Hw. apply Hh, Hl1, Hw.
Qed.

(** ** A batch *)
Lemma offsets_ok_take h x j : offsets_ok (h ++ x) -> offsets_ok (h ++ take j x).
Proof.
  intros Ho i e Hi. apply Ho. rewrite <- (take_drop j x), app_assoc. by apply lookup_app_l_Some.
Qed.

(** The active file of a clean log, extended by whole records and a tail. *)
Lemma layout_extend d d' h x k cs m hdr old recs tail :
  layout oc d h k cs m (Live hdr old []) ->
  d' = <[seg_name m := (hdr ++ concat old) ++ concat recs ++ tail]> d -> torn_tail tail ->
  Forall2 (reads_as oc) recs x -> offsets_ok (h ++ x) -> (len h + len recs <= u64_max)%N ->
  layout oc d' (h ++ x) k cs m (Live hdr (old ++ recs) tail).
Proof.
  intros Hl -> Ht Hf Ho Hu. pose proof (lay_active _ _ _ _ _ _ _ Hl) as (_ & Hhdr & Hold & _).
  pose proof (lay_le _ _ _ _ _ _ _ Hl) as Hm.
  eapply layout_active; [exact Hl|apply same_files_refl|done|..|done|].
  - apply Forall2_length in Hf. rewrite len_app. unfold len in *. lia.
  - split; [|split; [done|split; [|done]]].
    + by rewrite lookup_insert_eq, concat_app, <- !app_assoc.
    + rewrite drop_app_le by (unfold len in Hm; lia). by apply Forall2_app.
Qed.

(** What a failed append leaves on disk. *)
Definition part_of_batch (p : RetentionPolicy) (d : gmap string bytes) (h : list LogEntry) (k : N)
    (pid : string) (ts : N) (events : list OtkEvent) : Prop :=
  exists j k', evictions p k k' /\ on_disk oc d (h ++ take j (batch pid ts (len h) events)) k'.

Lemma part_none p d h k pid ts events : on_disk oc d h k -> part_of_batch p d h k pid ts events.
Proof. intros Hd. exists 0%nat, k. split; [done|]. by rewrite app_nil_r. Qed.

Lemma part_all p d h k k' pid ts events :
  evictions p k k' -> on_disk oc d (h ++ batch pid ts (len h) events) k' -> part_of_batch p d h k pid ts events.
Proof.
  intros Hk Hd. exists (length (batch pid ts (len h) events)), k'. split; [done|]. by rewrite firstn_all.
Qed.

Lemma part_stored p d d' h k cs m hdr old pid ts events :
  layout oc d h k cs m (Live hdr old []) ->
  stored_part (seg_name m) (hdr ++ concat old) (len h) (batch pid ts (len h) events) d d' ->
  part_of_batch p d' h k pid ts events.
Proof.
  intros Hl (recs & tail & j & Hd & Ht & Hf & Hu). exists j, k. split; [done|].
  exists cs, m, (Live hdr (old ++ recs) tail). eapply layout_extend; [done..| |done].
  apply offsets_ok_take, offsets_ok_append, Hl.
Qed.

Lemma sync_batch_end path p t l w :
  disk w !! path = Some (p ++ t) ->
  wp panics (sync_batch path (len p)) (fun r s' => later w (snd s') /\ fst s' = l /\
    match r with
    | Ok _ => disk (snd s') = disk w
    | Err e => (disk (snd s') = disk w \/ disk (snd s') = <[path := p]> (disk w)) /\ ~ faultless w
    end) (l, w).
Proof.
  intros Hd. unfold sync_batch. apply wp_getl_then.
  destruct (flush_interval_ms (config l) =? 0)%N; [|by apply wp_ok; split; [apply later_refl|]].
  eapply wp_try_fs_then; [apply wp_nop, _|]. intros [[]|e] w1 (Hl1 & Hd1 & Hr1); [by apply wp_ok|].
  eapply wp_try_fs_then; [apply (wp_cut path p t); by rewrite Hd1|].
  intros r w2 (Hl2 & _ & Hd2). apply wp_err. rewrite Hd1 in Hd2.
  split; [by eapply later_trans|]. split; [done|]. split; [destruct r; auto|by eapply io_error_never].
Qed.

(** A log that is still clean and has no more records in its active segment. *)
Definition unchanged (l : SegmentLog) (h : list LogEntry) (k : N) (s' : SegmentLog * World) : Prop :=
  clean oc s' h k /\ active_records (fst s') = active_records l /\ config (fst s') = config l.

(** The result of writing a batch on a clean log. *)
Definition batch_at_end (l : SegmentLog) (w : World) (h : list LogEntry) (k : N) (pid : string) (ts : N)
    (events : list OtkEvent) (r : result () StorageError) (s' : SegmentLog * World) : Prop :=
  later w (snd s') /\
  match r with
  | Ok _ => clean oc s' (h ++ batch pid ts (len h) events) k /\
      active_records (fst s') = (active_records l + len events)%N /\
      closed (fst s') = closed l /\ grows (disk w) (disk (snd s'))
  | Err _ => part_of_batch (retention (config l)) (disk (snd s')) h k pid ts events /\
      (faultless w -> unchanged l h k s')
  end.

Definition batch_written (l : SegmentLog) (w : World) (h : list LogEntry) (k : N) (pid : string) (ts : N)
    (events : list OtkEvent) (r : result () StorageError) (s' : SegmentLog * World) : Prop :=
  batch_at_end l w h k pid ts events r s' /\
  (is_ok r = true -> config (fst s') = config l /\ events <> [] /\ at_end (fst s')).

Lemma clean_cursor l w h k c :
  clean oc (l, w) h k -> clean oc (map_active (fun a => set_cursor a c) l, w) h k.
Proof.
  intros (Hn & m & af & Hl & Ha). split; [done|]. exists m, af. split; [done|].
  unfold map_active. cbn [active set_active]. by destruct (active l).
Qed.

(** The commit of a batch that is at the end of the active file. *)
Lemma clean_commit d h k m hdr old recs pid ts events l a pos next nps w :
  layout oc d h k (closed l) m (Live hdr old []) ->
  disk w = <[seg_name m := (hdr ++ concat old) ++ concat recs]> d ->
  Forall2 (reads_as oc) recs (batch pid ts (len h) events) ->
  next = (len h + len recs)%N -> (next <= u64_max)%N ->
  active l = Some a -> as_base_offset a = m -> as_path a = seg_name m ->
  as_positions a = positions_from HEADER_LEN old -> nps = positions_from (len (hdr ++ concat old)) recs ->
  pos = len ((hdr ++ concat old) ++ concat recs) ->
  clean oc (commit_batch ts pos next nps l, w) (h ++ batch pid ts (len h) events) k.
Proof.
  intros Hl Hd Hf Hnext Hu Ha Hb Hp Hps Hnps Hpos.
  pose proof (lay_active _ _ _ _ _ _ _ Hl) as (_ & [Hlen _] & _).
  split.
  { cbn [commit_batch next_offset]. rewrite Hnext, len_app. apply Forall2_length in Hf. unfold len. by rewrite Hf. }
  exists m, (Live hdr (old ++ recs) []). split.
  - eapply layout_extend; [exact Hl|by rewrite app_nil_r|apply torn_nil|done| |lia].
    apply offsets_ok_append, Hl.
  - unfold commit_batch, active_clean. cbn [active]. rewrite Ha. cbn [fmap option_fmap option_map as_base_offset as_path as_positions next_file_pos as_byte_size].
    do 3 (split; [done|]). exists hdr, (old ++ recs). split; [done|]. split.
    + rewrite Hps, Hnps, <- Hlen. clear. revert hdr. induction old as [|r old IH]; intros hdr; cbn [app positions_from concat].
      * by rewrite app_nil_r.
      * f_equal. specialize (IH (hdr ++ r)). rewrite <- app_assoc, (len_app hdr r) in IH. done.
    + by rewrite Hpos, concat_app, app_assoc.
Qed.

Lemma batch_at_end_err l w h k m hdr old pid ts events e l' w' :
  layout oc (disk w) h k (closed l) m (Live hdr old []) -> later w w' ->
  stored_part (seg_name m) (hdr ++ concat old) (len h) (batch pid ts (len h) events) (disk w) (disk w') ->
  (faultless w -> unchanged l h k (l', w')) -> batch_at_end l w h k pid ts events (Err e) (l', w').
Proof. intros Hl Hl' Hs Hh. split; [done|]. split; [by eapply part_stored|done]. Qed.

(** From the fsync on, with all records of the batch at the end of the file. *)
Lemma sync_commit_end l w l2 w2 a h k m hdr old recs pid ts events :
  layout oc (disk w) h k (closed l) m (Live hdr old []) -> later w w2 ->
  disk w2 = <[seg_name m := (hdr ++ concat old) ++ concat recs]> (disk w) ->
  Forall2 (reads_as oc) recs (batch pid ts (len h) events) -> (len h + len recs <= u64_max)%N ->
  closed l2 = closed l -> active l2 = Some a -> active_records l = len (as_positions a) ->
  as_base_offset a = m -> as_path a = seg_name m -> as_positions a = positions_from HEADER_LEN old ->
  wp panics
    (sync_batch (seg_name m) (len (hdr ++ concat old)) ;;;
     pos <- query_position (seg_name m) (len ((hdr ++ concat old) ++ concat recs)) ;;
     modl (commit_batch ts pos (len h + len recs) (positions_from (len (hdr ++ concat old)) recs)))
    (batch_at_end l w h k pid ts events) (l2, w2).
Proof.
  intros Hl Hl12 Hd2 Hf Hu Hcl Ha Hrec Hb Hp Hps.
  pose proof (lay_active _ _ _ _ _ _ _ Hl) as (Ed & [Hlen _] & _). rewrite app_nil_r in Ed.
  assert (Hall : stored_part (seg_name m) (hdr ++ concat old) (len h) (batch pid ts (len h) events) (disk w) (disk w2)).
  { rewrite <- (app_nil_r (batch _ _ _ _)). eapply stored_part_all; [exact Hd2|done|lia]. }
  eapply wp_then; [apply (sync_batch_end (seg_name m) _ (concat recs)); by rewrite Hd2, lookup_insert_eq|..].
  2:{ intros e [l3 w3] (Hl3 & _ & Hd3 & Hh3). simpl in Hl3, Hd3. eapply batch_at_end_err; [exact Hl|by eapply later_trans| |].
      2:{ intros Hw. destruct Hh3. by apply Hl12. }
      destruct Hd3 as [-> | ->]; [done|]. apply stored_part_none; [|apply Hl]. by rewrite Hd2, insert_insert_eq. }
  intros [] [l3 w3] (Hl3 & E3 & Hd3). simpl in Hl3, Hd3, E3. subst l3.
  eapply wp_then; [apply (query_position_spec oc (seg_name m) _ []); by rewrite Hd3, Hd2, lookup_insert_eq, app_nil_r|..].
  2:{ intros e [l4 w4] (Hl4 & Hd4 & Hr4 & _). simpl in Hl4, Hd4.
      eapply batch_at_end_err; [exact Hl|do 2 (eapply later_trans; [done|]); done|by rewrite Hd4, Hd3|].
      intros Hw. destruct (io_error_never _ _ Hr4). by apply Hl3, Hl12. }
  intros pos [l4 w4] (Hl4 & Hd4 & Hpos & El). simpl in Hl4, Hd4, El. apply wp_modl.
  split; [do 2 (eapply later_trans; [done|]); done|]. rewrite app_nil_r in Hpos.
  assert (Hl4' : closed l4 = closed l /\ exists a4, active l4 = Some a4 /\ as_base_offset a4 = m /\
    as_path a4 = seg_name m /\ as_positions a4 = as_positions a).
  { destruct El as [[-> _]| ->]; [by rewrite Ha; eauto 8|]. unfold map_active. cbn [set_active closed active]. rewrite Ha.
    split; [done|]. eexists. by split_and!. }
  destruct Hl4' as (Ec & a4 & Ha4 & Eb & Ep & Eps). split; [|split; [|split; [done|]]].
  - eapply (clean_commit (disk w)); rewrite ?Ec; [exact Hl| |done|done|done|exact Ha4|done|done|congruence|done|].
    + by rewrite Hd4, Hd3.
    + by destruct Hpos as [-> | ->].
  - rewrite Hrec. unfold active_records, commit_batch. cbn [fst active]. rewrite Ha4.
    cbn [fmap option_fmap option_map from_option as_positions]. rewrite Eps, len_app. f_equal.
    rewrite positions_from_len. apply Forall2_length in Hf.
    pose proof (len_batch pid ts (len h) events) as Hlb. unfold len in Hlb |- *. by rewrite Hf.
  - cbn [snd]. rewrite Hd4, Hd3, Hd2. apply grows_insert; [|done]. rewrite len_app, Hlen. lia.
Qed.

Lemma write_active_clean l w a h k pid ts events :
  utf8_valid (str_bytes pid) = true -> wf_u64 ts -> clean oc (l, w) h k -> active l = Some a ->
  wp panics (write_active a pid ts events (next_offset l)) (batch_at_end l w h k pid ts events) (l, w).
Proof.
  intros Hpid Hts Hc Ha. pose proof Hc as (Hn & m & af & Hl & Hac). rewrite Ha in Hac.
  destruct Hac as (Hb & Hp & Hbs & hdr & old & -> & Hps & Hnf).
  pose proof (lay_active _ _ _ _ _ _ _ Hl) as (Ed & [Hlen _] & _). rewrite app_nil_r in Ed.
  unfold write_active. eapply wp_then; [apply seek_active_spec|..].
  2:{ intros e [l1 w1] [(Hl1 & Hd1 & Hr1) _]. simpl in Hd1. split; [done|]. simpl. rewrite Hd1.
      split; [apply part_none; by eexists _, _, _|]. by intros ?%(io_error_never _ _ Hr1). }
  intros [] [l1 w1] [(Hl1 & Hd1 & _) E]. simpl in Hl1, Hd1, E. rewrite Hnf, Hn.
  eapply wp_try_fs_then.
  { rewrite <- (app_nil_r (hdr ++ concat old)) at 2.
    apply (append_events_end pid ts (as_path a) (hdr ++ concat old) (len h) (disk w) events [] []); [done..| | |done| |].
    - by rewrite Hd1, app_nil_r, insert_id by by rewrite Hp.
    - constructor.
    - rewrite len_nil. lia.
    - apply Hl. }
  intros r w2 (Hl2 & Hr2). pose proof (later_trans _ _ _ Hl1 Hl2) as Hl12. cbn [app] in Hr2. rewrite Hp in Hr2.
  destruct r as [[[cur next] nps]|e].
  2:{ destruct Hr2 as [Hs2 Hh2]. apply wp_modl_then, wp_err. eapply batch_at_end_err; [exact Hl|done|exact Hs2|]. intros Hw. split.
      2:{ rewrite E, map_cursor_twice. unfold active_records. cbn [fst map_active set_active active]. by rewrite Ha. }
      apply (clean_same oc _ w); [apply same_files_eq; by rewrite Hh2, insert_id by (apply Hl1, Hw || done)|].
      rewrite E, map_cursor_twice. by apply clean_cursor. }
  destruct Hr2 as (recs & Hd2 & Hf & -> & -> & -> & Hu). apply wp_modl_then. rewrite Hp, E, map_cursor_twice.
  eapply sync_commit_end; [exact Hl|exact Hl12|exact Hd2|exact Hf|exact Hu|done|by cbn [map_active active set_active]; rewrite Ha|..].
  all: try done.
  by unfold active_records; rewrite Ha.
Qed.

(** ** The active segment *)
Lemma ensure_active_clean l w h k :
  clean oc (l, w) h k ->
  wp panics (ensure_active now) (fun r s' => later w (snd s') /\
    match r with
    | Ok _ => clean oc s' h k /\ is_Some (active (fst s')) /\ active_records (fst s') = active_records l /\
        closed (fst s') = closed l /\ grows (disk w) (disk (snd s'))
    | Err _ => on_disk oc (disk (snd s')) h k /\ ~ faultless w
    end) (l, w).
Proof.
  intros Hc. pose proof Hc as (Hn & m & af & Hl & Hac). unfold ensure_active. apply wp_getl_then.
  destruct (active l) as [a|] eqn:Ha.
  { apply wp_ok. split; [apply later_refl|]. split; [done|]. simpl. rewrite Ha.
    split; [by eexists|]. split; [done|]. split; [done|by apply grows_same]. }
  cbn [active_clean] in Hac. subst af. pose proof (lay_active _ _ _ _ _ _ _ Hl) as [Hno Hm]. rewrite Hn, <- Hm.
  assert (Hd : on_disk oc (disk w) h k) by by eexists _, _, _.
  eapply wp_fs_then; [apply wp_now|..]; [|by intros e w1 [_ [? ?]]].
  intros ts w1 [(Hl1 & Hd1 & _) [n [= ->]]]. set (hdr := encode_header _).
  pose proof (fun i => layout_header oc _ _ _ _ _ _ (now n) i Hl ltac:(done) (now_u64 n)) as Hhdr.
  fold hdr in Hhdr. cbv zeta in Hhdr.
  assert (Hpart : forall w' i, disk w' = <[seg_name m := take i hdr]> (disk w) -> on_disk oc (disk w') h k).
  { intros w' i ->. eexists _, _, _. apply Hhdr. }
  eapply wp_fs_then; [apply wp_create_truncate|..].
  2:{ intros e w2 (Hl2 & Hr2 & Hd2). split; [by eapply later_trans|]. simpl. rewrite Hd2, Hd1. split; [done|].
      intros Hw. destruct (io_error_never _ _ Hr2). by apply Hl1. }
  intros [] w2 (Hl2 & _ & Hd2). pose proof (later_trans _ _ _ Hl1 Hl2) as Hl12. rewrite Hd1 in Hd2.
  eapply wp_fs_then; [apply (wp_append (seg_name m) []); by rewrite Hd2, lookup_insert_eq|..].
  2:{ intros e w3 (Hl3 & Hr3 & i & Hd3 & _). split; [by eapply later_trans|].
      split; [apply (Hpart w3 i); by rewrite Hd3, Hd2, insert_insert_eq|].
      intros Hw. destruct (io_error_never _ _ Hr3). by apply Hl12. }
  intros wn w3 (Hl3 & _ & i & Hd3 & Hi). destruct (Hi _ eq_refl) as [-> Hi']. clear Hi. rename Hi' into Hi.
  rewrite Hd2, insert_insert_eq in Hd3. pose proof (later_trans _ _ _ Hl12 Hl3) as Hl13.
  eapply wp_fs_then; [apply wp_fsync_dir|..]; [|by intros e w4 (_ & _ & ?)].
  intros _ w4 (Hl4 & Hd4 & _). apply wp_modl. cbn [fst snd set_active active].
  split; [by eapply later_trans|]. 
  cbn [app] in Hd3.
  split; [|split; [by eexists|split; [by unfold active_records; rewrite Ha|split; [done|]]]].
  2:{ rewrite Hd4, Hd3, Hi. by apply grows_new. }
  split; [done|]. specialize (Hhdr i). rewrite decide_True in Hhdr.
  2:{ apply (f_equal length) in Hi. rewrite length_take in Hi. lia. }
  rewrite <- Hd3 in Hhdr. rename Hhdr into Haf.
  exists m, (Live hdr [] []). cbn [closed set_active snd]. rewrite Hd4. split; [done|].
  do 3 (split; [done|]). exists hdr, []. split; [done|]. split; [done|].
  cbn [concat next_file_pos]. rewrite app_nil_r. symmetry. by destruct (lay_active _ _ _ _ _ _ _ Haf) as (_ & [Hlen _] & _).
Qed.

Lemma write_batch_end l w h k pid events :
  utf8_valid (str_bytes pid) = true -> clean oc (l, w) h k ->
  wp panics (write_batch now pid events) (fun r s' => exists ts, batch_at_end l w h k pid ts events r s') (l, w).
Proof.
  intros Hpid Hc. unfold write_batch. apply wp_getl_then.
  assert (Hfail : forall e, wp panics (merr e) (fun r s' => exists ts, batch_at_end l w h k pid ts events r s') (l, w)).
  { intros e. apply wp_err. exists 0%N. split; [apply later_refl|]. split; [|done].
    apply part_none. by eapply clean_on_disk. }
  destruct (poisoned l); [apply Hfail|]. case_bool_decide; [apply Hfail|]. case_bool_decide; [apply Hfail|].
  eapply wp_then; [apply wp_and; [by apply ensure_active_clean|
    apply (ensure_active_spec oc now l w h k), clean_inv, Hc]|..].
  2:{ intros e [l1 w1] [(Hl1 & Hd & Hh) _]. exists 0%N. split; [done|]. split; [by apply part_none|done]. }
  intros [] [l1 w1] [(Hl1 & Hc1 & [a Ha] & Hr1 & Hcl1 & Hg1) (_ & Hcf & _)].
  simpl in Hl1, Ha, Hr1, Hcl1, Hg1, Hcf.
  eapply wp_fs_then; [apply wp_now|..]; [|by intros e w2 [_ [? ?]]].
  intros ts w2 [(Hl2 & Hd2 & _) [n [= ->]]]. apply wp_getl_then.
  apply wp_opt_then; [by rewrite Ha|]. intros a' Ha'. rewrite Ha in Ha'. injection Ha' as <-.
  eapply wp_mono; [eapply (write_active_clean l1 w2 a h k pid (now n) events); try done|].
  - eapply clean_same; [|exact Hc1]. by apply same_files_eq.
  - intros r s' [Hl3 Hr]. exists (now n). split; [do 2 (eapply later_trans; [done|]); done|].
    destruct r.
    + destruct Hr as (Hc3 & Hn3 & Hcl3 & Hg3). rewrite <- Hr1, <- Hcl1.
      do 3 (split; [done|]). rewrite Hd2 in Hg3. by eapply grows_trans.
    + destruct Hr as [Hp Hh]. rewrite <- Hcf. split; [done|]. intros Hw.
      destruct Hh as (? & Hn & ?); [by apply Hl2, Hl1|]. split; [done|]. split; congruence.
Qed.

Lemma write_batch_clean l w h k pid events :
  utf8_valid (str_bytes pid) = true -> clean oc (l, w) h k ->
  wp panics (write_batch now pid events) (fun r s' => exists ts, batch_written l w h k pid ts events r s') (l, w).
Proof.
  intros Hpid Hc. eapply wp_mono.
  { apply wp_and; [by apply (write_batch_end l w h k pid events)|].
    apply (write_batch_spec oc now now_u64 l w h k pid events Hpid), clean_inv, Hc. }
  intros r s' [(ts & Hr) (ts' & _ & Hcf & Hr')]. exists ts. split; [done|]. destruct r; [intros _|done].
  by destruct Hr' as (_ & Hev & _ & _ & Hend).
Qed.

(** ** Closing the active segment *)
Lemma layout_tail d d' h k cs m hdr recs t0 t :
  layout oc d h k cs m (Live hdr recs t0) ->
  same_files (<[seg_name m := hdr ++ concat recs ++ t]> d) d' -> torn_tail t ->
  layout oc d' h k cs m (Live hdr recs t).
Proof.
  intros Hl Hs Ht. eapply layout_same; [exact Hs|]. pose proof (lay_active _ _ _ _ _ _ _ Hl) as (_ & Hhdr & Hf & _).
  eapply layout_rewrite; [exact Hl|done|]. split; [by rewrite lookup_insert_eq|done].
Qed.

Lemma sentinel_torn n : torn_tail (take n (to_le_bytes 4 0)).
Proof.
  change (to_le_bytes 4 0) with [x00; x00; x00; x00]. do 4 (destruct n as [|n]; [left; simpl; lia|]).
  right. left. exists []. simpl. by rewrite take_nil.
Qed.

Lemma layout_close d h k cs m hdr recs rest s :
  layout oc d h k cs m (Live hdr recs (to_le_bytes 4 0 ++ rest)) -> recs <> [] -> (8 * len recs <= MAX_INDEX_BYTES)%N ->
  cs_base_offset s = m -> cs_path s = seg_name m -> cs_positions s = positions_from HEADER_LEN recs ->
  (last_offset s + 1 = m + len recs)%N ->
  layout oc (<[idx_name m := encode_index (cs_positions s)]> d) h k (cs ++ [s]) (len h) NoFile.
Proof.
  intros Hl Hne Hmax Hb Hp Hps Hlast. pose proof (layout_m oc _ _ _ _ _ _ Hl) as Hw.
  pose proof (fun s => layout_base _ _ _ _ _ _ _ s Hl) as Hbase.
  destruct Hl as [Hu Ho Hm Hch Hcl Hix Hn Hni (Ed & Hhdr & Hf & Ht) Hwm].
  assert (Hcount : (m + len recs = len h)%N).
  { apply Forall2_length in Hf. rewrite length_drop in Hf. unfold len in *. lia. }
  assert (Hpos : (0 < len recs)%N) by (destruct recs; [done|rewrite len_cons; lia]).
  assert (Hlen : len (cs_positions s) = len recs) by (rewrite Hps; apply positions_from_len).
  assert (Hseg : forall b, <[idx_name m := encode_index (cs_positions s)]> d !! seg_name b = d !! seg_name b).
  { intros b. apply lookup_insert_ne. intros E. by apply (seg_name_idx b m). }
  split; try done.
  - apply chain_app. exists m. split; [done|]. simpl. by rewrite Hb, Hlen.
  - apply Forall_app. split; [|apply Forall_singleton].
    + eapply Forall_impl; [exact Hcl|]. intros s' Hs'. pose proof Hs' as (Hp' & _).
      apply (closed_ok_disk _ d); [|done]. by rewrite Hp'.
    + split; [by rewrite Hp, Hb|]. rewrite Hlen, Hb. split; [intros E; rewrite E in Hlen; by rewrite <- Hlen in Hpos|].
      split; [lia|]. split; [done|]. eexists. split; [by rewrite Hp, Hseg|].
      rewrite app_assoc, Hps. destruct Hhdr as [<- _]. apply stores_app.
      unfold slice. rewrite take_ge; [by apply stores_positions_from|]. rewrite length_drop. unfold len in *. lia.
  - apply Forall_app. split; [|apply Forall_singleton].
    + rewrite Forall_forall in Hix |- *. intros s' Hin. pose proof (Hbase s' Hin).
      apply (closed_index_disk oc d); [|done|by apply Hix]. apply lookup_insert_ne.
      intros E%idx_name_inj; [lia|done|unfold wf_u64 in *; lia].
    + split; [rewrite Hb; apply lookup_insert_eq|]. rewrite Hlen. split; [done|].
      exists hdr, recs, rest. rewrite Hb, Hseg. split; [done|]. split; [done|]. split; [|done].
      clear -Hf. induction Hf; constructor; [by eexists|done].
  - intros b Hwb. rewrite Hseg. intros Hsome. right. destruct (Hn b Hwb Hsome) as [->|(s' & Hin & ->)].
    + exists s. split; [apply elem_of_app; right; by apply list_elem_of_singleton|done].
    + exists s'. split; [apply elem_of_app; by left|done].
  - intros b Hwb Hle. rewrite lookup_insert_ne by (intros E%idx_name_inj; [lia|done|done]).
    apply Hni; [done|lia].
  - split; [|done]. rewrite Hseg. apply eq_None_not_Some. intros Hsome.
    destruct (Hn (len h) Hu Hsome) as [E|(s' & Hin & E)]; [lia|]. apply Hbase in Hin. lia.
  - intros E. by apply app_eq_nil in E as [_ ?].
Qed.

(** A file published under its final name. *)
Lemma published_files tmp final data yes (d d' : gmap string bytes) :
  (forall b, seg_name b <> tmp) -> (forall b, idx_name b <> tmp) -> WATERMARK <> tmp ->
  (forall name, name <> tmp -> d' !! name = published final data yes d !! name) ->
  same_files (published final data yes d) d'.
Proof. intros H1 H2 H3 Hd. split; [|split]; intros; by apply Hd. Qed.

Lemma write_index_files m ps w :
  wp panics (write_index m ps) (fun r w' => later w w' /\
    same_files (published (idx_name m) (encode_index ps) (is_ok r) (disk w)) (disk w')) w.
Proof.
  eapply wp_mono; [apply publish_spec|]. intros r w' (Hl & _ & Hd). split; [done|].
  eapply published_files; [..|exact Hd].
  - intros b. apply seg_name_idx_tmp.
  - intros b. apply idx_name_tmp.
  - intros E. by apply (long_name_watermark m (str_bytes ".idx.tmp")).
Qed.

Lemma write_watermark_files n w :
  wp panics (write_watermark n) (fun r w' => later w w' /\
    same_files (published WATERMARK (to_le_bytes 8 n) (is_ok r) (disk w)) (disk w')) w.
Proof.
  eapply wp_mono; [apply publish_spec|]. intros r w' (Hl & _ & Hd). split; [done|].
  eapply published_files; [..|exact Hd]; [| |done]; intros b; by apply long_name_watermark.
Qed.

Lemma undo_sentinel_end path p t l w e :
  disk w !! path = Some (p ++ t) ->
  wp panics (undo_sentinel path (len p) ;;; merr (A := ()) e) (fun r s' => (exists e', r = Err e') /\ later w (snd s') /\
    (disk (snd s') = disk w \/ disk (snd s') = <[path := p]> (disk w))) (l, w).
Proof.
  intros Hd. eapply wp_then with (Q := fun r s' => r = Ok () /\ later w (snd s') /\
    (disk (snd s') = disk w \/ disk (snd s') = <[path := p]> (disk w))).
  2:{ intros [] s' [_ Hs]. apply wp_err. eauto. }
  2:{ by intros e' s' [? _]. }
  unfold undo_sentinel. eapply wp_try_fs_then; [by apply (wp_cut path p t)|].
  intros r1 w1 (Hl1 & _ & Hd1). eapply wp_try_then; [apply seek_active_spec|].
  intros r2 [l2 w2] [(Hl2 & Hd2 & _) _]. simpl in Hl2, Hd2. apply wp_ok.
  split; [done|]. split; [by eapply later_trans|]. simpl. rewrite Hd2, Hd1. destruct r1; auto.
Qed.

(** What is left of a roll, whatever fails: a closed segment, or the directory
    of the same history. *)
Definition closes_clean (l : SegmentLog) (w : World) (h : list LogEntry) (k : N) (r : result () StorageError)
    (s' : SegmentLog * World) : Prop :=
  later w (snd s') /\
  match r with
  | Ok _ => clean oc s' h k /\ active (fst s') = None /\ (exists sg, closed (fst s') = closed l ++ [sg]) /\
      grows (disk w) (disk (snd s'))
  | Err _ => on_disk oc (disk (snd s')) h k
  end.

Lemma tail_on_disk d d' h k cs m hdr recs t0 t :
  layout oc d h k cs m (Live hdr recs t0) ->
  same_files (<[seg_name m := (hdr ++ concat recs) ++ t]> d) d' -> torn_tail t -> on_disk oc d' h k.
Proof.
  intros Hl Hs Ht. exists cs, m, (Live hdr recs t). eapply layout_tail; [exact Hl| |done]. by rewrite <- app_assoc in Hs.
Qed.

(** The sentinel is undone, or stays. *)
Lemma undo_clean l w h k m hdr recs z l' w2 w' e :
  layout oc (disk w) h k (closed l) m (Live hdr recs []) -> torn_tail z ->
  disk w2 = <[seg_name m := (hdr ++ concat recs) ++ z]> (disk w) -> later w w' -> same_files (disk w2) (disk w') ->
  wp panics (undo_sentinel (seg_name m) (len (hdr ++ concat recs)) ;;; merr (A := ()) e)
    (fun r s' => (exists e', r = Err e') /\ closes_clean l w h k r s') (l', w').
Proof.
  intros Hl Hz Hd2 Hl3 Hs3. set (p := hdr ++ concat recs) in *.
  assert (E3 : disk w' !! seg_name m = Some (p ++ z)).
  { destruct Hs3 as [Hs3 _]. by rewrite Hs3, Hd2, lookup_insert_eq. }
  eapply wp_mono; [by apply (undo_sentinel_end (seg_name m) p z)|].
  intros r s' ([e' ->] & Hl4 & Hd4). split; [by eexists|]. split; [by eapply later_trans|].
  destruct Hd4 as [-> | ->].
  - eapply (tail_on_disk _ _ _ _ _ _ _ _ _ z); [exact Hl| |done]. unfold p in Hd2. by rewrite <- Hd2.
  - eapply (tail_on_disk _ _ _ _ _ _ _ _ _ []); [exact Hl| |apply torn_nil]. rewrite app_nil_r. fold p. rewrite Hd2 in Hs3.
    destruct Hs3 as (H1 & H2 & H3). split; [|split].
    + intros b. rewrite !lookup_insert. case_decide; [done|]. by rewrite H1, lookup_insert_ne.
    + intros b. rewrite !lookup_insert_ne by apply seg_name_idx. by rewrite H2, lookup_insert_ne by apply seg_name_idx.
    + destruct (seg_name_watermark m) as [Hwm _]. by rewrite !lookup_insert_ne, H3, lookup_insert_ne by done.
Qed.

(** The sentinel and the index are written: the segment joins the closed
    ones. *)
Lemma close_finish_clean l w h k m hdr recs a l' w' size :
  layout oc (disk w) h k (closed l) m (Live hdr recs []) -> recs <> [] -> (8 * len recs <= MAX_INDEX_BYTES)%N ->
  next_offset l' = len h -> closed l' = closed l -> later w w' ->
  as_base_offset a = m -> as_path a = seg_name m -> as_positions a = positions_from HEADER_LEN recs ->
  same_files (<[idx_name m := encode_index (as_positions a)]>
    (<[seg_name m := (hdr ++ concat recs) ++ to_le_bytes 4 0]> (disk w))) (disk w') ->
  wp panics
    (n <- mopt (add64 oc (as_base_offset a) (len (as_positions a))) ;;
     last <- mopt (sub64 oc n 1) ;;
     modl (fun l => set_closed (set_active l None) (closed l ++
       [{| cs_base_offset := as_base_offset a; last_offset := last;
           cs_last_appended_at_ns := as_last_appended_at_ns a; cs_byte_size := size;
           cs_path := as_path a; cs_positions := as_positions a |}])))
    (closes_clean l w h k) (l', w').
Proof.
  intros Hl Hne Hmax Hn Hcl Hlat Hb Hp Hps Hs.
  pose proof (lay_active _ _ _ _ _ _ _ Hl) as (Ed & [Hlen _] & Hf & _). rewrite app_nil_r in Ed.
  pose proof (lay_u64 _ _ _ _ _ _ _ Hl) as Hu.
  assert (Hcount : (m + len recs = len h)%N).
  { apply Forall2_length in Hf. rewrite length_drop in Hf. pose proof (lay_le _ _ _ _ _ _ _ Hl). unfold len in *. lia. }
  assert (Hn1 : (0 < len recs)%N) by (destruct recs; [done|rewrite len_cons; lia]).
  assert (Hpl : len (as_positions a) = len recs) by (rewrite Hps; apply positions_from_len).
  apply wp_opt_then; [apply add64_panics|]. unfold add64. rewrite Hb, Hpl, (proj2 (N.leb_le _ _)) by lia.
  intros n' [= <-]. apply wp_opt_then; unfold sub64; rewrite (proj2 (N.leb_le _ _)) by lia; [done|]. intros last [= <-].
  apply wp_modl. split; [done|]. split; [|split; [done|]].
  2:{ split; [cbn; rewrite Hcl; by eexists|]. cbn [snd].
      eapply grows_trans; [apply (grows_insert _ m (hdr ++ concat recs) (to_le_bytes 4 0)); [rewrite len_app, Hlen; lia|exact Ed]|].
      apply grows_same. intros b. destruct Hs as [Hs _]. rewrite Hs, lookup_insert_ne; [done|].
      intros E. by apply (seg_name_idx b m). }
  split; [done|]. exists (len h), NoFile. split; [|done]. cbn [closed set_closed set_active snd]. rewrite Hcl.
  eapply layout_same; [exact Hs|]. set (s := {| cs_base_offset := m |}).
  apply (layout_close _ _ _ _ _ hdr recs [] s); try done.
  - rewrite app_nil_r. eapply layout_tail; [exact Hl| |apply (sentinel_torn 4)]. apply same_files_eq. by rewrite <- app_assoc.
  - simpl. lia.
Qed.

Lemma close_active_clean l w a h k :
  clean oc (l, w) h k -> active l = Some a -> as_positions a <> [] -> cursor a = Some (next_file_pos a) ->
  (8 * len (as_positions a) <= MAX_INDEX_BYTES)%N -> wp panics (close_active oc a) (closes_clean l w h k) (l, w).
Proof.
  intros (Hn & m & af & Hl & Hac) Ha Hne Hcur Hmax. rewrite Ha in Hac.
  destruct Hac as (Hb & Hp & _ & hdr & recs & -> & Hps & Hnf).
  pose proof (lay_active _ _ _ _ _ _ _ Hl) as (Ed & _). rewrite app_nil_r in Ed.
  unfold close_active. eapply wp_fs_then; [apply wp_nop, _|..].
  2:{ intros e w1 (Hl1 & Hd1 & _). split; [done|]. cbn [snd]. rewrite Hd1. by eexists _, _, _. }
  intros [] w1 (Hl1 & Hd1 & _). apply wp_opt_then; [by rewrite Hcur|]. intros cur Hcur'.
  rewrite Hcur in Hcur'. injection Hcur' as <-. rewrite Hnf, Hp.
  eapply wp_try_fs_then; [apply (wp_append (seg_name m) (hdr ++ concat recs)); by rewrite Hd1|].
  intros r2 w2 (Hl2 & _ & n & Hd2 & Hall). rewrite Hd1 in Hd2. pose proof (later_trans _ _ _ Hl1 Hl2) as Hl12.
  change ([x00; x00; x00; x00]) with (to_le_bytes 4 0) in Hall. pose proof (sentinel_torn n) as Hz.
  destruct r2 as [n2|e].
  2:{ apply wp_errs_then, wp_modl_then, wp_err. split; [by eexists|]. split; [done|].
      eapply tail_on_disk; [exact Hl| |exact Hz]. by apply same_files_eq. }
  apply wp_modl_then. eapply wp_try_fs_then; [apply wp_nop, _|]. intros [[]|e] w3 (Hl3 & Hd3 & _);
    pose proof (later_trans _ _ _ Hl12 Hl3) as Hl13.
  2:{ apply wp_errs_then. eapply undo_clean; [exact Hl|exact Hz|exact Hd2|done|by apply same_files_eq]. }
  change (mthen (mok ()) ?f) with (f ()). cbv beta.
  eapply wp_try_fs_then; [apply write_index_files|]. intros [[]|e] w4 (Hl4 & Hs4); cbn [is_ok published] in Hs4;
    pose proof (later_trans _ _ _ Hl13 Hl4) as Hl14; rewrite Hd3 in Hs4.
  2:{ apply wp_errs_then. eapply undo_clean; [exact Hl|exact Hz|exact Hd2|done|done]. }
  change (mthen (mok ()) ?f) with (f ()). cbv beta.
  eapply wp_try_fs_then; [apply (wp_metadata_len (seg_name m) ((hdr ++ concat recs) ++ take n (to_le_bytes 4 0)))|].
  { destruct Hs4 as [Hs4 _]. rewrite Hs4, lookup_insert_ne by (intros E; by apply (seg_name_idx m (as_base_offset a))).
    by rewrite Hd2, lookup_insert_eq. }
  intros r5 w5 [(Hl5 & Hd5 & _) _]. pose proof (later_trans _ _ _ Hl14 Hl5) as Hl15. rewrite <- Hp.
  assert (Hpl : len (as_positions a) = len recs) by (rewrite Hps; apply positions_from_len).
  eapply (close_finish_clean l w h k m hdr recs a); try done.
  - intros ->. by rewrite Hps in Hne.
  - by rewrite <- Hpl.
  - destruct (Hall _ eq_refl) as [_ E4]. rewrite <- E4, <- Hd2, Hd5, <- Hb. exact Hs4.
Qed.

(** ** Retention *)

(** The front segment is gone, its index perhaps not. *)
Definition segment_deleted (b : N) (d d' : gmap string bytes) : Prop :=
  d' = delete (seg_name b) d \/ d' = delete (idx_name b) (delete (seg_name b) d).

Lemma segment_deleted_lookup b d d' :
  segment_deleted b d d' ->
  (forall b', seg_name b' <> seg_name b -> d' !! seg_name b' = d !! seg_name b') /\
  d' !! seg_name b = None /\
  (forall b', idx_name b' <> idx_name b -> d' !! idx_name b' = d !! idx_name b') /\
  (forall b', d !! idx_name b' = None -> d' !! idx_name b' = None) /\ d' !! WATERMARK = d !! WATERMARK.
Proof.
  destruct (seg_name_watermark b) as [Hs _]. destruct (long_name_watermark b (str_bytes ".idx")) as [Hi _].
  assert (Hsi : forall b1 b2, idx_name b1 <> seg_name b2) by (intros b1 b2 E; by apply (seg_name_idx b2 b1)).
  intros [-> | ->].
  - split; [intros b' Hb'; by rewrite lookup_delete_ne|]. split; [apply lookup_delete_eq|].
    split; [|split]; [intros b' _|intros b' E|]; by rewrite lookup_delete_ne.
  - split; [intros b' Hb'; by rewrite !lookup_delete_ne|].
    split; [rewrite lookup_delete_ne by apply Hsi; apply lookup_delete_eq|].
    split; [intros b' Hb'; by rewrite !lookup_delete_ne|]. split.
    + intros b' E. rewrite lookup_delete_None. right. by rewrite lookup_delete_ne.
    + by rewrite !lookup_delete_ne.
Qed.

Lemma layout_pop d d' h k s cs m af :
  layout oc d h k (s :: cs) m af -> segment_deleted (cs_base_offset s) d d' ->
  (cs = [] -> af = NoFile -> watermark_value d = m) ->
  layout oc d' h (k + len (cs_positions s)) cs m af.
Proof.
  intros Hl Hd Hwm'. pose proof (layout_m oc _ _ _ _ _ _ Hl) as Hw.
  pose proof (fun s => layout_base _ _ _ _ _ _ _ s Hl) as Hbase.
  destruct Hl as [Hu Ho Hm Hch Hcl Hix Hn Hni Ha Hwm].
  apply segment_deleted_lookup in Hd as (Hseg & Hgone & Hidx & Hidn & Hwat).
  apply Forall_cons in Hcl as [Hs Hcl]. apply Forall_cons in Hix as [Hsi Hix]. destruct Hch as [Hb Hch].
  pose proof Hs as (_ & Hne & _). pose proof (Hbase s ltac:(by left)) as Hlt.
  assert (Hpos : (0 < len (cs_positions s))%N) by (destruct (cs_positions s); [done|rewrite len_cons; lia]).
  assert (Hnew : forall s', s' ∈ cs -> (cs_base_offset s < cs_base_offset s')%N /\ wf_u64 (cs_base_offset s')).
  { intros s' Hin. rewrite Forall_forall in Hcl. destruct (Hcl s' Hin) as (_ & Hne' & _).
    pose proof (chain_base _ _ _ _ Hch Hin Hne'). unfold wf_u64 in *. lia. }
  assert (Hsegne : forall b', wf_u64 b' -> b' <> cs_base_offset s -> d' !! seg_name b' = d !! seg_name b').
  { intros b' Hwb Hbne. apply Hseg. intros E%seg_name_inj; [done..|unfold wf_u64 in *; lia]. }
  split; try done.
  - rewrite Forall_forall in Hcl |- *. intros s' Hin. destruct (Hnew s' Hin) as [Hlt' Hwb].
    pose proof (Hcl s' Hin) as Hs'. pose proof Hs' as (Hp & _). apply (closed_ok_disk _ d); [|done].
    rewrite Hp. apply Hsegne; [done|lia].
  - rewrite Forall_forall in Hix |- *. intros s' Hin. destruct (Hnew s' Hin) as [Hlt' Hwb].
    apply (closed_index_disk oc d); [|apply Hsegne; [done|lia]|by apply Hix].
    apply Hidx. intros E%idx_name_inj; [lia|done|unfold wf_u64 in *; lia].
  - intros b Hwb Hsome. destruct (decide (b = cs_base_offset s)) as [->|Hbne].
    { rewrite Hgone in Hsome. by destruct Hsome. }
    rewrite Hsegne in Hsome by done. destruct (Hn b Hwb Hsome) as [|(s' & [->|Hin]%elem_of_cons & ->)]; [by left|done|].
    right. by exists s'.
  - intros b Hwb Hle. apply Hidn. by apply Hni.
  - assert (E : d' !! seg_name m = d !! seg_name m) by (apply Hsegne; [done|lia]).
    unfold active_on_disk in *. by rewrite E.
  - intros E1 E2. rewrite <- (Hwm' E1 E2). unfold watermark_value. by rewrite Hwat.
Qed.

(** After a roll: no active segment, and the watermark is up to date. *)
Definition rolled (s : SegmentLog * World) (h : list LogEntry) (k : N) : Prop :=
  clean oc s h k /\ active (fst s) = None /\ watermark_value (disk (snd s)) = len h /\ honest (snd s).

Lemma rolled_later l w w' h k : rolled (l, w) h k -> later w w' -> disk w' = disk w -> rolled (l, w') h k.
Proof.
  intros (Hc & Ha & Hwm & Ho) (_ & Hho & _) Hd. split; [eapply clean_same; [by apply same_files_eq|done]|].
  split; [done|]. split; [simpl in *; by rewrite Hd|by apply Hho].
Qed.

Lemma delete_segment_files b w :
  is_Some (disk w !! seg_name b) -> honest w ->
  wp panics (delete_segment (seg_name b) (idx_name b)) (fun r w' => later w w' /\ io_error w r /\
    match r with Ok _ => segment_deleted b (disk w) (disk w') | Err _ => disk w' = disk w end) w.
Proof.
  intros Hsome Ho. unfold delete_segment. eapply wp_try_then; [apply wp_remove|].
  intros [[]|e] w1 (Hl1 & Hr1).
  - change (mthen (mok ()) ?f) with (f ()). cbv beta.
    eapply wp_try_then; [apply wp_remove|]. intros r2 w2 (Hl2 & Hr2).
    eapply wp_mono; [apply wp_fsync_dir|]. intros r3 w3 (Hl3 & Hd3 & ->).
    split; [do 2 (eapply later_trans; [done|]); done|]. split; [apply io_error_ok|].
    rewrite Hd3. destruct r2 as [[]|e2]; [right; by rewrite Hr2, Hr1|left]. destruct Hr2 as [-> _]. done.
  - destruct Hr1 as [Hd1 Hio]. assert (Hnf : is_not_found e = false /\ io_error (A := ()) w (Err e)).
    { destruct Hio as [Hio|[E _]]; [|by rewrite E in Hsome; destruct Hsome]. split; [|done].
      destruct (Hio e eq_refl) as (kd & -> & _ & Hnf). specialize (Hnf Ho). simpl. by rewrite bool_decide_eq_false_2. }
    destruct Hnf as [-> Hnf]. change (mthen (merr e) ?f) with (merr (S := World) (A := ()) e). by apply wp_err.
Qed.

Lemma rolled_delete h s segs l w k :
  rolled (l, w) h k -> closed l = s :: segs ->
  wp panics (delete_segment (cs_path s) (idx_name (cs_base_offset s))) (fun r w' => later w w' /\ io_error w r /\
    match r with
    | Ok _ => exists k', (k <= k')%N /\ rolled (set_closed l (tail (closed l)), w') h k'
    | Err _ => rolled (l, w') h k
    end) w.
Proof.
  intros Hro Hc. pose proof Hro as ((Hn & m & af & Hl & Hac) & Ha & Hwm & Ho). simpl in Ha, Hwm, Ho.
  rewrite Ha in Hac. cbn [active_clean] in Hac. subst af. rewrite Hc in Hl.
  pose proof (lay_active _ _ _ _ _ _ _ Hl) as [_ Hm].
  pose proof (lay_closed _ _ _ _ _ _ _ Hl) as [(Hp & _ & _ & _ & f & Hf & _) _]%Forall_cons. rewrite Hp in *.
  eapply wp_mono; [apply delete_segment_files; [by eexists|done]|].
  intros [[]|e] w' (Hlw & Hr & Hd); (split; [done|]; split; [done|]); [|by eapply rolled_later].
  exists (k + len (cs_positions s))%N. split; [lia|].
  pose proof (layout_pop _ _ _ _ _ _ _ _ Hl Hd ltac:(by rewrite Hwm, <- Hm)) as Hl'.
  apply segment_deleted_lookup in Hd as (_ & _ & _ & _ & Hwat). split; [|split; [done|split]].
  - split; [done|]. exists m, NoFile. rewrite Hc. cbn [tail set_closed closed active snd]. rewrite Ha. done.
  - simpl. unfold watermark_value in *. by rewrite Hwat.
  - destruct Hlw as (_ & Hho & _). by apply Hho.
Qed.

Lemma enforce_retention_rolled l w h k :
  rolled (l, w) h k ->
  wp panics (enforce_retention oc now) (evicts_by (fun s => rolled s h) (evictions (retention (config l))) l w k) (l, w).
Proof.
  apply (enforce_retention_gen oc now (fun s => rolled s h)).
  - intros. by eapply rolled_later.
  - intros. by eapply rolled_delete.
Qed.

(** ** Rolling *)
Lemma layout_watermark d h k cs m af :
  layout oc d h k cs m af -> (cs = [] -> af = NoFile -> False) ->
  layout oc (<[WATERMARK := to_le_bytes 8 (len h)]> d) h k cs m af /\
  watermark_value (<[WATERMARK := to_le_bytes 8 (len h)]> d) = len h.
Proof.
  intros Hl Hne. set (d' := <[WATERMARK := _]> d).
  assert (Hs : forall b s, d' !! bytes_str (dec_digits 20 b ++ s) = d !! bytes_str (dec_digits 20 b ++ s)).
  { intros b s. apply lookup_insert_ne. intros E. by apply (long_name_watermark b s). }
  split.
  - destruct Hl as [Hu Ho Hm Hch Hcl Hix Hn Hni Ha Hwm]. split; try done.
    + eapply Forall_impl; [exact Hcl|]. intros s Hc. pose proof Hc as (Hp & _).
      apply (closed_ok_disk _ d); [|done]. rewrite Hp. apply Hs.
    + eapply Forall_impl; [exact Hix|]. intros s. apply closed_index_disk; apply Hs.
    + intros b Hb. unfold seg_name. rewrite Hs. by apply Hn.
    + intros b Hb Hle. unfold idx_name. rewrite Hs. by apply Hni.
    + unfold active_on_disk, seg_name in *. by rewrite Hs.
    + intros E1 E2. by destruct (Hne E1 E2).
  - unfold watermark_value, d'. rewrite lookup_insert_eq.
    rewrite <- (app_nil_r (to_le_bytes 8 _)), read_exact_app by by rewrite length_to_le_bytes.
    apply from_to_le_u64, Hl.
Qed.

(** [roll_segment] up to the retention; whether that is to follow. *)
Definition roll_close : M (SegmentLog * World) bool :=
  l <- getl ;;
  match active l with
  | None => mok false
  | Some a =>
      if bool_decide (as_positions a = []) then
        modl (fun l => set_active l None) ;;; mtry (fs (fs_remove (as_path a))) ;;; mok false
      else
        close_active oc a ;;;
        l <- getl ;;
        fs (write_watermark (next_offset l)) ;;;
        mok true
  end.

Lemma roll_split s :
  roll_segment oc now s =
    mthen roll_close (fun b => if b : bool then enforce_retention oc now else mok ()) s.
Proof.
  unfold roll_segment, roll_close. rewrite mthen_assoc, !mthen_getl.
  destruct (active (fst s)) as [a|]; [|done]. case_bool_decide.
  - rewrite mthen_assoc. apply mthen_ext. intros _ s1. rewrite mthen_assoc. by apply mthen_ext.
  - unfold roll_active. rewrite mthen_assoc. apply mthen_ext. intros _ s1. rewrite mthen_assoc, !mthen_getl.
    rewrite mthen_assoc. by apply mthen_ext.
Qed.

(** Any end of a roll is on disk; a successful one is clean. *)
Definition roll_end (p : RetentionPolicy) (w : World) (h : list LogEntry) (k : N) (r : result () StorageError)
    (s' : SegmentLog * World) : Prop :=
  later w (snd s') /\ exists k', evictions p k k' /\
  match r with Ok _ => clean oc s' h k' /\ roomy (fst s') | Err _ => on_disk oc (disk (snd s')) h k' end.

Lemma roll_close_clean l w h k :
  clean oc (l, w) h k -> at_end l -> honest w -> (8 * active_records l <= MAX_INDEX_BYTES)%N ->
  wp panics roll_close (fun r s' => later w (snd s') /\
    match r with
    | Ok retain => retain = true /\ rolled s' h k /\ config (fst s') = config l /\
        grows (disk w) (disk (snd s')) /\ exists sg, closed (fst s') = closed l ++ [sg]
    | Err _ => on_disk oc (disk (snd s')) h k
    end) (l, w).
Proof.
  intros Hc (a & Ha & Hne & Hcur) Ho Hmax. unfold active_records in Hmax. rewrite Ha in Hmax.
  unfold roll_close. apply wp_getl_then. rewrite Ha, bool_decide_eq_false_2 by done.
  eapply wp_then; [apply wp_and; [by apply (close_active_clean l w a h k)|
    apply (close_active_spec oc l w a h k); by try apply clean_inv]|..]; [|by intros e s' [? _]].
  intros [] [l1 w1] [(Hl1 & (Hn & m & af & Hl & Hac) & Ha1 & [sg Hcl1] & Hg1) (_ & _ & Hcf & _)].
  simpl in Hl1, Ha1, Hcl1, Hg1, Hcf.
  rewrite Ha1 in Hac. cbn [active_clean] in Hac. subst af.
  apply wp_getl_then. rewrite Hn. eapply wp_fs_then; [apply write_watermark_files|..].
  2:{ intros e w2 [Hl2 Hs2]. cbn [is_ok published] in Hs2. split; [by eapply later_trans|].
      exists (closed l1), m, NoFile. by eapply layout_same. }
  intros [] w2 [Hl2 Hs2]. cbn [is_ok published] in Hs2. pose proof (later_trans _ _ _ Hl1 Hl2) as Hl12.
  destruct (layout_watermark _ _ _ _ _ _ Hl) as [Hlw Hwm].
  { intros E _. rewrite Hcl1 in E. by apply app_eq_nil in E as [_ ?]. }
  apply wp_ok. split; [done|]. split; [done|]. split; [|split; [done|split; [|by exists sg]]].
  - split; [|split; [done|split]].
    + split; [done|]. exists m, NoFile. rewrite Ha1. split; [|done]. by eapply layout_same.
    + rewrite <- Hwm. unfold watermark_value. destruct Hs2 as (_ & _ & E). cbn [snd]. by rewrite E.
    + destruct Hl12 as (_ & Hho & _). by apply Hho.
  - eapply grows_trans; [exact Hg1|]. apply grows_same. intros b. destruct Hs2 as [Hs2 _]. cbn [snd].
    rewrite Hs2, lookup_insert_ne; [done|]. intros E. by apply (seg_name_watermark b).
Qed.

Lemma roll_segment_clean l w h k :
  clean oc (l, w) h k -> at_end l -> honest w -> (8 * active_records l <= MAX_INDEX_BYTES)%N ->
  wp panics (roll_segment oc now) (roll_end (retention (config l)) w h k) (l, w).
Proof.
  intros Hc He Ho Hmax Hp. rewrite roll_split. revert Hp.
  refine (wp_then (P := panics) _ _ _ _ _ (roll_close_clean l w h k Hc He Ho Hmax) _ _).
  2:{ intros e s' [Hl Hd]. split; [done|]. by exists k. }
  intros b [l2 w2] (Hl2 & -> & Hro & Hcf & _). simpl in Hcf.
  eapply wp_mono; [by apply (enforce_retention_rolled l2 w2 h k)|]. rewrite Hcf.
  intros r [l3 w3] (Hl3 & _ & _ & _ & k' & Hk' & (Hc3 & Ha3 & _)). split; [by eapply later_trans|].
  exists k'. split; [done|]. destruct r; [|by eapply clean_on_disk]. split; [done|].
  unfold roomy. simpl in *. by rewrite Ha3.
Qed.

(** ** The whole append *)
Definition append_end (l : SegmentLog) (w : World) (h : list LogEntry) (k : N) (pid : string) (ts : N)
    (events : list OtkEvent) (r : result Offset StorageError) (s' : SegmentLog * World) : Prop :=
  match r with
  | Ok _ => exists k', evictions (retention (config l)) k k' /\
      clean oc s' (h ++ batch pid ts (len h) events) k' /\ roomy (fst s') /\ config (fst s') = config l
  | Err _ => part_of_batch (retention (config l)) (disk (snd s')) h k pid ts events /\
      (faultless w -> unchanged l h k s')
  end.

(** After the commit of a batch only the roll can fail, and keeps the batch. *)
Lemma after_batch_clean l w h k :
  clean oc (l, w) h k -> at_end l -> h <> [] -> honest w -> (8 * active_records l <= MAX_INDEX_BYTES)%N ->
  wp panics (after_batch oc now) (fun r s' => exists k', evictions (retention (config l)) k k' /\
    match r with
    | Ok _ => clean oc s' h k' /\ roomy (fst s')
    | Err _ => on_disk oc (disk (snd s')) h k'
    end) (l, w).
Proof.
  intros Hc Hend Hne Ho Hmax. unfold after_batch. eapply wp_then; [apply (should_roll_spec oc)|..].
  2:{ by intros e s' (_ & _ & ? & ? & _). }
  intros roll [l1 w1] ((Hl1 & Hd1 & _) & E & b & [= <-] & Hroomy). simpl in Hl1, Hd1, E. subst l1.
  assert (Hc1 : clean oc (l, w1) h k) by (eapply clean_same; [by apply same_files_eq|exact Hc]).
  assert (Hroll : wp panics (if roll then roll_segment oc now else mok ())
    (roll_end (retention (config l)) w1 h k) (l, w1)).
  { destruct roll; [apply roll_segment_clean; [done|done| |done]; destruct Hl1 as (_ & Hho & _); by apply Hho|].
    apply wp_ok. split; [apply later_refl|]. exists k. split; [done|]. split; [done|by apply Hroomy]. }
  eapply wp_then; [exact Hroll|..].
  2:{ intros e s' (_ & k' & Hk' & Hd). by exists k'. }
  intros [] [l2 w2] (_ & k' & Hk' & Hc2 & Hr2). apply wp_getl_then. pose proof Hc2 as [Hn2 _].
  assert (Hpos : (1 <= len h)%N) by (destruct h; [done|rewrite len_cons; lia]).
  apply wp_opt_then; unfold sub64; rewrite (proj2 (N.leb_le _ _)) by lia; [done|]. intros o [= <-].
  apply wp_ok. by exists k'.
Qed.

Lemma log_append_clean l w h k pid events :
  utf8_valid (str_bytes pid) = true -> clean oc (l, w) h k -> honest w ->
  (8 * (active_records l + len events) <= MAX_INDEX_BYTES)%N ->
  wp panics (log_append oc now pid events) (fun r s' => exists ts,
    append_end l w h k pid ts events r s') (l, w).
Proof.
  intros Hpid Hc Ho Hmax. rewrite append_commit.
  eapply wp_then; [by apply (write_batch_clean l w h k pid events)|..].
  2:{ intros e s' (ts & (_ & Hp) & _). by exists ts. }
  intros [] [l1 w1] (ts & (Hl1 & Hc1 & Hr1 & _) & Hok). destruct (Hok eq_refl) as (Hcf & Hev & Hend).
  simpl in Hl1, Hr1, Hcf, Hend.
  assert (Hne : h ++ batch pid ts (len h) events <> []).
  { intros E. apply (f_equal len) in E. rewrite len_app, len_batch, len_nil in E.
    apply Hev, len_zero_nil. lia. }
  eapply wp_mono; [apply wp_and; [apply (after_batch_clean l1 w1 _ k Hc1 Hend Hne)|
    apply (after_batch_spec oc now l1 w1 _ k (clean_inv _ _ _ _ _ Hc1) Hend Hne)]|].
  - destruct Hl1 as (_ & Hho & _). by apply Hho.
  - lia.
  - rewrite Hcf. intros r s' [(k' & Hk' & Hr) (_ & Hio & Hcf' & _)]. exists ts. destruct r as [o|e].
    + exists k'. destruct Hr. by split_and!.
    + split; [by eapply part_all|]. intros Hw. destruct (io_error_never _ _ Hio). by apply Hl1.
Qed.

(** A record takes more than eight bytes. *)
Lemma records_bytes recs es : Forall2 (reads_as oc) recs es -> (8 * len recs <= len (concat recs))%N.
Proof.
  intros Hf. induction Hf as [|rec e recs es (_ & Hl & _) Hf IH]; [done|].
  rewrite len_cons. simpl. rewrite len_app. lia.
Qed.

Lemma clean_roomy l w h k :
  clean oc (l, w) h k -> roomy l -> (8 * active_records l <= max_segment_bytes (config l))%N.
Proof.
  intros (_ & m & af & Hl & Ha) Hr. unfold active_records, roomy in *.
  destruct (active l) as [a|]; cbn [from_option]; [|lia].
  destruct Ha as (_ & _ & Hs & hdr & recs & -> & Hps & Hnf).
  pose proof (lay_active _ _ _ _ _ _ _ Hl) as (_ & [Hlen _] & Hf & _). apply records_bytes in Hf.
  rewrite Hps, positions_from_len. rewrite Hs, Hnf, len_app, Hlen in Hr. unfold saturating_sub in Hr. lia.
Qed.
End Recovery.

(** ** Claims *)
Section Claims.
Context `{CborEvent : Cbor OtkEvent} `{Crc : Crc32} `{!CborLaws OtkEvent} `{!Crc32Laws}.
Variable oc : bool.
Variable now : N -> N.
Hypothesis now_u64 : forall n, wf_u64 (now n).

(** A new process finds the history [h]. *)
Definition reopens_to (config : SegmentLogConfig) (w : World) (h : list LogEntry) (k : N) : Prop :=
  exists l w', log_open oc now config w = Some (Ok l, w') /\ healthy w' /\ clean oc (l, w') h k.

(** The end of an opening that may fail. *)
Definition open_outcome (w : World) (h : list LogEntry) (k : N) (r : result SegmentLog StorageError)
    (w' : World) : Prop :=
  honest w' /\ prompt w' /\ sizes_ok (disk w') /\
  match r with
  | Ok l => clean oc (l, w') h k
  | Err e => on_disk oc (disk w') h k /\ ~ faultless w /\ exists kd, e = Io kd
  end.


End Claims.

(** ** Concrete runs *)
Lemma fresh_clean oc faults : @clean event_cbor sum_crc oc (fresh_log, world faults) [] 0.
Proof.
  split; [done|]. exists 0%N, NoFile. split; [|done].
  assert (Hnone : forall b, (world faults).(disk) !! b = None) by (intros b; apply lookup_empty).
  split; [done|apply offsets_ok_nil|done|done|constructor|constructor|..|done|done].
  - intros b _. rewrite Hnone. by intros [? ?].
  - intros b _ _. apply Hnone.
Qed.

Definition two_events : list OtkEvent := [sample_event; sample_event].

(** Killed in the second record of a batch of two. *)
Definition killed_in_batch : list fault := repeat Succeeds 8 ++ [Killed 20].

Abbreviation killed_append :=
  (@log_append event_cbor sum_crc true sample_now "loop-1" two_events (fresh_log, world killed_in_batch)).

Definition after (r : option (result Offset StorageError * (SegmentLog * World))) : SegmentLog * World :=
  match r with Some (_, s) => s | None => (fresh_log, world []) end.

(** The directory of [s], opened by a new process. *)
Definition restarted (s : SegmentLog * World) : World :=
  {| disk := disk (snd s); schedule := []; dead := false; clock := 0; cache := forgotten (cache (snd s)) |}.

Abbreviation reopen s := (@log_open event_cbor sum_crc true sample_now small_config (restarted s)).

(** The memory and the directory it leaves. *)
Definition killed_state : SegmentLog * World := Eval vm_compute in after killed_append.

Example killed_run : killed_append = Some (Err (Io "killed"), (fst killed_state, snd killed_state)).
Proof. vm_compute. reflexivity. Qed.

Lemma sizes_ok_check d :
  forallb (fun nc => (len (snd nc) <=? u64_max)%N) (map_to_list d) = true -> sizes_ok d.
Proof.
  intros Hl name content E. rewrite forallb_forall in Hl. apply elem_of_map_to_list, list_elem_of_In in E.
  by apply Hl, N.leb_le in E.
Qed.

Lemma killed_sizes : sizes_ok (disk (snd killed_state)).
Proof. apply sizes_ok_check. vm_compute. reflexivity. Qed.

Lemma killed_reopened : exists l3 w3, reopen killed_state = Some (Ok l3, w3) /\ next_offset l3 = 1%N.
Proof. vm_compute. do 2 eexists. split; reflexivity. Qed.



(** *** Failed truncations

    The segment is not rolled, so that the records stay in one file. *)
Definition one_segment : SegmentLog :=
  {| config := default_log_config; closed := []; active := None; next_offset := 0; notified := 0;
     poisoned := false |}.

Definition append_on (pid : string) (events : list OtkEvent) (s : SegmentLog * World) :=
  @log_append event_cbor sum_crc true sample_now pid events s.

Definition read_all (s : SegmentLog * World) :=
  @log_read_range event_cbor sum_crc true (offset_new 0) None s.

(** The producers of the entries of a read. *)
Definition producers (r : option (result (list LogEntry) StorageError * (SegmentLog * World)))
  : option (list string) :=
  match r with Some (Ok es, _) => Some (entry_producer_id <$> es) | _ => None end.

(** The log of a new process on the directory of [s]. *)
Definition reopened (s : SegmentLog * World) : SegmentLog * World :=
  match reopen s with Some (Ok l, w) => (l, w) | _ => s end.

(** The sync of the first batch fails, and so does its truncation. *)
Definition sync_fails : list fault := repeat Succeeds 9 ++ [Fails "EIO" 0; Fails "EIO" 0].

(** A failed batch comes back.  A batch of two events is written, its sync
    fails and the truncation fails too: [append] reports an error and nothing
    is stored.  The next append succeeds and overwrites only the first record.
    After a restart the log holds, behind the event that was stored, the
    second event of the batch that failed. *)
Theorem stale_record_resurrected : exists s1 s2,
  append_on "loop-1" two_events (one_segment, world sync_fails) = Some (Err (Io "EIO"), s1) /\
  producers (read_all s1) = Some [] /\
  append_on "loop-2" [sample_event] s1 = Some (Ok (offset_new 0), s2) /\
  producers (read_all s2) = Some ["loop-2"] /\
  producers (read_all (reopened s2)) = Some ["loop-2"; "loop-1"].
Proof.
  do 2 eexists. split; [vm_compute; reflexivity|]. split; [vm_compute; reflexivity|].
  split; [vm_compute; reflexivity|]. split; vm_compute; reflexivity.
Qed.

(** The second record of the first batch is cut off and both truncations fail;
    the position query of the next append fails. *)
Definition query_fails : list fault :=
  repeat Succeeds 8 ++ [Fails "EIO" 7; Fails "EIO" 0; Fails "EIO" 0] ++ repeat Succeeds 4 ++ [Fails "EIO" 0].

(** An acknowledged event is lost.  After a batch that failed half-way and
    whose truncation failed, the fallback of the position query (the end of
    the file) takes the stale bytes for part of the next batch.  The event
    appended after that is synced, acknowledged and readable, but it lies
    behind the stale bytes, where recovery cuts the file: after a restart it
    is gone. *)
Theorem acknowledged_event_lost : exists s1 s2 s3,
  append_on "loop-1" two_events (one_segment, world query_fails) = Some (Err (Io "EIO"), s1) /\
  append_on "loop-2" [sample_event] s1 = Some (Ok (offset_new 0), s2) /\
  append_on "loop-3" [sample_event] s2 = Some (Ok (offset_new 1), s3) /\
  producers (read_all s3) = Some ["loop-2"; "loop-3"] /\
  producers (read_all (reopened s3)) = Some ["loop-2"].
Proof.
  do 3 eexists. split; [vm_compute; reflexivity|]. split; [vm_compute; reflexivity|].
  split; [vm_compute; reflexivity|]. split; vm_compute; reflexivity.
Qed.
