(* ===== verification/SegmentLate.v ===== *)
(** Writes that fail after they were reported as done.

    [tokio::fs::File::write_all] returns when its bytes are with another
    thread, and the error of that thread comes with the next write to the file;
    the code never flushes, and [sync_all] does not report it.  The theorems on
    failures assume that this does not happen ([prompt]); here it does
    ([FailsLate]).

    [late_write_acknowledged]: an append answers with an offset although
    nothing is stored.  [late_header_loses_log]: a log whose header was lost
    acknowledges events, and cannot be opened again. *)
From stdpp Require Import base gmap strings list option numbers pretty.
From Stdlib Require Import Strings.Byte.
From S2P Require Import Prelude EventModel EventLogPort SegmentFile SegmentFs SegmentLog SegmentLogSafety SegmentLogRecovery.

(** A log opened on an empty directory with the default configuration: every
    batch is synced. *)
Definition empty_log : SegmentLog :=
  {| config := default_log_config; closed := []; active := None; next_offset := 0; notified := 0; poisoned := false |}.

Abbreviation append_to s := (@log_append event_cbor sum_crc false sample_now "loop-1" [sample_event] s).
Abbreviation read_from o s := (@log_read_range event_cbor sum_crc false (offset_new o) None s).
Abbreviation start_on s := (@log_open event_cbor sum_crc false sample_now default_log_config (restarted s)).

(** The seventh call is the write of the record. *)
Definition record_late : list fault := repeat Succeeds 6 ++ [FailsLate "ENOSPC" 3].

Definition acknowledged_lost : SegmentLog * World :=
  Eval vm_compute in after (append_to (empty_log, world record_late)).

(** The disk fills up while the record is written.  The sync that follows
    succeeds, the append answers with offset 0, and the log counts the event;
    but it cannot be read, and is not there after a restart. *)
Theorem late_write_acknowledged :
  append_to (empty_log, world record_late) = Some (Ok (offset_new 0), acknowledged_lost) /\
  next_offset (fst acknowledged_lost) = 1%N /\
  (exists m s, read_from 0%N acknowledged_lost = Some (Err m, s)) /\
  exists l w, start_on acknowledged_lost = Some (Ok l, w) /\ next_offset l = 0%N.
Proof.
  split; [vm_compute; reflexivity|]. split; [reflexivity|].
  split; [do 2 eexists; vm_compute; reflexivity|]. do 2 eexists. split; [vm_compute; reflexivity|reflexivity].
Qed.

(** The second call is the write of the header. *)
Definition header_late : list fault := [Succeeds; FailsLate "ENOSPC" 0].

Definition header_missing : SegmentLog * World :=
  Eval vm_compute in after (append_to (empty_log, world header_late)).

Definition acknowledged_headless : SegmentLog * World :=
  Eval vm_compute in after (append_to header_missing).

(** The append that creates the segment is refused with the header's error;
    the next one is acknowledged and its event can be read, but it is in a file
    without a header, which the next start refuses. *)
Theorem late_header_loses_log :
  append_to (empty_log, world header_late) = Some (Err (Io "ENOSPC"), header_missing) /\
  append_to header_missing = Some (Ok (offset_new 0), acknowledged_headless) /\
  (exists e s, read_from 0%N acknowledged_headless = Some (Ok [e], s)) /\
  exists m w, start_on acknowledged_headless = Some (Err (Corrupted m), w).
Proof.
  split; [vm_compute; reflexivity|]. split; [vm_compute; reflexivity|].
  split; [do 2 eexists; vm_compute; reflexivity|]. do 2 eexists. vm_compute. reflexivity.
Qed.
