(* ===== verification/SegmentStable.v ===== *)
(** What a power failure leaves of the segment log.

    [SegmentFs] keeps, next to the disk, what is not on stable storage.  Here:
    the records of an acknowledged batch are on stable storage whatever fails
    afterwards, and after an append that met no failure nothing is outstanding
    at all, so that the directory a power failure leaves opens to the same
    history.  [Keeps I m] and [KeepsL I K m] say that a computation keeps an
    invariant of the disk and the cache, whatever fails; [ends] and [endsl]
    what it leaves outstanding when it succeeds and nothing fails.  A failure
    is one the failing call reports ([prompt]). *)
From stdpp Require Import base gmap strings list option numbers pretty.
From Stdlib Require Import Strings.Byte.
From S2P Require Import Prelude EventModel EventLogPort SegmentFile SegmentFs SegmentLog SegmentLogSafety SegmentLogLayout SegmentLogOpen SegmentLogRecovery.

(** ** Invariants of the world

    [I] speaks of the disk and of the cache. *)
Section Keeps.
Variable I : gmap string bytes -> Cache -> Prop.

Definition holds (w : World) : Prop := I (disk w) (cache w).

Class Keeps {A} (m : M World A) : Prop :=
  keeps_run w r w' : prompt w -> holds w -> m w = Some (r, w') -> prompt w' /\ holds w'.

#[global] Instance keeps_ok {A} (a : A) : Keeps (mok a).
Proof. by intros w r w' Hp Hw [= _ <-]. Qed.
#[global] Instance keeps_err {A} e : Keeps (merr (A := A) e).
Proof. by intros w r w' Hp Hw [= _ <-]. Qed.
#[global] Instance keeps_result {A} (r : result A StorageError) : Keeps (mresult r).
Proof. by intros w r' w' Hp Hw [= _ <-]. Qed.
#[global] Instance keeps_now readings : Keeps (now_ns readings).
Proof. by intros w r w' Hp Hw [= _ <-]. Qed.
#[global] Instance keeps_try {A} (m : M World A) : Keeps m -> Keeps (mtry m).
Proof. intros Hm w r w' Hp Hw. unfold mtry. destruct (m w) as [[a w1]|] eqn:E; [|done]. intros [= _ <-]. by eapply Hm. Qed.
#[global] Instance keeps_then {A B} (m : M World A) (f : A -> M World B) :
  Keeps m -> (forall a, Keeps (f a)) -> Keeps (mthen m f).
Proof.
  intros Hm Hf w r w' Hp Hw. unfold mthen. destruct (m w) as [[[a|e] w1]|] eqn:E; [..|done].
  - destruct (Hm _ _ _ Hp Hw E). by apply Hf.
  - intros [= _ <-]. by eapply Hm.
Qed.

(** A call keeps what its part and its whole, with their marks, keep. *)
Lemma keeps_io {A} mark_part mark `{!Reports mark_part} `{!Reports mark} part
    (act : gmap string bytes -> result (A * gmap string bytes) StorageError) :
  (forall d, part 0%nat d = d) ->
  (forall n d c, I d c -> I (part n d) (mark_part d c)) ->
  (forall d c a d', I d c -> act d = Ok (a, d') -> I d' (mark d c)) ->
  Keeps (io_mark mark_part mark part act).
Proof.
  intros H0 Hpart Hact w r w' Hp Hw Hr.
  assert (Hrun : wp False (io_mark mark_part mark part act) (fun _ _ => True) w).
  { apply wp_io; [apply _..|done|done|]. intros w1 _ _. by destruct (act (disk w)) as [[a d]|e]. }
  unfold wp in Hrun. rewrite Hr in Hrun. split; [by apply Hrun|]. revert Hr. clear Hrun Hp.
  destruct w as [d sch dd ck c]. unfold holds in *. cbn [disk cache] in Hw. unfold io_mark, next_fault. cbn [dead schedule].
  destruct dd; [intros [= _ <-]; simpl; by rewrite H0|].
  destruct sch as [|[|e n|n|e n] sch]; cbn [disk cache];
    try (intros [= _ <-]; by apply Hpart); (destruct (act d) as [[a d']|e1] eqn:E; intros [= _ <-]; [|done]);
    by eapply Hact.
Qed.

(** Where the rest depends on what [m] can return. *)
Lemma keeps_then_result {A B} (m : M World A) (f : A -> M World B) :
  Keeps m -> (forall w a w', prompt w -> m w = Some (Ok a, w') -> Keeps (f a)) -> Keeps (mthen m f).
Proof.
  intros Hm Hf w r w' Hp Hw. unfold mthen. destruct (m w) as [[[a|e] w1]|] eqn:E; [..|done].
  - destruct (Hm _ _ _ Hp Hw E). by apply (Hf _ _ _ Hp E).
  - intros [= _ <-]. by eapply Hm.
Qed.

(** Calls that leave the disk and the cache alone. *)
Lemma keeps_call {A} (act : gmap string bytes -> result (A * gmap string bytes) StorageError) :
  (forall d a d', act d = Ok (a, d') -> d' = d) -> Keeps (io_call no_part act).
Proof. intros Ha. apply keeps_io; try apply _; [done|done|]. intros d c a d' HI E. by rewrite (Ha _ _ _ E). Qed.
#[global] Instance keeps_nop : Keeps fs_nop.
Proof. apply keeps_call. by intros d a d' [= _ <-]. Qed.
#[global] Instance keeps_seek_end name : Keeps (fs_seek_end name).
Proof. apply keeps_call. by intros d a d' [= _ <-]. Qed.
#[global] Instance keeps_metadata_len name : Keeps (fs_metadata_len name).
Proof. apply keeps_call. intros d a d'. destruct (d !! name); by intros [= _ <-]. Qed.

Lemma keeps_write name pos data :
  (forall data' d c, I d c -> I (alter (splice pos data') name d) (dirty name pos d c)) -> Keeps (fs_write name pos data).
Proof.
  intros Hd. assert (Hw : Keeps (write_now name pos data)).
  { apply keeps_io; try apply _; [ |by auto|].
    - intros d. apply alter_id. intros c _. apply splice_nil.
    - intros d c a d' HI [= _ <-]. by apply Hd. }
  intros w r w' Hp. rewrite fs_write_prompt by done. by apply Hw.
Qed.

(** A computation of the log also keeps [K] of the log itself. *)
Section Both.
Variable K : SegmentLog -> Prop.

Definition holdsl (s : SegmentLog * World) : Prop := K (fst s) /\ holds (snd s).

Class KeepsL {A} (m : M (SegmentLog * World) A) : Prop :=
  keepsl_run s r s' : prompt s -> holdsl s -> m s = Some (r, s') -> prompt s' /\ holdsl s'.

#[global] Instance keepsl_ok {A} (a : A) : KeepsL (mok a).
Proof. by intros s r s' Hp Hw [= _ <-]. Qed.
#[global] Instance keepsl_err {A} e : KeepsL (merr (A := A) e).
Proof. by intros s r s' Hp Hw [= _ <-]. Qed.
#[global] Instance keepsl_opt {A} (o : option A) : KeepsL (mopt o).
Proof. destruct o; [apply keepsl_ok|done]. Qed.
#[global] Instance keepsl_getl : KeepsL getl.
Proof. by intros s r s' Hp Hw [= _ <-]. Qed.
Lemma keepsl_modl g : (forall l, K l -> K (g l)) -> KeepsL (modl g).
Proof. intros Hg s r s' Hp [Hl Hw] [= _ <-]. split; [exact Hp|]. split; [by apply Hg|done]. Qed.
#[global] Instance keepsl_fs {A} (m : M World A) : Keeps m -> KeepsL (fs m).
Proof.
  intros Hm s r s' Hp [Hl Hw]. unfold fs, on_right. destruct (m (snd s)) as [[a w]|] eqn:E; [|done].
  intros [= _ <-]. destruct (Hm _ _ _ Hp Hw E). done.
Qed.
#[global] Instance keepsl_try {A} (m : M (SegmentLog * World) A) : KeepsL m -> KeepsL (mtry m).
Proof. intros Hm s r s' Hp Hw. unfold mtry. destruct (m s) as [[a s1]|] eqn:E; [|done]. intros [= _ <-]. by eapply Hm. Qed.
#[global] Instance keepsl_then {A B} (m : M (SegmentLog * World) A) (f : A -> M (SegmentLog * World) B) :
  KeepsL m -> (forall a, KeepsL (f a)) -> KeepsL (mthen m f).
Proof.
  intros Hm Hf s r s' Hp Hw. unfold mthen. destruct (m s) as [[[a|e] s1]|] eqn:E; [..|done].
  - destruct (Hm _ _ _ Hp Hw E). by apply Hf.
  - intros [= _ <-]. by eapply Hm.
Qed.

Lemma wp_holdsl {A} (m : M (SegmentLog * World) A) s :
  KeepsL m -> holdsl s -> wp True m (fun _ => holdsl) s.
Proof. intros Hm Hs Hp. destruct (m s) as [[r s']|] eqn:E; [by eapply Hm|done]. Qed.
End Both.

Lemma wp_holds {A} (m : M World A) w : Keeps m -> holds w -> wp True m (fun _ => holds) w.
Proof. intros Hm Hw Hp. destruct (m w) as [[r w']|] eqn:E; [by eapply Hm|done]. Qed.
End Keeps.

#[export] Hint Extern 1 (KeepsL _ _ (modl _)) => apply keepsl_modl; solve [auto] : typeclass_instances.
#[export] Hint Extern 2 (Keeps _ (match ?x with _ => _ end)) => destruct x : typeclass_instances.
#[export] Hint Extern 2 (KeepsL _ _ (match ?x with _ => _ end)) => destruct x : typeclass_instances.

(** ** Guarded files

    The bytes below [n] of the file [name] are on stable storage. *)
Definition flushed (c : Cache) (name : string) (n : N) : Prop :=
  match unsynced c !! name with Some k => (n <= k)%N | None => True end.

Lemma flushed_0 c name : flushed c name 0.
Proof. unfold flushed. destruct (unsynced c !! name); [apply N.le_0_l|done]. Qed.

(** The [others] are synced, and [path] has [n] bytes on stable storage. *)
Definition guard (others : string -> Prop) (path : string) (n : N) (d : gmap string bytes) (c : Cache) : Prop :=
  (forall name, others name -> unsynced c !! name = None) /\
  (n <= len (default [] (d !! path)))%N /\ flushed c path n.

(** Only segment files are guarded. *)
Class Apart (others : string -> Prop) (path : string) : Prop := {
  apart_path : forall name, others name -> name <> path;
  apart_seg : forall name, others name -> exists b, name = seg_name b;
  apart_file : exists b, path = seg_name b
}.

Section Guard.
Context `{CborEvent : Cbor OtkEvent} `{Crc : Crc32}.
Variable oc : bool.
Variable now : N -> N.
Variables (others : string -> Prop) (path : string) (n : N).

Context `{!Apart others path}.

Abbreviation G := (guard others path n).

(** Not the name of a segment file. *)
Definition aside (name : string) : Prop := forall b, seg_name b <> name.

Lemma aside_other name name' : aside name -> others name' -> name' <> name.
Proof. intros Ha [b ->]%apart_seg. apply Ha. Qed.

Lemma aside_path name : aside name -> path <> name.
Proof. intros Ha. destruct (apart_file (others := others) (path := path)) as [b ->]. apply Ha. Qed.

(** A mark and a change of the disk that leave the guarded files alone. *)
Lemma guard_ext d c d' c' :
  (forall name, others name -> unsynced c' !! name = unsynced c !! name \/ unsynced c' !! name = None) ->
  (n <= len (default [] (d' !! path)))%N ->
  (unsynced c' !! path = unsynced c !! path \/ unsynced c' !! path = None \/
   exists k, unsynced c' !! path = Some k /\ (n <= k)%N) ->
  G d c -> G d' c'.
Proof.
  intros Ho Hn Hp (H1 & _ & H3). split; [|split; [done|]].
  - intros name Hname. destruct (Ho name Hname) as [->|?]; [by apply H1|done].
  - unfold flushed in *. destruct Hp as [->|[->|(k & -> & Hk)]]; done.
Qed.

Lemma guard_len d c : G d c -> (n <= len (default [] (d !! path)))%N.
Proof. by intros (_ & ? & _). Qed.

#[local] Instance guard_mark mark `{!Reports mark} :
  (forall d c, G d c -> G d (mark d c)) -> Keeps G (fs_mark mark).
Proof. intros Hm. apply keeps_io; try apply _; [done|done|]. intros d c a d' HG [= _ <-]. by apply Hm. Qed.

Lemma guard_synced name d c : G d c -> G d (synced name d c).
Proof.
  intros HG. eapply guard_ext; [| |..|exact HG]; simpl; [|by eapply guard_len|].
  - intros name' _. rewrite lookup_delete. case_decide; auto.
  - rewrite lookup_delete. case_decide; auto.
Qed.

#[global] Instance guard_sync name : Keeps G (fs_sync name).
Proof. apply guard_mark; [apply _|]. intros d c. apply guard_synced. Qed.

#[global] Instance guard_sync_dir : Keeps G fs_sync_dir.
Proof. apply guard_mark; [apply _|]. intros d c HG. eapply guard_ext; [by left|by eapply guard_len|by left|exact HG]. Qed.

#[global] Instance guard_fsync_dir : Keeps G fsync_dir.
Proof. unfold fsync_dir. apply _. Qed.

(** *** Files that are not segments *)
Lemma guard_aside name d d' c k :
  aside name -> d' !! path = d !! path -> G d c ->
  G d' {| unsynced := partial_alter (fun _ => k) name (unsynced c); unlisted := unlisted c; unreported := unreported c |}.
Proof.
  intros Hn Hd HG. eapply guard_ext; [| |..|exact HG]; simpl.
  - intros name' Ho. left. apply lookup_partial_alter_ne. by apply not_eq_sym, aside_other.
  - rewrite Hd. by eapply guard_len.
  - left. apply lookup_partial_alter_ne. by apply not_eq_sym, aside_path.
Qed.

(** Missing names and unreported errors do not matter. *)
Lemma guard_unlisted d c u v : G d c -> G d {| unsynced := unsynced c; unlisted := u; unreported := v |}.
Proof. done. Qed.

Lemma guard_write_aside name pos data : aside name -> Keeps G (fs_write name pos data).
Proof.
  intros Hn. apply keeps_write. intros data' d c. apply guard_aside; [done|]. apply lookup_alter_ne. by apply not_eq_sym, aside_path.
Qed.

Lemma guard_create_aside name : aside name -> Keeps G (fs_create_truncate name).
Proof.
  intros Hn. apply keeps_io; try apply _; [done|done|]. intros d c a d' HG [= _ <-].
  apply (guard_unlisted _ {| unsynced := _; unlisted := unlisted c; unreported := unreported c |}).
  revert HG. apply (guard_aside name d _ c (Some 0%N)); [done|]. apply lookup_insert_ne. by apply not_eq_sym, aside_path.
Qed.

Lemma guard_rename_aside from to : aside from -> aside to -> Keeps G (fs_rename from to).
Proof.
  intros Hf Ht. apply keeps_io; try apply _; [done|done|]. intros d c a d' HG.
  destruct (d !! from) as [content|]; [|done]. intros [= _ <-].
  apply (guard_unlisted _ {| unsynced := _; unlisted := unlisted c; unreported := unreported c |}).
  set (c1 := {| unsynced := delete from (unsynced c); unlisted := unlisted c; unreported := unreported c |}).
  assert (HG1 : G (delete from d) c1).
  { revert HG. apply (guard_aside from d _ c None); [done|]. apply lookup_delete_ne. by apply not_eq_sym, aside_path. }
  revert HG1. apply (guard_aside to _ _ c1); [done|]. apply lookup_insert_ne. by apply not_eq_sym, aside_path.
Qed.

Lemma idx_aside b : aside (idx_name b).
Proof. intros b'. apply seg_name_idx. Qed.
Lemma idx_tmp_aside b : aside (idx_tmp_name b).
Proof. intros b'. apply seg_name_idx_tmp. Qed.
Lemma watermark_aside : aside WATERMARK.
Proof. intros b. apply seg_name_watermark. Qed.
Lemma watermark_tmp_aside : aside WATERMARK_TMP.
Proof. intros b. apply seg_name_watermark. Qed.

#[local] Hint Resolve idx_aside idx_tmp_aside watermark_aside watermark_tmp_aside : core.
#[local] Hint Extern 2 (Keeps _ (fs_write _ _ _)) => apply guard_write_aside; solve [auto] : typeclass_instances.
#[local] Hint Extern 2 (Keeps _ (fs_create_truncate _)) => apply guard_create_aside; solve [auto] : typeclass_instances.
#[local] Hint Extern 2 (Keeps _ (fs_rename _ _)) => apply guard_rename_aside; solve [auto] : typeclass_instances.

#[global] Instance guard_write_index base ps : Keeps G (write_index base ps).
Proof. unfold write_index. apply _. Qed.
#[global] Instance guard_write_watermark m : Keeps G (write_watermark m).
Proof. unfold write_watermark. apply _. Qed.

(** *** The file in progress, beyond its first [n] bytes *)
Lemma guard_dirty d d' c pos :
  (n <= pos)%N -> (n <= len (default [] (d' !! path)))%N -> G d c -> G d' (dirty path pos d c).
Proof.
  intros Hp Hd HG. pose proof HG as (_ & Hl & Hf). eapply guard_ext; [|exact Hd|..|exact HG]; simpl.
  - intros name Ho. left. apply lookup_insert_ne. by apply not_eq_sym, apart_path.
  - do 2 right. rewrite lookup_insert_eq. eexists. split; [done|]. unfold flushed in Hf.
    destruct (unsynced c !! path) as [k|]; simpl; lia.
Qed.

Lemma len_splice pos data content : (len content <= len (splice pos data content))%N.
Proof.
  unfold splice. case_bool_decide; [lia|]. unfold len. rewrite !length_app, length_take, repeat_length, length_drop. lia.
Qed.

Lemma len_alter (f : bytes -> bytes) (d : gmap string bytes) :
  (forall c, d !! path = Some c -> n <= len c -> n <= len (f c))%N ->
  (n <= len (default [] (d !! path)) -> n <= len (default [] (alter f path d !! path)))%N.
Proof. intros Hf. rewrite lookup_alter_eq. destruct (d !! path) as [c|]; simpl; [by apply Hf|done]. Qed.

Lemma guard_write pos data : (n <= pos)%N -> Keeps G (fs_write path pos data).
Proof.
  intros Hp.
  assert (Hd : forall data' d c, G d c -> G (alter (splice pos data') path d) (dirty path pos d c)).
  { intros data' d c HG. apply guard_dirty; [done| |done]. apply len_alter; [|by eapply guard_len].
    intros c' _ Hc'. pose proof (len_splice pos data' c'). lia. }
  by apply keeps_write.
Qed.

Lemma guard_set_len pos : (n <= pos)%N -> Keeps G (fs_set_len path pos).
Proof.
  intros Hp. apply keeps_io; try apply _; [done|done|]. intros d c a d' HG [= _ <-].
  apply guard_dirty; [done| |done]. apply len_alter; [|by eapply guard_len].
  intros c' _ Hc'. unfold resize, len in *. rewrite length_app, length_take, repeat_length. lia.
Qed.

Lemma guard_write_record cur entry : (n <= cur)%N -> Keeps G (write_record_at path cur entry).
Proof. intros Hc. pose proof (guard_set_len cur Hc). pose proof (fun d => guard_write cur d Hc). unfold write_record_at. apply _. Qed.

Lemma write_record_cursor cur entry w pos cur' w' :
  write_record_at path cur entry w = Some (Ok (pos, cur'), w') -> (cur <= cur')%N.
Proof.
  unfold write_record_at, mthen, mtry, mresult. destruct (encode_record entry) as [buf|e]; [|done].
  destruct (fs_nop w) as [[[[]|e] w1]|]; [|done..]. destruct (fs_write path cur buf w1) as [[[n'|e] w2]|]; [|..|done].
  - intros [= _ <- _]. lia.
  - by destruct (fs_set_len path cur w2) as [[r w3]|].
Qed.

Lemma guard_append_events pid ts start evs cur next nps :
  (n <= start)%N -> (n <= cur)%N -> Keeps G (append_events pid ts path start evs cur next nps).
Proof.
  intros Hs. pose proof (guard_set_len start Hs). revert cur next nps.
  induction evs as [|ev evs IH]; intros cur next nps Hc; cbn [append_events]; [apply _|].
  destruct (next =? u64_max)%N; [apply _|]. pose proof (fun e => guard_write_record cur e Hc).
  apply keeps_then_result; [apply _|]. intros w r w' _ E. destruct r as [[pos cur']|e]; [|apply _]. apply IH.
  unfold mtry in E. destruct (write_record_at path cur _ w) as [[r w1]|] eqn:Ew; [|done]. injection E as -> ->.
  apply write_record_cursor in Ew. lia.
Qed.
(** *** Without a file in progress *)
Section Free.
Hypothesis free : n = 0%N.

Lemma guard_remove name : Keeps G (fs_remove name).
Proof.
  apply keeps_io; try apply _; [done|done|]. intros d c a d' HG. destruct (d !! name); [|done]. intros [= _ <-].
  eapply guard_ext; [| |..|exact HG]; simpl; [|rewrite free; lia|].
  - intros name' _. rewrite lookup_delete. case_decide; auto.
  - rewrite lookup_delete. case_decide; auto.
Qed.
#[local] Existing Instance guard_remove.

Lemma guard_delete_segment a b : Keeps G (delete_segment a b).
Proof. unfold delete_segment. apply _. Qed.
#[local] Existing Instance guard_delete_segment.

(** What is known of the log must survive an eviction. *)
Variable K : SegmentLog -> Prop.
Hypothesis K_pop : forall l, K l -> K (set_closed l (tail (closed l))).

Lemma guard_evict_older cutoff segs : KeepsL G K (evict_older cutoff segs).
Proof. induction segs; cbn [evict_older]; unfold pop_front; apply _. Qed.
Lemma guard_evict_larger max total segs : KeepsL G K (evict_larger max total segs).
Proof. revert total. induction segs; intros total; cbn [evict_larger]; unfold pop_front; apply _. Qed.
#[local] Existing Instances guard_evict_older guard_evict_larger.

Lemma guard_retention : KeepsL G K (enforce_retention oc now).
Proof. unfold enforce_retention, enforce_age, enforce_size. apply _. Qed.

(** A new file. *)
Lemma guard_create : Keeps G (fs_create_truncate path).
Proof.
  apply keeps_io; try apply _; [done|done|]. intros d c a d' HG [= _ <-].
  eapply guard_ext; [| |..|exact HG]; simpl; [|rewrite free; lia|].
  - intros name Ho. left. apply lookup_insert_ne. by apply not_eq_sym, apart_path.
  - do 2 right. rewrite lookup_insert_eq. eexists. split; [done|]. by rewrite free.
Qed.
End Free.
End Guard.

#[export] Hint Extern 2 (Keeps (guard _ _ _) (fs_write _ _ _)) => apply guard_write; first [lia | typeclasses eauto] : typeclass_instances.
#[export] Hint Extern 2 (Keeps (guard _ _ _) (fs_set_len _ _)) => apply guard_set_len; first [lia | typeclasses eauto] : typeclass_instances.
#[export] Hint Extern 2 (Keeps (guard _ _ _) (append_events _ _ _ _ _ _ _ _)) => apply guard_append_events; first [lia | typeclasses eauto] : typeclass_instances.
#[export] Hint Extern 2 (Keeps (guard _ _ _) (fs_create_truncate _)) => apply guard_create; first [done | typeclasses eauto] : typeclass_instances.
#[export] Hint Extern 2 (KeepsL (guard _ _ _) _ (enforce_retention _ _)) => apply guard_retention; first [done | eassumption | typeclasses eauto] : typeclass_instances.

(** ** The log *)
Section Log.
Context `{CborEvent : Cbor OtkEvent} `{Crc : Crc32} `{!CborLaws OtkEvent} `{!Crc32Laws}.
Variable oc : bool.
Variable now : N -> N.
Hypothesis now_u64 : forall n, wf_u64 (now n).

(** Where the acknowledged records of the active segment end. *)
Definition acked (a : ActiveSegment) : N :=
  if bool_decide (as_positions a = []) then 0%N else next_file_pos a.

(** Every acknowledged record is on stable storage. *)
Definition kept (s : SegmentLog * World) : Prop :=
  Forall (fun seg => unsynced (cache (snd s)) !! cs_path seg = None) (closed (fst s)) /\
  forall a, active (fst s) = Some a -> flushed (cache (snd s)) (as_path a) (acked a).

Definition closed_path (l : SegmentLog) (name : string) : Prop := exists seg, seg ∈ closed l /\ name = cs_path seg.

Lemma closed_path_seg l w h k name :
  seg_inv oc (l, w) h k -> closed_path l name -> exists b, name = seg_name b /\ (b < next_offset l <= u64_max)%N /\
    forall a, active l = Some a -> (b < as_base_offset a)%N.
Proof.
  intros (Hn & Hu & _ & m & Hm & Hch & Hcl & Hact) (seg & Hin & ->). rewrite Forall_forall in Hcl.
  destruct (Hcl _ Hin) as (Hp & Hne & Hb & _). pose proof (chain_base _ _ _ _ Hch Hin Hne).
  exists (cs_base_offset seg). split; [done|]. split; [lia|]. intros a Ha. rewrite Ha in Hact. destruct Hact as [-> _]. lia.
Qed.

(** The guard of a log: its closed files, and the one in progress. *)
Abbreviation guarded l path n := (guard (closed_path l) path n).

Lemma kept_closed l l' w' path n :
  closed l' = closed l -> holds (guarded l path n) w' ->
  Forall (fun seg => unsynced (cache w') !! cs_path seg = None) (closed l').
Proof. intros -> (Hc & _). apply Forall_forall. intros seg Hin. apply Hc. by exists seg. Qed.

(** As [l], up to the cursor, with its files guarded. *)
Abbreviation still l path n := (holdsl (guarded l path n) (same_core l)).

Lemma still_kept l a s' : active l = Some a -> still l (as_path a) (acked a) s' -> kept s'.
Proof.
  intros Ha [Hc HG]. destruct s' as [l' w']. cbn [fst snd] in *. destruct Hc as (Ec & _ & _ & Eact).
  split; [by eapply kept_closed|]. cbn [fst snd]. intros a' Ha'. rewrite Ha, Ha' in Eact.
  destruct Eact as (_ & Ep & Eps & En). unfold acked. rewrite Ep, Eps, En. apply HG.
Qed.

(** The guard of the active segment. *)
Lemma kept_guard l w h k a :
  seg_inv oc (l, w) h k -> kept (l, w) -> active l = Some a -> holds (guarded l (as_path a) (acked a)) w.
Proof.
  intros (_ & _ & _ & m & _ & _ & _ & Hact) [Hk Hka] Ha. rewrite Ha in Hact.
  destruct Hact as (_ & _ & p & t & Hf & Hlen & _). split; [|split; [|by apply Hka]].
  - rewrite Forall_forall in Hk. intros name (seg & Hin & ->). by apply Hk.
  - rewrite Hf. unfold acked. case_bool_decide; simpl; [lia|]. rewrite len_app. lia.
Qed.

Lemma acked_le a : (acked a <= next_file_pos a)%N.
Proof. unfold acked. case_bool_decide; lia. Qed.

Lemma active_apart l w h k a :
  seg_inv oc (l, w) h k -> active l = Some a -> Apart (closed_path l) (as_path a).
Proof.
  intros Hinv Ha. pose proof Hinv as (Hn & Hu & _ & m & Hm & _ & _ & Hact). rewrite Ha in Hact. destruct Hact as (Hb & Hp & _).
  split; [|by intros name (b & -> & _)%(closed_path_seg _ _ _ _ _ Hinv); exists b|by exists m].
  intros name (b & -> & Hlt & Hba)%(closed_path_seg _ _ _ _ _ Hinv) E. specialize (Hba _ Ha).
  rewrite Hp in E. apply seg_name_inj in E; unfold wf_u64; lia.
Qed.

Lemma next_apart l w h k :
  seg_inv oc (l, w) h k -> Apart (closed_path l) (seg_name (next_offset l)).
Proof.
  intros Hinv. split; [|by intros name (b & -> & _)%(closed_path_seg _ _ _ _ _ Hinv); exists b|by eexists].
  intros name (b & -> & Hlt & _)%(closed_path_seg _ _ _ _ _ Hinv) E. apply seg_name_inj in E; unfold wf_u64; lia.
Qed.

Lemma same_core_trans l1 l2 l3 : same_core l1 l2 -> same_core l2 l3 -> same_core l1 l3.
Proof.
  intros (E1 & E2 & E3 & E4) (F1 & F2 & F3 & F4). split; [congruence|]. split; [congruence|]. split; [congruence|].
  destruct (active l1), (active l2), (active l3); intuition congruence.
Qed.

Lemma same_core_refl l : same_core l l.
Proof. do 3 (split; [done|]). by destruct (active l). Qed.

Lemma same_core_cursor l c l' : same_core l l' -> same_core l (map_active (fun a => set_cursor a c) l').
Proof. intros Hc. eapply same_core_trans; [exact Hc|]. do 3 (split; [done|]). simpl. by destruct (active l'). Qed.

Lemma same_core_poison l l' : same_core l l' -> same_core l (poison l').
Proof. intros Hc. eapply same_core_trans; [exact Hc|]. do 3 (split; [done|]). simpl. by destruct (active l'). Qed.

#[local] Hint Resolve same_core_cursor same_core_poison : core.

(** *** The active segment *)
Section Active.
Variables (l0 : SegmentLog) (path : string) (n : N).
Context `{!Apart (closed_path l0) path}.
Abbreviation G := (guarded l0 path n).
Abbreviation KeepsS := (KeepsL G (same_core l0)).

#[local] Instance still_seek pos : KeepsS (seek_active pos).
Proof. unfold seek_active. apply _. Qed.
Lemma still_undo pos : (n <= pos)%N -> KeepsS (undo_sentinel path pos).
Proof. intros Hp. unfold undo_sentinel. apply _. Qed.
Lemma still_sync pos : (n <= pos)%N -> KeepsS (sync_batch path pos).
Proof. intros Hp. unfold sync_batch. apply _. Qed.
#[local] Instance still_query cur : KeepsS (query_position path cur).
Proof. unfold query_position. apply _. Qed.
End Active.

(** *** Writing a batch *)
Lemma wp_fact {S A} `{Prompt S} {P : Prop} (m : M S A) (Q Q' : result A StorageError -> S -> Prop) s :
  wp P m Q s -> (forall r s', m s = Some (r, s') -> Q' r s') -> wp P m Q' s.
Proof.
  unfold wp. intros Hm HQ Hp. specialize (Hm Hp). destruct (m s) as [[r s']|]; [|done].
  destruct Hm. split; [done|by apply HQ].
Qed.

Lemma wp_io_any {A P} mark_part mark `{!Reports mark_part} `{!Reports mark} part
    (act : gmap string bytes -> result (A * gmap string bytes) StorageError) w :
  (forall d, part 0%nat d = d) -> wp P (io_mark mark_part mark part act) (fun _ _ => True) w.
Proof. intros H0. apply wp_io; [apply _..|done|done|]. intros w' _ _. by destruct (act (disk w)) as [[a d]|e]. Qed.

Lemma fs_sync_ok name w : wp True (fs_sync name) (fun r w' => r = Ok () -> unsynced (cache w') !! name = None) w.
Proof.
  eapply wp_fact; [apply wp_nop, _|]. intros r w'. unfold fs_sync, fs_mark, io_mark.
  destruct (next_fault w) as [[[e n]|] w1]; intros [= <- <-]; [done|]. intros _. apply lookup_delete_eq.
Qed.

(** With [flush_interval_ms = 0] a successful [sync_batch] syncs the file. *)
Lemma sync_batch_ok path pos l w :
  flush_interval_ms (config l) = 0%N ->
  wp True (sync_batch path pos) (fun r s' => r = Ok () -> unsynced (cache (snd s')) !! path = None) (l, w).
Proof.
  intros Hf. unfold sync_batch. apply wp_getl_then. rewrite Hf.
  eapply wp_try_fs_then; [apply fs_sync_ok|]. intros [[]|e] w1 H1; [by apply wp_ok|].
  eapply wp_try_fs_then; [apply wp_io_any; [apply _..|done]|]. intros r w2 _. by apply wp_err.
Qed.

(** The file [path] is synced. *)
Definition clear (path : string) (d : gmap string bytes) (c : Cache) : Prop := unsynced c !! path = None.

Lemma write_active_kept l w h k a pid ts evs next :
  seg_inv oc (l, w) h k -> kept (l, w) -> active l = Some a -> flush_interval_ms (config l) = 0%N ->
  wp True (write_active a pid ts evs next) (fun _ => kept) (l, w).
Proof.
  intros Hinv Hk Ha Hf. pose proof (active_apart _ _ _ _ _ Hinv Ha) as Hap. pose proof (acked_le a) as Hle.
  pose proof (fun s' => still_kept l a s' Ha) as Hend.
  assert (Hs : still l (as_path a) (acked a) (l, w)) by (split; [apply same_core_refl|by eapply kept_guard]).
  unfold write_active. eapply wp_then; [eapply wp_holdsl, Hs; apply still_seek| |by intros; apply Hend].
  intros [] [l1 w1] [Hc1 HG1]. eapply wp_try_fs_then; [eapply wp_holds, HG1; apply _|]. intros r w2 HG2.
  destruct r as [[[cur nx] nps]|e]; apply wp_modl_then; [|by apply wp_err, Hend; split; [apply same_core_cursor|]].
  set (l2 := map_active _ l1). assert (Hc2 : same_core l l2) by by apply same_core_cursor.
  assert (Hf2 : flush_interval_ms (config l2) = 0%N) by (destruct Hc2 as (_ & _ & -> & _); done).
  eapply wp_then; [eapply wp_and; [by eapply wp_holdsl; [apply still_sync, Hle|split]|by apply sync_batch_ok]| |by intros e s' [? _]; apply Hend].
  intros [] [l3 w3] [Hs3 Hclear]. specialize (Hclear eq_refl).
  eapply wp_then; [eapply wp_and; [eapply wp_holdsl, Hs3; apply still_query|]|..].
  { apply (wp_holdsl (clear (as_path a)) (fun _ => True)); [unfold query_position; apply _|done]. }
  2:{ intros e s' [? _]. by apply Hend. }
  intros pos [l4 w4] [[Hc4 HG4] [_ Hclear4]]. apply wp_modl. cbn [fst snd] in *.
  split; [by eapply (kept_closed l); [apply Hc4|]|]. cbn [fst snd commit_batch active]. intros a' Ha'.
  destruct (active l4) as [a4|] eqn:E4; [|done]. injection Ha' as <-. destruct Hc4 as (_ & _ & _ & Eact).
  rewrite Ha, E4 in Eact. destruct Eact as (_ & Ep & _). unfold flushed. simpl. rewrite Ep.
  by rewrite Hclear4.
Qed.

(** A log without an active segment. *)
Lemma kept_guard_next l w h k :
  seg_inv oc (l, w) h k -> kept (l, w) -> holds (guarded l (seg_name (next_offset l)) 0) w.
Proof.
  intros _ [Hk _]. split; [|split; [apply N.le_0_l|apply flushed_0]].
  rewrite Forall_forall in Hk. intros name (seg & Hin & ->). by apply Hk.
Qed.

Lemma ensure_active_kept l w h k :
  seg_inv oc (l, w) h k -> kept (l, w) ->
  wp True (ensure_active now) (fun _ s' => kept s' /\ config (fst s') = config l) (l, w).
Proof.
  intros Hinv Hk. pose proof (next_apart _ _ _ _ Hinv) as Hap. pose proof (kept_guard_next _ _ _ _ Hinv Hk) as HG.
  unfold ensure_active. apply wp_getl_then. destruct (active l) as [a|] eqn:Ha; [by apply wp_ok|].
  assert (Hend : forall w', holds (guarded l (seg_name (next_offset l)) 0) w' -> kept (l, w')).
  { intros w' HG'. split; [by eapply kept_closed|]. cbn [fst]. by rewrite Ha. }
  eapply wp_fs_then; [eapply wp_holds, HG; apply _|intros ts w1 HG1|by auto].
  eapply wp_fs_then; [eapply wp_holds, HG1; apply _|intros ? w2 HG2|by auto].
  eapply wp_fs_then; [eapply wp_holds, HG2; apply _|intros ? w3 HG3|by auto].
  eapply wp_fs_then; [eapply wp_holds, HG3; apply _|intros ? w4 HG4|by auto].
  apply wp_modl. split; [|done]. split; [exact (kept_closed l _ w4 _ _ eq_refl HG4)|].
  cbn [fst snd set_active active]. intros a' [= <-]. apply flushed_0.
Qed.

(** Panics aside, both specifications hold. *)
Lemma wp_both {S A} `{Prompt S} P (m : M S A) (Q Q' : result A StorageError -> S -> Prop) s :
  wp P m Q s -> wp True m Q' s -> wp True m (fun r s' => Q r s' /\ Q' r s') s.
Proof.
  unfold wp. intros H1 H2 Hp. specialize (H1 Hp). specialize (H2 Hp). destruct (m s) as [[r s']|]; [|done].
  by destruct H1, H2.
Qed.

Lemma write_batch_kept l w h k pid evs :
  seg_inv oc (l, w) h k -> kept (l, w) -> flush_interval_ms (config l) = 0%N ->
  wp True (write_batch now pid evs) (fun _ => kept) (l, w).
Proof.
  intros Hinv Hk Hf. unfold write_batch. apply wp_getl_then.
  destruct (poisoned l); [by apply wp_err|]. do 2 (case_bool_decide; [by apply wp_err|]).
  eapply wp_then; [eapply wp_both; [by eapply ensure_active_spec|by eapply ensure_active_kept]|..].
  2:{ by intros e s' [_ [? _]]. }
  intros [] [l1 w1] [((_ & Hinv1 & _) & _) [Hk1 Hc1]]. cbn [fst snd] in *.
  eapply (wp_fs_then _ _ (fun r w' => is_ok r = true /\ disk w' = disk w1 /\ cache w' = cache w1)); [|..|by intros e w2 [? _]].
  { eapply wp_fact; [apply wp_now|]. by intros r w' [= <- <-]. }
  intros ts w2 (_ & Hd2 & Hca2). apply wp_getl_then. apply wp_opt_then; [done|]. intros a Ha.
  eapply (write_active_kept l1 w2 h k a); [by eapply seg_inv_world| |done|by rewrite Hc1].
  unfold kept in *. cbn [fst snd] in *. by rewrite Hca2.
Qed.

(** *** Rolling *)

(** The files of [l], and its active segment about to be closed. *)
Definition closing_path (l : SegmentLog) (path name : string) : Prop := closed_path l name \/ name = path.

Lemma closing_apart l w h k a :
  seg_inv oc (l, w) h k -> active l = Some a -> as_positions a <> [] ->
  Apart (closing_path l (as_path a)) (seg_name (next_offset l)).
Proof.
  intros Hinv Ha Hne. pose proof (next_apart _ _ _ _ Hinv) as [Hp Hs _].
  destruct Hinv as (Hn & Hu & _ & m & Hm & _ & _ & Hact). rewrite Ha in Hact.
  destruct Hact as (_ & Hpa & p & t & _ & _ & Hst).
  split; [|by intros name [?%Hs| ->]; [|exists m]|by eexists].
  intros name [?%Hp| ->]; [done|]. rewrite Hpa. intros E. apply seg_name_inj in E; [|unfold wf_u64; lia..].
  assert (Hz : drop (N.to_nat m) h = []) by (apply drop_ge; unfold len in *; lia).
  rewrite Hz in Hst. by apply Forall2_nil_inv_r in Hst.
Qed.

Lemma close_active_kept l w h k a :
  seg_inv oc (l, w) h k -> kept (l, w) -> active l = Some a -> as_positions a <> [] ->
  cursor a = Some (next_file_pos a) -> wp True (close_active oc a) (fun _ => kept) (l, w).
Proof.
  intros Hinv Hk Ha Hne Hcur. pose proof (active_apart _ _ _ _ _ Hinv Ha) as Hap. pose proof (acked_le a) as Hle.
  pose proof (closing_apart _ _ _ _ _ Hinv Ha Hne) as Hap2. pose proof (fun s' => still_kept l a s' Ha) as Hend.
  pose proof (kept_guard _ _ _ _ _ Hinv Hk Ha) as HG. set (path := as_path a) in *. set (n := acked a) in *.
  set (G2 := guard (closing_path l path) (seg_name (next_offset l)) 0).
  assert (Hundo : forall e l' w', still l path n (l', w') ->
    wp True (undo_sentinel path (next_file_pos a) ;;; merr (A := ()) e)
      (fun r s' => (exists e', r = Err e') /\ kept s') (l', w')).
  { intros e l' w' Hs. eapply wp_then; [eapply wp_holdsl, Hs; by apply still_undo|..].
    - intros ? s' Hs'. apply wp_err. split; [by eexists|by apply Hend].
    - intros e' s' Hs'. split; [by eexists|by apply Hend]. }
  unfold close_active. fold path.
  eapply (wp_fs_then _ _ (fun _ => holds (guarded l path n))); [eapply wp_holds, HG; apply _| |].
  2:{ intros e w1 HG1. apply Hend. by split; [apply same_core_refl|]. }
  intros [] w1 HG1. apply wp_opt_then; [done|]. intros cur Hc. rewrite Hcur in Hc. injection Hc as <-.
  eapply (wp_try_fs_then _ _ (fun _ => holds (guarded l path n))); [eapply wp_holds, HG1; apply _|].
  intros [n2|e] w2 HGw; [|apply wp_errs_then, wp_modl_then, wp_err; split; [by eexists|by apply Hend; split; [apply same_core_cursor, same_core_refl|]]].
  apply wp_modl_then. set (l2 := map_active _ l).
  assert (Hc2 : same_core l l2) by (apply same_core_cursor, same_core_refl).
  eapply wp_try_fs_then; [eapply wp_and; [eapply (wp_holds (guarded l path n)), HGw; apply _|apply fs_sync_ok]|].
  intros [[]|e] w3 [HG3 Hsync]; [|by apply wp_errs_then, Hundo].
  assert (HG23 : holds G2 w3).
  { split; [|split; [apply N.le_0_l|apply flushed_0]].
    intros name [Hn| ->]; [by apply (proj1 HG3)|by apply Hsync]. }
  change (mthen (mok ()) ?f) with (f ()). cbv beta.
  eapply wp_try_fs_then; [eapply wp_and; [eapply (wp_holds (guarded l path n)), HG3; apply _|eapply (wp_holds G2), HG23; apply _]|].
  intros [[]|e] w4 [HG4 HG24]; [|by apply wp_errs_then, Hundo].
  change (mthen (mok ()) ?f) with (f ()). cbv beta.
  eapply wp_try_fs_then; [eapply (wp_holds G2), HG24; apply _|]. intros r5 w5 HG25.
  apply wp_opt_then; [done|]. intros i _. apply wp_opt_then; [done|]. intros last _. apply wp_modl.
  split; [|done]. cbn [fst snd set_closed closed l2 map_active set_active]. apply Forall_app. split.
  - apply Forall_forall. intros seg Hin. apply (proj1 HG25). left. by exists seg.
  - apply Forall_singleton. apply (proj1 HG25). by right.
Qed.

Lemma roll_active_kept l w h k a :
  seg_inv oc (l, w) h k -> kept (l, w) -> active l = Some a -> as_positions a <> [] ->
  cursor a = Some (next_file_pos a) -> wp True (roll_active oc now a) (fun _ => kept) (l, w).
Proof.
  intros Hinv Hk Ha Hne Hcur. unfold roll_active.
  eapply wp_then; [eapply wp_both; [by eapply close_active_spec|by eapply close_active_kept]|..].
  2:{ by intros e s' [_ ?]. }
  intros [] [l1 w1] [(_ & _ & _ & _ & Hinv1 & Hnone) Hk1]. specialize (Hnone eq_refl). cbn [fst snd] in *.
  pose proof (next_apart _ _ _ _ Hinv1) as Hap. pose proof (kept_guard_next _ _ _ _ Hinv1 Hk1) as HG1.
  set (K := fun l' => (forall seg, seg ∈ closed l' -> seg ∈ closed l1) /\ active l' = None).
  assert (HK : forall l', K l' -> K (set_closed l' (tail (closed l')))).
  { intros l' [Hc Hn]. split; [|done]. simpl. intros seg Hin. apply Hc. destruct (closed l'); [done|by right]. }
  eapply wp_mono; [eapply (wp_holdsl (guarded l1 (seg_name (next_offset l1)) 0) K); [apply _|by split]|].
  intros r s' [[Hc Hn] HG]. split; [|by rewrite Hn].
  apply Forall_forall. intros seg Hin%Hc. apply (proj1 HG). by exists seg.
Qed.

Lemma roll_segment_kept l w h k :
  seg_inv oc (l, w) h k -> kept (l, w) -> at_end l -> wp True (roll_segment oc now) (fun _ => kept) (l, w).
Proof.
  intros Hinv Hk (a & Ha & Hne & Hcur). unfold roll_segment. apply wp_getl_then. rewrite Ha.
  rewrite bool_decide_eq_false_2 by done. by eapply roll_active_kept.
Qed.

Lemma kept_cache l w w' : cache w' = cache w -> kept (l, w) -> kept (l, w').
Proof. unfold kept. cbn [fst snd]. by intros ->. Qed.

Lemma after_batch_kept l w h k :
  seg_inv oc (l, w) h k -> kept (l, w) -> at_end l -> wp True (after_batch oc now) (fun _ => kept) (l, w).
Proof.
  intros Hinv Hk Hend. unfold after_batch.
  eapply wp_then with (Q := fun _ s' => fst s' = l /\ disk (snd s') = disk w /\ cache (snd s') = cache w).
  { unfold should_roll. apply wp_getl_then. destruct (active l); [|by apply wp_ok].
    destruct (_ <=? _)%N; [by apply wp_ok|].
    apply (wp_fs_then _ _ (fun _ w' => disk w' = disk w /\ cache w' = cache w)).
    - eapply wp_fact; [apply wp_now|]. by intros r w' [= _ <-].
    - intros t w' [? ?]. by apply wp_ok.
    - by intros e w' [? ?]. }
  2:{ intros e [l' w'] (E & _ & Hca). simpl in *. subst l'. by eapply kept_cache. }
  intros roll [l1 w1] (E & Hd1 & Hca1). simpl in *. subst l1.
  assert (Hk1 : kept (l, w1)) by by eapply kept_cache.
  eapply (wp_then _ _ (fun _ => kept)); [|intros ? [l2 w2] Hk2|done].
  - destruct roll; [|by apply wp_ok]. eapply roll_segment_kept; [|done|done]. by eapply seg_inv_world.
  - apply wp_getl_then. apply wp_opt_then; [done|]. intros o _. by apply wp_ok.
Qed.

Lemma log_append_kept l w h k pid evs :
  utf8_valid (str_bytes pid) = true -> seg_inv oc (l, w) h k -> kept (l, w) ->
  flush_interval_ms (config l) = 0%N -> wp True (log_append oc now pid evs) (fun _ => kept) (l, w).
Proof.
  intros Hpid Hinv Hk Hf. rewrite append_commit.
  eapply wp_then; [eapply wp_both; [by apply write_batch_spec|by eapply write_batch_kept]| |by intros e s' [_ ?]].
  intros [] [l1 w1] [(ts & _ & _ & _ & _ & _ & Hi1 & Hend) Hk1]. by eapply after_batch_kept.
Qed.
End Log.

(** ** When nothing fails

    Nothing fails, only the last bytes of the files in [S] are not synced, and
    unless [L] every name is listed. *)
Definition fine (S : gset string) (L : bool) (w : World) : Prop :=
  healthy w /\ dom (unsynced (cache w)) ⊆ S /\ (L = false -> unlisted (cache w) = ∅).

(** A success leaves that. *)
Definition ends {A} (S : gset string) (L : bool) (r : result A StorageError) (w' : World) : Prop :=
  is_ok r = true -> fine S L w'.
Definition endsl {A} (r : result A StorageError) (s' : SegmentLog * World) : Prop := ends ∅ false r (snd s').

Lemma fine_weaken S S' L w : S ⊆ S' -> fine S L w -> fine S' L w.
Proof. intros HS (Hh & Hu & Hl). split; [done|]. split; [set_solver|done]. Qed.

Lemma fine_cache S L w : fine S L w -> S = ∅ -> L = false -> cache w = settled.
Proof.
  intros ([_ Hr] & Hu & Hl) -> ->. specialize (Hl eq_refl). destruct (cache w) as [u n r]. simpl in *. subst n r.
  assert (u = ∅) as -> by (apply dom_empty_inv_L; set_solver). done.
Qed.

Section Fine.
Context {A : Type} {P : Prop}.

(** A call does its work and leaves its mark, or reports an error of its own. *)
Lemma fine_io mp mk `{!Reports mp} `{!Reports mk} part (act : gmap string bytes -> result (A * gmap string bytes) StorageError) S L S' L' w :
  fine S L w ->
  (forall d c, dom (unsynced c) ⊆ S -> (L = false -> unlisted c = ∅) ->
    dom (unsynced (mk d c)) ⊆ S' /\ (L' = false -> unlisted (mk d c) = ∅)) ->
  wp P (io_mark mp mk part act) (fun r w' => match r with
    | Ok _ => fine S' L' w'
    | Err e => fine S L w' /\ act (disk w) = Err e
    end) w.
Proof.
  intros ([[Hs Hd] Hr] & Hu & Hl) Hmk Hp. destruct w as [d sch dd ck c]. simpl in *. subst sch dd.
  unfold io_mark, next_fault. cbn [dead schedule disk cache].
  destruct (act d) as [[a d']|e]; [|by repeat split]. pose proof (reports (mark := mk) d c Hr) as Hr'.
  split; [by split|]. split; [done|]. by apply Hmk.
Qed.
End Fine.

Section FineCalls.
Variables (S : gset string) (L : bool) (w : World).
Hypothesis Hw : fine S L w.

Lemma fine_mark mk `{!Reports mk} S' L' :
  (forall d c, dom (unsynced c) ⊆ S -> (L = false -> unlisted c = ∅) ->
    dom (unsynced (mk d c)) ⊆ S' /\ (L' = false -> unlisted (mk d c) = ∅)) ->
  wp True (fs_mark mk) (fun r w' => r = Ok () /\ fine S' L' w') w.
Proof. intros Hm. eapply wp_mono; [by apply (fine_io unmarked mk _ _ S L S' L')|]. intros [[]|e] w' H; [by split|by destruct H]. Qed.

Lemma fine_nop : wp True fs_nop (fun r w' => r = Ok () /\ fine S L w') w.
Proof. by apply (fine_mark unmarked). Qed.

Lemma fine_sync name : wp True (fs_sync name) (fun r w' => r = Ok () /\ fine (S ∖ {[name]}) L w') w.
Proof. apply (fine_mark (synced name)). intros d c Hu Hl. split; [|done]. cbn [synced unsynced]. rewrite dom_delete_L. set_solver. Qed.
End FineCalls.

Lemma fine_fsync_dir S L w : fine S L w -> wp True fsync_dir (fun r w' => r = Ok () /\ fine S false w') w.
Proof.
  intros Hw. unfold fsync_dir. eapply wp_try_then; [by apply fine_nop|]. intros r w1 [-> Hw1].
  eapply wp_try_then; [by apply (fine_mark S L w1 Hw1 dir_synced S false)|]. intros r w2 [-> Hw2]. by apply wp_ok.
Qed.

Lemma fine_write S L w name pos data :
  fine S L w -> wp True (fs_write name pos data) (ends ({[name]} ∪ S) L) w.
Proof.
  intros Hw. apply wp_write_now. eapply wp_mono; [apply (fine_io (dirty name pos) (dirty name pos) _ _ S L ({[name]} ∪ S) L w Hw)|intros [n|e] w' H E; [exact H|done]].
  intros d c Hu Hl. split; [|done]. cbn [dirty unsynced]. rewrite dom_insert_L. set_solver.
Qed.

Lemma fine_create S L w name :
  fine S L w -> wp True (fs_create_truncate name) (ends ({[name]} ∪ S) true) w.
Proof.
  intros Hw. eapply wp_mono; [apply (fine_io unmarked (created name) _ _ S L ({[name]} ∪ S) true w Hw)|intros [[]|e] w' H E; [exact H|done]].
  intros d c Hu Hl. split; [|done]. cbn [created unsynced]. rewrite dom_insert_L. set_solver.
Qed.

(** A new file is renamed after its sync. *)
Lemma fine_rename S L w from to :
  from ∉ S -> fine S L w -> wp True (fs_rename from to) (ends S true) w.
Proof.
  intros Hf Hw. eapply wp_mono; [apply (fine_io unmarked (renamed from to) _ _ S L S true w Hw)|intros [[]|e] w' H E; [exact H|done]].
  intros d c Hu Hl. split; [|done]. cbn [renamed unsynced].
  assert (E : unsynced c !! from = None) by (apply not_elem_of_dom; set_solver). rewrite E.
  intros name Hin. apply Hu. apply elem_of_dom in Hin as [k Hk]. apply elem_of_dom.
  destruct (decide (name = to)) as [->|Hne]; [by rewrite lookup_partial_alter_eq in Hk|].
  rewrite lookup_partial_alter_ne in Hk by done. apply lookup_delete_Some in Hk as [_ Hk]. by eexists.
Qed.

Lemma fine_remove S L w name :
  fine S L w -> wp True (fs_remove name) (fun r w' => fine S true w') w.
Proof.
  intros Hw. eapply wp_mono; [apply (fine_io unmarked (removed name) _ _ S L S true w Hw)|].
  - intros d c Hu Hl. split; [|done]. cbn [removed unsynced]. rewrite dom_delete_L. set_solver.
  - intros [[]|e] w'; [done|]. intros [(? & ? & _) _]. done.
Qed.

(** The rest of a function that must end in [R] only when it succeeds. *)
Lemma ends_then {A B} (m : M World A) (f : A -> M World B) S L S' L' w :
  wp True m (ends S L) w -> (forall a w', fine S L w' -> wp True (f a) (ends S' L') w') ->
  wp True (mthen m f) (ends S' L') w.
Proof. intros Hm Hf. eapply wp_then; [exact Hm|intros a w' Hw'; by apply Hf, Hw'|by intros e w' _]. Qed.

(** A file written under a temporary name, synced and renamed. *)
Lemma fine_publish tmp final data w :
  fine ∅ false w ->
  wp True (fs_create_truncate tmp ;;; fs_write tmp 0 data ;;; fs_sync tmp ;;; fs_rename tmp final ;;; fsync_dir)
    (ends ∅ false) w.
Proof.
  intros Hw. eapply ends_then; [by eapply fine_create|]. intros _ w1 Hw1.
  eapply ends_then; [by eapply fine_write|]. intros _ w2 Hw2.
  eapply wp_then; [by eapply fine_sync| |by intros e w3 [? _]]. intros _ w3 [_ Hw3].
  assert (Hw3' : fine ∅ true w3) by (eapply fine_weaken; [|exact Hw3]; set_solver).
  eapply ends_then; [by eapply fine_rename, Hw3'; set_solver|]. intros _ w4 Hw4.
  eapply wp_mono; [by eapply fine_fsync_dir|]. by intros r w5 [_ ?] _.
Qed.

Lemma fine_delete_segment a b w : fine ∅ false w -> wp True (delete_segment a b) (ends ∅ false) w.
Proof.
  intros Hw. unfold delete_segment. eapply wp_try_then; [by eapply fine_remove|]. intros r w1 Hw1.
  assert (Hrest : wp True (mtry (fs_remove b) ;;; fsync_dir) (ends ∅ false) w1).
  { eapply wp_try_then; [eapply fine_remove, Hw1|]. intros r2 w2 Hw2.
    eapply wp_mono; [eapply fine_fsync_dir, Hw2|]. by intros r3 w3 [_ ?] _. }
  destruct r as [[]|e]; [exact Hrest|]. destruct (is_not_found e); [exact Hrest|].
  change (mthen (merr e) ?f) with (merr (S := World) (A := ()) e). by apply wp_err.
Qed.

Section FineLog.
Context `{CborEvent : Cbor OtkEvent} `{Crc : Crc32} `{!CborLaws OtkEvent} `{!Crc32Laws}.
Variable oc : bool.
Variable now : N -> N.
Hypothesis now_u64 : forall n, wf_u64 (now n).

Abbreviation good l w m := (wp True m endsl (l, w)).

Lemma endsl_fs_then {A B} (m : M World A) (f : A -> M (SegmentLog * World) B) S L l w :
  wp True m (ends S L) w -> (forall a w', fine S L w' -> good l w' (f a)) -> good l w (mthen (fs m) f).
Proof. intros Hm Hf. eapply wp_fs_then; [exact Hm|intros a w' Hw'; by apply Hf, Hw'|by intros e w' _]. Qed.

Lemma endsl_then {A B} (m : M (SegmentLog * World) A) (f : A -> M (SegmentLog * World) B) l w :
  good l w m -> (forall a l' w', fine ∅ false w' -> good l' w' (f a)) -> good l w (mthen m f).
Proof. intros Hm Hf. eapply wp_then; [exact Hm|intros a [l' w'] Hw'; by apply Hf, Hw'|by intros e w' _]. Qed.

Lemma fine_now S L w : fine S L w -> wp True (now_ns now) (ends S L) w.
Proof. intros Hw. eapply wp_fact; [apply wp_now|]. by intros r w' [= <- <-] _. Qed.

Lemma fine_evict_older cutoff segs l w : fine ∅ false w -> good l w (evict_older cutoff segs).
Proof.
  revert l w. induction segs as [|s segs IH]; intros l w Hw; cbn [evict_older]; [by apply wp_ok; intros _|].
  destruct (_ <? _)%N; [|by apply wp_ok; intros _]. eapply endsl_fs_then; [by eapply fine_delete_segment|].
  intros _ w1 Hw1. apply wp_modl_then. by apply IH.
Qed.

Lemma fine_evict_larger max total segs l w : fine ∅ false w -> good l w (evict_larger max total segs).
Proof.
  revert total l w. induction segs as [|s segs IH]; intros total l w Hw; cbn [evict_larger];
    (destruct (_ <? _)%N; [|by apply wp_ok; intros _]); [by apply wp_ok; intros _|].
  eapply endsl_fs_then; [by eapply fine_delete_segment|]. intros _ w1 Hw1. apply wp_modl_then. by apply IH.
Qed.

Lemma fine_retention l w : fine ∅ false w -> good l w (enforce_retention oc now).
Proof.
  intros Hw.
  assert (Hage : forall secs l w, fine ∅ false w -> good l w (enforce_age now secs)).
  { intros secs l' w' Hw'. eapply endsl_fs_then; [by eapply fine_now|]. intros t w1 Hw1. apply wp_getl_then.
    by apply fine_evict_older. }
  assert (Hsize : forall max l w, fine ∅ false w -> good l w (enforce_size oc max)).
  { intros max l' w' Hw'. apply wp_getl_then. apply wp_opt_then; [done|]. intros sum _.
    apply wp_opt_then; [done|]. intros total _. by apply fine_evict_larger. }
  unfold enforce_retention. apply wp_getl_then. destruct (retention (config l)); [by apply wp_ok; intros _|auto..].
  eapply endsl_then; [by apply Hage|]. intros _ l' w'. apply Hsize.
Qed.

(** A step that is followed by an error. *)
Lemma endsl_fails {A B C} (m : M (SegmentLog * World) A) e (f : B -> M (SegmentLog * World) C) s :
  wp True m (fun _ _ => True) s -> wp True (mthen (m ;;; merr e) f) endsl s.
Proof.
  intros Hm. apply wp_then with (Q := fun r _ => is_ok r = false); [|done|done].
  eapply wp_then; [exact Hm| |done]. intros a s' _. by apply wp_err.
Qed.

(** A cut, which may fail, before an error. *)
Lemma cut_fails {A} path pos e (Q : result A StorageError -> World -> Prop) w :
  (forall w', Q (Err e) w') -> wp True (mtry (fs_set_len path pos) ;;; merr (A := A) e) Q w.
Proof.
  intros HQ. eapply wp_try_then; [apply wp_io_any; [apply _..|done]|]. intros r w' _. by apply wp_err.
Qed.

Lemma undo_any path pos l w : wp True (undo_sentinel path pos) (fun _ _ => True) (l, w).
Proof.
  unfold undo_sentinel. eapply wp_try_fs_then; [apply wp_io_any; [apply _..|done]|]. intros r w1 _.
  eapply (wp_try_then _ _ (fun _ _ => True)); [|intros; by apply wp_ok].
  unfold seek_active. eapply wp_fs_then; [apply wp_nop, _|intros; by apply wp_modl|done].
Qed.

(** *** Writing a batch *)
Lemma fine_write_record path cur entry w :
  fine {[path]} false w -> wp True (write_record_at path cur entry) (ends {[path]} false) w.
Proof.
  intros Hw. unfold write_record_at. destruct (encode_record entry) as [buf|e].
  2:{ change (mthen (mresult (Err e)) ?f) with (merr (S := World) (A := N * N) e). by apply wp_err. }
  change (mthen (mresult (Ok ?x)) ?f) with (f x). cbv beta.
  eapply wp_then; [eapply fine_nop, Hw| |by intros e w1 [? _]]. intros _ w1 [_ Hw1].
  eapply wp_try_then; [eapply fine_write, Hw1|]. intros [n|e] w2 Hw2.
  - apply wp_ok. intros _. eapply fine_weaken, Hw2; [set_solver|done].
  - by apply cut_fails.
Qed.

Lemma fine_append_events pid ts path start evs cur next nps w :
  fine {[path]} false w -> wp True (append_events pid ts path start evs cur next nps) (ends {[path]} false) w.
Proof.
  revert cur next nps w. induction evs as [|ev evs IH]; intros cur next nps w Hw; cbn [append_events]; [by apply wp_ok; intros _|].
  assert (Hcut : forall e w', wp True (mtry (fs_set_len path start) ;;; merr (A := N * N * list N) e) (ends {[path]} false) w').
  { intros e w'. by apply cut_fails. }
  destruct (next =? u64_max)%N; [apply Hcut|].
  eapply wp_try_then; [by apply fine_write_record|]. intros [[pos cur']|e] w1 Hw1; [by apply IH, Hw1|apply Hcut].
Qed.

Lemma fine_query path cur l w :
  fine ∅ false w -> good l w (query_position path cur).
Proof.
  intros Hw. unfold query_position. eapply wp_try_fs_then; [eapply fine_nop, Hw|].
  intros r w1 [-> Hw1]. apply wp_ok. by intros _.
Qed.

Lemma good_sync path pos l w :
  flush_interval_ms (config l) = 0%N -> fine {[path]} false w -> good l w (sync_batch path pos).
Proof.
  intros Hf Hw. unfold sync_batch. apply wp_getl_then. rewrite Hf. cbn [N.eqb].
  eapply wp_try_fs_then; [eapply fine_sync, Hw|]. intros r w1 [-> Hw1]. apply wp_ok. intros _.
  eapply fine_weaken, Hw1. set_solver.
Qed.

Lemma good_write_active a pid ts evs next l w :
  flush_interval_ms (config l) = 0%N -> fine {[as_path a]} false w -> good l w (write_active a pid ts evs next).
Proof.
  intros Hf Hw. unfold write_active.
  eapply wp_then with (Q := fun r s' => r = Ok () /\ config (fst s') = config l /\ fine {[as_path a]} false (snd s')).
  { unfold seek_active. eapply wp_fs_then; [eapply fine_nop, Hw| |by intros e w1 [? _]]. intros [] w1 [_ Hw1]. by apply wp_modl. }
  2:{ by intros e s' [? _]. }
  intros [] [l1 w1] (_ & Hc1 & Hw1). cbn [fst snd] in *.
  eapply wp_try_fs_then; [by apply fine_append_events|]. intros [[[cur nx] nps]|e] w2 Hw2; apply wp_modl_then; [|by apply wp_err].
  eapply endsl_then; [apply good_sync; [by cbn; rewrite Hc1|by apply Hw2]|]. intros _ l3 w3 Hw3.
  eapply endsl_then; [by apply fine_query|]. intros pos l4 w4 Hw4. apply wp_modl. by intros _.
Qed.

Lemma ensure_active_fine l w h k :
  seg_inv oc (l, w) h k -> fine ∅ false w ->
  wp True (ensure_active now) (fun r s' => is_ok r = true -> config (fst s') = config l /\
    forall a, active (fst s') = Some a -> fine {[as_path a]} false (snd s')) (l, w).
Proof.
  intros Hinv Hw. unfold ensure_active. apply wp_getl_then. destruct (active l) as [a|] eqn:Ha.
  { apply wp_ok. intros _. split; [done|]. intros a' _. eapply fine_weaken, Hw. set_solver. }
  eapply wp_fs_then; [eapply fine_now, Hw|intros ts w1 Hw1|by intros e w1 _].
  eapply wp_fs_then; [eapply fine_create, Hw1; done|intros [] w2 Hw2|by intros e w2 _].
  eapply wp_fs_then; [eapply fine_write, Hw2; done|intros wn w3 Hw3|by intros e w3 _].
  eapply wp_fs_then; [eapply fine_fsync_dir, Hw3; done|intros [] w4 [_ Hw4]|by intros e w4 _].
  apply wp_modl. intros _. split; [done|]. cbn [fst snd set_active active]. intros a' [= <-].
  eapply fine_weaken, Hw4. set_solver.
Qed.

Lemma good_write_batch l w h k pid evs :
  seg_inv oc (l, w) h k -> flush_interval_ms (config l) = 0%N -> fine ∅ false w -> good l w (write_batch now pid evs).
Proof.
  intros Hinv Hf Hw. unfold write_batch. apply wp_getl_then.
  destruct (poisoned l); [by apply wp_err|]. do 2 (case_bool_decide; [by apply wp_err|]).
  eapply wp_then; [by eapply ensure_active_fine|intros [] [l1 w1] Hq|by intros e s' _].
  destruct (Hq eq_refl) as [Hc1 Ha1]. cbn [fst snd] in *.
  eapply (wp_fs_then _ _ (fun r w' => is_ok r = true /\ (forall S, fine S false w1 -> fine S false w'))); [|..|by intros e w2 [? _]].
  { eapply wp_fact; [apply wp_now|]. by intros r w' [= <- <-]. }
  intros ts w2 [_ Hw2]. apply wp_getl_then. apply wp_opt_then; [done|]. intros a Ha.
  apply good_write_active; [by rewrite Hc1|]. by apply Hw2, Ha1.
Qed.

(** *** Rolling *)
Lemma good_close_active l w a : fine ∅ false w -> good l w (close_active oc a).
Proof.
  intros Hw. unfold close_active.
  eapply wp_fs_then; [eapply fine_sync, Hw|intros [] w1 [_ Hw1]|by intros e w1 [? _]].
  apply wp_opt_then; [done|]. intros cur _.
  eapply wp_try_fs_then; [eapply fine_write, Hw1|]. intros [n2|e] w2 Hw2; [|by apply endsl_fails, wp_modl]. specialize (Hw2 eq_refl).
  apply wp_modl_then. eapply wp_try_fs_then; [eapply fine_sync, Hw2|]. intros r w3 [-> Hw3].
  change (mthen (mok ()) ?f) with (f ()). cbv beta.
  assert (Hw3' : fine ∅ false w3) by (eapply fine_weaken, Hw3; set_solver).
  eapply wp_try_fs_then; [by apply fine_publish|]. intros [[]|e] w4 Hw4; [|by apply endsl_fails, undo_any]. specialize (Hw4 eq_refl).
  change (mthen (mok ()) ?f) with (f ()). cbv beta.
  eapply (wp_try_fs_then _ _ (fun _ => fine ∅ false)).
  { eapply wp_mono; [apply (fine_io unmarked unmarked _ _ ∅ false ∅ false w4 Hw4)|]; [done|]. by intros [n|e] w5; [|intros [? _]]. }
  intros r5 w5 Hw5. apply wp_opt_then; [done|]. intros n _. apply wp_opt_then; [done|]. intros last _. apply wp_modl. by intros _.
Qed.

Lemma good_after_batch l w : fine ∅ false w -> at_end l -> good l w (after_batch oc now).
Proof.
  intros Hw (a & Ha & Hne & _). unfold after_batch.
  eapply wp_then with (Q := fun r s' => fst s' = l /\ fine ∅ false (snd s')).
  { unfold should_roll. apply wp_getl_then. rewrite Ha. destruct (_ <=? _)%N; [by apply wp_ok|].
    eapply wp_fs_then with (Q := fun _ => fine ∅ false); [|intros t w' ?; by apply wp_ok|done].
    eapply wp_fact; [apply wp_now|]. by intros r w' [= <- <-]. }
  2:{ by intros e s' _. }
  intros roll [l1 w1] [E Hw1]. cbn [fst snd] in *. subst l1.
  eapply endsl_then with (m := if roll then _ else _); [destruct roll; [|apply wp_ok; by intros _]|].
  - unfold roll_segment. apply wp_getl_then. rewrite Ha, bool_decide_eq_false_2 by done. unfold roll_active.
    eapply endsl_then; [by apply good_close_active|]. intros _ l2 w2 Hw2. apply wp_getl_then.
    eapply endsl_fs_then; [by apply fine_publish|]. intros _ w3 Hw3. by apply fine_retention.
  - intros _ l2 w2 Hw2. apply wp_getl_then. apply wp_opt_then; [done|]. intros o _. apply wp_ok. by intros _.
Qed.

(** An append that succeeds when nothing fails leaves nothing outstanding. *)
Lemma log_append_settles l w h k pid evs r l' w' :
  utf8_valid (str_bytes pid) = true -> seg_inv oc (l, w) h k -> flush_interval_ms (config l) = 0%N ->
  healthy w -> cache w = settled ->
  log_append oc now pid evs (l, w) = Some (Ok r, (l', w')) -> healthy w' /\ cache w' = settled.
Proof.
  intros Hpid Hinv Hf Hh Hca E. assert (Hw : fine ∅ false w) by (split; [done|]; by rewrite Hca).
  assert (Hgood : good l w (log_append oc now pid evs)).
  { rewrite append_commit.
    eapply wp_then; [eapply wp_both; [by apply write_batch_spec|by eapply good_write_batch]| |by intros e s' _].
    intros [] [l1 w1] [(ts & _ & _ & _ & _ & _ & _ & Hend) Hw1]. by apply good_after_batch; [apply Hw1|]. }
  specialize (Hgood (healthy_prompt _ Hh)). rewrite E in Hgood. destruct Hgood as [_ Hgood]. specialize (Hgood eq_refl). split; [apply Hgood|by eapply fine_cache].
Qed.
End FineLog.

(** ** What survives *)
Lemma chain_find k segs m i :
  chain k segs m -> (k <= i < m)%N ->
  exists s, s ∈ segs /\ (cs_base_offset s <= i < cs_base_offset s + len (cs_positions s))%N.
Proof.
  revert k. induction segs as [|s segs IH]; intros k; simpl; [lia|]. intros [Hb Hc] Hi.
  destruct (decide (i < k + len (cs_positions s))%N) as [Hlt|Hge].
  - exists s. split; [by left|lia].
  - destruct (IH _ Hc) as (s' & Hin & Hs'); [lia|]. exists s'. split; [by right|done].
Qed.

(** A synced file keeps its content, any other one its synced bytes. *)
Lemma power_loss_synced w d name c :
  power_loss w d -> name ∉ unlisted (cache w) -> disk w !! name = Some c ->
  unsynced (cache w) !! name = None -> d !! name = Some c.
Proof.
  intros Hp Hn Hc Hu. specialize (Hp name Hn). rewrite Hc, Hu in Hp. by destruct Hp as (c' & E & ->).
Qed.

Lemma power_loss_flushed w d name p t :
  power_loss w d -> name ∉ unlisted (cache w) -> disk w !! name = Some (p ++ t) ->
  flushed (cache w) name (len p) -> exists t', d !! name = Some (p ++ t').
Proof.
  intros Hp Hn Hc Hf. specialize (Hp name Hn). rewrite Hc in Hp. destruct Hp as (c' & E & Hk).
  unfold flushed in Hf. destruct (unsynced (cache w) !! name) as [k|]; [|subst c'; by exists t].
  exists (drop (length p) c'). rewrite E. f_equal.
  apply (f_equal (take (length p))) in Hk. rewrite !take_take, !Nat.min_l, take_app_length in Hk by (unfold len in *; lia).
  transitivity (take (length p) c' ++ drop (length p) c'); [by rewrite take_drop|by rewrite Hk].
Qed.

(** Nothing outstanding: a power failure loses nothing. *)
Lemma power_loss_settled w d : power_loss w d -> cache w = settled -> d = disk w.
Proof.
  intros Hp Hc. apply map_eq. intros name. specialize (Hp name). rewrite Hc in Hp. specialize (Hp ltac:(set_solver)).
  destruct (disk w !! name) as [c|]; [|done]. simpl in Hp. rewrite lookup_empty in Hp. by destruct Hp as (c' & E & ->).
Qed.

Section Survive.
Context `{CborEvent : Cbor OtkEvent} `{Crc : Crc32} `{!CborLaws OtkEvent} `{!Crc32Laws}.
Variable oc : bool.

(** The segment files of [l] are listed in the directory. *)
Definition files_listed (l : SegmentLog) (w : World) : Prop :=
  (forall name, closed_path l name -> name ∉ unlisted (cache w)) /\
  forall a, active l = Some a -> as_path a ∉ unlisted (cache w).

(** Every entry of [h] from [k] on is in a segment file of [d], as a record
    that reads back. *)
Definition survives (d : gmap string bytes) (h : list LogEntry) (k : N) : Prop :=
  forall o e, (k <= o)%N -> h !! N.to_nat o = Some e ->
    exists base pos content, (base <= o)%N /\ d !! seg_name base = Some content /\
      read_record oc content pos = Some (Ok e).

Lemma kept_survives l w h k d :
  seg_inv oc (l, w) h k -> kept (l, w) -> files_listed l w -> power_loss w d -> survives d h k.
Proof.
  intros (_ & _ & _ & m & Hm & Hch & Hcl & Hact) [Hk Hka] [Hlc Hla] Hp o e Ho He. cbn [fst snd] in *.
  pose proof (lookup_lt_Some _ _ _ He) as Hlt.
  assert (Hread : forall p t pos, reads_in oc p pos e -> read_record oc (p ++ t) pos = Some (Ok e))
    by (intros p t pos; apply reads_in_read).
  destruct (decide (o < m)%N) as [Hom|Hom].
  - destruct (chain_find _ _ _ o Hch ltac:(lia)) as (s & Hin & Hs).
    rewrite Forall_forall in Hcl, Hk. destruct (Hcl s Hin) as (Hpath & _ & _ & _ & file & Hf & Hst).
    assert (Hj : slice (cs_base_offset s) (len (cs_positions s)) h !! N.to_nat (o - cs_base_offset s) = Some e).
    { unfold slice. rewrite lookup_take_lt by (unfold len in *; lia). rewrite lookup_drop. rewrite <- He. f_equal. lia. }
    destruct (Forall2_lookup_r _ _ _ _ _ Hst Hj) as (pos & _ & Hr).
    exists (cs_base_offset s), pos, file. split; [lia|]. split.
    + rewrite <- Hpath. eapply power_loss_synced; [done| |done|by apply Hk]. apply Hlc. by exists s.
    + specialize (Hread file [] pos Hr). by rewrite app_nil_r in Hread.
  - destruct (active l) as [a|] eqn:Ha; [|unfold len in *; lia]. destruct Hact as (_ & Hpath & p & t & Hf & Hlen & Hst).
    assert (Hj : drop (N.to_nat m) h !! N.to_nat (o - m) = Some e) by (rewrite lookup_drop, <- He; f_equal; lia).
    destruct (Forall2_lookup_r _ _ _ _ _ Hst Hj) as (pos & Hpos & Hr).
    assert (Hack : flushed (cache w) (as_path a) (len p)).
    { specialize (Hka a eq_refl). unfold acked in Hka. rewrite bool_decide_eq_false_2 in Hka; [by rewrite Hlen|].
      intros En. by rewrite En in Hpos. }
    destruct (power_loss_flushed _ _ _ _ _ Hp (Hla a eq_refl) Hf Hack) as [t' Ht'].
    exists m, pos, (p ++ t'). split; [lia|]. split; [by rewrite <- Hpath|by apply Hread].
Qed.

Variable now : N -> N.
Hypothesis now_u64 : forall n, wf_u64 (now n).

(** C15: Acknowledged records survive a loss of power, whatever else fails.  On
    a log that stands for [h], whose records are on stable storage, and with
    [flush_interval_ms = 0], run one [append] under any schedule of failures
    and kills in which no write fails after its call has returned.  The log then stands for [h], or for [h] and the whole batch,
    which it does after a success, and its records are on stable storage: if
    the power fails now, in whatever way unsynced bytes and unlisted names are
    lost, every retained record of that history reads back from a segment
    file, provided that the directory syncs of the code, whose errors it
    ignores, have listed the segment files. *)
Theorem acknowledged_survive_power_loss l w h k pid events :
  utf8_valid (str_bytes pid) = true -> seg_inv oc (l, w) h k -> prompt w -> kept (l, w) -> flush_interval_ms (config l) = 0%N ->
  match log_append oc now pid events (l, w) with
  | None => oc = true
  | Some (r, (l', w')) => exists ts x k', (x = [] \/ x = batch pid ts (len h) events) /\
      (is_ok r = true -> x = batch pid ts (len h) events) /\
      seg_inv oc (l', w') (h ++ x) k' /\ evictions (retention (config l)) k k' /\ kept (l', w') /\
      forall d, power_loss w' d -> files_listed l' w' -> survives d (h ++ x) k'
  end.
Proof.
  intros Hpid Hinv Hpr Hk Hf. pose proof (log_append_spec oc now now_u64 l w h k pid events Hpid Hinv Hpr) as Hspec.
  pose proof (log_append_kept oc now now_u64 l w h k pid events Hpid Hinv Hk Hf Hpr) as Hkept.
  destruct (log_append oc now pid events (l, w)) as [[r [l' w']]|]; [|done]. destruct Hkept as [_ Hkept].
  destruct Hspec as (_ & _ & [(e & -> & Hi & _)|(ts & k' & _ & _ & _ & Hev & Hi & _)]).
  - exists 0%N, [], k. rewrite app_nil_r. split; [by left|]. split; [done|]. split; [done|].
    split; [apply evictions_refl|]. split; [done|]. intros d Hp Hl. by eapply kept_survives.
  - exists ts, (batch pid ts (len h) events), k'. split; [by right|]. do 4 (split; [done|]).
    intros d Hp Hl. by eapply kept_survives.
Qed.

End Survive.

(** ** Concrete runs *)
Lemma fresh_kept faults : kept (fresh_log, world faults).
Proof. split; [constructor|done]. Qed.

(** A power failure may lose nothing. *)
Lemma power_loss_nothing w : power_loss w (disk w).
Proof.
  intros name _. destruct (disk w !! name) as [c|]; [|done]. exists c. split; [done|].
  by destruct (unsynced (cache w) !! name).
Qed.

Lemma all_listed l w : unlisted (cache w) = ∅ -> files_listed l w.
Proof. intros E. split; intros; rewrite E; apply not_elem_of_empty. Qed.

(** The batch is stored, and the roll that follows fails in its sentinel. *)
Lemma roll_fails_append : exists s',
  @log_append event_cbor sum_crc true sample_now "loop-1" [sample_event] (fresh_log, world roll_fails) =
    Some (Err (Io "ENOSPC"), s') /\ next_offset (fst s') = 1%N /\ unlisted (cache (snd s')) = ∅.
Proof. vm_compute. eexists. split; [reflexivity|]. by split. Qed.

Lemma acknowledged_survive_power_loss_witness : exists s' h k,
  @log_append event_cbor sum_crc true sample_now "loop-1" [sample_event] (fresh_log, world roll_fails) =
    Some (Err (Io "ENOSPC"), s') /\ len h = 1%N /\ power_loss (snd s') (disk (snd s')) /\
  @survives event_cbor sum_crc true (disk (snd s')) h k.
Proof.
  destruct roll_fails_append as ([l' w'] & E & Hn & Hu).
  pose proof (@acknowledged_survive_power_loss event_cbor sum_crc event_cbor_laws sum_crc_laws true sample_now
    sample_now_u64 fresh_log (world roll_fails) [] 0 "loop-1" [sample_event] eq_refl
    (fresh_inv true roll_fails) (world_prompt roll_fails eq_refl) (fresh_kept roll_fails) eq_refl) as H.
  rewrite E in H. destruct H as (ts & x & k' & _ & _ & [Hl _] & _ & _ & Hs).
  exists (l', w'), ([] ++ x), k'. split; [exact E|]. split; [by rewrite <- Hl|]. split; [apply power_loss_nothing|].
  apply Hs; [apply power_loss_nothing|by apply all_listed].
Defined.

Lemma one_entry_sizes : sizes_ok (disk (snd one_entry)).
Proof. apply sizes_ok_check. vm_compute. reflexivity. Qed.


(** *** A segment that is not listed

    The process is killed after it has created the first segment and written
    its header, before it syncs the directory. *)
Definition killed_in_create : list fault := [Succeeds; Succeeds; Killed 0].

(** The log of a new process on the directory of [s], without rolling. *)
Definition reopened_on (s : SegmentLog * World) : SegmentLog * World :=
  match @log_open event_cbor sum_crc true sample_now default_log_config (restarted s) with
  | Some (Ok l, w) => (l, w)
  | _ => s
  end.

(** The directory after a power failure that loses the names not listed. *)
Definition unlisted_lost (s : SegmentLog * World) : World :=
  {| disk := filter (fun nc => nc.1 ∉ unlisted (cache (snd s))) (disk (snd s)); schedule := []; dead := false;
     clock := 0; cache := settled |}.

Lemma unlisted_power_loss s : power_loss (snd s) (disk (unlisted_lost s)).
Proof.
  intros name Hn. cbn [disk unlisted_lost]. destruct (disk (snd s) !! name) as [c|] eqn:E.
  - exists c. split; [|by destruct (unsynced _ !! name)]. by apply map_lookup_filter_Some.
  - apply map_lookup_filter_None. by left.
Qed.

(** An acknowledged batch is lost with its segment.  [open] takes over the
    segment of a process that was killed before the directory sync of
    [ensure_active], and never syncs the directory itself: the next append
    syncs the file and succeeds, but the file's name is still not on stable
    storage, and after a power failure the directory is empty. *)
Theorem unlisted_segment_lost : exists s1 s2,
  append_on "loop-1" [sample_event] (one_segment, world killed_in_create) = Some (Err (Io "killed"), s1) /\
  append_on "loop-2" [sample_event] (reopened_on s1) = Some (Ok (offset_new 0), s2) /\
  producers (read_all s2) = Some ["loop-2"] /\
  power_loss (snd s2) (disk (unlisted_lost s2)) /\ producers (read_all (reopened_on (fst s2, unlisted_lost s2))) = Some [].
Proof.
  do 2 eexists. split; [vm_compute; reflexivity|]. split; [vm_compute; reflexivity|].
  split; [vm_compute; reflexivity|]. split; [apply unlisted_power_loss|vm_compute; reflexivity].
Qed.
