(* ===== verification/SegmentSubscription.v ===== *)
(** The live subscription of the segment log (crate
    [adapter-event-log-segment], [subscription.rs]; [subscribe] of [log.rs]):
    a reader of the log's directory with a file handle and a position of its
    own, which shares nothing with the log but the files and a notification.

    [next_entry_correct] says what one call makes of a directory that an
    append has left: the entry at the next offset, or the wait for it, or the
    news that retention has evicted it. *)
From stdpp Require Import base gmap strings option numbers pretty sorting list.
From Stdlib Require Import Strings.Byte.
From S2P Require Import Prelude EventModel EventLogPort SegmentFile SegmentFs SegmentLog SegmentLogSafety SegmentLogLayout SegmentLogOpen SegmentLogRecovery.

(** ** State *)

(** An open file: known by its name while it is linked; a file that was
    removed keeps its content for those who have it open. *)
Inductive Handle :=
  | Linked (name : string)
  | Unlinked (content : bytes).

Definition handle_content (d : gmap string bytes) (f : Handle) : option bytes :=
  match f with Linked name => d !! name | Unlinked content => Some content end.

Record SegmentLogSubscription := {
  sub_next_offset : N;
  (** The open file, the position of the next record, and whether the file
      was an active segment when it was opened. *)
  current_file : option (Handle * N * bool);
  sub_closed : bool
}.

Definition subscription_new (from : N) : SegmentLogSubscription :=
  {| sub_next_offset := from; current_file := None; sub_closed := false |}.

Definition set_file (f : option (Handle * N * bool)) (s : SegmentLogSubscription) : SegmentLogSubscription :=
  {| sub_next_offset := sub_next_offset s; current_file := f; sub_closed := sub_closed s |}.

Definition set_sub_closed (s : SegmentLogSubscription) : SegmentLogSubscription :=
  {| sub_next_offset := sub_next_offset s; current_file := current_file s; sub_closed := true |}.

Definition set_next (n : N) (s : SegmentLogSubscription) : SegmentLogSubscription :=
  {| sub_next_offset := n; current_file := current_file s; sub_closed := sub_closed s |}.

(** ** Files *)
Definition fs_read_handle (f : Handle) : M World bytes :=
  io_call no_part (fun d => match handle_content d f with Some c => Ok (c, d) | None => Err NotFound end).

(** [stream_position] after a record at [pos] was read. *)
Definition record_end (content : bytes) (pos : N) : N :=
  (pos + 8 + from_le_bytes (take 4 (drop (N.to_nat pos) content)))%N.

Definition is_sentinel (e : StorageError) : bool :=
  match e with Corrupted msg => bool_decide (msg = SENTINEL_MSG) | _ => false end.

Section Subscription.
Context `{CborEvent : Cbor OtkEvent} `{Crc : Crc32}.
Variable overflow_checks : bool.

(** A record of the open file, and where it ends. *)
Definition read_handle_record (f : Handle) (pos : N) : M World (LogEntry * N) :=
  content <- fs_read_handle f ;;
  r <- mopt (read_record overflow_checks content pos) ;;
  entry <- mresult r ;;
  mok (entry, record_end content pos).

(** One name of the directory: [(best, min)] so far. *)
Definition scan_base (offset : N) (acc : option N * option N) (base : N) : option N * option N :=
  let '(best, min_base) := acc in
  (if (base <=? offset)%N then Some (from_option (fun b => N.max b base) base best) else best,
   Some (from_option (fun m => N.min m base) base min_base)).

Definition scan_segments (offset : N) : M World (option N * option N) :=
  names <- fs_read_dir ;;
  mok (foldl (scan_base offset) (None, None) (omap seg_base names)).

Definition expired_at {S A} (requested : N) (earliest : option N) : M S A :=
  merr (RetentionExpired (offset_new requested) (offset_new <$> earliest)).

(** The file went away after the scan: look again. *)
Definition rescan (next_offset : N) : M World (option (Handle * N * bool)) :=
  r <- scan_segments next_offset ;;
  match r with
  | (None, Some min) => expired_at next_offset (Some min)
  | _ => mok None
  end.

(** The scan of an active segment for the record at [next_offset]. *)
Inductive Scanned :=
  | Reached (pos : N)
  | AtTail (pos : N)
  | Rolled.

(** [n] is [next_offset - current], the number of records to pass. *)
Fixpoint scan_records (n : nat) (file : Handle) (pos : N) : M World Scanned :=
  match n with
  | O => mok (Reached pos)
  | S n =>
      r <- mtry (read_handle_record file pos) ;;
      match r with
      | Ok (_, pos) => fs_nop ;;; scan_records n file pos
      | Err e =>
          if is_sentinel e then mok Rolled
          else if is_eof e then fs_nop ;;; mok (AtTail pos)
          else merr e
      end
  end.

(** [segment::read_index]: the length first, then the content. *)
Definition read_index_file (path : string) : M World (list N) :=
  fs_metadata_len path ;;;
  content <- fs_read path ;;
  mresult (read_index path content).

Definition open_indexed (base next_offset : N) : M World (option (Handle * N * bool)) :=
  r <- mtry (read_index_file (idx_name base)) ;;
  match r with
  | Err e => if is_not_found e then rescan next_offset else merr e
  | Ok positions =>
      match positions !! N.to_nat (next_offset - base) with
      | None => mok None
      | Some byte_pos => fs_nop ;;; mok (Some (Linked (seg_name base), byte_pos, false))
      end
  end.

Definition open_unindexed (base next_offset : N) : M World (option (Handle * N * bool)) :=
  let file := Linked (seg_name base) in
  r <- scan_records (N.to_nat (next_offset - base)) file HEADER_LEN ;;
  match r with
  | Reached pos => fs_nop ;;; mok (Some (file, pos, true))
  | AtTail pos => mok (Some (file, pos, true))
  | Rolled => mok None
  end.

(** No segment can contain [next_offset]. *)
Definition no_segment (next_offset : N) (min_base : option N) : M World (option (Handle * N * bool)) :=
  match min_base with
  | Some min => expired_at next_offset (Some min)
  | None =>
      wm <- read_watermark ;;
      match wm with
      | Some wm => if (next_offset <? wm)%N then expired_at next_offset None else mok None
      | None => mok None
      end
  end.

Definition open_to_offset (next_offset : N) : M World (option (Handle * N * bool)) :=
  r <- scan_segments next_offset ;;
  let '(best, min_base) := r in
  match best with
  | None => no_segment next_offset min_base
  | Some base =>
      r <- mtry (fs_open (seg_name base)) ;;
      match r with
      | Err e => if is_not_found e then rescan next_offset else merr e
      | Ok _ =>
          idx_exists <- fs_exists (idx_name base) ;;
          if idx_exists : bool then open_indexed base next_offset else open_unindexed base next_offset
      end
  end.

(** ** [next_entry] *)
Abbreviation SM := (M (SegmentLogSubscription * World)).

Definition gets : SM SegmentLogSubscription := s <- mget ;; mok (fst s).
Definition mods (f : SegmentLogSubscription -> SegmentLogSubscription) : SM () :=
  s <- mget ;; mset (f (fst s), snd s).
Definition io {A} (m : M World A) : SM A := on_right m.

(** How one turn of the loop ends. *)
Inductive Turn :=
  | Continue
  | Await
  | Return (r : result LogEntry StorageError).

(** A terminal error. *)
Definition terminal (e : StorageError) : SM Turn := mods set_sub_closed ;;; mok (Return (Err e)).

(** The end of a rolled segment: the next one starts at [next_offset]. *)
Definition next_segment : SM Turn :=
  s <- gets ;;
  let name := seg_name (sub_next_offset s) in
  r <- mtry (io (fs_open name)) ;;
  match r with
  | Ok _ =>
      r <- mtry (io (fs_exists (idx_name (sub_next_offset s)))) ;;
      match r with
      | Ok indexed => mods (set_file (Some (Linked name, HEADER_LEN, negb indexed))) ;;; mok Continue
      | Err e => terminal e
      end
  | Err e => if is_not_found e then mods (set_file None) ;;; mok Continue else terminal e
  end.

(** A record was read, up to [new_pos]. *)
Definition deliver (file : Handle) (new_pos : N) (is_active : bool) (entry : LogEntry) : SM Turn :=
  r <- mtry (io fs_nop) ;;
  match r with
  | Err e => terminal e
  | Ok _ =>
      mods (set_file (Some (file, new_pos, is_active))) ;;;
      s <- gets ;;
      let next := sub_next_offset s in
      if (as_u64 (offset entry) <? next)%N && is_active then mok Continue else
      if negb (as_u64 (offset entry) =? next)%N then
        terminal (Corrupted ("subscription offset mismatch: expected " +:+ pretty next +:+ ", got " +:+
                             pretty (as_u64 (offset entry))))
      else
        n <- mopt (add64 overflow_checks next 1) ;;
        mods (set_next n) ;;;
        mok (Return (Ok entry))
  end.

Definition read_turn (file : Handle) (byte_pos : N) (is_active : bool) : SM Turn :=
  r <- mtry (io (read_handle_record file byte_pos)) ;;
  match r with
  | Ok (entry, new_pos) => deliver file new_pos is_active entry
  | Err e =>
      if is_sentinel e then next_segment
      else if is_eof e then
        if is_active then mok Await
        else terminal (Corrupted ("unexpected EOF on closed segment at byte position " +:+ pretty byte_pos))
      else terminal e
  end.

(** The file is opened if there is none. *)
Definition ensure_open : SM (result () StorageError) :=
  s <- gets ;;
  match current_file s with
  | Some _ => mok (Ok ())
  | None =>
      r <- mtry (io (open_to_offset (sub_next_offset s))) ;;
      match r with
      | Ok (Some f) => mods (set_file (Some f)) ;;; mok (Ok ())
      | Ok None => mok (Ok ())
      | Err e => mok (Err e)
      end
  end.

Definition turn : SM Turn :=
  r <- ensure_open ;;
  match r with
  | Err e => terminal e
  | Ok _ =>
      s <- gets ;;
      match current_file s with
      | Some (file, byte_pos, is_active) => read_turn file byte_pos is_active
      | None => mok Await
      end
  end.

(** A poll of the future: [Pending] waits for [notify_waiters] and then starts
    the loop again. *)
Inductive Poll :=
  | Pending
  | Ready (r : option (result LogEntry StorageError)).

(** [None] is out of fuel. *)
Fixpoint next_loop (fuel : nat) : SM (option Poll) :=
  match fuel with
  | O => mok None
  | S fuel =>
      t <- turn ;;
      match t with
      | Continue => next_loop fuel
      | Await => mok (Some Pending)
      | Return r => mok (Some (Ready (Some r)))
      end
  end.

Definition next_entry (fuel : nat) : SM (option Poll) :=
  s <- gets ;;
  if sub_closed s then mok (Some (Ready None)) else next_loop fuel.

Definition sub_close : SM () :=
  mods (fun s => {| sub_next_offset := sub_next_offset s; current_file := None; sub_closed := true |}).
End Subscription.

(** ** [subscribe] *)
Definition log_subscribe (from : Offset) : M (SegmentLog * World) SegmentLogSubscription :=
  l <- getl ;;
  let from_raw := as_u64 from in
  if (next_offset l <=? from_raw)%N then mok (subscription_new from_raw) else
  if is_fully_evicted l then merr (RetentionExpired from None) else
  match earliest_offset_raw l with
  | Some earliest =>
      if (from_raw <? earliest)%N then merr (RetentionExpired from (Some (offset_new earliest)))
      else mok (subscription_new from_raw)
  | None => mok (subscription_new from_raw)
  end.

(** ** Reading when nothing fails *)
Lemma io_healthy {A} part (act : gmap string bytes -> result (A * gmap string bytes) StorageError) w :
  healthy w ->
  io_call part act w =
    Some match act (disk w) with Ok (a, d) => (Ok a, with_disk w d) | Err e => (Err e, w) end.
Proof.
  intros [[Hs Hd] _]. unfold io_call, io_mark, unmarked, next_fault, with_cache. rewrite Hd, Hs. by destruct (act (disk w)) as [[a d]|e].
Qed.

Lemma with_disk_id w : with_disk w (disk w) = w.
Proof. by destruct w. Qed.

Section Healthy.
Variable w : World.
Hypothesis Hw : healthy w.

Lemma healthy_nop : fs_nop w = Some (Ok (), w).
Proof. unfold fs_nop, fs_mark. fold (@io_call ()). rewrite io_healthy by done. by rewrite with_disk_id. Qed.

Lemma healthy_open name :
  fs_open name w = Some (match disk w !! name with Some _ => Ok () | None => Err NotFound end, w).
Proof. unfold fs_open. rewrite io_healthy by done. destruct (disk w !! name); by rewrite ?with_disk_id. Qed.

Lemma healthy_read name :
  fs_read name w = Some (match disk w !! name with Some c => Ok c | None => Err NotFound end, w).
Proof. unfold fs_read. rewrite io_healthy by done. destruct (disk w !! name); by rewrite ?with_disk_id. Qed.

Lemma healthy_metadata_len name :
  fs_metadata_len name w = Some (match disk w !! name with Some c => Ok (len c) | None => Err NotFound end, w).
Proof. unfold fs_metadata_len. rewrite io_healthy by done. destruct (disk w !! name); by rewrite ?with_disk_id. Qed.

Lemma healthy_exists name : fs_exists name w = Some (Ok (bool_decide (is_Some (disk w !! name))), w).
Proof.
  unfold fs_exists, mthen, mtry. rewrite healthy_metadata_len. destruct (disk w !! name) as [c|]; [done|].
  cbn [is_not_found NotFound]. rewrite bool_decide_eq_true_2, bool_decide_eq_false_2; [done| |done]. by intros [? ?].
Qed.

Lemma healthy_handle f c :
  handle_content (disk w) f = Some c -> fs_read_handle f w = Some (Ok c, w).
Proof. intros E. unfold fs_read_handle. rewrite io_healthy, E by done. by rewrite with_disk_id. Qed.

Lemma healthy_scan offset :
  scan_segments offset w =
    Some (Ok (foldl (scan_base offset) (None, None) (omap seg_base (map_to_list (disk w)).*1)), w).
Proof.
  unfold scan_segments, fs_read_dir, mthen. rewrite io_healthy by done. cbv beta iota. by rewrite with_disk_id.
Qed.

Lemma healthy_watermark :
  exists wm, read_watermark w = Some (Ok wm, w) /\ default 0%N wm = watermark_value (disk w).
Proof.
  unfold read_watermark, mthen, mtry, watermark_value. rewrite healthy_open.
  destruct (disk w !! WATERMARK) as [c|] eqn:E.
  - rewrite healthy_read, E. destruct (read_exact 8 c) as [[buf r]|]; by eexists.
  - cbn [is_not_found NotFound]. rewrite bool_decide_eq_true_2 by done. by eexists.
Qed.
End Healthy.

(** *** The scan finds the segment *)
Lemma scan_bases offset bases best min_base :
  foldl (scan_base offset) (None, None) bases = (best, min_base) ->
  match best with
  | Some b => b ∈ bases /\ (b <= offset)%N /\ forall b', b' ∈ bases -> (b' <= offset)%N -> (b' <= b)%N
  | None => forall b', b' ∈ bases -> (offset < b')%N
  end /\
  match min_base with
  | Some b => b ∈ bases /\ forall b', b' ∈ bases -> (b <= b')%N
  | None => bases = []
  end.
Proof.
  revert best min_base. induction bases as [|b bases IH] using rev_ind; intros best min_base.
  { simpl. intros [= <- <-]. split; [|done]. intros b' Hb. by apply not_elem_of_nil in Hb. }
  rewrite foldl_snoc. destruct (foldl (scan_base offset) (None, None) bases) as [best0 min0].
  destruct (IH _ _ eq_refl) as [Hb Hm]. unfold scan_base. intros [= <- <-]. split.
  - destruct (N.leb_spec b offset) as [Hle|Hlt].
    + destruct best0 as [b0|]; cbn [from_option].
      * destruct Hb as (Hin & Hle0 & Hmax). split; [|split; [lia|]].
        -- destruct (N.max_spec b0 b) as [[_ ->]|[_ ->]]; set_solver.
        -- intros b' [Hin'|Hin']%elem_of_app Hle'; [specialize (Hmax b' Hin' Hle'); lia|].
           apply list_elem_of_singleton in Hin' as ->. lia.
      * split; [set_solver|]. split; [done|]. intros b' [Hin'|Hin']%elem_of_app Hle'.
        -- specialize (Hb b' Hin'). lia.
        -- by apply list_elem_of_singleton in Hin' as ->.
    + destruct best0 as [b0|].
      * destruct Hb as (Hin & Hle0 & Hmax). split; [set_solver|]. split; [done|].
        intros b' [Hin'|Hin']%elem_of_app Hle'; [by apply Hmax|].
        apply list_elem_of_singleton in Hin' as ->. lia.
      * intros b' [Hin'|Hin']%elem_of_app; [by apply Hb|]. by apply list_elem_of_singleton in Hin' as ->.
  - destruct min0 as [m0|]; cbn [from_option].
    + destruct Hm as [Hin Hmin]. split.
      * destruct (N.min_spec m0 b) as [[_ ->]|[_ ->]]; set_solver.
      * intros b' [Hin'|Hin']%elem_of_app; [specialize (Hmin b' Hin'); lia|].
        apply list_elem_of_singleton in Hin' as ->. lia.
    + subst bases. split; [set_solver|]. intros b' [Hin'|Hin']%elem_of_app; [by apply not_elem_of_nil in Hin'|].
      by apply list_elem_of_singleton in Hin' as ->.
Qed.

(** *** The records of a file *)
Section Records.
Context `{CborEvent : Cbor OtkEvent} `{Crc : Crc32} `{!CborLaws OtkEvent} `{!Crc32Laws}.
Variable oc : bool.

Abbreviation body c := (drop (N.to_nat HEADER_LEN) (c : bytes)).

Lemma drop_body c a b : body c = a ++ b -> drop (N.to_nat (HEADER_LEN + len a)) c = b.
Proof.
  intros E. rewrite N2Nat.inj_add, <- drop_drop, E. apply drop_len_app.
Qed.

Lemma read_next c a rec b e :
  body c = a ++ rec ++ b -> reads_as oc rec e ->
  read_record oc c (HEADER_LEN + len a) = Some (Ok e) /\
  record_end c (HEADER_LEN + len a) = (HEADER_LEN + len (a ++ rec))%N.
Proof.
  intros E (H4 & Hlen & _ & Hr). split.
  - assert (Hc : c = (take (N.to_nat HEADER_LEN) c ++ a) ++ rec ++ b)
      by by rewrite <- app_assoc, <- E, take_drop.
    assert (Hl : len (take (N.to_nat HEADER_LEN) c ++ a) = (HEADER_LEN + len a)%N).
    { rewrite len_app. f_equal. apply (f_equal length) in E. rewrite length_drop, !length_app in E.
      unfold len. rewrite length_take. lia. }
    rewrite Hc, <- Hl. apply Hr.
  - unfold record_end. rewrite (drop_body _ _ _ E), take_app_le by done. rewrite len_app. lia.
Qed.

Lemma read_end c a : body c = a -> read_record oc c (HEADER_LEN + len a) = Some (Err Eof).
Proof.
  intros E. unfold read_record. by rewrite (drop_body c a []) by by rewrite app_nil_r.
Qed.

Lemma read_sentinel c a rest :
  body c = a ++ to_le_bytes 4 0 ++ rest ->
  read_record oc c (HEADER_LEN + len a) = Some (Err (Corrupted SENTINEL_MSG)).
Proof. intros E. unfold read_record. by rewrite (drop_body _ _ _ E). Qed.

(** Records delimit themselves: a file has one reading. *)
Lemma readable_prefix r1 r2 a b :
  Forall (readable oc) r1 -> Forall (readable oc) r2 -> concat r1 ++ a = concat r2 ++ b ->
  (length r1 <= length r2)%nat -> exists r, r2 = r1 ++ r.
Proof.
  intros H1. revert r2. induction H1 as [|x r1 (e & H4 & Hl & _) H1 IH]; intros r2 H2 E Hn; [by exists r2|].
  destruct r2 as [|y r2]; [simpl in Hn; lia|]. apply Forall_cons in H2 as [(e2 & H4' & Hl' & _) H2].
  cbn [concat] in E. rewrite <- !app_assoc in E.
  assert (Ht : take 4 x = take 4 y).
  { rewrite <- (take_app_le x (concat r1 ++ a)), E by done. by apply take_app_le. }
  rewrite Ht, <- Hl' in Hl. apply app_inj_1 in E as [-> E]; [|unfold len in Hl; lia].
  destruct (IH r2 H2 E) as [r ->]; [simpl in Hn; lia|]. by exists r.
Qed.
End Records.

(** ** Where a subscription stands *)
Section Correct.
Context `{CborEvent : Cbor OtkEvent} `{Crc : Crc32} `{!CborLaws OtkEvent} `{!Crc32Laws}.
Variable oc : bool.

Definition sealed (tail : bytes) : Prop := exists rest, tail = to_le_bytes 4 0 ++ rest.

(** The file [f] of the segment [b] holds the entries of [h] from [b] on, the
    records [r1] before the position and [r2] after it; a sentinel follows,
    or it is the active segment and [h] ends with it. *)
Record position (d : gmap string bytes) (h : list LogEntry) (n : N) (f : Handle) (pos : N) (act : bool)
    (c : bytes) (b : N) (r1 r2 : list bytes) (tail : bytes) : Prop := {
  pos_content : handle_content d f = Some c;
  pos_body : drop (N.to_nat HEADER_LEN) c = concat r1 ++ concat r2 ++ tail;
  pos_reads : Forall2 (reads_as oc) (r1 ++ r2) (slice b (len (r1 ++ r2)) h);
  pos_le : (b + len (r1 ++ r2) <= len h)%N;
  pos_here : pos = (HEADER_LEN + len (concat r1))%N;
  pos_next : (b + len r1 <= n)%N;
  pos_exact : act = false -> (b + len r1)%N = n;
  pos_name : forall name, f = Linked name -> name = seg_name b /\ wf_u64 b;
  pos_end : sealed tail \/ act = true /\ tail = [] /\ f = Linked (seg_name b) /\
    d !! idx_name b = None /\ (b + len (r1 ++ r2))%N = len h
}.

Definition sub_ok (d : gmap string bytes) (h : list LogEntry) (s : SegmentLogSubscription) : Prop :=
  sub_closed s = false /\ wf_u64 (sub_next_offset s) /\
  forall f pos act, current_file s = Some (f, pos, act) ->
    exists c b r1 r2 tail, position d h (sub_next_offset s) f pos act c b r1 r2 tail.

(** The segments that are retained start at [k]. *)
Definition expiry (h : list LogEntry) (k n : N) (e : StorageError) : Prop :=
  (n < k)%N /\ exists ea, e = RetentionExpired (offset_new n) (offset_new <$> ea) /\
    match ea with None => k = len h | Some o => o = k end.

(** What a poll of a subscription at [n] may give. *)
Definition poll_outcome (d : gmap string bytes) (h : list LogEntry) (k n : N) (p : Poll)
    (s' : SegmentLogSubscription) : Prop :=
  match p with
  | Pending => (len h <= n)%N /\ sub_next_offset s' = n /\ sub_ok d h s'
  | Ready (Some (Ok e)) => h !! N.to_nat n = Some e /\ sub_next_offset s' = (n + 1)%N /\ sub_ok d h s'
  | Ready (Some (Err e)) => expiry h k n e /\ sub_closed s' = true
  | Ready None => False
  end.

Definition poll_of (t : Turn) : option Poll :=
  match t with Continue => None | Await => Some Pending | Return r => Some (Ready (Some r)) end.

(** *** Records of a position *)
Lemma pos_entry d h n f pos act c b r1 rec r2 tail :
  offsets_ok h -> position d h n f pos act c b r1 (rec :: r2) tail ->
  exists e, reads_as oc rec e /\ h !! N.to_nat (b + len r1) = Some e /\ as_u64 (offset e) = (b + len r1)%N.
Proof.
  intros Ho Hp. pose proof (pos_reads _ _ _ _ _ _ _ _ _ _ _ Hp) as Hr.
  destruct (Forall2_lookup_l _ _ _ (length r1) rec Hr) as (e & He & Hre).
  { rewrite lookup_app_r, Nat.sub_diag by done. done. }
  exists e. split; [done|]. unfold slice in He.
  apply lookup_take_Some in He as [He _]. rewrite lookup_drop in He.
  replace (N.to_nat b + length r1)%nat with (N.to_nat (b + len r1)) in He by (unfold len; lia).
  split; [done|]. rewrite (Ho _ _ He). lia.
Qed.

Lemma pos_advance d h n f pos act c b r1 rec r2 tail :
  position d h n f pos act c b r1 (rec :: r2) tail -> (b + len r1 < n)%N -> act = true ->
  position d h n f (HEADER_LEN + len (concat (r1 ++ [rec]))) act c b (r1 ++ [rec]) r2 tail.
Proof.
  intros [Hc Hb Hr Hl Hh Hn He Hnm Hend] Hlt ->.
  assert (Ea : (r1 ++ [rec]) ++ r2 = r1 ++ rec :: r2) by by rewrite <- app_assoc.
  split; rewrite ?Ea; try done.
  - rewrite Hb, concat_app. cbn [concat]. by rewrite app_nil_r, <- !app_assoc.
  - rewrite len_app, len_cons, len_nil. lia.
Qed.

Lemma pos_after d h n f pos act c b r1 rec r2 tail :
  position d h n f pos act c b r1 (rec :: r2) tail -> (b + len r1)%N = n ->
  position d h (n + 1) f (HEADER_LEN + len (concat (r1 ++ [rec]))) act c b (r1 ++ [rec]) r2 tail.
Proof.
  intros [Hc Hb Hr Hl Hh Hn He Hnm Hend] Hlt.
  assert (Ea : (r1 ++ [rec]) ++ r2 = r1 ++ rec :: r2) by by rewrite <- app_assoc.
  split; rewrite ?Ea; try done.
  - rewrite Hb, concat_app. cbn [concat]. by rewrite app_nil_r, <- !app_assoc.
  - rewrite len_app, len_cons, len_nil. lia.
  - rewrite len_app, len_cons, len_nil. lia.
Qed.

(** *** One turn on an open file *)
Section Turns.
Variable w : World.
Hypothesis Hw : healthy w.

Lemma healthy_record f c pos :
  handle_content (disk w) f = Some c ->
  read_handle_record oc f pos w =
    match read_record oc c pos with
    | None => None
    | Some (Err e) => Some (Err e, w)
    | Some (Ok e) => Some (Ok (e, record_end c pos), w)
    end.
Proof.
  intros E. unfold read_handle_record, mthen. rewrite (healthy_handle w Hw f c E).
  unfold mopt. by destruct (read_record oc c pos) as [[e|e]|].
Qed.

Lemma turn_file s f pos act :
  current_file s = Some (f, pos, act) -> turn oc (s, w) = read_turn oc f pos act (s, w).
Proof.
  intros E. unfold turn, ensure_open, gets, mthen, mget, mok. cbn [fst]. rewrite E. cbn [fst]. by rewrite E.
Qed.

Lemma turn_skip s f pos act c e :
  handle_content (disk w) f = Some c -> read_record oc c pos = Some (Ok e) ->
  (as_u64 (offset e) < sub_next_offset s)%N -> act = true ->
  read_turn oc f pos act (s, w) = Some (Ok Continue, (set_file (Some (f, record_end c pos, act)) s, w)).
Proof.
  intros Hc Hr Hlt ->. unfold read_turn, io, mtry, mthen, on_right. cbn [fst snd].
  rewrite (healthy_record f c pos Hc), Hr. unfold deliver, io, mtry, mthen, on_right. cbn [fst snd].
  rewrite healthy_nop by done. unfold mods, gets, mget, mset, mok, mthen. cbn [fst snd].
  cbn [set_file sub_next_offset]. by rewrite (proj2 (N.ltb_lt _ _) Hlt).
Qed.

Lemma turn_deliver s f pos act c e :
  handle_content (disk w) f = Some c -> read_record oc c pos = Some (Ok e) ->
  as_u64 (offset e) = sub_next_offset s -> (sub_next_offset s < u64_max)%N ->
  read_turn oc f pos act (s, w) =
    Some (Ok (Return (Ok e)), (set_next (sub_next_offset s + 1) (set_file (Some (f, record_end c pos, act)) s), w)).
Proof.
  intros Hc Hr Heq Hlt. unfold read_turn, io, mtry, mthen, on_right. cbn [fst snd].
  rewrite (healthy_record f c pos Hc), Hr. unfold deliver, io, mtry, mthen, on_right. cbn [fst snd].
  rewrite healthy_nop by done. unfold mods, gets, mget, mset, mok, mthen. cbn [fst snd].
  cbn [set_file sub_next_offset]. rewrite Heq, N.ltb_irrefl, N.eqb_refl. cbn [andb negb].
  unfold add64. by rewrite (proj2 (N.leb_le _ _)) by lia.
Qed.

Lemma turn_eof s f pos c :
  handle_content (disk w) f = Some c -> read_record oc c pos = Some (Err Eof) ->
  read_turn oc f pos true (s, w) = Some (Ok Await, (s, w)).
Proof.
  intros Hc Hr. unfold read_turn, io, mtry, mthen, on_right. cbn [fst snd].
  rewrite (healthy_record f c pos Hc), Hr. cbn [is_sentinel is_eof Eof]. by rewrite bool_decide_eq_true_2.
Qed.

Lemma turn_sentinel s f pos act c :
  handle_content (disk w) f = Some c -> read_record oc c pos = Some (Err (Corrupted SENTINEL_MSG)) ->
  read_turn oc f pos act (s, w) =
    Some (Ok Continue, (set_file (if bool_decide (is_Some (disk w !! seg_name (sub_next_offset s)))
      then Some (Linked (seg_name (sub_next_offset s)), HEADER_LEN,
                 negb (bool_decide (is_Some (disk w !! idx_name (sub_next_offset s)))))
      else None) s, w)).
Proof.
  intros Hc Hr. unfold read_turn, io, mtry, mthen, on_right. cbn [fst snd].
  rewrite (healthy_record f c pos Hc), Hr. cbn [is_sentinel]. rewrite bool_decide_eq_true_2 by done.
  unfold next_segment, gets, io, mtry, mthen, on_right, mget, mok. cbn [fst snd].
  rewrite healthy_open by done. destruct (disk w !! seg_name (sub_next_offset s)) as [c'|] eqn:E.
  - rewrite healthy_exists by done. rewrite (bool_decide_eq_true_2 (is_Some (Some c'))) by by eexists.
    reflexivity.
  - cbn [is_not_found NotFound]. rewrite (bool_decide_eq_true_2 (not_found = not_found)) by done.
    rewrite (bool_decide_eq_false_2 (is_Some None)) by by intros [? ?]. reflexivity.
Qed.
End Turns.

(** *** The files of a clean directory *)
Lemma stores_readable p recs t es :
  Forall (readable oc) recs -> stores oc (p ++ concat recs ++ t) (positions_from (len p) recs) es ->
  Forall2 (reads_as oc) recs es.
Proof.
  intros Hf. revert p es. induction Hf as [|rec recs [e' He'] Hf IH]; intros p es Hs.
  { apply Forall2_nil_inv_l in Hs as ->. constructor. }
  cbn [positions_from concat] in Hs. apply Forall2_cons_inv_l in Hs as (e & es' & Hr & Hs & ->).
  apply (reads_in_read oc _ []) in Hr. rewrite app_nil_r, <- !app_assoc in Hr.
  pose proof He' as (_ & _ & _ & Hrd). rewrite Hrd in Hr. injection Hr as <-. constructor; [done|].
  apply (IH (p ++ rec)). rewrite len_app. rewrite <- !app_assoc in Hs |- *. exact Hs.
Qed.

Lemma positions_from_at pos recs i p :
  positions_from pos recs !! i = Some p -> p = (pos + len (concat (take i recs)))%N.
Proof.
  revert pos i. induction recs as [|r recs IH]; intros pos i; [done|]. cbn [positions_from].
  destruct i as [|i]; cbn [lookup list_lookup].
  - intros [= <-]. rewrite take_0. cbn [concat]. rewrite len_nil. lia.
  - intros Hp%IH. cbn [take concat]. rewrite len_app. lia.
Qed.

Lemma closed_body d h k cs m af s :
  layout oc d h k cs m af -> s ∈ cs ->
  exists c recs tail, d !! seg_name (cs_base_offset s) = Some c /\
    drop (N.to_nat HEADER_LEN) c = concat recs ++ tail /\ sealed tail /\
    Forall2 (reads_as oc) recs (slice (cs_base_offset s) (len recs) h) /\
    cs_positions s = positions_from HEADER_LEN recs /\ recs <> [] /\
    (cs_base_offset s + len recs <= len h)%N.
Proof.
  intros Hl Hin. pose proof (lay_closed _ _ _ _ _ _ _ Hl) as Hc. pose proof (lay_index _ _ _ _ _ _ _ Hl) as Hi.
  rewrite Forall_forall in Hc, Hi. destruct (Hc s Hin) as (Hp & Hne & Hle & _ & file & Hf & Hst).
  destruct (Hi s Hin) as (_ & _ & hdr & recs & rest & Hf' & [Hlen _] & Hrd & Hps).
  rewrite Hp, Hf' in Hf. injection Hf as <-.
  assert (Hn : len (cs_positions s) = len recs) by (rewrite Hps; apply positions_from_len).
  eexists _, recs, (to_le_bytes 4 0 ++ rest). split; [exact Hf'|]. split.
  { rewrite <- Hlen. apply drop_len_app. }
  split; [by exists rest|]. rewrite Hn in Hle, Hst. split; [|split; [done|split; [|done]]].
  - rewrite Hps, <- Hlen in Hst. by apply (stores_readable hdr recs (to_le_bytes 4 0 ++ rest)).
  - intros ->. by rewrite Hps in Hne.
Qed.

Lemma live_body d h k cs m hdr recs :
  layout oc d h k cs m (Live hdr recs []) ->
  d !! seg_name m = Some (hdr ++ concat recs) /\
  drop (N.to_nat HEADER_LEN) (hdr ++ concat recs) = concat recs /\
  Forall2 (reads_as oc) recs (slice m (len recs) h) /\ (m + len recs = len h)%N.
Proof.
  intros Hl. pose proof (lay_active _ _ _ _ _ _ _ Hl) as (Hd & [Hlen _] & Hf & _). rewrite app_nil_r in Hd.
  pose proof (lay_le _ _ _ _ _ _ _ Hl) as Hm. pose proof (Forall2_length _ _ _ Hf) as Hn.
  rewrite length_drop in Hn. split; [done|]. split; [rewrite <- Hlen; apply drop_len_app|].
  assert (Hc : (m + len recs = len h)%N) by (unfold len in *; lia). split; [|done].
  unfold slice. rewrite take_ge; [done|]. rewrite length_drop. unfold len in *. lia.
Qed.

(** A directory no append is working on: no torn file. *)
Definition tidy (af : ActiveFile) : Prop :=
  match af with NoFile => True | TornHeader _ => False | Live _ _ tail => tail = [] end.

Lemma clean_tidy l w h k :
  clean oc (l, w) h k -> exists m af, layout oc (disk w) h k (closed l) m af /\ tidy af.
Proof.
  intros (_ & m & af & Hl & Ha). exists m, af. split; [done|].
  destruct (active l); simpl in Ha; [|by subst af]. by destruct Ha as (_ & _ & _ & hdr & recs & -> & _).
Qed.

Section Directory.
Context (d : gmap string bytes) (h : list LogEntry) (k : N) (cs : list ClosedSegment) (m : N) (af : ActiveFile).
Hypothesis Hl : layout oc d h k cs m af.
Hypothesis Ht : tidy af.

Lemma bases_spec b : b ∈ omap seg_base (map_to_list d).*1 <-> b ∈ file_bases cs m af.
Proof. rewrite <- (scan_layout _ _ _ _ _ _ _ Hl). by rewrite merge_sort_Permutation. Qed.

Lemma base_ge b : b ∈ file_bases cs m af -> (k <= b <= len h)%N.
Proof.
  pose proof (lay_le _ _ _ _ _ _ _ Hl). pose proof (chain_bounds _ _ _ (lay_chain _ _ _ _ _ _ _ Hl)) as Hk.
  unfold file_bases. rewrite elem_of_app, list_elem_of_fmap. intros [(s & -> & Hin)|Hin].
  - pose proof (layout_base _ _ _ _ _ _ _ _ Hl Hin). lia.
  - destruct af; [by apply not_elem_of_nil in Hin| |]; apply list_elem_of_singleton in Hin as ->; lia.
Qed.

(** The first segment starts at [k]. *)
Lemma base_first : file_bases cs m af <> [] -> k ∈ file_bases cs m af.
Proof.
  pose proof (lay_chain _ _ _ _ _ _ _ Hl) as Hc. unfold file_bases.
  destruct cs as [|s cs']; simpl in Hc |- *.
  - subst m. destruct af; [done|..]; intros _; by apply list_elem_of_singleton.
  - intros _. destruct Hc as [-> _]. by left.
Qed.

(** What follows a closed segment is another segment. *)
Lemma base_following s :
  s ∈ cs -> (cs_base_offset s + len (cs_positions s))%N ∈ file_bases cs m af \/
            (cs_base_offset s + len (cs_positions s))%N = len h /\ af = NoFile.
Proof.
  intros Hin. pose proof (lay_chain _ _ _ _ _ _ _ Hl) as Hc. pose proof (lay_active _ _ _ _ _ _ _ Hl) as Ha.
  assert (Hn : (cs_base_offset s + len (cs_positions s))%N ∈ cs_base_offset <$> cs \/
               (cs_base_offset s + len (cs_positions s))%N = m).
  { clear -Hc Hin. revert k Hc. induction cs as [|s' cs' IH]; intros k; [by apply not_elem_of_nil in Hin|].
    intros [Hb Hc]. apply elem_of_cons in Hin as [->|Hin].
    - rewrite Hb. destruct cs' as [|s2 cs']; [by right|]. left. destruct Hc as [<- _]. right. by left.
    - destruct (IH Hin _ Hc) as [|]; [left; by right|by right]. }
  unfold file_bases. destruct Hn as [Hn|Hn]; [left; apply elem_of_app; by left|]. rewrite Hn.
  destruct af; [right; by destruct Ha as [_ ->]|..]; left; apply elem_of_app; right; by apply list_elem_of_singleton.
Qed.

(** *** [open_to_offset] *)

(** A record to deliver comes next, or the end of the live file. *)
Definition opened (n : N) (r : result (option (Handle * N * bool)) StorageError) : Prop :=
  match r with
  | Err e => expiry h k n e
  | Ok None => (len h <= n)%N
  | Ok (Some (f, pos, act)) => exists c b r1 r2 tail, position d h n f pos act c b r1 r2 tail /\
      ((b + len r1)%N = n /\ r2 <> [] \/ r2 = [] /\ tail = [] /\ act = true)
  end.

Variable w : World.
Hypothesis Hw : healthy w.
Hypothesis Hd : disk w = d.

Lemma scan_live f c r1 r2 j :
  handle_content d f = Some c -> drop (N.to_nat HEADER_LEN) c = concat r1 ++ concat r2 ->
  Forall (readable oc) r2 ->
  scan_records oc j f (HEADER_LEN + len (concat r1)) w =
    Some (Ok (if (j <=? length r2)%nat then Reached (HEADER_LEN + len (concat (r1 ++ take j r2)))
              else AtTail (HEADER_LEN + len (concat (r1 ++ r2)))), w).
Proof.
  intros Hc. revert r1 r2. rewrite <- Hd in Hc. induction j as [|j IH]; intros r1 r2 Hb Hr.
  { cbn [scan_records]. by rewrite take_0, app_nil_r. }
  cbn [scan_records]. unfold mthen at 1, mtry. rewrite (healthy_record w Hw f c _ Hc).
  destruct r2 as [|rec r2].
  - rewrite (read_end oc c (concat r1)) by by rewrite Hb, app_nil_r.
    cbn [is_sentinel is_eof Eof]. rewrite (bool_decide_eq_true_2 (unexpected_eof = unexpected_eof)) by done.
    unfold mthen. rewrite healthy_nop by done. cbn [length Nat.leb]. rewrite app_nil_r. reflexivity.
  - apply Forall_cons in Hr as [[e He] Hr]. cbn [concat] in Hb.
    destruct (read_next oc c (concat r1) rec (concat r2) e Hb He) as [-> ->].
    unfold mthen. rewrite healthy_nop by done.
    replace (concat r1 ++ rec) with (concat (r1 ++ [rec])) by by rewrite concat_app; simpl; rewrite app_nil_r.
    rewrite (IH _ r2); [|by rewrite concat_app; simpl; rewrite app_nil_r, <- app_assoc|done].
    by rewrite <- !app_assoc.
Qed.

Lemma forall2_readable recs es : Forall2 (reads_as oc) recs es -> Forall (readable oc) recs.
Proof. induction 1; constructor; [by eexists|done]. Qed.

Lemma open_live n :
  (m <= n)%N -> af <> NoFile -> exists r, open_unindexed oc m n w = Some (r, w) /\ opened n r.
Proof.
  intros Hn Hne. destruct af as [| |hdr recs tail]; [done|by destruct Ht|]. simpl in Ht. subst tail.
  destruct (live_body _ _ _ _ _ _ _ Hl) as (Ed & Eb & Hf & Hc). pose proof (layout_m oc _ _ _ _ _ _ Hl) as Hm.
  unfold open_unindexed, mthen at 1.
  rewrite (scan_live _ (hdr ++ concat recs) [] recs) by (done || by eapply forall2_readable).
  assert (Hpos : forall r1 r2, r1 ++ r2 = recs -> (m + len r1 <= n)%N ->
    position d h n (Linked (seg_name m)) (HEADER_LEN + len (concat r1)) true (hdr ++ concat recs) m r1 r2 []).
  { intros r1 r2 <- Hr. split; try done.
    - by rewrite Eb, concat_app, app_nil_r.
    - lia.
    - by intros name [= <-].
    - right. do 3 (split; [done|]). split; [|done]. by apply (lay_no_index _ _ _ _ _ _ _ Hl). }
  destruct (Nat.leb_spec (N.to_nat (n - m)) (length recs)) as [Hle|Hgt].
  - unfold mthen. rewrite healthy_nop by done. eexists. split; [reflexivity|]. cbn [app].
    set (i := N.to_nat (n - m)) in *. exists (hdr ++ concat recs), m, (take i recs), (drop i recs), [].
    assert (Hi : (m + len (take i recs))%N = n) by (unfold len; rewrite length_take; lia).
    split; [apply Hpos; [apply take_drop|lia]|]. destruct (drop i recs); [by right|by left].
  - eexists. split; [reflexivity|]. exists (hdr ++ concat recs), m, recs, [], []. split; [|by right].
    apply Hpos; [apply app_nil_r|unfold len; lia].
Qed.

Lemma open_closed_at n s :
  s ∈ cs -> (cs_base_offset s <= n)%N ->
  (forall b, b ∈ file_bases cs m af -> (b <= n)%N -> (b <= cs_base_offset s)%N) ->
  sizes_ok d -> exists r, open_indexed (cs_base_offset s) n w = Some (r, w) /\ opened n r.
Proof.
  intros Hin Hn Hmax Hsz. destruct (closed_body _ _ _ _ _ _ _ Hl Hin) as (c & recs & tail & Ed & Eb & Hs & Hf & Hps & Hne & Hle).
  pose proof (lay_index _ _ _ _ _ _ _ Hl) as Hi. rewrite Forall_forall in Hi. destruct (Hi s Hin) as (Hix & Hmx & _).
  pose proof (lay_closed _ _ _ _ _ _ _ Hl) as Hc. rewrite Forall_forall in Hc. destruct (Hc s Hin) as (Hp & _ & _ & _ & file & Hfile & Hst).
  rewrite Hp, Ed in Hfile. injection Hfile as <-.
  unfold open_indexed, mtry, mthen at 1, read_index_file, mthen at 1.
  rewrite healthy_metadata_len, Hd, Hix by done. unfold mthen at 1. rewrite healthy_read, Hd, Hix by done.
  destruct (index_roundtrip (idx_name (cs_base_offset s))) as [Hround _]. unfold mresult.
  rewrite (Hround (cs_positions s)); [|by eapply positions_u64, Hsz|done].
  destruct (cs_positions s !! N.to_nat (n - cs_base_offset s)) as [pos|] eqn:E.
  - unfold mthen. rewrite healthy_nop by done. eexists. split; [reflexivity|].
    set (i := N.to_nat (n - cs_base_offset s)) in *. assert (Hi' : (i < length recs)%nat).
    { apply lookup_lt_Some in E. pose proof (positions_from_len HEADER_LEN recs) as Hpl. rewrite <- Hps in Hpl.
      unfold len in Hpl. lia. }
    exists c, (cs_base_offset s), (take i recs), (drop i recs), tail.
    assert (Hb : (cs_base_offset s + len (take i recs))%N = n) by (unfold len; rewrite length_take; lia).
    split; [split|].
    + done.
    + by rewrite app_assoc, <- concat_app, take_drop.
    + by rewrite take_drop.
    + by rewrite take_drop.
    + rewrite Hps in E. by apply positions_from_at in E.
    + lia.
    + done.
    + intros name [= <-]. split; [done|]. pose proof (lay_u64 _ _ _ _ _ _ _ Hl). unfold wf_u64. lia.
    + by left.
    + left. split; [done|]. intros Hnil. apply (f_equal length) in Hnil. rewrite length_drop in Hnil. simpl in Hnil. lia.
  - eexists. split; [reflexivity|]. apply lookup_ge_None in E. cbn [opened].
    destruct (base_following s Hin) as [Hb|[<- _]]; [|unfold len in *; lia].
    specialize (Hmax _ Hb). destruct (cs_positions s) eqn:Eps; [|unfold len in *; simpl in *; lia].
    destruct recs; [done|]. by simpl in Hps.
Qed.

Lemma open_none n min_base :
  match min_base with
  | Some b => b ∈ file_bases cs m af /\ forall b', b' ∈ file_bases cs m af -> (b <= b')%N
  | None => file_bases cs m af = []
  end ->
  (forall b', b' ∈ file_bases cs m af -> (n < b')%N) ->
  exists r, no_segment n min_base w = Some (r, w) /\ opened n r.
Proof.
  intros Hmin Hall. unfold no_segment. destruct min_base as [b|].
  - eexists. split; [reflexivity|]. destruct Hmin as [Hin Hmin].
    assert (Hk : k ∈ file_bases cs m af).
    { apply base_first. intros E. rewrite E in Hin. by apply not_elem_of_nil in Hin. }
    split; [by apply Hall|]. exists (Some b). split; [done|]. apply N.le_antisymm; [by apply Hmin|].
    apply base_ge in Hin. lia.
  - unfold mthen. destruct (healthy_watermark w Hw) as (wm & E & Hwm). rewrite E.
    pose proof (lay_watermark _ _ _ _ _ _ _ Hl) as Hwat. pose proof (lay_chain _ _ _ _ _ _ _ Hl) as Hc.
    pose proof (lay_active _ _ _ _ _ _ _ Hl) as Ha. unfold file_bases in Hmin.
    apply app_eq_nil in Hmin as [Hcs Haf]. apply fmap_nil_inv in Hcs. rewrite Hcs in Hc. simpl in Hc.
    assert (af = NoFile) as Hno by by destruct af. rewrite Hno in Ha. destruct Ha as [_ Hm].
    rewrite Hd, (Hwat Hcs Hno) in Hwm. destruct wm as [v|]; simpl in Hwm.
    + subst v. destruct (N.ltb_spec n m) as [Hlt|Hge]; eexists; (split; [reflexivity|]).
      * split; [lia|]. exists None. split; [done|]. lia.
      * simpl. lia.
    + eexists. split; [reflexivity|]. simpl. lia.
Qed.

Lemma open_spec n : sizes_ok d -> exists r, open_to_offset oc n w = Some (r, w) /\ opened n r.
Proof.
  intros Hsz. unfold open_to_offset, mthen at 1. rewrite healthy_scan by done.
  destruct (foldl (scan_base n) (None, None) _) as [best min_base] eqn:E.
  apply scan_bases in E as [Hb Hm]. rewrite Hd in Hb, Hm.
  assert (Hin : forall b, b ∈ omap seg_base (map_to_list d).*1 <-> b ∈ file_bases cs m af) by apply bases_spec.
  destruct best as [b|].
  - destruct Hb as (Hbin & Hle & Hmax). pose proof Hbin as [_ [c Hc]]%elem_of_bases. apply Hin in Hbin.
    unfold mtry, mthen at 1. rewrite healthy_open, Hd, Hc by done. unfold mthen at 1.
    rewrite healthy_exists, Hd by done.
    assert (Hmax' : forall b', b' ∈ file_bases cs m af -> (b' <= n)%N -> (b' <= b)%N)
      by (intros b' Hb'; apply Hmax, Hin, Hb').
    pose proof (layout_m oc _ _ _ _ _ _ Hl) as Hwm.
    unfold file_bases in Hbin. apply elem_of_app in Hbin as [(s & -> & Hs)%list_elem_of_fmap|Hbm].
    + pose proof (lay_index _ _ _ _ _ _ _ Hl) as Hi. rewrite Forall_forall in Hi.
      destruct (Hi s Hs) as (Hix & _). rewrite Hix, (bool_decide_eq_true_2 (is_Some (Some _))) by by eexists.
      by apply open_closed_at.
    + assert (b = m /\ af <> NoFile) as [-> Hne].
      { destruct af; [by apply not_elem_of_nil in Hbm| |]; apply list_elem_of_singleton in Hbm; done. }
      rewrite (lay_no_index _ _ _ _ _ _ _ Hl m Hwm) by done.
      rewrite (bool_decide_eq_false_2 (is_Some None)) by by intros [? ?]. by apply open_live.
  - apply open_none.
    + destruct min_base as [b|].
      * destruct Hm as [Hbin Hmin]. split; [by apply Hin|]. intros b' Hb'. by apply Hmin, Hin.
      * destruct (file_bases cs m af) as [|b bs] eqn:Eb; [done|]. exfalso.
        assert (Hb' : b ∈ omap seg_base (map_to_list d).*1) by (apply Hin; by left).
        rewrite Hm in Hb'. by apply not_elem_of_nil in Hb'.
    + intros b' Hb'. by apply Hb, Hin.
Qed.

(** *** The loop *)
Hypothesis Hsz : sizes_ok d.

Definition ends (n : N) (r : option (result Turn StorageError * (SegmentLogSubscription * World))) : Prop :=
  exists t s' p, r = Some (Ok t, (s', w)) /\ poll_of t = Some p /\ poll_outcome d h k n p s'.

(** The next record is the one to deliver. *)
Lemma turn_at s f pos act c b r1 rec r2 tail :
  sub_closed s = false -> current_file s = Some (f, pos, act) ->
  position d h (sub_next_offset s) f pos act c b r1 (rec :: r2) tail ->
  (b + len r1)%N = sub_next_offset s -> ends (sub_next_offset s) (turn oc (s, w)).
Proof.
  intros Hcl Hf Hp Hn. pose proof (lay_offsets _ _ _ _ _ _ _ Hl) as Ho.
  destruct (pos_entry _ _ _ _ _ _ _ _ _ _ _ _ Ho Hp) as (e & Hre & He & Heo).
  pose proof (pos_le _ _ _ _ _ _ _ _ _ _ _ Hp) as Hle. rewrite len_app, len_cons in Hle.
  pose proof (lay_u64 _ _ _ _ _ _ _ Hl) as Hu.
  pose proof (pos_body _ _ _ _ _ _ _ _ _ _ _ Hp) as Hb. cbn [concat] in Hb. rewrite <- app_assoc in Hb.
  pose proof (pos_content _ _ _ _ _ _ _ _ _ _ _ Hp) as Hc. rewrite <- Hd in Hc.
  pose proof (pos_here _ _ _ _ _ _ _ _ _ _ _ Hp) as ->.
  destruct (read_next oc c (concat r1) rec _ e Hb Hre) as [Hr Hend].
  rewrite (turn_file w s _ _ _ Hf). eexists _, _, _.
  split; [apply (turn_deliver w Hw s f _ act c e); [done|done|congruence|lia]|].
  split; [reflexivity|]. rewrite Hn in He. split; [done|]. split; [done|].
  split; [done|]. split; [unfold wf_u64; simpl; lia|]. intros f' pos' act' [= <- <- <-].
  exists c, b, (r1 ++ [rec]), r2, tail. rewrite Hend. replace (concat r1 ++ rec) with (concat (r1 ++ [rec]))
    by by rewrite concat_app; simpl; rewrite app_nil_r.
  apply (pos_after _ _ _ _ _ _ _ _ _ _ _ _ Hp Hn).
Qed.

(** The live file ends here. *)
Lemma turn_tail s f pos act c b r1 :
  sub_closed s = false -> wf_u64 (sub_next_offset s) -> current_file s = Some (f, pos, act) ->
  position d h (sub_next_offset s) f pos act c b r1 [] [] -> act = true ->
  ends (sub_next_offset s) (turn oc (s, w)).
Proof.
  intros Hcl Hwn Hf Hp ->.
  pose proof (pos_body _ _ _ _ _ _ _ _ _ _ _ Hp) as Hb. cbn [concat] in Hb. rewrite !app_nil_r in Hb.
  pose proof (pos_content _ _ _ _ _ _ _ _ _ _ _ Hp) as Hc. rewrite <- Hd in Hc.
  pose proof (pos_here _ _ _ _ _ _ _ _ _ _ _ Hp) as ->.
  rewrite (turn_file w s _ _ _ Hf). eexists _, _, _.
  split; [apply (turn_eof w Hw s f _ c); [done|by apply read_end]|].
  split; [reflexivity|]. split; [|split; [done|split; [done|split; [done|]]]].
  - destruct (pos_end _ _ _ _ _ _ _ _ _ _ _ Hp) as [[rest E]|(_ & _ & _ & _ & E)]; [done|].
    rewrite app_nil_r in E. rewrite <- E. apply Hp.
  - intros f' pos' act' E. rewrite Hf in E. injection E as <- <- <-. by eexists _, _, _, _, _.
Qed.

Lemma turn_fresh s :
  sub_closed s = false -> wf_u64 (sub_next_offset s) -> current_file s = None ->
  ends (sub_next_offset s) (turn oc (s, w)).
Proof.
  intros Hcl Hwn Hf. destruct (open_spec (sub_next_offset s) Hsz) as (r & E & Hr).
  assert (Et : turn oc (s, w) = match r with
    | Err e => Some (Ok (Return (Err e)), (set_sub_closed s, w))
    | Ok None => Some (Ok Await, (s, w))
    | Ok (Some f) => turn oc (set_file (Some f) s, w)
    end).
  { destruct r as [[[[f pos] act]|]|e].
    2,3: unfold turn, ensure_open, io, gets, mods, terminal, mtry, mthen, on_right, mget, mset, mok; cbn [fst snd];
      rewrite Hf; cbn [fst snd]; rewrite E; cbn [fst snd]; rewrite ?Hf; done.
    rewrite (turn_file w (set_file (Some (f, pos, act)) s) f pos act) by done.
    unfold turn, ensure_open, io, gets, mods, mtry, mthen, on_right, mget, mset, mok. cbn [fst snd].
    rewrite Hf. cbn [fst snd]. rewrite E. cbn [fst snd]. done. }
  rewrite Et. destruct r as [[[[f pos] act]|]|e].
  - destruct Hr as (c & b & r1 & r2 & tail & Hp & [[Hn Hne]|(-> & -> & Hact)]).
    + destruct r2 as [|rec r2]; [done|].
      apply (turn_at (set_file (Some (f, pos, act)) s) f pos act c b r1 rec r2 tail); done.
    + apply (turn_tail (set_file (Some (f, pos, act)) s) f pos act c b r1); done.
  - eexists _, _, _. split; [reflexivity|]. split; [reflexivity|]. split; [exact Hr|]. split; [done|].
    split; [done|]. split; [done|]. intros f pos act E'. by rewrite Hf in E'.
  - eexists _, _, _. split; [reflexivity|]. split; [reflexivity|]. by split.
Qed.

(** At the start of the segment [n], which follows a rolled one. *)
Lemma turn_start s :
  sub_closed s = false -> wf_u64 (sub_next_offset s) -> is_Some (d !! seg_name (sub_next_offset s)) ->
  ends (sub_next_offset s) (turn oc (set_file (Some (Linked (seg_name (sub_next_offset s)), HEADER_LEN,
    negb (bool_decide (is_Some (d !! idx_name (sub_next_offset s)))))) s, w)).
Proof.
  intros Hcl Hwn Hsome. set (n := sub_next_offset s) in *.
  destruct (lay_names _ _ _ _ _ _ _ Hl n Hwn Hsome) as [Hm|(sg & Hin & Hb)].
  - rewrite (lay_no_index _ _ _ _ _ _ _ Hl n Hwn) by lia. rewrite bool_decide_eq_false_2 by by intros [? ?].
    cbn [negb]. assert (exists hdr recs, af = Live hdr recs []) as (hdr & recs & Haf).
    { pose proof (lay_active _ _ _ _ _ _ _ Hl) as Ha. clear -Ha Ht Hm Hsome.
      destruct af as [| |hdr recs t]; [|done|by exists hdr, recs; simpl in Ht; subst t].
      destruct Ha as [E _]. rewrite <- Hm in E. rewrite E in Hsome. by destruct Hsome. }
    pose proof Hl as Hl'. rewrite Haf in Hl'. destruct (live_body _ _ _ _ _ _ _ Hl') as (Ed & Eb & Hf & Hc).
    assert (Hp : position d h n (Linked (seg_name n)) HEADER_LEN true (hdr ++ concat recs) m [] recs []).
    { split; try done.
      - by rewrite Hm.
      - by rewrite app_nil_r.
      - cbn [app]. lia.
      - unfold len. simpl. lia.
      - intros name [= <-]. rewrite <- Hm. done.
      - right. do 2 (split; [done|]). rewrite Hm. split; [done|]. split; [|done].
        by apply (lay_no_index _ _ _ _ _ _ _ Hl'); [rewrite <- Hm|]. }
    destruct recs as [|rec recs].
    + by eapply (turn_tail (set_file _ s)).
    + eapply (turn_at (set_file _ s)); [done|reflexivity|exact Hp|]. rewrite len_nil, N.add_0_r. by symmetry.
  - destruct (closed_body _ _ _ _ _ _ _ Hl Hin) as (c & recs & t & Ed & Eb & Hs & Hf & Hps & Hne & Hle).
    pose proof (lay_index _ _ _ _ _ _ _ Hl) as Hi. rewrite Forall_forall in Hi.
    destruct (Hi sg Hin) as (Hix & _). rewrite <- Hb in *. rewrite Hix.
    rewrite (bool_decide_eq_true_2 (is_Some (Some _))) by by eexists. cbn [negb].
    destruct recs as [|rec recs]; [done|].
    eapply (turn_at (set_file _ s) _ _ _ c n [] rec recs t); [done|reflexivity| |by rewrite len_nil, N.add_0_r].
    split; try done.
    + unfold len. simpl. lia.
    + by rewrite len_nil, N.add_0_r.
    + by intros name [= <-].
    + by left.
Qed.

Definition answers (n : N) (fuel : nat) (s : SegmentLogSubscription) : Prop :=
  exists p s', next_loop oc fuel (s, w) = Some (Ok (Some p), (s', w)) /\ poll_outcome d h k n p s'.

Lemma ends_answers n fuel s : ends n (turn oc (s, w)) -> answers n (S fuel) s.
Proof.
  intros (t & s' & p & E & Hp & Ho). exists p, s'. split; [|done]. cbn [next_loop]. unfold mthen. rewrite E.
  destruct t; simplify_eq/=; done.
Qed.

Lemma continue_answers n fuel s s1 :
  turn oc (s, w) = Some (Ok Continue, (s1, w)) -> answers n fuel s1 -> answers n (S fuel) s.
Proof. intros E (p & s' & E' & Ho). exists p, s'. split; [|done]. cbn [next_loop]. unfold mthen. by rewrite E. Qed.

(** At the end of a rolled segment. *)
Lemma sealed_answers s f pos act c b r1 tail fuel :
  sub_closed s = false -> wf_u64 (sub_next_offset s) -> current_file s = Some (f, pos, act) ->
  position d h (sub_next_offset s) f pos act c b r1 [] tail -> sealed tail ->
  answers (sub_next_offset s) (2 + fuel) s.
Proof.
  intros Hcl Hwn Hf Hp [rest ->].
  pose proof (pos_body _ _ _ _ _ _ _ _ _ _ _ Hp) as Hb. cbn [concat app] in Hb.
  pose proof (pos_content _ _ _ _ _ _ _ _ _ _ _ Hp) as Hc. rewrite <- Hd in Hc.
  pose proof (pos_here _ _ _ _ _ _ _ _ _ _ _ Hp) as ->.
  eapply continue_answers.
  { rewrite (turn_file w s _ _ _ Hf). by apply (turn_sentinel w Hw s f _ act c), (read_sentinel oc c _ rest). }
  rewrite Hd. apply ends_answers. case_bool_decide as Hs.
  - by apply turn_start.
  - by apply (turn_fresh (set_file None s)).
Qed.

Lemma file_answers s f pos act c b r1 r2 tail fuel :
  sub_closed s = false -> wf_u64 (sub_next_offset s) -> current_file s = Some (f, pos, act) ->
  position d h (sub_next_offset s) f pos act c b r1 r2 tail ->
  answers (sub_next_offset s) (length r2 + 2 + fuel) s.
Proof.
  pose proof (lay_offsets _ _ _ _ _ _ _ Hl) as Ho. revert s pos r1.
  induction r2 as [|rec r2 IH]; intros s pos r1 Hcl Hwn Hf Hp.
  - destruct (pos_end _ _ _ _ _ _ _ _ _ _ _ Hp) as [Hs|(Hact & -> & _)].
    + by eapply sealed_answers.
    + by eapply ends_answers, turn_tail.
  - cbn [length Nat.add]. destruct (pos_entry _ _ _ _ _ _ _ _ _ _ _ _ Ho Hp) as (e & Hre & He & Heo).
    pose proof (pos_next _ _ _ _ _ _ _ _ _ _ _ Hp) as Hn.
    destruct (decide ((b + len r1)%N = sub_next_offset s)) as [Heq|Hne].
    { by eapply ends_answers, turn_at. }
    destruct act; [|by destruct Hne; apply Hp].
    pose proof (pos_body _ _ _ _ _ _ _ _ _ _ _ Hp) as Hb. cbn [concat] in Hb. rewrite <- app_assoc in Hb.
    pose proof (pos_content _ _ _ _ _ _ _ _ _ _ _ Hp) as Hc. rewrite <- Hd in Hc.
    pose proof (pos_here _ _ _ _ _ _ _ _ _ _ _ Hp) as Hpos. rewrite Hpos in *.
    destruct (read_next oc c (concat r1) rec _ e Hb Hre) as [Hr Hend].
    eapply continue_answers.
    { rewrite (turn_file w s _ _ _ Hf). apply (turn_skip w Hw s f _ true c e); [done|done|lia|done]. }
    eapply (IH (set_file _ s)); [done|done|reflexivity|]. rewrite Hend.
    replace (concat r1 ++ rec) with (concat (r1 ++ [rec])) by by rewrite concat_app; simpl; rewrite app_nil_r.
    apply (pos_advance _ _ _ _ _ _ _ _ _ _ _ _ Hp); [simpl; lia|done].
Qed.
End Directory.

(** A call on a directory that no append is working on, with fuel for every
    record of the history, answers. *)
Lemma next_entry_correct l w h k s :
  clean oc (l, w) h k -> healthy w -> sizes_ok (disk w) -> sub_ok (disk w) h s ->
  exists p s', next_entry oc (length h + 2) (s, w) = Some (Ok (Some p), (s', w)) /\
    poll_outcome (disk w) h k (sub_next_offset s) p s'.
Proof.
  intros Hc Hw Hsz (Hcl & Hwn & Hf). destruct (clean_tidy _ _ _ _ Hc) as (m & af & Hl & Ht).
  unfold next_entry, gets, mthen, mget, mok. cbn [fst]. rewrite Hcl.
  destruct (current_file s) as [[[f pos] act]|] eqn:Ef.
  - destruct (Hf _ _ _ eq_refl) as (c & b & r1 & r2 & tail & Hp).
    assert (Hn : (length r2 <= length h)%nat).
    { pose proof (pos_le _ _ _ _ _ _ _ _ _ _ _ Hp) as Hle. rewrite len_app in Hle. unfold len in Hle. lia. }
    replace (length h + 2)%nat with (length r2 + 2 + (length h - length r2))%nat by lia.
    eapply (file_answers _ _ _ _ _ _ Hl Ht w Hw eq_refl Hsz); done.
  - rewrite Nat.add_comm. cbn [Nat.add].
    eapply ends_answers, (turn_fresh _ _ _ _ _ _ Hl Ht w Hw eq_refl Hsz); done.
Qed.
End Correct.
