(* ===== verification/SegmentFollow.v ===== *)
(** A subscription of the segment log while the log is appended to: the
    entries it delivers are those of the history, in order and without a gap,
    across rolls and evictions ([subscription_follows_log]).

    Appends and polls alternate here; a poll in the middle of an append can
    deliver a record of a batch that is then rolled back
    ([uncommitted_entry_delivered]). *)
From stdpp Require Import base gmap strings option numbers pretty sorting list.
From Stdlib Require Import Strings.Byte.
From S2P Require Import Prelude EventModel EventLogPort SegmentFile SegmentFs SegmentLog SegmentLogSafety SegmentLogLayout SegmentLogOpen SegmentLogRecovery SegmentSubscription.

(** ** The two halves of an append

    Files disappear only in the second half, so that a file a subscription has
    open is complete when it is unlinked. *)
Section Halves.
Context `{CborEvent : Cbor OtkEvent} `{Crc : Crc32}.
Variable overflow_checks : bool.
Variable now : N -> N.
Abbreviation LM := (M (SegmentLog * World)).

Definition append_to_roll (producer_id : string) (events : list OtkEvent) : LM bool :=
  write_batch now producer_id events ;;;
  roll <- should_roll now ;;
  if roll : bool then roll_close overflow_checks else mok false.

Definition append_retention (retain : bool) : LM Offset :=
  (if retain then enforce_retention overflow_checks now else mok ()) ;;;
  l <- getl ;;
  o <- mopt (sub64 overflow_checks (next_offset l) 1) ;;
  mok (offset_new o).

Lemma append_split producer_id events s :
  log_append overflow_checks now producer_id events s =
    mthen (append_to_roll producer_id events) append_retention s.
Proof.
  unfold log_append, append_to_roll. rewrite mthen_assoc. apply mthen_ext. intros _ s1.
  rewrite mthen_assoc. apply mthen_ext. intros [|] s2; [|done].
  rewrite (mthen_cong _ _ _ _ (roll_split overflow_checks now s2)), mthen_assoc. by apply mthen_ext.
Qed.
End Halves.

(** ** A subscription beside the log *)

(** What becomes of the open file when the directory changes: a removed file
    stays open with its content. *)
Definition follow (d d' : gmap string bytes) (s : SegmentLogSubscription) : SegmentLogSubscription :=
  match current_file s with
  | Some (Linked name, pos, act) =>
      match d' !! name, d !! name with
      | None, Some c => set_file (Some (Unlinked c, pos, act)) s
      | _, _ => s
      end
  | _ => s
  end.

Record Follower := { f_log : SegmentLog; f_sub : SegmentLogSubscription; f_world : World }.

Section Steps.
Context `{CborEvent : Cbor OtkEvent} `{Crc : Crc32}.
Variable overflow_checks : bool.
Variable now : N -> N.

Definition append_step (producer_id : string) (events : list OtkEvent) (f : Follower) : option Follower :=
  match append_to_roll overflow_checks now producer_id events (f_log f, f_world f) with
  | Some (Ok retain, (l1, w1)) =>
      match append_retention overflow_checks now retain (l1, w1) with
      | Some (Ok _, (l2, w2)) =>
          Some {| f_log := l2; f_sub := follow (disk w1) (disk w2) (f_sub f); f_world := w2 |}
      | _ => None
      end
  | _ => None
  end.

(** One poll; the records of the log bound the turns of its loop. *)
Definition poll_step (f : Follower) : option (Poll * Follower) :=
  match next_entry overflow_checks (N.to_nat (next_offset (f_log f)) + 2) (f_sub f, f_world f) with
  | Some (Ok (Some p), (s, w)) => Some (p, {| f_log := f_log f; f_sub := s; f_world := w |})
  | _ => None
  end.

Definition delivered (p : Poll) : list LogEntry :=
  match p with Ready (Some (Ok e)) => [e] | _ => [] end.

(** Successful appends and polls, with the entries delivered so far. *)
Inductive follows : Follower -> list LogEntry -> Follower -> Prop :=
  | follows_refl f : follows f [] f
  | follows_append f es f1 f2 producer_id events :
      follows f es f1 -> utf8_valid (str_bytes producer_id) = true ->
      (8 * (active_records (f_log f1) + len events) <= MAX_INDEX_BYTES)%N ->
      append_step producer_id events f1 = Some f2 -> sizes_ok (disk (f_world f2)) -> follows f es f2
  | follows_poll f es f1 p f2 :
      follows f es f1 -> poll_step f1 = Some (p, f2) -> sub_closed (f_sub f2) = false ->
      follows f (es ++ delivered p) f2.
End Steps.

(** ** What the halves do to the directory *)
Section Directory.
Context `{CborEvent : Cbor OtkEvent} `{Crc : Crc32} `{!CborLaws OtkEvent} `{!Crc32Laws}.
Variable oc : bool.
Variable now : N -> N.
Hypothesis now_u64 : forall n, wf_u64 (now n).
Abbreviation panics := (oc = true).

(** Up to the retention segments only grow, and at most the active one is
    closed. *)
Definition grown_to (l : SegmentLog) (d : gmap string bytes) (h : list LogEntry) (k : N)
    (retain : bool) (s' : SegmentLog * World) : Prop :=
  clean oc s' h k /\ grows d (disk (snd s')) /\
  if retain then rolled oc s' h k /\ exists sg, closed (fst s') = closed l ++ [sg]
  else closed (fst s') = closed l.

Lemma append_to_roll_clean l w h k pid events :
  utf8_valid (str_bytes pid) = true -> clean oc (l, w) h k -> honest w ->
  (8 * (active_records l + len events) <= MAX_INDEX_BYTES)%N ->
  wp panics (append_to_roll oc now pid events) (fun r s' => later w (snd s') /\
    forall retain, r = Ok retain ->
      exists ts, grown_to l (disk w) (h ++ batch pid ts (len h) events) k retain s') (l, w).
Proof.
  intros Hpid Hc Ho Hmax. unfold append_to_roll.
  eapply wp_then.
  { by apply (write_batch_clean oc now now_u64 l w h k pid events). }
  2:{ intros e s' (ts & [Hl _] & _). done. }
  intros [] [l1 w1] (ts & (Hl1 & Hc1 & Hr1 & Hcl1 & Hg1) & Hok). destruct (Hok eq_refl) as (_ & _ & Hend). simpl in *.
  eapply wp_then; [apply (should_roll_spec oc)|..].
  2:{ by intros e s' (_ & _ & ? & ? & ?). }
  intros roll [l2 w2] ((Hl2 & Hd2 & _) & E & _). simpl in Hl2, Hd2, E. subst l2.
  pose proof (later_trans _ _ _ Hl1 Hl2) as Hl12.
  assert (Hc2 : clean oc (l1, w2) (h ++ batch pid ts (len h) events) k)
    by (eapply clean_same; [by apply same_files_eq|exact Hc1]).
  destruct roll.
  - eapply wp_mono; [apply (roll_close_clean oc l1 w2)|].
    + exact Hc2.
    + done.
    + destruct Hl12 as (_ & Hho & _). by apply Hho.
    + lia.
    + intros r s' [Hl3 Hr]. split; [by eapply later_trans|]. intros retain ->.
      destruct Hr as (-> & Hro & _ & Hg3 & sg & Hsg). exists ts. split; [apply Hro|]. rewrite Hd2 in Hg3.
      split; [by eapply grows_trans|]. split; [done|]. exists sg. by rewrite Hsg, Hcl1.
  - apply wp_ok. split; [done|]. intros retain [= <-]. exists ts. split; [done|].
    split; [simpl; by rewrite Hd2|done].
Qed.

(** Segment files are unchanged or gone. *)
Definition shrinks (d d' : gmap string bytes) : Prop :=
  forall b, d' !! seg_name b = d !! seg_name b \/ d' !! seg_name b = None.

Lemma shrinks_trans d1 d2 d3 : shrinks d1 d2 -> shrinks d2 d3 -> shrinks d1 d3.
Proof. intros H1 H2 b. destruct (H2 b) as [->|]; [apply H1|by right]. Qed.

Lemma shrinks_refl d : shrinks d d.
Proof. by left. Qed.

Lemma shrinks_deleted b d d' : segment_deleted b d d' -> shrinks d d'.
Proof.
  intros (Hs & Hn & _)%segment_deleted_lookup b'. destruct (decide (seg_name b' = seg_name b)) as [->|Hne].
  - by right.
  - left. by apply Hs.
Qed.

Lemma enforce_retention_shrinks l w h k :
  rolled oc (l, w) h k ->
  wp panics (enforce_retention oc now) (fun r s' => later w (snd s') /\ shrinks (disk w) (disk (snd s')) /\
    next_offset (fst s') = next_offset l /\ exists k', (k <= k')%N /\ rolled oc s' h k') (l, w).
Proof.
  intros Hro. eapply wp_mono.
  { apply (enforce_retention_gen oc now (fun s k => rolled oc s h k /\ shrinks (disk w) (disk (snd s)))).
    - intros l1 w1 w2 k1 [Hr Hs] Hl Hd. split; [by eapply rolled_later|]. simpl in *. by rewrite Hd.
    - intros sg segs l1 w1 k1 [Hr Hs] Hcl. simpl in Hs.
      pose proof Hr as ((_ & m & af & Hlay & _) & _ & _ & Ho). rewrite Hcl in Hlay. simpl in Ho.
      pose proof (lay_closed _ _ _ _ _ _ _ Hlay) as [(Hp & _ & _ & _ & f & Hf & _) _]%Forall_cons.
      rewrite Hp in Hf.
      eapply wp_mono.
      { apply wp_and; [by apply (rolled_delete oc h sg segs l1 w1 k1)|].
        rewrite Hp. apply (delete_segment_files oc (cs_base_offset sg) w1); [by eexists|done]. }
      intros r w2 [(Hl2 & Hr2 & Hres) (_ & _ & Hdel)]. split; [done|]. split; [done|]. destruct r as [[]|e].
      + destruct Hres as (k2 & Hk2 & Hr3). exists k2. split; [done|]. split; [done|]. simpl.
        eapply shrinks_trans; [done|by eapply shrinks_deleted].
      + split; [done|]. simpl. by rewrite Hdel.
    - split; [exact Hro|apply shrinks_refl]. }
  intros r s' (Hl & _ & _ & Hn & k' & [Hk' _] & Hr' & Hs'). split; [done|]. split; [done|]. split; [done|]. by exists k'.
Qed.

(** ** A subscription survives an append *)
Lemma chain_end k cs m m' : chain k cs m -> chain k cs m' -> m = m'.
Proof. revert k. induction cs as [|s cs IH]; intros k; simpl; [congruence|]. intros [_ H1] [_ H2]. by eapply IH. Qed.

(** The file of the segment that was active reads to the end of the log, whether
    it is still active or was closed. *)
Lemma active_still_read d d' h x k cs cs' m m' af af' c' :
  layout oc d h k cs m af -> layout oc d' (h ++ x) k cs' m' af' -> tidy af' ->
  cs' = cs \/ (exists sg, cs' = cs ++ [sg]) /\ af' = NoFile -> wf_u64 m -> d' !! seg_name m = Some c' ->
  exists recs tail', drop (N.to_nat HEADER_LEN) c' = concat recs ++ tail' /\
    Forall2 (reads_as oc) recs (slice m (len recs) (h ++ x)) /\ (m + len recs = len (h ++ x))%N /\
    (sealed tail' \/ tail' = [] /\ d' !! idx_name m = None).
Proof.
  intros Hl Hl' Ht Hcs Hwb Hc'.
  destruct Hcs as [->|[[sg ->] Hno]].
  - pose proof (chain_end _ _ _ _ (lay_chain _ _ _ _ _ _ _ Hl) (lay_chain _ _ _ _ _ _ _ Hl')) as <-.
    destruct af' as [| |hdr recs t']; [|done|].
    { destruct (lay_active _ _ _ _ _ _ _ Hl') as [E _]. by rewrite E in Hc'. }
    simpl in Ht. subst t'. destruct (live_body _ _ _ _ _ _ _ _ Hl') as (Ed & Eb & Hfr & Hcount).
    rewrite Ed in Hc'. injection Hc' as <-. exists recs, []. rewrite app_nil_r. split; [done|]. split; [done|].
    split; [done|]. right. split; [done|]. by apply (lay_no_index _ _ _ _ _ _ _ Hl').
  - pose proof (lay_chain _ _ _ _ _ _ _ Hl') as (mm & Hc1 & Hsg & Hend)%chain_app. simpl in Hend.
    pose proof (chain_end _ _ _ _ (lay_chain _ _ _ _ _ _ _ Hl) Hc1) as <-. subst af'.
    destruct (lay_active _ _ _ _ _ _ _ Hl') as [_ Hm'].
    destruct (closed_body _ _ _ _ _ _ _ sg Hl') as (c2 & recs & tail' & Ec & Eb & Hs & Hfr & Hps & _);
      [apply elem_of_app; right; by apply list_elem_of_singleton|].
    rewrite Hsg in Ec, Hfr. rewrite Hc' in Ec. injection Ec as <-.
    exists recs, tail'. split; [done|]. split; [done|]. split; [|by left].
    pose proof (positions_from_len HEADER_LEN recs) as Hpl. rewrite <- Hps in Hpl. lia.
Qed.

Lemma sub_ok_follow d d' h x s k cs cs' m m' af af' :
  layout oc d h k cs m af -> layout oc d' (h ++ x) k cs' m' af' -> tidy af' -> grows d d' ->
  cs' = cs \/ (exists sg, cs' = cs ++ [sg]) /\ af' = NoFile ->
  sub_ok oc d h s -> sub_ok oc d' (h ++ x) s.
Proof.
  intros Hl Hl' Ht Hg Hcs (Hcl & Hn & Hf). split; [done|]. split; [done|]. intros f pos act Ef.
  destruct (Hf _ _ _ Ef) as (c & b & r1 & r2 & tail & [Hc Hb Hr Hle Hh Hnx He Hnm Hend]).
  assert (Hr' : Forall2 (reads_as oc) (r1 ++ r2) (slice b (len (r1 ++ r2)) (h ++ x))) by by rewrite slice_app.
  assert (Hle' : (b + len (r1 ++ r2) <= len (h ++ x))%N) by (rewrite (len_app h x); lia).
  destruct f as [name|cu].
  2:{ simpl in Hc. injection Hc as ->. exists c, b, r1, r2, tail. split; try done.
      destruct Hend as [Hs|(_ & _ & ? & _)]; [by left|done]. }
  destruct (Hnm name eq_refl) as [-> Hwb]. simpl in Hc. destruct (Hg _ _ Hc) as (c' & Hc' & t & Hgr).
  destruct Hend as [[rest ->]|(-> & -> & _ & Hix & Hall)].
  { exists c', b, r1, r2, (to_le_bytes 4 0 ++ rest ++ t). split; try done.
    - rewrite Hgr, Hb. by rewrite <- !app_assoc.
    - left. by exists (rest ++ t). }
  (* the active segment: it is still active, or it was closed *)
  assert (Hbm : b = m).
  { destruct (lay_names _ _ _ _ _ _ _ Hl b Hwb (mk_is_Some _ _ Hc)) as [|(sg & Hin & ->)]; [done|].
    pose proof (lay_index _ _ _ _ _ _ _ Hl) as Hi. rewrite Forall_forall in Hi.
    destruct (Hi sg Hin) as (E & _). by rewrite E in Hix. }
  destruct (active_still_read d d' h x k cs cs' m m' af af' c' Hl Hl' Ht Hcs) as (recs & tail' & Eb & Hfr & Hcount & Hend).
  { by rewrite <- Hbm. }
  { by rewrite <- Hbm. }
  rewrite <- Hbm in Hfr, Hcount, Hend.
  destruct (readable_prefix oc (r1 ++ r2) recs t tail') as [r Er].
  - by eapply forall2_readable.
  - by eapply forall2_readable.
  - rewrite <- Eb, Hgr, Hb, concat_app, app_nil_r. done.
  - rewrite (len_app h x) in Hcount. unfold len in *. lia.
  - rewrite <- app_assoc in Er. subst recs. exists c', b, r1, (r2 ++ r), tail'. split; try done.
    + by rewrite Eb, concat_app, <- app_assoc.
    + by rewrite Hcount.
    + destruct Hend as [|[-> E]]; [by left|]. right. done.
Qed.

(** Without an active segment every open file is complete. *)
Lemma sub_ok_unlinked d d' h s k cs m :
  layout oc d h k cs m NoFile -> shrinks d d' -> sub_ok oc d h s -> sub_ok oc d' h (follow d d' s).
Proof.
  intros Hl Hs (Hcl & Hn & Hf). unfold follow. destruct (current_file s) as [[[[name|cu] pos] act]|] eqn:Ef.
  2:{ split; [done|]. split; [done|]. intros f' pos' act' E. rewrite Ef in E. injection E as <- <- <-.
      destruct (Hf _ _ _ eq_refl) as (c & b & r1 & r2 & tail & [Hc Hb Hr Hle Hh Hnx He Hnm Hend]).
      exists c, b, r1, r2, tail. split; try done. destruct Hend as [|(_ & _ & ? & _)]; [by left|done]. }
  2:{ split; [done|]. split; [done|]. intros f' pos' act' E. by rewrite Ef in E. }
  destruct (Hf _ _ _ eq_refl) as (c & b & r1 & r2 & tail & [Hc Hb Hr Hle Hh Hnx He Hnm Hend]).
  destruct (Hnm name eq_refl) as [-> Hwb]. simpl in Hc.
  assert (Hsealed : sealed tail).
  { destruct Hend as [|(_ & _ & _ & Hix & _)]; [done|]. exfalso.
    destruct (lay_names _ _ _ _ _ _ _ Hl b Hwb (mk_is_Some _ _ Hc)) as [->|(sg & Hin & ->)].
    - destruct (lay_active _ _ _ _ _ _ _ Hl) as [E _]. by rewrite E in Hc.
    - pose proof (lay_index _ _ _ _ _ _ _ Hl) as Hi. rewrite Forall_forall in Hi.
      destruct (Hi sg Hin) as (E & _). by rewrite E in Hix. }
  destruct (Hs b) as [E|E].
  - rewrite E, Hc. split; [done|]. split; [done|]. intros f' pos' act' E'. rewrite Ef in E'. injection E' as <- <- <-.
    exists c, b, r1, r2, tail. split; try done; [simpl; by rewrite E|by left].
  - rewrite E, Hc. split; [done|]. split; [done|]. intros f' pos' act' [= <- <- <-].
    exists c, b, r1, r2, tail. split; try done. by left.
Qed.

Lemma follow_same d d' h s : d' = d -> sub_ok oc d h s -> follow d d' s = s.
Proof.
  intros -> (_ & _ & Hf). unfold follow. destruct (current_file s) as [[[[name|cu] pos] act]|] eqn:Ef; [|done..].
  destruct (Hf _ _ _ eq_refl) as (c & b & r1 & r2 & tail & [Hc _ _ _ _ _ _ _ _]). simpl in Hc. by rewrite Hc.
Qed.
End Directory.

(** ** The subscription follows the log *)
Section Follow.
Context `{CborEvent : Cbor OtkEvent} `{Crc : Crc32} `{!CborLaws OtkEvent} `{!Crc32Laws}.
Variable oc : bool.
Variable now : N -> N.
Hypothesis now_u64 : forall n, wf_u64 (now n).

Definition follow_inv (f : Follower) (h : list LogEntry) (k : N) : Prop :=
  clean oc (f_log f, f_world f) h k /\ healthy (f_world f) /\ sizes_ok (disk (f_world f)) /\
  sub_ok oc (disk (f_world f)) h (f_sub f).

Lemma follow_next d d' s : sub_next_offset (follow d d' s) = sub_next_offset s.
Proof.
  unfold follow. destruct (current_file s) as [[[[name|cu] pos] act]|]; [|done..].
  by destruct (d' !! name), (d !! name).
Qed.

Lemma append_step_inv f h k pid events f' :
  follow_inv f h k -> utf8_valid (str_bytes pid) = true ->
  (8 * (active_records (f_log f) + len events) <= MAX_INDEX_BYTES)%N ->
  append_step oc now pid events f = Some f' -> sizes_ok (disk (f_world f')) ->
  sub_next_offset (f_sub f') = sub_next_offset (f_sub f) /\
  exists x k', (k <= k')%N /\ follow_inv f' (h ++ x) k'.
Proof.
  destruct f as [l s w]. unfold follow_inv, append_step. cbn [f_log f_sub f_world].
  intros (Hc & Hw & _ & Hsub) Hpid Hmax E Hsz.
  pose proof (append_to_roll_clean oc now now_u64 l w h k pid events Hpid Hc (healthy_honest _ Hw) Hmax) as H1.
  destruct (append_to_roll oc now pid events (l, w)) as [[[retain|] [l1 w1]]|] eqn:E1; [|done..].
  apply (wp_inv _ _ _ _ _ E1 (healthy_prompt _ Hw)) in H1 as (Hp1 & Hl1 & Hgr). destruct (Hgr retain eq_refl) as (ts & Hc1 & Hg & Hr).
  simpl in Hl1, Hg, Hr. pose proof (later_healthy _ _ Hl1 Hp1 Hw) as Hw1. clear Hgr. set (x := batch pid ts (len h) events) in *.
  destruct (clean_tidy _ _ _ _ _ Hc) as (m & af & Hlay & _).
  destruct (clean_tidy _ _ _ _ _ Hc1) as (m1 & af1 & Hlay1 & Ht1).
  assert (Hsub1 : sub_ok oc (disk w1) (h ++ x) s).
  { destruct retain.
    - destruct Hr as [((_ & m2 & af2 & Hlay2 & Hac) & Ha & _) Hsg]. simpl in Ha. rewrite Ha in Hac. simpl in Hac. subst af2.
      apply (sub_ok_follow oc _ _ h x s k _ _ m m2 af NoFile Hlay Hlay2); [done|done|by right|done].
    - apply (sub_ok_follow oc _ _ h x s k _ _ m m1 af af1 Hlay Hlay1); [done|done|by left|done]. }
  unfold append_retention in E. destruct retain.
  - destruct Hr as [Hro _]. pose proof Hro as ((_ & m2 & af2 & Hlay2 & Hac) & Ha & _). simpl in Ha.
    rewrite Ha in Hac. simpl in Hac. subst af2.
    pose proof (enforce_retention_shrinks oc now l1 w1 (h ++ x) k Hro) as H2. unfold mthen at 1 in E.
    destruct (enforce_retention oc now (l1, w1)) as [[[[]|] [l2 w2]]|] eqn:E2; [|done..].
    apply (wp_inv _ _ _ _ _ E2 Hp1) in H2 as (Hp2 & Hl2 & Hs2 & Hn2 & k' & Hk' & Hro2 & _).
    unfold mthen, getl, mget, mthen, mok, mopt, mpanic in E. cbn [fst snd] in E. destruct (sub64 oc (next_offset l2) 1); [|done].
    injection E as <-. cbn [f_log f_sub f_world] in *. split; [apply follow_next|].
    exists x, k'. split; [done|]. split; [done|]. split; [by eapply later_healthy|]. split; [done|].
    by eapply sub_ok_unlinked.
  - unfold mthen, getl, mget, mthen, mok, mopt, mpanic in E. cbn [fst snd] in E. destruct (sub64 oc (next_offset l1) 1); [|done].
    injection E as <-. cbn [f_log f_sub f_world] in *. split; [apply follow_next|].
    exists x, k. split; [done|]. split; [done|]. split; [done|]. split; [done|].
    by rewrite (follow_same _ _ _ _ _ eq_refl Hsub1).
Qed.

Lemma poll_step_spec f h k :
  follow_inv f h k -> exists p s', poll_step oc f = Some (p, {| f_log := f_log f; f_sub := s'; f_world := f_world f |}) /\
    poll_outcome oc (disk (f_world f)) h k (sub_next_offset (f_sub f)) p s'.
Proof.
  intros (Hc & Hw & Hsz & Hsub). destruct (next_entry_correct oc _ _ _ _ _ Hc Hw Hsz Hsub) as (p & s' & E & Ho).
  exists p, s'. split; [|done]. unfold poll_step.
  replace (N.to_nat (next_offset (f_log f))) with (length h); [by rewrite E|].
  destruct Hc as [-> _]. unfold len. lia.
Qed.

(** What was delivered from [from] on. *)
Definition in_order (h : list LogEntry) (from : N) (es : list LogEntry) : Prop :=
  forall i e, es !! i = Some e -> h !! (N.to_nat from + i)%nat = Some e.

Lemma follows_inv f h k es f' :
  follow_inv f h k -> follows oc now f es f' ->
  sub_next_offset (f_sub f') = (sub_next_offset (f_sub f) + len es)%N /\
  exists x k', (k <= k')%N /\ follow_inv f' (h ++ x) k' /\ in_order (h ++ x) (sub_next_offset (f_sub f)) es.
Proof.
  intros Hi Hf. induction Hf as [f|f es f1 f2 pid events Hf IH Hpid Hmax E Hsz|f es f1 p f2 Hf IH E Hop].
  - split; [rewrite len_nil; lia|]. exists [], k. rewrite app_nil_r. split; [lia|]. split; [done|].
    intros i e. by rewrite lookup_nil.
  - destruct (IH Hi) as (Hn & x & k1 & Hk1 & Hi1 & Hord).
    destruct (append_step_inv _ _ _ _ _ _ Hi1 Hpid Hmax E Hsz) as (Hn2 & y & k2 & Hk2 & Hi2).
    split; [congruence|]. exists (x ++ y), k2. rewrite app_assoc. split; [lia|]. split; [done|].
    intros i e He. apply lookup_app_l_Some, (Hord _ _ He).
  - destruct (IH Hi) as (Hn & x & k1 & Hk1 & Hi1 & Hord).
    destruct (poll_step_spec _ _ _ Hi1) as (p' & s' & E' & Ho). rewrite E in E'. injection E' as <- ->.
    cbn [f_sub] in *. assert (Hinv : forall n, sub_ok oc (disk (f_world f1)) (h ++ x) s' ->
      follow_inv {| f_log := f_log f1; f_sub := s'; f_world := f_world f1 |} (h ++ x) n \/ n <> k1).
    { intros n Hs. destruct (decide (n = k1)) as [->|]; [left|by right]. destruct Hi1 as (H1 & H2 & H3 & _). done. }
    destruct p as [|[[e|e]|]]; cbn [poll_outcome delivered] in *.
    + destruct Ho as (_ & Hn' & Hs). rewrite app_nil_r. split; [congruence|]. exists x, k1. split; [done|].
      destruct (Hinv k1 Hs); done.
    + destruct Ho as (He & Hn' & Hs). split; [rewrite Hn', Hn, len_app, len_cons, len_nil; lia|].
      exists x, k1. split; [done|]. split; [by destruct (Hinv k1 Hs)|].
      intros i e'. rewrite lookup_app_Some. intros [Hl|[Hge Hl]]; [by apply Hord|].
      apply list_lookup_singleton_Some in Hl as [Hi0 <-]. rewrite <- He. f_equal. unfold len in Hn. lia.
    + destruct Ho as [_ Ho]. congruence.
    + done.
Qed.

Lemma log_subscribe_spec l w h k from :
  clean oc (l, w) h k ->
  log_subscribe from (l, w) = Some
    (if (as_u64 from <? k)%N
     then Err (RetentionExpired from (if (k <? len h)%N then Some (offset_new k) else None))
     else Ok (subscription_new (as_u64 from)), (l, w)).
Proof.
  intros Hc%clean_inv. unfold log_subscribe, getl, mthen, mget, mok. cbn [fst].
  rewrite (is_fully_evicted_spec oc _ _ _ _ Hc), (earliest_offset_spec oc _ _ _ _ Hc).
  destruct Hc as (-> & _ & _ & m & Hm & Hch & _). apply chain_bounds in Hch.
  destruct (N.leb_spec (len h) (as_u64 from)) as [Hge|Hlt].
  { by rewrite (proj2 (N.ltb_ge _ _)) by lia. }
  destruct (N.leb_spec (len h) k) as [Hk|Hk]; cbn [andb].
  - rewrite (proj2 (N.ltb_lt 0 _)), (proj2 (N.ltb_lt _ k)), (proj2 (N.ltb_ge k _)) by lia. done.
  - rewrite (proj2 (N.ltb_lt k _)) by lia. by destruct (as_u64 from <? k)%N.
Qed.
End Follow.

(** ** Claims *)
Section Claims.
Context `{CborEvent : Cbor OtkEvent} `{Crc : Crc32} `{!CborLaws OtkEvent} `{!Crc32Laws}.
Variable oc : bool.
Variable now : N -> N.
Hypothesis now_u64 : forall n, wf_u64 (now n).

(** C19: A subscription follows the log.  On a clean log [subscribe] refuses an
    offset that retention has evicted, and otherwise gives a subscription.
    After any successful appends, with their rolls and evictions, and any
    polls in between, the entries delivered so far are those of the history
    from the requested offset on, in order and without a gap; and the next
    poll answers with the entry that follows them when it is retained: it
    waits only when there is none, and reports [RetentionExpired] only when
    that entry was evicted.  In particular a subscription keeps reading a
    segment it has open after retention has deleted the file, and the loop of
    [next_entry] ends. *)
Theorem subscription_follows_log l w h k from :
  clean oc (l, w) h k -> healthy w -> sizes_ok (disk w) -> wf_u64 (as_u64 from) ->
  log_subscribe from (l, w) = Some
    (if (as_u64 from <? k)%N
     then Err (RetentionExpired from (if (k <? len h)%N then Some (offset_new k) else None))
     else Ok (subscription_new (as_u64 from)), (l, w)) /\
  forall es f, follows oc now {| f_log := l; f_sub := subscription_new (as_u64 from); f_world := w |} es f ->
    exists x k', clean oc (f_log f, f_world f) (h ++ x) k' /\ in_order (h ++ x) (as_u64 from) es /\
      let next := (as_u64 from + len es)%N in
      exists p f', poll_step oc f = Some (p, f') /\
        match p with
        | Ready (Some (Ok e)) => (h ++ x) !! N.to_nat next = Some e
        | Pending => (len (h ++ x) <= next)%N
        | Ready (Some (Err e)) => expiry (h ++ x) k' next e
        | Ready None => False
        end.
Proof.
  intros Hc Hw Hsz Hf. split; [by apply (log_subscribe_spec oc)|]. intros es f Hrun.
  set (f0 := {| f_log := l |}) in Hrun. assert (Hi0 : follow_inv oc f0 h k) by (do 3 (split; [done|]); by repeat split).
  destruct (follows_inv oc now now_u64 f0 h k _ _ Hi0 Hrun)
    as (Hn & x & k' & _ & Hi & Hord).
  exists x, k'. split; [apply Hi|]. split; [done|]. destruct (poll_step_spec oc _ _ _ Hi) as (p & s' & E & Ho).
  cbn [f_sub sub_next_offset subscription_new] in Hn. rewrite Hn in Ho.
  exists p. eexists. split; [exact E|]. destruct p as [|[[e|e]|]]; cbn [poll_outcome] in Ho; by try apply Ho.
Qed.
End Claims.

(** ** Concrete runs *)

(** Two records fill a segment, and the retention keeps no closed segment. *)
Definition evicting_config : SegmentLogConfig :=
  {| max_segment_bytes := 60; max_segment_age_secs := 3600; flush_interval_ms := 0; retention := SizeBased 100 |}.

Definition evicting_log : SegmentLog :=
  {| config := evicting_config; closed := []; active := None; next_offset := 0; notified := 0; poisoned := false |}.

Definition start : Follower :=
  {| f_log := evicting_log; f_sub := subscription_new 0; f_world := world [] |}.

Abbreviation run_append := (@append_step event_cbor sum_crc true sample_now "loop-1" [sample_event]).
Abbreviation run_poll := (@poll_step event_cbor sum_crc true).
Abbreviation poll_state r := (match r with Some (_, f) => f | None => start end).

Definition after_first : Follower := Eval vm_compute in default start (run_append start).
Definition after_poll : Follower := Eval vm_compute in poll_state (run_poll after_first).
(** The segment is rolled and evicted. *)
Definition after_second : Follower := Eval vm_compute in default start (run_append after_poll).

Definition sample_at (o at_ns : N) (pid : string) : LogEntry :=
  {| offset := offset_new o; appended_at_ns := at_ns; entry_producer_id := pid; event := sample_event |}.

Example first_run : run_append start = Some after_first.
Proof. vm_compute. reflexivity. Qed.

Example poll_run : run_poll after_first = Some (Ready (Some (Ok (sample_at 0 1001 "loop-1"))), after_poll).
Proof. vm_compute. reflexivity. Qed.

Example second_run : run_append after_poll = Some after_second.
Proof. vm_compute. reflexivity. Qed.

(** Only the watermark is left, and the open file still has the second entry. *)
Example evicted_run : (map_to_list (disk (f_world after_second))).*1 = [WATERMARK].
Proof. vm_compute. reflexivity. Qed.

Lemma sample_follows :
  @follows event_cbor sum_crc true sample_now start [sample_at 0 1001 "loop-1"] after_second.
Proof.
  apply (follows_append _ _ _ _ after_poll _ "loop-1" [sample_event]);
    [|done|vm_compute; done|apply second_run|apply sizes_ok_check; vm_compute; reflexivity].
  apply (follows_poll _ _ _ [] after_first _ _) with (2 := poll_run); [|reflexivity].
  apply (follows_append _ _ _ _ start _ "loop-1" [sample_event]);
    [apply follows_refl|done|vm_compute; done|apply first_run|apply sizes_ok_check; vm_compute; reflexivity].
Qed.

Lemma evicting_clean : @clean event_cbor sum_crc true (evicting_log, world []) [] 0.
Proof.
  pose proof (fresh_clean true []) as Hc. unfold clean in Hc. destruct Hc as (Hn & m & af & Hl & Ha).
  split; [done|]. exists m, af. by split.
Qed.

Lemma subscription_follows_log_witness :
  exists x k', @clean event_cbor sum_crc true (f_log after_second, f_world after_second) x k' /\
    x !! 0%nat = Some (sample_at 0 1001 "loop-1") /\ x !! 1%nat = Some (sample_at 1 1003 "loop-1").
Proof.
  destruct (@subscription_follows_log event_cbor sum_crc event_cbor_laws sum_crc_laws true sample_now
    sample_now_u64 evicting_log (world []) [] 0 (offset_new 0) evicting_clean) as [_ H];
    [done|by intros name content|by vm_compute|].
  destruct (H _ _ sample_follows) as (x & k' & Hc & Hord & p & f' & E & Hp).
  assert (E' : run_poll after_second = Some (Ready (Some (Ok (sample_at 1 1003 "loop-1"))),
    poll_state (run_poll after_second))) by (vm_compute; reflexivity).
  rewrite E in E'. injection E' as ->. exists x, k'. split; [exact Hc|]. split; [by apply (Hord 0%nat)|exact Hp].
Defined.

(** *** Reads in the middle of an append *)

(** The directory of [s], seen by another task, for which nothing fails. *)
Definition seen (s : SegmentLog * World) : World :=
  {| disk := disk (snd s); schedule := []; dead := false; clock := 0; cache := forgotten (cache (snd s)) |}.

Abbreviation poll_at fuel s w := (@next_entry event_cbor sum_crc true fuel (s, w)).

(** The record is written; what follows is the [sync_all] of the batch. *)
Definition before_sync : SegmentLog * World :=
  Eval vm_compute in after (append_on "loop-1" [sample_event] (one_segment, world (repeat Succeeds 7 ++ [Killed 0]))).

(** An entry that was never stored is delivered.  A subscription that reads
    while an append is between its write and its sync gets the new record; the
    sync fails, [append] reports the error and cuts the record off, and the
    log is empty.  The next append stores another event at the same offset,
    and the subscription, which is past that offset, never delivers it. *)
Theorem uncommitted_entry_delivered : exists s1 s2 sub e,
  append_on "loop-1" [sample_event] (one_segment, world (repeat Succeeds 7 ++ [Fails "EIO" 0])) =
    Some (Err (Io "EIO"), s1) /\
  poll_at 2 (subscription_new 0) (seen before_sync) = Some (Ok (Some (Ready (Some (Ok e)))), (sub, seen before_sync)) /\
  entry_producer_id e = "loop-1" /\ producers (read_all s1) = Some [] /\
  append_on "loop-2" [sample_event] s1 = Some (Ok (offset_new 0), s2) /\
  producers (read_all s2) = Some ["loop-2"] /\
  poll_at 2 sub (seen s2) = Some (Ok (Some Pending), (sub, seen s2)).
Proof.
  do 4 eexists. split; [vm_compute; reflexivity|]. split; [vm_compute; reflexivity|].
  split; [reflexivity|]. split; [vm_compute; reflexivity|]. split; [vm_compute; reflexivity|].
  split; vm_compute; reflexivity.
Qed.

(** The sentinel of a roll is written; its sync and the truncation fail. *)
Definition sentinel_left : SegmentLog * World :=
  Eval vm_compute in after (append_on "loop-1" [sample_event]
    (fresh_log, world (repeat Succeeds 11 ++ [Fails "EIO" 0; Fails "EIO" 0]))).

(** A subscription spins.  When the truncation after a failed roll fails
    too, the active segment ends with a sentinel and has no index and no
    successor.  A subscription at the tail then finds the segment, reads the
    sentinel, finds no next segment, and starts over, without ever waiting:
    no amount of fuel ends the loop of [next_entry]. *)
Theorem sentinel_without_index_spins fuel :
  poll_at fuel (subscription_new 1) (seen sentinel_left) =
    Some (Ok None, (subscription_new 1, seen sentinel_left)).
Proof.
  unfold next_entry, gets, mthen, mget, mok. cbn [fst sub_closed subscription_new].
  induction fuel as [|fuel IH]; [reflexivity|]. cbn [next_loop]. unfold mthen.
  assert (E : @turn event_cbor sum_crc true (subscription_new 1, seen sentinel_left) =
    Some (Ok Continue, (subscription_new 1, seen sentinel_left))) by (vm_compute; reflexivity).
  rewrite E. exact IH.
Qed.
