(* ===== verification/MemLog.v ===== *)
(** The in-memory reference backend (crate [conformance], [mem_log.rs]): an
    instance of the [EventLog] interface, the proof that it keeps the
    contract, and its live subscription as a step relation.

    The clock is a parameter: [now_ns n] is the n-th reading.  The targets are
    64-bit, where [usize::try_from] of a [u64] always succeeds. *)
From stdpp Require Import base gmap strings list option numbers.
From S2P Require Import Prelude EventModel EventLogPort.

(** ** The log *)
Record Inner := {
  entries : list LogEntry;
  earliest_retained : option N;
  clock_reads : N
}.

Definition earliest_available_offset (earliest entries_len : N) : option Offset :=
  if (earliest <? entries_len)%N then Some (offset_new earliest) else None.

(** The retention check every reader starts with: the error it raises. *)
Definition expired (l : Inner) (from : N) : option StorageError :=
  match earliest_retained l with
  | Some earliest =>
      if (from <? earliest)%N
      then Some (RetentionExpired (offset_new from)
                   (earliest_available_offset earliest (len (entries l))))
      else None
  | None => None
  end.

Definition mem_new : Inner := {| entries := []; earliest_retained := None; clock_reads := 0 |}.

Definition evict_below (boundary : Offset) (l : Inner) : Inner :=
  {| entries := entries l;
     earliest_retained := Some (N.min (as_u64 boundary) (len (entries l)));
     clock_reads := clock_reads l |}.

Definition evict_all (l : Inner) : Inner :=
  {| entries := entries l; earliest_retained := Some (len (entries l));
     clock_reads := clock_reads l |}.

Section MemLog.
Variable now_ns : N -> N.

(** The loop of [append]. *)
Fixpoint push_events (start i : N) (producer_id : string) (events : list OtkEvent) (l : Inner) : Inner :=
  match events with
  | [] => l
  | ev :: events =>
      push_events start (i + 1) producer_id events
        {| entries := entries l ++
             [{| offset := offset_new (start + i); appended_at_ns := now_ns (clock_reads l);
                 entry_producer_id := producer_id; event := ev |}];
           earliest_retained := earliest_retained l; clock_reads := clock_reads l + 1 |}
  end.

Definition mem_append (producer_id : string) (events : list OtkEvent) (l : Inner)
  : result Offset StorageError * Inner :=
  if bool_decide (events = []) then (Err (InvalidInput "events slice must not be empty"), l) else
  if bool_decide (producer_id = "") then (Err (InvalidInput "producer_id must not be empty"), l) else
  let start := len (entries l) in
  let l' := push_events start 0 producer_id events l in
  (Ok (offset_new (start + len events - 1)), l').

Definition mem_read_range (from : Offset) (to : option Offset) (l : Inner)
  : result (list LogEntry) StorageError * Inner :=
  match expired l (as_u64 from) with
  | Some e => (Err e, l)
  | None =>
      let from_idx := as_u64 from in
      if (len (entries l) <=? from_idx)%N then (Ok [], l) else
      let to_idx := match to with None => len (entries l) | Some o => as_u64 o end in
      let to_idx := N.min to_idx (len (entries l)) in
      if (to_idx <=? from_idx)%N then (Ok [], l) else
      (Ok (drop (N.to_nat from_idx) (take (N.to_nat to_idx) (entries l))), l)
  end.

Definition mem_latest_offset (l : Inner) : result (option Offset) StorageError * Inner :=
  if bool_decide (entries l = []) then (Ok None, l) else
  match earliest_retained l with
  | Some earliest =>
      if bool_decide (earliest_available_offset earliest (len (entries l)) = None)
      then (Ok None, l) else (Ok (Some (offset_new (len (entries l) - 1))), l)
  | None => (Ok (Some (offset_new (len (entries l) - 1))), l)
  end.

Definition mem_earliest_offset (l : Inner) : result (option Offset) StorageError * Inner :=
  if bool_decide (entries l = []) then (Ok None, l) else
  match earliest_retained l with
  | Some earliest => (Ok (earliest_available_offset earliest (len (entries l))), l)
  | None => (Ok (Some (offset_new 0)), l)
  end.

#[export] Instance mem_log : EventLog Inner := {
  append := mem_append;
  read_range := mem_read_range;
  latest_offset := mem_latest_offset;
  earliest_offset := mem_earliest_offset
}.

(** ** The contract holds *)
Definition mem_rep (l : Inner) (h : list LogEntry) (k : N) : Prop :=
  entries l = h /\ k = default 0%N (earliest_retained l) /\ (k <= len h)%N /\ offsets_ok h.

Lemma push_events_spec start i pid evs l :
  exists times, length times = length evs /\
    entries (push_events start i pid evs l) = entries l ++ batch_entries (start + i) pid times evs /\
    earliest_retained (push_events start i pid evs l) = earliest_retained l.
Proof.
  revert i l. induction evs as [|ev evs IH]; intros i l; simpl.
  - exists []. simpl. by rewrite app_nil_r.
  - edestruct IH as (times & Hl & He & Hr). rewrite He, Hr. clear IH He Hr.
    exists (now_ns (clock_reads l) :: times). simpl. rewrite Hl, <- app_assoc, N.add_assoc. done.
Qed.

Lemma expired_spec l h k from :
  mem_rep l h k ->
  expired l from = if (from <? k)%N
    then Some (RetentionExpired (offset_new from) (if (k <? len h)%N then Some (offset_new k) else None))
    else None.
Proof.
  intros (<- & -> & _). unfold expired, earliest_available_offset.
  destruct (earliest_retained l); simpl; [done|]. by destruct from.
Qed.

Lemma mem_read_spec l h k from to :
  mem_rep l h k ->
  mem_read_range from to l =
    (match expired l (as_u64 from) with Some e => Err e | None => Ok (history_range h from to) end, l).
Proof.
  intros (<- & _ & _). unfold mem_read_range. destruct (expired l (as_u64 from)); [done|].
  unfold history_range. destruct (N.leb_spec (len (entries l)) (as_u64 from)) as [Hle|Hlt].
  { f_equal. f_equal. symmetry. apply drop_ge. destruct to as [o|]; unfold len in *;
      rewrite ?length_take; lia. }
  destruct to as [o|].
  - destruct (N.leb_spec (N.min (as_u64 o) (len (entries l))) (as_u64 from)).
    + f_equal. f_equal. symmetry. apply drop_ge. rewrite length_take. unfold len in *. lia.
    + do 3 f_equal. destruct (decide (as_u64 o <= len (entries l))%N).
      * f_equal. lia.
      * rewrite !take_ge; [done|unfold len in *; lia..].
  - destruct (N.leb_spec (N.min (len (entries l)) (len (entries l))) (as_u64 from)); [lia|].
    do 3 f_equal. apply take_ge. unfold len. lia.
Qed.

Lemma mem_append_spec pid evs l :
  (fst (mem_append pid evs l) = Ok (offset_new (len (entries l) + len evs - 1)) /\
   pid <> "" /\ evs <> [] /\ snd (mem_append pid evs l) = push_events (len (entries l)) 0 pid evs l) \/
  (exists e, mem_append pid evs l = (Err (InvalidInput e), l) /\ (pid = "" \/ evs = [])).
Proof.
  unfold mem_append. case_bool_decide; [right; eauto|]. case_bool_decide; [right; eauto|].
  left. done.
Qed.

Lemma mem_latest_spec l h k :
  mem_rep l h k ->
  mem_latest_offset l = (Ok (if (k <? len h)%N then Some (offset_new (len h - 1)) else None), l).
Proof.
  intros (<- & -> & Hk & _). unfold mem_latest_offset, earliest_available_offset.
  case_bool_decide as He.
  { rewrite He. destruct (earliest_retained l) as [n|]; simpl; [|done].
    by replace (n <? len [])%N with false by (symmetry; apply N.ltb_ge; rewrite len_nil; lia). }
  destruct (earliest_retained l) as [n|]; simpl.
  - destruct (n <? len (entries l))%N; by case_bool_decide.
  - replace (0 <? len (entries l))%N with true; [done|]. symmetry. apply N.ltb_lt.
    destruct (entries l); [done|]. rewrite len_cons. lia.
Qed.

Lemma mem_earliest_spec l h k :
  mem_rep l h k ->
  mem_earliest_offset l = (Ok (if (k <? len h)%N then Some (offset_new k) else None), l).
Proof.
  intros (<- & -> & Hk & _). unfold mem_earliest_offset, earliest_available_offset.
  case_bool_decide as He.
  { rewrite He. destruct (earliest_retained l) as [n|]; simpl; [|done].
    by replace (n <? len [])%N with false by (symmetry; apply N.ltb_ge; rewrite len_nil; lia). }
  destruct (earliest_retained l) as [n|]; simpl; [done|].
  replace (0 <? len (entries l))%N with true; [done|]. symmetry. apply N.ltb_lt.
  destruct (entries l); [done|]. rewrite len_cons. lia.
Qed.

#[export] Instance mem_log_laws : EventLogLaws Inner.
Proof.
  refine {| log_rep := fun _ => mem_rep |}.
  - by intros _ l h k (_ & _ & ? & _).
  - by intros _ l h k (_ & _ & _ & ?).
  - intros sure l h k pid evs o l' (<- & -> & Hk & Hok) Ha. change append with mem_append in Ha.
    destruct (mem_append_spec pid evs l) as [(H1 & ? & ? & H2)|(e & He & _)]; [|congruence].
    rewrite Ha in H1, H2. simplify_eq/=. do 3 (split; [done|]).
    destruct (push_events_spec (len (entries l)) 0 pid evs l) as (times & Hl & He & Hr).
    exists times, (default 0%N (earliest_retained l)). do 2 (split; [done|]). unfold mem_rep.
    rewrite He, Hr, N.add_0_r. do 2 (split; [done|]).
    split; [rewrite len_app; lia|by apply offsets_ok_append].
  - intros sure l h k pid evs e l' Hrep Ha. change append with mem_append in Ha.
    left. destruct (mem_append_spec pid evs l) as [(H1 & _)|(e' & He & _)];
      [by rewrite Ha in H1|]. rewrite He in Ha. by simplify_eq.
  - intros sure l h k from to es l' Hrep Hr. change read_range with mem_read_range in Hr.
    rewrite (mem_read_spec l h k), (expired_spec l h k) in Hr by done.
    destruct (N.ltb_spec (as_u64 from) k); simplify_eq. done.
  - intros sure l h k from to r ea l' Hrep Hr. change read_range with mem_read_range in Hr.
    rewrite (mem_read_spec l h k), (expired_spec l h k) in Hr by done.
    destruct (N.ltb_spec (as_u64 from) k); simplify_eq. by destruct from.
  - intros sure l h k from to e l' Hrep Hr. change read_range with mem_read_range in Hr.
    rewrite (mem_read_spec l h k) in Hr by done. destruct (expired l (as_u64 from)); by simplify_eq.
  - intros sure l h k r l' Hrep Hr. change latest_offset with mem_latest_offset in Hr.
    rewrite (mem_latest_spec l h k) in Hr by done. simplify_eq. split; [done|]. by intros o [= <-].
  - intros sure l h k r l' Hrep Hr. change earliest_offset with mem_earliest_offset in Hr.
    rewrite (mem_earliest_spec l h k) in Hr by done. simplify_eq. split; [done|]. by intros o [= <-].
Defined.

(** ** Operation sequences *)
Inductive MemOp :=
  | OpAppend (producer_id : string) (events : list OtkEvent)
  | OpEvictBelow (boundary : Offset)
  | OpEvictAll.

Definition mem_apply (op : MemOp) (l : Inner) : Inner :=
  match op with
  | OpAppend pid evs => snd (mem_append pid evs l)
  | OpEvictBelow b => evict_below b l
  | OpEvictAll => evict_all l
  end.

(** What a sequence of operations stands for: the accepted events with their
    producers, and the number of evicted ones.  What is evicted stays so. *)
Definition spec_apply (op : MemOp) (s : list (string * OtkEvent) * N) : list (string * OtkEvent) * N :=
  match op with
  | OpAppend pid evs => if bool_decide (pid = "") then s else (fst s ++ ((pid,.) <$> evs), snd s)
  | OpEvictBelow b => (fst s, N.max (snd s) (N.min (as_u64 b) (len (fst s))))
  | OpEvictAll => (fst s, len (fst s))
  end.

(** The eviction helper is not asked to move the boundary back. *)
Definition forward (op : MemOp) (s : list (string * OtkEvent) * N) : Prop :=
  match op with OpEvictBelow b => (snd s <= as_u64 b)%N | _ => True end.

(** The documented answer of [read_range] and [subscribe] on a log of [n] events
    of which the first [k] are evicted: the refusal, if any. *)
Definition documented_refusal (n k : N) (from : Offset) : option StorageError :=
  if (n =? 0)%N then None
  else if (n <=? k)%N then Some (RetentionExpired from None)
  else if (as_u64 from <? k)%N then Some (RetentionExpired from (Some (offset_new k)))
  else None.

(** Everything is evicted, and the reader starts behind it. *)
Definition beyond_evicted (n k : N) (from : Offset) : bool := (n <=? k)%N && (n <=? as_u64 from)%N.

Definition stored (e : LogEntry) : string * OtkEvent := (entry_producer_id e, event e).

Definition mem_abs (l : Inner) (s : list (string * OtkEvent) * N) : Prop :=
  stored <$> entries l = fst s /\ default 0%N (earliest_retained l) = snd s /\
  offsets_ok (entries l) /\ mem_rep l (entries l) (snd s).

Lemma stored_batch next pid times evs :
  length times = length evs -> stored <$> batch_entries next pid times evs = (pid,.) <$> evs.
Proof.
  revert next evs. induction times as [|t times IH]; intros next [|e evs] H; simplify_eq/=; [done|].
  by rewrite IH.
Qed.

Lemma mem_apply_abs op l s : mem_abs l s -> forward op s -> mem_abs (mem_apply op l) (spec_apply op s).
Proof.
  intros (Hs & Hk & Hok & _ & _ & Hle & _) Hf. destruct op as [pid evs|b|]; simpl.
  - destruct (mem_append_spec pid evs l) as [(_ & Hp & Hne & ->)|(e & -> & Hb)].
    + rewrite bool_decide_eq_false_2 by done. cbn [fst snd].
      destruct (push_events_spec (len (entries l)) 0 pid evs l) as (times & Hl & He & Hr).
      rewrite N.add_0_r in He. unfold mem_abs, mem_rep. cbn [fst snd].
      rewrite He, Hr, fmap_app, stored_batch, Hs by done.
      split; [done|]. split; [done|]. split; [by apply offsets_ok_append|].
      do 2 (split; [done|]). split; [rewrite len_app; lia|by apply offsets_ok_append].
    + simpl. case_bool_decide; [done|]. destruct Hb as [?|Hb]; [done|]. subst evs. simpl.
      rewrite app_nil_r. by destruct s.
  - simpl in Hf. rewrite N.max_r by (rewrite <- Hs, len_map; lia).
    unfold mem_abs, mem_rep. simpl. rewrite <- Hs, len_map. split_and!; try done; lia.
  - unfold mem_abs, mem_rep. simpl. rewrite <- Hs, len_map. split_and!; try done; lia.
Qed.

Definition mem_run (ops : list MemOp) : Inner := foldl (fun l op => mem_apply op l) mem_new ops.
Definition spec_run (ops : list MemOp) : list (string * OtkEvent) * N :=
  foldl (fun s op => spec_apply op s) ([], 0%N) ops.

Definition forward_run (ops : list MemOp) : Prop :=
  forall before op after, ops = before ++ op :: after -> forward op (spec_run before).

Lemma mem_run_abs ops : forward_run ops -> mem_abs (mem_run ops) (spec_run ops).
Proof.
  unfold mem_run, spec_run. induction ops as [|op ops IH] using rev_ind; intros Hf.
  - split_and!; try done; apply offsets_ok_nil.
  - rewrite !foldl_app. apply mem_apply_abs; [|by apply (Hf ops op [])].
    apply IH. intros before op' after ->. apply (Hf before op' (after ++ [op])). by rewrite <- app_assoc.
Qed.

(** ** A live subscription

    [MemSubscription::next_entry] runs concurrently with appends and
    evictions.  [SubPc] is where it is: outside a call, before the first
    locked check (step 1), between the check and the registration (step 2),
    registered and before the second check (step 3), or awaiting (step 4).
    [notify_waiters] wakes the future only when it is registered, and stores
    no permit. *)
Inductive SubPc := PcIdle | PcCheck | PcRegister | PcRecheck | PcAwait.

Record Sub := {
  log : Inner;
  cursor : N;
  closed : bool;
  pc : SubPc;
  registered : bool;
  woken : bool;
  (** Results returned so far, oldest first: [None] is the end of the stream. *)
  returned : list (option (result LogEntry StorageError))
}.

Definition subscribe (from : Offset) (l : Inner) : result Sub StorageError :=
  match expired l (as_u64 from) with
  | Some e => Err e
  | None => Ok {| log := l; cursor := as_u64 from; closed := false; pc := PcIdle;
                  registered := false; woken := false; returned := [] |}
  end.

(** The call returns: the future is dropped. *)
Definition return_ (r : option (result LogEntry StorageError)) (cursor' : N) (s : Sub) : Sub :=
  {| log := log s; cursor := cursor'; closed := closed s; pc := PcIdle;
     registered := false; woken := false; returned := returned s ++ [r] |}.

Definition goto (p : SubPc) (registered' woken' : bool) (s : Sub) : Sub :=
  {| log := log s; cursor := cursor s; closed := closed s; pc := p;
     registered := registered'; woken := woken'; returned := returned s |}.

(** One step of the subscriber's own code; [None] when it cannot run. *)
Definition sub_step (s : Sub) : option Sub :=
  match pc s with
  | PcIdle => Some (if closed s then return_ None (cursor s) s else goto PcCheck false false s)
  | PcCheck =>
      match expired (log s) (cursor s) with
      | Some e => Some (return_ (Some (Err e)) (cursor s) s)
      | None =>
          match entries (log s) !! N.to_nat (cursor s) with
          | Some entry => Some (return_ (Some (Ok entry)) (cursor s + 1) s)
          | None => Some (goto PcRegister false false s)
          end
      end
  | PcRegister => Some (goto PcRecheck true false s)
  | PcRecheck =>
      match expired (log s) (cursor s) with
      | Some e => Some (return_ (Some (Err e)) (cursor s) s)
      | None =>
          if (cursor s <? len (entries (log s)))%N then Some (goto PcCheck false false s)
          else if closed s then Some (return_ None (cursor s) s)
          else Some (goto PcAwait true (woken s) s)
      end
  | PcAwait =>
      if woken s then
        Some (if closed s then return_ None (cursor s) s else goto PcCheck false false s)
      else None
  end.

(** [notify_waiters]. *)
Definition notify (l' : Inner) (s : Sub) : Sub :=
  {| log := l'; cursor := cursor s; closed := closed s; pc := pc s;
     registered := registered s; woken := woken s || registered s; returned := returned s |}.

(** [close], which needs exclusive access: no call is in flight. *)
Definition close (s : Sub) : Sub :=
  notify (log s)
    {| log := log s; cursor := cursor s; closed := true; pc := pc s;
       registered := registered s; woken := woken s; returned := returned s |}.

Inductive step : Sub -> Sub -> Prop :=
  | step_sub s s' : sub_step s = Some s' -> step s s'
  | step_append s pid evs o l' :
      mem_append pid evs (log s) = (Ok o, l') -> step s (notify l' s)
  | step_evict_below s b : step s (notify (evict_below b (log s)) s)
  | step_evict_all s : step s (notify (evict_all (log s)) s)
  | step_close s : pc s = PcIdle -> step s (close s)
  (** Another subscription closing rings the shared bell. *)
  | step_other_close s : step s (notify (log s) s)
  (** The caller may drop the pending future. *)
  | step_cancel s : step s (goto PcIdle false false s).

(** Something is there for the subscriber. *)
Definition ready (s : Sub) : Prop :=
  is_Some (expired (log s) (cursor s)) \/ (cursor s < len (entries (log s)))%N.

(** The entries a list of results delivered. *)
Definition delivered (rs : list (option (result LogEntry StorageError))) : list LogEntry :=
  omap (fun r => match r with Some (Ok e) => Some e | _ => None end) rs.

Record sub_inv (from : N) (s : Sub) : Prop := {
  inv_registered : pc s = PcRecheck \/ pc s = PcAwait -> registered s = true;
  inv_no_lost_wakeup : pc s = PcAwait -> woken s = false -> ~ ready s;
  inv_from : (from <= cursor s)%N;
  inv_cursor : cursor s = from \/ (cursor s <= len (entries (log s)))%N;
  inv_delivered : delivered (returned s) =
    take (N.to_nat (cursor s - from)) (drop (N.to_nat from) (entries (log s)))
}.

Lemma delivered_snoc rs r :
  delivered (rs ++ [r]) = delivered rs ++ match r with Some (Ok e) => [e] | _ => [] end.
Proof. unfold delivered. rewrite omap_app. by destruct r as [[]|]. Qed.

Lemma mem_append_extends pid evs l o l' :
  mem_append pid evs l = (Ok o, l') -> exists es, entries l' = entries l ++ es.
Proof.
  destruct (mem_append_spec pid evs l) as [(_ & _ & _ & Hs)|(e & He & _)]; [|congruence].
  intros Ha. rewrite Ha in Hs. simpl in Hs. subst l'.
  destruct (push_events_spec (len (entries l)) 0 pid evs l) as (? & _ & -> & _). eauto.
Qed.

(** Growth of the log keeps the delivered prefix. *)
Lemma notify_inv from s l' es :
  sub_inv from s -> entries l' = entries (log s) ++ es -> sub_inv from (notify l' s).
Proof.
  intros [Hr Hw Hf Hc Hd] He. split; simpl; [done| |done| |].
  - intros Hp Hwk. rewrite Hr in Hwk by auto. by destruct (woken s).
  - rewrite He, len_app. lia.
  - rewrite Hd, He. destruct Hc as [->|Hc].
    + by rewrite N.sub_diag.
    + destruct (decide (N.to_nat from <= length (entries (log s)))).
      * rewrite drop_app_le by done. rewrite take_app_le; [done|].
        rewrite length_drop. unfold len in Hc. lia.
      * unfold len in Hc. lia.
Qed.

Lemma return_inv from s r cursor' :
  sub_inv from s -> (r = None \/ exists e, r = Some (Err e)) -> cursor' = cursor s ->
  sub_inv from (return_ r cursor' s).
Proof.
  intros [Hr Hw Hf Hc Hd] Hrr ->. split; simpl; try done; [by intros [?|?]|].
  rewrite delivered_snoc, Hd. destruct Hrr as [->|[e ->]]; by rewrite app_nil_r.
Qed.

Lemma goto_inv from s p r w :
  sub_inv from s -> (p = PcRecheck \/ p = PcAwait -> r = true) ->
  (p = PcAwait -> w = false -> ~ ready s) -> sub_inv from (goto p r w s).
Proof. intros [Hr Hw Hf Hc Hd] H1 H2. by split. Qed.

Lemma deliver_inv from s e :
  sub_inv from s -> entries (log s) !! N.to_nat (cursor s) = Some e ->
  sub_inv from (return_ (Some (Ok e)) (cursor s + 1) s).
Proof.
  intros [Hr Hw Hf Hc Hd] He. pose proof (lookup_lt_Some _ _ _ He) as Hlt.
  split; simpl; [by intros [?|?]|done|lia|right; unfold len; lia|].
  rewrite delivered_snoc, Hd.
  replace (N.to_nat (cursor s + 1 - from)) with (S (N.to_nat (cursor s - from))) by lia.
  symmetry. apply take_S_r. rewrite lookup_drop.
  by replace (N.to_nat from + N.to_nat (cursor s - from)) with (N.to_nat (cursor s)) by lia.
Qed.

Lemma sub_step_inv from s s' : sub_inv from s -> sub_step s = Some s' -> sub_inv from s'.
Proof.
  intros Hi. unfold sub_step. destruct (pc s) eqn:Hp.
  - destruct (closed s); intros [= <-].
    + apply return_inv; auto.
    + apply goto_inv; [done|by intros [?|?]|done].
  - destruct (expired (log s) (cursor s)) eqn:He; [intros [= <-]; apply return_inv; eauto|].
    destruct (entries (log s) !! N.to_nat (cursor s)) eqn:Hl; intros [= <-].
    + by apply deliver_inv.
    + apply goto_inv; [done|by intros [?|?]|done].
  - intros [= <-]. by apply goto_inv.
  - destruct (expired (log s) (cursor s)) eqn:He; [intros [= <-]; apply return_inv; eauto|].
    destruct (N.ltb_spec (cursor s) (len (entries (log s)))); [|destruct (closed s)]; intros [= <-].
    + apply goto_inv; [done|by intros [?|?]|done].
    + apply return_inv; auto.
    + apply goto_inv; [done|done|]. intros _ _ [[? Hex]|Hlt]; [congruence|lia].
  - destruct (woken s); [|done]. destruct (closed s); intros [= <-].
    + apply return_inv; auto.
    + apply goto_inv; [done|by intros [?|?]|done].
Qed.

Lemma step_inv from s s' : sub_inv from s -> step s s' -> sub_inv from s'.
Proof.
  intros Hi Hs. destruct Hs as [s s' Hs|s pid evs o l' Ha|s b|s|s Hp|s|s].
  - by eapply sub_step_inv.
  - destruct (mem_append_extends _ _ _ _ _ Ha) as [es ?]. by eapply notify_inv.
  - apply (notify_inv _ _ _ []); [done|]. by rewrite app_nil_r.
  - apply (notify_inv _ _ _ []); [done|]. by rewrite app_nil_r.
  - apply (notify_inv _ _ _ []); [|by rewrite app_nil_r]. destruct Hi. by split.
  - apply (notify_inv _ _ _ []); [done|]. by rewrite app_nil_r.
  - apply goto_inv; [done|by intros [?|?]|done].
Qed.

Lemma subscribe_inv from l s : subscribe from l = Ok s -> sub_inv (as_u64 from) s.
Proof.
  unfold subscribe. case_match; [done|]. intros [= <-]. split; simpl; try done; [by intros [?|?]|by left|].
  by rewrite N.sub_diag.
Qed.

Lemma reachable_inv from l s s' :
  subscribe from l = Ok s -> rtc step s s' -> sub_inv (as_u64 from) s'.
Proof.
  intros Hs%subscribe_inv Hr. induction Hr as [|x y z Hxy _ IH]; [done|].
  apply IH. by eapply step_inv.
Qed.

(** ** Properties *)

(** C27: the in-memory log keeps the documented contract of the port, but for
    one case.  After any appends and evictions that do not move the retention
    boundary back it holds exactly the accepted events, in order, at consecutive
    offsets from 0; the newest and the earliest offset are those of the retained
    entries, and [None] when there are none; [read_range] answers the retained
    entries of the range and [subscribe] starts at its offset, or both refuse
    with the documented error.  The case: everything is evicted and the reader
    starts behind the last event.  It is documented as a refusal and answered as
    if the events were retained. *)
Theorem mem_log_refines (ops : list MemOp) (from : Offset) (to : option Offset) :
  forward_run ops ->
  let l := mem_run ops in
  let '(h, k) := spec_run ops in
  let refusal := if beyond_evicted (len h) k from then None else documented_refusal (len h) k from in
  stored <$> entries l = h /\ offsets_ok (entries l) /\
  fst (mem_read_range from to l) =
    match refusal with Some e => Err e | None => Ok (history_range (entries l) from to) end /\
  match refusal with
  | Some e => subscribe from l = Err e
  | None => exists s, subscribe from l = Ok s /\ log s = l /\ cursor s = as_u64 from /\ returned s = []
  end /\
  fst (mem_latest_offset l) = Ok (if (k <? len h)%N then Some (offset_new (len h - 1)) else None) /\
  fst (mem_earliest_offset l) = Ok (if (k <? len h)%N then Some (offset_new k) else None).
Proof.
  intros Hf. destruct (mem_run_abs ops Hf) as (Hs & Hk & Hok & Hrep). cbv zeta.
  destruct (spec_run ops) as [h k]. cbn [fst snd] in *.
  assert (Hlen : len (entries (mem_run ops)) = len h) by by rewrite <- Hs, len_map.
  assert (Hexp : expired (mem_run ops) (as_u64 from) =
    if beyond_evicted (len h) k from then None else documented_refusal (len h) k from).
  { rewrite (expired_spec _ _ _ _ Hrep), Hlen. unfold beyond_evicted, documented_refusal.
    destruct from as [f]. cbn [as_u64]. destruct Hrep as (_ & _ & Hle & _). rewrite Hlen in Hle.
    destruct (N.ltb_spec f k), (N.ltb_spec k (len h)), (N.leb_spec (len h) k), (N.leb_spec (len h) f),
      (N.eqb_spec (len h) 0); simpl; try done; lia. }
  unfold subscribe. rewrite (mem_read_spec _ _ _ _ _ Hrep), Hexp,
    (mem_latest_spec _ _ _ Hrep), (mem_earliest_spec _ _ _ Hrep), Hlen.
  do 2 (split; [done|]). clear Hexp. set (refusal := if beyond_evicted _ _ _ then _ else _).
  destruct refusal; (split; [done|]); (split; [|done]); [done|by eexists].
Qed.

(** C28: no wake-up is lost: a subscriber that is parked without a pending
    wake-up has nothing to read and no retention error to report, whatever the
    interleaving of appends, evictions, closes and cancellations. *)
Theorem subscription_no_lost_wakeup (from : Offset) (l : Inner) (s s' : Sub) :
  subscribe from l = Ok s -> rtc step s s' ->
  pc s' = PcAwait -> ready s' -> woken s' = true.
Proof.
  intros Hs Hr Hp Hready. destruct (woken s') eqn:Hw; [done|].
  by destruct (inv_no_lost_wakeup _ _ (reachable_inv _ _ _ _ Hs Hr) Hp Hw).
Qed.

(** a subscription delivers the entries from its start offset in order,
    without gaps or repetitions: what it has returned is exactly the log
    between its start and its cursor. *)
Theorem subscription_in_order (from : Offset) (l : Inner) (s s' : Sub) :
  subscribe from l = Ok s -> rtc step s s' ->
  delivered (returned s') =
    history_range (entries (log s')) from (Some (offset_new (cursor s'))) /\
  (as_u64 from <= cursor s')%N.
Proof.
  intros Hs Hr. destruct (reachable_inv _ _ _ _ Hs Hr) as [_ _ Hf _ Hd]. split; [|done].
  rewrite Hd. unfold history_range. simpl. rewrite skipn_firstn_comm. f_equal. lia.
Qed.
End MemLog.

(** ** Witnesses *)
Definition sample_now (n : N) : N := (1000 + n)%N.

Definition sample_log : Inner :=
  mem_run sample_now [OpAppend "p" [EvDetection (sample_detection 1 10 None BeamBreak)]].

(** Of two events the first is evicted, then both. *)
Definition sample_retention : list MemOp :=
  [OpAppend "p" [EvDetection (sample_detection 1 10 None BeamBreak)]; OpAppend "" [];
   OpAppend "p" [EvDetection (sample_detection 2 20 None BeamBreak)]; OpEvictBelow (offset_new 1); OpEvictAll].

Lemma sample_forward : forward_run sample_retention.
Proof.
  intros before op after E. do 5 (destruct before as [|? before]; [injection E as <- _; vm_compute; discriminate || exact I|injection E as <- E]).
  by destruct before.
Qed.

Lemma mem_log_refines_witness :
  fst (mem_read_range (offset_new 0) None (mem_run sample_now sample_retention)) =
    Err (RetentionExpired (offset_new 0) None) /\
  fst (mem_read_range (offset_new 2) None (mem_run sample_now sample_retention)) = Ok [].
Proof.
  split.
  - apply (mem_log_refines sample_now sample_retention (offset_new 0) None sample_forward).
  - etransitivity; [apply (mem_log_refines sample_now sample_retention (offset_new 2) None sample_forward)|].
    vm_compute. reflexivity.
Defined.

(** The helper moves the boundary back when asked to, and evicted entries are
    retained again. *)
Example evicted_entry_returns :
  let l := mem_run sample_now sample_retention in
  fst (mem_read_range (offset_new 0) None l) = Err (RetentionExpired (offset_new 0) None) /\
  fst (mem_read_range (offset_new 0) None (evict_below (offset_new 0) l)) = Ok (entries l).
Proof. split; vm_compute; reflexivity. Qed.

Definition sample_sub : Sub :=
  {| log := sample_log; cursor := 1; closed := false; pc := PcIdle; registered := false;
     woken := false; returned := [] |}.

Definition sample_parked : Sub := goto PcAwait true false sample_sub.

Definition sample_woken : Sub :=
  notify (snd (mem_append sample_now "p" [EvDetection (sample_detection 2 20 None BeamBreak)] sample_log))
    sample_parked.

Lemma sample_park_steps : rtc (step sample_now) sample_sub sample_parked.
Proof.
  eapply rtc_l; [by apply step_sub|]. eapply rtc_l; [by apply step_sub|].
  eapply rtc_l; [by apply step_sub|]. eapply rtc_l; [by apply step_sub|]. apply rtc_refl.
Qed.

Lemma sample_woken_steps : rtc (step sample_now) sample_sub sample_woken.
Proof.
  eapply rtc_r; [apply sample_park_steps|].
  apply (step_append _ _ "p" [EvDetection (sample_detection 2 20 None BeamBreak)] (offset_new 1)).
  reflexivity.
Qed.

Lemma subscription_no_lost_wakeup_witness : ready sample_woken /\ woken sample_woken = true.
Proof.
  split; [by right|].
  apply (subscription_no_lost_wakeup sample_now (offset_new 1) sample_log sample_sub sample_woken);
    [reflexivity|apply sample_woken_steps|reflexivity|by right].
Defined.

Lemma subscription_in_order_witness :
  delivered (returned sample_woken) =
    history_range (entries (log sample_woken)) (offset_new 1) (Some (offset_new 1)) /\
  (1 <= cursor sample_woken)%N.
Proof.
  apply (subscription_in_order sample_now (offset_new 1) sample_log sample_sub sample_woken);
    [reflexivity|apply sample_woken_steps].
Defined.
