(* ===== verification/SegmentPort.v ===== *)
(** The segment log behind the storage port: the instance of the [EventLog]
    interface that the node uses, and the proof that it keeps the contract.

    The node runs with [SegmentLogConfig::default()], whose retention is
    [Indefinite], and a release build, where no operation panics.  A roll that
    fails after the commit makes an append report an error with the batch
    stored ([SegmentLogSafety.roll_failure_duplicates]): the store is [sure] as
    long as its rolls succeed, whatever else fails.

    [log_segment_agrees_with_memory]: without I/O failures and without a
    retention limit the segment log answers appends, reads and offset queries
    as the in-memory reference does. *)
From stdpp Require Import base gmap strings option numbers relations list.
From Stdlib Require Import Strings.Byte.
From S2P Require Import Prelude EventModel EventLogPort SegmentFile SegmentFs SegmentLog SegmentLogSafety SegmentLogLayout SegmentLogOpen.
From S2P Require MemLog.

Definition Store : Type := SegmentLog * World.

(** ** The instance *)
Section Instance.
Context `{CborEvent : Cbor OtkEvent} `{Crc : Crc32}.
Variable now : N -> N.

(** An operation of a release build.  The panic does not happen
    ([port_append], [port_read]). *)
Definition port {A} (m : M Store A) (s : Store) : result A StorageError * Store :=
  match m s with
  | Some rs => rs
  | None => (Err (Corrupted "panic"), s)
  end.

(** A [&str] is UTF-8; the strings of the model need not be. *)
Definition segment_append (producer_id : string) (events : list OtkEvent) (s : Store)
  : result Offset StorageError * Store :=
  if utf8_valid (str_bytes producer_id) then port (log_append false now producer_id events) s
  else (Err (InvalidInput "producer_id must be UTF-8"), s).

#[export] Instance segment_log : EventLog Store := {
  append := segment_append;
  read_range from to := port (log_read_range false from to);
  latest_offset := port (log_latest_offset false);
  earliest_offset := port log_earliest_offset
}.

(** One call of the port that may change the store. *)
Inductive called (s : Store) : Store -> Prop :=
  | called_append producer_id events : called s (snd (segment_append producer_id events s))
  | called_read from to : called s (snd (port (log_read_range false from to) s)).

(** Whatever is called, no roll fails: once a batch is committed the rest of
    [append] succeeds. *)
Definition rolls_succeed (s : Store) : Prop :=
  forall s1 producer_id events s2, rtc called s s1 -> utf8_valid (str_bytes producer_id) = true ->
    write_batch now producer_id events s1 = Some (Ok (), s2) ->
    exists o s3, after_batch false now s2 = Some (Ok o, s3).

Lemma rolls_called s s' : called s s' -> rolls_succeed s -> rolls_succeed s'.
Proof. intros Hc Hr s1 pid evs s2 Hs. apply Hr. by eapply rtc_l. Qed.
End Instance.

(** ** What leaves the configuration alone *)
Section Config.
Context `{CborEvent : Cbor OtkEvent} `{Crc : Crc32}.
Variable oc : bool.

(** Reading leaves the disk alone. *)
Class ReadOnly {A} (m : M World A) : Prop :=
  read_only w r w' : m w = Some (r, w') -> disk w' = disk w /\ (prompt w -> prompt w').

#[local] Instance read_only_ok {A} (a : A) : ReadOnly (mok a).
Proof. by intros w r w' [= _ <-]. Qed.
#[local] Instance read_only_err {A} e : ReadOnly (merr (A := A) e).
Proof. by intros w r w' [= _ <-]. Qed.
#[local] Instance read_only_result {A} (r : result A StorageError) : ReadOnly (mresult r).
Proof. by intros w r' w' [= _ <-]. Qed.
#[local] Instance read_only_opt {A} (o : option A) : ReadOnly (mopt o).
Proof. destruct o; [apply read_only_ok|done]. Qed.
#[local] Instance read_only_then {A B} (m : M World A) (f : A -> M World B) :
  ReadOnly m -> (forall a, ReadOnly (f a)) -> ReadOnly (mthen m f).
Proof.
  intros Hm Hf w r w'. unfold mthen. destruct (m w) as [[[a|e] w1]|] eqn:E; [..|done].
  - intros E2. destruct (Hf a _ _ _ E2) as [-> Hp2], (Hm _ _ _ E) as [-> Hp1]. auto.
  - intros [= _ <-]. by eapply Hm.
Qed.
Lemma read_only_io {A} (act : gmap string bytes -> result (A * gmap string bytes) StorageError) :
  (forall d a d', act d = Ok (a, d') -> d' = d) -> ReadOnly (io_call no_part act).
Proof.
  intros Ha [d sch dd c ca] r w'.
  assert (Hpr : forall f sch dd' d', prompt {| disk := d; schedule := f :: sch; dead := dd; clock := c; cache := ca |} ->
    prompt {| disk := d'; schedule := sch; dead := dd'; clock := c; cache := ca |})
    by (intros f sch0 dd' d' [Hf Hu]; apply Forall_cons in Hf as [_ Hf]; done).
  unfold io_call, io_mark, next_fault. cbn [dead schedule].
  destruct dd; [by intros [= _ <-]|]. destruct sch as [|[|e n|n|e n] sch]; cbn [disk];
    try (by intros [= _ <-]; eauto); (destruct (act d) as [[a d']|e'] eqn:E; intros [= _ <-]; [|by eauto]);
    split; eauto; exact (Ha _ _ _ E).
Qed.
#[local] Instance read_only_open name : ReadOnly (fs_open name).
Proof. apply read_only_io. intros d a d'. destruct (d !! name); by intros [= <-]. Qed.
#[local] Instance read_only_read name : ReadOnly (fs_read name).
Proof. apply read_only_io. intros d a d'. destruct (d !! name); by intros [= _ <-]. Qed.
#[local] Hint Extern 2 (ReadOnly (match ?x with _ => _ end)) => destruct x : typeclass_instances.

#[local] Instance read_only_offsets n path base ps o es : ReadOnly (read_offsets oc n path base ps o es).
Proof. revert o es. induction n; intros o es; cbn [read_offsets]; unfold read_record_at; apply _. Qed.
#[local] Instance read_only_closed from to segs es : ReadOnly (read_closed oc from to segs es).
Proof. revert es. induction segs; intros es; cbn [read_closed]; apply _. Qed.

(** [read_range] moves the cursor of the active segment, at most. *)
Definition only_read (l : SegmentLog) (w : World) (s' : Store) : Prop :=
  disk (snd s') = disk w /\ (fst s' = l \/ fst s' = map_active (fun a => set_cursor a None) l).

Lemma wp_read_only {A} (m : M World A) w : ReadOnly m -> wp True m (fun _ w' => disk w' = disk w) w.
Proof.
  intros Hm. unfold wp. destruct (m w) as [[r w']|] eqn:E; [|done]. destruct (Hm _ _ _ E). by auto.
Qed.

Lemma log_read_range_only from to l w :
  wp True (log_read_range oc from to) (fun _ s' => only_read l w s') (l, w).
Proof.
  assert (Hsame : only_read l w (l, w)) by (split; [done|by left]).
  unfold log_read_range. apply wp_getl_then.
  destruct (from_option _ _ _); [done|]. destruct (_ <=? _)%N; [done|]. destruct (is_fully_evicted l); [done|].
  eapply wp_then with (Q := fun _ s' => s' = (l, w)).
  { destruct (earliest_offset_raw l); [|done]. by destruct (_ <? _)%N. }
  2:{ by intros e s' ->. }
  intros _ s' ->. eapply wp_fs_then; [by apply wp_read_only, _|..].
  2:{ intros e w1 Hd. split; [done|by left]. }
  intros entries w1 Hd1. assert (Hsame1 : only_read l w (l, w1)) by (split; [done|by left]).
  destruct (active l) as [a|]; [|done]. unfold read_active.
  destruct (_ || _); [done|]. apply wp_opt_then; [done|]. intros e _. destruct (_ <=? _)%N; [done|].
  apply wp_modl_then, wp_fs. eapply wp_mono; [by apply wp_read_only, _|]. intros r w2 Hd2.
  split; [simpl; congruence|by right].
Qed.

(** A log that is opened runs with the configuration it was given. *)
Lemma mthen_ok {S A B} (m : M S A) (f : A -> M S B) s b s' :
  mthen m f s = Some (Ok b, s') -> exists a s1, m s = Some (Ok a, s1) /\ f a s1 = Some (Ok b, s').
Proof. unfold mthen. destruct (m s) as [[[a|e] s1]|]; [|done..]. by exists a, s1. Qed.

Lemma log_open_config now cfg w l w' : log_open oc now cfg w = Some (Ok l, w') -> config l = cfg.
Proof.
  unfold log_open. do 3 (intros (? & ? & _ & E)%mthen_ok; revert E). case_match. case_match.
  intros (wm & w1 & _ & E)%mthen_ok. by injection E as <- _.
Qed.
End Config.

(** ** The contract *)
Section Contract.
Context `{CborEvent : Cbor OtkEvent} `{Crc : Crc32} `{!CborLaws OtkEvent} `{!Crc32Laws}.
Variable now : N -> N.
Hypothesis now_u64 : forall n, wf_u64 (now n).

Abbreviation run_append := (@segment_append CborEvent Crc now).
Abbreviation rolls := (@rolls_succeed CborEvent Crc now).

(** Nothing is evicted from a log with something in it. *)
Definition store_rep (sure : bool) (s : Store) (h : list LogEntry) (k : N) : Prop :=
  seg_inv false s h k /\ retention (config (fst s)) = Indefinite /\ ((k < len h)%N \/ h = []) /\
  prompt (snd s) /\ (sure = true -> rolls s).

(** An error is that of a batch not stored, or that of the roll after it. *)
Lemma port_append pid events sure (l : SegmentLog) w h k :
  utf8_valid (str_bytes pid) = true -> store_rep sure (l, w) h k ->
  let (r, s') := port (log_append false now pid events) (l, w) in
  prompt (snd s') /\ config (fst s') = config l /\
  ((exists e, r = Err e /\ seg_inv false s' h k /\ batch_error l w (len h) pid events e) \/
   (exists ts, events <> [] /\ pid <> "" /\ seg_inv false s' (h ++ batch pid ts (len h) events) k /\
      match r with
      | Ok o => as_u64 o = (len h + len events - 1)%N
      | Err e => sure = false /\ io_error (A := ()) w (Err e)
      end)).
Proof.
  intros Hpid (Hinv & Hret & _ & Hpr & Hrolls). simpl in Hret, Hpr.
  pose proof (write_batch_spec false now now_u64 l w h k pid events Hpid Hinv) as Hw.
  unfold port. rewrite append_commit. unfold mthen.
  destruct (write_batch now pid events (l, w)) as [[[[]|e] [l1 w1]]|] eqn:Ew;
    [..|specialize (Hw Hpr); by rewrite Ew in Hw].
  - destruct (wp_inv _ _ _ _ _ Ew Hpr Hw) as (Hp1 & ts & Hl1 & Hc1 & Hts & Hev & Hne & Hi1 & Hend).
    simpl in Hl1, Hc1, Hend.
    assert (Hpos : (1 <= len events)%N) by (destruct events; [done|rewrite len_cons; lia]).
    assert (Hne2 : h ++ batch pid ts (len h) events <> []).
    { intros E. apply (f_equal len) in E. rewrite len_app, len_batch, len_nil in E. lia. }
    pose proof (after_batch_spec false now l1 w1 _ k Hi1 Hend Hne2) as Ha.
    destruct (after_batch false now (l1, w1)) as [[r s3]|] eqn:E3; [|specialize (Ha Hp1); by rewrite E3 in Ha].
    destruct (wp_inv _ _ _ _ _ E3 Hp1 Ha) as (Hp3 & _ & Hio & Hc3 & (k' & [_ Hk'] & Hi3) & Ho).
    rewrite Hc1 in Hk'. rewrite (Hk' Hret) in Hi3. split; [done|]. split; [congruence|]. right.
    exists ts. do 3 (split; [done|]). destruct r as [o|e].
    + rewrite (Ho o eq_refl), len_app, len_batch. lia.
    + split; [|by eapply io_error_as, io_error_later].
      destruct sure; [|done]. destruct (Hrolls eq_refl _ _ _ _ (rtc_refl _ _) Hpid Ew) as (o & s4 & E4). congruence.
  - destruct (wp_inv _ _ _ _ _ Ew Hpr Hw) as (Hp1 & ts & _ & Hc1 & Hi1 & He). split; [done|]. split; [done|].
    left. by exists e.
Qed.

Lemma port_read from to (l : SegmentLog) w h k :
  seg_inv false (l, w) h k -> prompt w ->
  let (r, s') := port (log_read_range false from to) (l, w) in
  seg_inv false s' h k /\ config (fst s') = config l /\ prompt (snd s') /\
  (r = read_spec h k from to \/ exists e, r = Err (Io e) /\ ~ faultless w).
Proof.
  intros Hinv Hpr. pose proof (log_read_range_spec false l w h k from to Hinv Hpr) as Hr.
  pose proof (log_read_range_only false from to l w Hpr) as Ho. unfold port.
  destruct (log_read_range false from to (l, w)) as [[r s']|]; [|done].
  destruct Hr as (Hp & _ & Hi & Hr), Ho as [_ Ho]. split; [done|]. split; [by destruct Ho as [_ [->| ->]]|].
  split; [exact Hp|]. destruct Hr as [->|(e & -> & He)]; [by left|]. right.
  destruct (He e eq_refl) as (kd & -> & Hh & _). by exists kd.
Qed.

(** What the tests of [read_range] leave of the history. *)
Lemma read_spec_ok h k from to es :
  read_spec h k from to = Ok es -> es = history_range h from to /\ (es <> [] -> (k <= as_u64 from)%N).
Proof.
  unfold read_spec. destruct (from_option _ _ _) eqn:Hto.
  { intros [= <-]. split; [|done]. destruct to as [o|]; [|done]. apply N.leb_le in Hto.
    symmetry. apply drop_ge. rewrite length_take. lia. }
  destruct (N.leb_spec (len h) (as_u64 from)) as [Hge|Hlt].
  { intros [= <-]. split; [|done]. symmetry. apply drop_ge. unfold len in Hge.
    destruct to; rewrite ?length_take; lia. }
  destruct (N.ltb_spec (as_u64 from) k); [done|]. by intros [= <-].
Qed.

Lemma store_step sure s s' h k h' k' :
  store_rep sure s h k -> called now s s' -> seg_inv false s' h' k' -> config (fst s') = config (fst s) ->
  prompt (snd s') -> (k' < len h')%N \/ h' = [] -> store_rep sure s' h' k'.
Proof.
  intros (_ & Hret & _ & _ & Hr) Hc Hi Hcf Hp Hk. split; [done|]. split; [congruence|]. do 2 (split; [done|]).
  intros E. eapply rolls_called; eauto.
Qed.

Lemma segment_append_spec pid events sure s h k :
  store_rep sure s h k ->
  let (r, s') := run_append pid events s in
  (is_ok r = false /\ store_rep sure s' h k) \/
  (exists ts, events <> [] /\ pid <> "" /\ store_rep sure s' (h ++ batch pid ts (len h) events) k /\
     match r with Ok o => as_u64 o = (len h + len events - 1)%N | Err _ => sure = false end).
Proof.
  intros Hrep. pose proof Hrep as (_ & _ & Hk & _). pose proof (called_append now s pid events) as Hcall.
  unfold segment_append in *.
  destruct (utf8_valid (str_bytes pid)) eqn:Hpid; [|by left]. destruct s as [l w].
  pose proof (port_append pid events sure l w h k Hpid Hrep) as Hp.
  destruct (port _ _) as [r s']; simpl in Hcall.
  destruct Hp as (Hp & Hc & [(e & -> & Hi & _)|(ts & Hev & Hne & Hi & Ho)]); [left|right].
  - split; [done|]. by eapply store_step.
  - exists ts. do 2 (split; [done|]). split; [|destruct r; [done|apply Ho]].
    eapply store_step; [exact Hrep|exact Hcall|done..|].
    left. rewrite len_app, len_batch. destruct Hrep as ((_ & _ & _ & m & Hm & Hch%chain_bounds & _) & _).
    destruct events; [done|]. rewrite len_cons. lia.
Qed.

Lemma segment_read_spec from to sure s h k :
  store_rep sure s h k ->
  let (r, s') := port (log_read_range false from to) s in
  store_rep sure s' h k /\ (r = read_spec h k from to \/ exists e, r = Err (Io e) /\ ~ faultless (snd s)).
Proof.
  intros Hrep. pose proof Hrep as (Hinv & _ & Hk & Hpr & _). pose proof (called_read now s from to) as Hcall.
  destruct s as [l w]. pose proof (port_read from to l w h k Hinv Hpr) as Hp.
  destruct (port _ _) as [r s']. destruct Hp as (Hi & Hc & Hp' & Hr). split; [|done].
  by eapply store_step.
Qed.

Lemma store_offsets sure s h k :
  store_rep sure s h k ->
  port (log_latest_offset false) s = (Ok (if (k <? len h)%N then Some (offset_new (len h - 1)) else None), s) /\
  port log_earliest_offset s = (Ok (if (k <? len h)%N then Some (offset_new k) else None), s).
Proof.
  intros (Hinv & _ & Hk & _). destruct s as [l w]. unfold port, log_latest_offset, log_earliest_offset.
  rewrite !mthen_getl. cbn [fst]. unfold mthen, mopt, mok.
  rewrite (latest_offset_spec false l w h k Hinv), (earliest_offset_spec false l w h k Hinv).
  assert (E : (0 <? len h)%N = (k <? len h)%N).
  { destruct Hk as [Hk| ->]; [|by destruct k]. rewrite !(proj2 (N.ltb_lt _ _)); [done|lia..]. }
  rewrite E. by destruct (k <? len h)%N.
Qed.

#[export] Instance segment_log_laws : @EventLogLaws Store (@segment_log CborEvent Crc now).
Proof.
  refine {| log_rep := store_rep |}.
  - intros sure [l w] h k ((_ & _ & _ & m & Hm & Hch%chain_bounds & _) & _). lia.
  - intros sure [l w] h k ((_ & _ & Ho & _) & _). exact Ho.
  - intros sure s h k pid evs o s' Hrep Ha. pose proof (segment_append_spec pid evs sure s h k Hrep) as Hs.
    change append with run_append in Ha. rewrite Ha in Hs. destruct Hs as [[[=] _]|(ts & ? & ? & Hrep' & ?)].
    do 3 (split; [done|]). exists (repeat ts (length evs)), k. split; [apply repeat_length|]. split; [lia|exact Hrep'].
  - intros sure s h k pid evs e s' Hrep Ha. pose proof (segment_append_spec pid evs sure s h k Hrep) as Hs.
    change append with run_append in Ha. rewrite Ha in Hs. destruct Hs as [[_ Hrep']|(ts & ? & ? & Hrep' & ->)]; [by left|].
    right. split; [done|]. exists (repeat ts (length evs)), k. split; [apply repeat_length|]. split; [lia|exact Hrep'].
  - intros sure s h k from to es s' Hrep Ha. pose proof (segment_read_spec from to sure s h k Hrep) as Hs.
    change read_range with (fun from to => port (log_read_range false from to)) in Ha. cbv beta in Ha.
    rewrite Ha in Hs. destruct Hs as [Hrep' [E|(e & [= ] & _)]]. split; [done|].
    symmetry in E. by apply read_spec_ok.
  - intros sure s h k from to r ea s' Hrep Ha. pose proof (segment_read_spec from to sure s h k Hrep) as Hs.
    change read_range with (fun from to => port (log_read_range false from to)) in Ha. cbv beta in Ha.
    rewrite Ha in Hs. destruct Hs as [Hrep' [E|(e & [= ] & _)]]. split; [done|].
    unfold read_spec in E. destruct (from_option _ _ _); [done|]. destruct (_ <=? _)%N; [done|].
    destruct (N.ltb_spec (as_u64 from) k); [|done]. by injection E as -> ->.
  - intros sure s h k from to e s' Hrep Ha. pose proof (segment_read_spec from to sure s h k Hrep) as Hs.
    change read_range with (fun from to => port (log_read_range false from to)) in Ha. cbv beta in Ha.
    rewrite Ha in Hs. apply Hs.
  - intros sure s h k r s' Hrep Ha. change latest_offset with (port (log_latest_offset false)) in Ha.
    destruct (store_offsets sure s h k Hrep) as [E _]. rewrite E in Ha. simplify_eq. split; [done|]. by intros o [= <-].
  - intros sure s h k r s' Hrep Ha. change earliest_offset with (port log_earliest_offset) in Ha.
    destruct (store_offsets sure s h k Hrep) as [_ E]. rewrite E in Ha. simplify_eq. split; [done|]. by intros o [= <-].
Qed.
End Contract.

(** ** Nothing is poisoned while nothing fails

    [Calm m]: where no call is scheduled to fail, [m] schedules none and leaves
    the poison mark of the log alone. *)
Section Calm.
Context `{CborEvent : Cbor OtkEvent} `{Crc : Crc32}.

Class Steady {A} (m : M World A) : Prop :=
  steady w r w' : healthy w -> m w = Some (r, w') -> healthy w'.

Class Calm {A} (m : M Store A) : Prop :=
  calm s r s' : healthy (snd s) -> m s = Some (r, s') ->
    healthy (snd s') /\ poisoned (fst s') = poisoned (fst s).

#[local] Instance steady_ok {A} (a : A) : Steady (mok a).
Proof. by intros w r w' Hw [= _ <-]. Qed.
#[local] Instance steady_err {A} e : Steady (merr (A := A) e).
Proof. by intros w r w' Hw [= _ <-]. Qed.
#[local] Instance steady_result {A} (r : result A StorageError) : Steady (mresult r).
Proof. by intros w r' w' Hw [= _ <-]. Qed.
#[local] Instance steady_opt {A} (o : option A) : Steady (mopt o).
Proof. destruct o; [apply steady_ok|done]. Qed.
#[local] Instance steady_io {A} mp mk part (act : gmap string bytes -> result (A * gmap string bytes) StorageError) :
  Reports mk -> Steady (io_mark mp mk part act).
Proof.
  intros Hmk [d sch dd c ca] r w1 [[Hs Hd] Hu]. simpl in Hs, Hd, Hu. subst. unfold io_mark, next_fault. cbn [dead schedule disk].
  destruct (act d) as [[a d1]|e]; intros [= _ <-]; [|done]. split; [done|]. by apply reports.
Qed.
#[local] Instance steady_write name pos data : Steady (fs_write name pos data).
Proof.
  intros w r w' Hw. rewrite fs_write_prompt by by apply healthy_prompt. revert Hw. apply steady_io, _.
Qed.
#[local] Instance steady_now readings : Steady (now_ns readings).
Proof. by intros w r w' Hw [= _ <-]. Qed.
#[local] Instance steady_try {A} (m : M World A) : Steady m -> Steady (mtry m).
Proof. intros Hm w r w' Hw. unfold mtry. destruct (m w) as [[a w1]|] eqn:E; [|done]. intros [= _ <-]. by eapply Hm. Qed.
#[local] Instance steady_then {A B} (m : M World A) (f : A -> M World B) :
  Steady m -> (forall a, Steady (f a)) -> Steady (mthen m f).
Proof.
  intros Hm Hf w r w' Hw. unfold mthen. destruct (m w) as [[[a|e] w1]|] eqn:E; [..|done].
  - apply Hf. by eapply Hm.
  - intros [= _ <-]. by eapply Hm.
Qed.

#[local] Instance calm_ok {A} (a : A) : Calm (mok a).
Proof. by intros s r s' Hw [= _ <-]. Qed.
#[local] Instance calm_err {A} e : Calm (merr (A := A) e).
Proof. by intros s r s' Hw [= _ <-]. Qed.
#[local] Instance calm_opt {A} (o : option A) : Calm (mopt o).
Proof. destruct o; [apply calm_ok|done]. Qed.
#[local] Instance calm_getl : Calm getl.
Proof. by intros s r s' Hw [= _ <-]. Qed.
#[local] Instance calm_fs {A} (m : M World A) : Steady m -> Calm (fs m).
Proof.
  intros Hm s r s' Hw. unfold fs, on_right. destruct (m (snd s)) as [[a w]|] eqn:E; [|done].
  intros [= _ <-]. split; [by eapply Hm|done].
Qed.
#[local] Instance calm_try {A} (m : M Store A) : Calm m -> Calm (mtry m).
Proof. intros Hm s r s' Hw. unfold mtry. destruct (m s) as [[a s1]|] eqn:E; [|done]. intros [= _ <-]. by eapply Hm. Qed.
#[local] Instance calm_then {A B} (m : M Store A) (f : A -> M Store B) :
  Calm m -> (forall a, Calm (f a)) -> Calm (mthen m f).
Proof.
  intros Hm Hf s r s' Hw. unfold mthen. destruct (m s) as [[[a|e] s1]|] eqn:E; [..|done].
  - destruct (Hm _ _ _ Hw E) as [Hw1 Hp1]. intros E2. destruct (Hf a _ _ _ Hw1 E2) as [Hw2 Hp2].
    split; [done|congruence].
  - intros [= _ <-]. by apply (Hm _ _ _ Hw E).
Qed.
Lemma calm_modl g : (forall l, poisoned (g l) = poisoned l) -> Calm (modl g).
Proof. intros Hg s r s' Hw [= _ <-]. split; [done|]. apply Hg. Qed.
#[local] Hint Extern 1 (Calm (modl _)) => apply calm_modl; intros; reflexivity : typeclass_instances.
#[local] Hint Extern 2 (Calm (match ?x with _ => _ end)) => destruct x : typeclass_instances.
#[local] Hint Extern 2 (Steady (match ?x with _ => _ end)) => destruct x : typeclass_instances.

Variable oc : bool.
Variable now : N -> N.

#[local] Instance steady_fsync : Steady fsync_dir.
Proof. unfold fsync_dir. apply _. Qed.

#[local] Instance steady_write_record path cur entry : Steady (write_record_at path cur entry).
Proof. unfold write_record_at. apply _. Qed.
#[local] Instance steady_read_record path pos : Steady (read_record_at oc path pos).
Proof. unfold read_record_at. apply _. Qed.
#[local] Instance steady_append_events pid ts path start evs cur next nps :
  Steady (append_events pid ts path start evs cur next nps).
Proof. revert cur next nps. induction evs; intros cur next nps; cbn [append_events]; apply _. Qed.
#[local] Instance steady_read_offsets n path base ps o es : Steady (read_offsets oc n path base ps o es).
Proof. revert o es. induction n; intros o es; cbn [read_offsets]; apply _. Qed.
#[local] Instance steady_read_closed from to segs es : Steady (read_closed oc from to segs es).
Proof. revert es. induction segs; intros es; cbn [read_closed]; apply _. Qed.
#[local] Instance steady_write_index base ps : Steady (write_index base ps).
Proof. unfold write_index. apply _. Qed.
#[local] Instance steady_write_watermark n : Steady (write_watermark n).
Proof. unfold write_watermark. apply _. Qed.
#[local] Instance steady_delete_segment a b : Steady (delete_segment a b).
Proof. unfold delete_segment. apply _. Qed.

#[local] Instance calm_seek pos : Calm (seek_active pos).
Proof. unfold seek_active. apply _. Qed.
#[local] Instance calm_ensure : Calm (ensure_active now).
Proof. unfold ensure_active. apply _. Qed.
#[local] Instance calm_evict_older cutoff segs : Calm (evict_older cutoff segs).
Proof. induction segs; cbn [evict_older]; unfold pop_front; apply _. Qed.
#[local] Instance calm_evict_larger max total segs : Calm (evict_larger max total segs).
Proof. revert total. induction segs; intros total; cbn [evict_larger]; unfold pop_front; apply _. Qed.
#[local] Instance calm_retention : Calm (enforce_retention oc now).
Proof. unfold enforce_retention, enforce_age, enforce_size. apply _. Qed.
#[local] Instance calm_undo path pos : Calm (undo_sentinel path pos).
Proof. unfold undo_sentinel. apply _. Qed.
#[local] Instance calm_roll : Calm (roll_segment oc now).
Proof. unfold roll_segment, roll_active, close_active. apply _. Qed.
#[local] Instance calm_should_roll : Calm (should_roll now).
Proof. unfold should_roll. apply _. Qed.
#[local] Instance calm_sync path start : Calm (sync_batch path start).
Proof. unfold sync_batch. apply _. Qed.

(** The one place that sets the mark needs a call to fail. *)
#[local] Instance calm_query path cur : Calm (query_position path cur).
Proof.
  intros [l [d sch dd c ca]] r s' [[Hs Hd] Hu]. simpl in Hs, Hd, Hu. subst. intros E. injection E as <- <-. done.
Qed.

#[local] Instance calm_write_batch pid evs : Calm (write_batch now pid evs).
Proof. unfold write_batch, write_active. apply _. Qed.

#[export] Instance calm_append pid evs : Calm (log_append oc now pid evs).
Proof. unfold log_append. apply _. Qed.

#[export] Instance calm_read from to : Calm (log_read_range oc from to).
Proof. unfold log_read_range, read_active. apply _. Qed.
End Calm.

(** ** A store on a disk where nothing fails *)
Section Healthy.
Context `{CborEvent : Cbor OtkEvent} `{Crc : Crc32} `{!CborLaws OtkEvent} `{!Crc32Laws}.
Variable now : N -> N.
Hypothesis now_u64 : forall n, wf_u64 (now n).

Definition sound (s : Store) : Prop := (exists h k, seg_inv false s h k) /\ healthy (snd s).

Lemma called_sound s s' : called now s s' -> sound s -> sound s'.
Proof.
  destruct s as [l w]. intros Hc ((h & k & Hinv) & Hh). simpl in Hh.
  pose proof (healthy_prompt _ Hh) as Hpr. destruct Hc as [pid evs|from to].
  - unfold segment_append. destruct (utf8_valid (str_bytes pid)) eqn:Hpid; [|by split; [exists h, k|]].
    pose proof (log_append_spec false now now_u64 l w h k pid evs Hpid Hinv Hpr) as Hw. unfold port.
    destruct (log_append false now pid evs (l, w)) as [[r s']|]; [|done]. destruct Hw as (Hp & Hl & Hout).
    split; [|by eapply later_healthy]. destruct Hout as [(e & _ & Hi & _)|(ts & k' & _ & _ & _ & _ & Hi & _)]; by do 2 eexists.
  - pose proof (log_read_range_spec false l w h k from to Hinv Hpr) as Hw. unfold port.
    destruct (log_read_range false from to (l, w)) as [[r s']|]; [|done]. destruct Hw as (Hp & Hl & Hi & _).
    split; [by exists h, k|by eapply later_healthy].
Qed.

Lemma sound_rolls s : sound s -> rolls_succeed now s.
Proof.
  intros Hs s1 pid evs s2 Hrtc Hpid Ew.
  assert (Hs1 : sound s1) by (revert Hs; induction Hrtc; eauto using called_sound).
  destruct s1 as [l w], Hs1 as ((h & k & Hinv) & Hh). pose proof (healthy_prompt _ Hh) as Hpr.
  destruct (wp_inv _ _ _ _ _ Ew Hpr (write_batch_spec false now now_u64 l w h k pid evs Hpid Hinv))
    as (Hp2 & ts & Hl & _ & _ & Hev & _ & Hi & Hend).
  assert (Hne : h ++ batch pid ts (len h) evs <> []).
  { intros E. apply (f_equal len) in E. rewrite len_app, len_batch, len_nil in E. apply Hev, len_zero_nil. lia. }
  destruct s2 as [l2 w2]. pose proof (after_batch_spec false now l2 w2 _ k Hi Hend Hne Hp2) as Ha.
  destruct (after_batch false now (l2, w2)) as [[[o|e] s3]|]; [by exists o, s3| |done].
  destruct Ha as (_ & _ & Hio & _). destruct (io_error_never _ _ Hio). by apply Hl, Hh.
Qed.

(** The default configuration keeps everything. *)
Definition working (s : Store) (h : list LogEntry) : Prop :=
  seg_inv false s h 0 /\ retention (config (fst s)) = Indefinite /\ healthy (snd s) /\ poisoned (fst s) = false.

Lemma working_rep sure s h : working s h -> store_rep now sure s h 0.
Proof.
  intros (Hi & Hr & Hh & _). split; [done|]. split; [done|]. split.
  - destruct h; [by right|left]. rewrite len_cons. lia.
  - split; [by apply healthy_prompt|]. intros _. apply sound_rolls. split; [by do 2 eexists|done].
Qed.
End Healthy.

(** ** The two backends, seen through the port *)

Inductive PortOp :=
  | PAppend (producer_id : string) (events : list OtkEvent)
  | PRead (from : Offset) (to : option Offset)
  | PLatest
  | PEarliest.

(** An entry without the time of its append. *)
Definition untimed (e : LogEntry) : Offset * string * OtkEvent := (offset e, entry_producer_id e, event e).

Inductive PortAnswer :=
  | AnOffset (r : result Offset StorageError)
  | AnEntries (r : result (list (Offset * string * OtkEvent)) StorageError)
  | AnBound (r : result (option Offset) StorageError).

Definition port_answer `{EventLog L} (op : PortOp) (l : L) : PortAnswer * L :=
  match op with
  | PAppend pid evs => let (r, l) := append pid evs l in (AnOffset r, l)
  | PRead from to =>
      let (r, l) := read_range from to l in (AnEntries (let? es := r in Ok (untimed <$> es)), l)
  | PLatest => let (r, l) := latest_offset l in (AnBound r, l)
  | PEarliest => let (r, l) := earliest_offset l in (AnBound r, l)
  end.

Fixpoint port_answers `{EventLog L} (ops : list PortOp) (l : L) : list PortAnswer :=
  match ops with
  | [] => []
  | op :: ops => let (a, l) := port_answer op l in a :: port_answers ops l
  end.

(** The events an operation brings. *)
Definition brought (op : PortOp) : N := match op with PAppend _ evs => len evs | _ => 0%N end.

Lemma untimed_batch next pid t1 t2 evs :
  length t1 = length evs -> length t2 = length evs ->
  untimed <$> batch_entries next pid t1 evs = untimed <$> batch_entries next pid t2 evs.
Proof.
  revert next t1 t2. induction evs as [|e evs IH]; intros next [|a t1] [|b t2] H1 H2; simplify_eq/=; [done|].
  by rewrite (IH _ t1 t2).
Qed.

Lemma untimed_range h h' from to :
  untimed <$> h = untimed <$> h' -> untimed <$> history_range h from to = untimed <$> history_range h' from to.
Proof.
  intros E. unfold history_range. rewrite !fmap_drop. destruct to; by rewrite ?fmap_take, E.
Qed.

Section Backends.
Context `{CborEvent : Cbor OtkEvent} `{Crc : Crc32} `{!CborLaws OtkEvent} `{!Crc32Laws}.
Variable now mem_now : N -> N.
Hypothesis now_u64 : forall n, wf_u64 (now n).

(** An event that fits in a record. *)
Definition storable (ev : OtkEvent) : Prop :=
  exists cbor, cbor_to_vec ev = Ok cbor /\ (len cbor <= MAX_EVENT_CBOR)%N.

Definition op_storable (op : PortOp) : Prop :=
  match op with
  | PAppend pid evs => utf8_valid (str_bytes pid) = true /\
      (len (str_bytes pid) <= MAX_PRODUCER_ID_BYTES)%N /\ Forall storable evs
  | _ => True
  end.

Lemma storable_accepted pid ts next evs e :
  pid <> "" -> (len (str_bytes pid) <= MAX_PRODUCER_ID_BYTES)%N -> Forall storable evs ->
  (next + len evs <= u64_max)%N -> ~ refused pid ts next evs e.
Proof.
  intros Hpid Hlen Hev Hu [Hlt|(i & ev & Hi & He)]; [lia|].
  destruct (Forall_lookup_1 _ _ _ _ Hev Hi) as (cbor & Hc & Hcl). unfold encode_record, batch_entry in He.
  cbn [event entry_producer_id] in He. rewrite Hc in He. cbn [map_err] in He.
  rewrite (proj2 (N.ltb_ge _ _)) in He by done. rewrite bool_decide_eq_false_2 in He.
  2:{ intros E. apply Hpid. by destruct pid. }
  by rewrite (proj2 (N.ltb_ge _ _)) in He.
Qed.

(** The segment log and the in-memory log hold the same entries. *)
Definition agree (s : Store) (m : MemLog.Inner) (n : N) : Prop :=
  exists h hm, working s h /\ MemLog.mem_rep m hm 0 /\ untimed <$> h = untimed <$> hm /\ len h = n.

Abbreviation seg := (@segment_log CborEvent Crc now).
Abbreviation mem := (MemLog.mem_log mem_now).

Lemma agree_append pid evs s m n :
  agree s m n -> op_storable (PAppend pid evs) -> (n + len evs <= u64_max)%N ->
  exists r s' m', @append _ seg pid evs s = (r, s') /\ @append _ mem pid evs m = (r, m') /\
    exists n', agree s' m' n' /\ (n' <= n + len evs)%N.
Proof.
  intros (h & hm & Hw & Hm & Hh & Hn) (Hpid & Hlen & Hev) Hu. destruct s as [l w].
  assert (Hln : len h = len hm) by (apply (f_equal len) in Hh; by rewrite !len_map in Hh).
  change (@append _ seg) with (segment_append now). change (@append _ mem) with (MemLog.mem_append mem_now).
  unfold segment_append. rewrite Hpid. pose proof (working_rep now now_u64 true _ _ Hw) as Hrep.
  destruct Hw as (Hi & Hret & Hhe & Hpo). simpl in Hret, Hhe, Hpo.
  pose proof (port_append now now_u64 pid evs true l w h 0 Hpid Hrep) as Hp.
  destruct (decide (evs = [])) as [->|Hevs].
  { exists (Err (InvalidInput "events slice must not be empty")), (l, w), m.
    unfold port, log_append, write_batch. rewrite !mthen_assoc, mthen_getl. cbn [fst]. rewrite Hpo.
    rewrite bool_decide_eq_true_2 by done. split; [done|]. split; [done|]. exists n.
    split; [|rewrite len_nil; lia]. by exists h, hm. }
  destruct (decide (pid = "")) as [->|Hne].
  { exists (Err (InvalidInput "producer_id must not be empty")), (l, w), m.
    unfold port, log_append, write_batch, MemLog.mem_append. rewrite !mthen_assoc, mthen_getl. cbn [fst]. rewrite Hpo.
    rewrite !bool_decide_eq_false_2, !bool_decide_eq_true_2 by done. split; [done|]. split; [done|]. exists n.
    split; [|lia]. by exists h, hm. }
  destruct (MemLog.mem_append_spec mem_now pid evs m) as [(Hr & _ & _ & Hm')|(e & _ & [?|?])]; [|done..].
  destruct (port _ _) as [r s'] eqn:Ep.
  assert (Hcalm : healthy (snd s') /\ poisoned (fst s') = false).
  { pose proof (log_append_spec false now now_u64 l w h 0 pid evs Hpid Hi (healthy_prompt _ Hhe)) as Hwp.
    unfold port in Ep. destruct (log_append false now pid evs (l, w)) as [[r1 s1]|] eqn:E; [|done]. injection Ep as <- <-.
    destruct (calm_append false now pid evs (l, w) _ _ Hhe E) as [? Hp']. split; [done|]. by rewrite Hp'. }
  destruct Hp as (_ & Hc & [(e & -> & _ & He)|(ts & _ & _ & Hi' & Ho)]).
  { destruct He as [He|[?|[?|[?|[ts He]]]]]; [|congruence|done|done|].
    - destruct (io_error_never _ _ He). apply Hhe.
    - exfalso. eapply storable_accepted; [exact Hne|exact Hlen|exact Hev| |exact He]. lia. }
  destruct r as [o|e]; [|by destruct Ho].
  exists (Ok o), s', (snd (MemLog.mem_append mem_now pid evs m)). split; [done|]. split.
  { rewrite (surjective_pairing (MemLog.mem_append mem_now pid evs m)), Hr. f_equal. f_equal.
    destruct o. simpl in Ho. f_equal. destruct Hm as (-> & _). lia. }
  exists (n + len evs)%N. split; [|lia].
  destruct (MemLog.push_events_spec mem_now (len (MemLog.entries m)) 0 pid evs m) as (times & Ht & He & Hk).
  rewrite Hm'. exists (h ++ batch pid ts (len h) evs), (hm ++ batch_entries (len hm) pid times evs).
  rewrite N.add_0_r in He. destruct Hm as (Hent & Hk0 & _ & Ho0). rewrite Hent in *.
  split; [split; [done|split; [by rewrite Hc|done]]|]. split.
  { split; [done|]. split; [by rewrite Hk|]. split; [lia|by apply offsets_ok_append]. }
  split; [|by rewrite len_app, len_batch, Hn]. rewrite !fmap_app, Hh. f_equal. unfold batch. rewrite Hln.
  apply untimed_batch; [apply repeat_length|done].
Qed.

Lemma agree_read from to s m n :
  agree s m n ->
  exists r r' s', @read_range _ seg from to s = (r, s') /\ @read_range _ mem from to m = (r', m) /\
    (let? es := r in Ok (untimed <$> es)) = (let? es := r' in Ok (untimed <$> es)) /\ agree s' m n.
Proof.
  intros (h & hm & Hw & Hm & Hh & Hn). change (@read_range _ mem) with MemLog.mem_read_range.
  change (@read_range _ seg from to) with (port (log_read_range false from to)).
  rewrite (MemLog.mem_read_spec _ _ _ _ _ Hm), (MemLog.expired_spec _ _ _ _ Hm).
  rewrite (proj2 (N.ltb_ge _ 0)) by lia. destruct s as [l w], Hw as (Hi & Hret & Hhe & Hpo). simpl in *.
  pose proof (port_read from to l w h 0 Hi (healthy_prompt _ Hhe)) as Hp. destruct (port _ _) as [r s'] eqn:Ep.
  destruct Hp as (Hi' & Hc & _ & [->|(e & _ & Hx)]); [|by destruct Hx; apply Hhe].
  exists (read_spec h 0 from to), (Ok (history_range hm from to)), s'. split; [done|]. split; [done|]. split.
  - assert (E : read_spec h 0 from to = Ok (history_range h from to)).
    { destruct (read_spec h 0 from to) as [es|e] eqn:E; [by apply read_spec_ok in E as [-> _]|].
      unfold read_spec in E. destruct (from_option _ _ _); [done|]. destruct (_ <=? _)%N; [done|].
      destruct (N.ltb_spec (as_u64 from) 0); [lia|done]. }
    rewrite E. simpl. f_equal. by apply untimed_range.
  - exists h, hm. split; [|done]. pose proof (log_read_range_spec false l w h 0 from to Hi (healthy_prompt _ Hhe)) as Hwp.
    unfold port in Ep. destruct (log_read_range false from to (l, w)) as [[r1 s1]|] eqn:E; [|done].
    injection Ep as _ <-. destruct (calm_read false from to (l, w) _ _ Hhe E) as [? Hp'].
    split; [done|]. split; [by rewrite Hc|]. split; [done|]. by rewrite Hp'.
Qed.

Lemma agree_bounds s m n :
  agree s m n -> exists r r', @latest_offset _ seg s = (r, s) /\ @latest_offset _ mem m = (r, m) /\
    @earliest_offset _ seg s = (r', s) /\ @earliest_offset _ mem m = (r', m).
Proof.
  intros (h & hm & Hw & Hm & Hh & Hn).
  assert (Hln : len h = len hm) by (apply (f_equal len) in Hh; by rewrite !len_map in Hh).
  destruct (store_offsets now true s h 0 (working_rep now now_u64 true _ _ Hw)) as [E1 E2].
  change (@latest_offset _ seg s) with (port (log_latest_offset false) s).
  change (@earliest_offset _ seg s) with (port log_earliest_offset s).
  change (@latest_offset _ mem m) with (MemLog.mem_latest_offset m).
  change (@earliest_offset _ mem m) with (MemLog.mem_earliest_offset m).
  rewrite E1, E2, (MemLog.mem_latest_spec _ _ _ Hm), (MemLog.mem_earliest_spec _ _ _ Hm), Hln. by do 2 eexists.
Qed.

Lemma foldr_add a (xs : list N) : foldr N.add a xs = (a + foldr N.add 0 xs)%N.
Proof. induction xs as [|x xs IH]; simpl; [lia|]. rewrite IH. lia. Qed.

Lemma agree_answers ops s m n :
  agree s m n -> Forall op_storable ops -> (foldr N.add n (brought <$> ops) <= u64_max)%N ->
  @port_answers _ seg ops s = @port_answers _ mem ops m.
Proof.
  intros Ha Hops. revert s m n Ha. induction Hops as [|op ops Hop Hops IH]; intros s m n Ha Hu; [done|].
  cbn [fmap list_fmap foldr] in Hu. rewrite foldr_add in Hu.
  assert (Hn : (n + brought op <= u64_max)%N) by lia.
  assert (Hnext : forall n', (n' <= n + brought op)%N -> (foldr N.add n' (brought <$> ops) <= u64_max)%N)
    by (intros n' Hn'; rewrite foldr_add; lia).
  cbn [port_answers]. destruct op as [pid evs|from to| |]; cbn [port_answer].
  - destruct (agree_append pid evs s m n Ha Hop Hn) as (r & s' & m' & -> & -> & n' & Ha' & Hn').
    f_equal. eapply IH; [exact Ha'|]. by apply Hnext.
  - destruct (agree_read from to s m n Ha) as (r & r' & s' & -> & -> & -> & Ha').
    f_equal. eapply IH; [exact Ha'|]. apply Hnext. lia.
  - destruct (agree_bounds s m n Ha) as (r & r' & -> & -> & _). f_equal. eapply IH; [exact Ha|]. apply Hnext. lia.
  - destruct (agree_bounds s m n Ha) as (r & r' & _ & _ & -> & ->). f_equal. eapply IH; [exact Ha|]. apply Hnext. lia.
Qed.

Lemma empty_on_disk : on_disk false ∅ [] 0.
Proof.
  exists [], 0%N, NoFile. split; [done|apply offsets_ok_nil|done|done|constructor|constructor|..|done|done].
  - intros b _. rewrite lookup_empty. by intros [? ?].
  - intros b _ _. apply lookup_empty.
Qed.

Lemma open_empty cfg w :
  retention cfg = Indefinite -> healthy w -> disk w = ∅ ->
  exists l w', log_open false now cfg w = Some (Ok l, w') /\ working (l, w') [].
Proof.
  intros Hret Hh Hd.
  assert (Hw : at_disk ∅ w) by (split; [done|]; by apply healthy_honest).
  destruct (steps_healthy _ _ _ _ (log_open_steps false now now_u64 cfg ∅ [] 0 w Hw ltac:(done) empty_on_disk) Hh)
    as (l & w' & E & Hh' & Hp & Hc & _).
  exists l, w'. split; [done|]. split; [by apply clean_inv|]. split; [|done]. simpl.
  by rewrite (log_open_config false now cfg w l w' E).
Qed.

(** The answers of a log opened on an empty directory. *)
Lemma opened_answers cfg w ops :
  retention cfg = Indefinite -> healthy w -> disk w = ∅ ->
  Forall op_storable ops -> (foldr N.add 0 (brought <$> ops) <= u64_max)%N ->
  exists l w', log_open false now cfg w = Some (Ok l, w') /\
    @port_answers _ seg ops (l, w') = @port_answers _ mem ops MemLog.mem_new.
Proof.
  intros Hret Hh Hd Hops Hu. destruct (open_empty cfg w Hret Hh Hd) as (l & w' & E & Hw).
  exists l, w'. split; [done|]. eapply agree_answers; [|done|exact Hu].
  exists [], []. split; [done|]. split; [|done]. by split_and!; try apply offsets_ok_nil.
Qed.

(** C12: Both backends answer alike, as far as both keep everything.  On an
    empty directory on which no I/O call fails, opening the segment log without
    a retention limit succeeds; and whatever reads, offset queries and appends
    of fewer than 2^64 events follow, each of which fits in a record, under
    producer ids that do and are valid UTF-8, with whatever rolls of segments, every answer is the one the
    in-memory reference gives: the same offsets, the same entries up to their
    times, the same refusals.  Outside of this the backends differ: the
    reference has no size limit, and is evicted by calls of its own.
    Subscriptions are not compared. *)
Theorem log_segment_agrees_with_memory cfg w ops :
  retention cfg = Indefinite -> healthy w -> disk w = ∅ ->
  Forall op_storable ops -> (foldr N.add 0 (brought <$> ops) <= u64_max)%N ->
  exists l w', log_open false now cfg w = Some (Ok l, w') /\
    @port_answers _ seg ops (l, w') = @port_answers _ mem ops MemLog.mem_new.
Proof. apply opened_answers. Qed.
End Backends.

(** ** A concrete run *)
Definition sample_ops : list PortOp :=
  [PLatest; PAppend "loop-1" [sample_event]; PAppend "" [sample_event];
   PAppend "loop-2" [sample_event; sample_event]; PRead (offset_new 1) None; PLatest].

Definition sample_answers : list PortAnswer :=
  [AnBound (Ok None); AnOffset (Ok (offset_new 0));
   AnOffset (Err (InvalidInput "producer_id must not be empty")); AnOffset (Ok (offset_new 2));
   AnEntries (Ok [(offset_new 1, "loop-2", sample_event); (offset_new 2, "loop-2", sample_event)]);
   AnBound (Ok (Some (offset_new 2)))].

Example memory_answers :
  @port_answers _ (MemLog.mem_log MemLog.sample_now) sample_ops MemLog.mem_new = sample_answers.
Proof. vm_compute. reflexivity. Qed.

(** The segment is rolled after every batch. *)
Lemma log_segment_agrees_with_memory_witness :
  exists l w', @log_open event_cbor sum_crc false sample_now small_config (world []) = Some (Ok l, w') /\
    @port_answers _ (@segment_log event_cbor sum_crc sample_now) sample_ops (l, w') = sample_answers.
Proof.
  destruct (@log_segment_agrees_with_memory event_cbor sum_crc event_cbor_laws sum_crc_laws sample_now
    MemLog.sample_now sample_now_u64 small_config (world []) sample_ops) as (l & w' & E & Ha).
  - reflexivity.
  - by split.
  - reflexivity.
  - assert (Hst : @storable event_cbor sample_event)
      by (exists (default [] (match @cbor_to_vec OtkEvent event_cbor sample_event with Ok b => Some b | Err _ => None end));
          split; [vm_compute; reflexivity|vm_compute; discriminate]).
    assert (Hid : forall pid, pid = "loop-1" \/ pid = "loop-2" \/ pid = "" ->
      utf8_valid (str_bytes pid) = true /\ (len (str_bytes pid) <= MAX_PRODUCER_ID_BYTES)%N)
      by (intros pid [->|[->| ->]]; (split; [reflexivity|vm_compute; discriminate])).
    repeat (apply List.Forall_cons); try apply List.Forall_nil; try exact I;
      (split; [apply Hid; tauto|]; split; [apply Hid; tauto|]); repeat (apply List.Forall_cons; [exact Hst|]);
      apply List.Forall_nil.
  - vm_compute. discriminate.
  - exists l, w'. split; [exact E|]. rewrite <- memory_answers. exact Ha.
Defined.
