(* ===== verification/SequenceGate.v ===== *)
(** The sequence gate (crate [timing-core], [domain/sequence_gate.rs]): the
    per-[(producer, detector)] high-water map, its peek/commit protocol and
    its reconstruction from the event log.

    The addition [hw + 1] is checked: [peek] returns an [option] whose [None]
    is an overflow. *)
From stdpp Require Import base gmap strings list option numbers sorting.
From S2P Require Import Prelude EventModel EventLogPort.
From S2P Require MemLog.

Inductive GateDecision :=
  | Accept
  | Advance (previous_high_water : N)
  | Gap (expected got : N)
  | Duplicate (high_water got : N).

#[export] Instance GateDecision_eq_dec : EqDecision GateDecision.
Proof. solve_decision. Defined.

Definition persist (d : GateDecision) : bool :=
  match d with Duplicate _ _ => false | _ => true end.

Record SequenceGate := { high_water : gmap (string * DetectorId) N }.

Definition gate_new : SequenceGate := {| high_water := ∅ |}.

Definition gate_key (producer_id : string) (d : Detection) : string * DetectorId :=
  (producer_id, detector_id d).

Definition peek (producer_id : string) (detection : Detection) (g : SequenceGate)
  : option GateDecision :=
  let seq := sequence_number detection in
  match high_water g !! gate_key producer_id detection with
  | None => Some Accept
  | Some hw =>
      if (seq <=? hw)%N then Some (Duplicate hw seq) else
      let! next := checked_add64 hw 1 in
      if (seq =? next)%N then Some (Advance hw) else Some (Gap next seq)
  end.

Definition commit (producer_id : string) (detection : Detection) (g : SequenceGate) : SequenceGate :=
  let key := gate_key producer_id detection in
  let seq := sequence_number detection in
  match high_water g !! key with
  | None => {| high_water := <[key := seq]> (high_water g) |}
  | Some hw => if (hw <? seq)%N then {| high_water := <[key := seq]> (high_water g) |} else g
  end.

Definition check (producer_id : string) (detection : Detection) (g : SequenceGate)
  : option (GateDecision * SequenceGate) :=
  let! decision := peek producer_id detection g in
  Some (decision, if persist decision then commit producer_id detection g else g).

(** The loop of [seed_from_log]. *)
Definition commit_entry (g : SequenceGate) (e : LogEntry) : SequenceGate :=
  match event e with
  | EvDetection det => commit (entry_producer_id e) det g
  | _ => g
  end.

Definition seed_from_log `{EventLog L} (g : SequenceGate) (log : L)
  : result N StorageError * SequenceGate * L :=
  match earliest_offset log with
  | (Err e, log) => (Err e, g, log)
  | (Ok None, log) => (Ok 0%N, g, log)
  | (Ok (Some earliest), log) =>
      match read_range earliest None log with
      | (Err e, log) => (Err e, g, log)
      | (Ok entries, log) => (Ok (len entries), foldl commit_entry g entries, log)
      end
  end.

(** ** Streams of detections *)

(** The gate as a filter of a stream: what is persisted, and the final gate. *)
Fixpoint run (ds : list (string * Detection)) (g : SequenceGate)
  : option (list (string * Detection) * SequenceGate) :=
  match ds with
  | [] => Some ([], g)
  | (pid, d) :: ds =>
      let! (dec, g) := check pid d g in
      let! (out, g) := run ds g in
      Some (if persist dec then (pid, d) :: out else out, g)
  end.

Definition key_of (x : string * Detection) : string * DetectorId := gate_key (fst x) (snd x).

(** The sequence numbers a stream carries for one key. *)
Definition seqs_for (k : string * DetectorId) (ds : list (string * Detection)) : list N :=
  (fun x => sequence_number (snd x)) <$> filter (fun x => key_of x = k) ds.

Definition opt_max (o : option N) (n : N) : option N :=
  Some (match o with Some m => N.max m n | None => n end).

(** The largest number seen for a key. *)
Definition max_seq (o : option N) (ns : list N) : option N := foldl opt_max o ns.

Definition commit_all (ds : list (string * Detection)) (g : SequenceGate) : SequenceGate :=
  foldl (fun g x => commit (fst x) (snd x) g) g ds.

(** The detections of a history with their producers. *)
Definition history_detections (h : list LogEntry) : list (string * Detection) :=
  omap (fun e => match event e with
                 | EvDetection d => Some (entry_producer_id e, d) | _ => None end) h.

Definition wf_gate (g : SequenceGate) : Prop := map_Forall (fun _ hw => wf_u64 hw) (high_water g).

(** ** Lemmas *)
Lemma gate_ext g g' : (forall k, high_water g !! k = high_water g' !! k) -> g = g'.
Proof. destruct g, g'; simpl. intros H. f_equal. by apply map_eq. Qed.

(** [commit] takes the maximum at its key. *)
Lemma commit_lookup pid d g k :
  high_water (commit pid d g) !! k =
    if decide (k = gate_key pid d) then opt_max (high_water g !! k) (sequence_number d)
    else high_water g !! k.
Proof.
  unfold commit, opt_max. case_decide as Hk.
  - subst. destruct (high_water g !! gate_key pid d) as [hw|] eqn:E.
    + destruct (N.ltb_spec hw (sequence_number d)); simpl; [rewrite lookup_insert_eq|rewrite E];
        f_equal; lia.
    + simpl. by rewrite lookup_insert_eq.
  - destruct (high_water g !! gate_key pid d) as [hw|]; [case_match|]; simpl;
      rewrite ?lookup_insert_ne by done; done.
Qed.

Lemma commit_wf pid d g : wf_gate g -> wf_u64 (sequence_number d) -> wf_gate (commit pid d g).
Proof.
  intros Hg Hd k hw. rewrite commit_lookup. case_decide; [|apply Hg]. intros [= <-].
  destruct (high_water g !! k) as [m|] eqn:E; [|done]. apply Hg in E. unfold wf_u64 in *. lia.
Qed.

(** The three outcomes of [peek], with no overflow. *)
Lemma peek_spec pid d g :
  wf_u64 (sequence_number d) ->
  exists dec, peek pid d g = Some dec /\
  match high_water g !! gate_key pid d with
  | None => dec = Accept
  | Some hw =>
      ((sequence_number d <= hw)%N /\ dec = Duplicate hw (sequence_number d)) \/
      (sequence_number d = hw + 1 /\ dec = Advance hw)%N \/
      (hw + 1 < sequence_number d /\ dec = Gap (hw + 1) (sequence_number d))%N
  end.
Proof.
  intros Hd. unfold peek. destruct (high_water g !! _) as [hw|]; [|eauto].
  destruct (N.leb_spec (sequence_number d) hw); [eauto|]. unfold checked_add64.
  destruct (N.leb_spec (hw + 1) u64_max); [|unfold wf_u64 in Hd; lia].
  destruct (N.eqb_spec (sequence_number d) (hw + 1)); eexists; (split; [done|]); right.
  - by left.
  - right. split; [lia|done].
Qed.

Lemma peek_persist pid d g dec :
  wf_u64 (sequence_number d) -> peek pid d g = Some dec ->
  persist dec = true <-> from_option (fun hw => (hw < sequence_number d)%N) True
                           (high_water g !! gate_key pid d).
Proof.
  intros Hd Hp. destruct (peek_spec pid d g Hd) as (dec' & Hp' & Hs). simplify_eq.
  destruct (high_water g !! _) as [hw|]; simpl; [|by subst].
  destruct Hs as [[? ->]|[[? ->]|[? ->]]]; simpl; split; try done; lia.
Qed.

Lemma seqs_for_cons k x ds :
  seqs_for k (x :: ds) =
    if decide (key_of x = k) then sequence_number (snd x) :: seqs_for k ds else seqs_for k ds.
Proof. unfold seqs_for. rewrite filter_cons. by case_decide. Qed.

Lemma commit_all_lookup ds g k :
  high_water (commit_all ds g) !! k = max_seq (high_water g !! k) (seqs_for k ds).
Proof.
  revert g. induction ds as [|x ds IH]; intros g; [done|]. unfold commit_all in *. simpl.
  rewrite IH, commit_lookup, seqs_for_cons. unfold key_of.
  case_decide as H1; case_decide as H2; simpl; congruence.
Qed.

Lemma max_seq_perm o ns ns' : ns ≡ₚ ns' -> max_seq o ns = max_seq o ns'.
Proof.
  unfold max_seq. intros H. revert o. induction H as [|n ns ns' _ IH|m n ns|ns1 ns2 ns3 _ IH1 _ IH2];
    intros o; simpl; [done|by apply IH| |by rewrite IH1].
  f_equal. destruct o; unfold opt_max; f_equal; lia.
Qed.

Lemma max_seq_ge o ns n : n ∈ ns -> exists m, max_seq o ns = Some m /\ (n <= m)%N.
Proof.
  unfold max_seq. assert (Hmono : forall ns m, exists m', foldl opt_max (Some m) ns = Some m' /\ (m <= m')%N).
  { intros ks. induction ks as [|k ks IH]; intros m; simpl; [eauto with lia|].
    destruct (IH (N.max m k)) as (m' & ? & ?). exists m'. split; [done|lia]. }
  revert o. induction ns as [|k ns IH]; intros o; [set_solver|]. simpl.
  intros [->|Hin]%elem_of_cons; [|by apply IH].
  destruct (Hmono ns (match o with Some m => N.max m k | None => k end)) as (m' & ? & ?).
  exists m'. split; [done|]. destruct o; lia.
Qed.

Lemma max_seq_start m ns : exists m', max_seq (Some m) ns = Some m' /\ (m <= m')%N.
Proof. apply (max_seq_ge None (m :: ns)). set_solver. Qed.

Lemma max_seq_in o ns m : max_seq o ns = Some m -> o = Some m \/ m ∈ ns.
Proof.
  unfold max_seq. revert o. induction ns as [|n ns IH]; intros o; simpl; [by left|].
  intros [E|E]%IH; [|by right; right]. unfold opt_max in E.
  destruct o as [x|]; simplify_eq/=; [|by right; left].
  destruct (N.max_spec x n) as [[_ ->]|[_ ->]]; [by right; left|by left].
Qed.

(** [g'] has a mark as high for every mark of [g]. *)
Definition covers (g g' : SequenceGate) : Prop :=
  forall key hw, high_water g !! key = Some hw ->
    exists hw', high_water g' !! key = Some hw' /\ (hw <= hw')%N.

Lemma commit_all_covers ds ds' g : ds ⊆ ds' -> covers (commit_all ds g) (commit_all ds' g).
Proof.
  intros Hsub key hw. rewrite !commit_all_lookup. intros [E|Hin]%max_seq_in.
  - rewrite E. apply max_seq_start.
  - apply max_seq_ge. unfold seqs_for in *. apply list_elem_of_fmap in Hin as (x & -> & Hx).
    apply list_elem_of_fmap. exists x. split; [done|]. apply list_elem_of_filter in Hx as [? ?].
    apply list_elem_of_filter. auto.
Qed.

(** A gate knows every detection it was told of. *)
Lemma commit_all_knows pid d ds g :
  (pid, d) ∈ ds ->
  exists hw, high_water (commit_all ds g) !! gate_key pid d = Some hw /\ (sequence_number d <= hw)%N.
Proof.
  intros Hin. rewrite commit_all_lookup. apply max_seq_ge. unfold seqs_for.
  apply list_elem_of_fmap. exists (pid, d). split; [done|]. by apply list_elem_of_filter.
Qed.

Lemma commit_entries g h : foldl commit_entry g h = commit_all (history_detections h) g.
Proof.
  revert g. induction h as [|e h IH]; intros g; [done|]. simpl. rewrite IH.
  unfold history_detections, commit_entry. simpl. by destruct (event e).
Qed.

(** [run] from any gate: persisted numbers are above the mark and increasing. *)
Lemma run_spec ds g out g' :
  Forall (fun x => wf_u64 (sequence_number (snd x))) ds -> run ds g = Some (out, g') ->
  g' = commit_all ds g /\
  forall k, Sorted N.lt (seqs_for k out) /\
    Forall (fun n => from_option (fun hw => (hw < n)%N) True (high_water g !! k)) (seqs_for k out).
Proof.
  revert g out. induction ds as [|[pid d] ds IH]; intros g out Hwf Hr; simpl in Hr.
  { simplify_eq. split; [done|]. intros k. by repeat constructor. }
  apply Forall_cons in Hwf as [Hd Hwf]. simpl in Hd. unfold check in Hr.
  destruct (peek pid d g) as [dec|] eqn:Hp; [|done].
  pose proof (peek_persist _ _ _ _ Hd Hp) as Hpers. simpl in Hr.
  destruct (run ds _) as [[out1 g1]|] eqn:Hrun; simplify_eq.
  destruct (IH _ _ Hwf Hrun) as [-> Hk]. clear IH Hrun. split.
  { unfold commit_all. simpl. destruct (persist dec) eqn:E; [done|]. f_equal. apply gate_ext.
    intros k. rewrite commit_lookup. case_decide; [|done]. subst.
    destruct (high_water g !! gate_key pid d) as [hw|]; simpl in *; [|by destruct Hpers as [_ Ht]; specialize (Ht I)].
    unfold opt_max. f_equal. destruct (decide (hw < sequence_number d)%N) as [Hlt|]; [|lia].
    by apply Hpers in Hlt. }
  intros k. specialize (Hk k) as [Hs Hall]. destruct (persist dec) eqn:E; [|done].
  destruct Hpers as [Hpers _]. specialize (Hpers eq_refl). rewrite seqs_for_cons.
  unfold key_of. simpl. destruct (decide (gate_key pid d = k)) as [Hkey|Hkey].
  - subst k. rewrite commit_lookup, decide_True in Hall by done. split; (constructor; [done|]).
    + destruct (seqs_for _ out1); constructor.
      apply Forall_cons in Hall as [Hall _]. simpl in Hall. destruct (high_water g !! _); lia.
    + eapply Forall_impl; [exact Hall|]. simpl. intros n.
      destruct (high_water g !! _); simpl in *; lia.
  - rewrite commit_lookup, decide_False in Hall by auto. done.
Qed.

Lemma run_total ds g :
  Forall (fun x => wf_u64 (sequence_number (snd x))) ds -> is_Some (run ds g).
Proof.
  revert g. induction ds as [|[pid d] ds IH]; intros g; simpl; [by eexists|].
  intros [Hd Hwf]%Forall_cons. unfold check.
  destruct (peek_spec pid d g Hd) as (dec & -> & _). simpl.
  destruct (IH (if persist dec then commit pid d g else g) Hwf) as [[out g'] ->]. by eexists.
Qed.

(** ** Properties *)

(** at-most-once delivery: whatever detections arrive, in whatever order
    and however often, the gate lets through strictly increasing sequence
    numbers for every [(producer, detector)], so no number twice; it never
    overflows, and its final marks are the largest numbers seen. *)
Theorem gate_at_most_once (ds : list (string * Detection)) :
  Forall (fun x => wf_u64 (sequence_number (snd x))) ds ->
  exists out g, run ds gate_new = Some (out, g) /\
    (forall k, Sorted N.lt (seqs_for k out)) /\
    (forall k, high_water g !! k = max_seq None (seqs_for k ds)).
Proof.
  intros Hwf. destruct (run_total ds gate_new Hwf) as [[out g] Hr].
  destruct (run_spec _ _ _ _ Hwf Hr) as [-> Hk]. exists out, (commit_all ds gate_new).
  split; [done|]. split; [apply Hk|]. intros k. by rewrite commit_all_lookup.
Qed.

(** the decision on every branch: first contact, duplicate, next in
    sequence, gap; and a persisted detection, once committed, is from then on
    a duplicate together with every smaller number. *)
Theorem gate_decision (pid : string) (d : Detection) (g : SequenceGate) :
  wf_u64 (sequence_number d) ->
  (exists dec, peek pid d g = Some dec /\
    match high_water g !! (pid, detector_id d) with
    | None => dec = Accept
    | Some hw =>
        ((sequence_number d <= hw)%N /\ dec = Duplicate hw (sequence_number d)) \/
        (sequence_number d = hw + 1 /\ dec = Advance hw)%N \/
        (hw + 1 < sequence_number d /\ dec = Gap (hw + 1) (sequence_number d))%N
    end) /\
  forall d', detector_id d' = detector_id d -> (sequence_number d' <= sequence_number d)%N ->
    exists hw, peek pid d' (commit pid d g) = Some (Duplicate hw (sequence_number d')).
Proof.
  intros Hd. split; [by apply peek_spec|]. intros d' Hdet Hle.
  destruct (peek_spec pid d' (commit pid d g)) as (dec & -> & Hs).
  { unfold wf_u64 in *. lia. }
  rewrite commit_lookup in Hs. unfold gate_key in Hs. rewrite Hdet, decide_True in Hs by done.
  simpl in Hs. destruct Hs as [[_ ->]|[[Hn _]|[Hn _]]]; [eauto|exfalso..];
    destruct (high_water g !! _); lia.
Qed.

(** commits may arrive in any order: the marks after committing a set of
    detections do not depend on the order or on repetitions. *)
Theorem gate_commit_order_insensitive (ds ds' : list (string * Detection)) (g : SequenceGate) :
  ds ≡ₚ ds' ->
  commit_all ds g = commit_all ds' g /\ commit_all (ds ++ ds') g = commit_all ds g.
Proof.
  intros Hp.
  assert (Hseq : forall k, seqs_for k ds ≡ₚ seqs_for k ds')
    by (intros k; unfold seqs_for; by rewrite Hp).
  split; apply gate_ext; intros k; rewrite !commit_all_lookup; [by apply max_seq_perm|].
  unfold seqs_for at 1. rewrite filter_app, fmap_app. fold (seqs_for k ds) (seqs_for k ds').
  rewrite (max_seq_perm _ _ (seqs_for k ds ++ seqs_for k ds)) by by rewrite (Hseq k).
  unfold max_seq. rewrite foldl_app. fold (max_seq (high_water g !! k) (seqs_for k ds)).
  assert (Habs : forall ns m, (forall n, n ∈ ns -> (n <= m)%N) -> foldl opt_max (Some m) ns = Some m).
  { intros ns. induction ns as [|n ns IH]; intros m Hm; simpl; [done|].
    change (opt_max (Some m) n) with (Some (N.max m n)).
    rewrite N.max_l by (apply Hm; set_solver). apply IH. set_solver. }
  destruct (seqs_for k ds) as [|n ns] eqn:E; [done|]. rewrite <- E in *.
  destruct (max_seq_ge (high_water g !! k) (seqs_for k ds) n) as (m & Hm & _);
    [rewrite E; set_solver|]. rewrite Hm. apply Habs. intros n' Hin.
  destruct (max_seq_ge (high_water g !! k) _ _ Hin) as (m' & ? & ?). congruence.
Qed.

(** restart: seeding a fresh gate from a log that keeps the storage
    contract rebuilds exactly the marks of the retained detections; when
    nothing has been evicted these are the marks of the whole history, and
    the log is left as it was. *)
Theorem seed_restores_gate `{EL : EventLog L} `{!EventLogLaws L} sure (l l' : L) h k n g :
  log_rep sure l h k -> seed_from_log gate_new l = (Ok n, g, l') ->
  log_rep sure l' h k /\ n = (len h - k)%N /\
  g = commit_all (history_detections (drop (N.to_nat k) h)) gate_new.
Proof.
  intros Hrep. unfold seed_from_log. pose proof (log_rep_evicted _ _ _ _ Hrep) as Hle.
  destruct (earliest_offset l) as [[o|e] l1] eqn:He; [|done].
  destruct (log_earliest _ _ _ _ _ _ Hrep He) as [Hrep1 Ho]. specialize (Ho o eq_refl). subst o.
  destruct (N.ltb_spec k (len h)) as [Hlt|Hge].
  - destruct (read_range (offset_new k) None l1) as [[es|e] l2] eqn:Hr; [|done].
    destruct (log_read_ok _ _ _ _ _ _ _ _ Hrep1 Hr) as (Hrep2 & -> & _).
    intros [= <- <- <-]. split; [done|]. rewrite commit_entries. split; [|done].
    unfold history_range. simpl. unfold len. rewrite length_drop. lia.
  - intros [= <- <- <-]. split; [done|]. split; [lia|].
    rewrite drop_ge; [done|]. unfold len in Hge. lia.
Qed.

(** ** Witnesses *)
Definition sample_stream : list (string * Detection) :=
  [("p", sample_detection 1 10 None BeamBreak); ("p", sample_detection 4 20 None BeamBreak);
   ("p", sample_detection 1 30 None BeamBreak); ("q", sample_detection 2 40 None BeamBreak)].

Lemma sample_stream_wf : Forall (fun x => wf_u64 (sequence_number (snd x))) sample_stream.
Proof. repeat (apply Forall_cons; split; [vm_compute; discriminate|]). apply Forall_nil. done. Qed.

Lemma gate_at_most_once_witness :
  exists out g, run sample_stream gate_new = Some (out, g) /\
    (forall k, Sorted N.lt (seqs_for k out)) /\
    (forall k, high_water g !! k = max_seq None (seqs_for k sample_stream)).
Proof. apply (gate_at_most_once sample_stream). apply sample_stream_wf. Defined.

Lemma gate_decision_witness :
  exists hw, peek "p" (sample_detection 3 99 None BeamBreak)
    (commit "p" (sample_detection 4 20 None BeamBreak) gate_new) = Some (Duplicate hw 3).
Proof.
  apply (gate_decision "p" (sample_detection 4 20 None BeamBreak) gate_new);
    [vm_compute; discriminate|reflexivity|vm_compute; discriminate].
Defined.

Lemma gate_commit_order_insensitive_witness :
  commit_all sample_stream gate_new = commit_all (reverse sample_stream) gate_new /\
  commit_all (sample_stream ++ reverse sample_stream) gate_new = commit_all sample_stream gate_new.
Proof.
  apply (gate_commit_order_insensitive sample_stream (reverse sample_stream) gate_new).
  symmetry. apply reverse_Permutation.
Defined.

(** A log of two detections, the first evicted. *)
Definition sample_gate_log : MemLog.Inner :=
  MemLog.mem_run MemLog.sample_now
    [MemLog.OpAppend "p" [EvDetection (sample_detection 4 20 None BeamBreak)];
     MemLog.OpAppend "q" [EvDetection (sample_detection 9 20 None BeamBreak)];
     MemLog.OpEvictBelow (offset_new 1)].

Lemma sample_gate_rep : MemLog.mem_rep sample_gate_log (MemLog.entries sample_gate_log) 1.
Proof.
  split; [reflexivity|split; [reflexivity|split; [vm_compute; discriminate|]]].
  intros [|[|i]] e Hi; [injection Hi as <-; reflexivity..|discriminate].
Qed.

Lemma seed_restores_gate_witness :
  let (r, l') := @seed_from_log _ (MemLog.mem_log MemLog.sample_now) gate_new sample_gate_log in
  let h := MemLog.entries sample_gate_log in
  MemLog.mem_rep l' h 1 /\ 1%N = (len h - 1)%N /\
  snd r = commit_all (history_detections (drop 1 h)) gate_new.
Proof.
  apply (@seed_restores_gate _ (MemLog.mem_log MemLog.sample_now)
           (MemLog.mem_log_laws MemLog.sample_now) true sample_gate_log sample_gate_log
           (MemLog.entries sample_gate_log) 1).
  - exact sample_gate_rep.
  - vm_compute. reflexivity.
Defined.
