(* ===== verification/Fixtures.v ===== *)
(** The test fixtures (crate [conformance-fixtures]: [detections.rs],
    [events.rs], [envelopes.rs], [streams.rs]), and that they are what the
    conformance suite takes them for: well-formed detections in order, one
    event of every kind, handshakes that are accepted exactly for the version
    range and the token they carry, and a replay the gate sees through. *)
From stdpp Require Import base gmap strings list option numbers pretty.
From Stdlib Require Import Strings.Byte.
From S2P Require Import Prelude EventModel WireProtocol IngestProtocol EventLogPort SequenceGate.

(** ** Detections *)
Definition FIXTURE_BASE_NS : N := 1700000000000000000.

(** [FIXTURE_BASE_NS + seq * 1_000_000_000]. *)
Definition fixture_time (seq : N) : N :=
  wrapping_add64 FIXTURE_BASE_NS ((seq * 1000000000) mod (u64_max + 1)).

Definition beam_break_at_loop (seq : N) : Detection :=
  {| detection_id := id_new ("det-" +:+ pretty seq); detector_id := id_new "loop-1";
     timing_point_id := id_new "tp-start"; subject_id := None;
     detected_at_ns := fixture_time seq; detected_at_uncertainty_ns := None; received_at_ns := None;
     timestamping_method := HardwareEventCapture; timebase_id := id_new "gps-1";
     source_attestation := RuntimeDiscovered; sequence_number := seq; sensor := BeamBreak |}.

Definition loop_read_with_rssi (seq subject : N) (rssi_dbm : Z) : Detection :=
  {| detection_id := id_new ("det-" +:+ pretty seq); detector_id := id_new "loop-1";
     timing_point_id := id_new "tp-start"; subject_id := Some (id_new ("subject-" +:+ pretty subject));
     detected_at_ns := fixture_time seq; detected_at_uncertainty_ns := Some 50000%N; received_at_ns := None;
     timestamping_method := HardwareEventCapture; timebase_id := id_new "gps-1";
     source_attestation := RuntimeDiscovered; sequence_number := seq;
     sensor := LoopTransponder (Some rssi_dbm) (Some 3%N) |}.

(** ** Events *)
Definition as_detection_event (d : Detection) : OtkEvent := EvDetection d.
Definition beam_break_event (seq : N) : OtkEvent := as_detection_event (beam_break_at_loop seq).
Definition loop_read_event (seq subject : N) (rssi_dbm : Z) : OtkEvent :=
  as_detection_event (loop_read_with_rssi seq subject rssi_dbm).

(** The module [canon]: one example per variant. *)
Definition detection_loop_transponder : OtkEvent := EvDetection
  {| detection_id := id_new "det-1"; detector_id := id_new "loop-1"; timing_point_id := id_new "tp-start";
     subject_id := Some (id_new "subject-1"); detected_at_ns := 1700000000000000000;
     detected_at_uncertainty_ns := Some 50000%N; received_at_ns := Some 1700000000000000100%N;
     timestamping_method := HardwareEventCapture; timebase_id := id_new "gps-1";
     source_attestation := RuntimeDiscovered; sequence_number := 1;
     sensor := LoopTransponder (Some (-60)%Z) (Some 3%N) |}.

Definition detection_beam_break : OtkEvent := EvDetection
  {| detection_id := id_new "det-2"; detector_id := id_new "beam-1"; timing_point_id := id_new "tp-mid";
     subject_id := None; detected_at_ns := 1700000000500000000;
     detected_at_uncertainty_ns := None; received_at_ns := None;
     timestamping_method := FirmwareTimerRead; timebase_id := id_new "ptp-gm-1";
     source_attestation := OperatorAsserted; sequence_number := 7; sensor := BeamBreak |}.

Definition detector_health_healthy : OtkEvent := EvDetectorHealth
  {| dh_detector_id := id_new "loop-1"; dh_reported_at_ns := 1700000000000000000; dh_status := Healthy;
     dh_message := Some "ok" |}.

Definition detector_health_degraded : OtkEvent := EvDetectorHealth
  {| dh_detector_id := id_new "loop-1"; dh_reported_at_ns := 1700000000000000000;
     dh_status := Degraded "low SNR"; dh_message := None |}.

Definition timebase_status (state : SyncState) : OtkEvent := EvTimebaseStatus
  {| ts_timebase_id := id_new "gps-1"; ts_reported_at_ns := 1700000000000000000; ts_sync_state := state;
     ts_uncertainty_ns := Some 1000%N; ts_source_attestation := RuntimeDiscovered |}.

Definition timebase_status_all_states : list OtkEvent :=
  [timebase_status Locked; timebase_status Holdover; timebase_status FreeRun;
   timebase_status Unsynchronized; timebase_status SyncUnknown].

Definition adapter_metadata : OtkEvent := EvAdapterMetadata
  {| am_detector_id := id_new "loop-1"; am_timing_point_id := id_new "tp-start"; am_timebase_id := id_new "gps-1";
     am_source_attestation := RuntimeDiscovered; am_declared_at_ns := 1700000000000000000;
     am_capabilities :=
       {| ac_streams := [{| sd_stream_id := id_new "loop-1/detections"; sd_kind := Detections;
                            sd_detector_id := Some (id_new "loop-1"); sd_timing_point_id := Some (id_new "tp-start") |}];
          ac_timestamping_method := HardwareEventCapture; ac_declared_resolution_ns := Some 1%N |} |}.

Definition crossing : OtkEvent := EvCrossing
  {| ce_crossing_id := id_new "c-1"; ce_timing_point_id := id_new "tp-start";
     ce_subject_id := Some (id_new "subject-1"); ce_crossed_at_ns := 1700000000000000000;
     ce_crossed_at_uncertainty_ns := Some 100%N; ce_timebase_id := id_new "gps-1";
     ce_timestamping_method := HardwareEventCapture; ce_source_attestation := RuntimeDiscovered;
     ce_detection_ids := [id_new "det-1"; id_new "det-2"] |}.

Definition one_of_each_variant : list OtkEvent :=
  [detection_loop_transponder; detection_beam_break; detector_health_healthy; detector_health_degraded;
   timebase_status Locked; adapter_metadata; crossing].

(** ** Envelopes

    Encoding a [Connect] does not fail ([expect]): [None] is that panic. *)
Section Envelopes.
Context `{CborConnect : Cbor Connect}.

Definition connect_with_optional_token (producer : string) (min max : N) (token : option string)
  : option OtkEnvelope :=
  let connect := {| protocol_version_min := min; protocol_version_max := max; streams := []; auth_token := token |} in
  match cbor_to_vec connect with
  | Err _ => None
  | Ok bs => Some
      {| protocol_version := max; message_type := MtConnect; source_id := id_new producer; stream_id := None;
         env_sequence_number := None; correlation_id := None; payload := Some bs; traceparent := None |}
  end.

Definition connect_plain (producer : string) (min max : N) : option OtkEnvelope :=
  connect_with_optional_token producer min max None.
Definition connect_with_token (producer : string) (min max : N) (token : string) : option OtkEnvelope :=
  connect_with_optional_token producer min max (Some token).
End Envelopes.

Definition data_envelope (producer : string) (mt : MessageType) (payload : option bytes) : OtkEnvelope :=
  {| protocol_version := PROTOCOL_VERSION; message_type := mt; source_id := id_new producer; stream_id := None;
     env_sequence_number := None; correlation_id := None; payload := payload; traceparent := None |}.

(** ** Streams *)
Definition single_detector_happy_path (len : N) : list Detection :=
  (fun i => beam_break_at_loop (N.of_nat i)) <$> seq 1 (N.to_nat len).

Definition reconnect_with_replay : list Detection :=
  [beam_break_at_loop 1; beam_break_at_loop 2; beam_break_at_loop 3; beam_break_at_loop 3; beam_break_at_loop 4].

(** ** Properties *)

(** The last number whose time does not wrap: [beam_break_at_loop] of the next
    one panics in a build with overflow checks. *)
Definition LAST_FIXTURE : N := 16746744073.

Lemma fixture_time_exact seq : (seq <= LAST_FIXTURE)%N -> fixture_time seq = (FIXTURE_BASE_NS + seq * 1000000000)%N.
Proof.
  unfold LAST_FIXTURE, fixture_time, wrapping_add64, FIXTURE_BASE_NS, u64_max. intros Hs.
  rewrite (N.mod_small (seq * _)) by lia. apply N.mod_small. lia.
Qed.

Example fixture_time_wraps : fixture_time (LAST_FIXTURE + 1) = 290448384%N.
Proof. reflexivity. Qed.

(** The detections are well-formed and their times increase with their
    numbers, a second apart. *)
Theorem fixture_detections (a b subject : N) (rssi : Z) :
  (a < b)%N -> (b <= LAST_FIXTURE)%N -> (i16_min <= rssi <= i16_max)%Z ->
  (detected_at_ns (beam_break_at_loop b) = detected_at_ns (beam_break_at_loop a) + (b - a) * 1000000000)%N /\
  detected_at_ns (loop_read_with_rssi b subject rssi) = detected_at_ns (beam_break_at_loop b) /\
  wf_Detection (beam_break_at_loop b) /\ wf_Detection (loop_read_with_rssi b subject rssi).
Proof.
  intros Hab Hb Hr. cbn [detected_at_ns beam_break_at_loop loop_read_with_rssi].
  assert (Hw : wf_u64 (fixture_time b)) by (apply (N.lt_succ_r _ u64_max), N.mod_lt; done).
  assert (Hn : wf_u64 b) by (unfold wf_u64, u64_max, LAST_FIXTURE in *; lia).
  split; [rewrite !fixture_time_exact by lia; lia|]. split; [done|]. split; by split.
Qed.

(** *** One of each variant *)
Definition variant (e : OtkEvent) : nat :=
  match e with
  | EvDetection _ => 0 | EvDetectorHealth _ => 1 | EvTimebaseStatus _ => 2 | EvAdapterMetadata _ => 3
  | EvCrossing _ => 4
  end%nat.

(** The corpus has an event of every variant, and a status of every state. *)
Theorem corpus_exhaustive (e : OtkEvent) (state : SyncState) :
  variant e ∈ (variant <$> one_of_each_variant) /\ timebase_status state ∈ timebase_status_all_states.
Proof.
  split.
  - destruct e; cbn; rewrite !elem_of_cons; auto 10.
  - unfold timebase_status_all_states. rewrite !elem_of_cons. destruct state; auto 10.
Qed.

(** *** Handshakes *)
Section Handshake.
Context `{CborConnect : Cbor Connect} `{CborAck : Cbor ConnectAck} `{CborReject : Cbor ConnectReject}.
Context `{!CborLaws Connect}.

(** The server opens a session for a fixture exactly when its version is in
    the range and the authoriser admits the producer with its token. *)
Theorem fixture_handshake auth producer min max token env :
  connect_with_optional_token producer min max token = Some env ->
  opens_session auth PROTOCOL_VERSION env <->
  (min <= PROTOCOL_VERSION <= max)%N /\ auth (id_new producer) token = Ok ().
Proof.
  unfold connect_with_optional_token. set (c := {| protocol_version_min := min |}).
  destruct (cbor_to_vec c) as [bs|] eqn:E; [|done]. intros [= <-]. apply cbor_roundtrip in E.
  unfold opens_session. cbn [message_type payload source_id]. split.
  - intros (_ & bs' & c' & [= <-] & Hd & Hv & Ha). rewrite E in Hd. by injection Hd as <-.
  - intros [Hv Ha]. split; [done|]. exists bs, c. by rewrite E.
Qed.
End Handshake.

(** *** Streams through the gate *)
Definition from_producer (pid : string) (ds : list Detection) : list (string * Detection) := pair pid <$> ds.

(** The mark of the fixtures' detector. *)
Abbreviation mark g pid := (high_water g !! (pid, id_new "loop-1" : DetectorId)).

Lemma check_next pid n g :
  (forall hw, mark g pid = Some hw -> (hw < n)%N) -> (n <= u64_max)%N ->
  exists dec g', check pid (beam_break_at_loop n) g = Some (dec, g') /\ persist dec = true /\ mark g' pid = Some n.
Proof.
  intros Hg Hn. unfold check, peek, commit. change (gate_key pid _) with (pid, id_new "loop-1" : DetectorId).
  change (sequence_number _) with n. destruct (mark g pid) as [hw|] eqn:E.
  - specialize (Hg hw eq_refl). rewrite (proj2 (N.leb_gt _ _)) by lia. unfold checked_add64.
    rewrite (proj2 (N.leb_le _ _)), (proj2 (N.ltb_lt _ _)) by lia. simpl.
    destruct (_ =? _)%N; (do 2 eexists; split; [done|]; split; [done|apply lookup_insert_eq]).
  - do 2 eexists. split; [done|]. split; [done|apply lookup_insert_eq].
Qed.

Lemma check_old pid n hw g :
  mark g pid = Some hw -> (n <= hw)%N -> check pid (beam_break_at_loop n) g = Some (Duplicate hw n, g).
Proof.
  intros Hg Hn. unfold check, peek. change (gate_key pid _) with (pid, id_new "loop-1" : DetectorId).
  change (sequence_number _) with n. by rewrite Hg, (proj2 (N.leb_le _ _)).
Qed.

(** One more detection of a stream: a new number passes, an old one does not. *)
Lemma run_next pid n ds g :
  (forall hw, mark g pid = Some hw -> (hw < n)%N) -> (n <= u64_max)%N ->
  exists g1, mark g1 pid = Some n /\ forall out g', run ds g1 = Some (out, g') ->
    run ((pid, beam_break_at_loop n) :: ds) g = Some ((pid, beam_break_at_loop n) :: out, g').
Proof.
  intros Hg Hn. destruct (check_next pid n g Hg Hn) as (dec & g1 & E & Hd & Hm). exists g1. split; [done|].
  intros out g' Hr. simpl. by rewrite E, Hr, Hd.
Qed.

Lemma run_old pid n hw ds g out g' :
  mark g pid = Some hw -> (n <= hw)%N -> run ds g = Some (out, g') ->
  run ((pid, beam_break_at_loop n) :: ds) g = Some (out, g').
Proof. intros Hg Hn Hr. simpl. by rewrite (check_old pid n hw g Hg Hn), Hr. Qed.

Lemma happy_path_from pid n m g :
  (forall hw, mark g pid = Some hw -> (hw < N.of_nat n)%N) -> (N.of_nat (n + m) <= u64_max)%N ->
  exists g', run (from_producer pid ((fun i => beam_break_at_loop (N.of_nat i)) <$> seq n m)) g =
    Some (from_producer pid ((fun i => beam_break_at_loop (N.of_nat i)) <$> seq n m), g').
Proof.
  revert n g. induction m as [|m IH]; intros n g Hg Hmax; [by eexists|].
  destruct (run_next pid (N.of_nat n)
    (from_producer pid ((fun i => beam_break_at_loop (N.of_nat i)) <$> seq (S n) m)) g Hg) as (g1 & Hm & Hr); [lia|].
  destruct (IH (S n) g1) as [g' Hrun]; [rewrite Hm; intros hw [= <-]; lia|lia|].
  exists g'. apply Hr, Hrun.
Qed.

(** A gate that has not seen the detector lets a whole happy path through,
    and of the replay everything but the repeated number. *)
Theorem fixture_streams_gated pid len g :
  mark g pid = None -> (len < u64_max)%N ->
  (exists g', run (from_producer pid (single_detector_happy_path len)) g =
     Some (from_producer pid (single_detector_happy_path len), g')) /\
  (exists g', run (from_producer pid reconnect_with_replay) g =
     Some (from_producer pid (single_detector_happy_path 4), g')).
Proof.
  intros Hg Hlen. split.
  { apply happy_path_from; [by rewrite Hg|lia]. }
  destruct (run_next pid 1 (from_producer pid (tail reconnect_with_replay)) g) as (g1 & H1 & R1); [by rewrite Hg|done|].
  destruct (run_next pid 2 (from_producer pid (drop 2 reconnect_with_replay)) g1) as (g2 & H2 & R2);
    [by rewrite H1; intros hw [= <-]|done|].
  destruct (run_next pid 3 (from_producer pid (drop 3 reconnect_with_replay)) g2) as (g3 & H3 & R3);
    [by rewrite H2; intros hw [= <-]|done|].
  destruct (run_next pid 4 [] g3) as (g4 & H4 & R4); [by rewrite H3; intros hw [= <-]|done|].
  exists g4. eapply R1, R2, R3. eapply run_old; [exact H3|done|]. by apply R4.
Qed.
