(* ===== verification/Conformance.v ===== *)
(** The event log suite of the crate [conformance]
    ([tests/event_log_contract.rs]) and the mock of the unit tests of
    [timing-core] ([testing.rs]).

    A test is a sequence of calls of the storage port and a check of their
    answers.  Both backends pass the suite, the segment log because it answers
    like the in-memory log ([SegmentPort]); and so does the mock, which is the
    in-memory log without retention, except where its [read_range] panics.
    The tests that use a subscription are not part of the port. *)
From stdpp Require Import base gmap strings option numbers list.
From Stdlib Require Import Strings.Byte.
From S2P Require Import Prelude EventModel EventLogPort SegmentFile SegmentFs SegmentLog SegmentLogSafety SegmentPort Fixtures.
From S2P Require MemLog.

(** ** The suite *)
Record PortTest := { calls : list PortOp; passes : list PortAnswer -> bool }.

Abbreviation det := beam_break_event.

Definition is_invalid_input (a : PortAnswer) : bool :=
  match a with AnOffset (Err (InvalidInput _)) => true | _ => false end.

Definition is_offset (n : N) (a : PortAnswer) : bool :=
  match a with AnOffset (Ok o) => bool_decide (o = offset_new n) | _ => false end.

Definition is_bound (o : option Offset) (a : PortAnswer) : bool :=
  match a with AnBound (Ok o') => bool_decide (o' = o) | _ => false end.

(** The answers one by one; an append that is only [unwrap]ped must succeed. *)
Definition is_ok_answer (a : PortAnswer) : bool :=
  match a with AnOffset r => is_ok r | AnEntries r => is_ok r | AnBound r => is_ok r end.

Fixpoint each (checks : list (PortAnswer -> bool)) (answers : list PortAnswer) : bool :=
  match checks, answers with
  | [], [] => true
  | c :: checks, a :: answers => c a && each checks answers
  | _, _ => false
  end.

Definition append_single_returns_offset_zero : PortTest :=
  {| calls := [PAppend "test-producer" [det 0]]; passes := each [is_offset 0] |}.

Definition append_batch_returns_last_offset : PortTest :=
  {| calls := [PAppend "test-producer" [det 0; det 1; det 2]]; passes := each [is_offset 2] |}.

Definition append_empty_rejected_as_invalid_input : PortTest :=
  {| calls := [PAppend "test-producer" []]; passes := each [is_invalid_input] |}.

(** The offsets of the entries are [0, 1, 2] and their producer is [pid]. *)
Definition entries_of (pids : list string) (a : PortAnswer) : bool :=
  match a with
  | AnEntries (Ok es) => bool_decide (fst <$> es = imap (fun i pid => (offset_new (N.of_nat i), pid)) pids)
  | _ => false
  end.

Definition read_range_returns_entries_in_order : PortTest :=
  {| calls := [PAppend "test-producer" [det 0; det 1; det 2]; PRead (offset_new 0) (Some (offset_new 3))];
     passes := each [is_ok_answer; entries_of ["test-producer"; "test-producer"; "test-producer"]] |}.

Definition append_rejects_empty_producer_id : PortTest :=
  {| calls := [PAppend "" [det 0]]; passes := each [is_invalid_input] |}.

Definition latest_and_earliest_offsets_reflect_state : PortTest :=
  {| calls := [PLatest; PEarliest; PAppend "test-producer" [det 0; det 1]; PLatest; PEarliest];
     passes := each [is_bound None; is_bound None; is_ok_answer; is_bound (Some (offset_new 1));
                     is_bound (Some (offset_new 0))] |}.

Definition distinct_producer_ids_are_preserved_per_batch : PortTest :=
  {| calls := [PAppend "alpha" [det 0]; PAppend "beta" [det 1; det 2]; PAppend "alpha" [det 3];
               PRead (offset_new 0) None];
     passes := each [is_ok_answer; is_ok_answer; is_ok_answer; entries_of ["alpha"; "beta"; "beta"; "alpha"]] |}.

Definition event_log_is_dyn_safe : PortTest :=
  {| calls := [PLatest; PAppend "test-producer" [det 0]; PLatest];
     passes := each [is_bound None; is_ok_answer; is_bound (Some (offset_new 0))] |}.

Definition event_log_contract : list PortTest :=
  [append_single_returns_offset_zero; append_batch_returns_last_offset; append_empty_rejected_as_invalid_input;
   read_range_returns_entries_in_order; append_rejects_empty_producer_id;
   latest_and_earliest_offsets_reflect_state; distinct_producer_ids_are_preserved_per_batch;
   event_log_is_dyn_safe].

(** A new log passes a test. *)
Definition passes_on `{EventLog L} (new : L) (t : PortTest) : Prop := passes t (port_answers (calls t) new) = true.

(** ** The mock *)
Record MockEventLog := { mock_entries : list LogEntry }.

Definition mock_new : MockEventLog := {| mock_entries := [] |}.

(** The loop of [append]: the last offset. *)
Fixpoint mock_push (producer_id : string) (events : list OtkEvent) (last : Offset) (m : MockEventLog)
  : Offset * MockEventLog :=
  match events with
  | [] => (last, m)
  | event :: events =>
      let offset := offset_new (len (mock_entries m)) in
      mock_push producer_id events offset
        {| mock_entries := mock_entries m ++
             [{| offset := offset; appended_at_ns := 0; entry_producer_id := producer_id; event := event |}] |}
  end.

Definition mock_append (producer_id : string) (events : list OtkEvent) (m : MockEventLog)
  : result Offset StorageError * MockEventLog :=
  if bool_decide (producer_id = "") then (Err (InvalidInput "producer_id must not be empty"), m) else
  if bool_decide (events = []) then (Err (InvalidInput "events slice empty"), m) else
  let (last, m) := mock_push producer_id events (offset_new 0) m in (Ok last, m).

(** [None]: the slice of [start..end] panics when [end < start]. *)
Definition mock_read_range (from : Offset) (to : option Offset) (m : MockEventLog)
  : option (result (list LogEntry) StorageError) :=
  let start := as_u64 from in
  let end_ := match to with Some o => N.min (as_u64 o) (len (mock_entries m)) | None => len (mock_entries m) end in
  if (len (mock_entries m) <? start)%N then Some (Ok []) else
  if (end_ <? start)%N then None else
  Some (Ok (drop (N.to_nat start) (take (N.to_nat end_) (mock_entries m)))).

Definition mock_latest_offset (m : MockEventLog) : result (option Offset) StorageError :=
  Ok (offset <$> last (mock_entries m)).
Definition mock_earliest_offset (m : MockEventLog) : result (option Offset) StorageError :=
  Ok (offset <$> head (mock_entries m)).

#[export] Instance mock_log : EventLog MockEventLog := {
  append := mock_append;
  read_range from to m := (default (Err (Corrupted "panic")) (mock_read_range from to m), m);
  latest_offset m := (mock_latest_offset m, m);
  earliest_offset m := (mock_earliest_offset m, m)
}.

(** ** The mock is the in-memory log without retention *)

(** Its clock always shows zero. *)
Definition no_clock (n : N) : N := 0.

Abbreviation mem_append := (MemLog.mem_append no_clock).

Definition mocks (m : MockEventLog) (l : MemLog.Inner) : Prop :=
  mock_entries m = MemLog.entries l /\ MemLog.earliest_retained l = None /\ offsets_ok (MemLog.entries l).

(** The same answer, up to the text of a refusal. *)
Definition same_answer {A} (r r' : result A StorageError) : Prop :=
  match r, r' with
  | Ok a, Ok a' => a = a'
  | Err (InvalidInput _), Err (InvalidInput _) => True
  | _, _ => False
  end.

Lemma mock_push_spec pid evs last m l i start :
  mock_entries m = MemLog.entries l -> (start + i = len (MemLog.entries l))%N ->
  let (o, m') := mock_push pid evs last m in
  mock_entries m' = MemLog.entries (MemLog.push_events no_clock start i pid evs l) /\
  (evs <> [] -> as_u64 o = (start + i + len evs - 1)%N).
Proof.
  revert last m l i. induction evs as [|ev evs IH]; intros last m l i E Hi; [done|].
  cbn [mock_push MemLog.push_events].
  set (m1 := {| mock_entries := _ |}). set (l1 := {| MemLog.entries := _ |}).
  specialize (IH (offset_new (len (mock_entries m))) m1 l1 (i + 1)%N).
  destruct (mock_push pid evs _ m1) as [o m'] eqn:Ep.
  destruct IH as [IH1 IH2].
  - subst m1 l1. cbn [mock_entries MemLog.entries]. by rewrite E, Hi.
  - subst l1. cbn [MemLog.entries]. rewrite len_app, len_cons, len_nil. lia.
  - split; [exact IH1|]. intros _. rewrite len_cons. destruct evs as [|ev' evs].
    + cbn [mock_push] in Ep. injection Ep as <- _. rewrite E, len_nil. simpl. lia.
    + rewrite IH2 by done. lia.
Qed.

Lemma mocks_rep m l : mocks m l -> MemLog.mem_rep l (mock_entries m) 0.
Proof. intros (-> & Hr & Ho). split; [done|]. rewrite Hr. split; [done|]. split; [lia|done]. Qed.

Lemma mock_append_agrees m l pid evs :
  mocks m l ->
  let (r, m') := mock_append pid evs m in let (r', l') := mem_append pid evs l in
  same_answer r r' /\ mocks m' l'.
Proof.
  intros (E & Hret & Ho). unfold mock_append, MemLog.mem_append.
  case_bool_decide as Hp; case_bool_decide as He; try (split; [done|by split_and!]).
  pose proof (mock_push_spec pid evs (offset_new 0) m l 0 (len (MemLog.entries l)) E ltac:(lia)) as Hpush.
  destruct (mock_push pid evs (offset_new 0) m) as [[o] m']. destruct Hpush as [Hm Hlast]. specialize (Hlast He).
  destruct (MemLog.push_events_spec no_clock (len (MemLog.entries l)) 0 pid evs l) as (times & _ & Hen & Her).
  split; [simpl in *; f_equal; lia|]. split; [done|]. rewrite Her, Hen, N.add_0_r.
  split; [done|by apply offsets_ok_append].
Qed.

(** A range that ends before it starts, which is in the log or at its end. *)
Definition backwards (from : Offset) (to : option Offset) (n : N) : bool :=
  match to with Some o => (as_u64 o <? as_u64 from)%N && (as_u64 from <=? n)%N | None => false end.

Lemma mock_read_agrees m l from to :
  mocks m l ->
  mock_read_range from to m =
    if backwards from to (len (mock_entries m)) then None else Some (fst (MemLog.mem_read_range from to l)).
Proof.
  intros Hm. pose proof (mocks_rep m l Hm) as Hrep. destruct Hm as (E & Hret & _).
  rewrite (MemLog.mem_read_spec l _ _ _ _ Hrep). unfold MemLog.expired. rewrite Hret. cbn [fst].
  unfold mock_read_range, backwards, history_range. set (n := len (mock_entries m)).
  destruct (N.ltb_spec n (as_u64 from)) as [Hlt|Hge].
  - replace (match to with Some o => _ | None => false end) with false
      by (destruct to; [rewrite (proj2 (N.leb_gt _ _) Hlt); by rewrite andb_false_r|done]).
    do 2 f_equal. symmetry. apply drop_ge. destruct to; rewrite ?length_take; unfold n, len in *; lia.
  - rewrite (proj2 (N.leb_le _ _) Hge). destruct to as [o|].
    + rewrite andb_true_r. destruct (N.ltb_spec (as_u64 o) (as_u64 from)) as [Ho|Ho].
      * by rewrite (proj2 (N.ltb_lt (N.min (as_u64 o) n) _)) by lia.
      * rewrite (proj2 (N.ltb_ge (N.min (as_u64 o) n) _)) by lia. do 3 f_equal.
        destruct (decide (as_u64 o <= n)%N); [f_equal; lia|]. rewrite !take_ge; [done|unfold n, len in *; lia..].
    + rewrite (proj2 (N.ltb_ge n _)) by lia. do 3 f_equal. apply take_ge. unfold n, len. lia.
Qed.

Lemma mock_offsets_agree m l :
  mocks m l ->
  mock_latest_offset m = fst (MemLog.mem_latest_offset l) /\
  mock_earliest_offset m = fst (MemLog.mem_earliest_offset l).
Proof.
  intros Hm. pose proof (mocks_rep m l Hm) as Hrep. destruct Hm as (E & _ & Ho). rewrite <- E in Ho.
  rewrite (MemLog.mem_latest_spec _ _ _ Hrep), (MemLog.mem_earliest_spec _ _ _ Hrep).
  unfold mock_latest_offset, mock_earliest_offset. cbn [fst].
  destruct (mock_entries m) as [|e es] eqn:Ee; [done|].
  rewrite (proj2 (N.ltb_lt 0 _)) by (rewrite len_cons; lia). split.
  - destruct (last (e :: es)) as [e'|] eqn:El; [|by apply last_None in El]. simpl. do 2 f_equal.
    rewrite last_lookup in El. pose proof (Ho _ _ El) as Hoff. destruct (offset e') as [n]. simpl in *. f_equal.
    rewrite Hoff. unfold len. simpl. lia.
  - simpl. do 2 f_equal. pose proof (Ho 0%nat e eq_refl) as Hoff. by destruct (offset e); simpl in *; subst.
Qed.

(** The mock behaves as the in-memory log that evicts nothing: the same
    offsets, entries and bounds, and refusals up to their text; but its
    [read_range] panics on a range that ends before it starts, for which the
    port promises an empty answer, unless it starts beyond the end. *)
Theorem mock_simulates_memory m l : mocks m l ->
  (forall pid evs,
     let (r, m') := mock_append pid evs m in let (r', l') := mem_append pid evs l in
     same_answer r r' /\ mocks m' l') /\
  (forall from to, mock_read_range from to m =
     if backwards from to (len (mock_entries m)) then None else Some (fst (MemLog.mem_read_range from to l))) /\
  mock_latest_offset m = fst (MemLog.mem_latest_offset l) /\
  mock_earliest_offset m = fst (MemLog.mem_earliest_offset l).
Proof.
  intros Hm. split; [by intros; apply mock_append_agrees|]. split; [by intros; apply mock_read_agrees|].
  by apply mock_offsets_agree.
Qed.

(** ** Every backend passes *)

(** The memory log passes, whatever its clock shows. *)
Lemma memory_conforms mem_now : Forall (@passes_on _ (MemLog.mem_log mem_now) MemLog.mem_new) event_log_contract.
Proof. repeat constructor. Qed.

Lemma mock_conforms : Forall (passes_on mock_new) event_log_contract.
Proof. repeat constructor. Qed.

Section Segment.
Context `{CborEvent : Cbor OtkEvent} `{Crc : Crc32} `{!CborLaws OtkEvent} `{!Crc32Laws}.
Variable now : N -> N.
Hypothesis now_u64 : forall n, wf_u64 (now n).

Lemma suite_storable :
  (forall i, (i < 4)%N -> storable (det i)) -> Forall (fun t => Forall op_storable (calls t)) event_log_contract.
Proof.
  intros Hd.
  assert (Hevs : Forall storable [det 0; det 1; det 2; det 3]) by (repeat constructor; by apply Hd).
  rewrite Forall_forall in Hevs.
  assert (Hops : Forall (fun pid => utf8_valid (str_bytes pid) = true /\ (len (str_bytes pid) <= MAX_PRODUCER_ID_BYTES)%N)
    ["test-producer"; "alpha"; "beta"; ""]) by (repeat constructor; discriminate).
  rewrite Forall_forall in Hops.
  assert (Happ : forall pid evs, pid ∈ ["test-producer"; "alpha"; "beta"; ""] -> evs ⊆ [det 0; det 1; det 2; det 3] ->
    op_storable (PAppend pid evs)).
  { intros pid evs Hp He. destruct (Hops pid Hp). split; [done|]. split; [done|].
    apply Forall_forall. intros ev Hin. by apply Hevs, He. }
  repeat (apply Forall_cons; split; [repeat (apply Forall_cons; split; [first [done|apply Happ; set_solver]|]); apply Forall_nil_2|]).
  apply Forall_nil_2.
Qed.

(** Every backend passes the suite: the segment log on an empty directory on
    which nothing fails, the in-memory log, and the mock. *)
Theorem backends_conform mem_now cfg w :
  retention cfg = Indefinite -> healthy w -> disk w = ∅ -> (forall i, (i < 4)%N -> storable (det i)) ->
  (exists l w', log_open false now cfg w = Some (Ok l, w') /\
     Forall (@passes_on _ (segment_log now) (l, w')) event_log_contract) /\
  Forall (@passes_on _ (MemLog.mem_log mem_now) MemLog.mem_new) event_log_contract /\
  Forall (passes_on mock_new) event_log_contract.
Proof.
  intros Hret Hh Hd Hst. split; [|split; [apply memory_conforms|apply mock_conforms]].
  destruct (open_empty now now_u64 cfg w Hret Hh Hd) as (l & w' & E & _). exists l, w'. split; [done|].
  pose proof (suite_storable Hst) as Hops. pose proof (memory_conforms no_clock) as Hmem.
  rewrite Forall_forall in Hops, Hmem |- *. intros t Ht. unfold passes_on.
  destruct (opened_answers now no_clock now_u64 cfg w (calls t) Hret Hh Hd (Hops t Ht)) as (l1 & w1 & E1 & Ea).
  - clear -Ht. revert t Ht. apply Forall_forall. repeat (apply Forall_cons; split; [vm_compute; discriminate|]). apply Forall_nil_2.
  - rewrite E in E1. injection E1 as <- <-. rewrite Ea. by apply Hmem.
Qed.
End Segment.
