(* ===== verification/CrossingProcessor.v ===== *)
(** The crossing processor (crate [timing-core], [domain/crossing.rs],
    [processor_config.rs] and [crossing_processor.rs]): grouping detections of
    one subject at one timing point into crossings.

    [None] is a panic (an index or an [unwrap]).  The UUIDs of new crossings
    come from a parameter: [new_uuid n] is the [n]-th one drawn.  The iteration
    order of the [HashMap] in [flush] is unspecified in Rust; the theorems about
    it hold up to permutation. *)
From stdpp Require Import base gmap strings list option numbers.
From S2P Require Import Prelude EventModel.

Record Crossing := {
  crossing_id : string;
  cr_timing_point_id : TimingPointId;
  cr_subject_id : option SubjectId;
  crossed_at_ns : N;
  crossed_at_uncertainty_ns : option N;
  cr_timebase_id : TimebaseId;
  cr_timestamping_method : TimestampingMethod;
  cr_source_attestation : SourceAttestation;
  detection_ids : list DetectionId
}.

Record ProcessorConfig := { grouping_window_ns : N }.

Definition default_config : ProcessorConfig := {| grouping_window_ns := 2000000000 |}.

Record PendingGroup := { detections : list Detection }.

Abbreviation GroupKey := (TimingPointId * SubjectId)%type.

Record CrossingProcessor := {
  config : ProcessorConfig;
  pending : gmap GroupKey PendingGroup
}.

(** ** Iterators: [max_by_key] keeps the last maximum, [min_by_key] the first
    minimum; the index of the element with its key. *)
Fixpoint max_by_key (keys : list Z) : option (nat * Z) :=
  match keys with
  | [] => None
  | k :: keys =>
      match max_by_key keys with
      | None => Some (0, k)
      | Some (i, m) => if (k <=? m)%Z then Some (S i, m) else Some (0, k)
      end
  end.

Fixpoint min_by_key (keys : list Z) : option (nat * Z) :=
  match keys with
  | [] => None
  | k :: keys =>
      match min_by_key keys with
      | None => Some (0, k)
      | Some (i, m) => if (k <=? m)%Z then Some (0, k) else Some (S i, m)
      end
  end.

Definition iter_min (ns : list N) : option N :=
  match ns with [] => None | n :: ns => Some (foldl N.min n ns) end.

Definition iter_max (ns : list N) : option N :=
  match ns with [] => None | n :: ns => Some (foldl N.max n ns) end.

(** ** Groups *)
Definition rssi_of (d : Detection) : option Z :=
  match sensor d with LoopTransponder (Some rssi) _ => Some rssi | _ => None end.

Definition rssi_key (d : Detection) : Z := default i16_min (rssi_of d).

Definition pick_peak_index (ds : list Detection) : option nat :=
  let has_rssi := existsb (fun d => bool_decide (is_Some (rssi_of d))) ds in
  if has_rssi then fst <$> max_by_key (rssi_key <$> ds)
  else fst <$> min_by_key ((fun d => Z.of_N (detected_at_ns d)) <$> ds).

Definition first_detected_at_ns (g : PendingGroup) : option N :=
  detected_at_ns <$> detections g !! 0.

Definition widen (peak_uncertainty : option N) (span : N) : option N :=
  match peak_uncertainty with
  | Some u => if (0 <? span)%N then Some (N.max u span) else Some u
  | None => if (0 <? span)%N then Some span else None
  end.

Definition group_commit (uuid : string) (g : PendingGroup) : option Crossing :=
  let ds := detections g in
  let! first_at := iter_min (detected_at_ns <$> ds) in
  let! last_at := iter_max (detected_at_ns <$> ds) in
  let span := saturating_sub last_at first_at in
  let! peak_idx := pick_peak_index ds in
  let! peak := ds !! peak_idx in
  let! head := ds !! 0 in
  Some {| crossing_id := uuid; cr_timing_point_id := timing_point_id head;
          cr_subject_id := subject_id head; crossed_at_ns := detected_at_ns peak;
          crossed_at_uncertainty_ns := widen (detected_at_uncertainty_ns peak) span;
          cr_timebase_id := timebase_id peak;
          cr_timestamping_method := timestamping_method peak;
          cr_source_attestation := source_attestation peak;
          detection_ids := detection_id <$> ds |}.

Section Processor.
Variable new_uuid : N -> string.

Definition proc_new (config : ProcessorConfig) : CrossingProcessor :=
  {| config := config; pending := ∅ |}.

(** Whether [det] falls outside the window of the pending group of its key. *)
Definition outside_window (det : Detection) (key : GroupKey) (p : CrossingProcessor) : option bool :=
  match pending p !! key with
  | None => Some false
  | Some g =>
      let! first := first_detected_at_ns g in
      Some (grouping_window_ns (config p) <? saturating_sub (detected_at_ns det) first)%N
  end.

Definition peek_detection (draw : N) (det : Detection) (p : CrossingProcessor)
  : option (list Crossing) :=
  match subject_id det with
  | None => let! c := group_commit (new_uuid draw) {| detections := [det] |} in Some [c]
  | Some subject_id =>
      let key := (timing_point_id det, subject_id) in
      let! outside := outside_window det key p in
      if outside then
        let! g := pending p !! key in
        let! c := group_commit (new_uuid draw) {| detections := detections g |} in
        Some [c]
      else Some []
  end.

Definition commit_detection (draw : N) (det : Detection) (p : CrossingProcessor)
  : option (list Crossing * CrossingProcessor) :=
  match subject_id det with
  | None => let! c := group_commit (new_uuid draw) {| detections := [det] |} in Some ([c], p)
  | Some subject_id =>
      let key := (timing_point_id det, subject_id) in
      let! outside := outside_window det key p in
      let! (committed, pend) :=
        (if outside then
           let! old_group := pending p !! key in
           let! c := group_commit (new_uuid draw) old_group in
           Some ([c], delete key (pending p))
         else Some ([], pending p)) in
      let entry := default {| detections := [] |} (pend !! key) in
      Some (committed,
            {| config := config p;
               pending := <[key := {| detections := detections entry ++ [det] |}]> pend |})
  end.

Fixpoint commit_groups (draw : N) (gs : list PendingGroup) : option (list Crossing) :=
  match gs with
  | [] => Some []
  | g :: gs =>
      let! c := group_commit (new_uuid draw) g in
      let! cs := commit_groups (draw + 1) gs in
      Some (c :: cs)
  end.

Definition flush (draw : N) (p : CrossingProcessor) : option (list Crossing * CrossingProcessor) :=
  let! cs := commit_groups draw (snd <$> map_to_list (pending p)) in
  Some (cs, {| config := config p; pending := ∅ |}).

(** Committing a stream of detections, each crossing drawing a fresh id. *)
Fixpoint commit_stream (draw : N) (dets : list Detection) (p : CrossingProcessor)
  : option (list Crossing * CrossingProcessor) :=
  match dets with
  | [] => Some ([], p)
  | d :: dets =>
      let! (cs, p) := commit_detection draw d p in
      let! (cs', p) := commit_stream (draw + len cs) dets p in
      Some (cs ++ cs', p)
  end.
End Processor.

(** ** Invariant *)
Record wf_group (window : N) (key : GroupKey) (ds : list Detection) : Prop := {
  group_nonempty : ds <> [];
  group_key : Forall (fun d => timing_point_id d = fst key /\ subject_id d = Some (snd key)) ds;
  group_window : forall first, ds !! 0 = Some first ->
    Forall (fun d => (detected_at_ns d <= detected_at_ns first + window)%N) ds
}.

Definition wf_proc (p : CrossingProcessor) : Prop :=
  map_Forall (fun key g => wf_group (grouping_window_ns (config p)) key (detections g)) (pending p).

(** A crossing without its random identifier. *)
Definition anonymous (c : Crossing) : Crossing :=
  {| crossing_id := ""; cr_timing_point_id := cr_timing_point_id c; cr_subject_id := cr_subject_id c;
     crossed_at_ns := crossed_at_ns c; crossed_at_uncertainty_ns := crossed_at_uncertainty_ns c;
     cr_timebase_id := cr_timebase_id c; cr_timestamping_method := cr_timestamping_method c;
     cr_source_attestation := cr_source_attestation c; detection_ids := detection_ids c |}.

(** What it means for [c] to be the crossing of the detections [ds]. *)
Record crossing_of (ds : list Detection) (c : Crossing) : Prop := {
  co_ids : detection_ids c = detection_id <$> ds;
  co_peak : exists i peak, pick_peak_index ds = Some i /\ ds !! i = Some peak /\
    crossed_at_ns c = detected_at_ns peak /\ cr_timebase_id c = timebase_id peak /\
    cr_timestamping_method c = timestamping_method peak /\
    cr_source_attestation c = source_attestation peak /\
    forall u, detected_at_uncertainty_ns peak = Some u ->
      exists u', crossed_at_uncertainty_ns c = Some u' /\ (u <= u')%N;
  (** The reported interval contains every contributing timestamp. *)
  co_interval : forall d, d ∈ ds -> detected_at_ns d = crossed_at_ns c \/
    exists u, crossed_at_uncertainty_ns c = Some u /\
      (detected_at_ns d <= crossed_at_ns c + u)%N /\ (crossed_at_ns c <= detected_at_ns d + u)%N
}.

(** ** Iterator lemmas *)
Lemma max_by_key_spec ks :
  match max_by_key ks with
  | None => ks = []
  | Some (i, m) => ks !! i = Some m /\
      (forall j k, ks !! j = Some k -> (k <= m)%Z) /\
      (forall j k, ks !! j = Some k -> i < j -> (k < m)%Z)
  end.
Proof.
  induction ks as [|k ks IH]; simpl; [done|]. destruct (max_by_key ks) as [[i m]|].
  - destruct IH as (Hi & Hle & Hlt). destruct (Z.leb_spec k m).
    + split; [done|]. split; intros [|j] k' Hj; simplify_eq/=; [done|by eapply Hle|lia|].
      intros ?. eapply Hlt; [done|lia].
    + split; [done|]. split; intros [|j] k' Hj; simplify_eq/=; [lia| |lia|];
        apply Hle in Hj; lia.
  - subst. split; [done|]. split; intros [|j] k' Hj; simplify_eq/=; lia.
Qed.

Lemma min_by_key_spec ks :
  match min_by_key ks with
  | None => ks = []
  | Some (i, m) => ks !! i = Some m /\
      (forall j k, ks !! j = Some k -> (m <= k)%Z) /\
      (forall j k, ks !! j = Some k -> j < i -> (m < k)%Z)
  end.
Proof.
  induction ks as [|k ks IH]; simpl; [done|]. destruct (min_by_key ks) as [[i m]|].
  - destruct IH as (Hi & Hle & Hlt). destruct (Z.leb_spec k m).
    + split; [done|]. split; intros [|j] k' Hj; simplify_eq/=; try lia.
      apply Hle in Hj. lia.
    + split; [done|]. split; intros [|j] k' Hj; simplify_eq/=; try lia; [by eapply Hle|].
      intros ?. eapply Hlt; [done|lia].
  - subst. split; [done|]. split; intros [|j] k' Hj; simplify_eq/=; lia.
Qed.

Lemma foldl_min_spec ns n :
  (foldl N.min n ns <= n)%N /\ forall m, m ∈ ns -> (foldl N.min n ns <= m)%N.
Proof.
  revert n. induction ns as [|m ns IH]; intros n; simpl; [split; [done|set_solver]|].
  destruct (IH (N.min n m)) as [H1 H2]. split; [lia|].
  intros m' [->|Hin]%elem_of_cons; [lia|by apply H2].
Qed.

Lemma foldl_max_spec ns n :
  (n <= foldl N.max n ns)%N /\ forall m, m ∈ ns -> (m <= foldl N.max n ns)%N.
Proof.
  revert n. induction ns as [|m ns IH]; intros n; simpl; [split; [done|set_solver]|].
  destruct (IH (N.max n m)) as [H1 H2]. split; [lia|].
  intros m' [->|Hin]%elem_of_cons; [lia|by apply H2].
Qed.

Lemma iter_min_max ns :
  ns <> [] -> exists lo hi, iter_min ns = Some lo /\ iter_max ns = Some hi /\
    forall n, n ∈ ns -> (lo <= n <= hi)%N.
Proof.
  destruct ns as [|n ns]; [done|]. intros _. eexists _, _. split; [done|]. split; [done|].
  destruct (foldl_min_spec ns n) as [? Hmin], (foldl_max_spec ns n) as [? Hmax].
  intros m [->|Hin]%elem_of_cons; [done|]. split; [by apply Hmin|by apply Hmax].
Qed.

Lemma pick_peak_total ds :
  ds <> [] -> exists i d, pick_peak_index ds = Some i /\ ds !! i = Some d.
Proof.
  intros Hne. unfold pick_peak_index. destruct (existsb _ ds).
  - pose proof (max_by_key_spec (rssi_key <$> ds)) as H. destruct (max_by_key _) as [[i m]|].
    + destruct H as [Hi _]. apply list_lookup_fmap_Some in Hi as (d & _ & Hd). simpl. eauto.
    + by apply fmap_nil_inv in H.
  - pose proof (min_by_key_spec ((fun d => Z.of_N (detected_at_ns d)) <$> ds)) as H.
    destruct (min_by_key _) as [[i m]|].
    + destruct H as [Hi _]. apply list_lookup_fmap_Some in Hi as (d & _ & Hd). simpl. eauto.
    + by apply fmap_nil_inv in H.
Qed.

(** ** Groups *)
Lemma widen_span u span :
  (0 < span)%N -> exists u', widen u span = Some u' /\ (span <= u')%N.
Proof.
  intros Hs. apply N.ltb_lt in Hs. unfold widen. rewrite Hs.
  destruct u; eexists; (split; [done|]); lia.
Qed.

Lemma widen_uncertainty u span : exists u', widen (Some u) span = Some u' /\ (u <= u')%N.
Proof. unfold widen. case_match; eexists; (split; [done|]); lia. Qed.

Lemma group_commit_spec uuid g :
  detections g <> [] ->
  exists c, group_commit uuid g = Some c /\ crossing_id c = uuid /\ crossing_of (detections g) c /\
    (exists d, detections g !! 0 = Some d /\ cr_timing_point_id c = timing_point_id d /\
               cr_subject_id c = subject_id d).
Proof.
  intros Hne. unfold group_commit.
  destruct (iter_min_max (detected_at_ns <$> detections g)) as (lo & hi & -> & -> & Hb).
  { intros H%fmap_nil_inv. done. }
  destruct (pick_peak_total (detections g) Hne) as (i & peak & Hi & Hpeak). rewrite Hi, Hpeak.
  destruct (detections g) as [|d ds] eqn:Hds; [done|]. cbn [lookup list_lookup].
  eexists. split; [done|]. split; [done|]. split; [|eauto].
  split; cbn -[pick_peak_index widen]; [done| |].
  - exists i, peak. repeat split; try done. intros u ->. apply widen_uncertainty.
  - intros d' Hd'. assert (Hin : forall x, x ∈ d :: ds -> (lo <= detected_at_ns x <= hi)%N).
    { intros x Hx. apply Hb. apply list_elem_of_fmap. eauto. }
    pose proof (Hin _ Hd') as Hd1. pose proof (Hin _ (list_elem_of_lookup_2 _ _ _ Hpeak)) as Hp1.
    unfold saturating_sub. destruct (decide (hi - lo = 0)%N); [left; lia|]. right.
    destruct (widen_span (detected_at_uncertainty_ns peak) (hi - lo)) as (u & -> & Hu); [lia|].
    exists u. split; [done|]. lia.
Qed.

Lemma group_commit_uuid u1 u2 g c :
  group_commit u1 g = Some c ->
  exists c', group_commit u2 g = Some c' /\ anonymous c = anonymous c'.
Proof.
  unfold group_commit. repeat case_match; try done. intros [= <-]. eauto.
Qed.

(** ** The processor *)
Section ProcessorLemmas.
Variable new_uuid : N -> string.

Lemma outside_window_spec det key p :
  wf_proc p ->
  exists b, outside_window det key p = Some b /\
    match pending p !! key with
    | None => b = false
    | Some g => exists first, detections g !! 0 = Some first /\
        (b = true <-> grouping_window_ns (config p) < detected_at_ns det - detected_at_ns first)%N
    end.
Proof.
  intros Hwf. unfold outside_window. destruct (pending p !! key) as [g|] eqn:Hg; [|eauto].
  apply Hwf in Hg as [Hne _ _]. unfold first_detected_at_ns. simpl.
  destruct (detections g) as [|d ds]; [done|]. simpl. eexists. split; [done|].
  exists d. split; [done|]. apply N.ltb_lt.
Qed.

(** What committing a detection of key [key] does, without the plumbing. *)
Lemma commit_detection_spec n det key p :
  wf_proc p -> (timing_point_id det, snd key) = key -> subject_id det = Some (snd key) ->
  exists cs pend', commit_detection new_uuid n det p =
      Some (cs, {| config := config p; pending := pend' |}) /\
    ((exists g, pending p !! key = Some g /\ cs = [] /\
        pend' = <[key := {| detections := detections g ++ [det] |}]> (pending p) /\
        forall first, detections g !! 0 = Some first ->
          (detected_at_ns det <= detected_at_ns first + grouping_window_ns (config p))%N) \/
     (pending p !! key = None /\ cs = [] /\
        pend' = <[key := {| detections := [det] |}]> (pending p)) \/
     (exists g c, pending p !! key = Some g /\ cs = [c] /\
        group_commit (new_uuid n) g = Some c /\ crossing_of (detections g) c /\
        pend' = <[key := {| detections := [det] |}]> (pending p))).
Proof.
  intros Hwf Hkey Hsub. unfold commit_detection. rewrite Hsub, Hkey.
  destruct (outside_window_spec det key p Hwf) as (b & -> & Hb).
  destruct (pending p !! key) as [g|] eqn:Hg.
  - destruct Hb as (first & Hfirst & Hb). destruct b.
    + destruct (group_commit_spec (new_uuid n) g) as (c & Hc & _ & Hco & _); [by eapply Hwf|].
      rewrite Hc. eexists _, _. split; [done|]. right; right. exists g, c.
      do 4 (split; [done|]). rewrite lookup_delete_eq. simpl. by rewrite insert_delete_eq.
    + eexists _, _. split; [done|]. left. exists g. rewrite Hg. simpl.
      do 3 (split; [done|]). intros first' Hf'. simplify_eq.
      destruct (N.ltb_spec (grouping_window_ns (config p)) (detected_at_ns det - detected_at_ns first));
        [by apply Hb in H|lia].
  - subst b. eexists _, _. split; [done|]. right; left. rewrite Hg. done.
Qed.

Lemma commit_anonymous n det p :
  subject_id det = None ->
  exists c, commit_detection new_uuid n det p = Some ([c], p) /\ crossing_of [det] c /\
    group_commit (new_uuid n) {| detections := [det] |} = Some c.
Proof.
  intros Hs. unfold commit_detection. rewrite Hs.
  destruct (group_commit_spec (new_uuid n) {| detections := [det] |}) as (c & Hc & _ & Hco & _); [done|].
  rewrite Hc. eauto.
Qed.

Lemma wf_group_single window key det :
  (timing_point_id det, snd key) = key -> subject_id det = Some (snd key) ->
  wf_group window key [det].
Proof.
  intros Hk Hs. split; [done| |].
  - apply Forall_singleton. split; [by rewrite <- Hk|done].
  - intros first [= <-]. apply Forall_singleton. lia.
Qed.

Lemma wf_group_snoc window key ds det :
  wf_group window key ds -> (timing_point_id det, snd key) = key -> subject_id det = Some (snd key) ->
  (forall first, ds !! 0 = Some first -> (detected_at_ns det <= detected_at_ns first + window)%N) ->
  wf_group window key (ds ++ [det]).
Proof.
  intros [Hne Hkey Hw] Hk Hs Hdet. destruct ds as [|d ds]; [done|]. split.
  - done.
  - apply Forall_app. split; [done|]. apply Forall_singleton. split; [by rewrite <- Hk|done].
  - intros first Hf. simpl in Hf. apply Forall_app. split; [by apply Hw|].
    apply Forall_singleton. by apply Hdet.
Qed.

Lemma key_of_detection det s :
  subject_id det = Some s ->
  let key := (timing_point_id det, s) in
  (timing_point_id det, snd key) = key /\ subject_id det = Some (snd key).
Proof. done. Qed.

Lemma commit_detection_wf n det p cs p' :
  wf_proc p -> commit_detection new_uuid n det p = Some (cs, p') ->
  wf_proc p' /\ config p' = config p.
Proof.
  intros Hwf Hc. destruct (subject_id det) as [s|] eqn:Hs.
  - destruct (key_of_detection det s Hs) as [H1 H2]. set (key := (timing_point_id det, s)) in *.
    destruct (commit_detection_spec n det key p Hwf H1 H2) as (cs' & pend' & Hc' & Hcase).
    rewrite Hc in Hc'. simplify_eq. split; [|done]. unfold wf_proc. simpl.
    destruct Hcase as [(g & Hg & _ & -> & Hw)|[(_ & _ & ->)|(g & c & Hg & _ & _ & _ & ->)]];
      (apply map_Forall_insert_2; [|exact Hwf]).
    + apply wf_group_snoc; [by apply Hwf|done..].
    + by apply wf_group_single.
    + by apply wf_group_single.
  - destruct (commit_anonymous n det p Hs) as (c & Hc' & _). rewrite Hc in Hc'. by simplify_eq.
Qed.

Lemma commit_detection_total n det p :
  wf_proc p -> is_Some (commit_detection new_uuid n det p).
Proof.
  intros Hwf. destruct (subject_id det) as [s|] eqn:Hs.
  - destruct (key_of_detection det s Hs) as [H1 H2].
    destruct (commit_detection_spec n det (timing_point_id det, s) p Hwf H1 H2) as (? & ? & -> & _).
    by eexists.
  - destruct (commit_anonymous n det p Hs) as (c & -> & _). by eexists.
Qed.

(** ** Conservation *)

(** The detections waiting in groups. *)
Definition waiting (p : CrossingProcessor) : list DetectionId :=
  map_to_list (pending p) ≫= fun kv => detection_id <$> detections (snd kv).

Definition emitted (cs : list Crossing) : list DetectionId := cs ≫= detection_ids.

Lemma waiting_insert pend c key ds :
  waiting {| config := c; pending := <[key := {| detections := ds |}]> pend |} ≡ₚ
  (detection_id <$> ds) ++ waiting {| config := c; pending := delete key pend |}.
Proof.
  unfold waiting. simpl. rewrite <- insert_delete_eq.
  rewrite map_to_list_insert by apply lookup_delete_eq. done.
Qed.

Lemma waiting_delete pend c key g :
  pend !! key = Some g ->
  waiting {| config := c; pending := pend |} ≡ₚ
  (detection_id <$> detections g) ++ waiting {| config := c; pending := delete key pend |}.
Proof.
  intros Hg. unfold waiting. simpl. rewrite <- (map_to_list_delete pend key g) by done. done.
Qed.

Lemma commit_detection_conserves n det p cs p' :
  wf_proc p -> commit_detection new_uuid n det p = Some (cs, p') ->
  emitted cs ++ waiting p' ≡ₚ detection_id det :: waiting p.
Proof.
  intros Hwf Hc. destruct (subject_id det) as [s|] eqn:Hs.
  - destruct (key_of_detection det s Hs) as [H1 H2]. set (key := (timing_point_id det, s)) in *.
    destruct (commit_detection_spec n det key p Hwf H1 H2) as (cs' & pend' & Hc' & Hcase).
    rewrite Hc in Hc'. simplify_eq. destruct p as [cfg pend]. simpl in *.
    destruct Hcase as [(g & Hg & -> & -> & _)|[(Hg & -> & ->)|(g & c & Hg & -> & _ & Hco & ->)]];
      rewrite waiting_insert; simpl.
    + rewrite (waiting_delete pend cfg _ g Hg), fmap_app. simpl.
      rewrite <- app_assoc. simpl. by rewrite Permutation_middle.
    + by rewrite delete_id.
    + rewrite (waiting_delete pend cfg _ g Hg), app_nil_r, (co_ids _ _ Hco).
      by rewrite Permutation_middle.
  - destruct (commit_anonymous n det p Hs) as (c & Hc' & Hco & _). rewrite Hc in Hc'. simplify_eq.
    simpl. by rewrite (co_ids _ _ Hco).
Qed.

Lemma commit_stream_spec n dets p :
  wf_proc p -> exists cs p', commit_stream new_uuid n dets p = Some (cs, p') /\ wf_proc p' /\
    config p' = config p /\ emitted cs ++ waiting p' ≡ₚ (detection_id <$> dets) ++ waiting p.
Proof.
  revert n p. induction dets as [|d dets IH]; intros n p Hwf; simpl; [by eexists _, _|].
  destruct (commit_detection_total n d p Hwf) as [[cs p1] Hc]. rewrite Hc.
  destruct (commit_detection_wf n d p cs p1 Hwf Hc) as [Hwf1 Hcfg].
  destruct (IH (n + len cs)%N p1 Hwf1) as (cs' & p' & -> & Hwf' & Hcfg' & Hperm).
  eexists _, _. split; [done|]. split; [done|]. split; [congruence|].
  unfold emitted in *. rewrite bind_app, <- app_assoc, Hperm.
  pose proof (commit_detection_conserves n d p cs p1 Hwf Hc) as Hp1. unfold emitted in Hp1.
  rewrite app_assoc, (Permutation_app_comm (cs ≫= detection_ids)), <- app_assoc, Hp1.
  by rewrite <- Permutation_middle.
Qed.

Lemma commit_groups_spec n gs :
  Forall (fun g => detections g <> []) gs ->
  exists cs, commit_groups new_uuid n gs = Some cs /\
    Forall2 (fun g c => crossing_of (detections g) c) gs cs.
Proof.
  revert n. induction gs as [|g gs IH]; intros n; simpl; [by eexists; split; [done|constructor]|].
  intros Hgs. inversion_clear Hgs as [|? ? Hne Hall].
  destruct (group_commit_spec (new_uuid n) g Hne) as (c & -> & _ & Hco & _).
  destruct (IH (n + 1)%N Hall) as (cs & -> & Hcs). eexists. split; [done|]. by constructor.
Qed.

Lemma flush_spec n p :
  wf_proc p -> exists cs, flush new_uuid n p = Some (cs, proc_new (config p)) /\
    emitted cs ≡ₚ waiting p /\
    Forall2 (fun g c => crossing_of (detections g) c) (snd <$> map_to_list (pending p)) cs.
Proof.
  intros Hwf. unfold flush.
  destruct (commit_groups_spec n (snd <$> map_to_list (pending p))) as (cs & -> & Hcs).
  { apply Forall_fmap, Forall_lookup.
    intros i [k g] Hin%list_elem_of_lookup_2%elem_of_map_to_list. by apply Hwf in Hin as []. }
  exists cs. split; [done|]. split; [|done]. unfold emitted, waiting.
  revert Hcs. generalize (map_to_list (pending p)). clear. intros kvs. revert cs.
  induction kvs as [|[k g] kvs IH]; intros cs Hcs; simpl in Hcs.
  - inversion_clear Hcs. done.
  - inversion_clear Hcs as [|? c ? cs' Hco Hrest]. simpl. by rewrite (co_ids _ _ Hco), IH.
Qed.
End ProcessorLemmas.

Lemma rssi_key_reading ds i d :
  pick_peak_index ds = Some i -> ds !! i = Some d ->
  (exists d' r, d' ∈ ds /\ rssi_of d' = Some r /\ (i16_min < r)%Z) -> is_Some (rssi_of d).
Proof.
  intros Hi Hd (d' & r & Hin & Hr & Hlt). unfold pick_peak_index in Hi.
  assert (Hex : existsb (fun d => bool_decide (is_Some (rssi_of d))) ds = true).
  { apply existsb_exists. exists d'. split; [by apply list_elem_of_In|]. by rewrite Hr. }
  rewrite Hex in Hi. pose proof (max_by_key_spec (rssi_key <$> ds)) as Hm.
  destruct (max_by_key _) as [[j m]|]; [|done]. simpl in Hi. simplify_eq.
  destruct Hm as (Hj & Hle & _). rewrite list_lookup_fmap, Hd in Hj. simpl in Hj. simplify_eq.
  apply list_elem_of_lookup in Hin as [j Hj]. specialize (Hle j (rssi_key d')).
  rewrite list_lookup_fmap, Hj in Hle. specialize (Hle eq_refl).
  unfold rssi_key in Hle. rewrite Hr in Hle. simpl in Hle. destruct (rssi_of d); [done|].
  simpl in Hle. lia.
Qed.

(** ** Properties *)

(** C24: no detection is lost or counted twice: committing any stream and
    flushing never panics, empties the processor, and puts every detection
    into exactly one crossing. *)
Theorem crossings_conserve_detections (new_uuid : N -> string) (cfg : ProcessorConfig)
    (dets : list Detection) (draw draw' : N) :
  exists cs p cs',
    commit_stream new_uuid draw dets (proc_new cfg) = Some (cs, p) /\
    flush new_uuid draw' p = Some (cs', proc_new cfg) /\
    emitted (cs ++ cs') ≡ₚ detection_id <$> dets.
Proof.
  assert (Hwf : wf_proc (proc_new cfg)) by apply map_Forall_empty.
  destruct (commit_stream_spec new_uuid draw dets _ Hwf) as (cs & p & Hc & Hwf' & Hcfg & Hperm).
  destruct (flush_spec new_uuid draw' p Hwf') as (cs' & Hf & Hperm' & _).
  exists cs, p, cs'. rewrite Hcfg in Hf. do 2 (split; [done|]). unfold emitted in *.
  rewrite bind_app, Hperm', Hperm. unfold waiting. simpl. rewrite map_to_list_empty. simpl.
  by rewrite app_nil_r.
Qed.

(** C25: the peek/commit contract: on a well-formed processor neither call
    panics, they agree on every crossing up to its random identifier, and the
    commit keeps the processor well formed. *)
Theorem peek_agrees_with_commit (new_uuid : N -> string) (n m : N) (det : Detection)
    (p : CrossingProcessor) :
  wf_proc p ->
  exists cs cs' p', peek_detection new_uuid n det p = Some cs /\
    commit_detection new_uuid m det p = Some (cs', p') /\
    anonymous <$> cs = anonymous <$> cs' /\ wf_proc p' /\ config p' = config p.
Proof.
  intros Hwf. destruct (commit_detection_total new_uuid m det p Hwf) as [[cs' p'] Hc].
  destruct (commit_detection_wf new_uuid m det p cs' p' Hwf Hc) as [Hwf' Hcfg].
  assert (Hpeek : exists cs, peek_detection new_uuid n det p = Some cs /\
                             anonymous <$> cs' = anonymous <$> cs).
  { unfold commit_detection in Hc. unfold peek_detection.
    destruct (subject_id det) as [s|].
    - destruct (outside_window _ _ p) as [[]|]; [| |done].
      + destruct (pending p !! _) as [[ds]|]; [|done].
        destruct (group_commit (new_uuid m) _) as [c|] eqn:Hg; [|done]. simplify_eq.
        destruct (group_commit_uuid _ (new_uuid n) _ _ Hg) as (c' & Hc' & Ha).
        simpl in Hc' |- *. rewrite Hc'. eexists. split; [done|]. simpl. by rewrite Ha.
      + simplify_eq. by eexists.
    - destruct (group_commit (new_uuid m) _) as [c|] eqn:Hg; [|done]. simplify_eq.
      destruct (group_commit_uuid _ (new_uuid n) _ _ Hg) as (c' & -> & Ha).
      eexists. split; [done|]. simpl. by rewrite Ha. }
  destruct Hpeek as (cs & Hp & Ha). exists cs, cs', p'. by rewrite Ha.
Qed.

(** grouping: a detection of a subject joins the pending group of its key
    exactly when it is within the window of the group's first detection;
    otherwise the old group becomes one crossing, whose detections all have
    that key and lie within the window, and the detection starts a new group. *)
Theorem commit_detection_groups (new_uuid : N -> string) (n : N) (det : Detection) (s : SubjectId)
    (p : CrossingProcessor) :
  wf_proc p -> subject_id det = Some s ->
  let key := (timing_point_id det, s) in
  let window := grouping_window_ns (config p) in
  let joined ds := <[key := {| detections := ds |}]> (pending p) in
  exists cs p', commit_detection new_uuid n det p = Some (cs, p') /\
  match pending p !! key with
  | None => cs = [] /\ pending p' = joined [det]
  | Some g => exists first, detections g !! 0 = Some first /\
      (((detected_at_ns det <= detected_at_ns first + window)%N /\
          cs = [] /\ pending p' = joined (detections g ++ [det])) \/
       ((detected_at_ns first + window < detected_at_ns det)%N /\ pending p' = joined [det] /\
          exists c, cs = [c] /\ crossing_of (detections g) c /\ wf_group window key (detections g)))
  end.
Proof.
  intros Hwf Hs. destruct (key_of_detection det s Hs) as [H1 H2]. cbv zeta.
  destruct (commit_detection_spec new_uuid n det _ p Hwf H1 H2) as (cs & pend & Hc & Hcase).
  exists cs, {| config := config p; pending := pend |}. split; [done|]. simpl.
  destruct (outside_window_spec det (timing_point_id det, s) p Hwf) as (b & Ho & Hb).
  destruct Hcase as [(g & Hg & -> & -> & Hw)|[(Hg & -> & ->)|(g & c & Hg & -> & Hgc & Hco & ->)]];
    rewrite Hg in Hb |- *; [| done |].
  - destruct Hb as (first & Hf & _). exists first. split; [done|]. left. eauto.
  - destruct Hb as (first & Hf & Hb). exists first. split; [done|]. right.
    assert (b = true) as ->.
    { unfold commit_detection in Hc. rewrite Hs, Ho, Hg in Hc. by destruct b; simplify_eq. }
    destruct Hb as [Hb _]. specialize (Hb eq_refl). split; [lia|]. split; [done|].
    exists c. split; [done|]. split; [done|]. by apply Hwf.
Qed.

(** C26: the crossing of a group: it lists the group's detections in order,
    takes time, timebase and provenance from the peak, and its uncertainty
    interval contains every contributing timestamp and is never narrower than
    the peak's own bound. *)
Theorem group_commit_correct (uuid : string) (g : PendingGroup) :
  detections g <> [] ->
  exists c, group_commit uuid g = Some c /\ crossing_id c = uuid /\ crossing_of (detections g) c.
Proof.
  intros Hne. destruct (group_commit_spec uuid g Hne) as (c & ? & ? & ? & _). eauto.
Qed.

(** peak selection: with any signal strength in the group, the last
    detection of maximal strength, one that has a reading as soon as some
    reading is above the floor; otherwise the first of the earliest. *)
Theorem pick_peak_correct (ds : list Detection) :
  ds <> [] ->
  exists i d, pick_peak_index ds = Some i /\ ds !! i = Some d /\
  (if existsb (fun d => bool_decide (is_Some (rssi_of d))) ds
   then (forall j d', ds !! j = Some d' -> (rssi_key d' <= rssi_key d)%Z /\
                                          (i < j -> (rssi_key d' < rssi_key d)%Z)) /\
        ((exists d' r, d' ∈ ds /\ rssi_of d' = Some r /\ (i16_min < r)%Z) -> is_Some (rssi_of d))
   else forall j d', ds !! j = Some d' -> (detected_at_ns d <= detected_at_ns d')%N /\
                                          (j < i -> (detected_at_ns d < detected_at_ns d')%N)).
Proof.
  intros Hne. destruct (pick_peak_total ds Hne) as (i & d & Hi & Hd). exists i, d.
  do 2 (split; [done|]). pose proof (rssi_key_reading ds i d Hi Hd) as Hread.
  unfold pick_peak_index in Hi. destruct (existsb _ ds).
  - split; [|done]. pose proof (max_by_key_spec (rssi_key <$> ds)) as Hm.
    destruct (max_by_key _) as [[j m]|]; [|done]. simpl in Hi. simplify_eq.
    destruct Hm as (Hj & Hle & Hlt). rewrite list_lookup_fmap, Hd in Hj. simpl in Hj. simplify_eq.
    intros j d' Hj. assert (Hk : (rssi_key <$> ds) !! j = Some (rssi_key d'))
      by by rewrite list_lookup_fmap, Hj.
    split; [by eapply Hle|by eapply Hlt].
  - pose proof (min_by_key_spec ((fun d => Z.of_N (detected_at_ns d)) <$> ds)) as Hm.
    destruct (min_by_key _) as [[j m]|]; [|done]. simpl in Hi. simplify_eq.
    destruct Hm as (Hj & Hle & Hlt). rewrite list_lookup_fmap, Hd in Hj. simpl in Hj. simplify_eq.
    intros j d' Hj. assert (Hk : ((fun d => Z.of_N (detected_at_ns d)) <$> ds) !! j =
                                  Some (Z.of_N (detected_at_ns d')))
      by by rewrite list_lookup_fmap, Hj.
    apply Hle in Hk as Hle'. split; [lia|]. intros Hji. specialize (Hlt _ _ Hk Hji). lia.
Qed.

(** ** What modelling showed *)

(** An unknown uncertainty, which consumers must read as unbounded, becomes the
    bounded span of the group. *)
Lemma unknown_uncertainty_becomes_span :
  crossed_at_uncertainty_ns <$> group_commit "c" {| detections :=
    [sample_detection 1 100 (Some "k") BeamBreak; sample_detection 2 103 (Some "k") BeamBreak] |}
  = Some (Some 3%N) /\
  detected_at_uncertainty_ns (sample_detection 1 100 (Some "k") BeamBreak) = None.
Proof. split; reflexivity. Qed.

(** When every reading is at the floor, a later detection without a reading is
    taken for the strongest signal. *)
Lemma floor_reading_loses_to_none :
  pick_peak_index
    [sample_detection 1 100 (Some "k") (LoopTransponder (Some i16_min) None);
     sample_detection 2 200 (Some "k") BeamBreak] = Some 1.
Proof. reflexivity. Qed.

(** ** Witnesses *)
Definition sample_uuid (n : N) : string := if (n =? 0)%N then "uuid-0" else "uuid-n".

Definition sample_proc : CrossingProcessor :=
  {| config := {| grouping_window_ns := 50 |};
     pending := {[ (id_new "tp-a", id_new "k") :=
       {| detections := [sample_detection 1 100 (Some "k") BeamBreak] |} ]} |}.

Lemma sample_proc_wf : wf_proc sample_proc.
Proof.
  apply map_Forall_singleton. split; [done| |].
  - by apply Forall_singleton.
  - intros first [= <-]. apply Forall_singleton. vm_compute. discriminate.
Qed.

Lemma peek_agrees_with_commit_witness :
  exists cs cs' p', peek_detection sample_uuid 0 (sample_detection 2 151 (Some "k") BeamBreak) sample_proc
      = Some cs /\
    commit_detection sample_uuid 1 (sample_detection 2 151 (Some "k") BeamBreak) sample_proc
      = Some (cs', p') /\
    anonymous <$> cs = anonymous <$> cs' /\ wf_proc p' /\ config p' = config sample_proc.
Proof.
  apply (peek_agrees_with_commit sample_uuid 0 1 (sample_detection 2 151 (Some "k") BeamBreak)).
  apply sample_proc_wf.
Defined.

Lemma commit_detection_groups_witness :
  let det := sample_detection 2 151 (Some "k") BeamBreak in
  let key := (timing_point_id det, id_new "k") in
  let joined ds := <[key := {| detections := ds |}]> (pending sample_proc) in
  exists cs p', commit_detection sample_uuid 0 det sample_proc = Some (cs, p') /\
  match pending sample_proc !! key with
  | None => cs = [] /\ pending p' = joined [det]
  | Some g => exists first, detections g !! 0 = Some first /\
      (((detected_at_ns det <= detected_at_ns first + 50)%N /\
          cs = [] /\ pending p' = joined (detections g ++ [det])) \/
       ((detected_at_ns first + 50 < detected_at_ns det)%N /\ pending p' = joined [det] /\
          exists c, cs = [c] /\ crossing_of (detections g) c /\ wf_group 50 key (detections g)))
  end.
Proof.
  apply (commit_detection_groups sample_uuid 0 (sample_detection 2 151 (Some "k") BeamBreak)
           (id_new "k") sample_proc); [apply sample_proc_wf|reflexivity].
Defined.

Lemma group_commit_correct_witness :
  exists c, group_commit "c" {| detections := [sample_detection 1 100 (Some "k") BeamBreak] |} = Some c /\
    crossing_id c = "c" /\ crossing_of [sample_detection 1 100 (Some "k") BeamBreak] c.
Proof.
  apply (group_commit_correct "c" {| detections := [sample_detection 1 100 (Some "k") BeamBreak] |}).
  discriminate.
Defined.

Lemma pick_peak_correct_witness :
  exists i d, pick_peak_index
      [sample_detection 1 100 (Some "k") BeamBreak; sample_detection 2 90 (Some "k") BeamBreak] = Some i /\
    [sample_detection 1 100 (Some "k") BeamBreak; sample_detection 2 90 (Some "k") BeamBreak] !! i = Some d /\
    forall j d', [sample_detection 1 100 (Some "k") BeamBreak;
                  sample_detection 2 90 (Some "k") BeamBreak] !! j = Some d' ->
      (detected_at_ns d <= detected_at_ns d')%N /\ (j < i -> (detected_at_ns d < detected_at_ns d')%N).
Proof.
  apply (pick_peak_correct
    [sample_detection 1 100 (Some "k") BeamBreak; sample_detection 2 90 (Some "k") BeamBreak]).
  discriminate.
Defined.
