(* ===== verification/IngestService.v ===== *)
(** The ingest application service (crate [timing-core],
    [services/event_ingest.rs], [ports/outbound/metrics.rs],
    [ports/inbound/query.rs]) and the per-session loop that feeds it
    (crate [timing-node], [ingest.rs]).

    The service is generic in the storage backend: its theorems are proved
    against [EventLogLaws].  [None] is a panic of the crossing processor or an
    overflow of the gate.  A metrics sink is the list of recorded events. *)
From stdpp Require Import base gmap strings list option numbers sorting.
From S2P Require Import Prelude EventModel EventLogPort SequenceGate CrossingProcessor.
From S2P Require MemLog.

(** ** Ports *)
Inductive MetricEvent :=
  | EventAppended (producer_id event_kind : string)
  | DuplicateDropped (producer_id detector_id : string)
  | SequenceGap (producer_id detector_id : string).

Inductive AppendOutcome := Appended (o : Offset) | DroppedDuplicate.

Record EventEntry := { en_offset : N; en_event : OtkEvent }.

Record EventPage := { page_entries : list EventEntry; page_latest_offset : option N }.

Inductive QueryError :=
  | QRetentionExpired (requested : N) (earliest_available : option N)
  | QNotFound
  | QInternal (msg : string).

Definition map_storage_err (e : StorageError) : QueryError :=
  match e with
  | RetentionExpired requested earliest_available =>
      QRetentionExpired (as_u64 requested) (as_u64 <$> earliest_available)
  | other => QInternal (storage_error_to_string other)
  end.

Definition event_kind_label (e : OtkEvent) : string :=
  match e with
  | EvDetection _ => "Detection"
  | EvDetectorHealth _ => "DetectorHealth"
  | EvTimebaseStatus _ => "TimebaseStatus"
  | EvAdapterMetadata _ => "AdapterMetadata"
  | EvCrossing _ => "Crossing"
  end.

Definition map_crossing (c : Crossing) : CrossingEvent :=
  {| ce_crossing_id := id_new (crossing_id c);
     ce_timing_point_id := cr_timing_point_id c;
     ce_subject_id := cr_subject_id c;
     ce_crossed_at_ns := crossed_at_ns c;
     ce_crossed_at_uncertainty_ns := crossed_at_uncertainty_ns c;
     ce_timebase_id := cr_timebase_id c;
     ce_timestamping_method := cr_timestamping_method c;
     ce_source_attestation := cr_source_attestation c;
     ce_detection_ids := detection_ids c |}.

(** ** The service *)
Record EventIngestService (L : Type) := {
  svc_log : L;
  svc_processor : CrossingProcessor;
  svc_gate : SequenceGate;
  svc_metrics : list MetricEvent;
  (** UUIDs drawn so far. *)
  svc_draws : N
}.
Arguments svc_log {L} _.
Arguments svc_processor {L} _.
Arguments svc_gate {L} _.
Arguments svc_metrics {L} _.
Arguments svc_draws {L} _.
Arguments Build_EventIngestService {L} _ _ _ _ _.

Section Service.
Context `{EL : EventLog L}.
Variable new_uuid : N -> string.

Definition service_new (log : L) (processor_config : ProcessorConfig) (gate : SequenceGate)
  : EventIngestService L :=
  {| svc_log := log; svc_processor := proc_new processor_config; svc_gate := gate;
     svc_metrics := []; svc_draws := 0 |}.

(** Phase 1: the duplicate to drop, or the gap to meter later. *)
Definition decide_event (producer_id : string) (event : OtkEvent) (g : SequenceGate)
  : option (MetricEvent + option (N * N)) :=
  match event with
  | EvDetection det =>
      let! decision := peek producer_id det g in
      match decision with
      | Accept | Advance _ => Some (inr None)
      | Gap expected got => Some (inr (Some (expected, got)))
      | Duplicate _ _ => Some (inl (DuplicateDropped producer_id (as_str (detector_id det))))
      end
  | _ => Some (inr None)
  end.

(** Phase 2: the crossings the detection completes. *)
Definition peek_crossings (draw : N) (event : OtkEvent) (p : CrossingProcessor)
  : option (list OtkEvent) :=
  match event with
  | EvDetection det =>
      let! cs := peek_detection new_uuid draw det p in
      Some ((fun c => EvCrossing (map_crossing c)) <$> cs)
  | _ => Some []
  end.

(** Phase 3: the gate, the processor and the gap counter. *)
Definition commit_event (producer_id : string) (event : OtkEvent) (pending_gap : option (N * N))
    (s : EventIngestService L) : option (EventIngestService L) :=
  match event with
  | EvDetection det =>
      let gate := commit producer_id det (svc_gate s) in
      let! (cs, processor) := commit_detection new_uuid (svc_draws s) det (svc_processor s) in
      Some {| svc_log := svc_log s; svc_processor := processor; svc_gate := gate;
              svc_metrics := svc_metrics s ++
                match pending_gap with
                | Some _ => [SequenceGap producer_id (as_str (detector_id det))]
                | None => []
                end;
              svc_draws := (svc_draws s + len cs)%N |}
  | _ => Some s
  end.

Definition append_metrics (producer_id : string) (event : OtkEvent) (crossings : list OtkEvent)
  : list MetricEvent :=
  EventAppended producer_id (event_kind_label event) ::
  omap (fun c => match c with
                 | EvCrossing _ => Some (EventAppended "<timing-core>" "Crossing")
                 | _ => None end) crossings.

Definition append_event (producer_id : string) (event : OtkEvent) (s : EventIngestService L)
  : option (result AppendOutcome StorageError * EventIngestService L) :=
  let! decision := decide_event producer_id event (svc_gate s) in
  match decision with
  | inl dropped =>
      Some (Ok DroppedDuplicate,
            {| svc_log := svc_log s; svc_processor := svc_processor s; svc_gate := svc_gate s;
               svc_metrics := svc_metrics s ++ [dropped]; svc_draws := svc_draws s |})
  | inr pending_gap =>
      let! crossings := peek_crossings (svc_draws s) event (svc_processor s) in
      let batch := event :: crossings in
      let '(r, log) := append producer_id batch (svc_log s) in
      let s' := {| svc_log := log; svc_processor := svc_processor s; svc_gate := svc_gate s;
                   svc_metrics := svc_metrics s;
                   svc_draws := (svc_draws s + len crossings)%N |} in
      match r with
      | Err e => Some (Err e, s')
      | Ok offset =>
          let! s'' := commit_event producer_id event pending_gap s' in
          Some (Ok (Appended offset),
                {| svc_log := svc_log s''; svc_processor := svc_processor s'';
                   svc_gate := svc_gate s'';
                   svc_metrics := svc_metrics s'' ++ append_metrics producer_id event crossings;
                   svc_draws := svc_draws s'' |})
      end
  end.

(** ** Queries *)
Definition with_log (s : EventIngestService L) (log : L) : EventIngestService L :=
  {| svc_log := log; svc_processor := svc_processor s; svc_gate := svc_gate s;
     svc_metrics := svc_metrics s; svc_draws := svc_draws s |}.

Definition query_latest_offset (s : EventIngestService L)
  : result (option N) QueryError * EventIngestService L :=
  let (r, log) := latest_offset (svc_log s) in
  (match r with Ok o => Ok (as_u64 <$> o) | Err e => Err (map_storage_err e) end, with_log s log).

Definition read_events (from limit : N) (s : EventIngestService L)
  : result EventPage QueryError * EventIngestService L :=
  match latest_offset (svc_log s) with
  | (Err e, log) => (Err (map_storage_err e), with_log s log)
  | (Ok latest, log) =>
      let to := offset_new (saturating_add64 from limit) in
      match read_range (offset_new from) (Some to) log with
      | (Err e, log) => (Err (map_storage_err e), with_log s log)
      | (Ok entries, log) =>
          (Ok {| page_entries := (fun e => {| en_offset := as_u64 (offset e); en_event := event e |})
                                   <$> entries;
                 page_latest_offset := as_u64 <$> latest |}, with_log s log)
      end
  end.

(** ** The session loop: events are appended in order until the session ends,
    fails, or storage fails.  [Some (Ok e)] is an incoming event, [Some (Err _)]
    a session error, and the list's end a clean disconnect. *)
Inductive SessionEnd := EndedCleanly | SessionFailed (e : string) | StorageFailed (e : StorageError).

Fixpoint handle_session (producer_id : string) (incoming : list (result OtkEvent string))
    (s : EventIngestService L) : option (SessionEnd * EventIngestService L) :=
  match incoming with
  | [] => Some (EndedCleanly, s)
  | Err e :: _ => Some (SessionFailed e, s)
  | Ok event :: incoming =>
      let! (r, s) := append_event producer_id event s in
      match r with
      | Err e => Some (StorageFailed e, s)
      | Ok _ => handle_session producer_id incoming s
      end
  end.
End Service.

Definition wf_event (e : OtkEvent) : Prop :=
  match e with EvDetection d => wf_u64 (sequence_number d) | _ => True end.

(** The detection an event carries, with its producer. *)
Definition event_detections (pid : string) (e : OtkEvent) : list (string * Detection) :=
  match e with EvDetection d => [(pid, d)] | _ => [] end.

Lemma history_detections_app h1 h2 :
  history_detections (h1 ++ h2) = history_detections h1 ++ history_detections h2.
Proof. unfold history_detections. apply omap_app. Qed.

(** A batch carries the detection it was built for and no other. *)
Lemma history_detections_batch next pid times e cs :
  length times = S (length cs) ->
  history_detections (batch_entries next pid times
    (e :: ((fun c => EvCrossing (map_crossing c)) <$> cs))) = event_detections pid e.
Proof.
  destruct times as [|t times]; simpl; [done|]. intros [= Hl].
  assert (Hnil : forall n, history_detections (batch_entries n pid times
    ((fun c => EvCrossing (map_crossing c)) <$> cs)) = []).
  { clear t e. revert times Hl. induction cs as [|c cs IH]; intros [|t times] Hl n; simplify_eq/=; [done|].
    unfold history_detections in *. simpl. by apply IH. }
  unfold history_detections in *. simpl. rewrite Hnil. by destruct e.
Qed.

Section ServiceLemmas.
Context `{EL : EventLog L} `{!EventLogLaws L}.
Variable new_uuid : N -> string.

(** Peeking never panics; the crossings come from the processor. *)
Lemma peek_crossings_total n e p :
  wf_proc p -> exists cs, peek_crossings new_uuid n e p =
    Some ((fun c => EvCrossing (map_crossing c)) <$> cs) /\ length cs <= 1 /\
    match e with EvDetection d => peek_detection new_uuid n d p = Some cs | _ => cs = [] end.
Proof.
  intros Hwf. destruct e as [d| | | |]; try (exists []; split; [done|split; [simpl; lia|done]]).
  assert (Hp : exists cs, peek_detection new_uuid n d p = Some cs /\ length cs <= 1).
  { unfold peek_detection. destruct (subject_id d) as [s|].
    - destruct (outside_window_spec d (timing_point_id d, s) p Hwf) as (b & -> & Hb).
      destruct b; [|by exists []; split; [|simpl; lia]].
      destruct (pending p !! _) as [g|] eqn:Hg; [|by exfalso].
      destruct (group_commit_spec (new_uuid n) {| detections := detections g |})
        as (c & Hc & _); [by apply Hwf in Hg as []|].
      rewrite Hc. eexists. split; [done|simpl; lia].
    - destruct (group_commit_spec (new_uuid n) {| detections := [d] |}) as (c & Hc & _); [done|].
      rewrite Hc. eexists. split; [done|simpl; lia]. }
  destruct Hp as (cs & Hcs & Hl). exists cs. simpl. rewrite Hcs. split; [done|].
  done.
Qed.

Lemma decide_event_total pid e g :
  wf_event e -> exists dec, decide_event pid e g = Some dec /\
  match dec with
  | inl m => exists d hw, e = EvDetection d /\ high_water g !! gate_key pid d = Some hw /\
      (sequence_number d <= hw)%N /\ m = DuplicateDropped pid (as_str (detector_id d))
  | inr gap =>
      (forall d, e = EvDetection d ->
         from_option (fun hw => (hw < sequence_number d)%N) True (high_water g !! gate_key pid d)) /\
      (forall d, e = EvDetection d -> (is_Some gap <->
         exists hw, high_water g !! gate_key pid d = Some hw /\ (hw + 1 < sequence_number d)%N)) /\
      ((forall d, e <> EvDetection d) -> gap = None)
  end.
Proof.
  intros Hwf. destruct e as [d| | | |]; try (exists (inr None); repeat split; by intros).
  destruct (peek_spec pid d g Hwf) as (dec & Hp & Hs). simpl. rewrite Hp.
  destruct (high_water g !! gate_key pid d) as [hw|] eqn:Hg.
  - destruct Hs as [[Hle ->]|[[Heq ->]|[Hlt ->]]]; eexists; (split; [done|]).
    + exists d, hw. done.
    + split; [intros d' [= <-]; rewrite Hg; simpl; lia|].
      split; [|by intros Hn; destruct (Hn d)]. intros d' [= <-]. rewrite Hg. split.
      * by intros [? ?].
      * intros (hw' & [= <-] & ?). lia.
    + split; [intros d' [= <-]; rewrite Hg; simpl; lia|].
      split; [|by intros Hn; destruct (Hn d)]. intros d' [= <-]. rewrite Hg. split; eauto.
  - subst dec. eexists. split; [done|].
    split; [intros d' [= <-]; by rewrite Hg|]. split; [|done]. intros d' [= <-]. rewrite Hg.
    split; [by intros [? ?]|by intros (? & ? & _)].
Qed.

Lemma commit_event_spec pid e gap (s : EventIngestService L) :
  wf_proc (svc_processor s) ->
  exists s', commit_event new_uuid pid e gap s = Some s' /\ wf_proc (svc_processor s') /\
    svc_log s' = svc_log s /\ svc_gate s' = commit_all (event_detections pid e) (svc_gate s) /\
    svc_metrics s' = svc_metrics s ++
      match gap, e with Some _, EvDetection d => [SequenceGap pid (as_str (detector_id d))]
                      | _, _ => [] end /\
    (forall d, e = EvDetection d -> exists n cs,
       commit_detection new_uuid n d (svc_processor s) = Some (cs, svc_processor s')) /\
    ((forall d, e <> EvDetection d) -> svc_processor s' = svc_processor s).
Proof.
  intros Hwf. destruct e as [d|h|t|m|c].
  - simpl. destruct (commit_detection_total new_uuid (svc_draws s) d _ Hwf) as [[cs p'] Hc].
    rewrite Hc. eexists. split; [done|]. simpl.
    destruct (commit_detection_wf _ _ _ _ _ _ Hwf Hc) as [Hwf' _].
    split; [done|]. split; [done|]. split; [done|]. split; [by destruct gap|]. split.
    + intros d' [= <-]. eauto.
    + intros Hn. by destruct (Hn d).
  - exists s. split_and!; try done. destruct gap; simpl; by rewrite app_nil_r.
  - exists s. split_and!; try done. destruct gap; simpl; by rewrite app_nil_r.
  - exists s. split_and!; try done. destruct gap; simpl; by rewrite app_nil_r.
  - exists s. split_and!; try done. destruct gap; simpl; by rewrite app_nil_r.
Qed.

(** What a successful append leaves behind. *)
Record appended (pid : string) (e : OtkEvent) (cs : list Crossing) (times : list N) (o : Offset)
    (s s' : EventIngestService L) (h h' : list LogEntry) : Prop := {
  ap_times : length times = S (length cs);
  ap_history : h' = h ++ batch_entries (len h) pid times
                          (e :: ((fun c => EvCrossing (map_crossing c)) <$> cs));
  ap_offset : as_u64 o = (len h' - 1)%N;
  ap_crossings : match e with
    | EvDetection d => peek_detection new_uuid (svc_draws s) d (svc_processor s) = Some cs
    | _ => cs = [] end;
  ap_gate : svc_gate s' = commit_all (event_detections pid e) (svc_gate s);
  ap_processor : match e with
    | EvDetection d => exists n cs', commit_detection new_uuid n d (svc_processor s) =
                                     Some (cs', svc_processor s')
    | _ => svc_processor s' = svc_processor s end;
  ap_fresh : forall d, e = EvDetection d ->
    from_option (fun hw => (hw < sequence_number d)%N) True (high_water (svc_gate s) !! gate_key pid d);
  (** The gap counter moves exactly when a gap was persisted. *)
  ap_metrics : exists gap, svc_metrics s' = svc_metrics s ++ gap ++
      EventAppended pid (event_kind_label e) :: repeat (EventAppended "<timing-core>" "Crossing") (length cs) /\
    match e with
    | EvDetection d =>
        (gap = [] \/ gap = [SequenceGap pid (as_str (detector_id d))]) /\
        (gap <> [] <-> exists hw, high_water (svc_gate s) !! gate_key pid d = Some hw /\
                                  (hw + 1 < sequence_number d)%N)
    | _ => gap = []
    end
}.

(** The same processor, gate and metrics. *)
Definition same_state (s s' : EventIngestService L) : Prop :=
  svc_processor s' = svc_processor s /\ svc_gate s' = svc_gate s /\ svc_metrics s' = svc_metrics s.

Lemma append_metrics_spec pid e cs :
  append_metrics pid e ((fun c => EvCrossing (map_crossing c)) <$> cs) =
  EventAppended pid (event_kind_label e) :: repeat (EventAppended "<timing-core>" "Crossing") (length cs).
Proof. unfold append_metrics. f_equal. induction cs as [|c cs IH]; [done|]. simpl. f_equal. exact IH. Qed.

(** What the gate knows is dropped. *)
Lemma append_event_known pid d (s : EventIngestService L) hw :
  high_water (svc_gate s) !! gate_key pid d = Some hw -> (sequence_number d <= hw)%N ->
  exists s', append_event new_uuid pid (EvDetection d) s = Some (Ok DroppedDuplicate, s') /\
    svc_log s' = svc_log s /\ svc_gate s' = svc_gate s /\ svc_processor s' = svc_processor s.
Proof.
  intros Hhw Hle. unfold append_event, decide_event, peek. rewrite Hhw, (proj2 (N.leb_le _ _) Hle).
  by eexists.
Qed.

(** What a call that ended in an error left: nothing, or the whole batch when
    the log failed after its commit. *)
Definition left_by_error (sure : bool) (pid : string) (e : OtkEvent) (s s' : EventIngestService L)
    (h : list LogEntry) (k : N) : Prop :=
  log_rep sure (svc_log s') h k \/
  sure = false /\ exists cs times k', (k <= k')%N /\ length times = S (length cs) /\
    match e with
    | EvDetection d => peek_detection new_uuid (svc_draws s) d (svc_processor s) = Some cs
    | _ => cs = []
    end /\
    log_rep sure (svc_log s')
      (h ++ batch_entries (len h) pid times (e :: ((fun c => EvCrossing (map_crossing c)) <$> cs))) k'.

Lemma append_event_cases sure pid e (s : EventIngestService L) h k :
  log_rep sure (svc_log s) h k -> wf_proc (svc_processor s) -> wf_event e ->
  exists r s', append_event new_uuid pid e s = Some (r, s') /\ wf_proc (svc_processor s') /\
  match r with
  | Ok DroppedDuplicate => exists d hw, e = EvDetection d /\
      high_water (svc_gate s) !! gate_key pid d = Some hw /\ (sequence_number d <= hw)%N /\
      svc_log s' = svc_log s /\ svc_processor s' = svc_processor s /\ svc_gate s' = svc_gate s /\
      svc_metrics s' = svc_metrics s ++ [DuplicateDropped pid (as_str (detector_id d))]
  | Err _ => left_by_error sure pid e s s' h k /\ same_state s s'
  | Ok (Appended o) => exists cs times h' k', (k <= k')%N /\ log_rep sure (svc_log s') h' k' /\
      appended pid e cs times o s s' h h'
  end.
Proof.
  intros Hrep Hproc He. unfold append_event.
  destruct (decide_event_total pid e (svc_gate s) He) as (dec & -> & Hdec).
  destruct dec as [m|gap].
  { destruct Hdec as (d & hw & -> & Hhw & Hle & ->). eexists _, _. split; [done|]. split; [done|].
    exists d, hw. done. }
  destruct Hdec as (Hfresh & Hgap & Hnogap).
  destruct (peek_crossings_total (svc_draws s) e _ Hproc) as (cs & -> & Hlen & Hpeek).
  destruct (append pid _ (svc_log s)) as [[o|err] log'] eqn:Happ.
  2:{ eexists _, _. split; [done|]. split; [done|].
      split; [|done]. destruct (log_append_err _ _ _ _ _ _ _ _ Hrep Happ) as [?|(-> & times & k' & Ht & Hk & Hrep')]; [by left|].
      right. split; [done|]. exists cs, times, k'. simpl in Ht. rewrite length_fmap in Ht. by destruct e. }
  destruct (log_append_ok _ _ _ _ _ _ _ _ Hrep Happ) as (_ & _ & Ho & times & k' & Htimes & Hk & Hrep').
  match goal with |- context [commit_event _ _ _ _ ?x] => set (s1 := x) end.
  destruct (commit_event_spec pid e gap s1 Hproc)
    as (s2 & -> & Hproc2 & Hlog2 & Hgate2 & Hmet2 & Hcd & Hncd).
  eexists _, _. split; [done|]. cbn [svc_processor svc_log]. split; [done|].
  exists cs, times, (h ++ batch_entries (len h) pid times
               (e :: ((fun c => EvCrossing (map_crossing c)) <$> cs))), k'.
  split; [done|]. rewrite Hlog2. split; [done|].
  simpl in Htimes. rewrite length_fmap in Htimes. split; cbn [svc_gate svc_processor svc_metrics].
  - done.
  - done.
  - rewrite Ho, len_app. unfold len. rewrite length_batch_entries by (simpl; by rewrite length_fmap).
    simpl. lia.
  - done.
  - done.
  - destruct e as [d| | | |]; [by destruct (Hcd d eq_refl) as (n & cs' & ?); eauto|..];
      by apply Hncd.
  - done.
  - rewrite Hmet2, append_metrics_spec. cbn [svc_metrics s1]. eexists. split; [by rewrite <- app_assoc|].
    destruct e as [d| | | |]; try (by destruct gap). rewrite <- Hgap by done.
    destruct gap; (split; [by auto|]); split; try done; by intros [? ?].
Qed.
End ServiceLemmas.

(** ** Sequences of calls *)

(** What a caller is answered. *)
Abbreviation Answer := (result AppendOutcome StorageError).

(** Calls made one after the other, whatever each returns. *)
Fixpoint run_calls `{EL : EventLog L} (new_uuid : N -> string) (calls : list (string * OtkEvent))
    (s : EventIngestService L) : option (list Answer * EventIngestService L) :=
  match calls with
  | [] => Some ([], s)
  | (pid, e) :: calls =>
      let! (r, s) := append_event new_uuid pid e s in
      let! (rs, s) := run_calls new_uuid calls s in
      Some (r :: rs, s)
  end.

(** The detections of the calls answered with an offset. *)
Fixpoint acknowledged (calls : list (string * OtkEvent)) (answers : list Answer) : list (string * Detection) :=
  match calls, answers with
  | (pid, e) :: calls, Ok (Appended _) :: answers => event_detections pid e ++ acknowledged calls answers
  | _ :: calls, _ :: answers => acknowledged calls answers
  | _, _ => []
  end.

(** The detections that calls with these answers store: a call answered with
    an offset its own, a call dropped as a duplicate none, and a call that
    failed none, or its own when the log is not [sure]. *)
Inductive run_stores (sure : bool) : list (string * OtkEvent) -> list Answer -> list (string * Detection) -> Prop :=
  | stores_none : run_stores sure [] [] []
  | stores_appended pid e o calls answers ds :
      run_stores sure calls answers ds -> run_stores sure ((pid, e) :: calls) (Ok (Appended o) :: answers) (event_detections pid e ++ ds)
  | stores_dropped pid e calls answers ds :
      run_stores sure calls answers ds -> run_stores sure ((pid, e) :: calls) (Ok DroppedDuplicate :: answers) ds
  | stores_failed pid e err calls answers ds :
      run_stores sure calls answers ds -> run_stores sure ((pid, e) :: calls) (Err err :: answers) ds
  | stores_failed_late pid e err calls answers ds :
      sure = false ->
      run_stores sure calls answers ds -> run_stores sure ((pid, e) :: calls) (Err err :: answers) (event_detections pid e ++ ds).

Lemma stores_sure calls answers ds : run_stores true calls answers ds -> ds = acknowledged calls answers.
Proof. induction 1; simpl; by f_equal. Qed.

Lemma stores_covers sure calls answers ds : run_stores sure calls answers ds -> acknowledged calls answers ⊆ ds.
Proof. induction 1; simpl; set_solver. Qed.

(** Nothing in [ds] comes twice, or is at or below the mark of [g]. *)
Definition rising (g : SequenceGate) (ds : list (string * Detection)) : Prop :=
  forall key, Sorted N.lt (seqs_for key ds) /\
    Forall (fun n => from_option (fun hw => (hw < n)%N) True (high_water g !! key)) (seqs_for key ds).

Lemma seqs_for_app key ds ds' : seqs_for key (ds ++ ds') = seqs_for key ds ++ seqs_for key ds'.
Proof. unfold seqs_for. by rewrite filter_app, fmap_app. Qed.

Lemma Sorted_app_lt ms ns :
  Sorted N.lt ms -> Sorted N.lt ns -> (forall a b, a ∈ ms -> b ∈ ns -> (a < b)%N) ->
  Sorted N.lt (ms ++ ns).
Proof.
  intros Hms Hns Hlt. induction Hms as [|m ms Hms IH Hhd]; simpl; [done|].
  constructor; [apply IH; set_solver|]. destruct Hhd as [|m' ms Hm]; simpl; [|by constructor].
  destruct ns; constructor. apply Hlt; set_solver.
Qed.

Lemma Sorted_snoc_lt ns n : Sorted N.lt ns -> (forall m, m ∈ ns -> (m < n)%N) -> Sorted N.lt (ns ++ [n]).
Proof. intros Hs Hlt. apply Sorted_app_lt; [done|by repeat constructor|set_solver]. Qed.

Lemma commit_all_app ds ds' g : commit_all (ds ++ ds') g = commit_all ds' (commit_all ds g).
Proof. unfold commit_all. by rewrite foldl_app. Qed.

(** Rising above [g], and then above what that left. *)
Lemma rising_app g ds ds' : rising g ds -> rising (commit_all ds g) ds' -> rising g (ds ++ ds').
Proof.
  intros H1 H2 key. destruct (H1 key) as [S1 A1], (H2 key) as [S2 A2]. rewrite seqs_for_app.
  rewrite commit_all_lookup in A2. split.
  - apply Sorted_app_lt; [done..|]. intros a b Ha Hb.
    destruct (max_seq_ge (high_water g !! key) _ _ Ha) as (m & Hm & Ham). rewrite Hm in A2.
    eapply Forall_forall in A2; [|exact Hb]. simpl in A2. lia.
  - apply Forall_app. split; [done|]. eapply Forall_impl; [exact A2|]. intros n Hn.
    destruct (high_water g !! key) as [hw|] eqn:E; [|done]. simpl.
    destruct (max_seq_start hw (seqs_for key ds)) as (m & Hm & Hle). rewrite Hm in Hn. simpl in Hn. lia.
Qed.

Lemma rising_nil g : rising g [].
Proof. intros key. by repeat constructor. Qed.

(** A detection the gate lets pass. *)
Lemma rising_event g pid e :
  (forall d, e = EvDetection d -> from_option (fun hw => (hw < sequence_number d)%N) True
     (high_water g !! gate_key pid d)) -> rising g (event_detections pid e).
Proof.
  intros Hf key. destruct e as [d| | | |]; [|by repeat constructor..]. simpl. rewrite seqs_for_cons.
  unfold key_of. simpl. case_decide as Hk; [|by repeat constructor]. subst key.
  specialize (Hf d eq_refl). by repeat constructor.
Qed.

Section Calls.
Context `{EL : EventLog L} `{!EventLogLaws L}.
Variable new_uuid : N -> string.

(** The detections an answered call stored. *)
Definition stored_by (sure : bool) (pid : string) (e : OtkEvent) (r : Answer) (ds : list (string * Detection)) : Prop :=
  match r with
  | Ok (Appended _) => ds = event_detections pid e
  | Ok DroppedDuplicate => ds = []
  | Err _ => ds = [] \/ sure = false /\ ds = event_detections pid e
  end.

(** A call extends the history and commits what it acknowledges. *)
Lemma append_event_extends sure pid e (s : EventIngestService L) h k :
  log_rep sure (svc_log s) h k -> wf_proc (svc_processor s) -> wf_event e ->
  exists r s' new k', append_event new_uuid pid e s = Some (r, s') /\ wf_proc (svc_processor s') /\
    log_rep sure (svc_log s') (h ++ new) k' /\ (k <= k')%N /\ stored_by sure pid e r (history_detections new) /\
    svc_gate s' = commit_all (acknowledged [(pid, e)] [r]) (svc_gate s) /\
    rising (svc_gate s) (acknowledged [(pid, e)] [r]).
Proof.
  intros Hrep Hproc He.
  destruct (append_event_cases new_uuid sure pid e s h k Hrep Hproc He) as (r & s' & Ha & Hproc' & Hcase).
  exists r, s'. destruct r as [[o|]|err]; cbn [acknowledged stored_by].
  - destruct Hcase as (cs & times & h' & k' & Hk & Hrep' & Hap).
    destruct Hap as [Htimes -> _ _ Hg _ Hfresh _]. eexists _, k'. do 3 (split; [done|]). split; [done|].
    rewrite app_nil_r. split; [by apply history_detections_batch|]. split; [done|by apply rising_event].
  - destruct Hcase as (d & hw & -> & Hhw & Hle & Hl & Hp & Hg & _). exists [], k. rewrite app_nil_r, Hl.
    split_and!; try done; apply rising_nil.
  - destruct Hcase as (Hleft & _ & Hg & _).
    assert (Hrest : svc_gate s' = commit_all [] (svc_gate s) /\ rising (svc_gate s) []) by (split; [done|apply rising_nil]).
    destruct Hleft as [Hrep'|(-> & cs & times & k' & Hk & Ht & _ & Hrep')].
    + exists [], k. rewrite app_nil_r. split_and!; try done; try apply Hrest. by left.
    + eexists _, k'. split_and!; try done; try apply Hrest. right. split; [done|]. by apply history_detections_batch.
Qed.

Lemma run_calls_extends sure calls (s : EventIngestService L) h k :
  log_rep sure (svc_log s) h k -> wf_proc (svc_processor s) -> Forall (fun c => wf_event (snd c)) calls ->
  exists answers s' new k', run_calls new_uuid calls s = Some (answers, s') /\
    log_rep sure (svc_log s') (h ++ new) k' /\ (k <= k')%N /\ run_stores sure calls answers (history_detections new) /\
    svc_gate s' = commit_all (acknowledged calls answers) (svc_gate s) /\
    rising (svc_gate s) (acknowledged calls answers).
Proof.
  intros Hrep Hproc Hwf. revert s h k Hrep Hproc. induction Hwf as [|[pid e] calls He Hwf IH]; intros s h k Hrep Hproc.
  { exists [], s, [], k. rewrite app_nil_r. split_and!; try done; try constructor; apply rising_nil. }
  destruct (append_event_extends sure pid e s h k Hrep Hproc He)
    as (r & s1 & new1 & k1 & Ha & Hp1 & Hr1 & Hk1 & Hs1 & Hg1 & Hu1).
  destruct (IH s1 _ k1 Hr1 Hp1) as (rs & s' & new2 & k' & Hrun & Hr2 & Hk2 & Hs2 & Hg2 & Hu2).
  exists (r :: rs), s', (new1 ++ new2), k'. cbn [run_calls]. rewrite Ha, Hrun, app_assoc.
  assert (Hack : acknowledged ((pid, e) :: calls) (r :: rs) = acknowledged [(pid, e)] [r] ++ acknowledged calls rs)
    by (destruct r as [[]|]; simpl; by rewrite ?app_nil_r).
  rewrite Hack, Hg2, Hg1, <- commit_all_app. split; [done|]. split; [done|]. split; [lia|]. split.
  { rewrite history_detections_app. destruct r as [[o|]|err]; simpl in Hs1.
    - rewrite Hs1. by apply stores_appended.
    - rewrite Hs1. by apply stores_dropped.
    - destruct Hs1 as [-> |[-> ->]]; [by apply stores_failed|by apply stores_failed_late]. }
  split; [done|]. apply rising_app; [done|by rewrite <- Hg1].
Qed.

(** The stream is fresh for the gate and increasing for every key. *)
Fixpoint increasing (pid : string) (g : SequenceGate) (events : list OtkEvent) : Prop :=
  match events with
  | [] => True
  | EvDetection d :: events =>
      from_option (fun hw => (hw < sequence_number d)%N) True (high_water g !! gate_key pid d) /\
      increasing pid (commit pid d g) events
  | _ :: events => increasing pid g events
  end.

End Calls.

(** ** Sessions and pages *)
Section Sessions.
Context `{EL : EventLog L} `{!EventLogLaws L}.
Variable new_uuid : N -> string.

Lemma increasing_head pid g e events :
  increasing pid g (e :: events) ->
  (forall d, e = EvDetection d -> from_option (fun hw => (hw < sequence_number d)%N) True
     (high_water g !! gate_key pid d)) /\
  increasing pid (commit_all (event_detections pid e) g) events.
Proof. destruct e; simpl; try (intros H; split; [by intros|done]). intros [? ?]. naive_solver. Qed.

(** A session stores the events up to the first that storage fails for, of
    which a log that is not [sure] may hold the batch. *)
Lemma handle_session_spec sure pid events (s : EventIngestService L) h k :
  log_rep sure (svc_log s) h k -> wf_proc (svc_processor s) ->
  Forall wf_event events -> increasing pid (svc_gate s) events ->
  exists fin s' h' k' done_ late rest, handle_session new_uuid pid (Ok <$> events) s = Some (fin, s') /\
    log_rep sure (svc_log s') h' k' /\ events = done_ ++ late ++ rest /\
    history_detections h' = history_detections h ++ concat (event_detections pid <$> done_ ++ late) /\
    (fin = EndedCleanly -> late ++ rest = []) /\ (forall e, fin <> SessionFailed e) /\
    length late <= 1 /\ (sure = true -> late = []).
Proof.
  intros Hrep Hproc Hwf Hinc. revert s h k Hrep Hproc Hinc.
  induction Hwf as [|e events He Hwf IH]; intros s h k Hrep Hproc Hinc.
  { exists EndedCleanly, s, h, k, [], [], []. simpl. rewrite app_nil_r. split_and!; try done. lia. }
  apply increasing_head in Hinc as [Hf Hinc].
  destruct (append_event_extends new_uuid sure pid e s h k Hrep Hproc He)
    as (r & s1 & new & k1 & Ha & Hp1 & Hr1 & _ & Hs1 & Hg1 & _). cbn [fmap list_fmap handle_session].
  rewrite Ha. destruct r as [[o|]|err]; cbn [acknowledged stored_by] in *.
  - rewrite app_nil_r in Hg1. rewrite <- Hg1 in Hinc.
    destruct (IH s1 _ _ Hr1 Hp1 Hinc)
      as (fin & s' & h' & k' & dn & late & rest & Hh & Hr' & -> & Hd' & Hfin).
    exists fin, s', h', k', (e :: dn), late, rest. simpl in Hh. do 3 (split; [done|]). split; [|done].
    rewrite Hd', history_detections_app, Hs1. simpl. by rewrite app_assoc.
  - exfalso. destruct (append_event_cases new_uuid sure pid e s h k Hrep Hproc He) as (r & s2 & Ha2 & _ & Hcase).
    rewrite Ha in Ha2. simplify_eq. destruct Hcase as (d & hw & -> & Hhw & Hle & _). specialize (Hf d eq_refl).
    rewrite Hhw in Hf. simpl in Hf. lia.
  - destruct Hs1 as [Hs1|[-> Hs1]].
    + exists (StorageFailed err), s1, (h ++ new), k1, [], [], (e :: events).
      rewrite history_detections_app, Hs1. simpl. split_and!; try done. lia.
    + exists (StorageFailed err), s1, (h ++ new), k1, [], [e], events.
      rewrite history_detections_app, Hs1. simpl. rewrite app_nil_r. split_and!; try done.
Qed.

(** A page is the slice of the history the request names. *)
Lemma read_events_ok sure from limit (s s' : EventIngestService L) page h k :
  log_rep sure (svc_log s) h k -> read_events from limit s = (Ok page, s') ->
  log_rep sure (svc_log s') h k /\
  page_entries page = (fun e => {| en_offset := as_u64 (offset e); en_event := event e |}) <$>
    history_range h (offset_new from) (Some (offset_new (saturating_add64 from limit))) /\
  page_latest_offset page = (if (k <? len h)%N then Some (len h - 1)%N else None).
Proof.
  intros Hrep. unfold read_events. destruct (latest_offset (svc_log s)) as [[o|e] l1] eqn:Hl; [|done].
  destruct (log_latest _ _ _ _ _ _ Hrep Hl) as [Hrep1 Ho]. specialize (Ho o eq_refl). subst o.
  destruct (read_range _ _ l1) as [[es|e] l2] eqn:Hr; [|done]. intros [= <- <-]. simpl.
  destruct (log_read_ok _ _ _ _ _ _ _ _ Hrep1 Hr) as (Hrep2 & -> & _).
  split; [done|]. split; [done|]. by case_match.
Qed.

(** A reader that pages through the log: read a page, resume after it. *)
Fixpoint read_all (fuel : nat) (from limit : N) (s : EventIngestService L)
  : option (list EventEntry) :=
  match fuel with
  | O => None
  | S fuel =>
      match read_events from limit s with
      | (Err _, _) => None
      | (Ok page, s) =>
          match page_entries page with
          | [] => Some []
          | es => let! rest := read_all fuel (from + len es) limit s in Some (es ++ rest)
          end
      end
  end.

Definition never_fails (sure : bool) : Prop :=
  forall from limit (s : EventIngestService L) h k, log_rep sure (svc_log s) h k -> (k <= from)%N ->
    exists page s', read_events from limit s = (Ok page, s').

Lemma read_all_spec sure from limit (s : EventIngestService L) h k fuel :
  log_rep sure (svc_log s) h k -> never_fails sure -> (k <= from)%N -> (0 < limit)%N ->
  (len h <= u64_max)%N -> (from <= len h)%N -> N.to_nat (len h - from) < fuel ->
  read_all fuel from limit s =
    Some ((fun e => {| en_offset := as_u64 (offset e); en_event := event e |}) <$>
          drop (N.to_nat from) h).
Proof.
  intros Hrep Hnf Hk Hlim Hmax. revert from s Hrep Hk.
  induction fuel as [|fuel IH]; intros from s Hrep Hk Hle Hfuel; [lia|]. cbn [read_all].
  destruct (Hnf from limit s h k Hrep Hk) as (page & s1 & Hr). rewrite Hr.
  destruct (read_events_ok _ _ _ _ _ _ _ _ Hrep Hr) as (Hrep1 & -> & _).
  set (to := saturating_add64 from limit). set (f := fun e : LogEntry => _).
  assert (Hto : to = N.min u64_max (from + limit)) by done.
  unfold history_range. cbn [as_u64]. rewrite skipn_firstn_comm.
  set (n := N.to_nat to - N.to_nat from).
  destruct (decide (from = len h)) as [->|Hne].
  { rewrite drop_ge by (unfold len; lia). by rewrite take_nil. }
  assert (Hsplit : drop (N.to_nat from) h = take n (drop (N.to_nat from) h) ++
                   drop (n + N.to_nat from) h).
  { rewrite Nat.add_comm, <- drop_drop. by rewrite take_drop. }
  assert (Hlen : length (take n (drop (N.to_nat from) h)) = Nat.min n (length h - N.to_nat from))
    by by rewrite length_take, length_drop.
  destruct (f <$> take n (drop (N.to_nat from) h)) as [|x xs] eqn:E.
  { apply (f_equal length) in E. rewrite length_fmap, Hlen in E. simpl in E. unfold len in *. lia. }
  rewrite <- E. unfold len at 1. rewrite length_fmap, Hlen.
  rewrite IH; [|done|lia|unfold len in *; lia|unfold len in *; lia].
  f_equal. rewrite Hsplit at 2. rewrite fmap_app. do 2 f_equal.
  destruct (decide (n <= length h - N.to_nat from)); [f_equal; lia|].
  rewrite !drop_ge; [done|lia..].
Qed.
End Sessions.

(** ** Properties *)
Section ServiceProps.
Context `{EL : EventLog L} `{!EventLogLaws L}.
Variable new_uuid : N -> string.

(** C4: a storage error leaves the service as it was: when [append_event]
    returns an error, gate, processor and metrics are untouched, so that a
    retry decides, groups and counts exactly as the first attempt did.  The log
    holds what it held; only a log that may fail after its commit may hold the
    whole batch as well, the event and the crossings it completes. *)
Theorem append_error_atomic sure pid e (s s' : EventIngestService L) h k err :
  log_rep sure (svc_log s) h k -> wf_proc (svc_processor s) -> wf_event e ->
  append_event new_uuid pid e s = Some (Err err, s') ->
  left_by_error new_uuid sure pid e s s' h k /\ same_state s s' /\
  decide_event pid e (svc_gate s') = decide_event pid e (svc_gate s).
Proof.
  intros Hrep Hproc He Ha.
  destruct (append_event_cases new_uuid sure pid e s h k Hrep Hproc He) as (r & s1 & Ha' & _ & Hcase).
  rewrite Ha in Ha'. simplify_eq. destruct Hcase as [Hrep' Hsame]. split; [done|]. split; [done|].
  by destruct Hsame as (_ & -> & _).
Qed.

(** C2: a successful append stores one batch, the event followed by the
    crossings it completes, under the producer's id at consecutive offsets;
    it returns the last of them, advances gate and processor by exactly this
    detection, and counts the event, each crossing, and the gap if the
    detection skipped numbers. *)
Theorem append_success sure pid e (s s' : EventIngestService L) h k o :
  log_rep sure (svc_log s) h k -> wf_proc (svc_processor s) -> wf_event e ->
  append_event new_uuid pid e s = Some (Ok (Appended o), s') ->
  exists cs times h' k', (k <= k')%N /\ log_rep sure (svc_log s') h' k' /\
    appended new_uuid pid e cs times o s s' h h'.
Proof.
  intros Hrep Hproc He Ha.
  destruct (append_event_cases new_uuid sure pid e s h k Hrep Hproc He) as (r & s1 & Ha' & _ & Hcase).
  rewrite Ha in Ha'. by simplify_eq.
Qed.

(** idempotence: once a detection has been answered with success, sending
    it again is dropped without touching the log, the gate or the
    processor. *)
Theorem resend_is_dropped sure pid d (s s' : EventIngestService L) h k r :
  log_rep sure (svc_log s) h k -> wf_proc (svc_processor s) -> wf_event (EvDetection d) ->
  append_event new_uuid pid (EvDetection d) s = Some (Ok r, s') ->
  exists s'', append_event new_uuid pid (EvDetection d) s' = Some (Ok DroppedDuplicate, s'') /\
    svc_log s'' = svc_log s' /\ svc_gate s'' = svc_gate s' /\ svc_processor s'' = svc_processor s'.
Proof.
  intros Hrep Hproc He Ha.
  destruct (append_event_cases new_uuid sure pid _ s h k Hrep Hproc He) as (r1 & s1 & Ha' & _ & Hcase).
  assert (r1 = Ok r /\ s1 = s') as [-> ->] by (split; congruence). clear Ha'.
  assert (Hhw : exists hw, high_water (svc_gate s') !! gate_key pid d = Some hw /\
                           (sequence_number d <= hw)%N).
  { destruct r as [o|].
    - destruct Hcase as (cs & times & h' & k' & _ & _ & Hap). rewrite (ap_gate _ _ _ _ _ _ _ _ _ _ Hap).
      simpl. unfold commit_all. simpl. rewrite commit_lookup, decide_True by done.
      eexists. split; [done|]. case_match; lia.
    - destruct Hcase as (d' & hw & [= <-] & Hhw & Hle & _ & _ & -> & _). eauto. }
  destruct Hhw as (hw & Hhw & Hle). by apply (append_event_known new_uuid pid d s' hw).
Qed.

(** C1: at most once, across restarts.  A node is opened on any log, of which
    retention may have evicted the front, with its gate seeded from what is
    retained; then come any calls, any evictions and any storage failures.  No
    call panics.  The detections answered with an offset rise for every key,
    above everything retained when the node was opened: none is acknowledged
    twice.  The log grows by the detections of the calls answered with an
    offset; a call that fails adds its own only when the log may fail after its
    commit, and the gate does not learn of it.  When that cannot happen, what was
    retained and what is new rises as a whole if the retained part did.  The gate
    of a further restart covers the running one unless an eviction took marks
    from it; and with a log that fails before its commit only, it is covered by
    the running one, and equal when nothing was evicted. *)
Theorem at_most_once_across_restarts sure (l0 l1 : L) h0 k0 n g cfg calls :
  log_rep sure l0 h0 k0 -> seed_from_log gate_new l0 = (Ok n, g, l1) ->
  Forall (fun c => wf_event (snd c)) calls ->
  let retained := history_detections (drop (N.to_nat k0) h0) in
  exists answers s' new k', run_calls new_uuid calls (service_new l1 cfg g) = Some (answers, s') /\
    let acked := acknowledged calls answers in
    log_rep sure (svc_log s') (h0 ++ new) k' /\ (k0 <= k')%N /\
    rising (commit_all retained gate_new) acked /\
    svc_gate s' = commit_all (retained ++ acked) gate_new /\
    run_stores sure calls answers (history_detections new) /\
    (sure = true -> rising gate_new retained -> rising gate_new (retained ++ history_detections new)) /\
    forall m g' l', seed_from_log gate_new (svc_log s') = (Ok m, g', l') ->
      (k' = k0 -> covers (svc_gate s') g') /\
      (sure = true -> covers g' (svc_gate s') /\ (k' = k0 -> g' = svc_gate s')).
Proof.
  intros Hrep Hseed Hwf retained. pose proof (log_rep_evicted _ _ _ _ Hrep) as Hk0.
  destruct (seed_restores_gate _ _ _ _ _ _ _ Hrep Hseed) as (Hrep1 & _ & ->).
  destruct (run_calls_extends new_uuid sure calls (service_new l1 cfg (commit_all retained gate_new)) h0 k0)
    as (answers & s' & new & k' & Hrun & Hrep' & Hk & Hst & Hg & Hrise); [done|apply map_Forall_empty|done|].
  cbn [svc_gate service_new] in Hg, Hrise. rewrite <- commit_all_app in Hg.
  exists answers, s', new, k'. do 5 (split; [done|]). split; [done|]. split.
  { intros -> Hr. rewrite (stores_sure _ _ _ Hst). by apply rising_app. }
  intros m g' l' Hseed'. destruct (seed_restores_gate _ _ _ _ _ _ _ Hrep' Hseed') as (_ & _ & ->). rewrite Hg.
  assert (Hall : k' = k0 -> history_detections (drop (N.to_nat k') (h0 ++ new)) = retained ++ history_detections new).
  { intros ->. rewrite drop_app_le by (unfold len in Hk0; lia). apply history_detections_app. }
  split; [|intros ->; apply stores_sure in Hst; split].
  - intros E. rewrite (Hall E). apply commit_all_covers. apply stores_covers in Hst. set_solver.
  - apply commit_all_covers. rewrite <- Hst. unfold retained. rewrite <- history_detections_app.
    rewrite <- (drop_app_le h0 new) by (unfold len in Hk0; lia).
    replace (N.to_nat k') with (N.to_nat k0 + N.to_nat (k' - k0)) by lia. rewrite <- drop_drop.
    rewrite <- (take_drop (N.to_nat (k' - k0)) (drop (N.to_nat k0) (h0 ++ new))) at 2.
    rewrite history_detections_app. set_solver.
  - intros E. by rewrite (Hall E), Hst.
Qed.

(** a session loses nothing: when a producer's events are fresh and
    increasing for every detector, the log receives exactly their detections
    in order, either all of them or, when storage fails, a prefix; the loop
    ends and never panics. *)
Theorem session_lossless sure pid events (s : EventIngestService L) h k :
  log_rep sure (svc_log s) h k -> wf_proc (svc_processor s) ->
  Forall wf_event events -> increasing pid (svc_gate s) events ->
  exists fin s' h' k' stored rest,
    handle_session new_uuid pid (Ok <$> events) s = Some (fin, s') /\
    log_rep sure (svc_log s') h' k' /\ events = stored ++ rest /\
    history_detections h' = history_detections h ++ concat (event_detections pid <$> stored) /\
    (fin = EndedCleanly -> rest = []).
Proof.
  intros Hrep Hproc Hwf Hinc.
  destruct (handle_session_spec new_uuid sure pid events s h k Hrep Hproc Hwf Hinc)
    as (fin & s' & h' & k' & dn & late & rest & ? & ? & ? & ? & Hfin & _).
  exists fin, s', h', k', (dn ++ late), rest. rewrite <- app_assoc. do 4 (split; [done|]).
  intros E. by apply Hfin, app_nil in E as [_ ->].
Qed.

(** C29: paging: a client that reads pages of any positive size and resumes
    after the last entry it got receives every retained entry from its start
    exactly once, in order, with its offset; [len h + 1] requests are
    enough. *)
Theorem paging_complete sure from limit (s : EventIngestService L) h k fuel :
  log_rep sure (svc_log s) h k -> never_fails sure -> (k <= from)%N -> (0 < limit)%N ->
  (len h <= u64_max)%N -> (from <= len h)%N -> length h < fuel ->
  exists es, read_all fuel from limit s = Some es /\
    en_event <$> es = event <$> drop (N.to_nat from) h /\
    forall i e, es !! i = Some e -> en_offset e = (from + N.of_nat i)%N.
Proof.
  intros Hrep Hnf Hk Hlim Hmax Hle Hfuel. eexists. split.
  { eapply read_all_spec; try done. unfold len in *. lia. }
  split; [by rewrite <- list_fmap_compose|]. intros i e.
  rewrite list_lookup_fmap, lookup_drop. intros (x & Hx & ->)%fmap_Some. simpl.
  rewrite (log_rep_offsets _ _ _ _ Hrep _ _ Hx). lia.
Qed.
End ServiceProps.

(** ** Witnesses, over the in-memory log *)
Abbreviation now := MemLog.sample_now.
Abbreviation mem := (MemLog.mem_log now).
Abbreviation mem_laws := (MemLog.mem_log_laws now).

Definition sample_service : EventIngestService MemLog.Inner :=
  @service_new _ MemLog.mem_new {| grouping_window_ns := 50 |} gate_new.

Definition detection_a : Detection := sample_detection 1 100 (Some "k") BeamBreak.
Definition detection_b : Detection := sample_detection 5 300 (Some "k") BeamBreak.

Lemma sample_rep : @log_rep _ mem mem_laws true (svc_log sample_service) [] 0.
Proof. split_and!; try done; apply offsets_ok_nil. Qed.

Lemma sample_svc_proc : wf_proc (svc_processor sample_service).
Proof. apply map_Forall_empty. Qed.

Lemma detection_a_wf : wf_event (EvDetection detection_a).
Proof. vm_compute. discriminate. Qed.

Lemma detection_b_wf : wf_event (EvDetection detection_b).
Proof. vm_compute. discriminate. Qed.

Lemma append_error_atomic_witness :
  let s' := default sample_service
    (snd <$> @append_event _ mem sample_uuid "" (EvDetection detection_a) sample_service) in
  @left_by_error _ mem mem_laws sample_uuid true "" (EvDetection detection_a) sample_service s' [] 0 /\ same_state sample_service s' /\
  decide_event "" (EvDetection detection_a) (svc_gate s') =
  decide_event "" (EvDetection detection_a) (svc_gate sample_service).
Proof.
  apply (@append_error_atomic _ mem mem_laws sample_uuid true "" (EvDetection detection_a) sample_service
           _ [] 0 (InvalidInput "producer_id must not be empty"));
    [apply sample_rep|apply sample_svc_proc|apply detection_a_wf|reflexivity].
Defined.

Lemma append_success_witness :
  let s' := default sample_service
    (snd <$> @append_event _ mem sample_uuid "p" (EvDetection detection_a) sample_service) in
  exists cs times h' k', (0 <= k')%N /\ @log_rep _ mem mem_laws true (svc_log s') h' k' /\
    appended sample_uuid "p" (EvDetection detection_a) cs times (offset_new 0) sample_service s' [] h'.
Proof.
  apply (@append_success _ mem mem_laws sample_uuid true "p" (EvDetection detection_a) sample_service
           _ [] 0 (offset_new 0));
    [apply sample_rep|apply sample_svc_proc|apply detection_a_wf|reflexivity].
Defined.

Lemma resend_is_dropped_witness :
  let s' := default sample_service
    (snd <$> @append_event _ mem sample_uuid "p" (EvDetection detection_a) sample_service) in
  exists s'', @append_event _ mem sample_uuid "p" (EvDetection detection_a) s' =
      Some (Ok DroppedDuplicate, s'') /\
    svc_log s'' = svc_log s' /\ svc_gate s'' = svc_gate s' /\ svc_processor s'' = svc_processor s'.
Proof.
  apply (@resend_is_dropped _ mem mem_laws sample_uuid true "p" detection_a sample_service
           _ [] 0 (Appended (offset_new 0)));
    [apply sample_rep|apply sample_svc_proc|apply detection_a_wf|reflexivity].
Defined.

(** The node is opened on a log of detection 4 of "p", which is evicted, and of
    detection 9 of "q"; the fourth call has no producer and fails. *)
Definition restart_calls : list (string * OtkEvent) :=
  [("q", EvDetection (sample_detection 9 20 None BeamBreak));
   ("p", EvDetection (sample_detection 4 20 None BeamBreak));
   ("p", EvDetection (sample_detection 4 20 None BeamBreak));
   ("", EvDetection (sample_detection 5 30 None BeamBreak));
   ("q", EvDetection (sample_detection 12 40 None BeamBreak))].

Definition restart_answers : list Answer :=
  [Ok DroppedDuplicate; Ok (Appended (offset_new 3)); Ok DroppedDuplicate;
   Err (InvalidInput "producer_id must not be empty"); Ok (Appended (offset_new 5))].

Definition restart_gate : SequenceGate := snd (fst (@seed_from_log _ mem gate_new sample_gate_log)).

Definition restart_run : option (list Answer * EventIngestService MemLog.Inner) :=
  @run_calls _ mem sample_uuid restart_calls
    (service_new sample_gate_log {| grouping_window_ns := 50 |} restart_gate).

Example restart_answered : option_map fst restart_run = Some restart_answers.
Proof. vm_compute. reflexivity. Qed.

Lemma at_most_once_across_restarts_witness : exists s' new k',
  @log_rep _ mem mem_laws true (svc_log s') (MemLog.entries sample_gate_log ++ new) k' /\
  acknowledged restart_calls restart_answers =
    [("p", sample_detection 4 20 None BeamBreak); ("q", sample_detection 12 40 None BeamBreak)] /\
  svc_gate s' = commit_all (history_detections (drop 1 (MemLog.entries sample_gate_log)) ++
                            acknowledged restart_calls restart_answers) gate_new /\
  run_stores true restart_calls restart_answers (history_detections new).
Proof.
  destruct (@at_most_once_across_restarts _ mem mem_laws sample_uuid true sample_gate_log sample_gate_log
    (MemLog.entries sample_gate_log) 1 1 restart_gate {| grouping_window_ns := 50 |} restart_calls)
    as (answers & s' & new & k' & Hrun & Hrep & _ & _ & Hg & Hst & _);
    [apply sample_gate_rep|reflexivity| |].
  - repeat (apply Forall_cons; split; [vm_compute; discriminate|]). by apply Forall_nil.
  - pose proof restart_answered as Ha. unfold restart_run in Ha. rewrite Hrun in Ha. injection Ha as ->.
    exists s', new, k'. split; [exact Hrep|]. split; [reflexivity|]. split; [exact Hg|exact Hst].
Defined.

Lemma session_lossless_witness :
  exists fin s' h' k' stored rest,
    @handle_session _ mem sample_uuid "p"
      (Ok <$> [EvDetection detection_a; EvDetection detection_b]) sample_service = Some (fin, s') /\
    @log_rep _ mem mem_laws true (svc_log s') h' k' /\
    [EvDetection detection_a; EvDetection detection_b] = stored ++ rest /\
    history_detections h' = history_detections [] ++ concat (event_detections "p" <$> stored) /\
    (fin = EndedCleanly -> rest = []).
Proof.
  apply (@session_lossless _ mem mem_laws sample_uuid true "p"
           [EvDetection detection_a; EvDetection detection_b] sample_service [] 0);
    [apply sample_rep|apply sample_svc_proc| |].
  - repeat (apply Forall_cons; split; [vm_compute; discriminate|]). by apply Forall_nil.
  - split; [done|]. split; [vm_compute; reflexivity|done].
Defined.

Lemma mem_never_fails sure : @never_fails _ mem mem_laws sure.
Proof.
  intros from limit s0 h k Hrep Hk. unfold read_events.
  change (@latest_offset _ mem (svc_log s0)) with (MemLog.mem_latest_offset (svc_log s0)).
  rewrite (MemLog.mem_latest_spec _ _ _ Hrep).
  change (@read_range _ mem) with MemLog.mem_read_range.
  rewrite (MemLog.mem_read_spec _ _ _ _ _ Hrep), (MemLog.expired_spec _ _ _ _ Hrep).
  replace (as_u64 (offset_new from) <? k)%N with false by (symmetry; apply N.ltb_ge; simpl; lia).
  eauto.
Qed.

Lemma paging_complete_witness :
  let s' := default sample_service
    (snd <$> @append_event _ mem sample_uuid "p" (EvDetection detection_a) sample_service) in
  exists es, @read_all _ mem 5 0 1 s' = Some es /\
    en_event <$> es = event <$> drop 0 (MemLog.entries (svc_log s')) /\
    forall i e, es !! i = Some e -> en_offset e = (0 + N.of_nat i)%N.
Proof.
  apply (@paging_complete _ mem mem_laws true 0 1 _ _ 0);
    [|apply mem_never_fails|done|done|vm_compute; discriminate|vm_compute; discriminate|vm_compute; lia].
  split; [reflexivity|split; [reflexivity|split; [vm_compute; discriminate|]]].
  intros [|i] e Hi; [injection Hi as <-; reflexivity|discriminate].
Defined.
