(* ===== verification/IngestTypes.v ===== *)
(** What the log holds is well-formed: every value is in the range of its Rust
    type, and every crossing is backed by detections that were stored before
    it, or was sent as it is by a producer.

    [service_well_typed]: the ingest service keeps this invariant of its log,
    gate and processor through any calls and storage failures. *)
From stdpp Require Import base gmap strings option numbers sorting list.
From Stdlib Require Import Strings.Byte.
From S2P Require Import Prelude EventModel EventLogPort SequenceGate CrossingProcessor IngestService.
From S2P Require MemLog.

(** ** Well-formed values *)
Definition typed_crossing (c : CrossingEvent) : Prop :=
  wf_u64 (ce_crossed_at_ns c) /\ wf_opt_u64 (ce_crossed_at_uncertainty_ns c).

(** The ranges of the fields of an event. *)
Definition typed_event (e : OtkEvent) : Prop :=
  match e with
  | EvDetection d => wf_Detection d
  | EvDetectorHealth h => wf_u64 (dh_reported_at_ns h)
  | EvTimebaseStatus t => wf_u64 (ts_reported_at_ns t) /\ wf_opt_u64 (ts_uncertainty_ns t)
  | EvAdapterMetadata m => wf_u64 (am_declared_at_ns m) /\ wf_opt_u64 (ac_declared_resolution_ns (am_capabilities m))
  | EvCrossing c => typed_crossing c
  end.

(** The crossing stands for detections among [ds], all of its timing point and
    subject, and takes its time from one of them. *)
Definition backed (ds : list Detection) (c : CrossingEvent) : Prop :=
  exists group, group <> [] /\ Forall (fun d => d ∈ ds) group /\
    ce_detection_ids c = detection_id <$> group /\
    Forall (fun d => timing_point_id d = ce_timing_point_id c /\ subject_id d = ce_subject_id c) group /\
    exists peak, peak ∈ group /\ ce_crossed_at_ns c = detected_at_ns peak.

Definition stored_detections (h : list LogEntry) : list Detection := snd <$> history_detections h.

(** The crossings that producers send. *)
Definition sent_crossings (calls : list (string * OtkEvent)) : list (string * CrossingEvent) :=
  omap (fun c => match snd c with EvCrossing x => Some (fst c, x) | _ => None end) calls.

Definition well_formed_entry (sent : list (string * CrossingEvent)) (before : list LogEntry) (en : LogEntry) : Prop :=
  typed_event (event en) /\
  match event en with
  | EvCrossing c => backed (stored_detections before) c \/ (entry_producer_id en, c) ∈ sent
  | _ => True
  end.

Definition well_formed_log (sent : list (string * CrossingEvent)) (h : list LogEntry) : Prop :=
  forall i en, h !! i = Some en -> well_formed_entry sent (take i h) en.

(** The detections that wait in groups are among [ds]. *)
Definition groups_in (ds : list Detection) (pend : gmap GroupKey PendingGroup) : Prop :=
  map_Forall (fun _ g => Forall (fun d => d ∈ ds) (detections g)) pend.
Abbreviation pending_in ds p := (groups_in ds (pending p)).

(** What is stored is well-formed, and what waits in a group is stored. *)
Record well_typed `{EL : EventLog L} `{!EventLogLaws L} (sure : bool) (sent : list (string * CrossingEvent))
    (s : EventIngestService L) (h : list LogEntry) (k : N) : Prop := {
  wt_log : log_rep sure (svc_log s) h k;
  wt_history : well_formed_log sent h;
  wt_gate : wf_gate (svc_gate s);
  wt_proc : wf_proc (svc_processor s);
  wt_pending : pending_in (stored_detections h) (svc_processor s)
}.

(** ** Crossings *)
Lemma foldl_max_le ns n m : (n <= m)%N -> Forall (fun x => (x <= m)%N) ns -> (foldl N.max n ns <= m)%N.
Proof.
  revert n. induction ns as [|x ns IH]; intros n Hn Hns; [done|]. apply Forall_cons in Hns as [Hx Hns]. simpl.
  apply IH; [lia|done].
Qed.

Lemma iter_max_le ns x m : iter_max ns = Some x -> Forall (fun n => (n <= m)%N) ns -> (x <= m)%N.
Proof.
  destruct ns as [|n ns]; [done|]. intros [= <-] [Hn Hns]%Forall_cons. by apply foldl_max_le.
Qed.

Lemma widen_typed u span : wf_opt_u64 u -> wf_u64 span -> wf_opt_u64 (widen u span).
Proof. unfold widen, wf_opt_u64, wf_u64. intros Hu Hs. destruct u as [u|]; simpl in Hu; case_match; simpl; lia. Qed.

Lemma group_commit_typed uuid g c :
  Forall wf_Detection (detections g) -> group_commit uuid g = Some c -> typed_crossing (map_crossing c).
Proof.
  intros Hg. unfold group_commit. destruct (iter_min _) as [lo|]; [|done].
  destruct (iter_max _) as [hi|] eqn:Ehi; [|done]. destruct (pick_peak_index _) as [i|]; [|done].
  destruct (detections g !! i) as [peak|] eqn:Ep; [|done]. destruct (detections g !! 0); [|done]. intros [= <-].
  pose proof (Forall_lookup_1 _ _ _ _ Hg Ep) as Hp. split; cbn.
  - apply Hp.
  - apply widen_typed; [apply Hp|]. unfold wf_u64, saturating_sub.
    assert (hi <= u64_max)%N; [|lia]. eapply iter_max_le; [exact Ehi|]. apply Forall_fmap.
    eapply Forall_impl; [exact Hg|]. intros x Hx. apply Hx.
Qed.

(** A crossing of a group with one timing point and subject. *)
Lemma group_commit_backed uuid g c ds tp sj :
  detections g <> [] -> Forall (fun d => d ∈ ds) (detections g) ->
  Forall (fun d => timing_point_id d = tp /\ subject_id d = sj) (detections g) ->
  group_commit uuid g = Some c -> backed ds (map_crossing c).
Proof.
  intros Hne Hin Hkey Hc. destruct (group_commit_spec uuid g Hne) as (c' & Hc' & _ & Hco & d0 & Hd0 & Htp & Hsj).
  assert (c' = c) as -> by congruence. exists (detections g). do 2 (split; [done|]). split; [apply Hco|]. split.
  - pose proof (Forall_lookup_1 _ _ _ _ Hkey Hd0) as [H1 H2]. eapply Forall_impl; [exact Hkey|]. cbn.
    intros d [? ?]. split; congruence.
  - destruct (co_peak _ _ Hco) as (i & peak & _ & Hp & Hat & _). exists peak. split; [by eapply list_elem_of_lookup_2|done].
Qed.

(** What a detection completes is backed by what is stored, with it. *)
Lemma peek_backed new_uuid n d p ds cs :
  wf_proc p -> wf_Detection d -> pending_in ds p ->
  Forall wf_Detection ds -> peek_detection new_uuid n d p = Some cs ->
  Forall (fun c => typed_crossing (map_crossing c) /\ backed (ds ++ [d]) (map_crossing c)) cs.
Proof.
  intros Hp Hd Hpend Hds. unfold peek_detection. destruct (subject_id d) as [sj|] eqn:Hsj.
  - destruct (outside_window d _ p) as [[]|]; [|by intros [= <-]|done].
    destruct (pending p !! _) as [g|] eqn:Hg; [|done]. destruct (group_commit _ _) as [c|] eqn:Hc; [|done].
    intros [= <-]. apply Forall_singleton. pose proof (Hp _ _ Hg) as [Hne Hkey _]. pose proof (Hpend _ _ Hg) as Hin. cbn in Hin.
    split.
    + eapply group_commit_typed; [|exact Hc]. cbn. eapply Forall_impl; [exact Hin|]. intros x Hx.
      by eapply Forall_forall in Hds.
    + eapply group_commit_backed; [exact Hne| |exact Hkey|exact Hc]. cbn. eapply Forall_impl; [exact Hin|].
      intros x Hx. apply elem_of_app. by left.
  - destruct (group_commit _ _) as [c|] eqn:Hc; [|done]. intros [= <-]. apply Forall_singleton. split.
    + eapply group_commit_typed; [|exact Hc]. by apply Forall_singleton.
    + eapply (group_commit_backed _ {| detections := [d] |} _ _ (timing_point_id d) None); [done| | |exact Hc]; apply Forall_singleton; [|done].
      apply elem_of_app. right. by apply list_elem_of_singleton.
Qed.

Lemma commit_pending new_uuid n d p ds cs p' :
  pending_in ds p -> d ∈ ds ->
  commit_detection new_uuid n d p = Some (cs, p') ->
  pending_in ds p'.
Proof.
  intros Hp Hd. unfold commit_detection. destruct (subject_id d) as [sj|]; [|destruct (group_commit _ _); [by intros [= <- <-]|done]].
  destruct (outside_window d _ p) as [b|]; [|done]. set (key := (timing_point_id d, sj)).
  assert (Hstep : forall pend, groups_in ds pend ->
    groups_in ds (<[key := {| detections := detections (default {| detections := [] |} (pend !! key)) ++ [d] |}]> pend)).
  { intros pend Hpend. apply map_Forall_insert_2; [|done]. cbn. apply Forall_app. split; [|by apply Forall_singleton].
    destruct (pend !! key) as [g|] eqn:E; [exact (Hpend _ _ E)|constructor]. }
  destruct b.
  - destruct (pending p !! key) as [g|] eqn:Eg; [|done]. destruct (group_commit _ g) as [c|]; [|done].
    intros [= <- <-]. cbn. apply Hstep. by apply map_Forall_delete.
  - intros [= <- <-]. cbn. by apply Hstep.
Qed.

Lemma backed_mono ds ds' c : ds ⊆ ds' -> backed ds c -> backed ds' c.
Proof.
  intros Hs (g & Hne & Hin & H). exists g. split; [done|]. split; [|done].
  eapply Forall_impl; [exact Hin|]. intros d Hd. by apply Hs.
Qed.

(** ** The log *)
Lemma stored_app h h' : stored_detections (h ++ h') = stored_detections h ++ stored_detections h'.
Proof. unfold stored_detections. by rewrite history_detections_app, fmap_app. Qed.

Lemma well_formed_stored sent h : well_formed_log sent h -> Forall wf_Detection (stored_detections h).
Proof.
  intros Hw. unfold stored_detections, history_detections. apply Forall_fmap, Forall_forall.
  intros [pid d] (en & Hin & E)%list_elem_of_omap. apply list_elem_of_lookup in Hin as [i Hi].
  destruct (Hw i en Hi) as [Ht _]. by destruct (event en); simplify_eq/=.
Qed.

Lemma well_formed_app sent h b :
  well_formed_log sent h -> (forall i en, b !! i = Some en -> well_formed_entry sent (h ++ take i b) en) ->
  well_formed_log sent (h ++ b).
Proof.
  intros Hh Hb i en [Hi|[Hle Hi]]%lookup_app_Some.
  - rewrite take_app_le by (apply lookup_lt_Some in Hi; lia). by apply Hh.
  - rewrite take_app_ge by done. by apply Hb.
Qed.

Lemma well_formed_sent sent sent' h : sent ⊆ sent' -> well_formed_log sent h -> well_formed_log sent' h.
Proof.
  intros Hs Hw i en Hi. destruct (Hw i en Hi) as [Ht Hc]. split; [done|]. destruct (event en); try done.
  destruct Hc as [?|Hc]; [by left|]. right. by apply Hs.
Qed.

Lemma batch_events next pid times evs i en :
  batch_entries next pid times evs !! i = Some en -> evs !! i = Some (event en).
Proof.
  revert next times i. induction evs as [|e evs IH]; intros next [|t times] i; try done.
  destruct i as [|i]; simpl; [by intros [= <-]|apply IH].
Qed.

Lemma stored_batch_head next pid times e evs i en :
  batch_entries next pid times (e :: evs) !! S i = Some en ->
  snd <$> event_detections pid e ⊆ stored_detections (take (S i) (batch_entries next pid times (e :: evs))).
Proof.
  destruct times as [|t times]; [done|]. intros _ d Hd. destruct e as [x| | | |]; simpl in Hd; try by apply not_elem_of_nil in Hd.
  apply list_elem_of_singleton in Hd as ->. by left.
Qed.

Lemma batch_producer next pid times evs i en :
  batch_entries next pid times evs !! i = Some en -> entry_producer_id en = pid.
Proof. intros Hi. by eapply Forall_lookup_1 in Hi; [|apply batch_entries_producer]. Qed.

(** What a producer may send as it is. *)
Definition may_send (sent : list (string * CrossingEvent)) (pid : string) (e : OtkEvent) : Prop :=
  typed_event e /\ match e with EvCrossing c => (pid, c) ∈ sent | _ => True end.

(** A batch of an event and the crossings it completes keeps a log
    well-formed. *)
Lemma well_formed_batch sent h pid times e cs :
  well_formed_log sent h -> may_send sent pid e ->
  Forall (fun c => typed_crossing (map_crossing c) /\
    backed (stored_detections h ++ (snd <$> event_detections pid e)) (map_crossing c)) cs ->
  well_formed_log sent (h ++ batch_entries (len h) pid times (e :: ((fun c => EvCrossing (map_crossing c)) <$> cs))).
Proof.
  intros Hh [He Hsent] Hcs. apply well_formed_app; [done|]. intros i en Hi. pose proof (batch_events _ _ _ _ _ _ Hi) as Hev.
  pose proof (batch_producer _ _ _ _ _ _ Hi) as Hpid.
  destruct i as [|i]; simpl in Hev; unfold well_formed_entry.
  - injection Hev as <-. split; [done|]. rewrite Hpid. destruct e; [done..|by right].
  - apply list_lookup_fmap_Some in Hev as (c & -> & Hc). destruct (Forall_lookup_1 _ _ _ _ Hcs Hc) as [Ht Hb].
    split; [done|]. left. eapply backed_mono; [|exact Hb]. rewrite stored_app.
    apply (stored_batch_head _ _ _ _ _ _ _) in Hi. set_solver.
Qed.

(** ** The service *)
Section Typed.
Context `{EL : EventLog L} `{!EventLogLaws L}.
Variable new_uuid : N -> string.

Lemma groups_in_mono ds ds' pend : ds ⊆ ds' -> groups_in ds pend -> groups_in ds' pend.
Proof.
  intros Hs Hp. eapply map_Forall_impl; [exact Hp|]. cbn. intros _ g Hg. eapply Forall_impl; [exact Hg|]. intros d. apply Hs.
Qed.

(** The batch built for an event keeps the log well-formed and holds what the
    groups may need. *)
Lemma batch_typed sure sent pid e (s : EventIngestService L) h k cs times :
  well_typed sure sent s h k -> may_send sent pid e -> length times = S (length cs) ->
  match e with
  | EvDetection d => peek_detection new_uuid (svc_draws s) d (svc_processor s) = Some cs
  | _ => cs = []
  end ->
  let h' := h ++ batch_entries (len h) pid times (e :: ((fun c => EvCrossing (map_crossing c)) <$> cs)) in
  well_formed_log sent h' /\ stored_detections h' = stored_detections h ++ (snd <$> event_detections pid e) /\
  pending_in (stored_detections h') (svc_processor s).
Proof.
  intros [Hlog Hh Hg Hp Hpend] He Ht Hc. cbv zeta.
  assert (Hcs : Forall (fun c => typed_crossing (map_crossing c) /\
    backed (stored_detections h ++ (snd <$> event_detections pid e)) (map_crossing c)) cs).
  { destruct e as [d| | | |]; try (subst cs; constructor).
    eapply peek_backed; [exact Hp|apply He|exact Hpend|by eapply well_formed_stored|exact Hc]. }
  rewrite stored_app. unfold stored_detections at 2 4. rewrite history_detections_batch by done.
  split; [by apply well_formed_batch|]. split; [done|].
  eapply groups_in_mono; [|exact Hpend]. set_solver.
Qed.

Lemma append_event_typed sure sent pid e (s : EventIngestService L) h k :
  well_typed sure sent s h k -> may_send sent pid e ->
  exists r s', append_event new_uuid pid e s = Some (r, s') /\
  exists h' k', well_typed sure sent s' h' k' /\ (exists b, h' = h ++ b).
Proof.
  intros Hw He. pose proof Hw as [Hlog Hh Hg Hp Hpend].
  assert (Hwe : wf_event e) by (destruct e; [apply He|done..]).
  destruct (append_event_cases new_uuid sure pid e s h k Hlog Hp Hwe) as (r & s' & Ha & Hp' & Hcase).
  exists r, s'. split; [done|]. destruct r as [[o|]|err].
  - destruct Hcase as (cs & times & h' & k' & _ & Hlog' & Hap). exists h', k'.
    destruct (batch_typed sure sent pid e s h k cs times Hw He (ap_times _ _ _ _ _ _ _ _ _ _ Hap)
      (ap_crossings _ _ _ _ _ _ _ _ _ _ Hap)) as (Hh' & Hst & Hpend').
    rewrite (ap_history _ _ _ _ _ _ _ _ _ _ Hap) in *. split; [|by eexists].
    split; [done|done| |done|].
    + rewrite (ap_gate _ _ _ _ _ _ _ _ _ _ Hap). destruct e as [d| | | |]; [|done..]. apply commit_wf; [done|apply He].
    + pose proof (ap_processor _ _ _ _ _ _ _ _ _ _ Hap) as Hpr. destruct e as [d| | | |]; [|by rewrite Hpr..].
      destruct Hpr as (n & cs' & Hc). eapply commit_pending; [exact Hpend'| |exact Hc]. rewrite Hst. set_solver.
  - destruct Hcase as (d & hw & _ & _ & _ & El & Ep & Eg & _). exists h, k. split; [|exists []; by rewrite app_nil_r].
    split; [by rewrite El|done|by rewrite Eg|by rewrite Ep|by rewrite Ep].
  - destruct Hcase as (Hleft & Ep & Eg & _). destruct Hleft as [Hlog'|(_ & cs & times & k' & _ & Ht & Hc & Hlog')].
    + exists h, k. split; [|exists []; by rewrite app_nil_r].
      split; [done|done|by rewrite Eg|by rewrite Ep|by rewrite Ep].
    + destruct (batch_typed sure sent pid e s h k cs times Hw He Ht Hc) as (Hh' & Hst & Hpend').
      eexists _, k'. split; [|by eexists]. split; [exact Hlog'|done|by rewrite Eg|done|by rewrite Ep].
Qed.

Lemma run_calls_typed sure sent calls (s : EventIngestService L) h k :
  well_typed sure sent s h k -> Forall (fun c => may_send sent (fst c) (snd c)) calls ->
  exists answers s' h' k', run_calls new_uuid calls s = Some (answers, s') /\
    well_typed sure sent s' h' k' /\ (exists b, h' = h ++ b).
Proof.
  intros Hw Hc. revert s h k Hw. induction Hc as [|[pid e] calls He Hc IH]; intros s h k Hw.
  { exists [], s, h, k. split; [done|]. split; [done|]. exists []. by rewrite app_nil_r. }
  destruct (append_event_typed sure sent pid e s h k Hw He) as (r & s1 & Ha & h1 & k1 & Hw1 & b1 & ->).
  destruct (IH s1 _ _ Hw1) as (rs & s2 & h2 & k2 & Hr & Hw2 & b2 & ->). exists (r :: rs), s2, ((h ++ b1) ++ b2), k2.
  cbn [run_calls]. rewrite Ha, Hr. split; [done|]. split; [done|]. exists (b1 ++ b2). by rewrite <- app_assoc.
Qed.

Lemma commit_all_wf ds g : wf_gate g -> Forall wf_Detection (snd <$> ds) -> wf_gate (commit_all ds g).
Proof.
  revert g. induction ds as [|[pid d] ds IH]; intros g Hg Hd; [done|]. apply Forall_cons in Hd as [Hd Hds].
  apply IH; [|done]. apply commit_wf; [done|apply Hd].
Qed.

Lemma stored_drop k h : Forall wf_Detection (stored_detections h) -> Forall wf_Detection (stored_detections (drop k h)).
Proof. rewrite <- (take_drop k h) at 1. rewrite stored_app. by intros [_ ?]%Forall_app. Qed.

(** C3: Everything in the log is well-formed.  A service that is started on a
    well-formed log, with its gate seeded from it, answers every call: no call
    panics.  Whatever events with values in the range of their types come, and
    whatever storage failures they meet, every stored value stays in range;
    every stored crossing that was not sent as it is by a producer, under the
    id it is stored with, stands for detections of one timing point and subject
    that are stored before it, and has the time of one of them; the marks of
    the gate fit in 64 bits; and what waits in a group is stored. *)
Theorem service_well_typed sure sent (l0 l1 : L) h0 k0 n g cfg calls :
  log_rep sure l0 h0 k0 -> well_formed_log sent h0 -> seed_from_log gate_new l0 = (Ok n, g, l1) ->
  Forall (fun c => typed_event (snd c)) calls ->
  exists answers s' h' k', run_calls new_uuid calls (service_new l1 cfg g) = Some (answers, s') /\
    well_typed sure (sent ++ sent_crossings calls) s' h' k' /\ exists b, h' = h0 ++ b.
Proof.
  intros Hrep Hh Hseed Hc. destruct (seed_restores_gate _ _ _ _ _ _ _ Hrep Hseed) as (Hrep1 & _ & ->).
  assert (Hh' : well_formed_log (sent ++ sent_crossings calls) h0) by (eapply well_formed_sent; [|exact Hh]; set_solver).
  apply (run_calls_typed sure (sent ++ sent_crossings calls) calls _ h0 k0).
  - split; cbn; [done..|apply commit_all_wf| |]; [|apply stored_drop; by eapply well_formed_stored|..]; apply map_Forall_empty.
  - apply Forall_forall. intros [pid e] Hin. split; [by eapply Forall_forall in Hc; [|exact Hin]|].
    destruct e as [| | | |c]; try done. apply elem_of_app. right. apply list_elem_of_omap. by exists (pid, EvCrossing c).
Qed.
End Typed.

(** ** A concrete run *)
Lemma detection_typed d : (detected_at_ns d <=? u64_max)%N = true -> (sequence_number d <=? u64_max)%N = true ->
  detected_at_uncertainty_ns d = None -> received_at_ns d = None -> sensor d = BeamBreak -> wf_Detection d.
Proof.
  intros H1%N.leb_le H2%N.leb_le H3 H4 H5. split; [done|by rewrite H3|by rewrite H4|done|by rewrite H5].
Qed.

(** The second detection is outside the window of the first and completes its
    crossing; the third call sends a crossing. *)
Definition sent_crossing : CrossingEvent :=
  {| ce_crossing_id := id_new "x"; ce_timing_point_id := id_new "tp"; ce_subject_id := None; ce_crossed_at_ns := 7;
     ce_crossed_at_uncertainty_ns := None; ce_timebase_id := id_new "tb"; ce_timestamping_method := ManualEntry;
     ce_source_attestation := OperatorAsserted; ce_detection_ids := [] |}.

Definition typed_calls : list (string * OtkEvent) :=
  [("p", EvDetection detection_a); ("p", EvDetection detection_b); ("p", EvCrossing sent_crossing)].

Abbreviation mem := (MemLog.mem_log MemLog.sample_now).

Lemma service_well_typed_witness :
  exists answers s' h' k', @run_calls _ mem sample_uuid typed_calls
      (service_new MemLog.mem_new {| grouping_window_ns := 50 |} gate_new) = Some (answers, s') /\
    @well_typed _ mem (MemLog.mem_log_laws MemLog.sample_now) true [("p", sent_crossing)] s' h' k' /\
    exists b, h' = [] ++ b.
Proof.
  apply (@service_well_typed _ mem (MemLog.mem_log_laws MemLog.sample_now) sample_uuid true [] MemLog.mem_new MemLog.mem_new
    [] 0 0 gate_new); [apply sample_rep|by intros i en|reflexivity|].
  do 2 (apply List.Forall_cons; [apply detection_typed; reflexivity|]).
  apply List.Forall_cons; [|apply List.Forall_nil]. split; vm_compute; [discriminate|exact I].
Defined.
