(* ===== verification/NodeRecovery.v ===== *)
(** The node's storage path through crashes: the ingest service over the
    segment log, killed at any I/O call and started again.

    A life of a node's directory is a sequence of starts, runs of
    [append_event] calls, and crashes ([lives]).  [crash_durability]: whatever
    was acknowledged stays in the log, in order, no sequence number is stored
    twice, and the next start succeeds with a gate that knows what is stored.

    A run ends with its first I/O failure: what a node does that goes on after
    one is the subject of [IngestService.append_error_atomic] and of
    [SegmentLogSafety.roll_failure_duplicates]; [resent_after_failed_roll] is such
    a run. *)
From stdpp Require Import base gmap strings option numbers sorting relations list.
From Stdlib Require Import Strings.Byte.
From S2P Require Import Prelude EventModel EventLogPort SequenceGate CrossingProcessor IngestService SegmentFile SegmentFs SegmentLog SegmentLogSafety SegmentLogLayout SegmentLogOpen SegmentLogRecovery SegmentPort.
From S2P Require MemLog.

(** ** One call of the service, seen from the log *)
Section Call.
Context `{EL : EventLog L}.
Variable new_uuid : N -> string.

Definition as_event (c : Crossing) : OtkEvent := EvCrossing (map_crossing c).

(** The call appends one batch, unless it drops a duplicate; the gate moves
    exactly when the batch is stored. *)
Lemma append_event_log pid e (s : EventIngestService L) :
  wf_proc (svc_processor s) -> wf_event e ->
  exists r s', append_event new_uuid pid e s = Some (r, s') /\ wf_proc (svc_processor s') /\
  ((r = Ok DroppedDuplicate /\ svc_log s' = svc_log s /\ svc_gate s' = svc_gate s) \/
   exists cs r0, length cs <= 1 /\
     (forall d, e = EvDetection d -> from_option (fun hw => (hw < sequence_number d)%N) True
        (high_water (svc_gate s) !! gate_key pid d)) /\
     append pid (e :: (as_event <$> cs)) (svc_log s) = (r0, svc_log s') /\
     match r0 with
     | Ok o => r = Ok (Appended o) /\ svc_gate s' = commit_all (event_detections pid e) (svc_gate s)
     | Err x => r = Err x /\ svc_gate s' = svc_gate s
     end).
Proof.
  intros Hproc He. unfold append_event.
  destruct (decide_event_total pid e (svc_gate s) He) as (dec & -> & Hdec). destruct dec as [m|gap].
  { do 2 eexists. split; [done|]. split; [done|]. by left. }
  destruct Hdec as (Hfresh & _).
  destruct (peek_crossings_total new_uuid (svc_draws s) e _ Hproc) as (cs & -> & Hlen & _).
  fold as_event. destruct (append pid _ (svc_log s)) as [r0 log'] eqn:Ha.
  destruct r0 as [o|err].
  2:{ do 2 eexists. split; [done|]. split; [done|]. right. by exists cs, (Err err). }
  match goal with |- context [commit_event _ _ _ _ ?x] => set (s1 := x) end.
  destruct (commit_event_spec new_uuid pid e gap s1 Hproc) as (s2 & -> & Hproc2 & Hlog2 & Hgate2 & _).
  do 2 eexists. split; [done|]. cbn [svc_processor svc_log svc_gate]. split; [done|]. right.
  exists cs, (Ok o). rewrite Hlog2. by split_and!.
Qed.
End Call.

(** ** A batch and its prefixes *)
Lemma detections_batch ts next pid e cs :
  history_detections (batch pid ts next (e :: (as_event <$> cs))) = event_detections pid e.
Proof.
  unfold batch. apply (history_detections_batch next pid _ e cs). simpl.
  by rewrite repeat_length, length_fmap.
Qed.

(** Of a batch cut short the detection is there or not. *)
Lemma detections_prefix ts next pid e cs j :
  history_detections (take j (batch pid ts next (e :: (as_event <$> cs)))) = [] \/
  history_detections (take j (batch pid ts next (e :: (as_event <$> cs)))) = event_detections pid e.
Proof.
  destruct j as [|j]; [by left|right]. rewrite <- (detections_batch ts next pid e cs).
  rewrite <- (take_drop (S j) (batch _ _ _ _)) at 2. rewrite history_detections_app.
  assert (E : history_detections (drop (S j) (batch pid ts next (e :: (as_event <$> cs)))) = []); [|by rewrite E, app_nil_r].
  rewrite batch_cons. simpl. unfold history_detections.
  assert (Hnil : forall n, history_detections (batch pid ts n (as_event <$> cs)) = []).
  { intros n. clear. revert n. induction cs as [|c cs IH]; intros n; [done|].
    rewrite fmap_cons, batch_cons. unfold history_detections in *. simpl. apply IH. }
  specialize (Hnil (next + 1)%N). unfold history_detections in Hnil.
  assert (Hd : forall (l : list LogEntry) n f, omap (M := list) (A := LogEntry) (B := string * Detection) f l = [] -> omap f (drop n l) = []).
  { intros l n f Hl. rewrite <- (take_drop n l), omap_app in Hl. by apply app_eq_nil in Hl as [_ ?]. }
  by apply Hd.
Qed.

Lemma acknowledged_in_batch ts next pid e cs :
  [(pid, e)] `sublist_of` (MemLog.stored <$> batch pid ts next (e :: (as_event <$> cs))).
Proof. rewrite batch_cons, fmap_cons. apply sublist_skip, sublist_nil_l. Qed.

Lemma stored_detection pid d (h h' : list LogEntry) acked :
  (pid, EvDetection d) ∈ acked -> acked `sublist_of` (MemLog.stored <$> h') ->
  (pid, d) ∈ history_detections (h ++ h').
Proof.
  intros Hin Hsub. pose proof (elem_of_sublist _ _ _ Hin Hsub) as (e & E & He)%list_elem_of_fmap.
  unfold history_detections. rewrite list_elem_of_omap. exists e. split; [apply elem_of_app; by right|].
  unfold MemLog.stored in E. by injection E as -> <-.
Qed.

(** The sequence numbers of every key increase along the history. *)
Definition increasing_keys (h : list LogEntry) : Prop :=
  forall key, Sorted N.lt (seqs_for key (history_detections h)).

Lemma increasing_extend h h' pid e :
  increasing_keys h ->
  history_detections h' = [] \/ history_detections h' = event_detections pid e ->
  (forall d, e = EvDetection d -> from_option (fun hw => (hw < sequence_number d)%N) True
     (high_water (commit_all (history_detections h) gate_new) !! gate_key pid d)) ->
  increasing_keys (h ++ h').
Proof.
  intros Hh Hh' Hf key. rewrite history_detections_app.
  destruct Hh' as [->| ->]; [by rewrite app_nil_r|].
  apply (rising_app gate_new); [|by apply rising_event].
  intros key'. split; [apply Hh|]. apply Forall_true. intros n. cbn [high_water gate_new]. by rewrite lookup_empty.
Qed.

(** ** Starting and serving *)
Section Life.
Context `{CborEvent : Cbor OtkEvent} `{Crc : Crc32}.
Variable new_uuid : N -> string.
Variable now : N -> N.

Abbreviation seg := (@segment_log CborEvent Crc now).
Abbreviation Service := (EventIngestService Store).

(** The part of [Node::new] that touches the storage directory: open the log
    with the default configuration, rebuild the gate, build the service. *)
Definition boot (w : World) : result Service StorageError * World :=
  match log_open false now default_log_config w with
  | None => (Err (Corrupted "panic"), w)
  | Some (Err e, w) => (Err e, w)
  | Some (Ok l, w) =>
      match @seed_from_log _ seg gate_new (l, w) with
      | (Err e, _, s) => (Err e, snd s)
      | (Ok _, gate, s) => (Ok (service_new s default_config gate), snd s)
      end
  end.

(** What the caller knows to be stored: a detection answered as a duplicate
    was stored before. *)
Definition acks (pid : string) (e : OtkEvent) (r : result AppendOutcome StorageError)
  : list (string * OtkEvent) :=
  match r with Ok (Appended _) => [(pid, e)] | _ => [] end.

(** Calls one after the other, with what they acknowledge. *)
Inductive serves : Service -> list (string * OtkEvent) -> Service -> Prop :=
  | serves_nothing s : serves s [] s
  | serves_call s acked s1 pid e r s2 :
      serves s acked s1 -> wf_event e -> @append_event _ seg new_uuid pid e s1 = Some (r, s2) ->
      serves s (acked ++ acks pid e r) s2.

(** From now on calls fail, or the process is killed, by this schedule. *)
Definition with_faults (faults : list fault) (s : Service) : Service :=
  with_log s (fst (svc_log s),
    {| disk := disk (snd (svc_log s)); schedule := faults; dead := false; clock := clock (snd (svc_log s));
      cache := cache (snd (svc_log s)) |}).

(** A process that starts on the directory; the cache plays no part here. *)
Definition started (d : gmap string bytes) (faults : list fault) (c : N) : World :=
  {| disk := d; schedule := faults; dead := false; clock := c; cache := settled |}.

Definition service_disk (s : Service) : gmap string bytes := disk (snd (svc_log s)).

(** The active segment's index can be written whatever the next batch. *)
Definition index_fits (l : SegmentLog) : Prop := (8 * (active_records l + 2) <= MAX_INDEX_BYTES)%N.

(** What becomes of the directory [d0]: its content and what was acknowledged.
    A start may fail or be killed; a run serves any calls, and the last one,
    under any schedule of failures and kills, ends it.  No write fails after it
    was reported as done. *)
Inductive lives (d0 : gmap string bytes) : gmap string bytes -> list (string * OtkEvent) -> Prop :=
  | lives_new : lives d0 d0 []
  | lives_start d acked faults c :
      lives d0 d acked -> honest (started d faults c) -> prompt (started d faults c) ->
      lives d0 (disk (snd (boot (started d faults c)))) acked
  | lives_run d acked c s w acked1 s1 faults pid e r s2 :
      lives d0 d acked -> boot (started d [] c) = (Ok s, w) -> index_fits (fst (svc_log s)) ->
      serves s acked1 s1 -> honest (started d faults c) -> prompt (started d faults c) -> wf_event e ->
      @append_event _ seg new_uuid pid e (with_faults faults s1) = Some (r, s2) ->
      sizes_ok (service_disk s2) ->
      lives d0 (service_disk s2) (acked ++ acked1 ++ acks pid e r).
End Life.

(** ** What a running service keeps *)
Section Served.
Context `{CborEvent : Cbor OtkEvent} `{Crc : Crc32} `{!CborLaws OtkEvent} `{!Crc32Laws}.
Variable new_uuid : N -> string.
Variable now : N -> N.
Hypothesis now_u64 : forall n, wf_u64 (now n).

Abbreviation seg := (@segment_log CborEvent Crc now).
Abbreviation Service := (EventIngestService Store).

(** The service, its log, its directory and the history agree. *)
Record serving (s : Service) (h : list LogEntry) : Prop := {
  sv_clean : clean false (svc_log s) h 0;
  sv_config : config (fst (svc_log s)) = default_log_config;
  sv_fits : index_fits (fst (svc_log s));
  sv_proc : wf_proc (svc_processor s);
  sv_gate : svc_gate s = commit_all (history_detections h) gate_new;
  sv_keys : increasing_keys h
}.

(** A service whose process may fail or die in the next call. *)
Lemma serving_faults faults s h : serving s h -> serving (with_faults faults s) h.
Proof.
  intros [Hc Hcf Hf Hp Hg Hk]. split; try done. unfold with_faults. cbn [svc_log with_log].
  destruct (svc_log s) as [l w]. by eapply clean_same; [apply same_files_eq|exact Hc].
Qed.

Lemma index_fits_roomy l w h :
  clean false (l, w) h 0 -> roomy l -> config l = default_log_config -> index_fits l.
Proof.
  intros Hc Hr Hcf. pose proof (clean_roomy false l w h 0 Hc Hr) as Hb. rewrite Hcf in Hb.
  unfold index_fits, MAX_INDEX_BYTES. cbn [max_segment_bytes default_log_config] in Hb. lia.
Qed.

Lemma healthy_dec w : prompt w -> healthy w \/ ~ healthy w.
Proof.
  intros [_ Hu]. unfold healthy, faultless. destruct (schedule w), (dead w); (by left) || (by right; intros [[? ?] _]).
Qed.

(** The log's part of a call. *)
Lemma segment_append_clean pid evs (l : SegmentLog) w h :
  clean false (l, w) h 0 -> honest w -> prompt w -> config l = default_log_config ->
  (8 * (active_records l + len evs) <= MAX_INDEX_BYTES)%N ->
  match segment_append now pid evs (l, w) with
  | (Ok o, s') => exists ts, clean false s' (h ++ batch pid ts (len h) evs) 0 /\
      config (fst s') = default_log_config /\ index_fits (fst s')
  | (Err e, s') => exists ts j, on_disk false (disk (snd s')) (h ++ take j (batch pid ts (len h) evs)) 0 /\
      (healthy w -> unchanged false l h 0 s')
  end.
Proof.
  intros Hc Ho Hpr Hcf Hmax. unfold segment_append. destruct (utf8_valid (str_bytes pid)) eqn:Hpid.
  2:{ exists 0%N, 0%nat. rewrite app_nil_r. split; [by eapply clean_on_disk|]. by intros _. }
  pose proof (log_append_clean false now now_u64 l w h 0 pid evs Hpid Hc Ho Hmax Hpr) as Hwp. unfold port.
  destruct (log_append false now pid evs (l, w)) as [[[o|e] s']|]; [..|done]; destruct Hwp as (_ & ts & Hend);
    unfold append_end in Hend; rewrite Hcf in Hend.
  - destruct Hend as (k' & [_ Hk'] & Hc' & Hr' & Hcf'). rewrite (Hk' eq_refl) in Hc'. exists ts.
    destruct s' as [l' w']. split; [done|]. split; [done|]. by eapply index_fits_roomy.
  - destruct Hend as ((j & k' & [_ Hk'] & Hd) & Hu). rewrite (Hk' eq_refl) in Hd. exists ts, j. split; [done|]. intros [Hh _]. by apply Hu.
Qed.

Lemma segment_append_healthy pid evs (s : Store) :
  healthy (snd s) -> healthy (snd (snd (segment_append now pid evs s))).
Proof.
  intros Hh. unfold segment_append, port. destruct (utf8_valid _); [|done].
  destruct (log_append false now pid evs s) as [[r s']|] eqn:E; [|done].
  by apply (calm_append false now pid evs s _ _ Hh E).
Qed.

(** One call of the service, whatever fails in it. *)
Lemma serving_call pid e s h :
  serving s h -> honest (snd (svc_log s)) -> prompt (snd (svc_log s)) -> wf_event e ->
  exists r s', @append_event _ seg new_uuid pid e s = Some (r, s') /\
  exists h', on_disk false (service_disk s') (h ++ h') 0 /\ increasing_keys (h ++ h') /\
    acks pid e r `sublist_of` (MemLog.stored <$> h') /\
    (healthy (snd (svc_log s)) -> serving s' (h ++ h') /\ healthy (snd (svc_log s'))).
Proof.
  intros [Hc Hcf Hf Hp Hg Hk] Ho Hpr He.
  destruct (append_event_log (EL := seg) new_uuid pid e s Hp He) as (r & s' & E & Hp' & Hcase). exists r, s'. split; [done|].
  unfold service_disk. destruct Hcase as [(-> & Hl & Hg')|(cs & r0 & Hlen & Hfresh & Ha & Hr)].
  { exists []. rewrite !app_nil_r, Hl. split; [destruct (svc_log s); by eapply clean_on_disk|]. split; [done|].
    split; [apply sublist_nil_l|]. intros Hh. split; [|done]. split; [by rewrite Hl..|done|congruence|done]. }
  change (@append _ seg) with (segment_append now) in Ha. destruct (svc_log s) as [l w]. simpl in Hcf, Hf, Ho, Hpr.
  pose proof (segment_append_clean pid (e :: (as_event <$> cs)) l w h Hc Ho Hpr Hcf) as Hs.
  discharge Hs ltac:(unfold index_fits in Hf; rewrite len_cons, len_map; unfold len at 1; lia).
  pose proof (segment_append_healthy pid (e :: (as_event <$> cs)) (l, w)) as Hheal.
  rewrite Ha in Hs, Hheal. simpl in Hheal. rewrite Hg in Hfresh. destruct r0 as [o|err].
  - destruct Hs as (ts & Hc' & Hcf' & Hf'), Hr as [-> Hg']. exists (batch pid ts (len h) (e :: (as_event <$> cs))).
    assert (Hk' : increasing_keys (h ++ batch pid ts (len h) (e :: (as_event <$> cs)))).
    { apply (increasing_extend _ _ pid e Hk); [right; apply detections_batch|done]. }
    split; [destruct (svc_log s'); by eapply clean_on_disk|]. split; [done|]. split; [apply acknowledged_in_batch|].
    intros Hh. split; [|by apply Hheal]. split; try done. by rewrite Hg', Hg, history_detections_app, detections_batch, commit_all_app.
  - destruct Hs as (ts & j & Hd & Hu), Hr as [-> Hg']. destruct (healthy_dec w Hpr) as [Hh|Hh].
    + destruct (Hu Hh) as (Hc' & Hn' & Hcf'). exists []. rewrite !app_nil_r.
      split; [destruct (svc_log s'); by eapply clean_on_disk|]. split; [done|]. split; [apply sublist_nil_l|].
      intros _. split; [|by apply Hheal]. split; try done; [congruence|unfold index_fits in *; by rewrite Hn'|congruence].
    + exists (take j (batch pid ts (len h) (e :: (as_event <$> cs)))).
      split; [done|]. split; [by apply (increasing_extend _ _ pid e Hk); [apply detections_prefix|]|].
      by split; [apply sublist_nil_l|].
Qed.

Lemma serves_serving s acked s1 h :
  serves new_uuid now s acked s1 -> serving s h -> healthy (snd (svc_log s)) ->
  exists h', serving s1 (h ++ h') /\ healthy (snd (svc_log s1)) /\ acked `sublist_of` (MemLog.stored <$> h').
Proof.
  intros Hs Hsv Hh. induction Hs as [s|s acked s1 pid e r s2 Hs IH He E].
  { exists []. rewrite app_nil_r. by split_and!. }
  destruct (IH Hsv Hh) as (h1 & Hsv1 & Hh1 & Hack). clear IH.
  destruct (serving_call pid e s1 _ Hsv1) as (r' & s2' & E' & h2 & _ & _ & Hack2 & Hnext);
    [by apply healthy_honest|by apply healthy_prompt|done|].
  rewrite E in E'. injection E' as <- <-. destruct (Hnext Hh1) as [Hsv2 Hh2].
  exists (h1 ++ h2). rewrite app_assoc. split; [done|]. split; [done|]. rewrite fmap_app. by apply sublist_app.
Qed.

(** *** Starting *)
Lemma seed_read (l : SegmentLog) w h :
  clean false (l, w) h 0 -> healthy w -> retention (config l) = Indefinite ->
  exists n s', @seed_from_log _ seg gate_new (l, w) = (Ok n, commit_all (history_detections h) gate_new, s') /\
    clean false s' h 0 /\ healthy (snd s') /\ config (fst s') = config l /\
    active_records (fst s') = active_records l.
Proof.
  intros Hc Hh Hret.
  assert (Hrep : store_rep now false (l, w) h 0).
  { split; [by apply clean_inv|]. split; [done|]. split; [|by split; [apply healthy_prompt|]].
    destruct h; [by right|left]. rewrite len_cons. lia. }
  unfold seed_from_log. change (@earliest_offset _ seg (l, w)) with (port log_earliest_offset (l, w)).
  rewrite (proj2 (store_offsets now false (l, w) h 0 Hrep)).
  destruct (N.ltb_spec 0 (len h)) as [Hlt|Hge].
  2:{ assert (h = []) as -> by (apply len_zero_nil; lia). exists 0%N, (l, w). by split_and!. }
  change (@read_range _ seg (offset_new 0) None) with (port (log_read_range false (offset_new 0) None)).
  pose proof (segment_read_spec now (offset_new 0) None false (l, w) h 0 Hrep) as Hr.
  pose proof (log_read_range_only false (offset_new 0) None l w (healthy_prompt _ Hh)) as Ho.
  assert (Es : read_spec h 0 (offset_new 0) None = Ok h).
  { unfold read_spec. simpl. rewrite (proj2 (N.leb_gt _ _)) by done. unfold history_range. done. }
  rewrite Es in Hr. unfold port in *.
  destruct (log_read_range false (offset_new 0) None (l, w)) as [[r s']|] eqn:E; [|by destruct Hr as (_ & [?|(? & ? & _)])].
  destruct (calm_read false (offset_new 0) None (l, w) _ _ Hh E) as [Hh' _].
  destruct Hr as (_ & [->|(e & _ & Hx)]); [|by destruct Hx; apply Hh].
  do 2 eexists. rewrite commit_entries. split; [reflexivity|].
  destruct s' as [l' w'], Ho as [_ [Hd Hl']]. simpl in *. split; [|split; [done|]].
  - eapply (clean_same false l' w); [by apply same_files_eq|]. destruct Hl' as [->| ->]; [done|by apply clean_cursor].
  - destruct Hl' as [->| ->]; [done|]. split; [done|]. unfold active_records, map_active. simpl. by destruct (active l).
Qed.

Lemma boot_serving d h c :
  on_disk false d h 0 -> sizes_ok d -> increasing_keys h ->
  exists s w, boot now (started d [] c) = (Ok s, w) /\ healthy (snd (svc_log s)) /\
    svc_gate s = commit_all (history_detections h) gate_new /\ clean false (svc_log s) h 0 /\
    (index_fits (fst (svc_log s)) -> serving s h).
Proof.
  intros Hd Hsz Hk. assert (Hw : at_disk d (started d [] c)) by (split; [done|apply Forall_nil_2]).
  destruct (steps_healthy _ _ _ _ (log_open_steps false now now_u64 default_log_config d h 0 _ Hw Hsz Hd) (conj (conj eq_refl eq_refl) eq_refl))
    as (l & w1 & E & Hh1 & _ & Hc & _).
  pose proof (log_open_config false now default_log_config _ _ _ E) as Hcf.
  destruct (seed_read l w1 h Hc Hh1 ltac:(by rewrite Hcf)) as (n & s' & Es & Hc' & Hh' & Hcf' & _).
  unfold boot. rewrite E, Es. do 2 eexists. split; [reflexivity|]. cbn [svc_log svc_gate service_new].
  split; [done|]. split; [done|]. split; [done|]. intros Hf. split; try done. exact (eq_trans Hcf' Hcf).
Qed.

Lemma seed_disk (s : Store) : prompt (snd s) -> disk (snd (snd (@seed_from_log _ seg gate_new s))) = disk (snd s).
Proof.
  intros Hp. unfold seed_from_log. change (@earliest_offset _ seg s) with (port log_earliest_offset s).
  assert (E : snd (port log_earliest_offset s) = s) by done. destruct (port log_earliest_offset s) as [[[o|]|e] s1];
    simpl in E; subst s1; try done.
  change (@read_range _ seg o None) with (port (log_read_range false o None)). destruct s as [l w].
  pose proof (log_read_range_only false o None l w Hp) as Ho. unfold port.
  destruct (log_read_range false o None (l, w)) as [[[es|e] s']|]; [apply Ho..|done].
Qed.

(** A start under any schedule leaves the history on disk. *)
Lemma boot_keeps w h :
  on_disk false (disk w) h 0 -> sizes_ok (disk w) -> honest w -> prompt w ->
  on_disk false (disk (snd (boot now w))) h 0 /\ sizes_ok (disk (snd (boot now w))).
Proof.
  intros Hd Hsz Ho Hp. pose proof (log_open_steps false now now_u64 default_log_config _ h 0 w (conj eq_refl Ho) Hsz Hd Hp) as Hopen.
  unfold boot. destruct (log_open false now default_log_config w) as [[[l|e] w1]|]; [..|done].
  - destruct Hopen as (Hp1 & _ & _ & _ & Hc & _ & Hsz1). pose proof (seed_disk (l, w1) Hp1) as Es.
    destruct (@seed_from_log _ seg gate_new (l, w1)) as [[[n|e] g] s']; simpl in *; rewrite Es;
      (split; [by eapply clean_on_disk|done]).
  - destruct Hopen as (_ & _ & _ & Hd1 & Hsz1). done.
Qed.

Lemma lives_history d0 h0 d acked :
  on_disk false d0 h0 0 -> sizes_ok d0 -> increasing_keys h0 -> lives new_uuid now d0 d acked ->
  exists h, on_disk false d (h0 ++ h) 0 /\ sizes_ok d /\ increasing_keys (h0 ++ h) /\
    acked `sublist_of` (MemLog.stored <$> h).
Proof.
  intros Hd0 Hsz0 Hk0 Hl. induction Hl as [|d acked faults c Hl IH Ho Hpr|d acked c s w acked1 s1 faults pid e r s2 Hl IH Hb Hf Hs Ho Hpr He Ha Hsz].
  - exists []. by rewrite app_nil_r.
  - destruct IH as (h & Hd & Hsz & Hk & Hack).
    destruct (boot_keeps (started d faults c) _ Hd Hsz Ho Hpr). by exists h.
  - destruct IH as (h & Hd & Hszd & Hk & Hack).
    destruct (boot_serving d _ c Hd Hszd Hk) as (s' & w' & Eb & Hh & _ & _ & Hsv).
    rewrite Hb in Eb. injection Eb as <- <-.
    destruct (serves_serving s acked1 s1 _ Hs (Hsv Hf) Hh) as (h1 & Hsv1 & [_ Hu1] & Hack1).
    destruct (serving_call pid e (with_faults faults s1) _ (serving_faults faults _ _ Hsv1) Ho (conj (proj1 Hpr) Hu1) He)
      as (r' & s2' & E & h2 & Hd2 & Hk2 & Hack2 & _).
    rewrite Ha in E. injection E as <- <-. exists (h ++ h1 ++ h2). rewrite !app_assoc. do 3 (split; [done|]).
    rewrite !fmap_app, <- !app_assoc. by repeat apply sublist_app.
Qed.

(** C11: A crash loses nothing that was acknowledged.  Take any life of a
    node's directory: starts that fail or are killed, and runs of calls of
    [append_event], each ended by a call in which I/O fails or the process
    dies (not the machine: what was written stays), at any point, after any
    part of a write; but no write fails after the call for it has returned
    ([SegmentLate] has such runs), and a run starts with few enough records in
    the active segment for its index to be written.  What the directory held
    is still there; every event acknowledged as appended follows it, in the
    order of the acknowledgements; no key has a sequence number twice, or out
    of order; and the next start succeeds, with a log that holds this history
    and a gate that knows it: a detection that was acknowledged and is sent
    again is dropped as a duplicate. *)
Theorem crash_durability d0 h0 d acked :
  on_disk false d0 h0 0 -> sizes_ok d0 -> increasing_keys h0 -> lives new_uuid now d0 d acked ->
  exists h, acked `sublist_of` (MemLog.stored <$> h) /\ increasing_keys (h0 ++ h) /\
    forall c, exists s w, boot now (started d [] c) = (Ok s, w) /\
      clean false (svc_log s) (h0 ++ h) 0 /\
      svc_gate s = commit_all (history_detections (h0 ++ h)) gate_new /\
      forall pid det, (pid, EvDetection det) ∈ acked ->
        exists s', @append_event _ seg new_uuid pid (EvDetection det) s = Some (Ok DroppedDuplicate, s').
Proof.
  intros Hd0 Hsz0 Hk0 Hl. destruct (lives_history d0 h0 d acked Hd0 Hsz0 Hk0 Hl) as (h & Hd & Hsz & Hk & Hack).
  exists h. split; [done|]. split; [done|]. intros c.
  destruct (boot_serving d _ c Hd Hsz Hk) as (s & w & E & _ & Hg & Hc & _). exists s, w. do 3 (split; [done|]).
  intros pid det Hin. destruct (commit_all_knows pid det (history_detections (h0 ++ h)) gate_new) as (hw & Hhw & Hle).
  { by eapply stored_detection. }
  rewrite <- Hg in Hhw. destruct (append_event_known (EL := seg) new_uuid pid det s hw Hhw Hle) as (s' & E' & _).
  by exists s'.
Qed.
End Served.

(** ** A concrete life

    The node starts on an empty directory and stores one detection; it dies
    while it writes the next one. *)
Definition life_events : Cbor OtkEvent :=
  table_cbor [(EvDetection detection_a, [x81; x01]); (EvDetection detection_b, [x81; x02])].

Lemma life_events_laws : @CborLaws OtkEvent life_events.
Proof. apply table_cbor_laws. apply (bool_decide_eq_true_1 (NoDup _)). vm_compute. reflexivity. Qed.

Abbreviation life_boot := (@boot life_events sum_crc sample_now).
Abbreviation life_call pid e s :=
  (@append_event _ (@segment_log life_events sum_crc sample_now) sample_uuid pid e s).

Definition booted : EventIngestService Store * World :=
  Eval vm_compute in
    match life_boot (started ∅ [] 0) with
    | (Ok s, w) => (s, w)
    | (Err _, w) => (service_new (one_segment, w) default_config gate_new, w)
    end.

Definition stored_one : EventIngestService Store :=
  Eval vm_compute in default (fst booted) (snd <$> life_call "p" (EvDetection detection_a) (fst booted)).

Definition fatal : list fault := [Succeeds; Succeeds; Killed 9].

Definition died : EventIngestService Store :=
  Eval vm_compute in
    default stored_one (snd <$> life_call "p" (EvDetection detection_b) (with_faults fatal stored_one)).

Example life_starts : life_boot (started ∅ [] 0) = (Ok (fst booted), snd booted).
Proof. vm_compute. reflexivity. Qed.

Example life_stores : life_call "p" (EvDetection detection_a) (fst booted) = Some (Ok (Appended (offset_new 0)), stored_one).
Proof. vm_compute. reflexivity. Qed.

Example life_ends :
  life_call "p" (EvDetection detection_b) (with_faults fatal stored_one) = Some (Err (Io "killed"), died).
Proof. vm_compute. reflexivity. Qed.

Lemma life_lived :
  @lives life_events sum_crc sample_uuid sample_now ∅ (service_disk died) [("p", EvDetection detection_a)].
Proof.
  eapply (@lives_run life_events sum_crc sample_uuid sample_now ∅ ∅ [] 0 (fst booted) (snd booted)
    [("p", EvDetection detection_a)] stored_one fatal "p" (EvDetection detection_b) (Err (Io "killed")) died).
  - constructor.
  - exact life_starts.
  - vm_compute. discriminate.
  - exact (serves_call sample_uuid sample_now _ [] _ "p" _ _ _ (serves_nothing _ _ _) detection_a_wf life_stores).
  - repeat constructor; intros n; done.
  - by repeat constructor.
  - exact detection_b_wf.
  - exact life_ends.
  - apply sizes_ok_check. vm_compute. reflexivity.
Qed.

Example life_again : exists s w, life_boot (started (service_disk died) [] 0) = (Ok s, w) /\ next_offset (fst (svc_log s)) = 1%N.
Proof. vm_compute. do 2 eexists. split; reflexivity. Qed.

(** The record cut short is gone, and the first detection is known. *)
Lemma crash_durability_witness :
  @lives life_events sum_crc sample_uuid sample_now ∅ (service_disk died) [("p", EvDetection detection_a)] /\
  exists h, ("p", EvDetection detection_a) ∈ MemLog.stored <$> h /\
    exists s w, life_boot (started (service_disk died) [] 0) = (Ok s, w) /\
      next_offset (fst (svc_log s)) = 1%N /\ @clean life_events sum_crc false (svc_log s) h 0 /\
      exists s', life_call "p" (EvDetection detection_a) s = Some (Ok DroppedDuplicate, s').
Proof.
  split; [exact life_lived|].
  destruct (@crash_durability life_events sum_crc life_events_laws sum_crc_laws sample_uuid sample_now sample_now_u64
    ∅ [] (service_disk died) [("p", EvDetection detection_a)] empty_on_disk)
    as (h & Hack & _ & Hboot); [done|constructor|exact life_lived|].
  exists h. split; [by apply singleton_sublist_l|]. destruct life_again as (s & w & E & Hn).
  destruct (Hboot 0%N) as (s' & w' & E' & Hc & _ & Hdup). rewrite E in E'. injection E' as <- <-.
  exists s, w. do 3 (split; [done|]). apply Hdup. by left.
Defined.

(** ** A node that goes on after a failure

    A detection comes, its batch is committed and the roll that follows fails;
    the call is answered with the error, the gate does not learn of the
    detection, and when the producer sends it again it is stored again. *)
Definition resending : option (list Answer * EventIngestService Store) :=
  @run_calls _ (@segment_log life_events sum_crc sample_now) sample_uuid
    [("p", EvDetection detection_a); ("p", EvDetection detection_a)]
    (service_new (fresh_log, world roll_fails) default_config gate_new).

Example resent_after_failed_roll :
  option_map fst resending = Some [Err (Io "ENOSPC"); Ok (Appended (offset_new 1))] /\
  option_map (fun rs => let (r, _) := @read_range _ (@segment_log life_events sum_crc sample_now) (offset_new 0) None
      (svc_log (snd rs)) in let? es := r in Ok (history_detections es)) resending =
    Some (Ok [("p", detection_a); ("p", detection_a)]).
Proof. split; vm_compute; reflexivity. Qed.
