(* ===== verification/IngestConcurrency.v ===== *)
(** Concurrent calls of [append_event] (crate [timing-core],
    [services/event_ingest.rs]).

    Each session task runs [append_event] on the shared service.  Its mutexes
    make five critical sections: the gate's peek, the processor's peek, the
    log append, the gate's commit and the processor's commit; between them
    other tasks run.  [task_step] is one section of one task, [cstep] the
    interleaving of all tasks. *)
From stdpp Require Import base gmap strings list option numbers relations sorting.
From S2P Require Import Prelude EventModel EventLogPort SequenceGate CrossingProcessor IngestService.
From S2P Require MemLog.

(** Where a call is. *)
Inductive TaskPc :=
  | TStart
  | TDecided (gap : option (N * N))
  | TPeeked (gap : option (N * N)) (crossings : list OtkEvent)
  | TStored (gap : option (N * N)) (crossings : list OtkEvent) (o : Offset)
  | TGated (gap : option (N * N)) (crossings : list OtkEvent) (o : Offset)
  | TDone (r : result AppendOutcome StorageError).

Record Task := { t_pid : string; t_event : OtkEvent; t_pc : TaskPc }.

Section Concurrency.
Context `{EL : EventLog L}.
Variable new_uuid : N -> string.

Definition at_pc (t : Task) (pc : TaskPc) : Task :=
  {| t_pid := t_pid t; t_event := t_event t; t_pc := pc |}.

Definition add_metrics (s : EventIngestService L) (ms : list MetricEvent) : EventIngestService L :=
  {| svc_log := svc_log s; svc_processor := svc_processor s; svc_gate := svc_gate s;
     svc_metrics := svc_metrics s ++ ms; svc_draws := svc_draws s |}.

(** One critical section; [None] is a panic. *)
Definition task_step (t : Task) (s : EventIngestService L) : option (Task * EventIngestService L) :=
  match t_pc t with
  | TStart =>
      let! decision := decide_event (t_pid t) (t_event t) (svc_gate s) in
      match decision with
      | inl dropped => Some (at_pc t (TDone (Ok DroppedDuplicate)), add_metrics s [dropped])
      | inr gap => Some (at_pc t (TDecided gap), s)
      end
  | TDecided gap =>
      let! crossings := peek_crossings new_uuid (svc_draws s) (t_event t) (svc_processor s) in
      Some (at_pc t (TPeeked gap crossings),
            {| svc_log := svc_log s; svc_processor := svc_processor s; svc_gate := svc_gate s;
               svc_metrics := svc_metrics s; svc_draws := (svc_draws s + len crossings)%N |})
  | TPeeked gap crossings =>
      let (r, log) := append (t_pid t) (t_event t :: crossings) (svc_log s) in
      Some (at_pc t (match r with Ok o => TStored gap crossings o | Err e => TDone (Err e) end),
            with_log s log)
  | TStored gap crossings o =>
      Some (at_pc t (TGated gap crossings o),
            {| svc_log := svc_log s; svc_processor := svc_processor s;
               svc_gate := commit_all (event_detections (t_pid t) (t_event t)) (svc_gate s);
               svc_metrics := svc_metrics s; svc_draws := svc_draws s |})
  | TGated gap crossings o =>
      let! (processor, draws) :=
        match t_event t with
        | EvDetection det =>
            let! (cs, p) := commit_detection new_uuid (svc_draws s) det (svc_processor s) in
            Some (p, len cs)
        | _ => Some (svc_processor s, 0%N)
        end in
      Some (at_pc t (TDone (Ok (Appended o))),
            {| svc_log := svc_log s; svc_processor := processor; svc_gate := svc_gate s;
               svc_metrics := svc_metrics s ++
                 match gap, t_event t with
                 | Some _, EvDetection det => [SequenceGap (t_pid t) (as_str (detector_id det))]
                 | _, _ => []
                 end ++ append_metrics (t_pid t) (t_event t) crossings;
               svc_draws := (svc_draws s + draws)%N |})
  | TDone _ => Some (t, s)
  end.

(** A task run alone to its end. *)
Fixpoint task_run (fuel : nat) (t : Task) (s : EventIngestService L)
  : option (result AppendOutcome StorageError * EventIngestService L) :=
  match t_pc t with
  | TDone r => Some (r, s)
  | _ => match fuel with
         | O => None
         | S fuel => let! (t, s) := task_step t s in task_run fuel t s
         end
  end.

Inductive cstep : EventIngestService L * list Task -> EventIngestService L * list Task -> Prop :=
  | cstep_task s s' before t t' after :
      task_step t s = Some (t', s') ->
      cstep (s, before ++ t :: after) (s', before ++ t' :: after)
  (** A new session delivers an event. *)
  | cstep_call s ts pid e :
      wf_event e -> cstep (s, ts) (s, ts ++ [{| t_pid := pid; t_event := e; t_pc := TStart |}]).

(** The detections of a task, by what became of them: stored but not yet
    committed to the gate, committed, and those of a call that failed. *)
Definition detections_of (t : Task) : list (string * Detection) := event_detections (t_pid t) (t_event t).

Definition in_flight (t : Task) : list (string * Detection) :=
  match t_pc t with TStored _ _ _ => detections_of t | _ => [] end.

Definition gated (t : Task) : list (string * Detection) :=
  match t_pc t with TGated _ _ _ | TDone (Ok (Appended _)) => detections_of t | _ => [] end.

Definition failed (t : Task) : list (string * Detection) :=
  match t_pc t with TDone (Err _) => detections_of t | _ => [] end.

Definition gather (f : Task -> list (string * Detection)) (ts : list Task) : list (string * Detection) :=
  concat (f <$> ts).
End Concurrency.

(** ** The interleaving refines the sequential call *)
Section Facts.
Context `{EL : EventLog L} `{!EventLogLaws L}.
Variable new_uuid : N -> string.

(** A crossing list a task carries: derived crossings only. *)
Definition derived (es : list OtkEvent) : Prop :=
  exists cs, es = (fun c => EvCrossing (map_crossing c)) <$> cs.

Definition task_ok (t : Task) : Prop :=
  wf_event (t_event t) /\
  match t_pc t with TPeeked _ es | TStored _ es _ | TGated _ es _ => derived es | _ => True end.

(** What is stored is committed, in flight, or [strays]: batches of calls that
    failed after the commit of the log. *)
Definition balanced (sure : bool) (g0 : SequenceGate) (h0 : list LogEntry)
    (s : EventIngestService L) (ts : list Task) (new : list LogEntry) (k : N)
    (strays : list (string * Detection)) : Prop :=
  log_rep sure (svc_log s) (h0 ++ new) k /\
  history_detections new ≡ₚ gather gated ts ++ gather in_flight ts ++ strays /\
  svc_gate s = commit_all (gather gated ts) g0 /\
  strays ⊆+ gather failed ts /\ (sure = true -> strays = []).

Record cinv (sure : bool) (g0 : SequenceGate) (h0 : list LogEntry) (c : EventIngestService L * list Task) : Prop := {
  c_proc : wf_proc (svc_processor (fst c));
  c_tasks : Forall task_ok (snd c);
  c_log : exists new k strays, balanced sure g0 h0 (fst c) (snd c) new k strays
}.

Lemma gather_mid f before t after :
  gather f (before ++ t :: after) = gather f before ++ f t ++ gather f after.
Proof. unfold gather. by rewrite fmap_app, concat_app. Qed.

Lemma gather_start f ts pid e :
  f {| t_pid := pid; t_event := e; t_pc := TStart |} = [] ->
  gather f (ts ++ [{| t_pid := pid; t_event := e; t_pc := TStart |}]) = gather f ts.
Proof. intros E. by rewrite gather_mid, E, !app_nil_r. Qed.

Lemma shuffle {A} (gb g g' ga ib i i' ia st d stray h : list A) :
  h ≡ₚ (gb ++ g ++ ga) ++ (ib ++ i ++ ia) ++ st -> g' ++ i' ++ stray = g ++ i ++ d ->
  h ++ d ≡ₚ (gb ++ g' ++ ga) ++ (ib ++ i' ++ ia) ++ st ++ stray.
Proof.
  intros -> E. transitivity ((gb ++ ga ++ ib ++ ia ++ st) ++ (g ++ i ++ d)); [solve_Permutation|].
  rewrite <- E. solve_Permutation.
Qed.

(** Committing in any order. *)
Lemma commit_all_perm ds ds' g : ds ≡ₚ ds' -> commit_all ds g = commit_all ds' g.
Proof.
  intros Hp. apply gate_ext. intros k. rewrite !commit_all_lookup. apply max_seq_perm.
  unfold seqs_for. by rewrite Hp.
Qed.

(** What one section does to the invariant's parts. *)
Lemma task_step_spec sure t (s : EventIngestService L) h k :
  wf_proc (svc_processor s) -> task_ok t -> log_rep sure (svc_log s) h k ->
  exists t' s', task_step new_uuid t s = Some (t', s') /\ wf_proc (svc_processor s') /\ task_ok t' /\
    exists new k' committed stray, log_rep sure (svc_log s') (h ++ new) k' /\
      svc_gate s' = commit_all committed (svc_gate s) /\ gated t' = gated t ++ committed /\
      gated t' ++ in_flight t' ++ stray = gated t ++ in_flight t ++ history_detections new /\
      failed t ++ stray ⊆+ failed t' /\ (sure = true -> stray = []).
Proof.
  intros Hproc [He Hpc] Hrep. unfold task_step. destruct t as [pid e pc]; simpl in *.
  destruct pc as [|gap|gap es|gap es o|gap es o|r].
  - destruct (decide_event_total pid e (svc_gate s) He) as (dec & -> & _).
    destruct dec as [m|gap]; eexists _, _; (split; [done|]); (split; [done|]); (split; [done|]);
      exists [], k, [], []; rewrite app_nil_r; done.
  - destruct (peek_crossings_total new_uuid (svc_draws s) e _ Hproc) as (cs & -> & _).
    eexists _, _. split; [done|]. split; [done|]. split; [split; [done|by exists cs]|].
    exists [], k, [], []. rewrite app_nil_r. done.
  - destruct Hpc as [cs ->]. destruct (append pid _ (svc_log s)) as [[o|err] log'] eqn:Ha.
    + destruct (log_append_ok _ _ _ _ _ _ _ _ Hrep Ha) as (_ & _ & _ & times & k' & Ht & _ & Hrep').
      simpl in Ht. rewrite length_fmap in Ht. eexists _, _. split; [done|]. split; [done|].
      split; [split; [done|by exists cs]|].
      eexists _, k', [], []. split; [exact Hrep'|]. rewrite history_detections_batch by done.
      unfold gated, in_flight, failed. simpl. rewrite ?app_nil_r. split_and!; done.
    + eexists _, _. split; [done|]. split; [done|]. split; [done|].
      destruct (log_append_err _ _ _ _ _ _ _ _ Hrep Ha) as [Hrep'|(-> & times & k' & Ht & _ & Hrep')].
      * exists [], k, [], []. rewrite app_nil_r. split_and!; try done. apply submseteq_nil_l.
      * simpl in Ht. rewrite length_fmap in Ht. eexists _, k', [], (event_detections pid e).
        split; [exact Hrep'|]. by rewrite history_detections_batch.
  - eexists _, _. split; [done|]. split; [done|]. split; [done|].
    exists [], k, (event_detections pid e), []. rewrite app_nil_r. unfold gated, in_flight, failed. simpl.
    rewrite !app_nil_r. split_and!; done.
  - assert (Hgated : forall p draws ms, exists new k' committed stray,
      let s' := {| svc_log := svc_log s; svc_processor := p; svc_gate := svc_gate s; svc_metrics := ms; svc_draws := draws |} in
      let t' := {| t_pid := pid; t_event := e; t_pc := TDone (Ok (Appended o)) |} in
      let t := {| t_pid := pid; t_event := e; t_pc := TGated gap es o |} in
      log_rep sure (svc_log s') (h ++ new) k' /\
      svc_gate s' = commit_all committed (svc_gate s) /\ gated t' = gated t ++ committed /\
      gated t' ++ in_flight t' ++ stray = gated t ++ in_flight t ++ history_detections new /\
      failed t ++ stray ⊆+ failed t' /\ (sure = true -> stray = [])).
    { intros p draws ms. exists [], k, [], []. cbv zeta. rewrite !app_nil_r. split_and!; done. }
    destruct e as [d|hh|tb|m|c].
    + destruct (commit_detection_total new_uuid (svc_draws s) d _ Hproc) as [[cs p'] Hc]. rewrite Hc.
      destruct (commit_detection_wf _ _ _ _ _ _ Hproc Hc) as [Hproc' _].
      eexists _, _. split; [done|]. split; [done|]. split; [done|]. apply Hgated.
    + do 2 eexists. do 3 (split; [done|]). apply Hgated.
    + do 2 eexists. do 3 (split; [done|]). apply Hgated.
    + do 2 eexists. do 3 (split; [done|]). apply Hgated.
    + do 2 eexists. do 3 (split; [done|]). apply Hgated.
  - do 2 eexists. do 3 (split; [done|]). exists [], k, [], []. rewrite !app_nil_r. split_and!; done.
Qed.

Lemma cstep_inv sure g0 h0 c c' : cinv sure g0 h0 c -> cstep new_uuid c c' -> cinv sure g0 h0 c'.
Proof.
  intros [Hproc Htasks (new & k & strays & Hrep & Hnew & Hgate & Hstr & Hsure)] Hstep.
  destruct Hstep as [s s' before t t' after Ht|s ts pid e He]; simpl in *.
  - apply Forall_app in Htasks as [Hb Hta]. apply Forall_cons in Hta as [Htok Ha].
    destruct (task_step_spec sure t s (h0 ++ new) k Hproc Htok Hrep)
      as (t1 & s1 & Ht1 & Hproc1 & Htok1 & more & k1 & committed & stray & Hrep1 & Hg1 & Hgt & Heq & Hf & Hs1).
    rewrite Ht in Ht1. simplify_eq. split; simpl; [done| |].
    + apply Forall_app. split; [done|]. by apply Forall_cons.
    + exists (new ++ more), k1, (strays ++ stray). unfold balanced. rewrite !gather_mid in *. split; [by rewrite app_assoc|].
      split; [rewrite history_detections_app; eapply shuffle; [exact Hnew|exact Heq]|]. split; [|split].
      * rewrite Hg1, Hgate, <- commit_all_app. apply commit_all_perm. rewrite Hgt. solve_Permutation.
      * transitivity ((gather failed before ++ failed t ++ gather failed after) ++ stray).
        { by apply submseteq_app. }
        transitivity (gather failed before ++ (failed t ++ stray) ++ gather failed after).
        { apply Permutation_submseteq. solve_Permutation. }
        by apply submseteq_app; [|apply submseteq_app].
      * intros E. by rewrite (Hsure E), (Hs1 E).
  - split; simpl; [done| |].
    + apply Forall_app. split; [done|]. by apply Forall_singleton.
    + exists new, k, strays. unfold balanced. rewrite !gather_start by done. done.
Qed.
End Facts.

(** ** Properties *)
Section Props.
Context `{EL : EventLog L} `{!EventLogLaws L}.
Variable new_uuid : N -> string.

(** the five critical sections, run without interruption, are
    [append_event]: same outcome, same final service, on every branch. *)
Theorem task_run_is_append_event pid e (s : EventIngestService L) :
  wf_proc (svc_processor s) -> wf_event e ->
  task_run new_uuid 5 {| t_pid := pid; t_event := e; t_pc := TStart |} s =
  append_event new_uuid pid e s.
Proof.
  intros Hproc He. destruct s as [log proc gate ms draws]. simpl in Hproc.
  destruct (decide_event_total pid e gate He) as (dec & Hdec & _).
  destruct (peek_crossings_total new_uuid draws e proc Hproc) as (cs & Hpk & _).
  unfold append_event. cbn [task_run t_pc task_step t_pid t_event svc_gate svc_processor svc_draws].
  rewrite Hdec. destruct dec as [m|gap]; [done|].
  cbn [task_run t_pc task_step t_pid t_event at_pc svc_gate svc_processor svc_draws]. rewrite Hpk.
  cbn [task_run t_pc task_step t_pid t_event at_pc svc_gate svc_processor svc_draws svc_log].
  destruct (append pid _ log) as [[o|err] log']; [|done].
  cbn [task_run t_pc task_step t_pid t_event at_pc svc_gate svc_processor svc_draws svc_log with_log
       svc_metrics].
  destruct e as [d|hh|tb|m|c]; unfold commit_event; cbn [svc_draws svc_processor svc_log svc_gate svc_metrics].
  - destruct (commit_detection new_uuid _ d proc) as [[cs' p']|]; [|done].
    unfold event_detections, commit_all. simpl. do 2 f_equal. rewrite <- app_assoc. by destruct gap.
  - simpl. do 2 f_equal. destruct gap; rewrite N.add_0_r; done.
  - simpl. do 2 f_equal. destruct gap; rewrite N.add_0_r; done.
  - simpl. do 2 f_equal. destruct gap; rewrite N.add_0_r; done.
  - simpl. do 2 f_equal. destruct gap; rewrite N.add_0_r; done.
Qed.

(** C5: whatever the interleaving of any number of calls, no critical section
    panics; the gate holds exactly the marks of the calls that have committed to
    it; what has been stored is their detections, those of the calls between
    their append and their commit, and, only when the log may fail after its
    commit, detections of calls that ended in an error.  So when that cannot
    happen and no call is between the two, the gate holds exactly the marks of
    what has been stored. *)
Theorem concurrent_gate_consistent sure log cfg g0 h0 k0 (s : EventIngestService L) ts :
  log_rep sure log h0 k0 -> rtc (cstep new_uuid) (service_new log cfg g0, []) (s, ts) ->
  Forall (fun t => exists t' s', task_step new_uuid t s = Some (t', s')) ts /\
  exists new k strays, balanced sure g0 h0 s ts new k strays /\
    (sure = true -> gather in_flight ts = [] -> svc_gate s = commit_all (history_detections new) g0).
Proof.
  intros Hrep Hsteps.
  assert (Hinv : cinv sure g0 h0 (s, ts)).
  { assert (H0 : cinv sure g0 h0 (service_new log cfg g0, [])).
    { split; [apply map_Forall_empty|by apply Forall_nil|]. exists [], k0, [].
      split; [by rewrite app_nil_r|]. by split_and!. }
    revert H0. induction Hsteps as [|c1 c2 c3 H12 _ IH]; [done|].
    intros H1. apply IH. by eapply cstep_inv. }
  destruct Hinv as [Hproc Htasks (new & k & strays & Hbal)]. simpl in *. split.
  - eapply Forall_impl; [exact Htasks|]. intros t Ht.
    destruct (task_step_spec new_uuid sure t s _ _ Hproc Ht (proj1 Hbal)) as (t' & s' & ? & _). eauto.
  - exists new, k, strays. split; [done|]. destruct Hbal as (_ & Hnew & Hg & _ & Hs). intros E Hnone.
    rewrite Hg. apply commit_all_perm. by rewrite Hnew, Hnone, (Hs E), !app_nil_r.
Qed.
End Props.

(** ** What modelling showed

    Two sessions of one producer may deliver the same detection at the same
    time: both peeks see a fresh sequence number, and both calls store it. *)
Definition race_service : EventIngestService MemLog.Inner := sample_service.

Definition race_event : OtkEvent := EvDetection detection_a.

Fixpoint run_schedule (schedule : list nat) (c : EventIngestService MemLog.Inner * list Task)
  : option (EventIngestService MemLog.Inner * list Task) :=
  match schedule with
  | [] => Some c
  | i :: schedule =>
      let (s, ts) := c in
      let! t := ts !! i in
      let! (t', s') := @task_step _ mem sample_uuid t s in
      run_schedule schedule (s', <[i := t']> ts)
  end.

Lemma run_schedule_steps schedule c c' :
  run_schedule schedule c = Some c' -> rtc (@cstep _ mem sample_uuid) c c'.
Proof.
  revert c. induction schedule as [|i js IH]; intros [s ts] Hr; simpl in Hr.
  { simplify_eq. apply rtc_refl. }
  destruct (ts !! i) as [t|] eqn:Hi; [|done].
  destruct (@task_step _ mem sample_uuid t s) as [[t' s']|] eqn:Ht; [|done].
  eapply rtc_l; [|by apply IH]. destruct (list_elem_of_split_length _ _ _ Hi) as (l1 & l2 & -> & ->).
  rewrite insert_app_r_alt by lia. rewrite Nat.sub_diag. by apply cstep_task.
Qed.

Definition race_end : option (EventIngestService MemLog.Inner * list Task) :=
  run_schedule [0; 1; 0; 1; 0; 1; 0; 1; 0; 1]
    (race_service, [ {| t_pid := "p"; t_event := race_event; t_pc := TStart |};
                     {| t_pid := "p"; t_event := race_event; t_pc := TStart |} ]).

(** the duplicate check is not atomic with the append: some interleaving
    of two calls for one detection of one producer stores it twice. *)
Theorem concurrent_duplicate_stored :
  exists s ts, rtc (@cstep _ mem sample_uuid) (race_service, []) (s, ts) /\
    Forall (fun t => exists o, t_pc t = TDone (Ok (Appended o))) ts /\
    history_detections (MemLog.entries (svc_log s)) = [("p", detection_a); ("p", detection_a)].
Proof.
  destruct race_end as [[s ts]|] eqn:E; [|by vm_compute in E].
  exists s, ts. split.
  - etransitivity; [|by eapply run_schedule_steps].
    eapply rtc_l; [by apply (cstep_call _ race_service [] "p" race_event), detection_a_wf|].
    apply rtc_once. by apply (cstep_call _ race_service [_] "p" race_event), detection_a_wf.
  - vm_compute in E. injection E as <- <-. split; [|reflexivity].
    repeat (apply Forall_cons; split; [by eexists|]). by apply Forall_nil.
Qed.

(** ** Witnesses *)
Lemma task_run_is_append_event_witness :
  @task_run _ mem sample_uuid 5 {| t_pid := "p"; t_event := race_event; t_pc := TStart |} race_service =
  @append_event _ mem sample_uuid "p" race_event race_service.
Proof.
  apply (@task_run_is_append_event _ mem sample_uuid "p" race_event race_service);
    [apply sample_svc_proc|apply detection_a_wf].
Defined.

(** Three calls interleave: the second stores its batch first and is still
    between its append and its commit, the first is done, and the third failed. *)
Definition three_calls : list Task :=
  [ {| t_pid := "p"; t_event := EvDetection detection_a; t_pc := TStart |};
    {| t_pid := "q"; t_event := EvDetection detection_b; t_pc := TStart |};
    {| t_pid := ""; t_event := EvDetection detection_b; t_pc := TStart |} ].

Definition three_end : option (EventIngestService MemLog.Inner * list Task) :=
  run_schedule [0; 1; 2; 0; 1; 2; 1; 0; 2; 0; 0] (race_service, three_calls).

Example three_end_tasks : option_map (fun c => t_pc <$> snd c) three_end =
  Some [TDone (Ok (Appended (offset_new 1))); TStored None [] (offset_new 0);
        TDone (Err (InvalidInput "producer_id must not be empty"))].
Proof. vm_compute. reflexivity. Qed.

Lemma three_reached c : three_end = Some c -> rtc (@cstep _ mem sample_uuid) (race_service, []) c.
Proof.
  intros E. etransitivity; [|by eapply run_schedule_steps].
  eapply rtc_l; [by apply (cstep_call _ race_service [] "p" (EvDetection detection_a)), detection_a_wf|].
  eapply rtc_l; [by apply (cstep_call _ race_service [_] "q" (EvDetection detection_b)), detection_b_wf|].
  apply rtc_once. by apply (cstep_call _ race_service [_; _] "" (EvDetection detection_b)), detection_b_wf.
Qed.

Lemma concurrent_gate_consistent_witness : exists s ts new k,
  three_end = Some (s, ts) /\ @log_rep _ mem mem_laws true (svc_log s) ([] ++ new) k /\
  gather gated ts = [("p", detection_a)] /\ gather in_flight ts = [("q", detection_b)] /\
  history_detections new ≡ₚ [("p", detection_a); ("q", detection_b)] /\
  svc_gate s = commit_all [("p", detection_a)] gate_new.
Proof.
  destruct three_end as [[s ts]|] eqn:E; [|by vm_compute in E].
  destruct (@concurrent_gate_consistent _ mem mem_laws sample_uuid true MemLog.mem_new
    {| grouping_window_ns := 50 |} gate_new [] 0 s ts) as (_ & new & k & strays & (Hrep & Hnew & Hg & _ & Hs) & _);
    [apply sample_rep|by apply three_reached|].
  assert (Hts : gather gated ts = [("p", detection_a)] /\ gather in_flight ts = [("q", detection_b)])
    by (vm_compute in E; injection E as _ <-; split; reflexivity).
  exists s, ts, new, k. destruct Hts as [Hts1 Hts2]. rewrite (Hs eq_refl), app_nil_r in Hnew.
  rewrite Hts1 in Hg. rewrite Hts1, Hts2 in Hnew. by split_and!.
Defined.
