(* ===== verification/Metrics.v ===== *)
(** Metrics of the node (crate [timing-node], [metrics.rs]): labelled counters
    and gauges with a bound on the number of series, updated by concurrent
    sessions, and their text rendering.

    [updates_accounted]: under any interleaving every update is counted, in
    its own series or in the overflow, and the map stays bounded.
    [scrape_exact]: whatever bytes but a carriage return a producer puts into
    its labels, the text reads back as exactly the series of the metric.

    A counter and a gauge differ only in the arithmetic of their atomics,
    which is the parameter [wrap]; values are integers in its range.  The
    order in which a [HashMap] is iterated is a parameter. *)
From Stdlib Require Import Strings.Byte.
From stdpp Require Import base gmap strings option numbers pretty sorting list.
From S2P Require Import Prelude EventModel IngestService.

Definition Key : Type := list (string * string).

(** ** Label sets *)

(** The order of [str]. *)
Fixpoint bytes_leb (a b : bytes) : bool :=
  match a, b with
  | [], _ => true
  | _, [] => false
  | x :: a, y :: b =>
      if (Byte.to_N x <? Byte.to_N y)%N then true
      else if (Byte.to_N y <? Byte.to_N x)%N then false
      else bytes_leb a b
  end.

Definition str_leb (a b : string) : bool := bytes_leb (str_bytes a) (str_bytes b).

(** The stable sort by label name. *)
Fixpoint insert_label (l : string * string) (sorted : Key) : Key :=
  match sorted with
  | [] => [l]
  | y :: rest => if str_leb (fst l) (fst y) then l :: y :: rest else y :: insert_label l rest
  end.

Definition canonical_labels (labels : list (string * string)) : Key := foldr insert_label [] labels.

(** ** A labelled metric *)
Definition MAX_SERIES_PER_METRIC : nat := N.to_nat 10000.

Record Labeled := {
  series : gmap Key Z;
  overflow : Z
}.

Definition labeled_default : Labeled := {| series := ∅; overflow := 0 |}.

(** [fetch_add] of [AtomicU64] and of [AtomicI64]. *)
Definition wrap_u64 (z : Z) : Z := (z mod 2 ^ 64)%Z.
Definition wrap_i64 (z : Z) : Z := ((z + 2 ^ 63) mod 2 ^ 64 - 2 ^ 63)%Z.

Section Updates.
Variable wrap : Z -> Z.

Definition fetch_add (a b : Z) : Z := wrap (a + b).

(** Under the read lock: an existing series. *)
Definition add_existing (delta : Z) (key : Key) (m : Labeled) : option Labeled :=
  match series m !! key with
  | Some c => Some {| series := <[key := fetch_add c delta]> (series m); overflow := overflow m |}
  | None => None
  end.

(** Under the write lock. *)
Definition add_locked (delta : Z) (key : Key) (m : Labeled) : Labeled :=
  match add_existing delta key m with
  | Some m => m
  | None =>
      if (MAX_SERIES_PER_METRIC <=? size (series m))%nat then
        {| series := series m; overflow := fetch_add (overflow m) delta |}
      else {| series := <[key := fetch_add 0 delta]> (series m); overflow := overflow m |}
  end.

Definition add (delta : Z) (labels : list (string * string)) (m : Labeled) : Labeled :=
  let key := canonical_labels labels in
  match add_existing delta key m with
  | Some m => m
  | None => add_locked delta key m
  end.
End Updates.

(** [LabeledCounter::incr], [LabeledGauge::add], [inc], [dec]. *)
Definition incr (labels : list (string * string)) : Labeled -> Labeled := add wrap_u64 1 labels.
Definition gauge_add (delta : Z) (labels : list (string * string)) : Labeled -> Labeled := add wrap_i64 delta labels.
Definition inc (labels : list (string * string)) : Labeled -> Labeled := gauge_add 1 labels.
Definition dec (labels : list (string * string)) : Labeled -> Labeled := gauge_add (-1) labels.

(** ** All metrics of a node *)
Record Metrics := {
  events_appended : Labeled;
  events_dropped_duplicates : Labeled;
  sequence_gaps : Labeled;
  ingest_sessions_active : Labeled;
  ingest_sessions_total : Labeled
}.

Definition metrics_default : Metrics :=
  {| events_appended := labeled_default; events_dropped_duplicates := labeled_default;
     sequence_gaps := labeled_default; ingest_sessions_active := labeled_default;
     ingest_sessions_total := labeled_default |}.

Definition on_appended (f : Labeled -> Labeled) (m : Metrics) : Metrics :=
  {| events_appended := f (events_appended m); events_dropped_duplicates := events_dropped_duplicates m;
     sequence_gaps := sequence_gaps m; ingest_sessions_active := ingest_sessions_active m;
     ingest_sessions_total := ingest_sessions_total m |}.
Definition on_duplicates (f : Labeled -> Labeled) (m : Metrics) : Metrics :=
  {| events_appended := events_appended m; events_dropped_duplicates := f (events_dropped_duplicates m);
     sequence_gaps := sequence_gaps m; ingest_sessions_active := ingest_sessions_active m;
     ingest_sessions_total := ingest_sessions_total m |}.
Definition on_gaps (f : Labeled -> Labeled) (m : Metrics) : Metrics :=
  {| events_appended := events_appended m; events_dropped_duplicates := events_dropped_duplicates m;
     sequence_gaps := f (sequence_gaps m); ingest_sessions_active := ingest_sessions_active m;
     ingest_sessions_total := ingest_sessions_total m |}.
Definition on_active (f : Labeled -> Labeled) (m : Metrics) : Metrics :=
  {| events_appended := events_appended m; events_dropped_duplicates := events_dropped_duplicates m;
     sequence_gaps := sequence_gaps m; ingest_sessions_active := f (ingest_sessions_active m);
     ingest_sessions_total := ingest_sessions_total m |}.
Definition on_total (f : Labeled -> Labeled) (m : Metrics) : Metrics :=
  {| events_appended := events_appended m; events_dropped_duplicates := events_dropped_duplicates m;
     sequence_gaps := sequence_gaps m; ingest_sessions_active := ingest_sessions_active m;
     ingest_sessions_total := f (ingest_sessions_total m) |}.

(** The adapter of the port [IngestMetrics]. *)
Definition record_metric (ev : MetricEvent) : Metrics -> Metrics :=
  match ev with
  | EventAppended producer_id event_kind =>
      on_appended (incr [("producer_id", producer_id); ("event_kind", event_kind)])
  | DuplicateDropped producer_id detector_id =>
      on_duplicates (incr [("producer_id", producer_id); ("detector_id", detector_id)])
  | SequenceGap producer_id detector_id =>
      on_gaps (incr [("producer_id", producer_id); ("detector_id", detector_id)])
  end.

(** ** Rendering *)
Definition LF : byte := x0a.
Definition CR : byte := x0d.
Definition QUOTE : byte := x22.
Definition BACKSLASH : byte := x5c.

(** [str::replace] of an ASCII character. *)
Definition replace (c : byte) (by_ : bytes) (v : bytes) : bytes :=
  v ≫= (fun b => if bool_decide (b = c) then by_ else [b]).

Definition escape_label_value (v : bytes) : bytes :=
  replace CR [BACKSLASH; "r"%byte]
    (replace LF [BACKSLASH; "n"%byte]
      (replace QUOTE [BACKSLASH; QUOTE]
        (replace BACKSLASH [BACKSLASH; BACKSLASH] v))).

Fixpoint join (sep : bytes) (parts : list bytes) : bytes :=
  match parts with
  | [] => []
  | [p] => p
  | p :: parts => p ++ sep ++ join sep parts
  end.

Definition render_label (l : string * string) : bytes :=
  str_bytes (fst l) ++ ["="%byte; QUOTE] ++ escape_label_value (str_bytes (snd l)) ++ [QUOTE].

(** A sample line without its line feed. *)
Definition series_line (name : bytes) (labels : Key) (value : bytes) : bytes :=
  if bool_decide (labels = []) then name ++ str_bytes " " ++ value
  else name ++ str_bytes "{" ++ join (str_bytes ",") (render_label <$> labels) ++ str_bytes "} " ++ value.

Definition render_series (name : bytes) (labels : Key) (value : bytes) : bytes :=
  series_line name labels value ++ [LF].

(** [strip_suffix("_total")]. *)
Definition overflow_metric_name (name : bytes) : bytes :=
  let suffix := str_bytes "_total" in
  let n := (length name - length suffix)%nat in
  if bool_decide (drop n name = suffix) then take n name ++ str_bytes "_overflow_total"
  else name ++ str_bytes "_overflow".

Definition line (bs : bytes) : bytes := bs ++ [LF].

Section Render.
Variable iter : gmap Key Z -> list (Key * Z).

Definition show (z : Z) : bytes := str_bytes (pretty z).

(** [overflow_help] is what differs between a counter and a gauge. *)
Definition render_metric (overflow_help : bytes -> bytes) (overflow_kind : bytes) (name kind help : bytes)
    (m : Labeled) : bytes :=
  line (str_bytes "# HELP " ++ name ++ str_bytes " " ++ help) ++
  line (str_bytes "# TYPE " ++ name ++ str_bytes " " ++ kind) ++
  (if bool_decide (series m = ∅) && (overflow m =? 0)%Z then line (name ++ str_bytes " 0")
   else iter (series m) ≫= (fun '((labels, value) : Key * Z) => render_series name labels (show value))) ++
  line (str_bytes "# HELP " ++ overflow_metric_name name ++ overflow_help name) ++
  line (str_bytes "# TYPE " ++ overflow_metric_name name ++ str_bytes " " ++ overflow_kind) ++
  line (overflow_metric_name name ++ str_bytes " " ++ show (overflow m)).

Definition cap_text (name : bytes) : bytes :=
  str_bytes " because " ++ name ++ str_bytes " reached the per-metric cardinality cap of 10000.".

Definition counter_render : bytes -> bytes -> bytes -> Labeled -> bytes :=
  render_metric (fun name => str_bytes " Label-sets dropped" ++ cap_text name) (str_bytes "counter").

Definition gauge_render : bytes -> bytes -> bytes -> Labeled -> bytes :=
  render_metric (fun name => str_bytes " Net delta sum for label-sets dropped" ++ cap_text name) (str_bytes "gauge").

Definition render (m : Metrics) : bytes :=
  counter_render (str_bytes "otk_events_appended_total") (str_bytes "counter")
    (str_bytes "Events appended to the event log.") (events_appended m) ++
  counter_render (str_bytes "otk_events_dropped_duplicates_total") (str_bytes "counter")
    (str_bytes "Detections rejected by the sequence gate as duplicates.") (events_dropped_duplicates m) ++
  counter_render (str_bytes "otk_sequence_gaps_total") (str_bytes "counter")
    (str_bytes "Detection sequence-number gaps observed by the sequence gate.") (sequence_gaps m) ++
  gauge_render (str_bytes "otk_ingest_sessions_active") (str_bytes "gauge")
    (str_bytes "Currently-connected ingest sessions per listener.") (ingest_sessions_active m) ++
  counter_render (str_bytes "otk_ingest_sessions_total") (str_bytes "counter")
    (str_bytes "Total ingest sessions accepted per listener since start.") (ingest_sessions_total m).
End Render.

(** ** Tests of the source, on the model *)
Example order_is_canonical :
  canonical_labels [("producer_id", "p1"); ("event_kind", "Detection")] =
  canonical_labels [("event_kind", "Detection"); ("producer_id", "p1")].
Proof. reflexivity. Qed.

Example escaped : escape_label_value (str_bytes "a" ++ [CR; LF; BACKSLASH; QUOTE]) =
  str_bytes "a" ++ [BACKSLASH; "r"%byte; BACKSLASH; "n"%byte; BACKSLASH; BACKSLASH; BACKSLASH; QUOTE].
Proof. reflexivity. Qed.

Example rendered :
  counter_render map_to_list (str_bytes "c_total") (str_bytes "counter") (str_bytes "h")
    (incr [("b", "2"); ("a", "1")] labeled_default) =
  line (str_bytes "# HELP c_total h") ++ line (str_bytes "# TYPE c_total counter") ++
  line (str_bytes "c_total{a=" ++ [QUOTE] ++ str_bytes "1" ++ [QUOTE] ++ str_bytes ",b=" ++ [QUOTE] ++
        str_bytes "2" ++ [QUOTE] ++ str_bytes "} 1") ++
  line (str_bytes "# HELP c_overflow_total Label-sets dropped because c_total reached the per-metric cardinality cap of 10000.") ++
  line (str_bytes "# TYPE c_overflow_total counter") ++ line (str_bytes "c_overflow_total 0").
Proof. vm_compute. reflexivity. Qed.

(** ** Label order does not matter *)
Lemma bytes_leb_total a b : bytes_leb a b = true \/ bytes_leb b a = true.
Proof.
  revert b. induction a as [|x a IH]; intros [|y b]; simpl; [by left|by left|by right|].
  destruct (N.ltb_spec (Byte.to_N x) (Byte.to_N y)), (N.ltb_spec (Byte.to_N y) (Byte.to_N x)); auto.
Qed.

Lemma bytes_leb_antisym a b : bytes_leb a b = true -> bytes_leb b a = true -> a = b.
Proof.
  revert b. induction a as [|x a IH]; intros [|y b]; simpl; try done.
  destruct (N.ltb_spec (Byte.to_N x) (Byte.to_N y)), (N.ltb_spec (Byte.to_N y) (Byte.to_N x)); try (done || lia).
  intros H1 H2. f_equal; [apply byte_to_N_inj; lia|by apply IH].
Qed.

Lemma bytes_leb_trans a b c : bytes_leb a b = true -> bytes_leb b c = true -> bytes_leb a c = true.
Proof.
  revert b c. induction a as [|x a IH]; intros [|y b] [|z c]; simpl; try done.
  destruct (N.ltb_spec (Byte.to_N x) (Byte.to_N y)), (N.ltb_spec (Byte.to_N y) (Byte.to_N x)),
    (N.ltb_spec (Byte.to_N y) (Byte.to_N z)), (N.ltb_spec (Byte.to_N z) (Byte.to_N y)),
    (N.ltb_spec (Byte.to_N x) (Byte.to_N z)), (N.ltb_spec (Byte.to_N z) (Byte.to_N x)); try (done || lia).
  apply IH.
Qed.

Definition label_le (x y : string * string) : Prop := str_leb (fst x) (fst y) = true.

Lemma insert_label_perm l ls : insert_label l ls ≡ₚ l :: ls.
Proof.
  induction ls as [|y ls IH]; simpl; [done|]. destruct (str_leb _ _); [done|].
  rewrite IH. apply perm_swap.
Qed.

Lemma canonical_labels_perm ls : canonical_labels ls ≡ₚ ls.
Proof. induction ls as [|l ls IH]; simpl; [done|]. by rewrite insert_label_perm, IH. Qed.

Lemma insert_label_sorted l ls : StronglySorted label_le ls -> StronglySorted label_le (insert_label l ls).
Proof.
  induction 1 as [|y ls Hs IH Hy]; simpl; [repeat constructor|]. destruct (str_leb _ _) eqn:E.
  - constructor; [by constructor|]. constructor; [done|]. eapply Forall_impl; [exact Hy|].
    intros z Hz. by eapply bytes_leb_trans.
  - constructor; [done|]. rewrite insert_label_perm. constructor; [|done].
    destruct (bytes_leb_total (str_bytes (fst l)) (str_bytes (fst y))) as [E'|E']; [|exact E'].
    unfold str_leb in E. congruence.
Qed.

Lemma canonical_labels_sorted ls : StronglySorted label_le (canonical_labels ls).
Proof. induction ls as [|l ls IH]; simpl; [constructor|]. by apply insert_label_sorted. Qed.

Lemma canonical_labels_order ls ls' : ls ≡ₚ ls' -> NoDup (ls.*1) -> canonical_labels ls = canonical_labels ls'.
Proof.
  intros Hp Hnd. apply (StronglySorted_unique_strong label_le); try apply canonical_labels_sorted.
  2:{ by rewrite !canonical_labels_perm. }
  intros [k v] [k' v'] H1 H2 Hle Hle'. rewrite canonical_labels_perm in H1. rewrite canonical_labels_perm, <- Hp in H2.
  assert (k = k') as <-.
  { pose proof (bytes_leb_antisym _ _ Hle Hle') as E. simpl in E.
    rewrite <- (bytes_str_bytes k), <- (bytes_str_bytes k'). by rewrite E. }
  apply list_elem_of_lookup in H1 as [i Hi]. apply list_elem_of_lookup in H2 as [j Hj].
  assert (i = j) as ->; [|congruence].
  eapply (NoDup_lookup (ls.*1)); [done| |]; rewrite list_lookup_fmap; [by rewrite Hi|by rewrite Hj].
Qed.

(** ** Updates by concurrent callers *)

(** A caller of [incr] or [add]: before the read lock, between the locks, and
    done. *)
Inductive Caller :=
  | Calling (key : Key) (delta : Z)
  | Upgrading (key : Key) (delta : Z)
  | Done.

Section Concurrent.
Variable wrap : Z -> Z.

(** One critical section of one caller, and the update it makes. *)
Inductive call_step : Labeled * list Caller -> list (Key * Z) -> Labeled * list Caller -> Prop :=
  | step_hit m cs i key delta m' :
      cs !! i = Some (Calling key delta) -> add_existing wrap delta key m = Some m' ->
      call_step (m, cs) [(key, delta)] (m', <[i := Done]> cs)
  | step_miss m cs i key delta :
      cs !! i = Some (Calling key delta) -> add_existing wrap delta key m = None ->
      call_step (m, cs) [] (m, <[i := Upgrading key delta]> cs)
  | step_locked m cs i key delta :
      cs !! i = Some (Upgrading key delta) ->
      call_step (m, cs) [(key, delta)] (add_locked wrap delta key m, <[i := Done]> cs).

Inductive call_steps : Labeled * list Caller -> list (Key * Z) -> Labeled * list Caller -> Prop :=
  | steps_none s : call_steps s [] s
  | steps_more s1 d1 s2 d2 s3 : call_step s1 d1 s2 -> call_steps s2 d2 s3 -> call_steps s1 (d1 ++ d2) s3.

(** What the callers have still to add. *)
Definition pending (c : Caller) : list (Key * Z) :=
  match c with Calling k d | Upgrading k d => [(k, d)] | Done => [] end.

Lemma pending_insert cs i c c' :
  cs !! i = Some c -> (cs ≫= pending) ++ pending c' ≡ₚ pending c ++ (<[i := c']> cs ≫= pending).
Proof.
  intros Hi. rewrite <- (take_drop_middle cs i c Hi) at 1. rewrite insert_take_drop by by eapply lookup_lt_Some.
  rewrite !bind_app. cbn [mbind list_bind]. solve_Permutation.
Qed.

Lemma call_step_pending m cs d m' cs' :
  call_step (m, cs) d (m', cs') -> cs ≫= pending ≡ₚ d ++ (cs' ≫= pending).
Proof.
  inversion 1 as [? ? i key delta ? Hi Ha|? ? i key delta Hi Ha|? ? i key delta Hi]; subst.
  - pose proof (pending_insert cs i _ Done Hi) as Hp. rewrite app_nil_r in Hp. exact Hp.
  - pose proof (pending_insert cs i _ (Upgrading key delta) Hi) as Hp. simpl in Hp |- *.
    rewrite (Permutation_app_comm _ [_]) in Hp. by apply (Permutation_cons_inv (a := (key, delta))) in Hp.
  - pose proof (pending_insert cs i _ Done Hi) as Hp. rewrite app_nil_r in Hp. exact Hp.
Qed.

Lemma call_steps_pending m cs d m' cs' :
  call_steps (m, cs) d (m', cs') -> cs ≫= pending ≡ₚ d ++ (cs' ≫= pending).
Proof.
  remember (m, cs) as s1 eqn:E1. remember (m', cs') as s3 eqn:E3. intros Hs. revert m cs E1 E3.
  induction Hs as [s|s1 d1 [m2 cs2] d2 s3 H1 H2 IH]; intros m cs -> E3.
  - by injection E3 as -> ->.
  - rewrite (call_step_pending _ _ _ _ _ H1), (IH _ _ eq_refl E3). by rewrite app_assoc.
Qed.

(** ** Accounting *)
Hypothesis wrap_add : forall a b, wrap (wrap a + b) = wrap (a + b).
Hypothesis wrap_0 : wrap 0 = 0%Z.

(** The sum of the updates to the keys that satisfy [p]. *)
Definition sum_where (p : Key -> bool) (updates : list (Key * Z)) : Z :=
  foldr (fun '(k, d) acc => if p k then (d + acc)%Z else acc) 0%Z updates.

Definition is_key (key : Key) (k : Key) : bool := bool_decide (k = key).
Definition absent (s : gmap Key Z) (k : Key) : bool := negb (bool_decide (is_Some (s !! k))).

(** Every update is in its series, or in the overflow when its key has none,
    which happens only at the cap. *)
Definition accounts (m : Labeled) (updates : list (Key * Z)) : Prop :=
  (forall k v, series m !! k = Some v -> v = wrap (sum_where (is_key k) updates) /\ k ∈ updates.*1) /\
  overflow m = wrap (sum_where (absent (series m)) updates) /\
  (size (series m) <= MAX_SERIES_PER_METRIC)%nat /\
  forall k, k ∈ updates.*1 -> series m !! k = None -> size (series m) = MAX_SERIES_PER_METRIC.

Lemma sum_where_snoc p updates k d :
  sum_where p (updates ++ [(k, d)]) = (sum_where p updates + if p k then d else 0)%Z.
Proof.
  unfold sum_where. rewrite foldr_app. simpl. induction updates as [|[k' d'] us IH]; simpl; [destruct (p k); lia|].
  destruct (p k'); lia.
Qed.

Lemma sum_where_ext p q updates :
  (forall k, k ∈ updates.*1 -> p k = q k) -> sum_where p updates = sum_where q updates.
Proof.
  induction updates as [|[k d] us IH]; intros He; [done|]. simpl. rewrite (He k) by by left.
  rewrite IH; [done|]. intros k' Hk'. apply He. by right.
Qed.

Lemma sum_where_none p updates : (forall k, k ∈ updates.*1 -> p k = false) -> sum_where p updates = 0%Z.
Proof.
  intros He. induction updates as [|[k d] us IH]; [done|]. simpl. rewrite (He k) by by left.
  apply IH. intros k' Hk'. apply He. by right.
Qed.

Lemma absent_Some (s : gmap Key Z) k v : s !! k = Some v -> absent s k = false.
Proof. unfold absent. intros ->. by rewrite bool_decide_eq_true_2 by by eexists. Qed.

Lemma absent_None (s : gmap Key Z) k : s !! k = None -> absent s k = true.
Proof. unfold absent. intros ->. rewrite bool_decide_eq_false_2; [done|]. by intros [? ?]. Qed.

Lemma accounts_existing d k m m' updates :
  accounts m updates -> add_existing wrap d k m = Some m' -> accounts m' (updates ++ [(k, d)]).
Proof.
  intros (Hs & Ho & Hc & Hf). unfold add_existing. destruct (series m !! k) as [c|] eqn:Ek; [|done].
  intros [= <-]. unfold accounts. cbn [series overflow]. destruct (Hs k c Ek) as [Hv Hin].
  assert (Habs : forall k', absent (<[k := fetch_add wrap c d]> (series m)) k' = absent (series m) k').
  { intros k'. destruct (decide (k' = k)) as [->|Hne].
    - by rewrite (absent_Some _ _ _ (lookup_insert_eq _ _ _)), (absent_Some _ _ _ Ek).
    - unfold absent. by rewrite lookup_insert_ne. }
  split; [|split; [|split]].
  - intros k' v. rewrite fmap_app, elem_of_app. destruct (decide (k' = k)) as [->|Hne].
    + rewrite lookup_insert_eq. intros [= <-]. split; [|by left]. rewrite sum_where_snoc.
      unfold is_key at 2. rewrite bool_decide_eq_true_2 by done. unfold fetch_add. by rewrite Hv, wrap_add.
    + rewrite lookup_insert_ne by done. intros [-> Hk']%Hs. split; [|by left].
      rewrite sum_where_snoc. unfold is_key at 3. rewrite bool_decide_eq_false_2 by done. by rewrite Z.add_0_r.
  - rewrite Ho, sum_where_snoc, Habs, (absent_Some _ _ _ Ek), Z.add_0_r. f_equal. by apply sum_where_ext.
  - by rewrite map_size_insert_Some.
  - intros k'. rewrite fmap_app, elem_of_app. rewrite map_size_insert_Some by done. intros Hk' Hn.
    apply lookup_insert_None in Hn as [Hn Hne]. destruct Hk' as [Hk'|Hk']; [by eapply Hf|].
    apply list_elem_of_singleton in Hk'. simpl in Hk'. congruence.
Qed.

Lemma accounts_locked d k m updates :
  accounts m updates -> accounts (add_locked wrap d k m) (updates ++ [(k, d)]).
Proof.
  intros Ha. unfold add_locked. destruct (add_existing wrap d k m) as [m'|] eqn:E.
  { by eapply accounts_existing. }
  assert (Ek : series m !! k = None) by (unfold add_existing in E; by destruct (series m !! k)).
  destruct Ha as (Hs & Ho & Hc & Hf). destruct (Nat.leb_spec MAX_SERIES_PER_METRIC (size (series m))) as [Hcap|Hcap].
  - unfold accounts. cbn [series overflow]. split; [|split; [|split]].
    + intros k' v Hk'. destruct (Hs k' v Hk') as [-> Hin]. split; [|rewrite fmap_app; apply elem_of_app; by left].
      rewrite sum_where_snoc. unfold is_key at 3. rewrite bool_decide_eq_false_2 by congruence. by rewrite Z.add_0_r.
    + rewrite sum_where_snoc, (absent_None _ _ Ek). unfold fetch_add. by rewrite Ho, wrap_add.
    + done.
    + intros _ _ _. lia.
  - assert (Hall : forall k', k' ∈ updates.*1 -> is_Some (series m !! k')).
    { intros k' Hk'. destruct (series m !! k') eqn:Ek'; [by eexists|]. pose proof (Hf k' Hk' Ek'). lia. }
    assert (Hnew : k ∉ updates.*1) by (intros Hin; apply Hall in Hin; rewrite Ek in Hin; by destruct Hin).
    unfold accounts. cbn [series overflow]. split; [|split; [|split]].
    + intros k' v. rewrite fmap_app, elem_of_app. destruct (decide (k' = k)) as [->|Hne].
      * rewrite lookup_insert_eq. intros [= <-]. split; [|right; by apply list_elem_of_singleton].
        rewrite sum_where_snoc. unfold is_key at 2. rewrite bool_decide_eq_true_2 by done. rewrite sum_where_none; [done|].
        intros k' Hk'. unfold is_key. apply bool_decide_eq_false_2. intros ->. done.
      * rewrite lookup_insert_ne by done. intros [-> Hk']%Hs. split; [|by left].
        rewrite sum_where_snoc. unfold is_key at 3. rewrite bool_decide_eq_false_2 by done. by rewrite Z.add_0_r.
    + rewrite sum_where_snoc, (absent_Some _ _ _ (lookup_insert_eq _ _ _)), Ho.
      rewrite !sum_where_none; [done|..]; intros k' Hk'; destruct (Hall k' Hk') as [v Hv].
      * destruct (decide (k' = k)) as [->|Hne]; [done|]. eapply absent_Some. by rewrite lookup_insert_ne.
      * by eapply absent_Some.
    + rewrite map_size_insert_None by done. lia.
    + intros k'. rewrite fmap_app, elem_of_app. intros Hk' Hn. apply lookup_insert_None in Hn as [Hn Hne].
      destruct Hk' as [Hk'|Hk']; [destruct (Hall k' Hk'); congruence|].
      apply list_elem_of_singleton in Hk'. simpl in Hk'. congruence.
Qed.

Lemma accounts_steps m cs d m' cs' updates :
  accounts m updates -> call_steps (m, cs) d (m', cs') -> accounts m' (updates ++ d).
Proof.
  remember (m, cs) as s1 eqn:E1. remember (m', cs') as s3 eqn:E3. intros Ha Hs. revert m cs updates E1 E3 Ha.
  induction Hs as [s|s1 d1 [m2 cs2] d2 s3 H1 H2 IH]; intros m cs updates -> E3 Ha.
  - injection E3 as -> ->. by rewrite app_nil_r.
  - rewrite app_assoc. eapply IH; [reflexivity|done|]. clear IH H2.
    inversion H1 as [? ? i key delta ? Hi Hadd|? ? i key delta Hi Hadd|? ? i key delta Hi]; subst.
    + by eapply accounts_existing.
    + by rewrite app_nil_r.
    + by apply accounts_locked.
Qed.

Lemma accounts_default : accounts labeled_default [].
Proof.
  split; [|split; [simpl; by rewrite wrap_0|split]].
  - intros k v. simpl. by rewrite lookup_empty.
  - simpl. rewrite map_size_empty. lia.
  - intros k Hk. by apply not_elem_of_nil in Hk.
Qed.
End Concurrent.

Lemma wrap_u64_add a b : wrap_u64 (wrap_u64 a + b) = wrap_u64 (a + b).
Proof. unfold wrap_u64. by rewrite Zplus_mod_idemp_l. Qed.

Lemma wrap_i64_add a b : wrap_i64 (wrap_i64 a + b) = wrap_i64 (a + b).
Proof.
  unfold wrap_i64. f_equal.
  replace ((a + 2 ^ 63) mod 2 ^ 64 - 2 ^ 63 + b + 2 ^ 63)%Z with ((a + 2 ^ 63) mod 2 ^ 64 + b)%Z by lia.
  rewrite Zplus_mod_idemp_l. f_equal. lia.
Qed.

(** ** Reading the text

    A reader of the text exposition format 0.0.4, whose label values have the
    escapes of a backslash, a quote and a line feed, and no other. *)

(** A sample: name, labels, value. *)
Definition Sample : Type := bytes * list (bytes * bytes) * bytes.

(** The lines of a text, each ended by a line feed. *)
Fixpoint split_lines (cur text : bytes) : option (list bytes) :=
  match text with
  | [] => if bool_decide (cur = []) then Some [] else None
  | b :: text =>
      if bool_decide (b = LF) then let! rest := split_lines [] text in Some (cur :: rest)
      else split_lines (cur ++ [b]) text
  end.

(** The part before the first byte that satisfies [p], and the rest. *)
Fixpoint until (p : byte -> bool) (bs : bytes) : bytes * bytes :=
  match bs with
  | [] => ([], [])
  | b :: rest => if p b then ([], bs) else let (a, c) := until p rest in (b :: a, c)
  end.

(** A quoted value up to its closing quote. *)
Fixpoint parse_value (bs : bytes) : option (bytes * bytes) :=
  match bs with
  | [] => None
  | b :: rest =>
      if bool_decide (b = QUOTE) then Some ([], rest) else
      if bool_decide (b = BACKSLASH) then
        match rest with
        | e :: rest =>
            let! c := if bool_decide (e = "n"%byte) then Some LF
                      else if bool_decide (e = QUOTE) || bool_decide (e = BACKSLASH) then Some e else None in
            let! (v, rest) := parse_value rest in Some (c :: v, rest)
        | [] => None
        end
      else let! (v, rest) := parse_value rest in Some (b :: v, rest)
  end.

Fixpoint parse_labels (fuel : nat) (bs : bytes) : option (list (bytes * bytes) * bytes) :=
  match fuel with
  | O => None
  | S fuel =>
      let (key, rest) := until (fun b => bool_decide (b = "="%byte)) bs in
      match rest with
      | _ :: q :: rest =>
          if negb (bool_decide (q = QUOTE)) then None else
          let! (v, rest) := parse_value rest in
          match rest with
          | c :: rest =>
              if bool_decide (c = ","%byte) then
                let! (ls, rest) := parse_labels fuel rest in Some ((key, v) :: ls, rest)
              else if bool_decide (c = "}"%byte) then Some ([(key, v)], rest) else None
          | [] => None
          end
      | _ => None
      end
  end.

Definition parse_sample (bs : bytes) : option Sample :=
  let (name, rest) := until (fun b => bool_decide (b = "{"%byte) || bool_decide (b = " "%byte)) bs in
  let! (labels, rest) :=
    match rest with
    | b :: rest' => if bool_decide (b = "{"%byte) then parse_labels (length rest') rest' else Some ([], rest)
    | [] => Some ([], rest)
    end in
  match rest with
  | b :: value => if bool_decide (b = " "%byte) then Some (name, labels, value) else None
  | [] => None
  end.

(** Comments are skipped. *)
Fixpoint parse_samples (lines : list bytes) : option (list Sample) :=
  match lines with
  | [] => Some []
  | l :: lines =>
      let! rest := parse_samples lines in
      match l with
      | b :: _ => if bool_decide (b = "#"%byte) then Some rest else let! s := parse_sample l in Some (s :: rest)
      | [] => Some rest
      end
  end.

Definition parse_text (text : bytes) : option (list Sample) :=
  let! lines := split_lines [] text in parse_samples lines.

Example parse_rendered :
  parse_text (render map_to_list (record_metric (EventAppended (bytes_str (str_bytes "x" ++ [QUOTE; LF; BACKSLASH])) "Detection")
    metrics_default)) ≫= (fun l => head l) =
  Some (str_bytes "otk_events_appended_total",
        [(str_bytes "event_kind", str_bytes "Detection"); (str_bytes "producer_id", str_bytes "x" ++ [QUOTE; LF; BACKSLASH])],
        str_bytes "1").
Proof. vm_compute. reflexivity. Qed.

(** *** Escaping *)
Definition escape_byte (b : byte) : bytes :=
  if bool_decide (b = CR) then [BACKSLASH; "r"%byte]
  else if bool_decide (b = LF) then [BACKSLASH; "n"%byte]
  else if bool_decide (b = QUOTE) then [BACKSLASH; QUOTE]
  else if bool_decide (b = BACKSLASH) then [BACKSLASH; BACKSLASH]
  else [b].

Lemma replace_app c by_ a b : replace c by_ (a ++ b) = replace c by_ a ++ replace c by_ b.
Proof. apply bind_app. Qed.

Lemma escape_cons b v : escape_label_value (b :: v) = escape_byte b ++ escape_label_value v.
Proof.
  change (b :: v) with ([b] ++ v). unfold escape_label_value. rewrite !replace_app. f_equal.
  unfold escape_byte. by destruct b.
Qed.

(** A carriage return is written as an escape that the format does not have. *)
Definition legible_value (v : bytes) : bool := forallb (fun b => negb (bool_decide (b = CR))) v.

Lemma parse_escape v rest :
  parse_value (escape_label_value v ++ QUOTE :: rest) = if legible_value v then Some (v, rest) else None.
Proof.
  induction v as [|b v IH]; [done|]. rewrite escape_cons, <- app_assoc. unfold escape_byte, legible_value in *.
  cbn [forallb]. case_bool_decide as H1; [by subst b|]. cbn [negb andb].
  case_bool_decide as H2; [subst b; simpl; rewrite IH; by destruct (forallb _ v)|].
  case_bool_decide as H3; [subst b; simpl; rewrite IH; by destruct (forallb _ v)|].
  case_bool_decide as H4; [subst b; simpl; rewrite IH; by destruct (forallb _ v)|].
  cbn [app parse_value]. rewrite !bool_decide_eq_false_2, IH by done. by destruct (forallb _ v).
Qed.

(** The values a reader understands. *)
Definition legible (k : Key) : bool := forallb (fun l => legible_value (str_bytes (snd l))) k.

Definition legible_metric (m : Labeled) : bool := forallb (fun kv => legible (fst kv)) (map_to_list (series m)).

Definition legible_metrics (m : Metrics) : bool :=
  legible_metric (events_appended m) && legible_metric (events_dropped_duplicates m) &&
  legible_metric (sequence_gaps m) && legible_metric (ingest_sessions_active m) &&
  legible_metric (ingest_sessions_total m).

Lemma forallb_perm {A} (f : A -> bool) l l' : l ≡ₚ l' -> forallb f l = forallb f l'.
Proof. induction 1; simpl; [done|congruence|by destruct (f x), (f y)|congruence]. Qed.

Definition no_lf (bs : bytes) : Prop := Forall (fun b => b <> LF) bs.

Lemma no_lf_app a b : no_lf (a ++ b) <-> no_lf a /\ no_lf b.
Proof. apply Forall_app. Qed.

Lemma no_lf_closed bs : forallb (fun b => negb (bool_decide (b = LF))) bs = true -> no_lf bs.
Proof.
  intros H. apply List.Forall_forall. intros b Hb. eapply forallb_forall in H; [|exact Hb].
  by case_bool_decide.
Qed.

Ltac solve_no_lf := rewrite ?no_lf_app; repeat split; first [assumption | apply no_lf_closed; reflexivity].

Lemma escape_no_lf v : no_lf (escape_label_value v).
Proof.
  induction v as [|b v IH]; [constructor|]. rewrite escape_cons. apply no_lf_app. split; [|exact IH].
  unfold escape_byte. repeat case_bool_decide; repeat constructor; done.
Qed.

Lemma pretty_no_lf z : no_lf (show z).
Proof.
  assert (Hn : forall n : N, no_lf (str_bytes (pretty n))).
  { intros n. apply pretty_N_bytes. intros k. unfold pretty_N_char. by repeat case_match. }
  unfold show, pretty, pretty_Z. destruct z; [repeat constructor; done|apply Hn|].
  change (str_bytes (String ?c ?t)) with (Ascii.byte_of_ascii c :: str_bytes t). constructor; [done|apply Hn].
Qed.

(** *** Lines *)
Lemma split_line cur l rest :
  no_lf l -> split_lines cur (l ++ LF :: rest) = (let! r := split_lines [] rest in Some ((cur ++ l) :: r)).
Proof.
  intros Hl. revert cur. induction Hl as [|b l Hb Hl IH]; intros cur.
  - cbn [app split_lines]. rewrite bool_decide_eq_true_2 by done. by rewrite app_nil_r.
  - cbn [app split_lines]. rewrite bool_decide_eq_false_2 by done. rewrite IH. by rewrite <- app_assoc.
Qed.

Lemma split_text ls : Forall no_lf ls -> split_lines [] (ls ≫= line) = Some ls.
Proof.
  induction 1 as [|l ls Hl Hls IH]; [done|]. change ((l :: ls) ≫= line) with (line l ++ (ls ≫= line)).
  unfold line at 1. rewrite <- app_assoc. cbn [app]. rewrite split_line by done. by rewrite IH.
Qed.

(** *** Samples *)
Definition plain_name (bs : bytes) : Prop :=
  Forall (fun b => b <> "{"%byte /\ b <> " "%byte /\ b <> LF) bs /\
  match bs with b :: _ => b <> "#"%byte | [] => False end.

Definition plain_key (bs : bytes) : Prop := Forall (fun b => b <> "="%byte /\ b <> LF) bs.

Lemma until_app p a b rest : Forall (fun x => p x = false) a -> p b = true -> until p (a ++ b :: rest) = (a, b :: rest).
Proof. intros Ha Hb. induction Ha as [|x a Hx Ha IH]; simpl; [by rewrite Hb|]. by rewrite Hx, IH. Qed.

Definition label_bytes (l : string * string) : bytes * bytes := (str_bytes (fst l), str_bytes (snd l)).

Lemma parse_labels_render ls fuel rest :
  ls <> [] -> (length ls <= fuel)%nat -> Forall (fun l => plain_key (str_bytes (fst l))) ls ->
  parse_labels fuel (join (str_bytes ",") (render_label <$> ls) ++ "}"%byte :: rest) =
    if legible ls then Some (label_bytes <$> ls, rest) else None.
Proof.
  intros Hne Hf Hk. revert fuel Hf. induction Hk as [|[k v] ls Hk Hks IH]; intros fuel Hf; [done|].
  destruct fuel as [|fuel]; [simpl in Hf; lia|]. simpl in Hk.
  assert (Hunt : forall t, until (fun b => bool_decide (b = "="%byte)) (render_label (k, v) ++ t) =
    (str_bytes k, "="%byte :: QUOTE :: escape_label_value (str_bytes v) ++ QUOTE :: t)).
  { intros t. unfold render_label. cbn [fst snd]. rewrite <- !app_assoc. cbn [app].
    apply until_app; [|by rewrite bool_decide_eq_true_2]. eapply Forall_impl; [exact Hk|].
    intros b [Hb _]. by apply bool_decide_eq_false_2. }
  destruct ls as [|l2 ls].
  - cbn [parse_labels fmap list_fmap join]. rewrite Hunt. rewrite (bool_decide_eq_true_2 (QUOTE = QUOTE)) by done. cbn [negb].
    rewrite parse_escape. unfold legible. cbn [forallb snd]. by destruct (legible_value _).
  - change (join (str_bytes ",") (render_label <$> (k, v) :: l2 :: ls)) with
      (render_label (k, v) ++ str_bytes "," ++ join (str_bytes ",") (render_label <$> l2 :: ls)).
    cbn [parse_labels]. rewrite <- !app_assoc, Hunt. rewrite (bool_decide_eq_true_2 (QUOTE = QUOTE)) by done. cbn [negb].
    rewrite parse_escape. cbn [app]. change (str_bytes ",") with [","%byte].
    change (legible ((k, v) :: l2 :: ls)) with (legible_value (str_bytes v) && legible (l2 :: ls)).
    destruct (legible_value (str_bytes v)); [|done]. cbn [app andb].
    rewrite (bool_decide_eq_true_2 (","%byte = ","%byte)) by done.
    change [","%byte] with (str_bytes ","). rewrite (IH ltac:(done) fuel) by (simpl in *; lia). by destruct (legible _).
Qed.

Lemma parse_series name labels value :
  plain_name name -> Forall (fun l => plain_key (str_bytes (fst l))) labels ->
  parse_sample (series_line name labels value) =
    if legible labels then Some (name, label_bytes <$> labels, value) else None.
Proof.
  intros [Hn _] Hk. unfold parse_sample, series_line.
  assert (Hname : Forall (fun b => bool_decide (b = "{"%byte) || bool_decide (b = " "%byte) = false) name).
  { eapply Forall_impl; [exact Hn|]. intros b (H1 & H2 & _). by rewrite !bool_decide_eq_false_2. }
  case_bool_decide as Hl.
  - subst labels. cbn [str_bytes]. change (str_bytes " ") with [" "%byte]. cbn [app].
    rewrite until_app by done. done.
  - change (str_bytes "{") with ["{"%byte]. change (str_bytes "} ") with ["}"%byte; " "%byte]. cbn [app].
    rewrite until_app by done. rewrite (bool_decide_eq_true_2 ("{"%byte = "{"%byte)) by done.
    rewrite parse_labels_render; [by destruct (legible labels)|done| |done].
    rewrite length_app.
    assert (Hj : forall ls, (length ls <= S (length (join (str_bytes ",") (render_label <$> ls))))%nat).
    { induction ls as [|l [|l2 ls] IH]; simpl; [lia|lia|]. rewrite !length_app. simpl in *. lia. }
    pose proof (Hj labels). simpl. lia.
Qed.

(** *** The text of a metric *)
Section Text.
Variable iter : gmap Key Z -> list (Key * Z).
Hypothesis iter_perm : forall s, iter s ≡ₚ map_to_list s.

Definition metric_lines (overflow_help : bytes -> bytes) (overflow_kind name kind help : bytes) (m : Labeled) : list bytes :=
  [str_bytes "# HELP " ++ name ++ str_bytes " " ++ help; str_bytes "# TYPE " ++ name ++ str_bytes " " ++ kind] ++
  (if bool_decide (series m = ∅) && (overflow m =? 0)%Z then [series_line name [] (str_bytes "0")]
   else (fun '((labels, value) : Key * Z) => series_line name labels (show value)) <$> iter (series m)) ++
  [str_bytes "# HELP " ++ overflow_metric_name name ++ overflow_help name;
   str_bytes "# TYPE " ++ overflow_metric_name name ++ str_bytes " " ++ overflow_kind;
   series_line (overflow_metric_name name) [] (show (overflow m))].

(** What the text of a metric says. *)
Definition samples (name : bytes) (m : Labeled) : list Sample :=
  (if bool_decide (series m = ∅) && (overflow m =? 0)%Z then [(name, [], str_bytes "0")]
   else (fun '((labels, value) : Key * Z) => (name, label_bytes <$> labels, show value)) <$> iter (series m)) ++
  [(overflow_metric_name name, [], show (overflow m))].

Lemma bind_line_cons l ls : (l :: ls) ≫= line = line l ++ (ls ≫= line).
Proof. done. Qed.

Lemma bind_line_nil : [] ≫= line = [].
Proof. done. Qed.

Lemma render_lines oh ok name kind help m :
  render_metric iter oh ok name kind help m = metric_lines oh ok name kind help m ≫= line.
Proof.
  unfold metric_lines, render_metric. rewrite !bind_app, !bind_line_cons, !bind_line_nil.
  assert (Hs : iter (series m) ≫= (fun '((labels, value) : Key * Z) => render_series name labels (show value)) =
    ((fun '((labels, value) : Key * Z) => series_line name labels (show value)) <$> iter (series m)) ≫= line).
  { induction (iter (series m)) as [|[l v] ls IH]; [done|]. rewrite fmap_cons, bind_line_cons. by rewrite <- IH. }
  rewrite Hs, !app_nil_r, <- !app_assoc. destruct (_ && _); [|done]. by rewrite bind_line_cons, app_nil_r.
Qed.

Definition plain_labels (m : Labeled) : Prop :=
  forall k v, series m !! k = Some v -> Forall (fun l => plain_key (str_bytes (fst l))) k.

Lemma plain_name_no_lf name : plain_name name -> no_lf name.
Proof. intros [Hn _]. eapply Forall_impl; [exact Hn|]. by intros b (_ & _ & ?). Qed.

Lemma plain_name_app name suffix :
  plain_name name -> Forall (fun b => b <> "{"%byte /\ b <> " "%byte /\ b <> LF) suffix ->
  plain_name (name ++ suffix).
Proof. intros [Hn Hh] Hs. split; [by apply Forall_app|]. by destruct name. Qed.

Lemma overflow_name_plain name : plain_name name -> plain_name (overflow_metric_name name).
Proof.
  intros Hn. unfold overflow_metric_name. case_bool_decide as Hd.
  - set (n := (length name - length (str_bytes "_total"))%nat) in *. destruct Hn as [Hn Hh].
    assert (Ht : Forall (fun b => b <> "{"%byte /\ b <> " "%byte /\ b <> LF) (take n name)) by by apply Forall_take.
    split; [apply Forall_app; split; [done|repeat constructor; done]|].
    destruct name as [|b name]; [done|]. destruct n as [|n]; [done|]. exact Hh.
  - apply plain_name_app; [done|]. repeat constructor; done.
Qed.

Lemma series_line_no_lf name labels value :
  no_lf name -> Forall (fun l => plain_key (str_bytes (fst l))) labels -> no_lf value ->
  no_lf (series_line name labels value).
Proof.
  intros Hn Hk Hv. unfold series_line. case_bool_decide.
  - rewrite !no_lf_app. split; [done|]. split; [repeat constructor; done|done].
  - rewrite !no_lf_app. split; [done|]. split; [repeat constructor; done|]. split.
    + clear -Hk. induction Hk as [|l ls Hl Hk IH]; [constructor|].
      assert (Hr : no_lf (render_label l)).
      { unfold render_label. rewrite !no_lf_app. split.
        - eapply Forall_impl; [exact Hl|]. by intros b [_ ?].
        - split; [repeat constructor; done|]. split; [apply escape_no_lf|repeat constructor; done]. }
      destruct ls as [|l2 ls]; [exact Hr|].
      change (no_lf (render_label l ++ str_bytes "," ++ join (str_bytes ",") (render_label <$> l2 :: ls))).
      rewrite !no_lf_app. split; [done|]. split; [repeat constructor; done|exact IH].
    + split; [repeat constructor; done|done].
Qed.

Lemma parse_samples_app a b :
  parse_samples (a ++ b) = (let! x := parse_samples a in let! y := parse_samples b in Some (x ++ y)).
Proof.
  induction a as [|l a IH]; simpl; [by destruct (parse_samples b)|]. rewrite IH.
  destruct (parse_samples a) as [x|]; [|done]. destruct (parse_samples b) as [y|].
  - destruct l as [|c l]; [done|]. case_bool_decide; [done|]. by destruct (parse_sample (c :: l)).
  - destruct l as [|c l]; [done|]. case_bool_decide; [done|]. by destruct (parse_sample (c :: l)).
Qed.

Lemma parse_comment s rest : parse_samples ((str_bytes "# " ++ s) :: rest) = parse_samples rest.
Proof.
  change (str_bytes "# " ++ s) with ("#"%byte :: " "%byte :: s). cbn [parse_samples].
  rewrite (bool_decide_eq_true_2 ("#"%byte = "#"%byte)) by done. by destruct (parse_samples rest).
Qed.

Lemma parse_line_cons name labels value rest :
  plain_name name -> Forall (fun l => plain_key (str_bytes (fst l))) labels ->
  parse_samples (series_line name labels value :: rest) =
    (let! r := parse_samples rest in
     if legible labels then Some ((name, label_bytes <$> labels, value) :: r) else None).
Proof.
  intros Hn Hk. pose proof (parse_series name labels value Hn Hk) as Hp. cbn [parse_samples].
  destruct (parse_samples rest) as [r|]; [|done].
  destruct Hn as [_ Hh]. destruct name as [|b name]; [done|].
  assert (Hc : exists t, series_line (b :: name) labels value = b :: t).
  { unfold series_line. case_bool_decide; cbn [app]; by eexists. }
  destruct Hc as [t Ht]. rewrite Ht in Hp |- *. rewrite bool_decide_eq_false_2, Hp by done. by destruct (legible labels).
Qed.

Lemma metric_lines_ok oh ok name kind help m :
  plain_name name -> no_lf kind -> no_lf help -> no_lf (oh name) -> no_lf ok -> plain_labels m ->
  Forall no_lf (metric_lines oh ok name kind help m) /\
  parse_samples (metric_lines oh ok name kind help m) = if legible_metric m then Some (samples name m) else None.
Proof.
  intros Hn Hki Hhe Hoh Hok Hpl. pose proof (overflow_name_plain name Hn) as Ho.
  pose proof (plain_name_no_lf _ Hn) as Hnl. pose proof (plain_name_no_lf _ Ho) as Hol.
  assert (Hks : Forall (fun kv => Forall (fun l => plain_key (str_bytes (fst l))) (fst kv)) (iter (series m))).
  { rewrite iter_perm. apply Forall_forall. intros [k v] Hin. apply elem_of_map_to_list in Hin. by eapply Hpl. }
  unfold metric_lines, samples. split.
  - apply Forall_app. split; [repeat apply (Forall_cons_2 no_lf); [solve_no_lf|solve_no_lf|constructor]|].
    apply Forall_app. split.
    + destruct (_ && _).
      * apply Forall_cons_2; [|constructor]. apply series_line_no_lf; [done|constructor|solve_no_lf].
      * apply Forall_fmap. eapply Forall_impl; [exact Hks|]. intros [l v] Hl. simpl.
        apply series_line_no_lf; [done|done|apply pretty_no_lf].
    + repeat apply (Forall_cons_2 no_lf); [solve_no_lf|solve_no_lf| |constructor].
      apply series_line_no_lf; [done|constructor|apply pretty_no_lf].
  - assert (Hmid : parse_samples (if bool_decide (series m = ∅) && (overflow m =? 0)%Z
        then [series_line name [] (str_bytes "0")]
        else (fun '((labels, value) : Key * Z) => series_line name labels (show value)) <$> iter (series m)) =
      if legible_metric m then
        Some (if bool_decide (series m = ∅) && (overflow m =? 0)%Z then [(name, [], str_bytes "0")]
          else (fun '((labels, value) : Key * Z) => (name, label_bytes <$> labels, show value)) <$> iter (series m))
      else None).
    { unfold legible_metric. destruct (bool_decide (series m = ∅)) eqn:He; [apply bool_decide_eq_true_1 in He|].
      1: rewrite He, map_to_list_empty. 1: cbn [forallb].
      1: assert (Hnil : iter (series m) = []) by (apply Permutation_nil; by rewrite iter_perm, He, map_to_list_empty).
      1: rewrite <- He, Hnil; cbn [andb]; destruct (overflow m =? 0)%Z; [by rewrite parse_line_cons by (done || constructor)|done].
      cbn [andb]. rewrite <- (forallb_perm _ _ _ (iter_perm (series m))).
      induction Hks as [|[l v] ls Hl Hks IH]; [done|]. rewrite !fmap_cons, parse_line_cons by done.
      rewrite IH. cbn [forallb fst]. destruct (legible l), (forallb (fun kv : Key * Z => legible kv.1) ls); done. }
    change (str_bytes "# HELP " ++ ?a) with (str_bytes "# " ++ (str_bytes "HELP " ++ a)).
    change (str_bytes "# TYPE " ++ ?a) with (str_bytes "# " ++ (str_bytes "TYPE " ++ a)).
    cbn [app]. rewrite !parse_comment, parse_samples_app, Hmid, !parse_comment.
    rewrite parse_line_cons by (done || constructor). by destruct (legible_metric m).
Qed.
End Text.

(** ** The node's metrics *)

(** What the node does to its metrics: the ingest service records an event;
    the accept loop counts an accepted session; the guard of a session that
    ends is dropped. *)
Inductive MetricOp :=
  | Recorded (ev : MetricEvent)
  | SessionStarted (listener_id : string)
  | SessionEnded (listener_id : string).

Definition session_started (listener_id : string) (m : Metrics) : Metrics :=
  on_active (inc [("listener_id", listener_id)]) (on_total (incr [("listener_id", listener_id)]) m).

Definition session_ended (listener_id : string) : Metrics -> Metrics :=
  on_active (dec [("listener_id", listener_id)]).

Definition apply_op (op : MetricOp) : Metrics -> Metrics :=
  match op with
  | Recorded ev => record_metric ev
  | SessionStarted id => session_started id
  | SessionEnded id => session_ended id
  end.

Definition after_ops (ops : list MetricOp) : Metrics := fold_left (fun m op => apply_op op m) ops metrics_default.

Definition all_plain (m : Metrics) : Prop :=
  plain_labels (events_appended m) /\ plain_labels (events_dropped_duplicates m) /\
  plain_labels (sequence_gaps m) /\ plain_labels (ingest_sessions_active m) /\
  plain_labels (ingest_sessions_total m).

Lemma default_plain : plain_labels labeled_default.
Proof. intros k v. simpl. by rewrite lookup_empty. Qed.

Lemma insert_plain k v m o :
  plain_labels m -> Forall (fun l => plain_key (str_bytes (fst l))) k ->
  plain_labels {| series := <[k := v]> (series m); overflow := o |}.
Proof. intros Hm Hk k' v'. cbn [series]. intros [[-> _]|[_ H]]%lookup_insert_Some; [done|by eapply Hm]. Qed.

Lemma add_plain wrap d labels m :
  plain_labels m -> Forall (fun l => plain_key (str_bytes (fst l))) labels -> plain_labels (add wrap d labels m).
Proof.
  intros Hm Hl. rewrite <- (canonical_labels_perm labels) in Hl. unfold add, add_locked, add_existing.
  destruct (series m !! _); [by apply insert_plain|]. case_match; [exact Hm|by apply insert_plain].
Qed.

Lemma plain_key_closed s :
  forallb (fun b => negb (bool_decide (b = "="%byte)) && negb (bool_decide (b = LF))) (str_bytes s) = true ->
  plain_key (str_bytes s).
Proof.
  intros H. apply List.Forall_forall. intros b Hb. eapply forallb_forall in H; [|exact Hb].
  by do 2 case_bool_decide.
Qed.

Ltac solve_plain_add :=
  apply add_plain; [done|repeat (apply Forall_cons_2; [apply plain_key_closed; reflexivity|]); apply Forall_nil_2].

Lemma apply_op_plain op m : all_plain m -> all_plain (apply_op op m).
Proof.
  intros (H1 & H2 & H3 & H4 & H5). destruct op as [[]| |]; repeat split; try done; solve_plain_add.
Qed.

Lemma after_ops_plain ops : all_plain (after_ops ops).
Proof.
  unfold after_ops. assert (H : all_plain metrics_default) by (repeat split; apply default_plain).
  revert H. generalize metrics_default. induction ops as [|op ops IH]; intros m H; [done|].
  apply IH. by apply apply_op_plain.
Qed.

Section Scrape.
Variable iter : gmap Key Z -> list (Key * Z).
Hypothesis iter_perm : forall s, iter s ≡ₚ map_to_list s.

(** What a scrape of the node says. *)
Definition all_samples (m : Metrics) : list Sample :=
  samples iter (str_bytes "otk_events_appended_total") (events_appended m) ++
  samples iter (str_bytes "otk_events_dropped_duplicates_total") (events_dropped_duplicates m) ++
  samples iter (str_bytes "otk_sequence_gaps_total") (sequence_gaps m) ++
  samples iter (str_bytes "otk_ingest_sessions_active") (ingest_sessions_active m) ++
  samples iter (str_bytes "otk_ingest_sessions_total") (ingest_sessions_total m).

Lemma parse_lines ls : Forall no_lf ls -> parse_text (ls ≫= line) = parse_samples ls.
Proof. intros H. unfold parse_text. by rewrite split_text. Qed.

Lemma plain_name_closed s :
  forallb (fun b => negb (bool_decide (b = "{"%byte)) && negb (bool_decide (b = " "%byte)) && negb (bool_decide (b = LF)))
    (str_bytes s) = true ->
  match str_bytes s with b :: _ => b <> "#"%byte | [] => False end -> plain_name (str_bytes s).
Proof.
  intros H Hh. split; [|done]. apply List.Forall_forall. intros b Hb. eapply forallb_forall in H; [|exact Hb].
  by do 3 case_bool_decide.
Qed.

Ltac metric_ok :=
  apply (metric_lines_ok iter iter_perm); [apply plain_name_closed; [reflexivity|discriminate]|solve_no_lf..|assumption].

Lemma render_parses m : all_plain m ->
  parse_text (render iter m) = if legible_metrics m then Some (all_samples m) else None.
Proof.
  intros (H1 & H2 & H3 & H4 & H5). unfold render, counter_render, gauge_render.
  rewrite !render_lines, <- !bind_app. rewrite parse_lines.
  - rewrite !parse_samples_app. unfold all_samples, legible_metrics.
    repeat match goal with
    | |- context [parse_samples (metric_lines _ ?oh ?ok ?n ?k ?hp ?x)] =>
        let E := fresh "E" in
        eassert (E : parse_samples (metric_lines iter oh ok n k hp x) = if legible_metric x then Some _ else None) by metric_ok;
        rewrite E; clear E
    end. by repeat destruct (legible_metric _).
  - rewrite !Forall_app. repeat split; metric_ok.
Qed.
End Scrape.

(** ** Claims *)

(** A caller alone makes its update. *)
Lemma add_alone wrap d labels m :
  exists updates, updates = [(canonical_labels labels, d)] /\
    call_steps wrap (m, [Calling (canonical_labels labels) d]) updates (add wrap d labels m, [Done]).
Proof.
  eexists. split; [reflexivity|]. unfold add. destruct (add_existing _ _ _ _) as [m'|] eqn:E.
  - change [(canonical_labels labels, d)] with ([(canonical_labels labels, d)] ++ []).
    eapply steps_more; [|apply steps_none]. by apply (step_hit _ _ [_] 0).
  - change [(canonical_labels labels, d)] with ([] ++ [(canonical_labels labels, d)] ++ []).
    eapply steps_more; [by apply (step_miss _ _ [_] 0)|].
    eapply steps_more; [by apply (step_locked _ _ [_] 0)|apply steps_none].
Qed.

(** C33: however the locks of a labelled counter or gauge interleave
    concurrent callers, every call takes effect exactly once: when all calls
    have returned, each stored series holds the (wrapped) sum of the updates
    to its label set, the overflow holds the sum of the updates to label sets
    that have no series, there are at most [MAX_SERIES_PER_METRIC] series,
    and a label set is without one only when that many are stored.  The two
    critical sections of one call make the function [add]. *)
Theorem updates_accounted wrap cs updates m cs' :
  wrap = wrap_u64 \/ wrap = wrap_i64 ->
  call_steps wrap (labeled_default, cs) updates (m, cs') -> Forall (eq Done) cs' ->
  updates ≡ₚ (cs ≫= pending) /\ accounts wrap m updates /\
  forall d labels m0, call_steps wrap (m0, [Calling (canonical_labels labels) d])
    [(canonical_labels labels, d)] (add wrap d labels m0, [Done]).
Proof.
  intros Hw Hs Hd. split; [|split].
  - rewrite (call_steps_pending _ _ _ _ _ _ Hs). rewrite <- (app_nil_r updates) at 1. f_equiv.
    clear -Hd. induction Hd as [|c cs <- _ IH]; [done|exact IH].
  - change updates with ([] ++ updates).
    eapply accounts_steps; [|by destruct Hw as [->| ->]; apply accounts_default|exact Hs].
    destruct Hw as [->| ->]; [apply wrap_u64_add|apply wrap_i64_add].
  - intros d labels m0. by destruct (add_alone wrap d labels m0) as (? & -> & ?).
Qed.

(** Two callers miss the same new label set, then both insert. *)
Definition racing_key : Key := [("producer_id", "p")].

Lemma updates_accounted_witness :
  let m := add_locked wrap_u64 1 racing_key (add_locked wrap_u64 1 racing_key labeled_default) in
  series m !! racing_key = Some 2%Z /\ accounts wrap_u64 m [(racing_key, 1%Z); (racing_key, 1%Z)].
Proof.
  split; [vm_compute; reflexivity|].
  refine (proj1 (proj2 (updates_accounted wrap_u64 [Calling racing_key 1; Calling racing_key 1]
    [(racing_key, 1%Z); (racing_key, 1%Z)] _ [Done; Done] (or_introl eq_refl) _ _))).
  - change [(racing_key, 1%Z); (racing_key, 1%Z)] with ([] ++ [] ++ [(racing_key, 1%Z)] ++ [(racing_key, 1%Z)] ++ []).
    eapply steps_more; [by apply (step_miss _ _ [_; _] 0)|].
    eapply steps_more; [by apply (step_miss _ _ [_; _] 1)|].
    eapply steps_more; [by apply (step_locked _ _ [_; _] 0)|].
    eapply steps_more; [by apply (step_locked _ _ [_; _] 1)|]. apply steps_none.
  - repeat constructor.
Defined.

(** C34: the metrics text is unambiguous whatever producers put into their
    identifiers, a carriage return excepted: after any sequence of recorded
    events and of sessions started and ended, a parser of the text exposition
    format 0.0.4 reads the text of [GET /metrics] back as exactly the series of
    the five metrics and their overflows, labels and values included, with [0]
    for a metric without any; unless some stored label value has a carriage
    return, and then it refuses the whole text. *)
Theorem scrape_exact iter ops :
  (forall s, iter s ≡ₚ map_to_list s) ->
  parse_text (render iter (after_ops ops)) =
    if legible_metrics (after_ops ops) then Some (all_samples iter (after_ops ops)) else None.
Proof. intros Hi. apply render_parses; [exact Hi|]. apply after_ops_plain. Qed.

Definition hostile : string := bytes_str (str_bytes "x" ++ [LF; QUOTE; BACKSLASH; "}"%byte] ++ str_bytes " 9").

Lemma scrape_exact_witness :
  let ops := [SessionStarted "tcp-main"; Recorded (SequenceGap hostile "d1"); SessionEnded "tcp-main"] in
  parse_text (render map_to_list (after_ops ops)) = Some (all_samples map_to_list (after_ops ops)).
Proof.
  intros ops. assert (Hl : legible_metrics (after_ops ops) = true) by (vm_compute; reflexivity).
  pose proof (scrape_exact map_to_list ops (fun s => Permutation_refl _)) as H. by rewrite Hl in H.
Defined.

(** One producer id with a carriage return takes the scrape down. *)
Example carriage_return_unreadable :
  parse_text (render map_to_list (after_ops [Recorded (DuplicateDropped (bytes_str [CR]) "d1")])) = None.
Proof. vm_compute. reflexivity. Qed.
