(* ===== verification/SocketBind.v ===== *)
(** Binding the ingest listeners (crates [adapter-ingest-unix-socket] and
    [adapter-ingest-tcp], [port.rs]).

    Binding a Unix socket first clears away the socket file of a previous run,
    in several system calls between which other processes may act on the path.
    [path] is what is at the socket path; before the [n]th call the other
    processes have turned it into [env n path], and [fault n] is an error of
    that call that the path does not explain.  [removed] collects what this
    process unlinked. *)
From stdpp Require Import base strings option numbers sorting list.
From S2P Require Import Prelude.

Inductive ErrorKind :=
  | NotFound | AlreadyExists | AddrInUse | KindConnectionRefused | InvalidInput | OtherKind (m : string).

#[export] Instance ErrorKind_eq_dec : EqDecision ErrorKind.
Proof. solve_decision. Defined.

(** A Unix socket, with or without a process listening on it, or another file. *)
Inductive FileType := FtSocket (listening : bool) | FtOther.

Record Entry := { dev : N; ino : N; file_type : FileType }.

Definition is_socket (e : Entry) : bool := match file_type e with FtSocket _ => true | FtOther => false end.

Record UnixConfig := {
  max_frame_bytes : N;
  handshake_timeout : N;
  force_rebind : bool;
  socket_permissions : option N
}.

(** The checks both listeners make before they touch the system. *)
Definition check_config (max_frame_bytes handshake_timeout : N) : result unit ErrorKind :=
  if (max_frame_bytes =? 0)%N then Err InvalidInput
  else if (handshake_timeout =? 0)%N then Err InvalidInput else Ok tt.

Section Bind.
Variable env : nat -> option Entry -> option Entry.
Variable fault : nat -> option ErrorKind.

Record Sys := { tick : nat; path : option Entry; removed : list Entry }.

(** A system call: what it answers for the path it finds, and the path and the
    removals it leaves. *)
Definition syscall {A} (body : option Entry -> result A ErrorKind * option Entry * list Entry) (s : Sys)
  : result A ErrorKind * Sys :=
  let p := env (tick s) (path s) in
  match fault (tick s) with
  | Some k => (Err k, {| tick := S (tick s); path := p; removed := removed s |})
  | None =>
      let '(r, p, gone) := body p in
      (r, {| tick := S (tick s); path := p; removed := removed s ++ gone |})
  end.

Definition symlink_metadata : Sys -> result Entry ErrorKind * Sys :=
  syscall (fun p => (match p with Some e => Ok e | None => Err NotFound end, p, [])).

(** Connecting to a file nobody listens on is refused. *)
Definition connect_probe : Sys -> result unit ErrorKind * Sys :=
  syscall (fun p => (match p with
                     | None => Err NotFound
                     | Some e => match file_type e with
                                 | FtSocket true => Ok tt
                                 | _ => Err KindConnectionRefused end
                     end, p, [])).

Definition remove_file : Sys -> result unit ErrorKind * Sys :=
  syscall (fun p => match p with Some e => (Ok tt, None, [e]) | None => (Err NotFound, None, []) end).

Definition listener_bind (fresh : Entry) : Sys -> result unit ErrorKind * Sys :=
  syscall (fun p => match p with Some e => (Err AddrInUse, p, []) | None => (Ok tt, Some fresh, []) end).

Definition set_permissions : Sys -> result unit ErrorKind * Sys :=
  syscall (fun p => (match p with Some _ => Ok tt | None => Err NotFound end, p, [])).

(** The first look at the path: the identity of a file to remove, if any. *)
Definition find_stale (config : UnixConfig) (s : Sys) : result (option (N * N)) ErrorKind * Sys :=
  match symlink_metadata s with
  | (Ok meta, s) =>
      if negb (is_socket meta) then (Err AlreadyExists, s) else
      if force_rebind config then (Ok (Some (dev meta, ino meta)), s) else
      match connect_probe s with
      | (Ok _, s) => (Err AddrInUse, s)
      | (Err KindConnectionRefused, s) => (Ok (Some (dev meta, ino meta)), s)
      | (Err NotFound, s) => (Ok None, s)
      | (Err k, s) => (Err k, s)
      end
  | (Err NotFound, s) => (Ok None, s)
  | (Err k, s) => (Err k, s)
  end.

(** The second look, and the removal. *)
Definition remove_stale (expected : N * N) (s : Sys) : result unit ErrorKind * Sys :=
  match symlink_metadata s with
  | (Ok now_meta, s) =>
      if negb (is_socket now_meta) || negb (dev now_meta =? fst expected)%N ||
         negb (ino now_meta =? snd expected)%N
      then (Err AlreadyExists, s)
      else match remove_file s with
           | (Ok _, s) => (Ok tt, s)
           | (Err NotFound, s) => (Ok tt, s)
           | (Err k, s) => (Err k, s)
           end
  | (Err NotFound, s) => (Ok tt, s)
  | (Err k, s) => (Err k, s)
  end.

(** [fresh] is the file the system makes for the new socket. *)
Definition bind_with_auth (config : UnixConfig) (fresh : Entry) (s : Sys) : result unit ErrorKind * Sys :=
  match check_config (max_frame_bytes config) (handshake_timeout config) with
  | Err k => (Err k, s)
  | Ok _ =>
      match find_stale config s with
      | (Err k, s) => (Err k, s)
      | (Ok stale, s) =>
          let (r, s) := match stale with Some id => remove_stale id s | None => (Ok tt, s) end in
          match r with
          | Err k => (Err k, s)
          | Ok _ =>
              match listener_bind fresh s with
              | (Err k, s) => (Err k, s)
              | (Ok _, s) =>
                  match socket_permissions config with
                  | None => (Ok tt, s)
                  | Some _ => set_permissions s
                  end
              end
          end
      end
  end.

(** ** What is removed *)
Lemma find_stale_spec config s r s' :
  find_stale config s = (r, s') ->
  removed s' = removed s /\
  forall id, r = Ok (Some id) -> exists e0,
    env (tick s) (path s) = Some e0 /\ is_socket e0 = true /\ id = (dev e0, ino e0).
Proof.
  unfold find_stale, symlink_metadata, syscall.
  destruct (fault (tick s)) as [k|]; [by destruct k; intros [= <- <-]|].
  destruct (env (tick s) (path s)) as [e0|]; simpl; [|intros [= <- <-]; simpl; by rewrite app_nil_r].
  destruct (is_socket e0) eqn:Hs; simpl; [|intros [= <- <-]; simpl; by rewrite app_nil_r].
  destruct (force_rebind config).
  { intros [= <- <-]. simpl. rewrite app_nil_r. split; [done|]. intros id [= <-]. by exists e0. }
  unfold connect_probe, syscall. simpl.
  destruct (fault (S (tick s))) as [k|] eqn:Hf.
  { destruct k; intros [= <- <-]; simpl; rewrite app_nil_r; (split; [done|]); try done.
    intros id [= <-]. by exists e0. }
  destruct (env (S (tick s)) (Some e0)) as [e1|]; simpl;
    [|intros [= <- <-]; simpl; by rewrite !app_nil_r].
  destruct (file_type e1) as [[]|] eqn:Ht; intros [= <- <-]; simpl; rewrite !app_nil_r; (split; [done|]);
    try done; intros id [= <-]; by exists e0.
Qed.

(** A file is only up for removal when nobody answered the probe. *)
Lemma find_stale_probe config s id s' :
  find_stale config s = (Ok (Some id), s') ->
  force_rebind config = true \/ fault (S (tick s)) = Some KindConnectionRefused \/
  exists e2 q, env (S (tick s)) q = Some e2 /\ file_type e2 <> FtSocket true.
Proof.
  unfold find_stale, symlink_metadata, syscall. destruct (fault (tick s)) as [[]|]; try done.
  destruct (env (tick s) (path s)) as [e0|]; [|done]. destruct (is_socket e0); [|done].
  destruct (force_rebind config); [by left|]. unfold connect_probe, syscall. simpl.
  destruct (fault (S (tick s))) as [[]|]; try done; [by right; left|].
  destruct (env (S (tick s)) (Some e0)) as [e1|] eqn:He; [|done].
  destruct (file_type e1) as [[]|] eqn:Ht; try done; intros _; right; right; exists e1, (Some e0);
    by rewrite Ht.
Qed.

Lemma remove_stale_spec id s r s' :
  remove_stale id s = (r, s') ->
  removed s' = removed s \/
  exists e1 e, removed s' = removed s ++ [e] /\ env (tick s) (path s) = Some e1 /\
    is_socket e1 = true /\ id = (dev e1, ino e1) /\ env (S (tick s)) (Some e1) = Some e.
Proof.
  unfold remove_stale, symlink_metadata, syscall.
  destruct (fault (tick s)) as [k|]; [destruct k; intros [= <- <-]; by left|].
  destruct (env (tick s) (path s)) as [e1|]; simpl; [|intros [= <- <-]; left; apply app_nil_r].
  destruct (negb (is_socket e1) || _ || _) eqn:Hid; [intros [= <- <-]; left; apply app_nil_r|].
  apply orb_false_iff in Hid as [[Hs Hd]%orb_false_iff Hi]. apply negb_false_iff in Hs.
  apply negb_false_iff, N.eqb_eq in Hd. apply negb_false_iff, N.eqb_eq in Hi.
  unfold remove_file, syscall. simpl.
  destruct (fault (S (tick s))) as [k|]; [destruct k; intros [= <- <-]; left; apply app_nil_r|].
  destruct (env (S (tick s)) (Some e1)) as [e|] eqn:He; intros [= <- <-]; simpl; rewrite ?app_nil_r;
    [right|by left].
  exists e1, e. destruct id; simpl in *. by subst.
Qed.

(** Nothing but the removal step removes. *)
Lemma bind_removed config fresh s r s' :
  bind_with_auth config fresh s = (r, s') ->
  removed s' = removed s \/
  exists id s1 s2 r1, find_stale config s = (Ok (Some id), s1) /\ remove_stale id s1 = (r1, s2) /\
    removed s' = removed s2.
Proof.
  unfold bind_with_auth. destruct (check_config _ _); [|intros [= <- <-]; by left].
  destruct (find_stale config s) as [[stale|k] s1] eqn:Hf.
  2:{ intros [= <- <-]. left. by apply find_stale_spec in Hf as [? _]. }
  assert (Htail : forall s2 s3 r3, (match listener_bind fresh s2 with
      | (Err k, s) => (Err k, s)
      | (Ok _, s) => match socket_permissions config with None => (Ok tt, s) | Some _ => set_permissions s end
      end) = (r3, s3) -> removed s3 = removed s2).
  { intros s2 s3 r3. unfold listener_bind, syscall. destruct (fault _); [by intros [= _ <-]|].
    destruct (env (tick s2) (path s2)); [by intros [= _ <-]; simpl; rewrite app_nil_r|].
    destruct (socket_permissions config); [|by intros [= _ <-]; simpl; rewrite app_nil_r].
    unfold set_permissions, syscall. simpl. destruct (fault _); intros [= _ <-]; simpl;
      by rewrite !app_nil_r. }
  destruct stale as [id|].
  - destruct (remove_stale id s1) as [[[]|k] s2] eqn:Hr; intros Hend.
    + apply Htail in Hend. right. by exists id, s1, s2, (Ok tt).
    + simplify_eq. right. by exists id, s1, s', (Err k).
  - intros Hend. apply Htail in Hend. left. apply find_stale_spec in Hf as [Hf _]. congruence.
Qed.
End Bind.

(** ** Properties *)

(** What binding does when no other process touches the path. *)
Definition expected_bind (config : UnixConfig) (p : option Entry) : result unit ErrorKind * list Entry :=
  match p with
  | None => (Ok tt, [])
  | Some e =>
      match file_type e with
      | FtOther => (Err AlreadyExists, [])
      | FtSocket listening =>
          if listening && negb (force_rebind config) then (Err AddrInUse, []) else (Ok tt, [e])
      end
  end.

(** binding never destroys the wrong file: whatever other processes do and
    whatever fails, the one file it may unlink was a socket with the identity
    of the first look when it was looked at again, immediately before, and
    either a takeover was asked for or the probe found nobody listening; and
    when nobody interferes, it refuses other files and live sockets, replaces
    a stale one, and succeeds otherwise. *)
Theorem bind_removes_only_stale env fault config fresh s r s' :
  removed s = [] -> bind_with_auth env fault config fresh s = (r, s') ->
  (removed s' = [] \/
   exists e0 e1 e t, removed s' = [e] /\ env (tick s) (path s) = Some e0 /\ is_socket e0 = true /\
     is_socket e1 = true /\ (dev e1, ino e1) = (dev e0, ino e0) /\ env t (Some e1) = Some e /\
     (force_rebind config = true \/ fault (S (tick s)) = Some KindConnectionRefused \/
      exists e2 q, env (S (tick s)) q = Some e2 /\ file_type e2 <> FtSocket true)) /\
  ((forall n p, env n p = p) -> (forall n, fault n = None) ->
   check_config (max_frame_bytes config) (handshake_timeout config) = Ok tt ->
   (r, removed s') = expected_bind config (path s)).
Proof.
  intros Hnil Hb. split.
  - destruct (bind_removed _ _ _ _ _ _ _ Hb) as [->|(id & s1 & s2 & r1 & Hf & Hr & ->)]; [by left|].
    pose proof (find_stale_probe _ _ _ _ _ _ Hf) as Hprobe.
    apply find_stale_spec in Hf as [Hrem Hid]. destruct (Hid id eq_refl) as (e0 & He0 & Hs0 & ->).
    apply remove_stale_spec in Hr as [->|(e1 & e & -> & _ & Hs1 & Hid1 & He)]; [left; congruence|].
    right. exists e0, e1, e, (S (tick s1)). rewrite Hrem, Hnil. split_and!; done.
  - intros He Hn Hc. revert Hb. destruct s as [t p rem]. simpl in Hnil |- *. subst rem.
    assert (Hcall : forall A (body : option Entry -> result A ErrorKind * option Entry * list Entry) t p rem,
      syscall env fault body {| tick := t; path := p; removed := rem |} =
        let '(r, p, gone) := body p in (r, {| tick := S t; path := p; removed := rem ++ gone |}))
      by (intros; unfold syscall; simpl; by rewrite He, Hn).
    unfold bind_with_auth, find_stale, remove_stale, symlink_metadata, connect_probe, remove_file,
      listener_bind, set_permissions, expected_bind, is_socket. rewrite Hc, !Hcall.
    destruct (socket_permissions config) as [mode|], (force_rebind config),
      p as [[d i [[]|]]|]; simpl; repeat (rewrite ?Hcall, ?N.eqb_refl; simpl); by intros [= <- <-].
Qed.

Definition sample_config : UnixConfig :=
  {| max_frame_bytes := 65535; handshake_timeout := 5; force_rebind := false;
     socket_permissions := Some 432%N |}.
Definition stale_socket : Entry := {| dev := 1; ino := 7; file_type := FtSocket false |}.
Definition new_socket : Entry := {| dev := 1; ino := 8; file_type := FtSocket true |}.
Definition other_file : Entry := {| dev := 1; ino := 9; file_type := FtOther |}.
Definition at_path (p : option Entry) : Sys := {| tick := 0; path := p; removed := [] |}.

(** The second look leaves a window: a process that puts another file at the
    path between it and the unlink has that file removed. *)
Theorem bind_race_removes_file :
  let env n p := if n =? 3 then Some other_file else p in
  exists s', bind_with_auth env (fun _ => None) sample_config new_socket (at_path (Some stale_socket)) =
    (Ok tt, s') /\ removed s' = [other_file] /\ is_socket other_file = false.
Proof. eexists. split; [vm_compute; reflexivity|]. done. Qed.

Lemma bind_removes_only_stale_witness :
  let s' := snd (bind_with_auth (fun _ p => p) (fun _ => None) sample_config new_socket
                   (at_path (Some stale_socket))) in
  (Ok tt, removed s') = expected_bind sample_config (Some stale_socket).
Proof.
  apply (bind_removes_only_stale (fun _ p => p) (fun _ => None) sample_config new_socket
           (at_path (Some stale_socket)) (Ok tt)); [reflexivity|vm_compute; reflexivity|reflexivity..].
Defined.
