(* ===== verification/NodeListener.v ===== *)
(** The accept loop of the node (crate [timing-node], [run_listener] of
    [ingest.rs] with its [ActiveSessionGuard], and the check of the listener
    identifiers in [lib.rs]) over the ports' [accept].

    A listener is a step relation: the accept in progress, the session tasks
    and the phase of the loop; what a step does to the node's metrics is its
    label.  [session_gauge_exact] is about all listeners of a node, which
    share one [Metrics]; [reap_drops_handshake] is what the loop does to a
    connection whose handshake is not finished when another session ends. *)
From stdpp Require Import base gmap strings option numbers pretty sorting list.
From Stdlib Require Import Strings.Byte.
From S2P Require Import Prelude EventModel WireProtocol StreamCodec IngestProtocol ByteStream IngestSession IngestService Metrics.

(** ** The identifiers of the configured listeners *)

(** The first identifier that appears twice, with both indices. *)
Fixpoint duplicate_id (seen : gmap string nat) (index : nat) (ids : list string) : option (string * nat * nat) :=
  match ids with
  | [] => None
  | id :: ids =>
      match seen !! id with
      | Some first => Some (id, first, index)
      | None => duplicate_id (<[id := index]> seen) (S index) ids
      end
  end.

Definition ids_accepted (ids : list string) : bool :=
  negb (bool_decide (ids = [])) && bool_decide (duplicate_id ∅ 0 ids = None).

Section Accepting.
Context `{BS : ByteStream Conn} `{Ad : Adapter}.
Context `{EnvCbor : Cbor OtkEnvelope} `{CborEvent : Cbor OtkEvent} `{CborHeartbeat : Cbor Heartbeat}.
Context `{CborConnect : Cbor Connect} `{CborAck : Cbor ConnectAck} `{CborReject : Cbor ConnectReject}.

(** [accept] after a connection: the handshake under its timeout. *)
Definition finish_accept (fuel : nat) (timed_out : bool) (s : Conn) (peer : string) (max_frame_bytes : N)
    (authoriser : ConnectAuthoriser) : option (result (IngestSession Conn) IngestError) :=
  if timed_out then Some (Err (IngestHandshake "handshake timed out"))
  else let! (r, _) := handshake fuel s peer max_frame_bytes authoriser in Some r.
End Accepting.

Inductive Phase := Accepting | Draining | Returned.

#[export] Instance Phase_eq_dec : EqDecision Phase.
Proof. solve_decision. Defined.

Section Listener.
Context `{BS : ByteStream Conn}.
Context `{EnvCbor : Cbor OtkEnvelope} `{CborEvent : Cbor OtkEvent} `{CborHeartbeat : Cbor Heartbeat}.
Context `{CborConnect : Cbor Connect} `{CborAck : Cbor ConnectAck} `{CborReject : Cbor ConnectReject}.

(** [accept] of the port, in progress: waiting for a connection, or in the
    handshake of one. *)
Inductive AcceptState := Waiting | Handshaking (s : Conn) (peer : string).

(** A session task owns the guard until its future is dropped. *)
Inductive Task := Running (x : IngestSession Conn) | Finished.

Record Listener := {
  listener_id : string;
  phase : Phase;
  accept : AcceptState;
  tasks : list Task
}.

Definition start_listener (id : string) : Listener :=
  {| listener_id := id; phase := Accepting; accept := Waiting; tasks := [] |}.

Definition with_tasks (ts : list Task) (l : Listener) : Listener :=
  {| listener_id := listener_id l; phase := phase l; accept := accept l; tasks := ts |}.
Definition with_accept (a : AcceptState) (l : Listener) : Listener :=
  {| listener_id := listener_id l; phase := phase l; accept := a; tasks := tasks l |}.
Definition with_phase (p : Phase) (l : Listener) : Listener :=
  {| listener_id := listener_id l; phase := p; accept := Waiting; tasks := tasks l |}.

(** The arms of the [select!]: the one that fires ends the futures of the
    others, and the loop makes a new [accept]. *)
Inductive Arm :=
  | ArmAccept (r : result (IngestSession Conn) IngestError)
  | ArmReap (i : nat)
  | ArmShutdown.

Definition on_arm (arm : Arm) (l : Listener) : Listener * list MetricOp :=
  match arm with
  | ArmAccept (Ok x) =>
      (with_accept Waiting (with_tasks (tasks l ++ [Running x]) l), [SessionStarted (listener_id l)])
  | ArmAccept (Err IngestClosed) => (with_phase Draining l, [])
  | ArmAccept (Err _) => (with_accept Waiting l, [])
  | ArmReap i => (with_accept Waiting (with_tasks (delete i (tasks l)) l), [])
  | ArmShutdown => (with_phase Draining l, [])
  end.

(** [shutdown] is the node's watch channel, [aborted] whether the listener's
    task has been aborted.  [accept] of the ports of this repository never
    answers that the port is closed. *)
Inductive listener_step (shutdown aborted : bool) (l : Listener) : list MetricOp -> Listener -> Prop :=
  | step_connected s peer :
      phase l = Accepting -> accept l = Waiting ->
      listener_step shutdown aborted l [] (with_accept (Handshaking s peer) l)
  | step_accept_error e :
      phase l = Accepting -> accept l = Waiting -> e <> IngestClosed ->
      listener_step shutdown aborted l (snd (on_arm (ArmAccept (Err e)) l)) (fst (on_arm (ArmAccept (Err e)) l))
  | step_accepted (Ad : Adapter) (AdL : AdapterLaws Ad) s peer fuel timed_out max_frame_bytes authoriser r :
      phase l = Accepting -> accept l = Handshaking s peer ->
      finish_accept (Ad := Ad) fuel timed_out s peer max_frame_bytes authoriser = Some r ->
      listener_step shutdown aborted l (snd (on_arm (ArmAccept r) l)) (fst (on_arm (ArmAccept r) l))
  | step_recorded i x ev :
      tasks l !! i = Some (Running x) -> listener_step shutdown aborted l [Recorded ev] l
  (** The session task ends, in whatever way, or its aborted future is
      dropped. *)
  | step_session_over i x :
      tasks l !! i = Some (Running x) ->
      listener_step shutdown aborted l [SessionEnded (listener_id l)] (with_tasks (<[i := Finished]> (tasks l)) l)
  | step_reap i :
      phase l = Accepting -> tasks l !! i = Some Finished ->
      listener_step shutdown aborted l (snd (on_arm (ArmReap i) l)) (fst (on_arm (ArmReap i) l))
  | step_shutdown :
      shutdown = true -> phase l = Accepting ->
      listener_step shutdown aborted l (snd (on_arm ArmShutdown l)) (fst (on_arm ArmShutdown l))
  | step_drain i :
      phase l = Draining -> tasks l !! i = Some Finished ->
      listener_step shutdown aborted l [] (with_tasks (delete i (tasks l)) l)
  | step_drained : phase l = Draining -> tasks l = [] -> listener_step shutdown aborted l [] (with_phase Returned l)
  (** The drain timed out: the set of tasks is dropped, which aborts them. *)
  | step_drain_timeout : phase l = Draining -> listener_step shutdown aborted l [] (with_phase Returned l)
  (** The node aborts the listener itself. *)
  | step_aborted : aborted = true -> phase l <> Returned -> listener_step shutdown aborted l [] (with_phase Returned l).

(** All listeners of a node. *)
Inductive node_steps : list Listener -> list MetricOp -> list Listener -> Prop :=
  | node_none ls : node_steps ls [] ls
  | node_more ls ops ls1 i l ops' l' shutdown aborted :
      node_steps ls ops ls1 -> ls1 !! i = Some l -> listener_step shutdown aborted l ops' l' ->
      node_steps ls (ops ++ ops') (<[i := l']> ls1).

Definition is_running (t : Task) : bool := match t with Running _ => true | Finished => false end.

(** The guards a listener's sessions hold. *)
Definition live (l : Listener) : nat := length (filter (fun t => is_running t = true) (tasks l)).

(** ** Guards and counts *)
Lemma filter_update (ts : list Task) i t t' :
  ts !! i = Some t ->
  (length (filter (fun t => is_running t = true) (<[i := t']> ts)) + (if is_running t then 1 else 0) =
   length (filter (fun t => is_running t = true) ts) + (if is_running t' then 1 else 0))%nat.
Proof.
  intros Hi. rewrite insert_take_drop by by eapply lookup_lt_Some.
  rewrite <- (take_drop_middle ts i t Hi) at 3. rewrite !filter_app, !filter_cons, !length_app.
  destruct (is_running t), (is_running t'); simpl; lia.
Qed.

Lemma filter_delete (ts : list Task) i :
  ts !! i = Some Finished ->
  length (filter (fun t => is_running t = true) (delete i ts)) = length (filter (fun t => is_running t = true) ts).
Proof.
  intros Hi. rewrite delete_take_drop. rewrite <- (take_drop_middle ts i Finished Hi) at 3.
  by rewrite !filter_app, filter_cons.
Qed.

(** Sessions started less sessions ended. *)
Definition op_delta (id : string) (op : MetricOp) : Z :=
  match op with
  | Recorded _ => 0
  | SessionStarted id' => if bool_decide (id' = id) then 1 else 0
  | SessionEnded id' => if bool_decide (id' = id) then -1 else 0
  end.

Definition op_start (id : string) (op : MetricOp) : Z :=
  match op with SessionStarted id' => if bool_decide (id' = id) then 1 else 0 | _ => 0 end.

Definition total (f : MetricOp -> Z) (ops : list MetricOp) : Z := foldr (fun op acc => (f op + acc)%Z) 0%Z ops.

Lemma total_app f a b : total f (a ++ b) = (total f a + total f b)%Z.
Proof. induction a as [|op a IH]; simpl; [done|]. rewrite IH. lia. Qed.

Lemma step_live shutdown aborted l ops l' :
  listener_step shutdown aborted l ops l' ->
  listener_id l' = listener_id l /\
  Z.of_nat (live l') = (Z.of_nat (live l) + total (op_delta (listener_id l)) ops)%Z /\
  (forall id, id <> listener_id l -> total (op_delta id) ops = 0%Z) /\
  (forall op, op ∈ ops -> match op with Recorded _ => True | SessionStarted id | SessionEnded id => id = listener_id l end).
Proof.
  unfold live. destruct 1 as [| e| Ad AdL s peer fuel to max auth r| i x ev| i x Hi| i| | i| | |]; simpl.
  all: try (split; [done|]; split; [lia|]; split; [done|]; by intros op ?%not_elem_of_nil).
  - destruct e; simpl; (split; [done|]; split; [lia|]; split; [done|]; by intros op ?%not_elem_of_nil).
  - destruct r as [x|e]; simpl.
    + split; [done|]. split; [|split].
      * rewrite filter_app, length_app, bool_decide_eq_true_2 by done. simpl. lia.
      * intros id Hne. by rewrite bool_decide_eq_false_2.
      * by intros op ->%list_elem_of_singleton.
    + destruct e; simpl; (split; [done|]; split; [lia|]; split; [done|]; by intros op ?%not_elem_of_nil).
  - split; [done|]. split; [lia|]. split; [done|]. by intros op ->%list_elem_of_singleton.
  - split; [done|]. split; [|split].
    + rewrite bool_decide_eq_true_2 by done. pose proof (filter_update _ _ _ Finished Hi). simpl in *. lia.
    + intros id Hne. by rewrite bool_decide_eq_false_2.
    + by intros op ->%list_elem_of_singleton.
  - rewrite filter_delete by done. split; [done|]. split; [lia|]. split; [done|]. by intros op ?%not_elem_of_nil.
  - rewrite filter_delete by done. split; [done|]. split; [lia|]. split; [done|]. by intros op ?%not_elem_of_nil.
Qed.

Lemma steps_live ls ops ls' :
  node_steps ls ops ls' -> NoDup (listener_id <$> ls) ->
  listener_id <$> ls' = listener_id <$> ls /\
  (forall op, op ∈ ops -> match op with Recorded _ => True | SessionStarted id | SessionEnded id => id ∈ listener_id <$> ls end) /\
  (forall i l l', ls !! i = Some l -> ls' !! i = Some l' ->
    Z.of_nat (live l') = (Z.of_nat (live l) + total (op_delta (listener_id l)) ops)%Z).
Proof.
  intros Hs Hnd. induction Hs as [ls|ls ops ls1 i l ops' l' sh ab Hs IH Hi Hstep].
  { split; [done|]. split; [by intros op ?%not_elem_of_nil|]. intros i l l' H1 H2. simplify_eq. simpl. lia. }
  destruct (IH Hnd) as (Hids & Hops & Hl). destruct (step_live _ _ _ _ _ Hstep) as (Hid & Hlive & Hother & Hmem).
  assert (Hi' : (listener_id <$> ls) !! i = Some (listener_id l)) by by rewrite <- Hids, list_lookup_fmap, Hi.
  split; [|split].
  - rewrite list_fmap_insert, Hid. rewrite list_insert_id; [done|]. by rewrite list_lookup_fmap, Hi.
  - intros op [Hop|Hop]%elem_of_app; [by apply Hops|]. specialize (Hmem op Hop).
    destruct op; [done|subst..]; by eapply list_elem_of_lookup_2.
  - intros j l0 l1 Hj Hj'. rewrite total_app. destruct (decide (j = i)) as [->|Hne].
    + rewrite list_lookup_insert_eq in Hj' by by eapply lookup_lt_Some. simplify_eq.
      rewrite list_lookup_fmap, Hj in Hi'. simpl in Hi'. injection Hi' as Hi'.
      rewrite Hlive, (Hl i l0 l Hj Hi), Hi'. lia.
    + rewrite list_lookup_insert_ne in Hj' by done. rewrite (Hl j l0 l1 Hj Hj'), (Hother (listener_id l0)); [lia|].
      intros E. apply Hne. eapply (NoDup_lookup (listener_id <$> ls)); [done| |exact Hi'].
      by rewrite list_lookup_fmap, Hj, <- E.
Qed.
End Listener.

(** ** Unique identifiers *)
Lemma duplicate_id_spec ids seen index :
  duplicate_id seen index ids = None <-> NoDup ids /\ forall id, id ∈ ids -> seen !! id = None.
Proof.
  revert seen index. induction ids as [|id ids IH]; intros seen index; simpl.
  { split; [|done]. intros _. split; [constructor|]. by intros id ?%not_elem_of_nil. }
  destruct (seen !! id) as [first|] eqn:E.
  - split; [done|]. intros [_ H]. specialize (H id ltac:(by left)). congruence.
  - rewrite IH, NoDup_cons. split.
    + intros [Hnd Hs]. split; [split; [|done]|].
      * intros Hin. specialize (Hs id Hin). by rewrite lookup_insert_eq in Hs.
      * intros id' [->|Hin]%elem_of_cons; [done|]. specialize (Hs id' Hin). by apply lookup_insert_None in Hs as [? _].
    + intros [[Hin Hnd] Hs]. split; [done|]. intros id' Hid'. rewrite lookup_insert_ne by congruence.
      apply Hs. by right.
Qed.

Lemma ids_accepted_spec ids : ids_accepted ids = true -> NoDup ids.
Proof.
  unfold ids_accepted. rewrite andb_true_iff. intros [_ H%bool_decide_eq_true_1]. by apply duplicate_id_spec in H as [? _].
Qed.

(** ** What the gauge shows *)
Definition listener_key (id : string) : Key := [("listener_id", id)].

Definition shown (m : Labeled) (id : string) : Z := default 0%Z (series m !! listener_key id).

Definition active_updates (ops : list MetricOp) : list (Key * Z) :=
  omap (fun op => match op with
                  | Recorded _ => None
                  | SessionStarted id => Some (listener_key id, 1%Z)
                  | SessionEnded id => Some (listener_key id, (-1)%Z)
                  end) ops.

Definition total_updates (ops : list MetricOp) : list (Key * Z) :=
  omap (fun op => match op with SessionStarted id => Some (listener_key id, 1%Z) | _ => None end) ops.

Lemma accounts_add wrap d labels m us :
  (forall a b, wrap (wrap a + b)%Z = wrap (a + b)%Z) ->
  accounts wrap m us -> accounts wrap (add wrap d labels m) (us ++ [(canonical_labels labels, d)]).
Proof.
  intros Hw Ha. unfold add. destruct (add_existing _ _ _ _) eqn:E.
  - by eapply accounts_existing.
  - by apply accounts_locked.
Qed.

Lemma after_ops_snoc ops op : after_ops (ops ++ [op]) = apply_op op (after_ops ops).
Proof. unfold after_ops. by rewrite fold_left_app. Qed.

Lemma after_ops_active ops : accounts wrap_i64 (ingest_sessions_active (after_ops ops)) (active_updates ops).
Proof.
  induction ops as [|op ops IH] using rev_ind; [by apply accounts_default|].
  unfold active_updates. rewrite after_ops_snoc, omap_app. fold (active_updates ops).
  destruct op as [[]|id|id]; cbn [omap list_omap]; rewrite ?app_nil_r; try exact IH.
  - apply (accounts_add wrap_i64 1 (listener_key id)); [apply wrap_i64_add|exact IH].
  - apply (accounts_add wrap_i64 (-1) (listener_key id)); [apply wrap_i64_add|exact IH].
Qed.

Lemma after_ops_total ops : accounts wrap_u64 (ingest_sessions_total (after_ops ops)) (total_updates ops).
Proof.
  induction ops as [|op ops IH] using rev_ind; [by apply accounts_default|].
  unfold total_updates. rewrite after_ops_snoc, omap_app. fold (total_updates ops).
  destruct op as [[]|id|id]; cbn [omap list_omap]; rewrite ?app_nil_r; try exact IH.
  apply (accounts_add wrap_u64 1 (listener_key id)); [apply wrap_u64_add|exact IH].
Qed.

Lemma is_listener_key id id' : is_key (listener_key id) (listener_key id') = bool_decide (id' = id).
Proof. unfold is_key. apply bool_decide_ext. unfold listener_key. split; [by intros [= ->]|by intros ->]. Qed.

Lemma sum_active id ops : sum_where (is_key (listener_key id)) (active_updates ops) = total (op_delta id) ops.
Proof.
  induction ops as [|[ev|id'|id'] ops IH]; [done|exact IH|..]; simpl; rewrite is_listener_key; case_bool_decide; rewrite <- IH; lia.
Qed.

Lemma sum_total id ops : sum_where (is_key (listener_key id)) (total_updates ops) = total (op_start id) ops.
Proof.
  induction ops as [|[ev|id'|id'] ops IH]; [done|exact IH| |exact IH]; simpl; rewrite is_listener_key; case_bool_decide; rewrite <- IH; lia.
Qed.

(** With few label sets none overflows. *)
Lemma accounts_below_cap wrap m us keys :
  wrap 0%Z = 0%Z -> accounts wrap m us -> us.*1 ⊆ keys -> (length keys <= MAX_SERIES_PER_METRIC)%nat ->
  overflow m = 0%Z /\ forall k, default 0%Z (series m !! k) = wrap (sum_where (is_key k) us).
Proof.
  intros Hw (Hs & Ho & _ & Hf) Hsub Hlen.
  assert (Hall : forall k, k ∈ us.*1 -> is_Some (series m !! k)).
  { intros k Hk. destruct (series m !! k) as [v|] eqn:E; [by eexists|]. exfalso.
    pose proof (Hf k Hk E) as Hsz. apply not_elem_of_dom in E.
    assert (Hsub' : {[k]} ∪ dom (series m) ⊆ (list_to_set keys : gset Key)).
    { intros k'. rewrite elem_of_union, elem_of_singleton, elem_of_list_to_set. intros [->|[v' Hv]%elem_of_dom].
      - by apply Hsub.
      - apply Hsub. by destruct (Hs k' v' Hv). }
    apply subseteq_size in Hsub'. rewrite size_union, size_singleton, size_dom in Hsub' by set_solver.
    assert (size (list_to_set keys : gset Key) <= length keys)%nat; [|lia].
    clear. induction keys as [|k keys IH]; [rewrite list_to_set_nil, size_empty; simpl; lia|].
    rewrite list_to_set_cons, size_union_alt, size_singleton. cbn [length].
    pose proof (subseteq_size (list_to_set keys ∖ {[k]} : gset Key) (list_to_set keys) ltac:(set_solver)). lia. }
  split.
  - rewrite Ho, sum_where_none; [done|]. intros k Hk. destruct (Hall k Hk) as [v Hv]. by eapply absent_Some.
  - intros k. destruct (series m !! k) as [v|] eqn:E; simpl; [by destruct (Hs k v E)|].
    rewrite sum_where_none; [done|]. intros k' Hk'. unfold is_key. apply bool_decide_eq_false_2. intros ->.
    destruct (Hall k Hk') as [v Hv]. congruence.
Qed.

Lemma updates_keys ids ops :
  (forall op, op ∈ ops -> match op with Recorded _ => True | SessionStarted id | SessionEnded id => id ∈ ids end) ->
  (active_updates ops).*1 ⊆ listener_key <$> ids /\ (total_updates ops).*1 ⊆ listener_key <$> ids.
Proof.
  intros H. split; intros k; unfold active_updates, total_updates;
    intros ([k' d] & -> & (op & Hop & Hk)%list_elem_of_omap)%list_elem_of_fmap; specialize (H op Hop);
    destruct op; simplify_eq; simpl; by apply list_elem_of_fmap_2.
Qed.

(** ** Claims *)
Section Claims.
Context `{BS : ByteStream Conn} `{Ad : Adapter} `{AdL : !AdapterLaws Ad}.
Context `{EnvCbor : Cbor OtkEnvelope} `{CborEvent : Cbor OtkEvent} `{CborHeartbeat : Cbor Heartbeat}.
Context `{CborConnect : Cbor Connect} `{CborAck : Cbor ConnectAck} `{CborReject : Cbor ConnectReject}.

(** C32: the session metrics of a node are exact: with the configured
    identifiers unique and no more of them than the cap, after any run of the
    listeners (connections, failed and timed-out handshakes, sessions ending
    in any way, shutdown, drain time-outs, aborts) the gauge of every listener
    shows the number of its sessions whose guard is not dropped, its counter
    the number of sessions accepted, and nothing overflowed.  So the gauge is
    back at zero when the sessions are gone, however they went. *)
Theorem session_gauge_exact ids ops (ls : list (Listener (Conn := Conn))) :
  ids_accepted ids = true -> (length ids <= MAX_SERIES_PER_METRIC)%nat ->
  node_steps (start_listener <$> ids) ops ls ->
  let m := after_ops ops in
  listener_id <$> ls = ids /\
  overflow (ingest_sessions_active m) = 0%Z /\ overflow (ingest_sessions_total m) = 0%Z /\
  forall l, l ∈ ls ->
    shown (ingest_sessions_active m) (listener_id l) = wrap_i64 (Z.of_nat (live l)) /\
    shown (ingest_sessions_total m) (listener_id l) = wrap_u64 (total (op_start (listener_id l)) ops).
Proof.
  intros Hids Hcap Hs m. apply ids_accepted_spec in Hids.
  assert (Hstart : listener_id <$> (start_listener (Conn := Conn) <$> ids) = ids).
  { rewrite <- list_fmap_compose. apply list_fmap_id. }
  destruct (steps_live _ _ _ Hs) as (Hid & Hops & Hlive); [by rewrite Hstart|]. rewrite Hstart in Hid, Hops.
  destruct (updates_keys ids ops Hops) as [Hk1 Hk2].
  assert (Hlen : (length (listener_key <$> ids) <= MAX_SERIES_PER_METRIC)%nat) by by rewrite length_fmap.
  destruct (accounts_below_cap _ _ _ _ eq_refl (after_ops_active ops) Hk1 Hlen) as [Ho1 Hv1].
  destruct (accounts_below_cap _ _ _ _ eq_refl (after_ops_total ops) Hk2 Hlen) as [Ho2 Hv2].
  split; [exact Hid|]. split; [exact Ho1|]. split; [exact Ho2|].
  intros l [i Hi]%list_elem_of_lookup. unfold shown. rewrite Hv1, Hv2, sum_active, sum_total. split; [|done]. f_equal.
  assert (Hi0 : ids !! i = Some (listener_id l)) by by rewrite <- Hid, list_lookup_fmap, Hi.
  rewrite (Hlive i (start_listener (listener_id l)) l); [done| |exact Hi]. by rewrite list_lookup_fmap, Hi0.
Qed.

(** a connection in its handshake does not survive the end of another
    session: the loop reaps the finished session's task in another arm of the
    same [select!], which drops the [accept] in progress with the connection
    in it.  Of two producers whose handshakes are accepted, the second is
    disconnected without an answer, the listener is back in its initial
    state, and nothing was counted for it; had the handshake finished first,
    it would have had its session. *)
Theorem reap_drops_handshake id fuel max auth s1 p1 s2 p2 (x1 x2 : IngestSession Conn) s1' s2' :
  handshake fuel s1 p1 max auth = Some (Ok x1, s1') -> handshake fuel s2 p2 max auth = Some (Ok x2, s2') ->
  exists lh : Listener, accept lh = Handshaking s2 p2 /\
    node_steps [start_listener id] [SessionStarted id; SessionEnded id] [lh] /\
    node_steps [lh] [] [start_listener id] /\
    exists l2, node_steps [lh] [SessionStarted id] [l2] /\ tasks l2 = [Finished; Running x2].
Proof.
  intros H1 H2.
  set (l1 := with_accept (Handshaking s1 p1) (start_listener id)).
  set (lr := {| listener_id := id; phase := Accepting; accept := Waiting; tasks := [Running x1] |}).
  set (l2 := with_accept (Handshaking s2 p2) lr).
  set (lh := with_tasks [Finished] l2).
  assert (F : forall s p (x : IngestSession Conn) s', handshake fuel s p max auth = Some (Ok x, s') ->
    finish_accept fuel false s p max auth = Some (Ok x)) by (intros ? ? ? ? H; unfold finish_accept; by rewrite H).
  exists lh. split; [done|]. split; [|split].
  - apply (node_more _ [SessionStarted id] [l2] 0 l2 [SessionEnded id] lh false false); [|done|by apply (step_session_over false false l2 0 x1)].
    apply (node_more _ [SessionStarted id] [lr] 0 lr [] l2 false false); [|done|by apply step_connected].
    apply (node_more _ [] [l1] 0 l1 [SessionStarted id] lr false false); [|done|].
    + apply (node_more _ [] [start_listener id] 0 (start_listener id) [] l1 false false); [constructor|done|by apply step_connected].
    + exact (step_accepted false false l1 Ad AdL s1 p1 fuel false max auth (Ok x1) eq_refl eq_refl (F _ _ _ _ H1)).
  - apply (node_more _ [] [lh] 0 lh [] (start_listener id) false false); [constructor|done|].
    exact (step_reap false false lh 0 eq_refl eq_refl).
  - set (lf := {| listener_id := id; phase := Accepting; accept := Waiting; tasks := [Finished; Running x2] |}).
    exists lf. split; [|done].
    apply (node_more _ [] [lh] 0 lh [SessionStarted id] lf false false); [constructor|done|].
    exact (step_accepted false false lh Ad AdL s2 p2 fuel false max auth (Ok x2) eq_refl eq_refl (F _ _ _ _ H2)).
Qed.
End Claims.

Abbreviation sample_node_steps ls ops ls' :=
  (@node_steps Wire wire_stream sample_wire_cbor sample_connect_cbor sample_ack_cbor sample_reject_cbor
     ls ops ls').

(** One session of two listeners is running. *)
Lemma session_gauge_exact_witness :
  exists x l1 l2, sample_node_steps (start_listener <$> ["tcp"; "unix"]) [SessionStarted "tcp"] [l1; l2] /\
    tasks l1 = [Running x] /\
    shown (ingest_sessions_active (after_ops [SessionStarted "tcp"])) "tcp" = wrap_i64 (Z.of_nat (live l1)) /\
    shown (ingest_sessions_active (after_ops [SessionStarted "tcp"])) "unix" = wrap_i64 (Z.of_nat (live l2)).
Proof.
  assert (Hh : exists x s', sample_handshake sample_conn = Some (Ok x, s')) by (vm_compute; do 2 eexists; reflexivity).
  destruct Hh as (x & s' & Hh).
  set (l0 := start_listener "tcp" : Listener (Conn := Wire)).
  set (l1 := with_accept (Handshaking sample_conn "peer") l0).
  set (l2 := {| listener_id := "tcp"; phase := Accepting; accept := Waiting; tasks := [Running x] |}).
  assert (Hf : @finish_accept Wire wire_stream TcpAdapter sample_wire_cbor sample_connect_cbor sample_ack_cbor
    sample_reject_cbor 50 false sample_conn "peer" 64 token_t = Some (Ok x)) by (unfold finish_accept; by rewrite Hh).
  assert (Hs : sample_node_steps (start_listener <$> ["tcp"; "unix"]) [SessionStarted "tcp"] [l2; start_listener "unix"]).
  { apply (node_more _ [] [l1; start_listener "unix"] 0 l1 [SessionStarted "tcp"] l2 false false); [|done|].
    - apply (node_more _ [] [l0; start_listener "unix"] 0 l0 [] l1 false false); [constructor|done|by apply step_connected].
    - exact (step_accepted false false l1 TcpAdapter tcp_laws sample_conn "peer" 50 false 64 token_t (Ok x) eq_refl eq_refl Hf). }
  exists x, l2, (start_listener "unix"). split; [exact Hs|]. split; [done|].
  destruct (@session_gauge_exact Wire wire_stream sample_wire_cbor sample_connect_cbor sample_ack_cbor
    sample_reject_cbor ["tcp"; "unix"] _ _ eq_refl ltac:(vm_compute; lia) Hs) as (_ & _ & _ & H).
  split; [apply (H l2); by left|apply (H (start_listener "unix")); right; by left].
Defined.

Lemma reap_drops_handshake_witness :
  exists lh : Listener (Conn := Wire), accept lh = Handshaking sample_conn "late" /\
    sample_node_steps [start_listener "tcp"] [SessionStarted "tcp"; SessionEnded "tcp"] [lh] /\
    sample_node_steps [lh] [] [start_listener "tcp"].
Proof.
  assert (H1 : exists x s', sample_handshake sample_conn = Some (Ok x, s')) by (vm_compute; do 2 eexists; reflexivity).
  assert (H2 : exists x s', @handshake Wire wire_stream TcpAdapter sample_wire_cbor sample_connect_cbor sample_ack_cbor
     sample_reject_cbor 50 sample_conn "late" 64 token_t = Some (Ok x, s')) by (vm_compute; do 2 eexists; reflexivity).
  destruct H1 as (x1 & s1 & H1), H2 as (x2 & s2 & H2).
  destruct (@reap_drops_handshake Wire wire_stream TcpAdapter tcp_laws sample_wire_cbor sample_connect_cbor sample_ack_cbor
    sample_reject_cbor "tcp" _ _ _ _ _ _ _ _ _ _ _ H1 H2) as (lh & Ha & Hb & Hc & _).
  by exists lh.
Defined.
