(* ===== verification/NodeConfig.v ===== *)
(** Configuration of the node and its hot reload (crate [timing-node],
    [config.rs] and [reload.rs]).

    Reading and parsing the file is third-party code: a load is the result of
    [load_from_file] at that moment.  A path is the list of its components,
    which is what [Path]'s equality compares.  The watcher is a function of
    what the debouncer reports at each tick.

    [reload_in_sync] is the correctness of the reload, [relative_path_never_reloads]
    and [listener_change_unreported] are where it falls short. *)
From stdpp Require Import base gmap strings option numbers pretty sorting list.
From Stdlib Require Import Strings.Byte.
From S2P Require Import Prelude EventModel WireProtocol IngestProtocol Auth.

Definition Path : Type := list string.

Record SocketAddr := { addr_ip : string; addr_port : N }.

#[export] Instance SocketAddr_eq_dec : EqDecision SocketAddr.
Proof. solve_decision. Defined.

Record TlsListenerConfig := {
  cert_chain : Path;
  private_key : Path;
  client_ca : option Path
}.

Inductive ListenerConfig :=
  | TcpListener (id : string) (bind_addr : SocketAddr) (max_frame_bytes : N) (tls : option TlsListenerConfig)
  | UnixSocketListener (id : string) (socket_path : Path) (max_frame_bytes : N)
      (socket_permissions : option N) (force_rebind : bool).

Definition default_tcp_id : string := "tcp-main".
Definition default_unix_id : string := "unix-main".
Definition default_max_frame_bytes : N := 65535.

Record AuthConfig := { auth_producer_tokens : list string; auth_api_tokens : list string }.
Record ApiConfig := { allowed_origins : list string }.

Record NodeConfig := {
  node_id : string;
  listeners : list ListenerConfig;
  api_addr : SocketAddr;
  storage_dir : Path;
  auth : AuthConfig;
  api : ApiConfig
}.

Definition config_default : NodeConfig := {|
  node_id := "otk-node";
  listeners := [TcpListener default_tcp_id {| addr_ip := "0.0.0.0"; addr_port := 8463 |} default_max_frame_bytes None];
  api_addr := {| addr_ip := "0.0.0.0"; addr_port := 8080 |};
  storage_dir := ["data"];
  auth := {| auth_producer_tokens := []; auth_api_tokens := [] |};
  api := {| allowed_origins := [] |}
|}.

(** [AuthState::new] on the lists of a configuration. *)
Definition auth_of (c : NodeConfig) : AuthState :=
  {| producer_tokens := auth_producer_tokens (auth c); api_tokens := auth_api_tokens (auth c) |}.

(** ** Hot reload *)

(** The warnings about what a reload cannot change. *)
Inductive RestartWarning :=
  | NodeIdChanged (previous current : string)
  | StorageDirChanged (previous current : Path)
  | ApiAddrChanged (previous current : SocketAddr)
  | ListenerCountChanged (previous_count current_count : nat)
  | OriginsChanged (previous current : list string).

Definition warn_if (changed : bool) (w : RestartWarning) : list RestartWarning := if changed then [w] else [].

Definition restart_warnings (prev new_cfg : NodeConfig) : list RestartWarning :=
  warn_if (negb (bool_decide (node_id new_cfg = node_id prev))) (NodeIdChanged (node_id prev) (node_id new_cfg)) ++
  warn_if (negb (bool_decide (storage_dir new_cfg = storage_dir prev)))
    (StorageDirChanged (storage_dir prev) (storage_dir new_cfg)) ++
  warn_if (negb (bool_decide (api_addr new_cfg = api_addr prev))) (ApiAddrChanged (api_addr prev) (api_addr new_cfg)) ++
  warn_if (negb (length (listeners new_cfg) =? length (listeners prev))%nat)
    (ListenerCountChanged (length (listeners prev)) (length (listeners new_cfg))) ++
  warn_if (negb (bool_decide (allowed_origins (api new_cfg) = allowed_origins (api prev))))
    (OriginsChanged (allowed_origins (api prev)) (allowed_origins (api new_cfg))).

(** [loaded] is what [load_from_file] gives. *)
Definition try_apply_reload (loaded : result NodeConfig string) (st : AuthState) (prev : NodeConfig)
  : result NodeConfig string * AuthState * list RestartWarning :=
  match loaded with
  | Err e => (Err e, st, [])
  | Ok new_cfg =>
      let st := if bool_decide (auth_producer_tokens (auth new_cfg) = auth_producer_tokens (auth prev)) then st
                else snd (set_producer_tokens (auth_producer_tokens (auth new_cfg)) st) in
      let st := if bool_decide (auth_api_tokens (auth new_cfg) = auth_api_tokens (auth prev)) then st
                else snd (set_api_tokens (auth_api_tokens (auth new_cfg)) st) in
      (Ok new_cfg, st, restart_warnings prev new_cfg)
  end.

(** The directory the watcher is put on. *)
Definition watch_target (config_path : Path) : Path :=
  match removelast config_path with [] => ["."] | parent => parent end.

(** One tick of the poll: what the debouncer has reported since the last one,
    and what loading the file gives. *)
Record WatchTick := {
  reported : list (result (list Path) string);
  loaded : result NodeConfig string
}.

Definition concerns (config_path : Path) (events : result (list Path) string) : bool :=
  match events with
  | Ok paths => existsb (fun p => bool_decide (p = config_path)) paths
  | Err _ => false
  end.

Definition watch_tick (config_path : Path) (t : WatchTick) (s : AuthState * NodeConfig) : AuthState * NodeConfig :=
  let (st, last) := s in
  if existsb (concerns config_path) (reported t) then
    match try_apply_reload (loaded t) st last with
    | (Ok new_cfg, st, _) => (st, new_cfg)
    | (Err _, st, _) => (st, last)
    end
  else (st, last).

Inductive WatcherEnd := WatcherReturned | WatcherLooping.

(** The watcher's task: it returns at once when the debouncer cannot be made
    or the directory cannot be watched, else it loops until the shutdown. *)
Definition spawn_config_watcher (new_debouncer watch : result unit string) (config_path : Path)
    (ticks : list WatchTick) (st : AuthState) (initial : NodeConfig) : AuthState * NodeConfig * WatcherEnd :=
  match new_debouncer, watch with
  | Err _, _ | _, Err _ => (st, initial, WatcherReturned)
  | Ok _, Ok _ =>
      let (st, last) := fold_left (fun s t => watch_tick config_path t s) ticks (st, initial) in
      (st, last, WatcherLooping)
  end.

(** ** Lemmas *)
Lemma reload_ok new_cfg prev :
  try_apply_reload (Ok new_cfg) (auth_of prev) prev = (Ok new_cfg, auth_of new_cfg, restart_warnings prev new_cfg).
Proof.
  unfold try_apply_reload, auth_of. do 2 f_equal.
  case_bool_decide as H1; case_bool_decide as H2; simpl; by rewrite ?H1, ?H2.
Qed.

Lemma tick_in_sync config_path t last :
  watch_tick config_path t (auth_of last, last) =
    let next := match loaded t with
                | Ok new_cfg => if existsb (concerns config_path) (reported t) then new_cfg else last
                | Err _ => last
                end in (auth_of next, next).
Proof.
  unfold watch_tick. destruct (existsb _ _); [|by destruct (loaded t)].
  destruct (loaded t) as [new_cfg|e]; [|done]. by rewrite reload_ok.
Qed.

(** The configurations the watcher loads, in order. *)
Definition loads (config_path : Path) (ticks : list WatchTick) : list NodeConfig :=
  omap (fun t => match loaded t with
                 | Ok c => if existsb (concerns config_path) (reported t) then Some c else None
                 | Err _ => None
                 end) ticks.

Lemma last_default {A} (l : list A) d d' : l <> [] -> List.last l d = List.last l d'.
Proof. induction l as [|x [|y l] IH]; intros H; [done|done|]. by apply IH. Qed.

Lemma ticks_in_sync config_path ticks initial :
  fold_left (fun s t => watch_tick config_path t s) ticks (auth_of initial, initial) =
    let current := List.last (loads config_path ticks) initial in (auth_of current, current).
Proof.
  revert initial. induction ticks as [|t ticks IH]; intros initial; [done|].
  cbn [fold_left]. rewrite tick_in_sync. unfold loads. cbn [omap list_omap]. fold (loads config_path ticks).
  destruct (loaded t) as [c|e]; [|apply IH]. destruct (existsb _ _); [|apply IH].
  cbn zeta. rewrite IH. destruct (loads config_path ticks) as [|c' cs] eqn:E; [done|].
  change (List.last (c :: c' :: cs) initial) with (List.last (c' :: cs) initial).
  by rewrite (last_default (c' :: cs) c initial).
Qed.

(** ** Claims *)

(** C37: the tokens in force are always those of the last configuration that
    loaded: whatever the debouncer reports and however often the file is
    missing or malformed in between, after any ticks the allow-lists are
    exactly those of the last successful load of the watched file (of the
    initial configuration before any), and the difference base of the next
    reload is that configuration.  A watcher that could not be started leaves
    everything as it was. *)
Theorem reload_in_sync new_debouncer watch config_path ticks initial :
  let '(st, last, ending) := spawn_config_watcher new_debouncer watch config_path ticks (auth_of initial) initial in
  st = auth_of last /\
  match new_debouncer, watch with
  | Ok _, Ok _ => last = List.last (loads config_path ticks) initial /\ ending = WatcherLooping
  | _, _ => last = initial /\ ending = WatcherReturned
  end.
Proof.
  unfold spawn_config_watcher. destruct new_debouncer; [|done]. destruct watch; [|done].
  by rewrite ticks_in_sync.
Qed.

(** the watcher compares reported paths with the path it was given, not
    with the file: when the debouncer reports absolute paths, as the
    operating-system watchers do, and the node was started with a relative
    path, no edit is ever applied. *)
Theorem relative_path_never_reloads new_debouncer watch config_path ticks st initial :
  head config_path <> Some "/" ->
  (forall t paths p, t ∈ ticks -> Ok paths ∈ reported t -> p ∈ paths -> head p = Some "/") ->
  (spawn_config_watcher new_debouncer watch config_path ticks st initial).1 = (st, initial).
Proof.
  intros Hrel Habs. unfold spawn_config_watcher. destruct new_debouncer; [|done]. destruct watch; [|done].
  assert (H : fold_left (fun s t => watch_tick config_path t s) ticks (st, initial) = (st, initial)); [|by rewrite H].
  induction ticks as [|t ticks IH]; [done|]. cbn [fold_left].
  assert (Ht : watch_tick config_path t (st, initial) = (st, initial)).
  { unfold watch_tick. destruct (existsb _ _) eqn:E; [|done]. exfalso.
    apply existsb_exists in E as (evs & Hin & He). apply list_elem_of_In in Hin. destruct evs as [paths|]; [|done].
    simpl in He. apply existsb_exists in He as (p & Hp & ->%bool_decide_eq_true_1). apply list_elem_of_In in Hp.
    apply Hrel. eapply Habs; [by left|exact Hin|exact Hp]. }
  rewrite Ht. apply IH. intros t' paths p Hin. apply Habs. by right.
Qed.

(** An edit of a file watched as [otk-node.toml] in [/srv]. *)
Definition edited (c : NodeConfig) (p : Path) : WatchTick := {| reported := [Ok [p]]; loaded := Ok c |}.

Definition rotated : NodeConfig := {|
  node_id := node_id config_default; listeners := listeners config_default; api_addr := api_addr config_default;
  storage_dir := storage_dir config_default;
  auth := {| auth_producer_tokens := ["new"]; auth_api_tokens := [] |}; api := api config_default |}.

Lemma relative_path_never_reloads_witness :
  let ticks := [edited rotated ["/"; "srv"; "otk-node.toml"]] in
  (spawn_config_watcher (Ok tt) (Ok tt) ["otk-node.toml"] ticks (auth_of config_default) config_default).1 =
    (auth_of config_default, config_default) /\
  (spawn_config_watcher (Ok tt) (Ok tt) ["/"; "srv"; "otk-node.toml"] ticks (auth_of config_default) config_default).1 =
    (auth_of rotated, rotated).
Proof.
  split; [|reflexivity]. apply relative_path_never_reloads; [done|].
  intros t paths p ->%list_elem_of_singleton Hp Hin. simpl in Hp.
  apply list_elem_of_singleton in Hp as [= ->]. by apply list_elem_of_singleton in Hin as ->.
Defined.

(** a reload warns of a changed node identifier, storage directory, API
    address, number of listeners and list of origins, each exactly when it
    differs; any other change of the listeners (an address, a limit, TLS, a
    socket path) is taken as the new base without a warning. *)
Theorem listener_change_unreported prev new_cfg st :
  let '(r, _, warnings) := try_apply_reload (Ok new_cfg) st prev in
  r = Ok new_cfg /\
  (warnings = [] <-> node_id new_cfg = node_id prev /\ storage_dir new_cfg = storage_dir prev /\
    api_addr new_cfg = api_addr prev /\ length (listeners new_cfg) = length (listeners prev) /\
    allowed_origins (api new_cfg) = allowed_origins (api prev)) /\
  forall ls, length ls = length (listeners new_cfg) ->
    let other := {| node_id := node_id new_cfg; listeners := ls; api_addr := api_addr new_cfg;
                    storage_dir := storage_dir new_cfg; auth := auth new_cfg; api := api new_cfg |} in
    (try_apply_reload (Ok other) st prev).2 = warnings.
Proof.
  simpl. split; [done|]. split.
  - unfold restart_warnings. repeat case_bool_decide; destruct (Nat.eqb_spec (length (listeners new_cfg)) (length (listeners prev)));
      simpl; (split; [intros E; first [discriminate|done] | intros (?&?&?&?&?); congruence]).
  - intros ls Hl. unfold restart_warnings. simpl. rewrite Hl. do 4 f_equal.
Qed.

(** The address of the only listener is edited, and nothing is said. *)
Lemma listener_change_unreported_witness :
  let moved := {| node_id := node_id config_default;
                  listeners := [TcpListener "tcp-main" {| addr_ip := "10.0.0.1"; addr_port := 9999 |} 1 None];
                  api_addr := api_addr config_default; storage_dir := storage_dir config_default;
                  auth := auth config_default; api := api config_default |} in
  (try_apply_reload (Ok moved) (auth_of config_default) config_default).2 = [].
Proof.
  destruct (listener_change_unreported config_default config_default (auth_of config_default)) as (_ & _ & H).
  apply (H [TcpListener "tcp-main" {| addr_ip := "10.0.0.1"; addr_port := 9999 |} 1 None]). reflexivity.
Defined.
