(* ===== verification/NodeSupervisor.v ===== *)
(** The composition root of the node (crate [timing-node], [lib.rs] and
    [main.rs]): building a node from its configuration, the tasks it runs,
    and the supervision that turns their ends into the process's exit code.

    The system's answers (binding a socket, opening the log, reading the
    configuration) are parameters.  The supervisor is a function of what ended
    the wait, the joins the drain saw in order, and whether the drain finished
    in time; [NodeProcess] runs it with its tasks.

    [node_new_resumes]: a node that is built has the tokens of its
    configuration, unique listeners, and a gate that resumes its log.
    [exit_status]: the supervisor reports the first failure.
    [failed_watcher_stops_node]: a watcher that cannot start stops the node. *)
From stdpp Require Import base gmap strings option numbers pretty sorting list.
From Stdlib Require Import Strings.Byte.
From S2P Require Import Prelude EventModel WireProtocol IngestProtocol Auth EventLogPort SequenceGate CrossingProcessor IngestService NodeListener NodeConfig.
From S2P Require SocketBind MemLog.

Inductive BoundListenerAddr := BoundTcp (a : SocketAddr) | BoundUnixSocket (p : Path).

Record BoundIngestListener := { bl_id : string; bl_addr : BoundListenerAddr; bl_max_frame_bytes : N }.

Definition config_listener_id (l : ListenerConfig) : string :=
  match l with TcpListener id _ _ _ => id | UnixSocketListener id _ _ _ _ => id end.

(** Seconds. *)
Definition HANDSHAKE_TIMEOUT : N := 5.

Inductive InitError :=
  | LoadFailed (e : string)
  | NoListeners
  | DuplicateListenerId (id : string) (first index : nat)
  | BindFailed (e : SocketBind.ErrorKind)
  | ApiBindFailed (e : SocketBind.ErrorKind)
  | LogFailed (e : StorageError).

Section Node.
Context `{EL : EventLog L}.
Variable bind_tcp : SocketAddr -> option TlsListenerConfig -> result SocketAddr SocketBind.ErrorKind.
Variable bind_unix : Path -> SocketBind.UnixConfig -> result unit SocketBind.ErrorKind.
Variable bind_api : SocketAddr -> result SocketAddr SocketBind.ErrorKind.
Variable open_log : Path -> result L StorageError.
Variable load_from_file : Path -> result NodeConfig string.

Definition bind_listener (l : ListenerConfig) : result BoundIngestListener InitError :=
  match l with
  | TcpListener id bind_addr max_frame_bytes tls =>
      let? a := map_err BindFailed
        (let? _ := SocketBind.check_config max_frame_bytes HANDSHAKE_TIMEOUT in bind_tcp bind_addr tls) in
      Ok {| bl_id := id; bl_addr := BoundTcp a; bl_max_frame_bytes := max_frame_bytes |}
  | UnixSocketListener id socket_path max_frame_bytes socket_permissions force_rebind =>
      let? _ := map_err BindFailed (bind_unix socket_path
        {| SocketBind.max_frame_bytes := max_frame_bytes; SocketBind.handshake_timeout := HANDSHAKE_TIMEOUT;
           SocketBind.force_rebind := force_rebind; SocketBind.socket_permissions := socket_permissions |}) in
      Ok {| bl_id := id; bl_addr := BoundUnixSocket socket_path; bl_max_frame_bytes := max_frame_bytes |}
  end.

Fixpoint bind_listeners (ls : list ListenerConfig) : result (list BoundIngestListener) InitError :=
  match ls with
  | [] => Ok []
  | l :: ls =>
      let? b := bind_listener l in
      let? bs := bind_listeners ls in
      Ok (b :: bs)
  end.

Record Node := {
  ingest : list BoundIngestListener;
  api_listener : SocketAddr;
  service : EventIngestService L;
  node_auth : AuthState;
  node_allowed_origins : list string;
  node_name : string;
  config_path : option Path;
  initial_config : NodeConfig
}.

Definition node_new_inner (config : NodeConfig) (path : option Path) : result Node InitError :=
  if bool_decide (listeners config = []) then Err NoListeners else
  match duplicate_id ∅ 0 (config_listener_id <$> listeners config) with
  | Some (id, first, index) => Err (DuplicateListenerId id first index)
  | None =>
      let auth_state := auth_of config in
      let? bound := bind_listeners (listeners config) in
      let? api := map_err ApiBindFailed (bind_api (api_addr config)) in
      let? log := map_err LogFailed (open_log (storage_dir config)) in
      match seed_from_log gate_new log with
      | (Err e, _, _) => Err (LogFailed e)
      | (Ok _, gate, log) =>
          Ok {| ingest := bound; api_listener := api; service := service_new log default_config gate;
                node_auth := auth_state; node_allowed_origins := allowed_origins (NodeConfig.api config);
                node_name := node_id config; config_path := path; initial_config := config |}
      end
  end.

(** [Node::new]: without a file there is no hot reload. *)
Definition node_new (config : NodeConfig) : result Node InitError := node_new_inner config None.

Definition from_config_path (path : Path) : result Node InitError :=
  let? cfg := map_err LoadFailed (load_from_file path) in node_new_inner cfg (Some path).

(** *** Bound addresses *)
Definition tcp_addr_of (b : BoundListenerAddr) : option SocketAddr :=
  match b with BoundTcp a => Some a | BoundUnixSocket _ => None end.

Definition find_listener (id : string) (n : Node) : option BoundIngestListener :=
  List.find (fun l => String.eqb (bl_id l) id) (ingest n).

(** [None] is the panic. *)
Definition local_addr (n : Node) : option SocketAddr :=
  head (omap (fun l => tcp_addr_of (bl_addr l)) (ingest n)).

Definition listener_tcp_addr (id : string) (n : Node) : option SocketAddr :=
  let! l := find_listener id n in tcp_addr_of (bl_addr l).

Definition listener_unix_path (id : string) (n : Node) : option Path :=
  let! l := find_listener id n in
  match bl_addr l with BoundUnixSocket p => Some p | BoundTcp _ => None end.

(** *** The tasks *)
Inductive NodeTask := ListenerTask (l : BoundIngestListener) | WatcherTask (path : Path) | ApiTask.

(** The ingest tasks, the watcher among them, and the API task, by the names
    the supervisor gives them. *)
Definition spawn_tasks (n : Node) : list (string * NodeTask) :=
  imap (fun i t => ("ingest[" +:+ pretty (N.of_nat i) +:+ "]", t))
    ((ListenerTask <$> ingest n) ++ match config_path n with Some p => [WatcherTask p] | None => [] end) ++
  [("api", ApiTask)].
End Node.

(** ** Supervision *)

(** A panic's payload, as far as it can be read. *)
Inductive Payload := PayloadStr (s : string) | PayloadString (s : string) | PayloadOther.

Inductive JoinError := JoinPanic (p : Payload) | JoinCancelled (display : string).

Definition is_cancelled (e : JoinError) : bool := match e with JoinCancelled _ => true | JoinPanic _ => false end.
Definition is_panic (e : JoinError) : bool := match e with JoinPanic _ => true | JoinCancelled _ => false end.

Definition join_error_cause (e : JoinError) : string :=
  match e with
  | JoinPanic (PayloadStr s) | JoinPanic (PayloadString s) => s
  | JoinPanic PayloadOther => "panic payload not a string"
  | JoinCancelled display => display
  end.

(** What the set of monitors yields: the end of a task under its name, or of
    the monitor itself. *)
Definition Joined : Type := result (string * result unit JoinError) JoinError.

Inductive ShutdownError :=
  | TaskPanicked (name cause : string)
  | TaskFailed (name cause : string)
  | TaskExitedEarly (name : string)
  | MonitorPanicked (cause : string)
  | DrainTimedOut (deadline_secs : N).

Definition SHUTDOWN_DEADLINE : N := 10.

Inductive Level := WARN | ERROR.

Definition classify_unexpected_exit (joined : Joined) : Level * ShutdownError :=
  match joined with
  | Ok (name, Ok _) => (WARN, TaskExitedEarly name)
  | Ok (name, Err e) =>
      if is_panic e then (ERROR, TaskPanicked name (join_error_cause e))
      else (ERROR, TaskFailed name (join_error_cause e))
  | Err e => (ERROR, MonitorPanicked (join_error_cause e))
  end.

(** [Option::get_or_insert]. *)
Definition get_or_insert {A} (first : option A) (a : A) : option A :=
  match first with Some _ => first | None => Some a end.

(** One join of the drain. *)
Definition drain_join (first_failure : option ShutdownError) (joined : Joined) : option ShutdownError :=
  match joined with
  | Ok (_, Ok _) => first_failure
  | Ok (name, Err e) =>
      if is_cancelled e then first_failure
      else if is_panic e then get_or_insert first_failure (TaskPanicked name (join_error_cause e))
      else get_or_insert first_failure (TaskFailed name (join_error_cause e))
  | Err e => get_or_insert first_failure (MonitorPanicked (join_error_cause e))
  end.

(** What ended the wait. *)
Inductive Wakeup := CtrlC | TaskExit (joined : Joined).

Definition run_until_shutdown (wakeup : Wakeup) (drained : list Joined) (in_time : bool) : result unit ShutdownError :=
  let first_failure := match wakeup with
                       | CtrlC => None
                       | TaskExit joined => get_or_insert None (snd (classify_unexpected_exit joined))
                       end in
  let first_failure := fold_left drain_join drained first_failure in
  let first_failure := if in_time then first_failure
                       else get_or_insert first_failure (DrainTimedOut SHUTDOWN_DEADLINE) in
  match first_failure with None => Ok tt | Some e => Err e end.

(** [run] and [run_from_config_path]: the exit code of the process. *)
Definition exit_code {A} (built : result A InitError) (outcome : A -> result unit ShutdownError) : N :=
  match built with
  | Err _ => 1
  | Ok n => match outcome n with Ok _ => 0 | Err _ => 1 end
  end.

(** ** The command line *)
Inductive ConfigSource := SourceDefault | SourceFile (path : string).

(** The source of the configuration, or the exit code. *)
Definition parse_config_source (args : list string) : ConfigSource + N :=
  match args with
  | [] => inl SourceDefault
  | arg :: rest =>
      if bool_decide (arg = "-h") || bool_decide (arg = "--help") then inr 0%N
      else if bool_decide (arg = "-V") || bool_decide (arg = "--version") then inr 0%N
      else if bool_decide (arg = "-c") || bool_decide (arg = "--config") then
        match rest with path :: _ => inl (SourceFile path) | [] => inr 1%N end
      else inr 1%N
  end.

(** Whatever follows the path is ignored. *)
Example trailing_arguments : parse_config_source ["-c"; "otk.toml"; "--bogus"] = inl (SourceFile "otk.toml").
Proof. reflexivity. Qed.

(** ** Lemmas *)
Definition join_failed (j : Joined) : bool :=
  match j with Ok (_, Ok _) => false | Ok (_, Err e) => is_panic e | Err _ => true end.

Lemma drain_join_some e j : drain_join (Some e) j = Some e.
Proof. destruct j as [[name [u|je]]|je]; simpl; [done| |done]. by destruct je. Qed.

Lemma drain_some e js : fold_left drain_join js (Some e) = Some e.
Proof. induction js as [|j js IH]; [done|]. simpl. by rewrite drain_join_some. Qed.

Lemma drain_none js : fold_left drain_join js None = None <-> Forall (fun j => join_failed j = false) js.
Proof.
  induction js as [|j js IH]; simpl; [by split; [constructor|]|]. rewrite List.Forall_cons_iff, <- IH.
  destruct j as [[name [u|[p|d]]]|e]; simpl; rewrite ?drain_some; naive_solver.
Qed.

(** ** Claims *)
Section NodeClaims.
Context `{EL : EventLog L} `{!EventLogLaws L}.
Variable bind_tcp : SocketAddr -> option TlsListenerConfig -> result SocketAddr SocketBind.ErrorKind.
Variable bind_unix : Path -> SocketBind.UnixConfig -> result unit SocketBind.ErrorKind.
Variable bind_api : SocketAddr -> result SocketAddr SocketBind.ErrorKind.
Variable open_log : Path -> result L StorageError.

Lemma bind_listeners_ids ls bs :
  bind_listeners bind_tcp bind_unix ls = Ok bs ->
  bl_id <$> bs = config_listener_id <$> ls /\
  Forall2 (fun l b => bind_listener bind_tcp bind_unix l = Ok b) ls bs.
Proof.
  revert bs. induction ls as [|l ls IH]; intros bs; simpl; [intros [= <-]; by split|].
  destruct (bind_listener _ _ l) as [b|e] eqn:E; [|done]. destruct (bind_listeners _ _ ls) as [bs'|e]; [|done].
  intros [= <-]. destruct (IH bs' eq_refl) as [H1 H2]. split; [|by constructor]. simpl. f_equal; [|done].
  destruct l; simpl in E; revert E.
  - destruct (SocketBind.check_config _ _); [|done]. simpl. destruct (bind_tcp _ _); simpl; [by intros [= <-]|done].
  - destruct (bind_unix _ _); simpl; [by intros [= <-]|done].
Qed.

(** C38: a node that is built: it has at least one listener, each of the
    configuration bound under its own identifier, in order; the tokens in
    force are those of the configuration; and its service continues the log
    that was opened, with a gate that holds the mark of every retained
    detection.  So no node runs without a listener or with a repeated
    identifier. *)
Theorem node_new_resumes sure config path n l0 h k :
  node_new_inner bind_tcp bind_unix bind_api open_log config path = Ok n ->
  open_log (storage_dir config) = Ok l0 -> log_rep sure l0 h k ->
  ingest n <> [] /\ NoDup (bl_id <$> ingest n) /\
  Forall2 (fun l b => bind_listener bind_tcp bind_unix l = Ok b) (listeners config) (ingest n) /\
  node_auth n = auth_of config /\ config_path n = path /\ initial_config n = config /\
  log_rep sure (svc_log (service n)) h k /\
  svc_gate (service n) = commit_all (history_detections (drop (N.to_nat k) h)) gate_new /\
  forall l b id, l ∈ listeners config -> config_listener_id l = id ->
    bind_listener bind_tcp bind_unix l = Ok b -> find_listener id n = Some b.
Proof.
  unfold node_new_inner. case_bool_decide as Hne; [done|].
  destruct (duplicate_id _ _ _) as [[[? ?] ?]|] eqn:Hd; [done|].
  destruct (bind_listeners _ _ _) as [bound|] eqn:Hb; [|done].
  destruct (bind_api _) as [a|]; [|done]. simpl. destruct (open_log _) as [log|] eqn:Hl; [|done]. simpl.
  destruct (seed_from_log gate_new log) as [[[c|e] g] l1] eqn:Hs; [|done]. intros [= <-] [= ->] Hrep. simpl.
  destruct (bind_listeners_ids _ _ Hb) as [Hids Hf]. apply duplicate_id_spec in Hd as [Hnd _].
  split.
  { intros ->. apply Hne. by destruct (listeners config). }
  rewrite Hids. split; [exact Hnd|]. split; [exact Hf|]. do 3 (split; [done|]).
  destruct (seed_restores_gate _ _ _ _ _ _ _ Hrep Hs) as (Hrep1 & _ & Hg). split; [exact Hrep1|]. split; [exact Hg|].
  intros l b id Hin Hid Hbl. unfold find_listener. simpl. clear -Hids Hf Hnd Hin Hid Hbl.
  induction Hf as [|l' b' ls bs Hl' Hf IH]; [by apply not_elem_of_nil in Hin|].
  simpl in Hids, Hnd |- *. injection Hids as Hi Hids. apply NoDup_cons in Hnd as [Hni Hnd].
  apply elem_of_cons in Hin as [->|Hin].
  - rewrite Hi, Hid, String.eqb_refl. congruence.
  - destruct (String.eqb_spec (bl_id b') id) as [Heq|Hne]; [|by apply IH].
    exfalso. apply Hni. rewrite <- Hi, Heq, <- Hid. by apply list_elem_of_fmap_2.
Qed.
End NodeClaims.

Lemma drain_first js :
  fold_left drain_join js None = head (omap (drain_join None) js).
Proof.
  induction js as [|j js IH]; [done|]. cbn [fold_left omap list_omap].
  destruct (drain_join None j) as [e|] eqn:E; [by rewrite drain_some|exact IH].
Qed.

Definition finished_well (j : Joined) : Prop := exists name, j = Ok (name, Ok tt) \/ exists d, j = Ok (name, Err (JoinCancelled d)).

Lemma finished_well_iff j : finished_well j <-> drain_join None j = None.
Proof.
  unfold finished_well. destruct j as [[name [[]|[p|d]]]|e]; simpl; split; try done; try (by eauto).
  - intros (? & [?|(? & ?)]); simplify_eq.
  - intros (? & [?|(? & ?)]); simplify_eq.
Qed.

Lemma omap_head_none {A B} (f : A -> option B) l : head (omap f l) = None <-> Forall (fun x => f x = None) l.
Proof.
  induction l as [|x l IH]; [by split|]. cbn [omap list_omap]. rewrite List.Forall_cons_iff.
  destruct (f x); simpl; [split; [done|by intros []]|]. rewrite IH. by split; [|intros []].
Qed.

(** The supervisor reports the first thing that went wrong: the task
    whose end woke it, else the first join of the drain that is a panic or a
    failure of a monitor, else the drain's time-out.  The process exits with
    success exactly when the node was built, Ctrl-C ended the wait, every
    task drained in time, and each of them returned or was cancelled. *)
Lemma exit_status {A} (built : result A InitError) wakeup drained in_time :
  run_until_shutdown wakeup drained in_time =
    match wakeup with
    | TaskExit joined => Err (snd (classify_unexpected_exit joined))
    | CtrlC => match head (omap (drain_join None) drained) with
               | Some e => Err e
               | None => if in_time then Ok tt else Err (DrainTimedOut SHUTDOWN_DEADLINE)
               end
    end /\
  (exit_code built (fun _ => run_until_shutdown wakeup drained in_time) = 0%N <->
     is_ok built = true /\ wakeup = CtrlC /\ in_time = true /\ Forall finished_well drained).
Proof.
  assert (Hrun : run_until_shutdown wakeup drained in_time =
    match wakeup with
    | TaskExit joined => Err (snd (classify_unexpected_exit joined))
    | CtrlC => match head (omap (drain_join None) drained) with
               | Some e => Err e
               | None => if in_time then Ok tt else Err (DrainTimedOut SHUTDOWN_DEADLINE)
               end
    end).
  { unfold run_until_shutdown. destruct wakeup as [|j]; simpl.
    - rewrite drain_first. destruct (head _); by destruct in_time.
    - rewrite drain_some. by destruct in_time. }
  split; [exact Hrun|]. unfold exit_code. rewrite Hrun. destruct built as [n|e]; [|by split; [|intros []]].
  assert (Hall : Forall finished_well drained <-> head (omap (drain_join None) drained) = None).
  { rewrite omap_head_none. apply list.Forall_iff. exact finished_well_iff. }
  rewrite Hall. destruct wakeup as [|j]; [|by split; [|intros (? & ? & ?)]].
  destruct (head _); [by split; [|intros (? & ? & ? & ?)]|]. destruct in_time; [by repeat split|].
  by split; [|intros (? & ? & ? & ?)].
Qed.

(** a watcher that cannot be started stops the whole node: its task
    returns before the shutdown, leaving the tokens alone as its warning says
    (hot reload is disabled), but the supervisor takes the end of any task for
    a failure, shuts everything down and exits with an error. *)
Theorem failed_watcher_stops_node {L} (n : Node (L := L)) p new_debouncer watch ticks drained in_time :
  config_path n = Some p -> is_ok new_debouncer && is_ok watch = false ->
  spawn_config_watcher new_debouncer watch p ticks (node_auth n) (initial_config n) =
    (node_auth n, initial_config n, WatcherReturned) /\
  exists name, (name, WatcherTask p) ∈ spawn_tasks n /\
    run_until_shutdown (TaskExit (Ok (name, Ok tt))) drained in_time = Err (TaskExitedEarly name) /\
    exit_code (Ok n) (fun _ => run_until_shutdown (TaskExit (Ok (name, Ok tt))) drained in_time) = 1%N.
Proof.
  intros Hp Hf. split.
  { unfold spawn_config_watcher. by destruct new_debouncer, watch. }
  unfold spawn_tasks. rewrite Hp. eexists. split.
  - apply elem_of_app. left. apply elem_of_lookup_imap. exists (length (ingest n)), (WatcherTask p).
    split; [reflexivity|]. rewrite lookup_app_r, length_fmap, Nat.sub_diag; [done|]. by rewrite length_fmap.
  - assert (Hr : forall name, run_until_shutdown (TaskExit (Ok (name, Ok tt))) drained in_time = Err (TaskExitedEarly name)).
    { intros name. unfold run_until_shutdown. simpl. rewrite drain_some. by destruct in_time. }
    split; [apply Hr|]. unfold exit_code. by rewrite Hr.
Qed.

(** ** Witnesses *)
Abbreviation sample_bind_tcp := (fun (a : SocketAddr) (_ : option TlsListenerConfig) => Ok a : result SocketAddr SocketBind.ErrorKind).
Abbreviation sample_bind_unix := (fun (_ : Path) (_ : SocketBind.UnixConfig) => Ok tt : result unit SocketBind.ErrorKind).
Abbreviation sample_bind_api := (fun a : SocketAddr => Ok a : result SocketAddr SocketBind.ErrorKind).
Abbreviation sample_open := (fun _ : Path => Ok MemLog.mem_new : result MemLog.Inner StorageError).

Definition two_listeners : NodeConfig := {|
  node_id := "n"; listeners := listeners config_default ++ [UnixSocketListener default_unix_id ["/"; "run"; "otk.sock"] 1024 None false];
  api_addr := api_addr config_default; storage_dir := ["data"];
  auth := {| auth_producer_tokens := ["t"]; auth_api_tokens := [] |}; api := api config_default |}.

Abbreviation sample_node path :=
  (@node_new_inner _ mem sample_bind_tcp sample_bind_unix sample_bind_api sample_open two_listeners path).

Lemma node_new_resumes_witness :
  exists n, sample_node None = Ok n /\
    listener_unix_path "unix-main" n = Some ["/"; "run"; "otk.sock"] /\
    find_listener "tcp-main" n =
      Some {| bl_id := "tcp-main"; bl_addr := BoundTcp {| addr_ip := "0.0.0.0"; addr_port := 8463 |}; bl_max_frame_bytes := 65535 |} /\
    svc_gate (service n) = gate_new.
Proof.
  assert (Hn : exists n, sample_node None = Ok n) by (vm_compute; eexists; reflexivity). destruct Hn as [n Hn].
  destruct (@node_new_resumes _ mem mem_laws _ _ _ _ true _ _ _ MemLog.mem_new [] 0%N Hn eq_refl sample_rep)
    as (_ & _ & _ & _ & _ & _ & _ & Hg & Hfind).
  exists n. split; [exact Hn|]. split; [|split; [|exact Hg]].
  - unfold listener_unix_path. rewrite (Hfind (UnixSocketListener default_unix_id ["/"; "run"; "otk.sock"] 1024 None false)
      {| bl_id := "unix-main"; bl_addr := BoundUnixSocket ["/"; "run"; "otk.sock"]; bl_max_frame_bytes := 1024 |});
      [reflexivity|right; by left|reflexivity|reflexivity].
  - apply (Hfind (TcpListener default_tcp_id {| addr_ip := "0.0.0.0"; addr_port := 8463 |} default_max_frame_bytes None));
      [by left|reflexivity|reflexivity].
Defined.

Lemma failed_watcher_stops_node_witness :
  exists n, sample_node (Some ["/"; "etc"; "otk.toml"]) = Ok n /\
  exists name, (name, WatcherTask ["/"; "etc"; "otk.toml"]) ∈ spawn_tasks n /\
    run_until_shutdown (TaskExit (Ok (name, Ok tt))) [] true = Err (TaskExitedEarly name).
Proof.
  assert (Hn : exists n, sample_node (Some ["/"; "etc"; "otk.toml"]) = Ok n /\ config_path n = Some ["/"; "etc"; "otk.toml"])
    by (vm_compute; eexists; split; reflexivity).
  destruct Hn as (n & Hn & Hp).
  destruct (failed_watcher_stops_node n ["/"; "etc"; "otk.toml"] (Ok tt) (Err "inotify limit reached") [] [] true Hp eq_refl)
    as (_ & name & H1 & H2 & _).
  exists n. split; [exact Hn|]. exists name. by split.
Defined.
