(* ===== verification/Rustls.v ===== *)
(** What the TLS set-up of both ends calls of [rustls] and [rustls-pemfile],
    as an interface, and the files it reads.

    The cryptography, the handshake and the PEM format are third-party code:
    types and operations of the class [Rustls].  A file that was opened is
    what reading it to its end gives. *)
From stdpp Require Import base strings option list.
From Stdlib Require Import Strings.Byte.
From S2P Require Import Prelude NodeConfig.

Class Rustls : Type := {
  CertificateDer : Type;
  PrivateKeyDer : Type;
  RootCertStore : Type;
  ClientCertVerifier : Type;
  (** A server's and a client's TLS configuration, ready to use. *)
  TlsAcceptor : Type;
  ClientTls : Type;
  ServerName : Type;
  (** [rustls_pemfile::certs], collected, and [rustls_pemfile::private_key]. *)
  pem_certs : result bytes string -> result (list CertificateDer) string;
  pem_private_key : result bytes string -> result (option PrivateKeyDer) string;
  roots_empty : RootCertStore;
  roots_add : CertificateDer -> RootCertStore -> result RootCertStore string;
  client_verifier : RootCertStore -> result ClientCertVerifier string;
  (** [with_client_cert_verifier] or [with_no_client_auth], then
      [with_single_cert]. *)
  with_single_cert : option ClientCertVerifier -> list CertificateDer -> PrivateKeyDer ->
    result TlsAcceptor string;
  with_client_auth_cert : RootCertStore -> list CertificateDer -> PrivateKeyDer ->
    result ClientTls string;
  with_no_client_auth : RootCertStore -> ClientTls;
  server_name_try_from : string -> result ServerName string
}.

(** [Path::display]. *)
Definition display (p : Path) : string :=
  match p with
  | "/" :: rest => "/" +:+ String.concat "/" rest
  | _ => String.concat "/" p
  end.

(** Opening a file for reading: what reading it gives, or the error of
    [File::open]. *)
Definition Files : Type := Path -> result (result bytes string) string.

Lemma map_err_ok {A E F} (f : E -> F) (r : result A E) a : map_err f r = Ok a <-> r = Ok a.
Proof. destruct r; simpl; split; congruence. Qed.

Section Pem.
Context `{R : Rustls}.

(** The loops over [roots.add(cert)]. *)
Fixpoint add_roots (certs : list CertificateDer) (roots : RootCertStore) : result RootCertStore string :=
  match certs with
  | [] => Ok roots
  | cert :: certs => let? roots := roots_add cert roots in add_roots certs roots
  end.

(** The file at [p] holds the certificates [certs], at least one. *)
Definition certs_at (files : Files) (p : Path) (certs : list CertificateDer) : Prop :=
  certs <> [] /\ exists content, files p = Ok content /\ pem_certs content = Ok certs.

Definition key_at (files : Files) (p : Path) (key : PrivateKeyDer) : Prop :=
  exists content, files p = Ok content /\ pem_private_key content = Ok (Some key).

(** Both ends load a file the same way, with their own errors. *)
Lemma load_certs_at {E} (f g : string -> E) (none : E) files p certs :
  (let? reader := map_err f (files p) in
   let? certs := map_err g (pem_certs reader) in
   match certs with [] => Err none | _ => Ok certs end) = Ok certs <-> certs_at files p certs.
Proof.
  unfold certs_at. destruct (files p) as [content|e]; simpl; [|split; [done|by intros (_ & x & [= ] & _)]].
  destruct (pem_certs content) as [[|c cs]|e] eqn:Ep; simpl; (split; [intros [= <-]; eauto|]);
    intros (Hne & x & [= <-] & Hx); congruence.
Qed.

Lemma load_key_at {E} (f g : string -> E) (none : E) files p key :
  (let? reader := map_err f (files p) in
   let? key := map_err g (pem_private_key reader) in
   match key with Some key => Ok key | None => Err none end) = Ok key <-> key_at files p key.
Proof.
  unfold key_at. destruct (files p) as [content|e]; simpl; [|split; [done|by intros (x & [= ] & _)]].
  destruct (pem_private_key content) as [[k|]|e] eqn:Ep; simpl; (split; [intros [= <-]; eauto|]);
    intros (x & [= <-] & Hx); congruence.
Qed.

Lemma certs_at_inj files p c1 c2 : certs_at files p c1 -> certs_at files p c2 -> c1 = c2.
Proof. intros (_ & x & Hx & H1) (_ & y & Hy & H2). congruence. Qed.

Lemma key_at_inj files p k1 k2 : key_at files p k1 -> key_at files p k2 -> k1 = k2.
Proof. intros (x & Hx & H1) (y & Hy & H2). congruence. Qed.
End Pem.
