(* ===== verification/TlsServer.v ===== *)
(** The TCP ingest port (crate [adapter-ingest-tcp], [tls.rs], [config.rs]
    and [port.rs]): the TLS material of a listener, its binding, and [accept]
    up to the session.

    [tls_listener_guarded]: a listener with a TLS block is bound only with the
    material it names, asks its clients for a certificate exactly when a
    client CA is configured, and gives no session over a plain stream. *)
From stdpp Require Import base strings option numbers list.
From Stdlib Require Import Strings.Byte.
From S2P Require Import Prelude EventModel WireProtocol IngestProtocol ByteStream IngestSession NodeListener NodeConfig NodeSupervisor Rustls.
From S2P Require SocketBind.

(** ** Configuration and errors *)
Record TlsConfig := {
  tls_cert_chain : Path;
  tls_private_key : Path;
  tls_client_ca : option Path
}.

Definition DEFAULT_MAX_FRAME_BYTES : N := 65535.

(** [handshake_timeout] in nanoseconds. *)
Record TcpIngestConfig := {
  bind_addr : SocketAddr;
  max_frame_bytes : N;
  handshake_timeout : N;
  tls : option TlsConfig
}.

Definition tcp_ingest_default : TcpIngestConfig :=
  {| bind_addr := {| addr_ip := "127.0.0.1"; addr_port := 8463 |};
     max_frame_bytes := DEFAULT_MAX_FRAME_BYTES; handshake_timeout := 5 * 1000000000; tls := None |}.

Inductive TlsAcceptError :=
  | TlsIo (path source : string)
  | NoCertificates (path : string)
  | NoPrivateKey (path : string)
  | NoClientCaCerts (path : string)
  | RustlsBuild (m : string).

Definition tls_accept_message (e : TlsAcceptError) : string :=
  match e with
  | TlsIo path source => "failed to read TLS file " +:+ path +:+ ": " +:+ source
  | NoCertificates path => "TLS cert chain at " +:+ path +:+ " contained no certificates"
  | NoPrivateKey path => "TLS key file at " +:+ path +:+ " contained no usable private key"
  | NoClientCaCerts path => "TLS client-CA file at " +:+ path +:+ " contained no certificates"
  | RustlsBuild m => "rustls rejected the loaded material: " +:+ m
  end.

(** An I/O error that a listener's bind reports: its kind and message. *)
Definition BindError : Type := SocketBind.ErrorKind * string.

Definition tls_err_to_ingest (e : TlsAcceptError) : BindError :=
  (SocketBind.InvalidInput, tls_accept_message e).

(** ** The material *)
Section Server.
Context `{R : Rustls}.
Variable files : Files.

Definition load_certs (path : Path) : result (list CertificateDer) TlsAcceptError :=
  let? reader := map_err (TlsIo (display path)) (files path) in
  let? certs := map_err (TlsIo (display path)) (pem_certs reader) in
  match certs with [] => Err (NoCertificates (display path)) | _ => Ok certs end.

Definition load_private_key (path : Path) : result PrivateKeyDer TlsAcceptError :=
  let? reader := map_err (TlsIo (display path)) (files path) in
  let? key := map_err (TlsIo (display path)) (pem_private_key reader) in
  match key with Some key => Ok key | None => Err (NoPrivateKey (display path)) end.

Definition build_tls_acceptor (cfg : TlsConfig) : result TlsAcceptor TlsAcceptError :=
  let? cert_chain := load_certs (tls_cert_chain cfg) in
  let? private_key := load_private_key (tls_private_key cfg) in
  match tls_client_ca cfg with
  | Some ca_path =>
      let? ca_certs := load_certs ca_path in
      match ca_certs with
      | [] => Err (NoClientCaCerts (display ca_path))
      | _ =>
          let? roots := map_err RustlsBuild (add_roots ca_certs roots_empty) in
          let? verifier := map_err RustlsBuild (client_verifier roots) in
          map_err RustlsBuild (with_single_cert (Some verifier) cert_chain private_key)
      end
  | None => map_err RustlsBuild (with_single_cert None cert_chain private_key)
  end.

(** A TLS listener makes two handshakes per connection. *)
Definition handshakes {A} (tls : option A) : N := match tls with Some _ => 2 | None => 1 end.

(** *** What the material amounts to *)

(** The verifier of client certificates a configuration asks for. *)
Definition verifier_of (cfg : TlsConfig) (v : option ClientCertVerifier) : Prop :=
  match tls_client_ca cfg with
  | None => v = None
  | Some ca => exists certs roots w, certs_at files ca certs /\ add_roots certs roots_empty = Ok roots /\
      client_verifier roots = Ok w /\ v = Some w
  end.

(** The listener presents [chain] and asks clients for what [v] verifies. *)
Definition material_of (cfg : TlsConfig) (chain : list CertificateDer) (v : option ClientCertVerifier)
    (a : TlsAcceptor) : Prop :=
  certs_at files (tls_cert_chain cfg) chain /\ verifier_of cfg v /\
  exists key, key_at files (tls_private_key cfg) key /\ with_single_cert v chain key = Ok a.

Lemma load_certs_iff path certs : load_certs path = Ok certs <-> certs_at files path certs.
Proof. apply load_certs_at. Qed.

Lemma load_private_key_iff path key : load_private_key path = Ok key <-> key_at files path key.
Proof. apply load_key_at. Qed.

Lemma build_tls_acceptor_ok cfg a : build_tls_acceptor cfg = Ok a <-> exists chain v, material_of cfg chain v a.
Proof.
  unfold build_tls_acceptor, material_of, verifier_of. split.
  - destruct (load_certs _) as [chain|] eqn:Ec; [|done]. apply load_certs_iff in Ec.
    destruct (load_private_key _) as [key|] eqn:Ek; [|done]. apply load_private_key_iff in Ek.
    destruct (tls_client_ca cfg) as [ca|]; [|rewrite map_err_ok; by eauto 8].
    destruct (load_certs ca) as [certs|] eqn:Eca; [|done]. pose proof Eca as Hca%load_certs_iff.
    destruct certs; [done|]. destruct (add_roots _ _) as [roots|] eqn:Er; [|done]. simpl.
    destruct (client_verifier roots) as [w|] eqn:Ew; [|done]. simpl. rewrite map_err_ok. intros Ha. exists chain, (Some w). eauto 12.
  - intros (chain & v & Hc & Hv & key & Hk & Ha). apply load_certs_iff in Hc as ->.
    apply load_private_key_iff in Hk as ->. destruct (tls_client_ca cfg) as [ca|].
    + destruct Hv as (certs & roots & w & Hca & Hr & Hw & ->). pose proof Hca as ->%load_certs_iff.
      destruct Hca as [Hne _]. destruct certs; [done|]. rewrite Hr. simpl. rewrite Hw. simpl. by rewrite Ha.
    + subst v. by rewrite Ha.
Qed.

(** The error for an empty client CA is never given: [load_certs] has already
    called its file an empty certificate chain. *)
Lemma client_ca_error_unreachable cfg path : build_tls_acceptor cfg <> Err (NoClientCaCerts path).
Proof.
  assert (Hc : forall p, load_certs p <> Err (NoClientCaCerts path)).
  { intros p. unfold load_certs. destruct (files p); simpl; [|done]. by destruct (pem_certs _) as [[]|]. }
  assert (Hk : forall p, load_private_key p <> Err (NoClientCaCerts path)).
  { intros p. unfold load_private_key. destruct (files p); simpl; [|done]. by destruct (pem_private_key _) as [[]|]. }
  unfold build_tls_acceptor. destruct (load_certs (tls_cert_chain cfg)) eqn:E1; [|congruence].
  destruct (load_private_key _) eqn:E2; [|congruence].
  destruct (tls_client_ca cfg) as [ca|]; [|by destruct (with_single_cert _ _ _)].
  destruct (load_certs ca) as [[|c cs]|] eqn:E3; [|..|congruence].
  - apply load_certs_iff in E3 as [? _]. done.
  - destruct (add_roots _ _); [|done]. simpl. destruct (client_verifier _); [|done]. simpl.
    by destruct (with_single_cert _ _ _).
Qed.

(** ** Binding *)
Record TcpIngestPort := {
  local_addr : SocketAddr;
  port_config : TcpIngestConfig;
  tls_acceptor : option TlsAcceptor
}.

(** [listener_bind] is the system's answer. *)
Definition tcp_bind_with_auth (listener_bind : SocketAddr -> result SocketAddr BindError)
    (config : TcpIngestConfig) : result TcpIngestPort BindError :=
  if (max_frame_bytes config =? 0)%N then Err (SocketBind.InvalidInput, "max_frame_bytes must be > 0") else
  if (handshake_timeout config =? 0)%N then Err (SocketBind.InvalidInput, "handshake_timeout must be > 0") else
  let? acceptor :=
    match tls config with
    | Some tls_cfg => let? a := map_err tls_err_to_ingest (build_tls_acceptor tls_cfg) in Ok (Some a)
    | None => Ok None
    end in
  let? addr := listener_bind (bind_addr config) in
  Ok {| local_addr := addr; port_config := config; tls_acceptor := acceptor |}.

(** The port a node makes of a TCP listener of its configuration. *)
Definition ingest_config (bind_addr : SocketAddr) (max_frame_bytes : N) (t : option TlsListenerConfig)
  : TcpIngestConfig :=
  {| bind_addr := bind_addr; max_frame_bytes := max_frame_bytes; handshake_timeout := 5 * 1000000000;
     tls := (fun t => {| tls_cert_chain := cert_chain t; tls_private_key := private_key t;
                         tls_client_ca := client_ca t |}) <$> t |}.

(** ** Accepting *)
Context `{BS : ByteStream Conn} `{Ad : Adapter}.
Context `{EnvCbor : Cbor OtkEnvelope} `{CborEvent : Cbor OtkEvent} `{CborHeartbeat : Cbor Heartbeat}.
Context `{CborConnect : Cbor Connect} `{CborAck : Cbor ConnectAck} `{CborReject : Cbor ConnectReject}.

(** The session is generic over its stream: the plain connection, or what
    [acceptor.accept(stream)] makes of it. *)
Variable tls_accept : TlsAcceptor -> Conn -> result Conn string.

(** [tokio::time::timeout]: whether a future that takes [took] is in time,
    and the time that passes. *)
Definition timeout (limit took : N) : bool * N :=
  if (took <=? limit)%N then (true, took) else (false, limit).

(** [accept] after the connection: its result and the time since then.
    [tls_took] and [otk_took] are what the two handshakes would take. *)
Definition accept_tcp (fuel : nat) (port : TcpIngestPort) (stream : Conn) (peer : string)
    (authoriser : ConnectAuthoriser) (tls_took otk_took : N)
  : option (result (IngestSession Conn) IngestError * N) :=
  let limit := handshake_timeout (port_config port) in
  let frame_limit := max_frame_bytes (port_config port) in
  let (in_time, otk_time) := timeout limit otk_took in
  match tls_acceptor port with
  | Some acceptor =>
      let (tls_in_time, tls_time) := timeout limit tls_took in
      if negb tls_in_time then Some (Err (IngestHandshake "TLS handshake timed out"), tls_time) else
      match tls_accept acceptor stream with
      | Err e => Some (Err (IngestHandshake ("TLS handshake failed: " +:+ e)), tls_time)
      | Ok tls_stream =>
          let! r := finish_accept fuel (negb in_time) tls_stream peer frame_limit authoriser in
          Some (r, (tls_time + otk_time)%N)
      end
  | None =>
      let! r := finish_accept fuel (negb in_time) stream peer frame_limit authoriser in
      Some (r, otk_time)
  end.

Lemma timeout_bound limit took : (snd (timeout limit took) <= limit)%N.
Proof. unfold timeout. destruct (N.leb_spec took limit); simpl; lia. Qed.

Lemma tcp_bind_cases listener_bind config :
  match tcp_bind_with_auth listener_bind config with
  | Ok port => port_config port = config /\ (0 < max_frame_bytes config)%N /\ (0 < handshake_timeout config)%N /\
      listener_bind (bind_addr config) = Ok (local_addr port) /\
      match tls config with
      | None => tls_acceptor port = None
      | Some t => exists a, tls_acceptor port = Some a /\ build_tls_acceptor t = Ok a
      end
  | Err (k, m) => listener_bind (bind_addr config) = Err (k, m) \/
      (k = SocketBind.InvalidInput /\ (max_frame_bytes config = 0 \/ handshake_timeout config = 0 \/
        exists t e, tls config = Some t /\ build_tls_acceptor t = Err e /\ m = tls_accept_message e)%N)
  end.
Proof.
  unfold tcp_bind_with_auth. destruct (N.eqb_spec (max_frame_bytes config) 0); [tauto|].
  destruct (N.eqb_spec (handshake_timeout config) 0); [tauto|].
  destruct (tls config) as [t|]; [destruct (build_tls_acceptor t) as [a|e] eqn:Eb; simpl; [|right; split; [done|]; eauto 8]|];
    (destruct (listener_bind _) as [addr|[k m]]; simpl; [|by left]; do 2 (split; [done || lia|]); split; [lia|]; eauto).
Qed.

Lemma accept_tcp_cases fuel port stream peer authoriser tls_took otk_took r time :
  accept_tcp fuel port stream peer authoriser tls_took otk_took = Some (r, time) ->
  (time <= handshakes (tls_acceptor port) * handshake_timeout (port_config port))%N /\
  forall x a, r = Ok x -> tls_acceptor port = Some a -> exists tls_stream, tls_accept a stream = Ok tls_stream /\
    finish_accept fuel false tls_stream peer (max_frame_bytes (port_config port)) authoriser = Some (Ok x).
Proof.
  unfold accept_tcp, handshakes. pose proof (timeout_bound (handshake_timeout (port_config port)) tls_took) as H1.
  pose proof (timeout_bound (handshake_timeout (port_config port)) otk_took) as H2.
  destruct (timeout _ otk_took) as [in_time ot], (timeout _ tls_took) as [tls_in_time tt']. simpl in H1, H2.
  destruct (tls_acceptor port) as [a|].
  - destruct tls_in_time; simpl; [|intros [= <- <-]; split; [lia|done]].
    destruct (tls_accept a stream) as [ts|e] eqn:Ea; simpl; [|intros [= <- <-]; split; [lia|done]].
    destruct (finish_accept _ _ _ _ _ _) as [r0|] eqn:Ef; [|done]. intros [= <- <-]. split; [lia|].
    intros x a' -> [= <-]. exists ts. split; [done|]. by destruct in_time.
  - destruct (finish_accept _ _ _ _ _ _) as [r0|]; [|done]. intros [= <- <-]. split; [lia|done].
Qed.

(** C20: What a TCP listener guards.  A bind fails with what the system
    answers, or because the configuration or its TLS material is invalid.  A
    listener that is bound has TLS
    exactly when its configuration has: it presents the chain of the
    configured file, with the configured key, and asks its clients for a
    certificate under the configured client CA, or for none when there is no
    client CA.  On a TLS listener every session that is accepted runs inside
    the TLS stream; and [accept] ends within its time-out, which counts for
    each of the two handshakes. *)
Theorem tls_listener_guarded listener_bind config :
  match tcp_bind_with_auth listener_bind config with
  | Err (k, m) => listener_bind (bind_addr config) = Err (k, m) \/
      (k = SocketBind.InvalidInput /\ (max_frame_bytes config = 0 \/ handshake_timeout config = 0 \/
        exists t e, tls config = Some t /\ build_tls_acceptor t = Err e /\ m = tls_accept_message e)%N)
  | Ok port =>
      listener_bind (bind_addr config) = Ok (local_addr port) /\
      match tls config with
      | None => tls_acceptor port = None
      | Some t => exists a chain v, tls_acceptor port = Some a /\ material_of t chain v a /\
          (is_Some v <-> is_Some (tls_client_ca t))
      end /\
      forall fuel stream peer authoriser tls_took otk_took r time,
        accept_tcp fuel port stream peer authoriser tls_took otk_took = Some (r, time) ->
        (time <= handshakes (tls config) * handshake_timeout config)%N /\
        forall x a, r = Ok x -> tls_acceptor port = Some a -> exists tls_stream, tls_accept a stream = Ok tls_stream /\
          finish_accept fuel false tls_stream peer (max_frame_bytes config) authoriser = Some (Ok x)
  end.
Proof.
  pose proof (tcp_bind_cases listener_bind config) as Hb.
  destruct (tcp_bind_with_auth listener_bind config) as [port|[k m]]; [|done].
  destruct Hb as (Hc & _ & _ & Hl & Ht). split; [done|]. split.
  - destruct (tls config) as [t|]; [|done]. destruct Ht as (a & Ha & Hb). apply build_tls_acceptor_ok in Hb as (chain & v & Hm).
    exists a, chain, v. split; [done|]. split; [done|]. destruct Hm as (_ & Hv & _). unfold verifier_of in Hv.
    destruct (tls_client_ca t); [destruct Hv as (? & ? & w & _ & _ & _ & ->)|subst v]; by split; intros [? ?].
  - intros fuel stream peer auth tt' ot r time Hacc. apply accept_tcp_cases in Hacc as [Htime Hs].
    rewrite Hc in Htime, Hs. split; [|done]. destruct (tls config); [destruct Ht as (a & Ha & _); rewrite Ha in Htime|rewrite Ht in Htime]; done.
Qed.

(** The listeners of a node are these ports. *)
Lemma node_listener_is_port listener_bind id addr frame t bind_unix :
  bl_addr <$> (match bind_listener
      (fun a t => map_err fst (let? p := tcp_bind_with_auth listener_bind (ingest_config a frame t) in Ok (local_addr p)))
      bind_unix (TcpListener id addr frame t) with Ok b => Some b | Err _ => None end) =
  match tcp_bind_with_auth listener_bind (ingest_config addr frame t) with
  | Ok p => Some (BoundTcp (local_addr p))
  | Err _ => None
  end.
Proof.
  unfold bind_listener, SocketBind.check_config. destruct (N.eqb_spec frame 0) as [->|Hf]; [done|].
  simpl. by destruct (tcp_bind_with_auth _ _) as [p|[k m]].
Qed.
End Server.
