(* ===== verification/TlsClient.v ===== *)
(** The transports of the producer SDK (crate [otk-sdk],
    [producer/transport.rs] and [producer/tls.rs]), and [Producer::connect]
    over them.

    [connect_tls_exact]: when a TLS connection is made, and with which
    material. *)
From stdpp Require Import base strings option numbers list.
From Stdlib Require Import Strings.Byte.
From S2P Require Import Prelude EventModel WireProtocol TraceContext IngestProtocol ByteStream Producer NodeConfig Rustls.

Record TlsClientConfig := {
  trust_roots : Path;
  server_name : string;
  client_cert : option Path;
  client_key : option Path
}.

Inductive Transport :=
  | Tcp (addr : SocketAddr)
  | Tls (addr : SocketAddr) (config : TlsClientConfig).

Section Client.
Context `{R : Rustls}.
Variable files : Files.

Definition load_certs (path : Path) : result (list CertificateDer) ProducerError :=
  let? reader := map_err (fun e => PConfig ("open " +:+ display path +:+ ": " +:+ e)) (files path) in
  let? certs := map_err (fun e => PConfig ("read " +:+ display path +:+ ": " +:+ e)) (pem_certs reader) in
  match certs with [] => Err (PConfig (display path +:+ ": no PEM certificates")) | _ => Ok certs end.

Definition load_private_key (path : Path) : result PrivateKeyDer ProducerError :=
  let? reader := map_err (fun e => PConfig ("open " +:+ display path +:+ ": " +:+ e)) (files path) in
  let? key := map_err (fun e => PConfig ("read " +:+ display path +:+ ": " +:+ e)) (pem_private_key reader) in
  match key with Some key => Ok key | None => Err (PConfig (display path +:+ ": no PEM private key")) end.

Definition pair_message : string :=
  "TlsClientConfig: client_cert and client_key must both be set or both be None".

(** The [Debug] form of a string. *)
Variable debug : string -> string.

(** What [connect_tls] makes of its configuration before it dials. *)
Definition client_config (cfg : TlsClientConfig) : result (ClientTls * ServerName) ProducerError :=
  match client_cert cfg, client_key cfg with
  | Some _, None | None, Some _ => Err (PConfig pair_message)
  | cert, key =>
      let? certs := load_certs (trust_roots cfg) in
      let? roots := map_err (fun e => PConfig ("trust root rejected: " +:+ e)) (add_roots certs roots_empty) in
      let? client :=
        match cert, key with
        | Some cert_path, Some key_path =>
            let? chain := load_certs cert_path in
            let? key := load_private_key key_path in
            map_err (fun e => PConfig ("rustls rejected client cert: " +:+ e)) (with_client_auth_cert roots chain key)
        | _, _ => Ok (with_no_client_auth roots)
        end in
      let? name := map_err (fun e => PConfig ("invalid SNI server name " +:+ debug (server_name cfg) +:+ ": " +:+ e))
                     (server_name_try_from (server_name cfg)) in
      Ok (client, name)
  end.

Context `{BS : ByteStream Conn}.

(** [dial] is [TcpStream::connect], [tls_connect] the TLS handshake of
    [connector.connect]. *)
Variable dial : SocketAddr -> result Conn IoError.
Variable tls_connect : ClientTls -> ServerName -> Conn -> result Conn string.

Definition connect_tls (addr : SocketAddr) (cfg : TlsClientConfig) : result Conn ProducerError :=
  let? (client, name) := client_config cfg in
  let? tcp := map_err PIo (dial addr) in
  map_err (fun e => PIo (IoFault ("TLS handshake failed: " +:+ e))) (tls_connect client name tcp).

Definition open_transport (t : Transport) : result Conn ProducerError :=
  match t with
  | Tcp addr => map_err PIo (dial addr)
  | Tls addr config => connect_tls addr config
  end.

Context `{EnvCbor : Cbor OtkEnvelope} `{CborEvent : Cbor OtkEvent} `{CborHeartbeat : Cbor Heartbeat}.
Context `{CborConnect : Cbor Connect} `{CborAck : Cbor ConnectAck} `{CborReject : Cbor ConnectReject}.

(** [Producer::connect] with the transport it opens. *)
Definition connect_over (span : SpanContext) (transport : Transport) (config : ProducerConfig)
  : result (@Producer Conn) ProducerError :=
  if (cfg_max_frame_bytes config =? 0)%N then Err (PConfig "max_frame_bytes must not be zero") else
  let? s := open_transport transport in fst (client_handshake span config s).

(** Over TCP it is [connect] on the dialled connection. *)
Lemma connect_over_tcp span addr config :
  connect_over span (Tcp addr) config = connect span (dial addr) config.
Proof. reflexivity. Qed.

(** *** Which material is used *)
Lemma client_certs_iff path certs : load_certs path = Ok certs <-> certs_at files path certs.
Proof. apply load_certs_at. Qed.

Lemma client_key_iff path key : load_private_key path = Ok key <-> key_at files path key.
Proof. apply load_key_at. Qed.

(** The configuration asks for the trust roots [certs], and for the client
    identity [identity], if any. *)
Definition client_material (cfg : TlsClientConfig) (certs : list CertificateDer) (client : ClientTls) : Prop :=
  certs_at files (trust_roots cfg) certs /\ exists roots, add_roots certs roots_empty = Ok roots /\
  match client_cert cfg, client_key cfg with
  | None, None => client = with_no_client_auth roots
  | Some c, Some k => exists chain key, certs_at files c chain /\ key_at files k key /\
      with_client_auth_cert roots chain key = Ok client
  | _, _ => False
  end.

Lemma client_config_ok cfg client name :
  client_config cfg = Ok (client, name) <->
  server_name_try_from (server_name cfg) = Ok name /\ exists certs, client_material cfg certs client.
Proof.
  unfold client_config, client_material. split.
  - destruct (client_cert cfg) as [c|], (client_key cfg) as [k|]; try done;
      (destruct (load_certs (trust_roots cfg)) as [certs|] eqn:Ec; [|done]); apply client_certs_iff in Ec;
      (destruct (add_roots certs roots_empty) as [roots|] eqn:Er; [|done]); simpl.
    + destruct (load_certs c) as [chain|] eqn:Ech; [|done]. apply client_certs_iff in Ech.
      destruct (load_private_key k) as [key|] eqn:Ek; [|done]. apply client_key_iff in Ek.
      destruct (with_client_auth_cert roots chain key) as [cl|] eqn:Ecl; [|done]. simpl.
      destruct (server_name_try_from _); [|done]. intros [= <- <-]. split; [done|]. eauto 12.
    + destruct (server_name_try_from _); [|done]. intros [= <- <-]. split; [done|]. eauto 8.
  - intros (Hn & certs & Hc & roots & Hr & Hm). apply client_certs_iff in Hc as ->.
    destruct (client_cert cfg) as [c|], (client_key cfg) as [k|]; try done; rewrite Hr; simpl.
    + destruct Hm as (chain & key & ->%client_certs_iff & ->%client_key_iff & ->). simpl. by rewrite Hn.
    + subst client. by rewrite Hn.
Qed.

(** With the files in order the server name decides. *)
Lemma client_config_named cfg certs client :
  client_material cfg certs client ->
  client_config cfg =
    match server_name_try_from (server_name cfg) with
    | Ok name => Ok (client, name)
    | Err e => Err (PConfig ("invalid SNI server name " +:+ debug (server_name cfg) +:+ ": " +:+ e))
    end.
Proof.
  unfold client_config, client_material. intros (Hc & roots & Hr & Hm). apply client_certs_iff in Hc as ->.
  destruct (client_cert cfg) as [c|], (client_key cfg) as [k|]; try done; rewrite Hr; simpl.
  - destruct Hm as (chain & key & ->%client_certs_iff & ->%client_key_iff & ->). simpl. by destruct (server_name_try_from _).
  - subst client. by destruct (server_name_try_from _).
Qed.

(** C21: When the SDK makes a TLS connection, and with what.  [connect_tls]
    gives a stream exactly when the trust roots were loaded and accepted, the
    client certificate and key are both absent or both loaded and accepted,
    the server name is valid, and the dial and the TLS handshake with this
    material succeed.  So a half-configured client identity is refused,
    whatever the files hold and the server does, and a configured one is
    never left out. *)
Theorem connect_tls_exact addr cfg s :
  (connect_tls addr cfg = Ok s <->
   exists certs client name tcp, client_material cfg certs client /\
     server_name_try_from (server_name cfg) = Ok name /\ dial addr = Ok tcp /\
     tls_connect client name tcp = Ok s) /\
  ((is_Some (client_cert cfg) <-> is_Some (client_key cfg)) \/
   connect_tls addr cfg = Err (PConfig pair_message)).
Proof.
  unfold connect_tls. split.
  - split.
    + destruct (client_config cfg) as [[client name]|e] eqn:Ec; [|done]. apply client_config_ok in Ec as (Hn & certs & Hm).
      destruct (dial addr) as [tcp|] eqn:Ed; [|done]. simpl. rewrite map_err_ok. intros Ht. by exists certs, client, name, tcp.
    + intros (certs & client & name & tcp & Hm & Hn & Hd & Ht).
      rewrite (proj2 (client_config_ok cfg client name)) by eauto. rewrite Hd. simpl. by rewrite Ht.
  - unfold client_config. destruct (client_cert cfg), (client_key cfg); simpl; [left|by right..|left]; split; by intros [? ?].
Qed.
End Client.
