(* ===== verification/Api.v ===== *)
(** The HTTP API of the node (crate [timing-node], [api.rs]) over the ingest
    service, the metrics and the token lists, and the service's
    [subscribe_events].

    Routing, extraction of query parameters, JSON and server-sent events are
    third-party code: a request is a [GET] with its path, its parameters as
    the extractor gives them ([Err] is its rejection) and its [Authorization]
    header; bodies are the values that are serialised; [to_string] of an entry
    is a parameter.

    [events_endpoint]: what [/api/v1/events] answers, on every branch.
    [stream_exact]: what a client of [/api/v1/events/stream] receives. *)
From stdpp Require Import base gmap strings option numbers pretty sorting list.
From Stdlib Require Import Strings.Byte.
From S2P Require Import Prelude EventModel WireProtocol IngestProtocol Auth EventLogPort SequenceGate CrossingProcessor IngestService.
From S2P Require Metrics MemLog.

(** ** Answers *)
Record ErrorBody := { error : string; detail : string }.

Inductive Body :=
  | NoBody
  | TextBody (content_type : string) (text : bytes)
  | StatusBody (node_id : string) (latest_offset : option N)
  | PageBody (page : EventPage)
  | ErrorJson (e : ErrorBody).

Record Response := { status_code : N; www_authenticate : option string; body : Body }.

Definition respond (code : N) (b : Body) : Response :=
  {| status_code := code; www_authenticate := None; body := b |}.

(** [Debug] of an [Option<u64>]. *)
Definition debug_option (o : option N) : string :=
  match o with None => "None" | Some n => "Some(" +:+ pretty n +:+ ")" end.

Definition evicted_text (requested : N) (earliest_available : option N) : string :=
  "offset " +:+ pretty requested +:+ " has been evicted; earliest_available=" +:+ debug_option earliest_available.

Definition map_query_error (e : QueryError) : N * ErrorBody :=
  match e with
  | QRetentionExpired requested earliest_available =>
      (410%N, {| error := "retention_expired"; detail := evicted_text requested earliest_available |})
  | QNotFound => (404%N, {| error := "not_found"; detail := "the requested resource is not present" |})
  | QInternal _ => (503%N, {| error := "internal"; detail := "storage backend error; see server logs" |})
  end.

Definition error_response (e : QueryError) : Response :=
  let (code, b) := map_query_error e in respond code (ErrorJson b).

(** ** Handlers *)
Section Api.
Context `{EL : EventLog L} {Sub : Type}.
(** [subscribe] of the log. *)
Variable subscribe : Offset -> L -> result Sub StorageError * L.

Record AppState := {
  app_node_id : string;
  query : EventIngestService L;
  app_metrics : Metrics.Metrics;
  app_auth : AuthState
}.

Definition with_query (s : EventIngestService L) (st : AppState) : AppState :=
  {| app_node_id := app_node_id st; query := s; app_metrics := app_metrics st; app_auth := app_auth st |}.

Definition healthz : Response := respond 200 NoBody.

Definition readyz (st : AppState) : Response * AppState :=
  let (r, s) := query_latest_offset (query st) in
  (respond (match r with Ok _ => 200 | Err _ => 503 end) NoBody, with_query s st).

Definition metrics_endpoint (iter : gmap Metrics.Key Z -> list (Metrics.Key * Z)) (st : AppState) : Response :=
  respond 200 (TextBody "text/plain; version=0.0.4" (Metrics.render iter (app_metrics st))).

Definition status (st : AppState) : Response * AppState :=
  let (r, s) := query_latest_offset (query st) in
  (match r with
   | Ok latest => respond 200 (StatusBody (app_node_id st) latest)
   | Err _ => respond 503 NoBody
   end, with_query s st).

Definition MAX_EVENTS_LIMIT : N := 1000.
Definition default_limit : N := 100.

Definition events (from limit : option N) (st : AppState) : Response * AppState :=
  let from := default 0%N from in
  let limit := N.min (default default_limit limit) MAX_EVENTS_LIMIT in
  let (r, s) := read_events from limit (query st) in
  (match r with Ok page => respond 200 (PageBody page) | Err e => error_response e end, with_query s st).

(** The service's [subscribe_events], and the handler over it. *)
Definition subscribe_events (from : N) (s : EventIngestService L) : result Sub QueryError * EventIngestService L :=
  let (r, log) := subscribe (offset_new from) (svc_log s) in
  (match r with Ok sub => Ok sub | Err e => Err (map_storage_err e) end, with_log s log).

Inductive Answer := Plain (r : Response) | EventStream (source : Sub).

Definition events_stream (from : option N) (st : AppState) : Answer * AppState :=
  let (r, s) := subscribe_events (default 0%N from) (query st) in
  (match r with Ok sub => EventStream sub | Err e => Plain (error_response e) end, with_query s st).

(** The CORS layer; [valid] is whether an origin parses as a header value. *)
Inductive CorsOrigins := AnyOrigin | NoOrigin | TheseOrigins (origins : list string).

Definition build_cors (valid : string -> bool) (allowed_origins : list string) : CorsOrigins :=
  if existsb (fun o => String.eqb o "*") allowed_origins then AnyOrigin
  else if bool_decide (allowed_origins = []) then NoOrigin
  else TheseOrigins (List.filter valid allowed_origins).

(** ** Routing and access *)
Record GetRequest := {
  path : string;
  params : result (option N * option N) string;
  authorization : option string
}.

(** The bearer-token layer around a handler. *)
Definition behind_token (st : AppState) (req : GetRequest) (k : AppState -> Answer * AppState) : Answer * AppState :=
  match require_api_token (app_auth st) (authorization req) with
  | RunNext => k st
  | Unauthorized401 challenge text =>
      (Plain {| status_code := 401; www_authenticate := Some challenge;
                body := TextBody "text/plain; charset=utf-8" (str_bytes text) |}, st)
  end.

Definition router (iter : gmap Metrics.Key Z -> list (Metrics.Key * Z)) (req : GetRequest) (st : AppState)
  : Answer * AppState :=
  let p := path req in
  if bool_decide (p = "/healthz") then (Plain healthz, st)
  else if bool_decide (p = "/readyz") then let (r, st) := readyz st in (Plain r, st)
  else if bool_decide (p = "/metrics") then (Plain (metrics_endpoint iter st), st)
  else if bool_decide (p = "/api/v1/status") then
    behind_token st req (fun st => let (r, st) := status st in (Plain r, st))
  else if bool_decide (p = "/api/v1/events") then
    behind_token st req (fun st =>
      match params req with
      | Ok (from, limit) => let (r, st) := events from limit st in (Plain r, st)
      | Err _ => (Plain (respond 400 NoBody), st)
      end)
  else if bool_decide (p = "/api/v1/events/stream") then
    behind_token st req (fun st =>
      match params req with
      | Ok (from, _) => events_stream from st
      | Err _ => (Plain (respond 400 NoBody), st)
      end)
  else (Plain (respond 404 NoBody), st).
End Api.
Arguments AppState : clear implicits.

(** ** The event stream *)

(** The service's stream over a subscription: one item per answer of
    [next_entry], [None] is its end. *)
Definition stream_item (answer : option (result LogEntry StorageError)) : option (result EventEntry QueryError) :=
  match answer with
  | Some (Ok e) => Some (Ok {| en_offset := as_u64 (offset e); en_event := event e |})
  | Some (Err e) => Some (Err (map_storage_err e))
  | None => None
  end.

Inductive SseEvent := SseData (data : bytes) | SseError (e : ErrorBody).

Section Stream.
Context {Sub : Type}.
(** One answer of the subscription; [None] is no answer yet. *)
Variable next_entry : Sub -> option (option (result LogEntry StorageError) * Sub).
Variable to_string : EventEntry -> option bytes.

Inductive StreamState := Streaming (source : Sub) | Done.

Definition sse_error (e : QueryError) : ErrorBody :=
  match e with
  | QRetentionExpired requested earliest_available =>
      {| error := "retention_expired"; detail := evicted_text requested earliest_available |}
  | QNotFound => {| error := "not_found"; detail := "not found" |}
  | QInternal _ => {| error := "internal"; detail := "storage backend error; see server logs" |}
  end.

(** One poll of the response body. *)
Inductive BodyPoll := BodyPending | BodyEnd | BodyEvent (e : SseEvent) (st : StreamState).

Definition sse_poll (st : StreamState) : BodyPoll :=
  match st with
  | Done => BodyEnd
  | Streaming source =>
      match next_entry source with
      | None => BodyPending
      | Some (answer, source) =>
          match stream_item answer with
          | None => BodyEnd
          | Some (Ok entry) =>
              match to_string entry with
              | Some data => BodyEvent (SseData data) (Streaming source)
              | None => BodyEvent (SseError {| error := "serialize_failed";
                                               detail := "internal serialization error; see server logs" |}) Done
              end
          | Some (Err e) => BodyEvent (SseError (sse_error e)) Done
          end
      end
  end.

(** How the polls of a body end, so far. *)
Inductive BodyEnding := StillOpen | Closed.

(** The events of the first [n] polls. *)
Fixpoint sse_run (n : nat) (st : StreamState) : list SseEvent * BodyEnding :=
  match n with
  | O => ([], StillOpen)
  | S n =>
      match sse_poll st with
      | BodyPending => ([], StillOpen)
      | BodyEnd => ([], Closed)
      | BodyEvent e st => let (es, fin) := sse_run n st in (e :: es, fin)
      end
  end.

(** The answers of the subscription polled on its own, so far. *)
Fixpoint sub_run (n : nat) (s : Sub) : list (option (result LogEntry StorageError)) :=
  match n with
  | O => []
  | S n => match next_entry s with None => [] | Some (a, s) => a :: sub_run n s end
  end.
End Stream.

(** What a client is to see of the subscription's answers: the entries up to
    the first thing that is not one, then that. *)
Fixpoint sse_of (to_string : EventEntry -> option bytes) (answers : list (option (result LogEntry StorageError)))
  : list SseEvent * BodyEnding :=
  match answers with
  | [] => ([], StillOpen)
  | None :: _ => ([], Closed)
  | Some (Err e) :: _ => ([SseError (sse_error (map_storage_err e))], Closed)
  | Some (Ok e) :: answers =>
      match to_string {| en_offset := as_u64 (offset e); en_event := event e |} with
      | Some data => let (es, fin) := sse_of to_string answers in (SseData data :: es, fin)
      | None => ([SseError {| error := "serialize_failed";
                              detail := "internal serialization error; see server logs" |}], Closed)
      end
  end.

(** ** Lemmas *)
Definition same_core {L} (s s' : EventIngestService L) : Prop :=
  svc_processor s' = svc_processor s /\ svc_gate s' = svc_gate s /\ svc_metrics s' = svc_metrics s.

Definition to_entry (e : LogEntry) : EventEntry := {| en_offset := as_u64 (offset e); en_event := event e |}.

Section Reads.
Context `{EL : EventLog L} `{!EventLogLaws L}.

Lemma read_events_cases sure from limit (s s' : EventIngestService L) r h k :
  log_rep sure (svc_log s) h k -> read_events from limit s = (r, s') ->
  log_rep sure (svc_log s') h k /\ same_core s s' /\
  match r with
  | Ok page => page_entries page =
        to_entry <$> history_range h (offset_new from) (Some (offset_new (saturating_add64 from limit))) /\
      page_latest_offset page = (if (k <? len h)%N then Some (len h - 1)%N else None) /\
      (page_entries page <> [] -> (k <= from)%N)
  | Err e => (exists e', e = map_storage_err e' /\ latest_offset (svc_log s) = (Err e', svc_log s')) \/
      (e = QRetentionExpired from (if (k <? len h)%N then Some k else None) /\ (from < k)%N) \/
      exists m, e = QInternal m
  end.
Proof.
  intros Hrep. unfold read_events. destruct (latest_offset (svc_log s)) as [[o|e] l1] eqn:Hl;
    destruct (log_latest _ _ _ _ _ _ Hrep Hl) as [Hrep1 Ho].
  2:{ intros [= <- <-]. split; [exact Hrep1|]. split; [done|]. left. by exists e. }
  specialize (Ho o eq_refl). subst o.
  destruct (read_range _ _ l1) as [[es|e] l2] eqn:Hr; intros [= <- <-].
  - destruct (log_read_ok _ _ _ _ _ _ _ _ Hrep1 Hr) as (Hrep2 & -> & Hk). split; [exact Hrep2|]. split; [done|].
    simpl. split; [done|]. split; [by case_match|]. intros Hne. apply Hk. intros Hn. apply Hne. by rewrite Hn.
  - split; [by eapply log_read_err|]. split; [done|]. right. destruct e; simpl; try (right; by eexists). left.
    destruct (log_read_expired _ _ _ _ _ _ _ _ _ Hrep1 Hr) as (_ & -> & Hlt & ->). split; [by case_match|exact Hlt].
Qed.

Lemma history_range_length h from n :
  (length (history_range h (offset_new from) (Some (offset_new (saturating_add64 from n)))) <= N.to_nat n)%nat.
Proof.
  unfold history_range. simpl. rewrite length_drop, length_take. unfold saturating_add64. lia.
Qed.
End Reads.

Section StreamFacts.
Context {Sub : Type}.
Variable next_entry : Sub -> option (option (result LogEntry StorageError) * Sub).
Variable to_string : EventEntry -> option bytes.

Abbreviation run := (sse_run next_entry to_string).

Lemma run_events n s : fst (run n (Streaming s)) = fst (sse_of to_string (sub_run next_entry n s)).
Proof.
  revert s. induction n as [|n IH]; intros s; [done|]. cbn [sse_run sub_run sse_poll].
  destruct (next_entry s) as [[[[e|e]|] s1]|]; simpl; [|by destruct n|done|done].
  destruct (to_string _) as [data|]; [|by destruct n]. specialize (IH s1).
  destruct (run n _) as [es fin]. simpl in *. rewrite IH. by destruct (sse_of _ _).
Qed.

Lemma run_S n st :
  run (S n) st = match sse_poll next_entry to_string st with
                 | BodyPending => ([], StillOpen)
                 | BodyEnd => ([], Closed)
                 | BodyEvent e st => let (es, fin) := run n st in (e :: es, fin)
                 end.
Proof. done. Qed.

Lemma run_closes n s :
  snd (sse_of to_string (sub_run next_entry n s)) = Closed ->
  run (S n) (Streaming s) = sse_of to_string (sub_run next_entry n s).
Proof.
  revert s. induction n as [|n IH]; intros s; [done|]. rewrite run_S. cbn [sub_run sse_poll].
  destruct (next_entry s) as [[[[e|e]|] s1]|]; [|done|done|done]. cbn [sse_of stream_item].
  destruct (to_string _) as [data|]; [|done]. intros Hc. rewrite IH by (by destruct (sse_of _ _)). done.
Qed.

Lemma sse_data_entries answers i d :
  fst (sse_of to_string answers) !! i = Some (SseData d) ->
  exists e, answers !! i = Some (Some (Ok e)) /\ to_string (to_entry e) = Some d.
Proof.
  revert i. induction answers as [|[[e|e]|] answers IH]; intros i; simpl.
  - by rewrite lookup_nil.
  - destruct (to_string _) as [data|] eqn:E.
    + destruct (sse_of to_string answers) as [es fin]. destruct i as [|i]; simpl; [|apply IH].
      intros [= <-]. by exists e.
    + by destruct i.
  - by destruct i.
  - by rewrite lookup_nil.
Qed.
End StreamFacts.

(** ** Claims *)
Section Claims.
Context `{EL : EventLog L} `{!EventLogLaws L} {Sub : Type}.
Variable subscribe : Offset -> L -> result Sub StorageError * L.

(** C35: [GET /api/v1/events] over a log that keeps its contract: a request
    the token lists do not admit gets the 401 with its challenge and reads
    nothing; an admitted one changes neither the history nor the service's
    state and is answered by exactly the entries [from .. from + limit) of
    the history with their offsets, never more than 1000, and the newest
    offset; or, only if [from] is evicted, by 410 with the offset to resume
    at; or by a 503 that is the same for every storage failure, so nothing of
    the failure's text reaches the client. *)
Theorem events_endpoint sure iter req (st : AppState L) h k from limit :
  path req = "/api/v1/events" -> params req = Ok (from, limit) -> log_rep sure (svc_log (query st)) h k ->
  (forall l r ea l', latest_offset l <> (Err (RetentionExpired r ea), l')) ->
  let f := default 0%N from in
  let n := N.min (default 100%N limit) 1000 in
  let asked := history_range h (offset_new f) (Some (offset_new (saturating_add64 f n))) in
  exists r st', router subscribe iter req st = (Plain r, st') /\
  match require_api_token (app_auth st) (authorization req) with
  | Unauthorized401 challenge _ => status_code r = 401%N /\ www_authenticate r = Some challenge /\ st' = st
  | RunNext =>
      log_rep sure (svc_log (query st')) h k /\ same_core (query st) (query st') /\ (length asked <= 1000)%nat /\
      ((r = respond 200 (PageBody {| page_entries := to_entry <$> asked;
                                     page_latest_offset := if (k <? len h)%N then Some (len h - 1)%N else None |}) /\
        (asked <> [] -> (k <= f)%N)) \/
       (r = respond 410 (ErrorJson {| error := "retention_expired";
                                      detail := evicted_text f (if (k <? len h)%N then Some k else None) |}) /\
        (f < k)%N) \/
       r = respond 503 (ErrorJson {| error := "internal"; detail := "storage backend error; see server logs" |}))
  end.
Proof.
  intros Hpath Hparams Hrep Hlatest f n asked. unfold router. rewrite Hpath, Hparams.
  repeat (rewrite bool_decide_eq_false_2 by done). rewrite (bool_decide_eq_true_2 ("/api/v1/events" = "/api/v1/events")) by done.
  unfold behind_token. destruct (require_api_token _ _) as [|c t]; [|by do 2 eexists].
  unfold events, MAX_EVENTS_LIMIT, default_limit. fold f n.
  destruct (read_events f n (query st)) as [r s] eqn:E.
  destruct (read_events_cases _ _ _ _ _ _ _ _ Hrep E) as (Hrep' & Hcore & Hr).
  do 2 eexists. split; [reflexivity|]. split; [exact Hrep'|]. split; [exact Hcore|].
  split. { unfold asked. etransitivity; [apply history_range_length|]. unfold n. lia. }
  destruct r as [[es latest]|e].
  - left. destruct Hr as (He & Hl & Hk). simpl in He, Hl, Hk. subst es latest. split; [done|].
    intros Hne. apply Hk. intros Hnil. apply Hne. by apply fmap_nil_inv in Hnil.
  - right. destruct Hr as [(e' & -> & Hl)|[[-> Hlt]|[m ->]]]; [|by left|by right].
    right. destruct e'; try done. exfalso. by eapply Hlatest.
Qed.
End Claims.

(** C36: a client of [/api/v1/events/stream] receives exactly the entries of
    its subscription, in order, up to the first answer that is not an entry:
    the body ends with the subscription, and an error (or an entry that
    cannot be serialised) is sent as one last error event after which the
    body is closed at the next poll, even if the subscription would never
    answer again.  Storage failures other than eviction all give the same
    event.  So over a subscription that follows the history from [from] on
    the [i]th data event is the entry at offset [from + i]. *)
Theorem stream_exact {Sub} (next_entry : Sub -> option (option (result LogEntry StorageError) * Sub)) to_string n s
    (h : list LogEntry) (from : N) :
  (forall i e, h !! i = Some e -> as_u64 (offset e) = N.of_nat i) ->
  (forall i e, sub_run next_entry n s !! i = Some (Some (Ok e)) -> h !! (N.to_nat from + i)%nat = Some e) ->
  fst (sse_run next_entry to_string n (Streaming s)) = fst (sse_of to_string (sub_run next_entry n s)) /\
  (snd (sse_of to_string (sub_run next_entry n s)) = Closed ->
   sse_run next_entry to_string (S n) (Streaming s) = sse_of to_string (sub_run next_entry n s)) /\
  (forall e e', (forall r ea, e <> RetentionExpired r ea) -> (forall r ea, e' <> RetentionExpired r ea) ->
   sse_error (map_storage_err e) = sse_error (map_storage_err e')) /\
  forall i d, fst (sse_run next_entry to_string n (Streaming s)) !! i = Some (SseData d) ->
    exists e, h !! (N.to_nat from + i)%nat = Some e /\
      to_string {| en_offset := from + N.of_nat i; en_event := event e |} = Some d.
Proof.
  intros Hoff Hord. split; [apply run_events|]. split; [apply run_closes|]. split.
  - intros e e' He He'. destruct e, e'; try done; exfalso; first [by eapply He|by eapply He'].
  - intros i d. rewrite run_events. intros (e & Ha & Hd)%sse_data_entries. exists e.
    pose proof (Hord i e Ha) as Hh. split; [exact Hh|]. rewrite <- Hd. unfold to_entry. do 2 f_equal.
    rewrite (Hoff _ _ Hh). lia.
Qed.

(** ** Witnesses *)
Definition sample_state : AppState MemLog.Inner :=
  {| app_node_id := "n"; query := sample_service; app_metrics := Metrics.metrics_default;
     app_auth := {| producer_tokens := []; api_tokens := ["secret"] |} |}.

Definition sample_request (token : option string) (limit : option N) : GetRequest :=
  {| path := "/api/v1/events"; params := Ok (None, limit); authorization := token |}.

Definition sample_subscribe (o : Offset) (l : MemLog.Inner) : result MemLog.Sub StorageError * MemLog.Inner :=
  (MemLog.subscribe o l, l).

Abbreviation sample_router := (router (EL := mem) sample_subscribe map_to_list).

(** Through the middleware, and the answer with a limit over the maximum. *)
Lemma events_endpoint_witness :
  exists r st', sample_router (sample_request (Some "Bearer secret") (Some 5000%N)) sample_state = (Plain r, st') /\
    @log_rep _ mem mem_laws true (svc_log (query st')) [] 0 /\ status_code r = 200%N.
Proof.
  destruct (events_endpoint (EL := mem) (EventLogLaws0 := mem_laws) sample_subscribe true map_to_list (sample_request (Some "Bearer secret") (Some 5000%N)) sample_state
    [] 0%N None (Some 5000%N) eq_refl eq_refl sample_rep) as (r & st' & Hr & Hm).
  { intros l r0 ea l'. simpl. unfold MemLog.mem_latest_offset. by repeat case_match. }
  exists r, st'. split; [exact Hr|]. revert Hm.
  change (require_api_token _ _) with RunNext. intros (Hrep & _ & _ & _). split; [exact Hrep|].
  revert Hr. vm_compute. by intros [= <- _].
Defined.

Example unauthorised :
  (fst (sample_router (sample_request (Some "Bearer guess") None) sample_state)) =
  Plain {| status_code := 401; www_authenticate := Some ("Bearer realm=" +:+ bytes_str [Byte.x22] +:+ "otk-node" +:+ bytes_str [Byte.x22]);
           body := TextBody "text/plain; charset=utf-8" (str_bytes "missing or invalid bearer token") |}.
Proof. vm_compute. reflexivity. Qed.

(** A subscription that is told what it answers. *)
Definition scripted (answers : list (option (result LogEntry StorageError))) :=
  match answers with [] => None | a :: answers => Some (a, answers) end.

Definition sample_entry (i : N) : LogEntry :=
  {| offset := offset_new i; appended_at_ns := 0; entry_producer_id := "p"; event := EvDetection detection_a |}.

Definition sample_to_string (e : EventEntry) : option bytes := Some (str_bytes (pretty (en_offset e))).

(** Entry 1 of the history, then a failure, then nothing more. *)
Lemma stream_exact_witness :
  let answers := [Some (Ok (sample_entry 1)); Some (Err (Io "/var/lib/otk: disk failure"))] in
  sse_run scripted sample_to_string 3 (Streaming answers) =
    ([SseData (str_bytes "1");
      SseError {| error := "internal"; detail := "storage backend error; see server logs" |}], Closed).
Proof.
  intros answers.
  destruct (stream_exact scripted sample_to_string 2 answers [sample_entry 0; sample_entry 1] 1) as (_ & Hc & _).
  - by intros [|[|i]] e [= <-].
  - intros [|[|[|i]]] e; simpl; [by intros [= <-]|done|done|done].
  - rewrite Hc; reflexivity.
Defined.
