(* ===== verification/Delivery.v ===== *)
(** From a producer to the log: the producer SDK, the wire, an ingest session
    and the ingest service put together.

    [session_loop] is the node's session task over a real session;
    [produce] is a producer program from the dialled connection to its end.
    The theorems say what one side of a connection gets when the other side
    is the other component of this library. *)
From stdpp Require Import base gmap strings option numbers pretty sorting list.
From Stdlib Require Import Strings.Byte.
From S2P Require Import Prelude EventModel WireProtocol TraceContext EventLogPort SequenceGate CrossingProcessor IngestService StreamCodec IngestProtocol ByteStream IngestSession Producer.
From S2P Require MemLog.

(** ** The node's session task *)
Inductive TaskEnd := TaskEnded | TaskSessionError (e : IngestError) | TaskStorageError (e : StorageError).

Section Node.
Context `{BS : ByteStream Conn} `{Ad : Adapter} `{EL : EventLog L}.
Context `{EnvCbor : Cbor OtkEnvelope} `{CborEvent : Cbor OtkEvent} `{CborHeartbeat : Cbor Heartbeat}.
Variable new_uuid : N -> string.

Fixpoint session_loop (fuel : nat) (x : IngestSession Conn) (s : EventIngestService L)
  : option (TaskEnd * EventIngestService L) :=
  match fuel with
  | O => None
  | S fuel' =>
      let! (r, x) := next_event fuel x in
      match r with
      | Ok (Some incoming) =>
          let! (r, s) := append_event new_uuid (session_producer_id x) (inc_event incoming) s in
          match r with
          | Err e => Some (TaskStorageError e, s)
          | Ok _ => session_loop fuel' x s
          end
      | Ok None => Some (TaskEnded, s)
      | Err e => Some (TaskSessionError e, s)
      end
  end.

(** The task, by the events the session gives. *)
Fixpoint append_each (pid : string) (events : list IncomingEvent) (ending : Ending)
    (s : EventIngestService L) : option (TaskEnd * EventIngestService L) :=
  match events with
  | [] => Some (match ending with CleanEnd => TaskEnded | FailedEnd e => TaskSessionError e end, s)
  | e :: events =>
      let! (r, s) := append_event new_uuid pid (inc_event e) s in
      match r with
      | Err e => Some (TaskStorageError e, s)
      | Ok _ => append_each pid events ending s
      end
  end.
End Node.

(** ** A producer program *)
Section Client.
Context `{BS : ByteStream Conn}.
Context `{EnvCbor : Cbor OtkEnvelope} `{CborEvent : Cbor OtkEvent} `{CborHeartbeat : Cbor Heartbeat}.
Context `{CborConnect : Cbor Connect} `{CborAck : Cbor ConnectAck} `{CborReject : Cbor ConnectReject}.

(** Connect, send, and disconnect where [bye] says so; the result is the
    connection as the producer leaves it. *)
Definition produce (span : SpanContext) (dialled : result Conn IoError) (config : ProducerConfig)
    (ops : list ProducerOp) (bye : option SpanContext) : option (result Conn ProducerError) :=
  match connect span dialled config with
  | Err e => Some (Err e)
  | Ok p =>
      let! (r, p) := run_ops ops p in
      match r, bye with
      | Err e, _ => Some (Err e)
      | Ok _, None => Some (Ok (p_stream p))
      | Ok _, Some span =>
          let (r, s) := disconnect span p in
          Some (match r with Ok _ => Ok s | Err e => Err e end)
      end
  end.

Definition bye_envelopes (pid : ProducerId) (bye : option SpanContext) : list OtkEnvelope :=
  match bye with Some span => [make_envelope span pid MtDisconnect None] | None => [] end.

(** The server's answer to a request. *)
Definition reply_to (auth : ConnectAuthoriser) (request : OtkEnvelope) : result OtkEnvelope HandshakeError :=
  let? outcome := perform_server_handshake_with_auth request auth in
  match outcome with Accepted reply _ | Rejected reply _ => Ok reply end.

Definition request_of (span : SpanContext) (config : ProducerConfig) (payload : bytes) : OtkEnvelope :=
  make_envelope span (id_new (cfg_producer_id config)) MtConnect (Some payload).

(** The messages of a handshake encode and fit: [cf] is the frame of the
    request, [rf] the frame of the answer. *)
Record handshake_fits (span : SpanContext) (config : ProducerConfig) (auth : ConnectAuthoriser)
    (max : N) (cf rf : bytes) : Prop := {
  hf_nonzero : cfg_max_frame_bytes config <> 0%N;
  hf_messages : exists payload reply,
    cbor_to_vec (connect_message config) = Ok payload /\
    encode_stream (request_of span config payload) MAX_FRAME_BYTES = Ok cf /\
    reply_to auth (request_of span config payload) = Ok reply /\
    encode_stream reply max = Ok rf;
  hf_reply : (len rf <= 4 + N.min (cfg_max_frame_bytes config) MAX_FRAME_BYTES)%N;
  hf_max : (MAX_FRAME_BYTES <= max)%N
}.

(** So do the messages after it, as [frames]. *)
Definition ops_fit (config : ProducerConfig) (ops : list ProducerOp) (bye : option SpanContext)
    (frames : list bytes) : Prop :=
  exists envs, op_envelopes (id_new (cfg_producer_id config)) 0 ops = Some envs /\
    Forall2 (encoded MAX_FRAME_BYTES) (envs ++ bye_envelopes (id_new (cfg_producer_id config)) bye) frames /\
    (len (events_sent ops) <= u64_max)%N.
End Client.

Definition wf_span (c : SpanContext) : Prop := length (sc_trace_id c) = 16 /\ length (sc_span_id c) = 8.

Definition op_span (op : ProducerOp) : SpanContext :=
  match op with OpEvent span _ | OpHeartbeat span _ => span end.

(** What the node is to receive. *)
Definition events_expected (ops : list ProducerOp) : list IncomingEvent :=
  omap (fun op => match op with
                  | OpEvent span e => Some {| inc_event := e; inc_traceparent := current_traceparent span |}
                  | OpHeartbeat _ _ => None end) ops.

(** ** Lemmas *)
Lemma events_expected_events ops : inc_event <$> events_expected ops = events_sent ops.
Proof. induction ops as [|[] ops IH]; simpl; [done|f_equal; exact IH|exact IH]. Qed.

Lemma count_events ops seq :
  fold_left (fun seq op => seq_after op seq) ops seq = (seq + len (events_sent ops))%N.
Proof.
  revert seq. induction ops as [|op ops IH]; intros seq; simpl; [by rewrite len_nil, N.add_0_r|].
  rewrite IH. destruct op; simpl; [|done]. change (events_sent (OpEvent span event :: ops))
    with (event :: events_sent ops). rewrite len_cons. lia.
Qed.

Lemma span_passes span :
  wf_span span -> opt_filter_valid (current_traceparent span) = Some (current_traceparent span).
Proof.
  intros [H1 H2]. destruct (current_traceparent span) as [s|] eqn:E; [|done]. simpl.
  unfold is_valid_traceparent. by rewrite (current_traceparent_parses _ _ H1 H2 E).
Qed.

Section Meaning.
Context `{EnvCbor : Cbor OtkEnvelope} `{CborEvent : Cbor OtkEvent} `{CborHeartbeat : Cbor Heartbeat}.
Context `{!CborLaws OtkEvent} `{!CborLaws Heartbeat}.

Lemma interpret_ops pid seq ops bye envs p :
  p = {| producer_id := pid; negotiated_version := PROTOCOL_VERSION |} ->
  Forall (fun op => wf_span (op_span op)) ops -> op_envelopes pid seq ops = Some envs ->
  interpret p (envs ++ bye_envelopes pid bye) CleanEnd = Some (events_expected ops, CleanEnd).
Proof.
  intros ->. revert seq envs. induction ops as [|op ops IH]; intros seq envs Hspan Henvs; simpl in *.
  { simplify_eq. simpl. destruct bye as [span|]; [|done]. simpl. unfold process. simpl.
    rewrite !bool_decide_eq_false_2 by auto. done. }
  apply List.Forall_cons_iff in Hspan as [Hs Hspan].
  destruct (op_envelope pid seq op) as [env|] eqn:He; [|done].
  destruct (op_envelopes pid _ ops) as [envs'|] eqn:Hes; [|done]. injection Henvs as <-.
  specialize (IH _ _ Hspan Hes). destruct op as [span e|span clock]; simpl in *.
  - destruct (cbor_to_vec e) as [payload|] eqn:Hp; [|done]. injection He as <-.
    unfold process. simpl. rewrite !bool_decide_eq_false_2 by auto.
    by rewrite (cbor_roundtrip _ _ Hp), span_passes, IH.
  - destruct (now_ns clock) as [now|]; [|done].
    destruct (cbor_to_vec {| sent_at_ns := now |}) as [payload|] eqn:Hp; [|done]. injection He as <-.
    unfold process. simpl. rewrite !bool_decide_eq_false_2 by auto.
    by rewrite (cbor_roundtrip _ _ Hp), IH.
Qed.
End Meaning.

Section TaskFacts.
Context `{BS : ByteStream Conn} `{Ad : Adapter} `{EL : EventLog L}.
Context `{EnvCbor : Cbor OtkEnvelope} `{CborEvent : Cbor OtkEvent} `{CborHeartbeat : Cbor Heartbeat}.
Variable new_uuid : N -> string.

Lemma fill_pending_id fuel (x : IngestSession Conn) r x' :
  fill_pending fuel x = Some (r, x') -> session_producer_id x' = session_producer_id x.
Proof.
  revert x. induction fuel as [|fuel IH]; intros x; simpl; [done|].
  destruct (read _ _) as [[[|b c]|e] s]; [by intros [= _ <-]| |by intros [= _ <-]].
  destruct (push _ _) as [[results d]|]; [|done]. destruct (queue_frames _ _) as [[[]|e] envs].
  - destruct envs; [by intros ->%IH|by intros [= _ <-]].
  - by intros [= _ <-].
Qed.

Lemma next_event_id fuel (x : IngestSession Conn) r x' :
  next_event fuel x = Some (r, x') -> session_producer_id x' = session_producer_id x.
Proof.
  revert x. induction fuel as [|fuel IH]; intros x; [done|]. cbn [next_event].
  destruct (if bool_decide (pending x = []) then _ else _) as [[r1 x1]|] eqn:Hf; [|done].
  assert (Hid : session_producer_id x1 = session_producer_id x).
  { case_bool_decide; [by eapply fill_pending_id|by simplify_eq]. }
  destruct r1 as [[]|e]; [|by intros [= _ <-]..].
  destruct (pending x1) as [|env rest]; [done|].
  destruct (process _ env) as [[[ev tp| |]|e]|]; [by intros [= _ <-]| |by intros [= _ <-]..|done].
  by intros ->%IH.
Qed.

Lemma session_loop_drain fuel (x : IngestSession Conn) (s : EventIngestService L) events ending :
  drain fuel x = Some (events, ending) ->
  session_loop new_uuid fuel x s = append_each new_uuid (session_producer_id x) events ending s.
Proof.
  revert x s events ending. induction fuel as [|fuel IH]; intros x s events ending; [done|].
  cbn [drain session_loop]. destruct (next_event (S fuel) x) as [[r x1]|] eqn:Hn; [|done].
  apply next_event_id in Hn. destruct r as [[e|]|e]; [|by intros [= <- <-]..].
  destruct (drain fuel x1) as [[es end1]|] eqn:Hd; [|done]. intros [= <- <-]. simpl. rewrite Hn.
  destruct (append_event _ _ _ _) as [[[o|err] s1]|]; [|done..].
  rewrite (IH _ _ _ _ Hd). by rewrite Hn.
Qed.

Lemma append_each_handle pid events (s : EventIngestService L) fin s' :
  handle_session new_uuid pid (Ok <$> (inc_event <$> events)) s = Some (fin, s') ->
  append_each new_uuid pid events CleanEnd s =
    Some (match fin with
          | EndedCleanly => TaskEnded
          | StorageFailed e => TaskStorageError e
          | SessionFailed e => TaskSessionError (IngestDecode e)
          end, s').
Proof.
  revert s. induction events as [|e events IH]; intros s; simpl; [by intros [= <- <-]|].
  destruct (append_event _ _ _ _) as [[[o|err] s1]|]; [|by intros [= <- <-]|done]. apply IH.
Qed.
End TaskFacts.

(** ** Both ends of a connection *)
Section Exchange.
Context `{BS : ByteStream Conn} {BL : ByteStreamLaws Conn} `{Ad : Adapter}.
Context `{EnvCbor : Cbor OtkEnvelope} `{CborEvent : Cbor OtkEvent} `{CborHeartbeat : Cbor Heartbeat}.
Context `{CborConnect : Cbor Connect} `{CborAck : Cbor ConnectAck} `{CborReject : Cbor ConnectReject}.
Context `{!CborLaws OtkEnvelope} `{!CborLaws OtkEvent} `{!CborLaws Heartbeat}.
Context `{!CborLaws Connect} `{!CborLaws ConnectAck} `{!CborLaws ConnectReject}.

Definition session_of (config : ProducerConfig) : PostHandshakeProcessor :=
  {| producer_id := id_new (cfg_producer_id config); negotiated_version := PROTOCOL_VERSION |}.

Definition verdict (auth : ConnectAuthoriser) (config : ProducerConfig) : result unit ConnectRejectReason :=
  auth (id_new (cfg_producer_id config)) (cfg_auth_token config).

(** The answer, and what its reader makes of it. *)
Lemma server_answer span config auth payload reply :
  cbor_to_vec (connect_message config) = Ok payload ->
  reply_to auth (request_of span config payload) = Ok reply ->
  match verdict auth config with
  | Ok _ =>
      perform_server_handshake_with_auth (request_of span config payload) auth =
        Ok (Accepted reply (session_of config)) /\ answer_of reply = Ok tt
  | Err why =>
      perform_server_handshake_with_auth (request_of span config payload) auth = Ok (Rejected reply why) /\
      answer_of reply = Err (PRejected why PROTOCOL_VERSION PROTOCOL_VERSION)
  end.
Proof.
  intros Hp Hr. unfold reply_to, perform_server_handshake_with_auth in *.
  rewrite (handshake_inner_decoded _ _ _ payload (connect_message config)) in *
    by (done || apply (cbor_roundtrip _ _ Hp)).
  assert (Hd : decision auth PROTOCOL_VERSION (source_id (request_of span config payload))
                 (connect_message config) = verdict auth config) by reflexivity.
  rewrite Hd in *. destruct (verdict auth config) as [[]|why].
  - destruct (build_ack_envelope _ _ _) as [r|] eqn:E; [|done]. injection Hr as ->. split; [done|].
    eapply answer_of_ack. by eapply build_ack_answers.
  - destruct (build_reject_envelope _ _ _) as [r|] eqn:E; [|done]. injection Hr as ->. split; [done|].
    eapply (answer_of_reject {| reason := why; supported_version_min := PROTOCOL_VERSION;
                                supported_version_max := PROTOCOL_VERSION |}).
    by eapply build_reject_answers.
Qed.

(** The producer's side of the handshake. *)
Lemma connect_works span config auth max cf rf (c : Conn) :
  handshake_fits span config auth max cf rf -> reliable c -> incoming c = rf ->
  match verdict auth config with
  | Ok _ => exists p, connect span (Ok c) config = Ok p /\
      written (p_stream p) = written c ++ cf /\ reliable (p_stream p) /\
      p_producer_id p = id_new (cfg_producer_id config) /\ next_seq p = 0%N
  | Err why => connect span (Ok c) config = Err (PRejected why PROTOCOL_VERSION PROTOCOL_VERSION)
  end.
Proof.
  intros [Hnz (payload & reply & Hp & Hcf & Hreply & Hrf) Hlen Hmax] Hrel Hin.
  apply encode_stream_ok in Hrf as (rp & Hrp & _ & ->).
  pose proof (server_answer span config auth payload reply Hp Hreply) as Hans.
  rewrite len_app in Hlen. unfold len at 1 in Hlen. rewrite length_to_be_bytes in Hlen.
  destruct (client_handshake_works span config c payload cf rp [] reply Hrel Hp Hcf)
    as (s' & Hh & Hw & _ & Hr); [by rewrite app_nil_r|lia|by apply cbor_roundtrip|].
  unfold connect. rewrite (proj2 (N.eqb_neq _ _) Hnz). cbn [map_err]. rewrite Hh.
  destruct (verdict auth config) as [[]|why]; destruct Hans as [_ ->]; [|done].
  eexists. split; [done|]. done.
Qed.

(** What the node decodes of what a producer wrote. *)
Lemma written_decodes span config auth max cf rf more envs frames :
  handshake_fits span config auth max cf rf -> Forall2 (encoded MAX_FRAME_BYTES) envs frames ->
  more = concat frames -> exists payload,
    cbor_to_vec (connect_message config) = Ok payload /\
    decodes (new max) (cf ++ more) (Ok <$> request_of span config payload :: envs) (new max).
Proof.
  intros [_ (payload & reply & Hp & Hcf & _) _ Hmax] Hfs ->. exists payload. split; [done|].
  split; [apply new_wf|done|]. cbn [new skip_bytes buf max_frame_size]. rewrite app_nil_l.
  rewrite <- (app_nil_r (cf ++ _)), <- (app_nil_r (Ok <$> _)).
  change (cf ++ concat frames) with (concat (cf :: frames)).
  apply (frames_encoded max MAX_FRAME_BYTES); [done|by constructor|].
  apply frames_no_header. done.
Qed.

(** The node's side of a handshake, and the events of the session. *)
Lemma serve_works `{!AdapterLaws Ad} fuel span config auth max cf rf envs frames (conn : Conn) peer :
  (forall bs e, cbor_decode (A := OtkEnvelope) bs = Ok e -> wf_envelope e) ->
  handshake_fits span config auth max cf rf -> Forall2 (encoded MAX_FRAME_BYTES) envs frames ->
  reliable conn -> incoming conn = cf ++ concat frames -> length (incoming conn) < fuel ->
  exists r conn', handshake fuel conn peer max auth = Some (r, conn') /\
    written conn' = written conn ++ rf /\
    match verdict auth config with
    | Ok _ => exists x, r = Ok x /\ session_producer_id x = cfg_producer_id config /\
        drain fuel x = interpret (session_of config) envs CleanEnd
    | Err why => exists m, r = Err (IngestHandshake m)
    end.
Proof.
  intros Htext Hfits Hfs Hrel Hin Hfuel.
  destruct (written_decodes _ _ _ _ _ _ _ _ _ Hfits Hfs eq_refl) as (payload & Hp & Hd).
  destruct Hfits as [_ (payload' & reply & Hp' & _ & Hreply & Hrf) _ _]. rewrite Hp in Hp'.
  injection Hp' as <-. pose proof (server_answer span config auth payload reply Hp Hreply) as Hans.
  rewrite <- Hin in Hd.
  destruct (connection_works Htext fuel conn peer max auth _ envs _ Hrel Hd Hfuel)
    as (r & conn' & Hh & Hm). exists r, conn'. split; [done|].
  destruct (verdict auth config) as [[]|why]; destruct Hans as [Ha _]; rewrite Ha in Hm.
  - destruct (Hm rf Hrf) as (Hw & x & -> & Hid & _ & Hdr). split; [done|].
    exists x. split; [done|]. split; [done|]. rewrite Hdr. unfold eof_ending. by rewrite eof_clean.
  - destruct Hm as [Hm Hw]. auto.
Qed.

(** The producer program on a working connection. *)
Lemma produce_works span config auth max cf rf ops bye frames (c : Conn) :
  handshake_fits span config auth max cf rf -> verdict auth config = Ok tt ->
  ops_fit config ops bye frames -> reliable c -> incoming c = rf ->
  exists c', produce span (Ok c) config ops bye = Some (Ok c') /\
    written c' = written c ++ cf ++ concat frames.
Proof.
  intros Hfits Hv (envs & Henvs & Hfs & Hcount) Hrel Hin.
  pose proof (connect_works _ _ _ _ _ _ _ Hfits Hrel Hin) as Hc. rewrite Hv in Hc.
  destruct Hc as (p & Hc & Hw & Hr & Hid & Hseq). unfold produce. rewrite Hc.
  apply Forall2_app_inv_l in Hfs as (fs1 & fs2 & Hfs1 & Hfs2 & ->).
  destruct (run_ops_works ops p envs fs1) as (p' & -> & Hw' & _ & Hr' & Hid'); [done| |done| |].
  { by rewrite Hid, Hseq. }
  { rewrite Hseq, count_events. lia. }
  rewrite concat_app. destruct bye as [sp|]; simpl in Hfs2.
  - apply Forall2_cons_inv_l in Hfs2 as (f & fs & Hf & Hnil & ->). inv Hnil.
    unfold disconnect. rewrite Hid', Hid.
    destruct (send_envelope_works _ _ (p_stream p') Hr' Hf) as (s' & -> & Hs' & _).
    exists s'. split; [done|]. rewrite Hs', Hw', Hw. simpl. by rewrite app_nil_r, <- !app_assoc.
  - inv Hfs2. exists (p_stream p'). split; [done|]. rewrite Hw', Hw. simpl.
    by rewrite app_nil_r, <- !app_assoc.
Qed.
End Exchange.

(** ** Properties *)
Section DeliveryProps.
Context `{BS : ByteStream Conn} {BL : ByteStreamLaws Conn} `{!AdapterLaws Ad}.
Context `{EL : EventLog L} `{!EventLogLaws L}.
Context `{EnvCbor : Cbor OtkEnvelope} `{CborEvent : Cbor OtkEvent} `{CborHeartbeat : Cbor Heartbeat}.
Context `{CborConnect : Cbor Connect} `{CborAck : Cbor ConnectAck} `{CborReject : Cbor ConnectReject}.
Context `{!CborLaws OtkEnvelope} `{!CborLaws OtkEvent} `{!CborLaws Heartbeat}.
Context `{!CborLaws Connect} `{!CborLaws ConnectAck} `{!CborLaws ConnectReject}.
Hypothesis decoded_text : forall bs e, cbor_decode (A := OtkEnvelope) bs = Ok e -> wf_envelope e.
Variable new_uuid : N -> string.

(** C7: both ends of a handshake agree: when the producer's [Connect] reaches
    the node and the node's answer reaches the producer, the node opens a
    session for the configured producer exactly when [connect] returns a
    producer, and otherwise [connect] reports the authoriser's own reason. *)
Theorem verdict_reported span config auth max cf rf envs frames (c conn : Conn) fuel peer :
  handshake_fits span config auth max cf rf -> Forall2 (encoded MAX_FRAME_BYTES) envs frames ->
  reliable c -> incoming c = rf ->
  reliable conn -> incoming conn = cf ++ concat frames -> length (incoming conn) < fuel ->
  exists r conn', handshake fuel conn peer max auth = Some (r, conn') /\
    written conn' = written conn ++ rf /\
    match verdict auth config with
    | Ok _ => exists x p, r = Ok x /\ session_producer_id x = cfg_producer_id config /\
        connect span (Ok c) config = Ok p /\ written (p_stream p) = written c ++ cf
    | Err why => (exists m, r = Err (IngestHandshake m)) /\
        connect span (Ok c) config = Err (PRejected why PROTOCOL_VERSION PROTOCOL_VERSION)
    end.
Proof.
  intros Hfits Hfs Hrc Hic Hrel Hin Hfuel.
  destruct (serve_works fuel _ _ _ _ _ _ _ _ conn peer decoded_text Hfits Hfs Hrel Hin Hfuel)
    as (r & conn' & Hh & Hw & Hm).
  pose proof (connect_works _ _ _ _ _ _ _ Hfits Hrc Hic) as Hc.
  exists r, conn'. split; [done|]. split; [done|]. destruct (verdict auth config) as [[]|why]; [|done].
  destruct Hm as (x & -> & Hid & _), Hc as (p & Hc & Hwp & _). by exists x, p.
Qed.

(** C6: delivery from end to end: a producer that is authorised connects, sends
    events and heartbeats and leaves; whatever way the network cuts its bytes,
    the node's session decodes exactly the events it sent, in order and with
    their trace identity, and ends cleanly; and when the events are fresh for
    the sequence gate, the log receives exactly their detections, in order,
    all of them or, if storage fails, a prefix; only a log that may fail after
    its commit may hold the event it failed for as well. *)
Theorem producer_to_log span config auth max cf rf ops bye frames (c : Conn) :
  handshake_fits span config auth max cf rf -> verdict auth config = Ok tt ->
  ops_fit config ops bye frames -> Forall (fun op => wf_span (op_span op)) ops ->
  reliable c -> written c = [] -> incoming c = rf ->
  exists c', produce span (Ok c) config ops bye = Some (Ok c') /\
  forall fuel peer (conn : Conn) sure (s : EventIngestService L) h k,
    reliable conn -> incoming conn = written c' -> length (incoming conn) < fuel ->
    log_rep sure (svc_log s) h k -> wf_proc (svc_processor s) -> Forall wf_event (events_sent ops) ->
    increasing (cfg_producer_id config) (svc_gate s) (events_sent ops) ->
    exists x conn', handshake fuel conn peer max auth = Some (Ok x, conn') /\
      written conn' = written conn ++ rf /\ drain fuel x = Some (events_expected ops, CleanEnd) /\
      exists fin s' h' k' stored late rest, session_loop new_uuid fuel x s = Some (fin, s') /\
        log_rep sure (svc_log s') h' k' /\ events_sent ops = stored ++ late ++ rest /\
        history_detections h' = history_detections h ++
          concat (event_detections (cfg_producer_id config) <$> stored ++ late) /\
        (fin = TaskEnded -> late ++ rest = []) /\ (sure = true -> late = []) /\ length late <= 1.
Proof.
  intros Hfits Hv Hops Hspans Hrc Hwc Hic.
  destruct (produce_works _ _ _ _ _ _ _ _ _ _ Hfits Hv Hops Hrc Hic) as (c' & Hc & Hw).
  rewrite Hwc, app_nil_l in Hw. exists c'. split; [done|].
  intros fuel peer conn sure s h k Hrel Hin Hfuel Hrep Hproc Hwf Hinc. rewrite Hw in Hin.
  destruct Hops as (envs & Henvs & Hfs & _).
  destruct (serve_works fuel _ _ _ _ _ _ _ _ conn peer decoded_text Hfits Hfs Hrel Hin Hfuel)
    as (r & conn' & Hh & Hwr & Hm). rewrite Hv in Hm. destruct Hm as (x & -> & Hid & Hdr).
  rewrite (interpret_ops _ 0 ops bye envs) in Hdr by done.
  exists x, conn'. do 3 (split; [done|]).
  destruct (handle_session_spec new_uuid sure (cfg_producer_id config) (events_sent ops) s h k Hrep Hproc Hwf Hinc)
    as (fin & s' & h' & k' & dn & late & rest & Hs & Hrep' & Hev & Hd & Hend & _ & Hlen & Hsure).
  rewrite <- events_expected_events in Hs. apply append_each_handle in Hs.
  rewrite <- Hid in Hs at 1. rewrite <- (session_loop_drain new_uuid _ _ _ _ _ Hdr) in Hs.
  eexists _, s', h', k', dn, late, rest. split; [exact Hs|]. do 3 (split; [done|]). split; [|done].
  intros Hfin. apply Hend. by destruct fin.
Qed.
End DeliveryProps.

(** ** Witnesses: a heartbeat, a detection and a disconnect, over a scripted
    wire and the in-memory log. *)
Definition null_span : SpanContext :=
  {| sc_trace_id := repeat x00 16; sc_span_id := repeat x00 8; sc_flags := 0 |}.

Definition my_config : ProducerConfig := with_auth_token (Some "t") (config_new "p").

Definition my_ops : list ProducerOp :=
  [OpHeartbeat null_span 5; OpEvent sample_span (EvDetection detection_a)].

Definition my_request : OtkEnvelope := request_of null_span my_config [x84; x00].
Definition my_heartbeat : OtkEnvelope := make_envelope null_span (id_new "p") MtHeartbeat (Some [x81; x05]).
Definition my_event : OtkEnvelope :=
  with_sequence 0 (make_envelope sample_span (id_new "p") MtEvent (Some [x82; x00])).
Definition my_bye : OtkEnvelope := make_envelope null_span (id_new "p") MtDisconnect None.
Definition my_ack : OtkEnvelope := server_envelope MtConnectAck (Some [x81; x00]) 0 None.
Definition my_reject : OtkEnvelope := server_envelope MtConnectReject (Some [x83; x02]) 0 None.

Definition my_connects : Cbor Connect := table_cbor [(connect_message my_config, [x84; x00])].
Definition my_events : Cbor OtkEvent := table_cbor [(EvDetection detection_a, [x82; x00])].
Definition my_heartbeats : Cbor Heartbeat := table_cbor [({| sent_at_ns := 5 |}, [x81; x05])].
Definition my_envelopes : Cbor OtkEnvelope :=
  table_cbor [(my_request, [xa1; x01]); (my_heartbeat, [xa1; x02]); (my_event, [xa1; x03]);
              (my_bye, [xa1; x04]); (my_ack, [xa1; x05]); (my_reject, [xa1; x06])].

Lemma my_laws :
  @CborLaws _ my_connects /\ @CborLaws _ my_events /\ @CborLaws _ my_heartbeats /\ @CborLaws _ my_envelopes.
Proof.
  repeat split; apply table_cbor_laws; apply (bool_decide_eq_true_1 (NoDup _)); vm_compute; reflexivity.
Qed.

Lemma my_text bs e : @cbor_decode _ my_envelopes bs = Ok e -> wf_envelope e.
Proof. simpl. repeat case_decide; intros [= <-]; vm_compute; reflexivity. Qed.

Definition frame (b : byte) : bytes := [x00; x00; x00; x02; xa1; b].

(** A codec class that is a function cannot be found by resolution. *)
Abbreviation fits auth rf :=
  (@handshake_fits my_envelopes my_connects sample_ack_cbor sample_reject_cbor null_span my_config
     auth 70000 (frame x01) rf).

Lemma my_fits : fits token_t (frame x05).
Proof.
  split; [vm_compute; discriminate| |vm_compute; discriminate|vm_compute; discriminate].
  exists [x84; x00], my_ack. split_and!; vm_compute; reflexivity.
Qed.

Definition closed_door : ConnectAuthoriser := fun _ _ => Err Unauthorized.

Lemma my_refusal_fits : fits closed_door (frame x06).
Proof.
  split; [vm_compute; discriminate| |vm_compute; discriminate|vm_compute; discriminate].
  exists [x84; x00], my_reject. split_and!; vm_compute; reflexivity.
Qed.

Definition my_frames : list bytes := [frame x02; frame x03; frame x04].

Lemma my_ops_fit : @ops_fit my_envelopes my_events my_heartbeats my_config my_ops (Some null_span) my_frames.
Proof.
  exists [my_heartbeat; my_event]. split; [vm_compute; reflexivity|]. split; [|vm_compute; discriminate].
  repeat (constructor; [vm_compute; reflexivity|]). constructor.
Qed.

Abbreviation my_handshake auth conn :=
  (@handshake Wire wire_stream TcpAdapter my_envelopes my_connects sample_ack_cbor sample_reject_cbor
     60 conn "peer" 70000 auth).

Lemma verdict_reported_witness :
  exists m conn', my_handshake closed_door (wire [Ok (frame x01)]) = Some (Err (IngestHandshake m), conn') /\
    sent conn' = frame x06 /\
    @connect Wire wire_stream my_envelopes my_connects sample_ack_cbor sample_reject_cbor null_span
      (Ok (wire [Ok (frame x06)])) my_config = Err (PRejected Unauthorized 0 0).
Proof.
  destruct my_laws as (L1 & _ & _ & L4).
  destruct (@verdict_reported Wire wire_stream wire_laws TcpAdapter tcp_laws my_envelopes my_events
    my_heartbeats my_connects sample_ack_cbor sample_reject_cbor L4 L1 sample_ack_laws sample_reject_laws
    my_text null_span my_config closed_door 70000 (frame x01) (frame x06) [] []
    (wire [Ok (frame x06)]) (wire [Ok (frame x01)]) 60 "peer" my_refusal_fits)
    as (r & conn' & Hh & Hw & (m & ->) & Hc);
    [constructor|by repeat constructor|reflexivity|by repeat constructor|reflexivity|vm_compute; lia|].
  exists m, conn'. split; [exact Hh|]. split; [exact Hw|exact Hc].
Defined.

Lemma producer_to_log_witness :
  exists c', @produce Wire wire_stream my_envelopes my_events my_heartbeats my_connects sample_ack_cbor
      sample_reject_cbor null_span (Ok (wire [Ok [x00; x00]; Ok [x00; x02; xa1; x05]])) my_config my_ops
      (Some null_span) = Some (Ok c') /\
    exists x conn', my_handshake token_t (wire [Ok [x00]; Ok (drop 1 (sent c'))]) = Some (Ok x, conn') /\
      exists fin s' h' k' stored late rest,
        @session_loop Wire wire_stream TcpAdapter _ mem my_envelopes my_events my_heartbeats
          sample_uuid 60 x sample_service = Some (fin, s') /\
        @log_rep _ mem mem_laws true (svc_log s') h' k' /\
        [EvDetection detection_a] = stored ++ late ++ rest /\
        history_detections h' = [] ++ concat (event_detections "p" <$> stored ++ late) /\
        (fin = TaskEnded -> late ++ rest = []) /\ (true = true -> late = []) /\ length late <= 1.
Proof.
  destruct my_laws as (L1 & L2 & L3 & L4).
  destruct (@producer_to_log Wire wire_stream wire_laws TcpAdapter tcp_laws _ mem mem_laws my_envelopes
    my_events my_heartbeats my_connects sample_ack_cbor sample_reject_cbor L4 L2 L3 L1 sample_ack_laws
    sample_reject_laws my_text sample_uuid null_span my_config token_t 70000 (frame x01) (frame x05)
    my_ops (Some null_span) my_frames (wire [Ok [x00; x00]; Ok [x00; x02; xa1; x05]]) my_fits
    eq_refl my_ops_fit) as (c' & Hc & Hrest);
    [repeat (constructor; [by split|]); constructor|by repeat constructor|reflexivity|reflexivity|].
  exists c'. split; [exact Hc|].
  assert (Hsent : sent c' = frame x01 ++ concat my_frames)
    by (vm_compute in Hc; injection Hc as <-; vm_compute; reflexivity).
  destruct (Hrest 60 "peer" (wire [Ok [x00]; Ok (drop 1 (sent c'))]) true sample_service [] 0%N)
    as (x & conn' & Hh & _ & _ & Hlog).
  - by repeat constructor.
  - change (written c') with (sent c'). rewrite Hsent. vm_compute. reflexivity.
  - rewrite Hsent. vm_compute. lia.
  - apply sample_rep.
  - apply sample_svc_proc.
  - constructor; [apply detection_a_wf|constructor].
  - split; [vm_compute; reflexivity|done].
  - exists x, conn'. split; [exact Hh|exact Hlog].
Defined.
