(* ===== verification/Contracts.v ===== *)
(** The contracts of event sources (crate [otk-contracts], [adapter.rs] and
    [timebase.rs]): the two traits as classes, what their documentation asks
    of an implementation as laws, and the minimal implementations of the
    conformance tests ([conformance/tests/contracts_dyn_safety.rs]) as
    instances.

    A call of a detector's [next_event] reads the system clock through
    [clock], whose argument counts the readings of the call; its [None] is a
    panic. *)
From stdpp Require Import base strings option numbers list.
From S2P Require Import Prelude EventModel.

(** ** Detector adapters *)
Inductive AdapterState := Initializing | Running | AdDegraded | Stopped | AdFailed.

Inductive AdapterEvent :=
  | AeDetection (d : Detection)
  | AeHealth (h : DetectorHealthEvent)
  | AeMetadata (m : AdapterMetadataEvent).

Inductive AdapterError :=
  | DeviceNotFound (m : string)
  | DeviceDisconnected
  | AeConfiguration (m : string)
  | AeIo (m : string).

Definition adapter_event_to_otk (event : AdapterEvent) : OtkEvent :=
  match event with
  | AeDetection d => EvDetection d
  | AeHealth h => EvDetectorHealth h
  | AeMetadata m => EvAdapterMetadata m
  end.

Class DetectorAdapter (A : Type) : Type := {
  adapter_detector_id : A -> DetectorId;
  adapter_state : A -> AdapterState;
  start : A -> result unit AdapterError * A;
  stop : A -> result unit AdapterError * A;
  next_event : (nat -> Z) -> A -> option (option (result AdapterEvent AdapterError) * A)
}.

(** [From<std::io::Error>], on the text of the error. *)
Definition adapter_error_from_io (text : string) : AdapterError := AeIo text.

Definition AdapterError_display (e : AdapterError) : string :=
  match e with
  | DeviceNotFound m => "device not found: " +:+ m
  | DeviceDisconnected => "device disconnected"
  | AeConfiguration m => "configuration error: " +:+ m
  | AeIo m => "I/O error: " +:+ m
  end.

(** The documented lifecycle, of an adapter in one of its [initial] states: it
    runs once it is started, its first event is its metadata, and it says so
    when it is stopped. *)
Class DetectorAdapterLaws (A : Type) `{DetectorAdapter A} (initial : A -> Prop) : Prop := {
  started_runs a a' : initial a -> start a = (Ok tt, a') -> adapter_state a' = Running;
  metadata_first a a' clock ev a'' :
    initial a -> start a = (Ok tt, a') -> next_event clock a' = Some (Some (Ok ev), a'') -> exists m, ev = AeMetadata m;
  stop_stops a a' : stop a = (Ok tt, a') -> adapter_state a' = Stopped
}.

(** ** Timebases *)
Inductive TimebaseState := TbInitializing | TbRunning | TbDegraded | TbStopped | TbFailed.

Inductive TimebaseKind := Gnss | Ptp | Ntp | Local | TkOther (name : string).

Record TimebaseMetadataEvent := {
  tm_timebase_id : TimebaseId;
  tm_kind : TimebaseKind;
  tm_declared_uncertainty_ns : option N;
  tm_source_attestation : SourceAttestation;
  tm_declared_at_ns : N
}.

Inductive TimebaseEvent := TeStatus (s : TimebaseStatusEvent) | TeMetadata (m : TimebaseMetadataEvent).

Inductive TimebaseError :=
  | TbDeviceNotFound (m : string)
  | TbDeviceDisconnected
  | TbConfiguration (m : string)
  | TbIo (m : string).

Definition timebase_error_from_io (text : string) : TimebaseError := TbIo text.

Class Timebase (T : Type) : Type := {
  tb_timebase_id : T -> TimebaseId;
  tb_state : T -> TimebaseState;
  tb_start : T -> result unit TimebaseError * T;
  tb_stop : T -> result unit TimebaseError * T;
  tb_next_event : T -> option (result TimebaseEvent TimebaseError) * T
}.

Class TimebaseLaws (T : Type) `{Timebase T} (initial : T -> Prop) : Prop := {
  tb_started_runs t t' : initial t -> tb_start t = (Ok tt, t') -> tb_state t' = TbRunning;
  tb_metadata_first t t' ev t'' :
    initial t -> tb_start t = (Ok tt, t') -> tb_next_event t' = (Some (Ok ev), t'') -> exists m, ev = TeMetadata m;
  tb_stop_stops t t' : tb_stop t = (Ok tt, t') -> tb_state t' = TbStopped
}.

(** ** The implementations of the conformance tests *)
Record MinimalDetector := { md_id : DetectorId; md_state : AdapterState; md_yielded_metadata : bool }.

Definition minimal_detector : MinimalDetector :=
  {| md_id := id_new "test-detector"; md_state := Initializing; md_yielded_metadata := false |}.

Definition md_with_state (st : AdapterState) (a : MinimalDetector) : MinimalDetector :=
  {| md_id := md_id a; md_state := st; md_yielded_metadata := md_yielded_metadata a |}.

Definition md_next_event (a : MinimalDetector) : option (result AdapterEvent AdapterError) * MinimalDetector :=
  if md_yielded_metadata a then (None, a) else
  (Some (Ok (AeMetadata {|
     am_detector_id := md_id a; am_timing_point_id := id_new "tp-1"; am_timebase_id := id_new "tb-1";
     am_source_attestation := OperatorAsserted; am_declared_at_ns := 0;
     am_capabilities := {| ac_streams := []; ac_timestamping_method := AdapterReceiveTime;
                           ac_declared_resolution_ns := None |} |})),
   {| md_id := md_id a; md_state := md_state a; md_yielded_metadata := true |}).

#[export] Instance minimal_detector_adapter : DetectorAdapter MinimalDetector := {|
  adapter_detector_id := md_id;
  adapter_state := md_state;
  start a := (Ok tt, md_with_state Running a);
  stop a := (Ok tt, md_with_state Stopped a);
  next_event _ a := Some (md_next_event a)
|}.

Record MinimalTimebase := {
  mt_id : TimebaseId;
  mt_state : TimebaseState;
  mt_yielded_metadata : bool;
  mt_yielded_status : bool
}.

Definition minimal_timebase : MinimalTimebase :=
  {| mt_id := id_new "test-tb"; mt_state := TbInitializing; mt_yielded_metadata := false; mt_yielded_status := false |}.

Definition mt_with_state (st : TimebaseState) (t : MinimalTimebase) : MinimalTimebase :=
  {| mt_id := mt_id t; mt_state := st; mt_yielded_metadata := mt_yielded_metadata t;
     mt_yielded_status := mt_yielded_status t |}.

Definition mt_next_event (t : MinimalTimebase) : option (result TimebaseEvent TimebaseError) * MinimalTimebase :=
  if negb (mt_yielded_metadata t) then
    (Some (Ok (TeMetadata {|
       tm_timebase_id := mt_id t; tm_kind := Local; tm_declared_uncertainty_ns := Some 1000000%N;
       tm_source_attestation := OperatorAsserted; tm_declared_at_ns := 0 |})),
     {| mt_id := mt_id t; mt_state := mt_state t; mt_yielded_metadata := true; mt_yielded_status := mt_yielded_status t |})
  else if negb (mt_yielded_status t) then
    (Some (Ok (TeStatus {|
       ts_timebase_id := mt_id t; ts_reported_at_ns := 0; ts_sync_state := Locked; ts_uncertainty_ns := None;
       ts_source_attestation := OperatorAsserted |})),
     {| mt_id := mt_id t; mt_state := mt_state t; mt_yielded_metadata := mt_yielded_metadata t; mt_yielded_status := true |})
  else (None, t).

#[export] Instance minimal_timebase_contract : Timebase MinimalTimebase := {|
  tb_timebase_id := mt_id;
  tb_state := mt_state;
  tb_start t := (Ok tt, mt_with_state TbRunning t);
  tb_stop t := (Ok tt, mt_with_state TbStopped t);
  tb_next_event := mt_next_event
|}.

#[export] Instance minimal_detector_laws : DetectorAdapterLaws MinimalDetector (eq minimal_detector).
Proof.
  split; simpl.
  - by intros a a' <- [= <-].
  - intros a a' clock ev a'' <- [= <-] [= <- _]. by eexists.
  - by intros a a' [= <-].
Qed.

#[export] Instance minimal_timebase_laws : TimebaseLaws MinimalTimebase (eq minimal_timebase).
Proof.
  split; simpl.
  - by intros t t' <- [= <-].
  - intros t t' ev t'' <- [= <-] [= <- _]. by eexists.
  - by intros t t' [= <-].
Qed.
