(* ===== verification/Builders.v ===== *)
(** The event builders of the SDK ([otk-sdk], [producer/builder.rs]) and the
    stub of its query client ([client]).  [build] reads the system clock;
    [None] is the panic of [now_ns].  A built detection is in the range of its
    types, and the identifiers built by default are distinct. *)
From Stdlib Require Import Strings.Byte.
From stdpp Require Import base strings option numbers pretty list.
From S2P Require Import Prelude EventModel Producer.

Record DetectionBuilder := {
  db_detector_id : DetectorId;
  db_timing_point_id : TimingPointId;
  db_detected_at_ns : N;
  db_sequence_number : N;
  db_detection_id : option DetectionId;
  db_subject_id : option SubjectId;
  db_timebase_id : TimebaseId;
  db_timestamping_method : TimestampingMethod;
  db_source_attestation : SourceAttestation;
  db_sensor : SensorData;
  db_uncertainty_ns : option N
}.

Definition detection_builder (detector_id : DetectorId) (timing_point_id : TimingPointId)
    (detected_at_ns sequence_number : N) : DetectionBuilder :=
  {| db_detector_id := detector_id; db_timing_point_id := timing_point_id;
     db_detected_at_ns := detected_at_ns; db_sequence_number := sequence_number;
     db_detection_id := None; db_subject_id := None; db_timebase_id := id_new "local";
     db_timestamping_method := AdapterReceiveTime; db_source_attestation := OperatorAsserted;
     db_sensor := LoopTransponder None None; db_uncertainty_ns := None |}.

Definition db_with_detection_id (id : DetectionId) (b : DetectionBuilder) : DetectionBuilder :=
  {| db_detector_id := db_detector_id b; db_timing_point_id := db_timing_point_id b;
     db_detected_at_ns := db_detected_at_ns b; db_sequence_number := db_sequence_number b;
     db_detection_id := Some id; db_subject_id := db_subject_id b; db_timebase_id := db_timebase_id b;
     db_timestamping_method := db_timestamping_method b;
     db_source_attestation := db_source_attestation b; db_sensor := db_sensor b;
     db_uncertainty_ns := db_uncertainty_ns b |}.

Definition db_with_subject (id : SubjectId) (b : DetectionBuilder) : DetectionBuilder :=
  {| db_detector_id := db_detector_id b; db_timing_point_id := db_timing_point_id b;
     db_detected_at_ns := db_detected_at_ns b; db_sequence_number := db_sequence_number b;
     db_detection_id := db_detection_id b; db_subject_id := Some id; db_timebase_id := db_timebase_id b;
     db_timestamping_method := db_timestamping_method b;
     db_source_attestation := db_source_attestation b; db_sensor := db_sensor b;
     db_uncertainty_ns := db_uncertainty_ns b |}.

Definition db_with_timebase (id : TimebaseId) (b : DetectionBuilder) : DetectionBuilder :=
  {| db_detector_id := db_detector_id b; db_timing_point_id := db_timing_point_id b;
     db_detected_at_ns := db_detected_at_ns b; db_sequence_number := db_sequence_number b;
     db_detection_id := db_detection_id b; db_subject_id := db_subject_id b; db_timebase_id := id;
     db_timestamping_method := db_timestamping_method b;
     db_source_attestation := db_source_attestation b; db_sensor := db_sensor b;
     db_uncertainty_ns := db_uncertainty_ns b |}.

Definition db_with_method (method : TimestampingMethod) (b : DetectionBuilder) : DetectionBuilder :=
  {| db_detector_id := db_detector_id b; db_timing_point_id := db_timing_point_id b;
     db_detected_at_ns := db_detected_at_ns b; db_sequence_number := db_sequence_number b;
     db_detection_id := db_detection_id b; db_subject_id := db_subject_id b;
     db_timebase_id := db_timebase_id b; db_timestamping_method := method;
     db_source_attestation := db_source_attestation b; db_sensor := db_sensor b;
     db_uncertainty_ns := db_uncertainty_ns b |}.

Definition db_with_attestation (attestation : SourceAttestation) (b : DetectionBuilder) : DetectionBuilder :=
  {| db_detector_id := db_detector_id b; db_timing_point_id := db_timing_point_id b;
     db_detected_at_ns := db_detected_at_ns b; db_sequence_number := db_sequence_number b;
     db_detection_id := db_detection_id b; db_subject_id := db_subject_id b;
     db_timebase_id := db_timebase_id b; db_timestamping_method := db_timestamping_method b;
     db_source_attestation := attestation; db_sensor := db_sensor b;
     db_uncertainty_ns := db_uncertainty_ns b |}.

Definition db_with_sensor (sensor : SensorData) (b : DetectionBuilder) : DetectionBuilder :=
  {| db_detector_id := db_detector_id b; db_timing_point_id := db_timing_point_id b;
     db_detected_at_ns := db_detected_at_ns b; db_sequence_number := db_sequence_number b;
     db_detection_id := db_detection_id b; db_subject_id := db_subject_id b;
     db_timebase_id := db_timebase_id b; db_timestamping_method := db_timestamping_method b;
     db_source_attestation := db_source_attestation b; db_sensor := sensor;
     db_uncertainty_ns := db_uncertainty_ns b |}.

Definition db_with_uncertainty (ns : N) (b : DetectionBuilder) : DetectionBuilder :=
  {| db_detector_id := db_detector_id b; db_timing_point_id := db_timing_point_id b;
     db_detected_at_ns := db_detected_at_ns b; db_sequence_number := db_sequence_number b;
     db_detection_id := db_detection_id b; db_subject_id := db_subject_id b;
     db_timebase_id := db_timebase_id b; db_timestamping_method := db_timestamping_method b;
     db_source_attestation := db_source_attestation b; db_sensor := db_sensor b;
     db_uncertainty_ns := Some ns |}.

Definition build_detection (clock : Z) (b : DetectionBuilder) : option Detection :=
  let id := match db_detection_id b with
            | Some id => id
            | None => id_new (as_str (db_detector_id b) +:+ "-" +:+ pretty (db_sequence_number b))
            end in
  let! received := now_ns clock in
  Some {| detection_id := id; detector_id := db_detector_id b;
          timing_point_id := db_timing_point_id b; subject_id := db_subject_id b;
          detected_at_ns := db_detected_at_ns b; detected_at_uncertainty_ns := db_uncertainty_ns b;
          received_at_ns := Some received; timestamping_method := db_timestamping_method b;
          timebase_id := db_timebase_id b; source_attestation := db_source_attestation b;
          sequence_number := db_sequence_number b; sensor := db_sensor b |}.

Record MetadataBuilder := {
  mb_detector_id : DetectorId;
  mb_timing_point_id : TimingPointId;
  mb_timebase_id : TimebaseId;
  mb_source_attestation : SourceAttestation;
  mb_timestamping_method : TimestampingMethod;
  mb_resolution_ns : option N;
  mb_streams : list StreamDescriptor
}.

Definition metadata_builder (detector_id : DetectorId) (timing_point_id : TimingPointId) : MetadataBuilder :=
  {| mb_detector_id := detector_id; mb_timing_point_id := timing_point_id;
     mb_timebase_id := id_new "local"; mb_source_attestation := OperatorAsserted;
     mb_timestamping_method := AdapterReceiveTime; mb_resolution_ns := None; mb_streams := [] |}.

Definition mb_with_timebase (id : TimebaseId) (b : MetadataBuilder) : MetadataBuilder :=
  {| mb_detector_id := mb_detector_id b; mb_timing_point_id := mb_timing_point_id b;
     mb_timebase_id := id; mb_source_attestation := mb_source_attestation b;
     mb_timestamping_method := mb_timestamping_method b; mb_resolution_ns := mb_resolution_ns b;
     mb_streams := mb_streams b |}.

Definition mb_with_attestation (attestation : SourceAttestation) (b : MetadataBuilder) : MetadataBuilder :=
  {| mb_detector_id := mb_detector_id b; mb_timing_point_id := mb_timing_point_id b;
     mb_timebase_id := mb_timebase_id b; mb_source_attestation := attestation;
     mb_timestamping_method := mb_timestamping_method b; mb_resolution_ns := mb_resolution_ns b;
     mb_streams := mb_streams b |}.

Definition mb_with_method (method : TimestampingMethod) (b : MetadataBuilder) : MetadataBuilder :=
  {| mb_detector_id := mb_detector_id b; mb_timing_point_id := mb_timing_point_id b;
     mb_timebase_id := mb_timebase_id b; mb_source_attestation := mb_source_attestation b;
     mb_timestamping_method := method; mb_resolution_ns := mb_resolution_ns b; mb_streams := mb_streams b |}.

Definition mb_with_resolution (ns : N) (b : MetadataBuilder) : MetadataBuilder :=
  {| mb_detector_id := mb_detector_id b; mb_timing_point_id := mb_timing_point_id b;
     mb_timebase_id := mb_timebase_id b; mb_source_attestation := mb_source_attestation b;
     mb_timestamping_method := mb_timestamping_method b; mb_resolution_ns := Some ns;
     mb_streams := mb_streams b |}.

Definition mb_with_stream (descriptor : StreamDescriptor) (b : MetadataBuilder) : MetadataBuilder :=
  {| mb_detector_id := mb_detector_id b; mb_timing_point_id := mb_timing_point_id b;
     mb_timebase_id := mb_timebase_id b; mb_source_attestation := mb_source_attestation b;
     mb_timestamping_method := mb_timestamping_method b; mb_resolution_ns := mb_resolution_ns b;
     mb_streams := mb_streams b ++ [descriptor] |}.

Definition build_metadata (clock : Z) (b : MetadataBuilder) : option AdapterMetadataEvent :=
  let! now := now_ns clock in
  Some {| am_detector_id := mb_detector_id b; am_timing_point_id := mb_timing_point_id b;
          am_timebase_id := mb_timebase_id b; am_source_attestation := mb_source_attestation b;
          am_declared_at_ns := now;
          am_capabilities := {| ac_streams := mb_streams b;
                                ac_timestamping_method := mb_timestamping_method b;
                                ac_declared_resolution_ns := mb_resolution_ns b |} |}.

Record HealthEventBuilder := {
  hb_detector_id : DetectorId;
  hb_status : DetectorHealthStatus;
  hb_message : option string
}.

Definition hb_healthy (detector_id : DetectorId) : HealthEventBuilder :=
  {| hb_detector_id := detector_id; hb_status := Healthy; hb_message := None |}.

Definition hb_degraded (detector_id : DetectorId) (reason : string) : HealthEventBuilder :=
  {| hb_detector_id := detector_id; hb_status := Degraded reason; hb_message := None |}.

Definition hb_failed (detector_id : DetectorId) (reason : string) : HealthEventBuilder :=
  {| hb_detector_id := detector_id; hb_status := Failed reason; hb_message := None |}.

Definition hb_with_message (msg : string) (b : HealthEventBuilder) : HealthEventBuilder :=
  {| hb_detector_id := hb_detector_id b; hb_status := hb_status b; hb_message := Some msg |}.

Definition build_health (clock : Z) (b : HealthEventBuilder) : option DetectorHealthEvent :=
  let! now := now_ns clock in
  Some {| dh_detector_id := hb_detector_id b; dh_reported_at_ns := now; dh_status := hb_status b;
          dh_message := hb_message b |}.

(** ** The stub of the query client *)
Module Client.

Record OtkClient := { client_base_url : string }.

Definition client_new (base_url : string) : OtkClient := {| client_base_url := base_url |}.
Definition base_url (c : OtkClient) : string := client_base_url c.

Inductive ClientError :=
  | CeHttp (e : string)
  | CeDecode (e : string)
  | CeClosed.

Definition ClientError_display (e : ClientError) : string :=
  match e with
  | CeHttp m => "HTTP error: " +:+ m
  | CeDecode m => "decode error: " +:+ m
  | CeClosed => "connection closed"
  end.

End Client.

(** ** Identifiers built by default *)
Definition DASH : byte := x2d.

Lemma pretty_no_dash (n : N) : DASH ∉ str_bytes (pretty n).
Proof.
  assert (H : Forall (fun b => b <> DASH) (str_bytes (pretty n))).
  { apply pretty_N_bytes. intros k. unfold pretty_N_char. by repeat case_match. }
  intros Hin. by apply (proj1 (Forall_forall _ _) H) in Hin.
Qed.

Lemma dashed_inj (s t : string) (m n : N) : s +:+ "-" +:+ pretty m = t +:+ "-" +:+ pretty n -> s = t /\ m = n.
Proof.
  intros H. apply (f_equal str_bytes) in H. rewrite !str_bytes_app in H.
  apply (last_sep_inj DASH) in H as [Hs Hn]; [|apply pretty_no_dash..].
  by simplify_eq.
Qed.

(** Two detections built without an identifier of their own get the same one
    exactly when they are of the same detector and have the same sequence
    number: dashes in the names of detectors cannot make two identifiers meet. *)
Theorem default_ids_distinct b1 b2 c1 c2 d1 d2 :
  db_detection_id b1 = None -> db_detection_id b2 = None ->
  build_detection c1 b1 = Some d1 -> build_detection c2 b2 = Some d2 ->
  detection_id d1 = detection_id d2 <->
  db_detector_id b1 = db_detector_id b2 /\ db_sequence_number b1 = db_sequence_number b2.
Proof.
  unfold build_detection. intros -> -> H1 H2.
  destruct (now_ns c1); [|done]. destruct (now_ns c2); [|done]. simplify_eq/=. split.
  - intros [= [Hd Hn]%dashed_inj]. split; [|done].
    destruct (db_detector_id b1), (db_detector_id b2). simpl in Hd. by subst.
  - by intros [-> ->].
Qed.

(** A build panics only when the clock is before the epoch or beyond 64 bits of
    nanoseconds. *)
Theorem builds_unless_clock clock b m h :
  (0 <= clock <= Z.of_N u64_max)%Z <->
  is_Some (build_detection clock b) /\ is_Some (build_metadata clock m) /\ is_Some (build_health clock h).
Proof.
  unfold build_detection, build_metadata, build_health, now_ns.
  destruct (Z.ltb_spec clock 0) as [Hc|Hc]; [split; [lia|intros [[? ?] _]; done]|].
  destruct (N.ltb_spec u64_max (Z.to_N clock)) as [Hm|Hm]; split; try (intros [[? ?] _]; done); try lia.
  intros _. repeat split; eauto.
Qed.

(** What is built from parts in the range of their types is in that range: it
    can be encoded, and sent. *)
Theorem built_detection_typed clock b d :
  wf_u64 (db_detected_at_ns b) -> wf_u64 (db_sequence_number b) -> wf_opt_u64 (db_uncertainty_ns b) ->
  wf_sensor (db_sensor b) -> build_detection clock b = Some d -> wf_Detection d.
Proof.
  unfold build_detection, now_ns. intros Ht Hs Hu Hw H.
  destruct (clock <? 0)%Z; [done|]. destruct (N.ltb_spec u64_max (Z.to_N clock)); [done|].
  simplify_eq/=. by constructor.
Qed.

(** The texts of the client's errors tell them apart. *)
Theorem client_errors_told_apart e1 e2 :
  Client.ClientError_display e1 = Client.ClientError_display e2 -> e1 = e2.
Proof. destruct e1, e2; intros H; simplify_eq/=; done. Qed.
