(* ===== verification/DetectorAdapter.v ===== *)
(** The loop that publishes an adapter's events ([producer-simulated],
    [runner.rs]), over any [DetectorAdapter].

    What [tokio::select!] picks in each turn of the loop is a list of turns;
    [None] is a panic. *)
From stdpp Require Import base strings option numbers pretty sorting list.
From S2P Require Import Prelude EventModel WireProtocol TraceContext ByteStream Producer Contracts.

(** ** The publishing loop *)
Inductive RunError := RunAdapter (e : AdapterError) | RunProducer (e : ProducerError).

(** The branch [select!] takes in a turn: the adapter's next event (with the
    span it is sent under), or a change of the shutdown channel, which may be
    closed. *)
Inductive Turn :=
  | TurnEvent (clock : nat -> Z) (span : SpanContext)
  | TurnShutdown (signalled : bool)
  | TurnClosed.

Section Runner.
Context `{DA : DetectorAdapter A} `{BS : ByteStream Conn}.
Context `{EnvCbor : Cbor OtkEnvelope} `{CborEvent : Cbor OtkEvent}.
Context `{CborConnect : Cbor Connect} `{CborAck : Cbor ConnectAck} `{CborReject : Cbor ConnectReject}.

(** [RunGoing]: the turns are used up and the loop is still running. *)
Inductive RunEnd :=
  | RunGoing (a : A) (p : Producer Conn)
  | RunEnded (r : result unit RunError) (a : A) (s : option Conn).

(** After the loop: stop the adapter, disconnect. *)
Definition finish (span : SpanContext) (a : A) (p : Producer Conn) : RunEnd :=
  let (_, a) := stop a in
  let (r, s) := disconnect span p in
  RunEnded (map_err RunProducer r) a (Some s).

Fixpoint run_loop (bye : SpanContext) (turns : list Turn) (a : A) (p : Producer Conn) : option RunEnd :=
  match turns with
  | [] => Some (RunGoing a p)
  | TurnEvent clock span :: turns =>
      let! (event, a) := next_event clock a in
      match event with
      | Some (Ok ev) =>
          let! (r, p) := send_event span (adapter_event_to_otk ev) p in
          match r with
          | Err e => let (_, a) := stop a in
                     Some (RunEnded (Err (RunProducer e)) a (Some (p_stream p)))
          | Ok _ => run_loop bye turns a p
          end
      | Some (Err e) => let (_, a) := stop a in
                        Some (RunEnded (Err (RunAdapter e)) a (Some (p_stream p)))
      | None => Some (finish bye a p)
      end
  | TurnShutdown true :: _ | TurnClosed :: _ => Some (finish bye a p)
  | TurnShutdown false :: turns => run_loop bye turns a p
  end.

(** [run]: [span] is current when it connects, [bye] when it disconnects. *)
Definition run (span bye : SpanContext) (dialled : result Conn IoError) (config : ProducerConfig)
    (turns : list Turn) (a : A) : option RunEnd :=
  let (r, a) := start a in
  match r with
  | Err e => Some (RunEnded (Err (RunAdapter e)) a None)
  | Ok _ =>
      match connect span dialled config with
      | Err e => let (_, a) := stop a in Some (RunEnded (Err (RunProducer e)) a None)
      | Ok p => run_loop bye turns a p
      end
  end.
End Runner.

Arguments RunEnd : clear implicits.
