(* ===== verification/Simulator.v ===== *)
(** The simulated detector (crate [producer-simulated], [adapter.rs] and
    [config.rs]) and what it publishes.

    [SimulatorAdapter] implements the [DetectorAdapter] interface; its timer
    only delays, so it is not modelled.  [run_is_produce] reduces the
    publishing loop over any adapter to the producer program of [Delivery]. *)
From stdpp Require Import base gmap strings option numbers pretty sorting list.
From Stdlib Require Import Strings.Byte.
From S2P Require Import Prelude EventModel WireProtocol TraceContext EventLogPort SequenceGate CrossingProcessor IngestService IngestProtocol ByteStream IngestSession Producer Delivery Contracts Builders DetectorAdapter.
From S2P Require MemLog.

Record TlsClientConfig := {
  tls_trust_roots : string;
  tls_server_name : string;
  tls_client_cert : option string;
  tls_client_key : option string
}.

Record SimulatorConfig := {
  sc_detector_id : string;
  sc_timing_point_ids : list string;
  sc_subject_ids : list string;
  sc_timebase_id : string;
  sc_detection_interval_ms : N;
  sc_count : option N;
  sc_node_addr : string;
  sc_producer_id : string;
  sc_auth_token : option string;
  sc_tls : option TlsClientConfig
}.

Definition simulator_default : SimulatorConfig :=
  {| sc_detector_id := "sim-detector-1"; sc_timing_point_ids := ["tp-start"]; sc_subject_ids := [];
     sc_timebase_id := "local"; sc_detection_interval_ms := 1000; sc_count := None;
     sc_node_addr := "127.0.0.1:8463"; sc_producer_id := "otk-simulator"; sc_auth_token := None;
     sc_tls := None |}.

Inductive Phase := PendingMetadata | PendingHealth | Generating (emitted : N) | PhDone.

Record SimulatorAdapter := {
  sim_config : SimulatorConfig;
  sim_state : AdapterState;
  sim_phase : Phase;
  sim_seq : N;
  sim_detector_id : DetectorId;
  sim_timebase_id : TimebaseId;
  sim_timing_point_ids : list TimingPointId;
  sim_subject_ids : list SubjectId
}.

Definition simulator_new (config : SimulatorConfig) : SimulatorAdapter :=
  {| sim_config := config; sim_state := Initializing; sim_phase := PendingMetadata;
     sim_seq := counter_new; sim_detector_id := id_new (sc_detector_id config);
     sim_timebase_id := id_new (sc_timebase_id config);
     sim_timing_point_ids := id_new <$> sc_timing_point_ids config;
     sim_subject_ids := id_new <$> sc_subject_ids config |}.

Definition primary_timing_point (a : SimulatorAdapter) : TimingPointId :=
  default (id_new "tp-default") (sim_timing_point_ids a !! 0).

Definition sim_set (st : AdapterState) (ph : Phase) (seq : N) (a : SimulatorAdapter) : SimulatorAdapter :=
  {| sim_config := sim_config a; sim_state := st; sim_phase := ph; sim_seq := seq;
     sim_detector_id := sim_detector_id a; sim_timebase_id := sim_timebase_id a;
     sim_timing_point_ids := sim_timing_point_ids a; sim_subject_ids := sim_subject_ids a |}.

Definition sim_start (a : SimulatorAdapter) : result unit AdapterError * SimulatorAdapter :=
  match sim_timing_point_ids a with
  | [] => (Err (AeConfiguration "timing_point_ids must not be empty"), a)
  | _ => (Ok tt, sim_set Running (sim_phase a) (sim_seq a) a)
  end.

Definition sim_stop (a : SimulatorAdapter) : result unit AdapterError * SimulatorAdapter :=
  (Ok tt, sim_set Stopped (sim_phase a) (sim_seq a) a).

(** The detection of turn [emitted]; [clock] is read for the detection time
    and by the builder. *)
Definition sim_detection (clock : nat -> Z) (emitted seq : N) (a : SimulatorAdapter) : option Detection :=
  let tps := sim_timing_point_ids a in
  let subjects := sim_subject_ids a in
  let tp := default (id_new "tp-default") (tps !! N.to_nat (emitted mod N.max (len tps) 1)) in
  let! subject_id :=
    match subjects with
    | [] => Some None
    | _ => let! id := subjects !! N.to_nat (emitted mod len subjects) in Some (Some id)
    end in
  let! now := now_ns (clock 0) in
  let builder := db_with_timebase (sim_timebase_id a)
                   (detection_builder (sim_detector_id a) tp now seq) in
  let builder := match subject_id with Some sid => db_with_subject sid builder | None => builder end in
  build_detection (clock 1) builder.

Definition sim_next_event (clock : nat -> Z) (a : SimulatorAdapter)
  : option (option (result AdapterEvent AdapterError) * SimulatorAdapter) :=
  match sim_phase a with
  | PendingMetadata =>
      let! event := build_metadata (clock 0)
        (mb_with_attestation OperatorAsserted (mb_with_method AdapterReceiveTime (mb_with_timebase (sim_timebase_id a)
           (metadata_builder (sim_detector_id a) (primary_timing_point a))))) in
      Some (Some (Ok (AeMetadata event)), sim_set (sim_state a) PendingHealth (sim_seq a) a)
  | PendingHealth =>
      let! event := build_health (clock 0) (hb_healthy (sim_detector_id a)) in
      Some (Some (Ok (AeHealth event)), sim_set (sim_state a) (Generating 0) (sim_seq a) a)
  | Generating emitted =>
      if from_option (fun count => (count <=? emitted)%N) false (sc_count (sim_config a))
      then Some (None, sim_set Stopped PhDone (sim_seq a) a) else
      let! (seq, next) := counter_next (sim_seq a) in
      let! d := sim_detection clock emitted seq a in
      let! emitted := checked_add64 emitted 1 in
      Some (Some (Ok (AeDetection d)), sim_set (sim_state a) (Generating emitted) next a)
  | PhDone => Some (None, a)
  end.

#[export] Instance simulator_adapter : DetectorAdapter SimulatorAdapter := {|
  adapter_detector_id := sim_detector_id;
  adapter_state := sim_state;
  start := sim_start;
  stop := sim_stop;
  next_event := sim_next_event
|}.

#[export] Instance simulator_laws : DetectorAdapterLaws SimulatorAdapter (fun a => exists c, a = simulator_new c).
Proof.
  split; simpl.
  - intros a a' [c ->]. unfold sim_start. destruct (sim_timing_point_ids _); [done|]. by intros [= <-].
  - intros a a' clock ev a'' [c ->]. unfold sim_start. destruct (sim_timing_point_ids _); [done|]. intros [= <-].
    unfold sim_next_event. cbn [sim_phase sim_set simulator_new]. destruct (build_metadata _ _) as [m|]; [|done].
    intros [= <- _]. by exists m.
  - by intros a a' [= <-].
Qed.

(** ** The loop without the connection *)
Inductive LoopExit := ExitTurns | ExitBreak | ExitAdapter (e : AdapterError).

(** What the turns make the adapter publish, and how the loop is left. *)
Fixpoint adapter_events `{DetectorAdapter A} (turns : list Turn) (a : A)
  : option (list ProducerOp * A * LoopExit) :=
  match turns with
  | [] => Some ([], a, ExitTurns)
  | TurnEvent clock span :: turns =>
      let! (event, a) := next_event clock a in
      match event with
      | Some (Ok ev) =>
          let! (ops, a, exit) := adapter_events turns a in
          Some (OpEvent span (adapter_event_to_otk ev) :: ops, a, exit)
      | Some (Err e) => Some ([], a, ExitAdapter e)
      | None => Some ([], a, ExitBreak)
      end
  | TurnShutdown true :: _ | TurnClosed :: _ => Some ([], a, ExitBreak)
  | TurnShutdown false :: turns => adapter_events turns a
  end.

(** Whatever adapter honours the contract, its metadata is published first. *)
Lemma publishes_metadata_first `{DA : DetectorAdapter A} (initial : A -> Prop) `{!DetectorAdapterLaws A initial}
    turns (a a' a'' : A) op ops exit :
  initial a -> start a = (Ok tt, a') -> adapter_events turns a' = Some (op :: ops, a'', exit) ->
  exists span m, op = OpEvent span (EvAdapterMetadata m).
Proof.
  intros Hf Hs. induction turns as [|[clock span|[]|] turns IH]; simpl; try done.
  destruct (next_event clock a') as [[[[ev|e]|] a1]|] eqn:En; simpl; try done.
  destruct (adapter_events turns a1) as [[[ops1 a2] exit1]|]; simpl; [|done]. intros [= <- _ _ _].
  destruct (metadata_first _ _ _ _ _ Hf Hs En) as [m ->]. by exists span, m.
Qed.

(** A simulator without a count goes on after it is stopped, so the drain the
    contract asks for never ends. *)
Lemma stopped_simulator_generates clock (a : SimulatorAdapter) r a' :
  sc_count (sim_config a) = None -> sim_phase a <> PhDone ->
  sim_next_event clock (snd (sim_stop a)) = Some (r, a') ->
  (exists ev, r = Some (Ok ev)) /\ sc_count (sim_config a') = None /\ sim_phase a' <> PhDone /\ sim_state a' = Stopped.
Proof.
  intros Hc Hp. unfold sim_next_event, sim_stop. cbn [snd sim_phase sim_set sim_config]. destruct (sim_phase a); [..|done].
  - destruct (build_metadata _ _); [|done]. intros [= <- <-]. split; [by eexists|done].
  - destruct (build_health _ _); [|done]. intros [= <- <-]. split; [by eexists|done].
  - rewrite Hc. simpl. destruct (counter_next _) as [[seq next]|]; [|done]. simpl. destruct (sim_detection _ _ _ _); [|done].
    simpl. destruct (checked_add64 _ _); [|done]. intros [= <- <-]. split; [by eexists|done].
Qed.

(** A conforming adapter's events, by the contract: metadata first, then
    health, then numbered detections until the count is reached. *)
Definition good_clock (clock : nat -> Z) : Prop := forall i, (0 <= clock i <= Z.of_N u64_max)%Z.

Definition clock_ns (clock : nat -> Z) (i : nat) : N := Z.to_N (clock i).

Definition spec_metadata (c : SimulatorConfig) (clock : nat -> Z) : AdapterMetadataEvent :=
    {| am_detector_id := id_new (sc_detector_id c);
       am_timing_point_id := default (id_new "tp-default") (id_new <$> (sc_timing_point_ids c !! 0));
       am_timebase_id := id_new (sc_timebase_id c); am_source_attestation := OperatorAsserted;
       am_declared_at_ns := clock_ns clock 0;
       am_capabilities := {| ac_streams := []; ac_timestamping_method := AdapterReceiveTime;
                             ac_declared_resolution_ns := None |} |}.

Definition spec_health (c : SimulatorConfig) (clock : nat -> Z) : DetectorHealthEvent :=
  {| dh_detector_id := id_new (sc_detector_id c); dh_reported_at_ns := clock_ns clock 0;
     dh_status := Healthy; dh_message := None |}.

Definition cycle (xs : list string) (i : nat) : option string := xs !! (i mod length xs).

Definition spec_detection (c : SimulatorConfig) (clock : nat -> Z) (i : nat) : Detection :=
  {| detection_id := id_new (sc_detector_id c +:+ "-" +:+ pretty (N.of_nat i));
     detector_id := id_new (sc_detector_id c);
     timing_point_id := id_new (default "tp-default" (cycle (sc_timing_point_ids c) i));
     subject_id := id_new <$> cycle (sc_subject_ids c) i;
     detected_at_ns := clock_ns clock 0; detected_at_uncertainty_ns := None;
     received_at_ns := Some (clock_ns clock 1); timestamping_method := AdapterReceiveTime;
     timebase_id := id_new (sc_timebase_id c); source_attestation := OperatorAsserted;
     sequence_number := N.of_nat i; sensor := LoopTransponder None None |}.

Definition limit (c : SimulatorConfig) (n : nat) : nat :=
  from_option (fun count => Nat.min (N.to_nat count) n) n (sc_count c).

(** ** The simulator's stream *)
Definition sim_total (c : SimulatorConfig) (n : nat) : nat :=
  from_option (fun count => 2 + N.to_nat count) n (sc_count c).

Definition spec_event (c : SimulatorConfig) (clock : nat -> Z) (i : nat) : OtkEvent :=
  match i with
  | O => EvAdapterMetadata (spec_metadata c clock)
  | S O => EvDetectorHealth (spec_health c clock)
  | S (S j) => EvDetection (spec_detection c clock j)
  end.

Abbreviation ticks := (list ((nat -> Z) * SpanContext)).

Definition turns_of (ts : ticks) : list Turn := (fun t => TurnEvent t.1 t.2) <$> ts.

Definition spec_ops (c : SimulatorConfig) (ts : ticks) : list ProducerOp :=
  imap (fun i t => OpEvent t.2 (spec_event c t.1 i)) (take (sim_total c (length ts)) ts).

(** A running simulator that has emitted [k] detections. *)
Definition sim_at (c : SimulatorConfig) (ph : Phase) (k : N) : SimulatorAdapter :=
  sim_set Running ph k (simulator_new c).

Lemma now_ns_good clock i : good_clock clock -> now_ns (clock i) = Some (clock_ns clock i).
Proof.
  intros Hc. specialize (Hc i). unfold now_ns, clock_ns.
  destruct (Z.ltb_spec (clock i) 0); [lia|]. destruct (N.ltb_spec u64_max (Z.to_N (clock i))); [lia|done].
Qed.

Lemma cycle_index n k : 0 < n -> N.to_nat (N.of_nat k mod N.of_nat n) = k mod n.
Proof. intros Hn. rewrite <- Nnat.Nat2N.inj_mod by lia. apply Nat2N.id. Qed.

Lemma cycle_required {K} (xs : list string) (dflt : string) k :
  default (id_new dflt : Id K) ((id_new <$> xs) !! N.to_nat (N.of_nat k mod N.max (len (id_new (k := K) <$> xs)) 1)) =
  id_new (default dflt (cycle xs k)).
Proof.
  destruct xs as [|x xs]; [done|]. unfold cycle. rewrite len_map.
  replace (N.max (len (x :: xs)) 1) with (N.of_nat (length (x :: xs))) by (unfold len; simpl; lia).
  rewrite cycle_index by (simpl; lia). rewrite list_lookup_fmap. by destruct (_ !! _).
Qed.

Lemma cycle_optional {K} (xs : list string) k :
  match id_new (k := K) <$> xs with
  | [] => Some None
  | _ => let! id := (id_new (k := K) <$> xs) !! N.to_nat (N.of_nat k mod len (id_new (k := K) <$> xs)) in
         Some (Some id)
  end = Some (id_new <$> cycle xs k).
Proof.
  assert (Hne : forall x ys, xs = x :: ys ->
    (let! id := (id_new (k := K) <$> xs) !! N.to_nat (N.of_nat k mod len (id_new (k := K) <$> xs)) in
     Some (Some id)) = Some (id_new <$> cycle xs k)).
  { intros x ys ->. rewrite len_map. unfold len, cycle. rewrite cycle_index by (simpl; lia).
    rewrite list_lookup_fmap.
    destruct (lookup_lt_is_Some_2 (x :: ys) (k mod length (x :: ys))) as [y ->]; [|done].
    by apply Nat.mod_upper_bound. }
  destruct xs as [|x xs]; [done|]. by apply (Hne x xs).
Qed.

Lemma sim_detection_spec c clock ph k :
  good_clock clock ->
  sim_detection clock (N.of_nat k) (N.of_nat k) (sim_at c ph (N.of_nat k)) = Some (spec_detection c clock k).
Proof.
  intros Hc. unfold sim_detection. cbn [sim_at sim_set simulator_new sim_timing_point_ids
    sim_subject_ids sim_timebase_id sim_detector_id].
  rewrite cycle_required, cycle_optional, (now_ns_good _ 0 Hc). unfold spec_detection.
  destruct (cycle (sc_subject_ids c) k) as [sid|]; unfold build_detection;
    rewrite (now_ns_good _ 1 Hc); done.
Qed.

(** Are [k] detections all of them? *)
Definition enough (c : SimulatorConfig) (k : nat) : bool :=
  from_option (fun count => (count <=? N.of_nat k)%N) false (sc_count c).

Lemma sim_generating c clock k :
  good_clock clock -> (N.of_nat (S k) <= u64_max)%N ->
  exists a', sim_next_event clock (sim_at c (Generating (N.of_nat k)) (N.of_nat k)) =
    Some (if enough c k then (None, a')
          else (Some (Ok (AeDetection (spec_detection c clock k))),
                sim_at c (Generating (N.of_nat (S k))) (N.of_nat (S k)))).
Proof.
  intros Hc Hmax. unfold sim_next_event. set (a := sim_at c _ _).
  change (sim_phase a) with (Generating (N.of_nat k)). change (sim_seq a) with (N.of_nat k).
  change (sim_config a) with c. cbv beta iota. change (from_option _ false (sc_count c)) with (enough c k).
  destruct (enough c k); [by eexists|]. exists (simulator_new c).
  assert (Hadd : checked_add64 (N.of_nat k) 1 = Some (N.of_nat (S k))).
  { unfold checked_add64. replace (N.of_nat k + 1)%N with (N.of_nat (S k)) by lia.
    by rewrite (proj2 (N.leb_le _ _) Hmax). }
  unfold counter_next. unfold a. by rewrite Hadd, (sim_detection_spec c clock (Generating (N.of_nat k)) k Hc).
Qed.

(** The detections still to come after [k], of [n] turns. *)
Definition left_to_send (c : SimulatorConfig) (k n : nat) : nat :=
  from_option (fun count => N.to_nat count - k) n (sc_count c).

Lemma enough_left c k n : enough c k = true <-> left_to_send c k (S n) = 0.
Proof.
  unfold enough, left_to_send. destruct (sc_count c); simpl; [|done]. rewrite N.leb_le. lia.
Qed.

Lemma generating_events c (ts : ticks) k :
  Forall (fun t => good_clock t.1) ts -> (N.of_nat (k + length ts) <= u64_max)%N ->
  exists a', adapter_events (turns_of ts) (sim_at c (Generating (N.of_nat k)) (N.of_nat k)) =
    Some (imap (fun i t => OpEvent t.2 (EvDetection (spec_detection c t.1 (k + i))))
            (take (left_to_send c k (length ts)) ts), a',
          if decide (left_to_send c k (length ts) < length ts) then ExitBreak else ExitTurns).
Proof.
  revert k. induction ts as [|[clock span] ts IH]; intros k Hc Hmax.
  { eexists. rewrite decide_False by (cbn [length]; lia). by rewrite take_nil. }
  apply List.Forall_cons_iff in Hc as [Hck Hc]. simpl in Hck, Hmax.
  cbn [turns_of fmap list_fmap adapter_events next_event simulator_adapter fst snd].
  destruct (sim_generating c clock k Hck) as [a' ->]; [lia|].
  pose proof (enough_left c k (length ts)) as He. destruct (enough c k).
  { exists a'. cbn [length]. rewrite (proj1 He eq_refl). by rewrite decide_True by lia. }
  destruct (IH (S k) Hc) as [a1 Hev]; [lia|]. unfold turns_of in Hev. rewrite Hev.
  exists a1. assert (Hl : left_to_send c k (S (length ts)) = S (left_to_send c (S k) (length ts))).
  { unfold left_to_send in *. destruct (sc_count c); simpl in *; [|done].
    destruct (decide (N.to_nat n - k = 0)) as [E|]; [|lia]. by apply He in E. }
  cbn [length]. rewrite Hl. cbn [take imap]. f_equal. f_equal; [f_equal|].
  - f_equal; [by rewrite Nat.add_0_r|]. apply imap_ext. intros i t _. simpl. do 3 f_equal. lia.
  - destruct (decide (left_to_send c (S k) (length ts) < length ts)); [by rewrite decide_True by lia|].
    by rewrite decide_False by lia.
Qed.

Lemma sim_total_left c n : sim_total c (S (S n)) = 2 + left_to_send c 0 n.
Proof. unfold sim_total, left_to_send. destruct (sc_count c); simpl; lia. Qed.

Lemma running_events c (ts : ticks) :
  Forall (fun t => good_clock t.1) ts -> (N.of_nat (length ts) <= u64_max)%N ->
  exists a', adapter_events (turns_of ts) (sim_at c PendingMetadata 0) =
    Some (spec_ops c ts, a',
          if decide (sim_total c (length ts) < length ts) then ExitBreak else ExitTurns).
Proof.
  intros Hc Hmax. unfold spec_ops.
  assert (Hshort : length ts <= 2 -> take (sim_total c (length ts)) ts = ts /\
                   ~ sim_total c (length ts) < length ts).
  { unfold sim_total. destruct (sc_count c); simpl; intros H; split; try lia; by rewrite take_ge by lia. }
  destruct ts as [|[k0 s0] ts].
  { destruct Hshort as [-> ?]; [simpl; lia|]. rewrite decide_False by done. by eexists. }
  apply List.Forall_cons_iff in Hc as [H0 Hc]. simpl in H0.
  assert (Hmeta : sim_next_event k0 (sim_at c PendingMetadata 0) =
    Some (Some (Ok (AeMetadata (spec_metadata c k0))), sim_at c PendingHealth 0)).
  { unfold sim_next_event, build_metadata. cbn [sim_phase sim_at sim_set]. rewrite (now_ns_good _ 0 H0).
    assert (Hp : primary_timing_point (sim_at c PendingMetadata 0) =
      default (id_new "tp-default") (id_new <$> (sc_timing_point_ids c !! 0)))
      by (unfold primary_timing_point; simpl; by destruct (sc_timing_point_ids c)).
    rewrite Hp. reflexivity. }
  cbn [turns_of fmap list_fmap adapter_events next_event simulator_adapter fst snd]. rewrite Hmeta. clear Hmeta.
  destruct ts as [|[k1 s1] ts].
  { destruct Hshort as [-> ?]; [simpl; lia|]. rewrite decide_False by done. by eexists. }
  apply List.Forall_cons_iff in Hc as [H1 Hc]. simpl in H1.
  assert (Hhealth : sim_next_event k1 (sim_at c PendingHealth 0) =
    Some (Some (Ok (AeHealth (spec_health c k1))), sim_at c (Generating 0) 0)).
  { unfold sim_next_event, build_health. cbn [sim_phase sim_at sim_set]. by rewrite (now_ns_good _ 0 H1). }
  cbn [turns_of fmap list_fmap adapter_events next_event simulator_adapter fst snd]. rewrite Hhealth.
  destruct (generating_events c ts 0 Hc) as [a' Hev]; [simpl in *; lia|].
  unfold turns_of in Hev. change (N.of_nat 0) with 0%N in Hev. rewrite Hev. exists a'.
  cbn [length]. rewrite sim_total_left.
  destruct (decide (left_to_send c 0 (length ts) < length ts)).
  - by rewrite decide_True by lia.
  - by rewrite decide_False by lia.
Qed.

(** ** Its numbers are fresh for a gate that has not seen the detector *)
Lemma events_sent_spec (f : nat -> (nat -> Z) -> OtkEvent) (ts : ticks) :
  events_sent (imap (fun i t => OpEvent t.2 (f i t.1)) ts) = imap (fun i t => f i t.1) ts.
Proof.
  revert f. induction ts as [|t ts IH]; intros f; [done|]. rewrite !imap_cons. simpl. f_equal.
  apply (IH (fun i => f (S i))).
Qed.

Definition unseen (pid : string) (c : SimulatorConfig) (k : nat) (g : SequenceGate) : Prop :=
  from_option (fun hw => (hw < N.of_nat k)%N) True (high_water g !! (pid, id_new (sc_detector_id c))).

Lemma detections_increasing pid c (ts : ticks) k g :
  unseen pid c k g ->
  increasing pid g (imap (fun i t => EvDetection (spec_detection c t.1 (k + i))) ts).
Proof.
  revert k g. induction ts as [|t ts IH]; intros k g Hg; [done|]. rewrite imap_cons, Nat.add_0_r.
  split; [exact Hg|]. rewrite (imap_ext _ (fun i t => EvDetection (spec_detection c t.1 (S k + i)))).
  - apply IH. unfold unseen in *. rewrite commit_lookup, decide_True by done.
    unfold opt_max. destruct (high_water g !! _); simpl in *; lia.
  - intros i x _. simpl. do 2 f_equal. lia.
Qed.

Lemma spec_increasing pid c (ts : ticks) g :
  unseen pid c 0 g -> increasing pid g (events_sent (spec_ops c ts)).
Proof.
  intros Hg. unfold spec_ops. rewrite (events_sent_spec (fun i clock => spec_event c clock i)).
  destruct (take _ ts) as [|t0 [|t1 l]]; [done..|]. rewrite !imap_cons.
  change (increasing pid g (imap (fun i t => EvDetection (spec_detection c t.1 (0 + i))) l)).
  by apply detections_increasing.
Qed.

Lemma spec_wf c (ts : ticks) :
  (N.of_nat (length ts) <= u64_max)%N -> Forall wf_event (events_sent (spec_ops c ts)).
Proof.
  intros Hmax. unfold spec_ops. rewrite (events_sent_spec (fun i clock => spec_event c clock i)).
  apply Forall_lookup_2. intros i e He. rewrite list_lookup_imap in He.
  destruct (take _ ts !! i) as [t|] eqn:Ht; simplify_eq/=. apply lookup_lt_Some in Ht.
  rewrite length_take in Ht. destruct i as [|[|j]]; [done..|]. unfold wf_event, wf_u64. simpl. lia.
Qed.

(** ** The loop and the producer program *)
Section Publish.
Context `{DA : DetectorAdapter A} `{BS : ByteStream Conn}.
Context `{EnvCbor : Cbor OtkEnvelope} `{CborEvent : Cbor OtkEvent} `{CborHeartbeat : Cbor Heartbeat}.
Context `{CborConnect : Cbor Connect} `{CborAck : Cbor ConnectAck} `{CborReject : Cbor ConnectReject}.

Lemma run_loop_spec bye turns (a : A) (p : Producer Conn) ops a' exit :
  adapter_events turns a = Some (ops, a', exit) ->
  match run_ops ops p with
  | None => run_loop bye turns a p = None
  | Some (Ok _, p') => run_loop bye turns a p = Some
      match exit with
      | ExitTurns => RunGoing a' p'
      | ExitBreak => finish bye a' p'
      | ExitAdapter e => RunEnded (Err (RunAdapter e)) (snd (stop a')) (Some (p_stream p'))
      end
  | Some (Err e, p') => exists a1, run_loop bye turns a p =
      Some (RunEnded (Err (RunProducer e)) a1 (Some (p_stream p')))
  end.
Proof.
  revert a p ops. induction turns as [|[clock span|[]|] turns IH]; intros a p ops; simpl;
    [by intros [= <- <- <-]| |by intros [= <- <- <-]|apply IH|by intros [= <- <- <-]].
  destruct (next_event clock a) as [[[[ev|e]|] a1]|]; [| | |done].
  - destruct (adapter_events turns a1) as [[[ops1 a2] exit1]|] eqn:Hev; [|done]. intros [= <- <- <-].
    simpl. destruct (send_event span _ p) as [[[[]|e] p1]|]; [by apply IH| |done].
    destruct (stop a1) as [r a3]. by exists a3.
  - intros [= <- <- <-]. simpl. by destruct (stop a1).
  - by intros [= <- <- <-].
Qed.

(** publishing is producing: the loop over any adapter, ended by the adapter
    or by a shutdown, has the outcome and leaves the connection of the program
    that connects, sends the events the adapter gave, in order, and
    disconnects; every error of that program is the loop's error. *)
Theorem run_is_produce span bye dialled config turns (a a1 a' : A) ops r :
  start a = (Ok tt, a1) -> adapter_events turns a1 = Some (ops, a', ExitBreak) ->
  produce span dialled config ops (Some bye) = Some r ->
  exists a2 s, run span bye dialled config turns a =
      Some (RunEnded (match r with Ok _ => Ok tt | Err e => Err (RunProducer e) end) a2 s) /\
    (forall c', r = Ok c' -> s = Some c').
Proof.
  intros Hs Hev Hp. unfold run, produce in *. rewrite Hs.
  destruct (connect span dialled config) as [p|e].
  2:{ simplify_eq. destruct (stop a1) as [? a2]. by exists a2, None. }
  pose proof (run_loop_spec bye turns a1 p ops a' ExitBreak Hev) as Hrun.
  destruct (run_ops ops p) as [[[[]|e] p']|]; [| |done].
  - rewrite Hrun. unfold finish. destruct (stop a') as [? a2].
    destruct (disconnect bye p') as [[[]|e] s]; simplify_eq; eexists _, _; split; try done.
    by intros c' [= ->].
  - simplify_eq. destruct Hrun as [a2 ->]. by eexists _, _.
Qed.
End Publish.

(** the simulator keeps the adapter contract: once started it gives its
    metadata, its health, and then detections numbered from zero that cycle
    through its timing points and subjects, exactly the configured count of
    them, and ends; a gate that has not seen the detector lets all of them
    through. *)
Theorem simulator_stream c (ts : ticks) :
  sc_timing_point_ids c <> [] -> Forall (fun t => good_clock t.1) ts ->
  (N.of_nat (length ts) <= u64_max)%N ->
  exists a1 a', start (simulator_new c) = (Ok tt, a1) /\
    adapter_events (turns_of ts) a1 = Some (spec_ops c ts, a',
      if decide (sim_total c (length ts) < length ts) then ExitBreak else ExitTurns) /\
    Forall wf_event (events_sent (spec_ops c ts)) /\
    forall pid g, unseen pid c 0 g -> increasing pid g (events_sent (spec_ops c ts)).
Proof.
  intros Hne Hc Hmax. destruct (running_events c ts Hc Hmax) as [a' Hev].
  exists (sim_at c PendingMetadata 0), a'. split.
  { simpl. unfold sim_start. cbn [sim_timing_point_ids simulator_new]. by destruct (sc_timing_point_ids c). }
  split; [done|]. split; [by apply spec_wf|]. intros pid g. apply spec_increasing.
Qed.

Section Restart.
Context `{EL : EventLog L}.
Variable new_uuid : N -> string.

Definition detections_from (c : SimulatorConfig) (k : nat) (ts : ticks) : list OtkEvent :=
  imap (fun i t => EvDetection (spec_detection c t.1 (k + i))) ts.

Lemma dropped_session pid c (ts : ticks) k (s : EventIngestService L) m :
  high_water (svc_gate s) !! (pid, id_new (sc_detector_id c)) = Some m ->
  (N.of_nat (k + length ts) <= m + 1)%N ->
  exists s', handle_session new_uuid pid (Ok <$> detections_from c k ts) s = Some (EndedCleanly, s') /\
    svc_log s' = svc_log s /\ svc_gate s' = svc_gate s /\ svc_processor s' = svc_processor s.
Proof.
  revert k s. induction ts as [|t ts IH]; intros k s Hm Hle; [by exists s|]. simpl in Hle.
  unfold detections_from. rewrite imap_cons. cbn [fmap list_fmap handle_session].
  unfold append_event, decide_event, peek. unfold gate_key at 1. cbn [detector_id spec_detection].
  rewrite Hm. replace (sequence_number (spec_detection c t.1 (k + 0)) <=? m)%N with true
    by (symmetry; apply N.leb_le; simpl; lia).
  cbn beta iota. match goal with |- context [handle_session _ _ _ ?x] => set (s1 := x) end.
  destruct (IH (S k) s1) as (s' & Hs & ? & ? & ?); [done|lia|]. exists s'. split; [|done].
  unfold detections_from in Hs. rewrite <- Hs. f_equal. f_equal. apply imap_ext. intros i x _. simpl.
  do 2 f_equal. lia.
Qed.

(** a restarted simulator is silenced: it numbers its detections from zero
    again, so a node that has stored its detections up to number [m] drops its
    first [m + 1] detections as duplicates, and the log does not change. *)
Theorem restarted_simulator_dropped pid c (ts : ticks) (s : EventIngestService L) m :
  high_water (svc_gate s) !! (pid, id_new (sc_detector_id c)) = Some m ->
  (len ts <= m + 1)%N ->
  exists s', handle_session new_uuid pid (Ok <$> detections_from c 0 ts) s = Some (EndedCleanly, s') /\
    svc_log s' = svc_log s /\ svc_gate s' = svc_gate s.
Proof.
  intros Hm Hle. destruct (dropped_session pid c ts 0 s m Hm Hle) as (s' & ? & ? & ? & _). by exists s'.
Qed.
End Restart.

(** ** Witnesses *)
Definition one_shot : SimulatorConfig :=
  {| sc_detector_id := "sim-1"; sc_timing_point_ids := ["a"; "b"]; sc_subject_ids := ["x"];
     sc_timebase_id := "local"; sc_detection_interval_ms := 1000; sc_count := Some 1%N;
     sc_node_addr := "127.0.0.1:8463"; sc_producer_id := "p"; sc_auth_token := Some "t"; sc_tls := None |}.

Definition fixed_tick (n : Z) : (nat -> Z) * SpanContext := (fun _ => n, null_span).
Definition sim_ticks : ticks := fixed_tick <$> [10; 20; 30; 40]%Z.

Lemma sim_ticks_good : Forall (fun t => good_clock t.1) sim_ticks.
Proof. repeat (constructor; [intros i; vm_compute; split; discriminate|]). constructor. Qed.

Lemma simulator_stream_witness :
  exists a1 a', start (simulator_new one_shot) = (Ok tt, a1) /\
    adapter_events (turns_of sim_ticks) a1 = Some (spec_ops one_shot sim_ticks, a', ExitBreak) /\
    length (spec_ops one_shot sim_ticks) = 3 /\
    increasing "p" gate_new (events_sent (spec_ops one_shot sim_ticks)).
Proof.
  destruct (simulator_stream one_shot sim_ticks) as (a1 & a' & Hs & Hev & _ & Hinc);
    [discriminate|apply sim_ticks_good|vm_compute; discriminate|].
  exists a1, a'. split; [exact Hs|]. split; [exact Hev|]. split; [reflexivity|].
  apply Hinc. vm_compute. exact I.
Defined.

Definition sim_events : Cbor OtkEvent :=
  table_cbor [(EvAdapterMetadata (spec_metadata one_shot (fun _ => 10%Z)), [x82; x00]);
              (EvDetectorHealth (spec_health one_shot (fun _ => 20%Z)), [x82; x01]);
              (EvDetection (spec_detection one_shot (fun _ => 30%Z) 0), [x82; x02])].

Definition sim_envelope (seq : N) (b : byte) : OtkEnvelope :=
  with_sequence seq (make_envelope null_span (id_new "p") MtEvent (Some [x82; b])).

Definition sim_envelopes : Cbor OtkEnvelope :=
  table_cbor [(my_request, [xa1; x01]); (sim_envelope 0 x00, [xa1; x02]); (sim_envelope 1 x01, [xa1; x03]);
              (sim_envelope 2 x02, [xa1; x04]); (my_bye, [xa1; x05]); (my_ack, [xa1; x06])].

Lemma run_is_produce_witness :
  exists a2 s, @run SimulatorAdapter simulator_adapter Wire wire_stream sim_envelopes sim_events my_connects
      sample_ack_cbor sample_reject_cbor null_span null_span (Ok (wire [Ok (frame x06)])) my_config
      (turns_of sim_ticks) (simulator_new one_shot) = Some (RunEnded (Ok tt) a2 s) /\
    option_map sent s = Some (frame x01 ++ frame x02 ++ frame x03 ++ frame x04 ++ frame x05).
Proof.
  destruct (@run_is_produce SimulatorAdapter simulator_adapter Wire wire_stream sim_envelopes sim_events
    my_heartbeats my_connects sample_ack_cbor sample_reject_cbor null_span null_span
    (Ok (wire [Ok (frame x06)])) my_config (turns_of sim_ticks) (simulator_new one_shot)
    (sim_at one_shot PendingMetadata 0) (sim_set Stopped PhDone 1 (simulator_new one_shot))
    (spec_ops one_shot sim_ticks)
    (Ok {| script := [Ok []]; sent := frame x01 ++ frame x02 ++ frame x03 ++ frame x04 ++ frame x05 |}))
    as (a2 & s & Hrun & Hs); [reflexivity|vm_compute; reflexivity|vm_compute; reflexivity|].
  exists a2, s. split; [exact Hrun|]. rewrite (Hs _ eq_refl). reflexivity.
Defined.

Lemma restarted_simulator_dropped_witness :
  let g := {| high_water := {[ ("p", id_new "sim-1") := 3%N ]} |} in
  let s := @service_new _ MemLog.mem_new {| grouping_window_ns := 50 |} g in
  exists s', @handle_session _ mem sample_uuid "p" (Ok <$> detections_from one_shot 0 sim_ticks) s =
      Some (EndedCleanly, s') /\ svc_log s' = svc_log s /\ svc_gate s' = svc_gate s.
Proof.
  apply (@restarted_simulator_dropped _ mem sample_uuid "p" one_shot sim_ticks _ 3%N);
    [reflexivity|vm_compute; discriminate].
Defined.
