(* ===== verification/RustText.v ===== *)
(** Text functions of Rust's standard library, on the bytes of a string:
    [trim], [split] and [split_once] at an ASCII character, [u32::from_str]
    and [IpAddr::from_str] (the parser of [core::net]). *)
From stdpp Require Import base strings option numbers list.
From Stdlib Require Import Strings.Byte.
From S2P Require Import Prelude.

(** ** Splitting and trimming *)
Fixpoint split_on (c : byte) (bs : bytes) : list bytes :=
  match bs with
  | [] => [[]]
  | b :: rest =>
      if bool_decide (b = c) then [] :: split_on c rest
      else match split_on c rest with [] => [[b]] | w :: ws => (b :: w) :: ws end
  end.

Fixpoint split_once_at (c : byte) (bs : bytes) : option (bytes * bytes) :=
  match bs with
  | [] => None
  | b :: rest =>
      if bool_decide (b = c) then Some ([], rest)
      else let! (before, after) := split_once_at c rest in Some (b :: before, after)
  end.

(** The characters with the property [White_Space], in UTF-8. *)
Definition white_space : list bytes :=
  [[x09]; [x0a]; [x0b]; [x0c]; [x0d]; [x20]; [xc2; x85]; [xc2; xa0]; [xe1; x9a; x80]] ++
  ((fun b => [xe2; x80; b]) <$> [x80; x81; x82; x83; x84; x85; x86; x87; x88; x89; x8a; xa8; xa9; xaf]) ++
  [[xe2; x81; x9f]; [xe3; x80; x80]].

Fixpoint strip_prefix (p bs : bytes) : option bytes :=
  match p, bs with
  | [], _ => Some bs
  | a :: p, b :: bs => if bool_decide (a = b) then strip_prefix p bs else None
  | _ :: _, [] => None
  end.

(** Every turn removes a byte at least. *)
Fixpoint strip_all (fuel : nat) (chars : list bytes) (bs : bytes) : bytes :=
  match fuel with
  | O => bs
  | S fuel =>
      match head (omap (fun p => strip_prefix p bs) chars) with
      | Some rest => strip_all fuel chars rest
      | None => bs
      end
  end.

(** A UTF-8 character is recognised from its end as well. *)
Definition trim (bs : bytes) : bytes :=
  let front := strip_all (length bs) white_space bs in
  rev (strip_all (length front) ((fun c => rev c) <$> white_space) (rev front)).

Definition to_ascii_uppercase (b : byte) : byte :=
  if in_range 97 122 b then byte_of_N (Byte.to_N b - 32) else b.

(** ** Paths *)

(** [PathBuf::from], up to the equality of paths. *)
Definition path_of (s : string) : list string :=
  let keep := filter (fun w => w <> "" /\ w <> ".") in
  match bytes_str <$> split_on "/"%byte (str_bytes s) with
  | [""] => []
  | "" :: ws => "/" :: keep ws
  | "." :: ws => "." :: keep ws
  | ws => keep ws
  end.

Example a_relative_path : path_of "./etc//otk.d/../node.toml" = ["."; "etc"; "otk.d"; ".."; "node.toml"].
Proof. reflexivity. Qed.
Example an_absolute_path : path_of "/srv/./otk.toml" = ["/"; "srv"; "otk.toml"] /\ path_of "" = [] /\ path_of "/" = ["/"].
Proof. repeat split; reflexivity. Qed.

(** ** Numbers *)

(** [char::to_digit]. *)
Definition to_digit (radix : N) (b : byte) : option N :=
  let n := Byte.to_N b in
  let! d := (if in_range 48 57 b then Some (n - 48)
             else if in_range 97 122 b then Some (n - 87)
             else if in_range 65 90 b then Some (n - 55) else None)%N in
  if (d <? radix)%N then Some d else None.

Definition PARSE_EMPTY : string := "cannot parse integer from empty string".
Definition PARSE_INVALID : string := "invalid digit found in string".
Definition PARSE_OVERFLOW : string := "number too large to fit in target type".

Fixpoint parse_decimal (max acc : N) (bs : bytes) : result N string :=
  match bs with
  | [] => Ok acc
  | b :: rest =>
      match to_digit 10 b with
      | None => Err PARSE_INVALID
      | Some d => if (max <? acc * 10 + d)%N then Err PARSE_OVERFLOW else parse_decimal max (acc * 10 + d) rest
      end
  end.

(** [str::parse::<u32>]. *)
Definition parse_u32 (s : string) : result N string :=
  match str_bytes s with
  | [] => Err PARSE_EMPTY
  | ["+"%byte] => Err PARSE_INVALID
  | "+"%byte :: rest => parse_decimal u32_max 0 rest
  | bs => parse_decimal u32_max 0 bs
  end.

(** ** Addresses *)

(** Octets, or groups of 16 bits. *)
Inductive IpAddr := V4 (octets : list N) | V6 (groups : list N).

#[export] Instance IpAddr_eq_dec : EqDecision IpAddr.
Proof. solve_decision. Defined.

Definition Parser (A : Type) : Type := bytes -> option (A * bytes).

Definition read_given_char (c : byte) : Parser unit := fun bs =>
  match bs with b :: rest => if bool_decide (b = c) then Some (tt, rest) else None | [] => None end.

(** The separator, unless this is the first item, and the item. *)
Definition read_separator {A} (sep : byte) (first : bool) (inner : Parser A) : Parser A := fun bs =>
  if first then inner bs else let! (_, bs) := read_given_char sep bs in inner bs.

Fixpoint span_digits (radix : N) (bs : bytes) : list N * bytes :=
  match bs with
  | b :: rest =>
      match to_digit radix b with
      | Some d => let (ds, rest) := span_digits radix rest in (d :: ds, rest)
      | None => ([], bs)
      end
  | [] => ([], [])
  end.

Definition read_number (radix : N) (max_digits : nat) (allow_zero_prefix : bool) (max : N) : Parser N := fun bs =>
  let (digits, rest) := span_digits radix bs in
  let value := foldl (fun acc d => acc * radix + d)%N 0%N digits in
  if (max_digits <? length digits)%nat then None
  else if (length digits =? 0)%nat then None
  else if negb allow_zero_prefix && bool_decide (head bs = Some "0"%byte) && (1 <? length digits)%nat then None
  else if (max <? value)%N then None else Some (value, rest).

Fixpoint read_octets (n : nat) (first : bool) : Parser (list N) := fun bs =>
  match n with
  | O => Some ([], bs)
  | S n =>
      let! (o, bs) := read_separator "."%byte first (read_number 10 3 false u8_max) bs in
      let! (os, bs) := read_octets n false bs in Some (o :: os, bs)
  end.

Definition read_ipv4_addr : Parser (list N) := read_octets 4 true.

(** At most [n] groups, the last two of which may be written as an IPv4
    address: the groups, whether they end with one, and the rest. *)
Fixpoint read_groups (n : nat) (first : bool) (bs : bytes) : list N * bool * bytes :=
  match n with
  | O => ([], false, bs)
  | S n' =>
      match n', read_separator ":"%byte first read_ipv4_addr bs with
      | S _, Some ([a; b; c; d], rest) => ([a * 256 + b; c * 256 + d]%N, true, rest)
      | _, _ =>
          match read_separator ":"%byte first (read_number 16 4 true u16_max) bs with
          | Some (g, rest) => let '(gs, v4, rest) := read_groups n' false rest in (g :: gs, v4, rest)
          | None => ([], false, bs)
          end
      end
  end.

Definition read_ipv6_addr : Parser (list N) := fun bs =>
  let '(head, head_ipv4, bs) := read_groups 8 true bs in
  if (length head =? 8)%nat then Some (head, bs)
  else if head_ipv4 then None
  else
    let! (_, bs) := read_given_char ":"%byte bs in
    let! (_, bs) := read_given_char ":"%byte bs in
    let '(tail, _, bs) := read_groups (8 - (length head + 1)) true bs in
    Some (head ++ replicate (8 - length head - length tail) 0%N ++ tail, bs).

Definition read_ip_addr : Parser IpAddr := fun bs =>
  match read_ipv4_addr bs with
  | Some (octets, bs) => Some (V4 octets, bs)
  | None => let! (groups, bs) := read_ipv6_addr bs in Some (V6 groups, bs)
  end.

(** [str::parse::<IpAddr>]: the whole input. *)
Definition parse_ip (bs : bytes) : option IpAddr :=
  match read_ip_addr bs with Some (ip, []) => Some ip | _ => None end.

Example ip_addresses :
  parse_ip <$> (str_bytes <$> ["127.0.0.1"; "::1"; "::"; "fe80::1:2"; "1:2:3:4:5:6:7:8"; "::ffff:192.0.2.1"; "2001:db8::"]) =
    [Some (V4 [127; 0; 0; 1]); Some (V6 [0; 0; 0; 0; 0; 0; 0; 1]); Some (V6 [0; 0; 0; 0; 0; 0; 0; 0]);
     Some (V6 [65152; 0; 0; 0; 0; 0; 1; 2]); Some (V6 [1; 2; 3; 4; 5; 6; 7; 8]);
     Some (V6 [0; 0; 0; 0; 0; 65535; 49152; 513]); Some (V6 [8193; 3512; 0; 0; 0; 0; 0; 0])]%N.
Proof. vm_compute. reflexivity. Qed.

Example not_addresses :
  parse_ip <$> (str_bytes <$> [""; "256.0.0.1"; "01.2.3.4"; "1.2.3"; "1.2.3.4:80"; "1:2:3:4:5:6:7"; "1:2:3:4:5:6:7:8:9";
    ":::"; "12345::"; "1:2:3:4:5:6:7::8:9"; "localhost"; " ::1"]) = replicate 12 None.
Proof. vm_compute. reflexivity. Qed.

Example u32_texts : parse_u32 <$> ["365"; "+7"; "4294967295"; "4294967296"; ""; "+"; "-1"; "3d"] =
  [Ok 365; Ok 7; Ok u32_max; Err PARSE_OVERFLOW; Err PARSE_EMPTY; Err PARSE_INVALID; Err PARSE_INVALID; Err PARSE_INVALID]%N.
Proof. vm_compute. reflexivity. Qed.

(** ** Lemmas *)
Lemma split_on_nonempty c bs : split_on c bs <> [].
Proof. destruct bs as [|b bs]; simpl; [done|]. case_bool_decide; [done|]. by destruct (split_on c bs). Qed.

(** The pieces, joined by the separator, are the text; none contains it. *)
Lemma split_on_join c bs :
  bs = mjoin (match split_on c bs with [] => [] | w :: ws => w :: ((fun w => c :: w) <$> ws) end) /\
  Forall (fun w => c ∉ w) (split_on c bs).
Proof.
  induction bs as [|b bs [IHj IHf]]; [by repeat constructor; apply not_elem_of_nil|]. simpl.
  pose proof (split_on_nonempty c bs) as Hne. case_bool_decide as Hb; destruct (split_on c bs) as [|w ws] eqn:E; try done.
  - subst b. simpl in *. split; [exact (f_equal (cons _) IHj)|]. constructor; [apply not_elem_of_nil|done].
  - simpl in *. split; [exact (f_equal (cons _) IHj)|]. apply Forall_cons in IHf as [Hw Hws]. constructor; [|done].
    rewrite not_elem_of_cons. naive_solver.
Qed.

Lemma split_once_at_spec c bs before after :
  split_once_at c bs = Some (before, after) <-> bs = before ++ c :: after /\ c ∉ before.
Proof.
  revert before. induction bs as [|b bs IH]; intros before; simpl.
  { split; [done|]. intros [E _]. by destruct before. }
  case_bool_decide as Hb.
  - subst b. split; [intros [= <- <-]; split; [done|apply not_elem_of_nil]|]. intros [E Hn].
    destruct before as [|x before]; simpl in E; [by injection E as ->|]. injection E as -> _. rewrite not_elem_of_cons in Hn. by destruct Hn.
  - destruct (split_once_at c bs) as [[x y]|] eqn:E.
    + split.
      * intros [= <- <-]. destruct (proj1 (IH x)) as [-> Hx]; [done|]. split; [done|]. rewrite not_elem_of_cons. naive_solver.
      * intros [Eb Hn]. destruct before as [|z before]; simpl in Eb; [by injection Eb as -> _|].
        injection Eb as -> Eb. rewrite not_elem_of_cons in Hn. destruct Hn as [_ Hn].
        assert (Some (x, y) = Some (before, after)) as [= -> ->] by (apply IH; by split). done.
    + split; [done|]. intros [Eb Hn]. destruct before as [|z before]; simpl in Eb; [by injection Eb as -> _|].
      injection Eb as -> Eb. rewrite not_elem_of_cons in Hn. destruct Hn as [_ Hn].
      assert (None = Some (before, after)); [|done]. apply IH. by split.
Qed.
