(* ===== verification/NodeProcess.v ===== *)
(** The process of the node (crate [timing-node], [main.rs] and the entry
    points of [lib.rs]): the supervisor of [run_until_shutdown] running with
    the tasks [spawn_tasks] gives it.

    A step is one of a task (a listener's step of [NodeListener], a tick of the
    watcher, the end of the API server, a panic, the drop of an aborted
    future) or one of the supervisor.  When the tasks move and when the
    deadline elapses is open.

    [supervision]: every run of the supervisor with its tasks.
    [process_exit]: the exit code of the program. *)
From stdpp Require Import base gmap strings option numbers pretty sorting list.
From Stdlib Require Import Strings.Byte.
From S2P Require Import Prelude EventModel WireProtocol StreamCodec IngestProtocol ByteStream IngestSession Auth EventLogPort IngestService Metrics NodeListener NodeConfig NodeSupervisor RustText.
From S2P Require SocketBind MemLog.

(** ** The running tasks *)
Inductive TaskStatus := TaskRunning | TaskAborting | TaskOver (r : result unit JoinError).

Definition is_over (st : TaskStatus) : bool := match st with TaskOver _ => true | _ => false end.

Section Process.
Context `{BS : ByteStream Conn}.
Context `{EnvCbor : Cbor OtkEnvelope} `{CborEvent : Cbor OtkEvent} `{CborHeartbeat : Cbor Heartbeat}.
Context `{CborConnect : Cbor Connect} `{CborAck : Cbor ConnectAck} `{CborReject : Cbor ConnectReject}.

(** What a task is doing. *)
Inductive Work :=
  | ListenerWork (l : Listener (Conn := Conn))
  | WatcherWork (path : Path) (started : bool) (last : NodeConfig)
  | ApiWork.

(** [monitored]: its entry of the supervisor's set has not been joined. *)
Record ProcTask := { task_name : string; work : Work; status : TaskStatus; monitored : bool }.

(** Where [run_until_shutdown] is: in its [select!], in its drain, returned. *)
Inductive SupervisorPhase :=
  | Selecting
  | DrainingTasks (first_failure : option ShutdownError)
  | Stopped (r : result unit ShutdownError).

Record Process := {
  proc_tasks : list ProcTask;
  proc_phase : SupervisorPhase;
  shutdown_sent : bool;
  proc_auth : AuthState
}.

Definition start_work (initial : NodeConfig) (t : NodeTask) : Work :=
  match t with
  | ListenerTask l => ListenerWork (start_listener (bl_id l))
  | WatcherTask path => WatcherWork path false initial
  | ApiTask => ApiWork
  end.

Definition start_task (initial : NodeConfig) (named : string * NodeTask) : ProcTask :=
  {| task_name := named.1; work := start_work initial named.2; status := TaskRunning; monitored := true |}.

Definition start_process {L} (n : Node (L := L)) : Process :=
  {| proc_tasks := start_task (initial_config n) <$> spawn_tasks n; proc_phase := Selecting;
     shutdown_sent := false; proc_auth := node_auth n |}.

(** ** Updates *)
Definition set_work (w : Work) (t : ProcTask) : ProcTask :=
  {| task_name := task_name t; work := w; status := status t; monitored := monitored t |}.
Definition set_status (st : TaskStatus) (t : ProcTask) : ProcTask :=
  {| task_name := task_name t; work := work t; status := st; monitored := monitored t |}.
Definition unmonitored (t : ProcTask) : ProcTask :=
  {| task_name := task_name t; work := work t; status := status t; monitored := false |}.

(** A future that is dropped: a listener's drops its session tasks. *)
Definition drop_work (w : Work) : Work :=
  match w with
  | ListenerWork l => match phase l with Returned => w | _ => ListenerWork (with_phase Returned l) end
  | _ => w
  end.

(** [abort] on a handle that is not finished. *)
Definition abort_task (t : ProcTask) : ProcTask :=
  match status t with TaskRunning => set_status TaskAborting t | _ => t end.

Definition with_proc_tasks (ts : list ProcTask) (p : Process) : Process :=
  {| proc_tasks := ts; proc_phase := proc_phase p; shutdown_sent := shutdown_sent p; proc_auth := proc_auth p |}.
Definition update_task (i : nat) (t : ProcTask) (p : Process) : Process :=
  with_proc_tasks (<[i := t]> (proc_tasks p)) p.
Definition with_auth (st : AuthState) (p : Process) : Process :=
  {| proc_tasks := proc_tasks p; proc_phase := proc_phase p; shutdown_sent := shutdown_sent p; proc_auth := st |}.

(** [shutdown_tx.send(true)] and the drain. *)
Definition begin_drain (first_failure : option ShutdownError) (p : Process) : Process :=
  {| proc_tasks := proc_tasks p; proc_phase := DrainingTasks first_failure; shutdown_sent := true;
     proc_auth := proc_auth p |}.
Definition with_supervisor (ph : SupervisorPhase) (p : Process) : Process :=
  {| proc_tasks := proc_tasks p; proc_phase := ph; shutdown_sent := shutdown_sent p; proc_auth := proc_auth p |}.

Definition outcome_of (first_failure : option ShutdownError) : result unit ShutdownError :=
  match first_failure with None => Ok tt | Some e => Err e end.

(** The deadline of the drain: the tasks still running are aborted, and the
    set of monitors is shut down. *)
Definition drain_elapsed (first_failure : option ShutdownError) (p : Process) : Process :=
  with_supervisor (Stopped (outcome_of (get_or_insert first_failure (DrainTimedOut SHUTDOWN_DEADLINE))))
    (with_proc_tasks ((fun t => unmonitored (abort_task t)) <$> proc_tasks p) p).

(** What of a step shows outside: what the supervisor learns, and the
    updates of the metrics. *)
Inductive Observation :=
  | ObsCtrlC
  | ObsJoined (joined : Joined)
  | ObsElapsed
  | ObsCounted (op : MetricOp).

Inductive process_step (p : Process) : list Observation -> Process -> Prop :=
  (** the tasks *)
  | ps_listener i t l ops l' :
      proc_tasks p !! i = Some t -> work t = ListenerWork l -> listener_step (shutdown_sent p) false l ops l' ->
      process_step p (ObsCounted <$> ops) (update_task i (set_work (ListenerWork l') t) p)
  | ps_listener_returns i t l :
      proc_tasks p !! i = Some t -> work t = ListenerWork l -> phase l = Returned ->
      is_over (status t) = false ->
      process_step p [] (update_task i (set_status (TaskOver (Ok tt)) t) p)
  | ps_watcher_starts i t path last :
      proc_tasks p !! i = Some t -> work t = WatcherWork path false last -> is_over (status t) = false ->
      process_step p [] (update_task i (set_work (WatcherWork path true last) t) p)
  | ps_watcher_fails i t path last :
      proc_tasks p !! i = Some t -> work t = WatcherWork path false last -> is_over (status t) = false ->
      process_step p [] (update_task i (set_status (TaskOver (Ok tt)) t) p)
  | ps_watcher_tick i t path last tick st' last' :
      proc_tasks p !! i = Some t -> work t = WatcherWork path true last -> is_over (status t) = false ->
      watch_tick path tick (proc_auth p, last) = (st', last') ->
      process_step p [] (with_auth st' (update_task i (set_work (WatcherWork path true last') t) p))
  | ps_watcher_stops i t path last :
      proc_tasks p !! i = Some t -> work t = WatcherWork path true last -> is_over (status t) = false ->
      shutdown_sent p = true ->
      process_step p [] (update_task i (set_status (TaskOver (Ok tt)) t) p)
  (** The API server returns from its graceful shutdown; when it fails, the
      task panics. *)
  | ps_api_stops i t :
      proc_tasks p !! i = Some t -> work t = ApiWork -> is_over (status t) = false -> shutdown_sent p = true ->
      process_step p [] (update_task i (set_status (TaskOver (Ok tt)) t) p)
  | ps_panics i t payload :
      proc_tasks p !! i = Some t -> is_over (status t) = false ->
      process_step p [] (update_task i (set_status (TaskOver (Err (JoinPanic payload))) (set_work (drop_work (work t)) t)) p)
  | ps_dropped i t d :
      proc_tasks p !! i = Some t -> status t = TaskAborting ->
      process_step p [] (update_task i (set_status (TaskOver (Err (JoinCancelled d))) (set_work (drop_work (work t)) t)) p)
  (** the supervisor *)
  | ps_ctrl_c :
      proc_phase p = Selecting -> process_step p [ObsCtrlC] (begin_drain None p)
  | ps_task_exit i t r :
      proc_phase p = Selecting -> proc_tasks p !! i = Some t -> monitored t = true -> status t = TaskOver r ->
      process_step p [ObsJoined (Ok (task_name t, r))]
        (begin_drain (Some (classify_unexpected_exit (Ok (task_name t, r))).2) (update_task i (unmonitored t) p))
  | ps_drain_join f i t r :
      proc_phase p = DrainingTasks f -> proc_tasks p !! i = Some t -> monitored t = true -> status t = TaskOver r ->
      process_step p [ObsJoined (Ok (task_name t, r))]
        (with_supervisor (DrainingTasks (drain_join f (Ok (task_name t, r)))) (update_task i (unmonitored t) p))
  | ps_drained f :
      proc_phase p = DrainingTasks f -> Forall (fun t => monitored t = false) (proc_tasks p) ->
      process_step p [] (with_supervisor (Stopped (outcome_of f)) p)
  | ps_elapsed f :
      proc_phase p = DrainingTasks f -> process_step p [ObsElapsed] (drain_elapsed f p).

Inductive process_run (p : Process) : list Observation -> Process -> Prop :=
  | pr_none : process_run p [] p
  | pr_more obs p1 obs' p2 :
      process_run p obs p1 -> process_step p1 obs' p2 -> process_run p (obs ++ obs') p2.

(** [run_until_shutdown] of a node can return [r]. *)
Definition stops_with {L} (n : Node (L := L)) (r : result unit ShutdownError) : Prop :=
  exists obs p, process_run (start_process n) obs p /\ proc_phase p = Stopped r.
End Process.

(** ** The program *)
Section Main.
Context `{EL : EventLog L}.
Variable bind_tcp : SocketAddr -> option TlsListenerConfig -> result SocketAddr SocketBind.ErrorKind.
Variable bind_unix : Path -> SocketBind.UnixConfig -> result unit SocketBind.ErrorKind.
Variable bind_api : SocketAddr -> result SocketAddr SocketBind.ErrorKind.
Variable open_log : Path -> result L StorageError.
Variable load_from_file : Path -> result NodeConfig string.
(** [run_until_shutdown] of the node. *)
Variable outcome : Node (L := L) -> result unit ShutdownError.

Definition run (config : NodeConfig) : N :=
  exit_code (node_new bind_tcp bind_unix bind_api open_log config) outcome.

Definition run_from_config_path (path : Path) : N :=
  exit_code (from_config_path bind_tcp bind_unix bind_api open_log load_from_file path) outcome.

(** The exit code; [args] are the arguments after the program's name. *)
Definition main (args : list string) : N :=
  match parse_config_source args with
  | inr code => code
  | inl SourceDefault => run config_default
  | inl (SourceFile path) => run_from_config_path (path_of path)
  end.
End Main.

(** ** Invariants *)
Section Invariants.
Context `{BS : ByteStream Conn}.
Context `{EnvCbor : Cbor OtkEnvelope} `{CborEvent : Cbor OtkEvent} `{CborHeartbeat : Cbor Heartbeat}.
Context `{CborConnect : Cbor Connect} `{CborAck : Cbor ConnectAck} `{CborReject : Cbor ConnectReject}.
Implicit Types (t : ProcTask (Conn := Conn)) (p : Process (Conn := Conn)).

Definition stopped (ph : SupervisorPhase) : bool := match ph with Stopped _ => true | _ => false end.

(** What the supervisor knows of a task by its entry in the set. *)
Definition joined_so_far (ph : SupervisorPhase) (t : ProcTask (Conn := Conn)) : Prop :=
  match ph with
  | Selecting => monitored t = true
  | DrainingTasks f => monitored t = false -> exists r, status t = TaskOver r /\ (f = None -> r = Ok tt)
  | Stopped r => status t <> TaskRunning /\ (r = Ok tt -> status t = TaskOver (Ok tt))
  end.

Record task_inv (sd : bool) (ph : SupervisorPhase) (t : ProcTask (Conn := Conn)) : Prop := {
  ti_listener l : work t = ListenerWork l ->
    if is_over (status t) then phase l = Returned else sd = false -> phase l = Accepting;
  ti_early : status t = TaskOver (Ok tt) -> sd = false -> exists path last, work t = WatcherWork path false last;
  ti_uncancelled : stopped ph = false ->
    status t <> TaskAborting /\ forall d, status t <> TaskOver (Err (JoinCancelled d));
  ti_joined : joined_so_far ph t
}.

(** The failure is that of a task: it is the watcher that could not be
    started, or a task that panicked. *)
Definition blames (ts : list (ProcTask (Conn := Conn))) (e : ShutdownError) : Prop :=
  match e with
  | TaskExitedEarly name => exists t path last, t ∈ ts /\ task_name t = name /\
      status t = TaskOver (Ok tt) /\ work t = WatcherWork path false last
  | TaskPanicked name cause => exists t payload, t ∈ ts /\ task_name t = name /\
      status t = TaskOver (Err (JoinPanic payload)) /\ cause = join_error_cause (JoinPanic payload)
  | DrainTimedOut secs => secs = SHUTDOWN_DEADLINE
  | TaskFailed _ _ | MonitorPanicked _ => False
  end.

Definition failure_of (ph : SupervisorPhase) : option ShutdownError :=
  match ph with DrainingTasks (Some e) | Stopped (Err e) => Some e | _ => None end.

Record proc_inv (p : Process (Conn := Conn)) : Prop := {
  pi_tasks : Forall (task_inv (shutdown_sent p) (proc_phase p)) (proc_tasks p);
  pi_shutdown : shutdown_sent p = negb (match proc_phase p with Selecting => true | _ => false end);
  pi_failure e : failure_of (proc_phase p) = Some e -> blames (proc_tasks p) e
}.

(** *** Listeners *)

(** No handshake answers that the port is closed. *)
Lemma handshake_not_closed (Ad : Adapter) `{!AdapterLaws Ad} fuel s peer max auth s' :
  handshake (Ad := Ad) fuel s peer max auth <> Some (Err IngestClosed, s').
Proof.
  unfold handshake.
  assert (Ha : forall fuel s d s', await_connect (Ad := Ad) fuel s d <> Some (Err IngestClosed, s')).
  { clear -AdapterLaws0. induction fuel as [|fuel IH]; intros s d s'; simpl; [done|].
    destruct (read READ_CHUNK s) as [[[|b chunk]|e] s1]; [by intros [= ?%eof_not_closed]| |done].
    destruct (push d (b :: chunk)) as [[rs d1]|]; [|done]. simpl.
    assert (Hq : forall rs q e, (queue_frames rs q).1 = Err e -> e <> IngestClosed).
    { clear. induction rs as [|[env|fe] rs IH]; intros q e; simpl; [done|apply IH|by intros [= <-]]. }
    destruct (queue_frames rs []) as [[[]|e] [|env envs]] eqn:Eq; [apply IH|done|..];
      (intros [= -> _]; by apply (Hq rs [] IngestClosed); [rewrite Eq|]). }
  destruct (await_connect _ _ _) as [[[[d [|env envs]]|e] s1]|] eqn:E; simpl; [done| | |done].
  - destruct (perform_server_handshake_with_auth _ _) as [[reply proc|reply reason]|e]; [| |done].
    + unfold send_envelope. destruct (encode_stream _ _); [|done]. by destruct (write_all _ _) as [[]].
    + by destruct (send_envelope _ _ _).
  - intros [= -> _]. by apply Ha in E.
Qed.

(** Without the signal a listener accepts for ever. *)
Lemma accepting_stays l ops (l' : Listener (Conn := Conn)) :
  listener_step false false l ops l' -> phase l = Accepting -> phase l' = Accepting.
Proof.
  destruct 1 as [s peer|e|Ad AdL s peer fuel late max auth r _ _ Hf|i x ev|i x|i|Hsh|i Hp|Hp|Hp|Hab]; intros Ha; simpl; try done.
  - by destruct e.
  - destruct r as [x|e]; [done|]. destruct e; try done. exfalso. revert Hf. unfold finish_accept. destruct late; [done|].
    destruct (handshake _ _ _ _ _) as [[r s']|] eqn:E; [|done]. intros [= ->]. by apply handshake_not_closed in E.
  - congruence.
  - congruence.
Qed.

Lemma returned_stays sd l ops (l' : Listener (Conn := Conn)) :
  listener_step sd false l ops l' -> phase l = Returned -> phase l' = Returned.
Proof. destruct 1; intros Hr; simpl in *; congruence. Qed.

Lemma drop_work_returned (w : Work (Conn := Conn)) l : drop_work w = ListenerWork l -> phase l = Returned.
Proof. destruct w as [l0| |]; simpl; [|done..]. destruct (phase l0) eqn:E; by intros [= <-]. Qed.

Lemma drop_watcher (w : Work (Conn := Conn)) path st last :
  drop_work w = WatcherWork path st last -> w = WatcherWork path st last.
Proof. destruct w as [l| |]; simpl; [|done..]. by destruct (phase l). Qed.
(** *** One task at a time *)

(** What a step keeps of a task: its name, and the end of one that is over. *)
Definition task_keeps (t t' : ProcTask (Conn := Conn)) : Prop :=
  task_name t' = task_name t /\
  (is_over (status t) = true -> status t' = status t /\
     forall path st last, work t = WatcherWork path st last -> work t' = work t).

Definition tasks_keep (ts ts' : list (ProcTask (Conn := Conn))) : Prop :=
  forall t, t ∈ ts -> exists t', t' ∈ ts' /\ task_keeps t t'.

Lemma task_keeps_refl t : task_keeps t t.
Proof. by split. Qed.

Lemma keeps_update ts i t t' : ts !! i = Some t -> task_keeps t t' -> tasks_keep ts (<[i := t']> ts).
Proof.
  intros Hi Hk t0 [j Hj]%list_elem_of_lookup. destruct (decide (j = i)) as [->|Hne].
  - simplify_eq. exists t'. split; [|done]. apply list_elem_of_lookup. exists i.
    apply list_lookup_insert_eq. by eapply lookup_lt_Some.
  - exists t0. split; [|apply task_keeps_refl]. apply list_elem_of_lookup. exists j. by rewrite list_lookup_insert_ne.
Qed.

Lemma keeps_fmap ts f : (forall t, task_keeps t (f t)) -> tasks_keep ts (f <$> ts).
Proof. intros Hf t Ht. exists (f t). split; [by apply list_elem_of_fmap_2|done]. Qed.

Lemma blames_kept ts ts' e : tasks_keep ts ts' -> blames ts e -> blames ts' e.
Proof.
  intros Hk. destruct e as [name cause| |name| |]; simpl; try done.
  - intros (t & pl & (t' & Ht' & Hn & Ho)%Hk & <- & Hs & ->). exists t', pl. destruct Ho as [-> _]; by rewrite ?Hs.
  - intros (t & path & last & (t' & Ht' & Hn & Ho)%Hk & <- & Hs & Hw). exists t', path, last.
    rewrite Hs in Ho. destruct (Ho eq_refl) as [-> Hw']. by rewrite (Hw' _ _ _ Hw).
Qed.

Lemma inv_update p i t t' :
  proc_inv p -> proc_tasks p !! i = Some t -> task_keeps t t' ->
  task_inv (shutdown_sent p) (proc_phase p) t' -> proc_inv (update_task i t' p).
Proof.
  intros [Ht Hs Hf] Hi Hk Ht'. split; simpl; [by apply Forall_insert|done|].
  intros e He. eapply blames_kept; [by eapply keeps_update|]. by apply Hf.
Qed.

Lemma inv_at p i t : proc_inv p -> proc_tasks p !! i = Some t -> task_inv (shutdown_sent p) (proc_phase p) t.
Proof. intros [Ht _ _] Hi. by eapply Forall_lookup in Ht. Qed.

(** A task that was not over ends. *)
Lemma task_ends sd ph t w r :
  task_inv sd ph t -> is_over (status t) = false ->
  (forall l, w = ListenerWork l -> phase l = Returned) ->
  (r = Ok tt -> sd = false -> exists path last, w = WatcherWork path false last) ->
  (stopped ph = false -> forall d, r <> Err (JoinCancelled d)) ->
  let t' := set_status (TaskOver r) (set_work w t) in task_keeps t t' /\ task_inv sd ph t'.
Proof.
  intros [Hl He Hu Hj] Ho Hw Hr Hc. split; [split; [done|congruence]|]. split; simpl; [done|..].
  - intros [= ->]. by apply Hr.
  - intros Hs. split; [done|]. intros d [= ->]. by eapply Hc.
  - destruct ph as [|f|r0]; simpl in Hj |- *; [done|..].
    + intros Hm. destruct (Hj Hm) as (r' & E & _). by rewrite E in Ho.
    + split; [done|]. intros Hr0. destruct Hj as [_ E]. by rewrite E in Ho.
Qed.

Lemma set_work_id t : set_work (work t) t = t.
Proof. by destruct t. Qed.

(** A watcher at work. *)
Lemma watcher_moves sd ph t path st last st' last' :
  task_inv sd ph t -> is_over (status t) = false -> work t = WatcherWork path st last ->
  let t' := set_work (WatcherWork path st' last') t in task_keeps t t' /\ task_inv sd ph t'.
Proof.
  intros [Hl He Hu Hj] Ho Hw. split; [split; [done|congruence]|]. split; simpl; [done| |done|done].
  intros Hs. by rewrite Hs in Ho.
Qed.

Lemma listener_moves sd ph t l ops l' :
  task_inv sd ph t -> work t = ListenerWork l -> listener_step sd false l ops l' ->
  let t' := set_work (ListenerWork l') t in task_keeps t t' /\ task_inv sd ph t'.
Proof.
  intros [Hl He Hu Hj] Hw Hst. split; [split; [done|]; intros Ho; split; [done|]; congruence|]. split; simpl; [| |done|done].
  - intros ? [= <-]. specialize (Hl l Hw). destruct (is_over (status t)); [by eapply returned_stays|].
    intros ->. by eapply accepting_stays; [|apply Hl].
  - intros Hs Hsd. destruct (He Hs Hsd) as (? & ? & ?). congruence.
Qed.

(** ** The supervisor *)
Lemma classify_blames ts t r :
  t ∈ ts -> status t = TaskOver r -> (r = Ok tt -> exists path last, work t = WatcherWork path false last) ->
  (forall d, r <> Err (JoinCancelled d)) ->
  blames ts (classify_unexpected_exit (Ok (task_name t, r))).2.
Proof.
  intros Ht Hs Hok Hc. destruct r as [[]|[pl|d]]; simpl; [|by exists t, pl|by destruct (Hc d)].
  destruct (Hok eq_refl) as (path & last & Hw). by exists t, path, last.
Qed.

Lemma drain_join_cases f t r :
  (forall d, r <> Err (JoinCancelled d)) ->
  (drain_join f (Ok (task_name t, r)) = f /\ (f = None -> r = Ok tt)) \/
  (f = None /\ exists pl, r = Err (JoinPanic pl) /\
     drain_join f (Ok (task_name t, r)) = Some (TaskPanicked (task_name t) (join_error_cause (JoinPanic pl)))).
Proof.
  intros Hc. destruct r as [[]|[pl|d]]; simpl; [by left| |by destruct (Hc d)].
  destruct f; [by left|]. right. split; [done|]. by exists pl.
Qed.

Lemma begin_drain_inv t f :
  task_inv false Selecting t -> task_inv true (DrainingTasks f) t.
Proof.
  intros [Hl He Hu Hj]. split; [|done|done|].
  - intros l Hw. specialize (Hl l Hw). by destruct (is_over (status t)).
  - simpl in Hj |- *. congruence.
Qed.

(** The drain has joined [r]. *)
Lemma unmonitored_inv f t r :
  task_inv true (DrainingTasks f) t -> status t = TaskOver r -> (f = None -> r = Ok tt) ->
  task_inv true (DrainingTasks f) (unmonitored t).
Proof. intros [Hl He Hu Hj] Hs Hr. split; simpl; [done..|]. by exists r. Qed.

Lemma drain_inv f f' t :
  (f' = None -> f = None) -> task_inv true (DrainingTasks f) t -> task_inv true (DrainingTasks f') t.
Proof.
  intros Hf [Hl He Hu Hj]. split; simpl; [done..|]. intros Hm. destruct (Hj Hm) as (r & Hs & Hr). exists r. auto.
Qed.

Lemma outcome_ok f : outcome_of f = Ok tt <-> f = None.
Proof. by destruct f. Qed.

Lemma drained_inv f t :
  monitored t = false -> task_inv true (DrainingTasks f) t -> task_inv true (Stopped (outcome_of f)) t.
Proof.
  intros Hm [Hl He Hu Hj]. split; [done|done|done|]. destruct (Hj Hm) as (r & Hs & Hr). simpl. rewrite Hs.
  split; [done|]. intros ->%outcome_ok. by rewrite Hr.
Qed.

Lemma abort_inv f e t :
  task_inv true (DrainingTasks f) t -> task_inv true (Stopped (Err e)) (unmonitored (abort_task t)).
Proof.
  intros [Hl He Hu Hj]. unfold abort_task. destruct (status t) eqn:Hs; (split; simpl; rewrite ?Hs; try done).
Qed.

Lemma abort_keeps t : task_keeps t (unmonitored (abort_task t)).
Proof. unfold abort_task. destruct (status t) eqn:Hs; split; simpl; rewrite ?Hs; done. Qed.

Lemma unmonitored_keeps t : task_keeps t (unmonitored t).
Proof. by split. Qed.
Lemma selecting_inv p :
  proc_inv p -> proc_phase p = Selecting -> shutdown_sent p = false /\ Forall (task_inv false Selecting) (proc_tasks p).
Proof. intros [Ht Hs _] E. rewrite E in Hs, Ht. simpl in Hs. by rewrite Hs in Ht. Qed.

Lemma draining_inv p f :
  proc_inv p -> proc_phase p = DrainingTasks f ->
  shutdown_sent p = true /\ Forall (task_inv true (DrainingTasks f)) (proc_tasks p) /\
  forall e, f = Some e -> blames (proc_tasks p) e.
Proof.
  intros [Ht Hs Hf] E. rewrite E in Hs, Ht, Hf. simpl in Hs. rewrite Hs in Ht. split; [done|]. split; [done|].
  intros e ->. by apply Hf.
Qed.

Lemma task_exit_inv p i t r :
  proc_inv p -> proc_phase p = Selecting -> proc_tasks p !! i = Some t -> status t = TaskOver r ->
  proc_inv (begin_drain (Some (classify_unexpected_exit (Ok (task_name t, r))).2) (update_task i (unmonitored t) p)).
Proof.
  intros Hp Eph Hi Hs. destruct (selecting_inv p Hp Eph) as [Hsd Ht].
  pose proof (proj1 (Forall_lookup _ _) Ht i t Hi) as Hti. split; simpl; [|done|].
  - apply Forall_insert; [eapply Forall_impl; [exact Ht|]; intros; by apply begin_drain_inv|].
    eapply unmonitored_inv; [by apply begin_drain_inv|exact Hs|done].
  - intros e [= <-]. eapply blames_kept; [eapply keeps_update; [exact Hi|apply unmonitored_keeps]|].
    destruct Hti as [_ He Hu _]. apply classify_blames; [by eapply list_elem_of_lookup_2|done|..].
    + intros ->. by apply He.
    + intros d ->. by apply (proj2 (Hu eq_refl) d).
Qed.

#[local] Arguments drain_join : simpl never.

Lemma drain_join_inv p f i t r :
  proc_inv p -> proc_phase p = DrainingTasks f -> proc_tasks p !! i = Some t -> status t = TaskOver r ->
  proc_inv (with_supervisor (DrainingTasks (drain_join f (Ok (task_name t, r)))) (update_task i (unmonitored t) p)).
Proof.
  intros Hp Eph Hi Hs. destruct (draining_inv p f Hp Eph) as (Hsd & Ht & Hf).
  pose proof (proj1 (Forall_lookup _ _) Ht i t Hi) as Hti.
  assert (Hk : tasks_keep (proc_tasks p) (<[i := unmonitored t]> (proc_tasks p))) by (eapply keeps_update; [exact Hi|apply unmonitored_keeps]).
  assert (Hc : forall d, r <> Err (JoinCancelled d)).
  { intros d ->. destruct Hti as [_ _ Hu _]. by apply (proj2 (Hu eq_refl) d). }
  split; simpl; rewrite ?Hsd; [| done|].
  - assert (Hmono : drain_join f (Ok (task_name t, r)) = None -> f = None) by (destruct f; [by rewrite drain_join_some|done]).
    apply Forall_insert; [eapply Forall_impl; [exact Ht|]; intros; by eapply drain_inv|].
    eapply unmonitored_inv; [by eapply drain_inv|exact Hs|].
    destruct (drain_join_cases f t r Hc) as [[-> H]|(-> & pl & -> & ->)]; [exact H|done].
  - intros e He. destruct (drain_join_cases f t r Hc) as [[E _]|(-> & pl & -> & E)]; rewrite E in He.
    + destruct f as [e'|]; [|done]. injection He as <-. eapply blames_kept; [exact Hk|by apply Hf].
    + injection He as <-. eapply blames_kept; [exact Hk|]. exists t, pl. by repeat split; [eapply list_elem_of_lookup_2|..].
Qed.

Lemma stop_inv p f :
  proc_inv p -> proc_phase p = DrainingTasks f ->
  (Forall (fun t => monitored t = false) (proc_tasks p) -> proc_inv (with_supervisor (Stopped (outcome_of f)) p)) /\
  proc_inv (drain_elapsed f p).
Proof.
  intros Hp Eph. destruct (draining_inv p f Hp Eph) as (Hsd & Ht & Hf). split.
  - intros Hm. split; simpl; rewrite ?Hsd; [|done|].
    + apply Forall_forall. intros t Hin. rewrite Forall_forall in Hm, Ht. apply drained_inv; auto.
    + intros e He. apply Hf. destruct f; simpl in He; congruence.
  - split; simpl; rewrite ?Hsd; [|done|].
    + apply Forall_fmap. eapply Forall_impl; [exact Ht|]. intros t Hti.
      destruct f as [e|]; by apply (abort_inv _ _ _ Hti).
    + intros e He. eapply blames_kept; [apply keeps_fmap, abort_keeps|].
      destruct f as [e'|]; simpl in He; injection He as <-; [by apply Hf|done].
Qed.

Lemma process_step_inv p obs p' : process_step p obs p' -> proc_inv p -> proc_inv p'.
Proof.
  intros Hstep Hp.
  destruct Hstep as [i t l ops l' Hi Hw Hst|i t l Hi Hw Hph Ho|i t path last Hi Hw Ho|i t path last Hi Hw Ho
    |i t path last tick st' last' Hi Hw Ho _|i t path last Hi Hw Ho Hsd|i t Hi Hw Ho Hsd|i t payload Hi Ho|i t d Hi Hab
    |Eph|i t r Eph Hi _ Hs|f i t r Eph Hi _ Hs|f Eph Hm|f Eph];
    try pose proof (inv_at p i t Hp Hi) as Hti.
  - destruct (listener_moves _ _ _ _ _ _ Hti Hw Hst). by eapply inv_update.
  - destruct (task_ends _ _ t (work t) (Ok tt) Hti Ho) as [Hk H]; [congruence| |done|by rewrite set_work_id in *; eapply inv_update].
    intros _ Hsd. destruct Hti as [Hl _ _ _]. specialize (Hl l Hw). rewrite Ho in Hl. specialize (Hl Hsd). congruence.
  - destruct (watcher_moves _ _ t path false last true last Hti Ho Hw). by eapply inv_update.
  - destruct (task_ends _ _ t (work t) (Ok tt) Hti Ho) as [Hk H]; [congruence|by eauto|done|by rewrite set_work_id in *; eapply inv_update].
  - destruct (watcher_moves _ _ t path true last true last' Hti Ho Hw) as [Hk H].
    destruct (inv_update _ _ _ _ Hp Hi Hk H). by split.
  - destruct (task_ends _ _ t (work t) (Ok tt) Hti Ho) as [Hk H]; [congruence|congruence|done|by rewrite set_work_id in *; eapply inv_update].
  - destruct (task_ends _ _ t (work t) (Ok tt) Hti Ho) as [Hk H]; [congruence|congruence|done|by rewrite set_work_id in *; eapply inv_update].
  - destruct (task_ends _ _ t (drop_work (work t)) (Err (JoinPanic payload)) Hti Ho) as [Hk H];
      [by intros; eapply drop_work_returned|done|done|by eapply inv_update].
  - destruct (task_ends _ _ t (drop_work (work t)) (Err (JoinCancelled d)) Hti) as [Hk H]; [by rewrite Hab|by intros; eapply drop_work_returned|done| |by eapply inv_update].
    intros Hns. destruct Hti as [_ _ Hu _]. by destruct (Hu Hns).
  - destruct (selecting_inv p Hp Eph) as [_ Ht]. split; simpl; [|done|done].
    eapply Forall_impl; [exact Ht|]. intros; by apply begin_drain_inv.
  - by apply task_exit_inv.
  - by apply drain_join_inv.
  - by apply stop_inv.
  - by apply stop_inv.
Qed.

Lemma start_inv {L} (n : Node (L := L)) : proc_inv (start_process n).
Proof.
  split; simpl; [|done|done]. apply Forall_fmap, Forall_forall. intros [name tk] _.
  split; simpl; [|done|done|done]. intros l. destruct tk; simpl; by intros [= <-].
Qed.

Lemma run_inv p obs p' : process_run p obs p' -> proc_inv p -> proc_inv p'.
Proof. induction 1; [done|]. intros. eapply process_step_inv; eauto. Qed.
(** ** The run as the supervisor saw it *)
Definition supervised (obs : list Observation) : list Observation :=
  List.filter (fun o => match o with ObsCounted _ => false | _ => true end) obs.

Definition counted (obs : list Observation) : list MetricOp :=
  omap (fun o => match o with ObsCounted op => Some op | _ => None end) obs.

Definition joined_names (obs : list Observation) : list string :=
  omap (fun o => match o with ObsJoined (Ok (name, _)) => Some name | _ => None end) obs.

(** The observation that ends the wait, and the failure it leaves. *)
Definition wakes (wakeup : Wakeup) : Observation :=
  match wakeup with CtrlC => ObsCtrlC | TaskExit joined => ObsJoined joined end.

Definition woken_by (wakeup : Wakeup) : option ShutdownError :=
  match wakeup with CtrlC => None | TaskExit joined => Some (classify_unexpected_exit joined).2 end.

Definition observed (wakeup : Wakeup) (drained : list Joined) (in_time : bool) : list Observation :=
  wakes wakeup :: (ObsJoined <$> drained) ++ (if in_time then [] else [ObsElapsed]).

Definition history (obs : list Observation) (ph : SupervisorPhase) : Prop :=
  match ph with
  | Selecting => supervised obs = []
  | DrainingTasks f => exists wakeup drained, supervised obs = observed wakeup drained true /\
      f = fold_left drain_join drained (woken_by wakeup)
  | Stopped r => exists wakeup drained in_time, supervised obs = observed wakeup drained in_time /\
      r = run_until_shutdown wakeup drained in_time
  end.

Lemma run_outcome wakeup drained in_time :
  run_until_shutdown wakeup drained in_time =
    outcome_of (if in_time then fold_left drain_join drained (woken_by wakeup)
                else get_or_insert (fold_left drain_join drained (woken_by wakeup)) (DrainTimedOut SHUTDOWN_DEADLINE)).
Proof. unfold run_until_shutdown. by destruct wakeup, in_time. Qed.

Lemma supervised_counted ops : supervised (ObsCounted <$> ops) = [].
Proof. induction ops as [|op ops IH]; [done|exact IH]. Qed.

Lemma supervised_app a b : supervised (a ++ b) = supervised a ++ supervised b.
Proof. apply List.filter_app. Qed.

Lemma observed_snoc wakeup drained joined :
  observed wakeup drained true ++ [ObsJoined joined] = observed wakeup (drained ++ [joined]) true.
Proof. unfold observed. by rewrite fmap_app, !app_nil_r. Qed.

Lemma step_history p obs obs' p' :
  process_step p obs' p' -> history obs (proc_phase p) -> history (obs ++ obs') (proc_phase p').
Proof.
  assert (Hsame : forall o, supervised o = [] -> forall ph, history obs ph -> history (obs ++ o) ph).
  { intros o Ho ph. unfold history. by rewrite supervised_app, Ho, app_nil_r. }
  destruct 1 as [i t l ops l' Hi Hw Hst| | | | | | | | |Eph|i t r Eph Hi Hm Hs|f i t r Eph Hi Hm Hs|f Eph Hm|f Eph];
    try exact (Hsame [] eq_refl _); [exact (Hsame _ (supervised_counted ops) _)|..]; rewrite ?Eph; cbn [history proc_phase begin_drain with_supervisor].
  - intros H. exists CtrlC, []. by rewrite supervised_app, H.
  - intros H. exists (TaskExit (Ok (task_name t, r))), []. by rewrite supervised_app, H.
  - intros (wk & dr & H & ->). exists wk, (dr ++ [Ok (task_name t, r)]).
    rewrite supervised_app, H, fold_left_app. split; [apply observed_snoc|done].
  - intros (wk & dr & H & ->). exists wk, dr, true. by rewrite app_nil_r, run_outcome.
  - intros (wk & dr & H & ->). exists wk, dr, false. rewrite supervised_app, H, run_outcome. split; [|done].
    unfold observed. by rewrite app_nil_r.
Qed.

(** *** Each task is joined once *)
Lemma step_tasks p obs p' :
  process_step p obs p' ->
  (task_name <$> proc_tasks p') = task_name <$> proc_tasks p /\
  (forall j t, proc_tasks p !! j = Some t -> monitored t = false ->
     exists t', proc_tasks p' !! j = Some t' /\ task_name t' = task_name t /\ monitored t' = false) /\
  (joined_names obs = [] \/
   exists i t, proc_tasks p !! i = Some t /\ monitored t = true /\ joined_names obs = [task_name t] /\
     exists t', proc_tasks p' !! i = Some t' /\ task_name t' = task_name t /\ monitored t' = false).
Proof.
  assert (Hu : forall i t t', proc_tasks p !! i = Some t -> task_name t' = task_name t ->
    (monitored t = false -> monitored t' = false) ->
    (task_name <$> <[i := t']> (proc_tasks p)) = task_name <$> proc_tasks p /\
    (forall j t0, proc_tasks p !! j = Some t0 -> monitored t0 = false ->
       exists t1, <[i := t']> (proc_tasks p) !! j = Some t1 /\ task_name t1 = task_name t0 /\ monitored t1 = false)).
  { intros i t t' Hi Hn Hm. split.
    - rewrite list_fmap_insert, Hn. apply list_insert_id. by rewrite list_lookup_fmap, Hi.
    - intros j t0 Hj H0. destruct (decide (j = i)) as [->|Hne]; [|exists t0; by rewrite list_lookup_insert_ne].
      simplify_eq. exists t'. split; [by apply list_lookup_insert_eq; eapply lookup_lt_Some|]. auto. }
  assert (Hc : forall ops, joined_names (ObsCounted <$> ops) = []) by (induction ops; done).
  assert (Hj : forall i t, proc_tasks p !! i = Some t -> monitored t = true ->
    exists i0 t0, proc_tasks p !! i0 = Some t0 /\ monitored t0 = true /\ [task_name t] = [task_name t0] /\
     exists t', <[i := unmonitored t]> (proc_tasks p) !! i0 = Some t' /\ task_name t' = task_name t0 /\ monitored t' = false).
  { intros i t Hi Hm. exists i, t. do 3 (split; [done|]). eexists. split; [by apply list_lookup_insert_eq; eapply lookup_lt_Some|done]. }
  destruct 1; cbn [proc_tasks update_task with_proc_tasks with_auth begin_drain with_supervisor drain_elapsed];
    try (apply and_assoc; split; [by eapply Hu|]); try (by left); try (by left; apply Hc); try (by right; apply Hj).
  - split; [done|]. split; [by eauto|by left].
  - split; [done|]. split; [by eauto|by left].
  - split; [|split; [|by left]].
    + rewrite <- list_fmap_compose. apply list_fmap_ext. intros j t _. simpl. unfold abort_task. by destruct (status t).
    + intros j t Hj0 Hm. eexists. rewrite list_lookup_fmap, Hj0. split; [done|]. split; [|done].
      unfold abort_task. by destruct (status t).
Qed.

Lemma run_joins p0 obs p :
  process_run p0 obs p -> NoDup (task_name <$> proc_tasks p0) ->
  (task_name <$> proc_tasks p) = task_name <$> proc_tasks p0 /\ NoDup (joined_names obs) /\
  forall name, name ∈ joined_names obs -> exists i t, proc_tasks p !! i = Some t /\ task_name t = name /\ monitored t = false.
Proof.
  intros Hr Hnd. induction Hr as [|obs p1 obs' p2 Hr (IHn & IHd & IHj) Hs].
  { split; [done|]. split; [constructor|]. by intros name ?%not_elem_of_nil. }
  destruct (step_tasks _ _ _ Hs) as (Hn & Hk & Hj). split; [congruence|].
  assert (Hold : forall name, name ∈ joined_names obs -> exists i t, proc_tasks p2 !! i = Some t /\ task_name t = name /\ monitored t = false).
  { intros name (i & t & Hi & <- & Hm)%IHj. destruct (Hk i t Hi Hm) as (t' & ? & ? & ?). eauto. }
  unfold joined_names. rewrite omap_app. fold (joined_names obs) (joined_names obs').
  destruct Hj as [->|(i & t & Hi & Hm & -> & t' & Hi' & Hn' & Hm')]; [by rewrite app_nil_r|]. split.
  - apply NoDup_app. split; [done|]. split; [|by apply NoDup_singleton].
    intros name Hin ->%list_elem_of_singleton. destruct (IHj _ Hin) as (j & t2 & Hj & Hn2 & Hm2).
    assert (i = j) as ->; [|congruence]. eapply (NoDup_lookup (task_name <$> proc_tasks p1)); [by rewrite IHn|..].
    + by rewrite list_lookup_fmap, Hi.
    + rewrite list_lookup_fmap, Hj. simpl. by rewrite Hn2.
  - intros name [Hin| ->%list_elem_of_singleton]%elem_of_app; [by apply Hold|]. eauto.
Qed.
(** *** The listeners of the process *)
Definition listener_of (t : ProcTask (Conn := Conn)) : option Listener :=
  match work t with ListenerWork l => Some l | _ => None end.

Definition listeners_of (p : Process (Conn := Conn)) : list Listener := omap listener_of (proc_tasks p).

Lemma omap_same {A B} (f : A -> option B) (l : list A) i a a' :
  l !! i = Some a -> f a' = f a -> omap f (<[i := a']> l) = omap f l.
Proof.
  revert i. induction l as [|a0 l IH]; intros [|i] Hi Hf; try done; simpl in Hi |- *.
  - simplify_eq. by rewrite Hf.
  - specialize (IH i Hi Hf). unfold omap in IH. by rewrite IH.
Qed.

Lemma omap_fmap_same {A B} (f : A -> option B) (g : A -> A) (l : list A) :
  (forall a, f (g a) = f a) -> omap f (g <$> l) = omap f l.
Proof.
  intros Hg. induction l as [|a l IH]; [done|]. simpl. rewrite Hg. unfold omap, fmap in IH |- *. by rewrite IH.
Qed.

Lemma omap_update {A B} (f : A -> option B) (l : list A) i a x :
  l !! i = Some a -> f a = Some x ->
  exists j, omap f l !! j = Some x /\
    forall a' x', f a' = Some x' -> omap f (<[i := a']> l) = <[j := x']> (omap f l).
Proof.
  revert i. induction l as [|a0 l IH]; intros [|i] Hi Hf; try done; simpl in Hi.
  - simplify_eq. exists 0%nat. simpl. rewrite Hf. split; [done|]. intros a' x' Hf'. by rewrite Hf'.
  - destruct (IH i Hi Hf) as (j & Hj & Hu). simpl. destruct (f a0) as [y|].
    + exists (S j). split; [done|]. intros a' x' Hf'. simpl.
      specialize (Hu a' x' Hf'). unfold omap in Hu. by rewrite Hu.
    + exists j. split; [done|]. by intros a' x' Hf'; apply Hu.
Qed.

Lemma counted_all ops : counted (ObsCounted <$> ops) = ops.
Proof. induction ops as [|op ops IH]; [done|]. simpl. f_equal. exact IH. Qed.

Lemma step_listeners p obs p' ls0 ops :
  process_step p obs p' -> node_steps ls0 ops (listeners_of p) -> node_steps ls0 (ops ++ counted obs) (listeners_of p').
Proof.
  intros Hstep Hls.
  assert (Hsame : forall i t t', proc_tasks p !! i = Some t -> listener_of t' = listener_of t ->
    node_steps ls0 (ops ++ []) (omap listener_of (<[i := t']> (proc_tasks p)))).
  { intros i t t' Hi Hl. rewrite app_nil_r. by rewrite (omap_same _ _ _ _ _ Hi Hl). }
  assert (Hdrop : forall i t st, proc_tasks p !! i = Some t ->
    node_steps ls0 (ops ++ []) (omap listener_of (<[i := set_status st (set_work (drop_work (work t)) t)]> (proc_tasks p)))).
  { intros i t st Hi. destruct (work t) as [l| |] eqn:Hw;
      try (by eapply Hsame; [exact Hi|unfold listener_of; cbn [work set_status set_work drop_work]; rewrite Hw]).
    destruct (decide (phase l = Returned)) as [Hr|Hr].
    - eapply Hsame; [exact Hi|]. unfold listener_of. cbn [work set_status set_work]. rewrite Hw. simpl. by rewrite Hr.
    - destruct (omap_update listener_of _ i t l Hi) as (j & Hj & Hu); [unfold listener_of; by rewrite Hw|].
      rewrite (Hu _ (with_phase Returned l)); [|unfold listener_of; simpl; by destruct (phase l)].
      eapply (node_more _ ops _ j l [] _ false true); [exact Hls|exact Hj|by apply step_aborted]. }
  destruct Hstep as [i t l obs' l' Hi Hw Hst|i t l Hi Hw|i t path last Hi Hw|i t path last Hi Hw|i t path last tick st' last' Hi Hw
    |i t path last Hi Hw|i t Hi|i t pl Hi|i t d Hi|Eph|i t r _ Hi|f i t r _ Hi|f Eph Hm|f Eph];
    unfold listeners_of; cbn [proc_tasks update_task with_proc_tasks with_auth begin_drain with_supervisor drain_elapsed counted omap list_omap];
    try (by eapply Hsame; [exact Hi|]); try (by eapply Hsame; [exact Hi|unfold listener_of; simpl; by rewrite Hw]);
    try (by apply Hdrop); try (by rewrite app_nil_r).
  - rewrite counted_all. destruct (omap_update listener_of _ i t l Hi) as (j & Hj & Hu); [unfold listener_of; by rewrite Hw|].
    rewrite (Hu (set_work (ListenerWork l') t) l' eq_refl). by eapply node_more.
  - rewrite app_nil_r, omap_fmap_same; [done|]. intros t. unfold listener_of, abort_task. by destruct (status t).
Qed.

Lemma run_listeners p0 obs p :
  process_run p0 obs p -> node_steps (listeners_of p0) (counted obs) (listeners_of p).
Proof.
  induction 1 as [|obs p1 obs' p2 _ IH Hs]; [constructor|]. unfold counted. rewrite omap_app. by eapply step_listeners.
Qed.

Lemma run_history p0 obs p :
  process_run p0 obs p -> proc_phase p0 = Selecting -> history obs (proc_phase p).
Proof. induction 1 as [|obs p1 obs' p2 _ IH Hs]; intros E; [by rewrite E|]. eapply step_history; eauto. Qed.
End Invariants.

(** ** Names *)
Lemma snoc_char_inj (s s' : string) c : s +:+ String c "" = s' +:+ String c "" -> s = s'.
Proof.
  revert s'. induction s as [|a s IH]; intros [|b s']; simpl; [done|..].
  - intros [= _ H]. by destruct s'.
  - intros [= _ H]. by destruct s.
  - intros [= -> H]. by rewrite (IH s').
Qed.

Lemma spawned_names_NoDup {L} (n : Node (L := L)) : NoDup (spawn_tasks n).*1.
Proof.
  unfold spawn_tasks. rewrite fmap_app. apply NoDup_app. split; [|split; [|by apply NoDup_singleton]].
  - apply NoDup_alt. intros i j name Hi Hj. rewrite list_lookup_fmap, list_lookup_imap in Hi, Hj.
    destruct (_ !! i) as [ti|]; [|done]. destruct (_ !! j) as [tj|]; [|done]. simplify_eq/=.
    apply (inj N.of_nat), (inj pretty). eapply snoc_char_inj. exact Hi.
  - intros name [[name' t] [-> (k & t' & [= -> _] & _)%elem_of_lookup_imap]]%list_elem_of_fmap Hin.
    by apply list_elem_of_singleton in Hin.
Qed.

Lemma omap_imap {A B C} (f : B -> option C) (g : nat -> A -> B) (h : A -> option C) l :
  (forall i x, f (g i x) = h x) -> omap f (imap g l) = omap h l.
Proof.
  revert g. induction l as [|x l IH]; intros g Hfg; [done|]. rewrite imap_cons. cbn [omap list_omap].
  rewrite Hfg, (IH (g ∘ S)); [done|]. intros i y. apply Hfg.
Qed.

Lemma started_listeners {L} `{BS : ByteStream Conn} (n : Node (L := L)) :
  listeners_of (start_process (Conn := Conn) n) = start_listener <$> (bl_id <$> ingest n).
Proof.
  unfold listeners_of, start_process, spawn_tasks. cbn [proc_tasks]. rewrite fmap_app, omap_app.
  change (omap listener_of (start_task (initial_config n) <$> [("api", ApiTask)])) with (@nil (Listener (Conn := Conn))).
  rewrite app_nil_r, fmap_imap.
  rewrite (omap_imap _ _ (fun tk => match tk with ListenerTask l => Some (start_listener (bl_id l)) | _ => None end))
    by by intros i [l|path|].
  rewrite omap_app.
  replace (omap _ match config_path n with Some p => [WatcherTask p] | None => [] end) with (@nil (Listener (Conn := Conn)))
    by by destruct (config_path n).
  rewrite app_nil_r. induction (ingest n) as [|b bs IH]; [done|]. simpl. f_equal. exact IH.
Qed.

(** ** Claims *)
Section Claims.
Context `{BS : ByteStream Conn}.
Context `{EnvCbor : Cbor OtkEnvelope} `{CborEvent : Cbor OtkEvent} `{CborHeartbeat : Cbor Heartbeat}.
Context `{CborConnect : Cbor Connect} `{CborAck : Cbor ConnectAck} `{CborReject : Cbor ConnectReject}.
Context `{EL : EventLog L}.
Variable bind_tcp : SocketAddr -> option TlsListenerConfig -> result SocketAddr SocketBind.ErrorKind.
Variable bind_unix : Path -> SocketBind.UnixConfig -> result unit SocketBind.ErrorKind.
Variable bind_api : SocketAddr -> result SocketAddr SocketBind.ErrorKind.
Variable open_log : Path -> result L StorageError.
Variable load_from_file : Path -> result NodeConfig string.

(** The node the program builds. *)
Definition builds (args : list string) (n : Node (L := L)) : Prop :=
  match parse_config_source args with
  | inr _ => False
  | inl SourceDefault => node_new bind_tcp bind_unix bind_api open_log config_default = Ok n
  | inl (SourceFile path) => from_config_path bind_tcp bind_unix bind_api open_log load_from_file (path_of path) = Ok n
  end.

Abbreviation exits_with r args :=
  (main bind_tcp bind_unix bind_api open_log load_from_file (fun _ => r) args).

Lemma main_outcome args n r : builds args n -> (exits_with r args = 0%N <-> r = Ok tt).
Proof.
  unfold builds, main, run, run_from_config_path. destruct (parse_config_source args) as [[|path]|code]; [..|done];
    intros ->; simpl; destruct r as [[]|e]; by split.
Qed.

Lemma drain_first_cause drained e :
  fold_left drain_join drained None = Some e ->
  match e with TaskPanicked _ _ | TaskFailed _ _ | MonitorPanicked _ => True | _ => False end.
Proof.
  rewrite drain_first. intros H%head_Some_elem_of%list_elem_of_omap. destruct H as (j & _ & H). revert H. unfold drain_join.
  destruct j as [[name [u|[pl|d]]]|je]; simpl; by intros [= <-].
Qed.

Lemma supervised_elem obs o :
  match o with ObsCounted _ => False | _ => True end -> (o ∈ obs <-> o ∈ supervised obs).
Proof.
  intros Ho. unfold supervised. rewrite !list_elem_of_In, List.filter_In. split; [|by intros [? _]].
  intros ?. split; [done|]. by destruct o.
Qed.

(** A stop by Ctrl-C within the deadline after which every task returned. *)
Lemma stopped_ok_iff (p : Process (Conn := Conn)) obs r :
  proc_inv p -> history obs (proc_phase p) -> proc_phase p = Stopped r ->
  (r = Ok tt <-> ObsCtrlC ∈ obs /\ ~ (ObsElapsed ∈ obs) /\ forall t, t ∈ proc_tasks p -> status t = TaskOver (Ok tt)).
Proof.
  intros [Ht _ Hf] Hh E. rewrite E in Ht, Hf, Hh. destruct Hh as (wk & dr & in_time & Ho & Hr).
  rewrite (supervised_elem obs ObsCtrlC), (supervised_elem obs ObsElapsed), Ho by done. rewrite Hr. split.
  - intros Hok. split; [|split].
    + destruct wk as [|j]; [by left|]. revert Hok. rewrite run_outcome. cbn [woken_by]. rewrite drain_some. by destruct in_time.
    + destruct in_time; [|revert Hok; rewrite run_outcome; by destruct (fold_left _ _ _)]. unfold observed. rewrite app_nil_r.
      intros [Hw|(j & Hj & _)%list_elem_of_fmap]%elem_of_cons; [by destruct wk|done].
    + intros t Hin. rewrite Forall_forall in Ht. destruct (Ht t Hin) as [_ _ _ [_ H]]. apply H. by rewrite Hr.
  - intros (Hc & He & Hall). destruct wk as [|j].
    2:{ apply elem_of_cons in Hc as [|[(j' & ? & _)%list_elem_of_fmap|Hin]%elem_of_app]; [done..|].
        destruct in_time; [by apply not_elem_of_nil in Hin|by apply list_elem_of_singleton in Hin]. }
    destruct in_time; [|exfalso; apply He; right; apply elem_of_app; right; by left].
    rewrite run_outcome in Hr |- *. destruct (fold_left _ _ _) as [e|] eqn:Ef; [|done]. exfalso.
    pose proof (drain_first_cause _ _ Ef) as Hcause. specialize (Hf e). rewrite Hr in Hf. specialize (Hf eq_refl).
    destruct e; try done. destruct Hf as (t & pl & Hin & _ & Hs & _). rewrite (Hall t Hin) in Hs. done.
Qed.

(** C39: every run of a node's process.  Before the shutdown signal every
    listener is accepting; the listeners do only what listeners do, so their
    metrics are exact; no task is joined twice.  When [run_until_shutdown]
    returns, no task is left running: each is over or has been aborted.  The
    failure it returns is the first one: a task that panicked, the watcher
    that could not be started, or the deadline of the drain, never a cancelled
    task or a failed monitor, and never a listener that stopped by itself.
    The program exits with success exactly after a Ctrl-C whose drain is
    within the deadline and in which every task returned. *)
Theorem supervision args n obs (p : Process (Conn := Conn)) :
  builds args n -> process_run (start_process n) obs p ->
  (forall t l, t ∈ proc_tasks p -> work t = ListenerWork l ->
     if is_over (status t) then phase l = Returned else shutdown_sent p = false -> phase l = Accepting) /\
  node_steps (start_listener <$> (bl_id <$> ingest n)) (counted obs) (listeners_of p) /\
  NoDup (joined_names obs) /\
  forall r, proc_phase p = Stopped r ->
    (forall t, t ∈ proc_tasks p -> status t <> TaskRunning) /\
    (exists wakeup drained in_time, supervised obs = observed wakeup drained in_time /\
       r = run_until_shutdown wakeup drained in_time) /\
    (forall e, r = Err e -> blames (proc_tasks p) e) /\
    (exits_with r args = 0%N <->
       ObsCtrlC ∈ obs /\ ~ (ObsElapsed ∈ obs) /\ forall t, t ∈ proc_tasks p -> status t = TaskOver (Ok tt)).
Proof.
  intros Hb Hrun. pose proof (run_inv _ _ _ Hrun (start_inv n)) as Hp. pose proof (run_history _ _ _ Hrun eq_refl) as Hh.
  split; [|split; [|split]].
  - intros t l Hin. destruct Hp as [Ht _ _]. rewrite Forall_forall in Ht. apply (Ht t Hin).
  - rewrite <- started_listeners. by apply run_listeners.
  - apply (run_joins _ _ _ Hrun). unfold start_process. cbn [proc_tasks]. rewrite <- list_fmap_compose. apply spawned_names_NoDup.
  - intros r E. rewrite (main_outcome args n r Hb), <- (stopped_ok_iff p obs r Hp Hh E). rewrite E in Hh.
    split; [|split; [exact Hh|split; [|done]]].
    + intros t Hin. destruct Hp as [Ht _ _]. rewrite E, Forall_forall in Ht. by destruct (Ht t Hin) as [_ _ _ [H _]].
    + intros e ->. apply Hp. by rewrite E.
Qed.
End Claims.

(** ** Witness *)
Section Forward.
Context `{BS : ByteStream Conn}.
Context `{EnvCbor : Cbor OtkEnvelope} `{CborEvent : Cbor OtkEvent} `{CborHeartbeat : Cbor Heartbeat}.
Context `{CborConnect : Cbor Connect} `{CborAck : Cbor ConnectAck} `{CborReject : Cbor ConnectReject}.

Lemma process_cons (p p1 p2 : Process (Conn := Conn)) obs obs' :
  process_step p obs p1 -> process_run p1 obs' p2 -> process_run p (obs ++ obs') p2.
Proof.
  intros Hs Hr. induction Hr as [|obs' p2 obs2 p3 _ IH Hs2].
  - rewrite app_nil_r. rewrite <- (app_nil_l obs). by eapply pr_more; [constructor|].
  - rewrite app_assoc. by eapply pr_more.
Qed.

Lemma process_then (p p1 p2 : Process (Conn := Conn)) o o' obs :
  process_step p o p1 -> o = o' -> process_run p1 obs p2 -> process_run p (o' ++ obs) p2.
Proof. intros Hs -> Hr. by eapply process_cons. Qed.

Lemma process_silent (p p1 p2 : Process (Conn := Conn)) o obs :
  process_step p o p1 -> o = [] -> process_run p1 obs p2 -> process_run p obs p2.
Proof. exact (process_then p p1 p2 o [] obs). Qed.
End Forward.

Abbreviation sample_process_run p obs p' :=
  (@process_run Wire wire_stream sample_wire_cbor sample_connect_cbor sample_ack_cbor sample_reject_cbor p obs p').

(** Ctrl-C, the listener and the API server stop, and both are joined. *)
Lemma clean_stop c b (p : Process (Conn := Wire)) :
  proc_tasks p = [start_task c ("ingest[0]", ListenerTask b); start_task c ("api", ApiTask)] ->
  proc_phase p = Selecting ->
  exists p', sample_process_run p [ObsCtrlC; ObsJoined (Ok ("ingest[0]", Ok tt)); ObsJoined (Ok ("api", Ok tt))] p' /\
    proc_phase p' = Stopped (Ok tt).
Proof.
  destruct p as [ts ph sd st]. simpl. intros -> ->. eexists. split.
  - eapply (process_cons _ _ _ [ObsCtrlC]); [by apply ps_ctrl_c|].
    eapply process_silent; [eapply (ps_listener _ 0); [done|done|by apply step_shutdown]|done|].
    eapply process_silent; [eapply (ps_listener _ 0); [done|done|by apply step_drained]|done|].
    eapply process_silent; [by eapply (ps_listener_returns _ 0)|done|].
    eapply process_silent; [by eapply (ps_api_stops _ 1)|done|].
    eapply (process_then _ _ _ _ [_] [_]); [by eapply (ps_drain_join _ _ 0)|done|].
    eapply (process_then _ _ _ _ [_] []); [by eapply (ps_drain_join _ _ 1)|done|].
    eapply process_silent; [eapply ps_drained; [done|by repeat constructor]|done|]. apply pr_none.
  - done.
Qed.

Lemma supervision_witness :
  exists n, builds (EL := mem) sample_bind_tcp sample_bind_unix sample_bind_api sample_open (fun _ => Err "no such file") [] n /\
  exists obs (p : Process (Conn := Wire)), sample_process_run (start_process n) obs p /\ proc_phase p = Stopped (Ok tt) /\
    forall t, t ∈ proc_tasks p -> status t = TaskOver (Ok tt).
Proof.
  assert (Hn : exists n b, builds (EL := mem) sample_bind_tcp sample_bind_unix sample_bind_api sample_open (fun _ => Err "no such file") [] n /\
    ingest n = [b] /\ config_path n = None) by (vm_compute; do 2 eexists; repeat split; reflexivity).
  destruct Hn as (n & b & Hb & Hi & Hc). exists n. split; [exact Hb|].
  destruct (clean_stop (initial_config n) b (start_process n)) as (p & Hr & Hp); [|done|].
  { unfold start_process, spawn_tasks. cbn [proc_tasks]. by rewrite Hi, Hc. }
  do 2 eexists. split; [exact Hr|]. split; [exact Hp|].
  destruct (supervision _ _ _ _ _ [] n _ p Hb Hr) as (_ & _ & _ & H). destruct (H _ Hp) as (_ & _ & _ & H0).
  apply H0, (main_outcome _ _ _ _ _ [] n _ Hb). done.
Defined.
