(* ===== verification/DevCerts.v ===== *)
(** The development certificates (crate [otk-devcerts]): the command line, the
    nine files it writes, and the configuration it prints.

    Keys, signatures and PEM are those of [rcgen], the class [Rcgen]; a panic
    is [None].  [bundle_connects]: the printed configuration of both ends
    loads from the files that were written; [printed_name_mismatch],
    [unusable_server_name] and [long_validity_panics] are where the tool falls
    short. *)
From stdpp Require Import base gmap strings option numbers list.
From Stdlib Require Import Strings.Byte.
From S2P Require Import Prelude NodeConfig Rustls TlsServer TlsClient RustText.
From S2P Require Producer.

(** ** The command line *)
Inductive SanType := DnsName (name : string) | IpAddress (ip : IpAddr).

Record Args := {
  out : Path;
  server_sans : list SanType;
  server_cn : string;
  client_cn : string;
  days : N
}.

(** The variables of [parse_args]. *)
Record Options := {
  opt_out : option Path;
  opt_sans : option string;
  opt_server_cn : string;
  opt_client_cn : string;
  opt_days : N
}.

Definition options_default : Options :=
  {| opt_out := None; opt_sans := None; opt_server_cn := "localhost"; opt_client_cn := "otk-dev-client"; opt_days := 30 |}.

(** The help text is printed and the process exits with success, or not. *)
Inductive Parsed (A : Type) := AskedHelp | Parse (r : result A string).
Arguments AskedHelp {A}.
Arguments Parse {A} r.

Fixpoint parse_loop (o : Options) (args : list string) : Parsed Options :=
  match args with
  | [] => Parse (Ok o)
  | a :: rest =>
      if bool_decide (a = "-h") || bool_decide (a = "--help") then AskedHelp
      else if bool_decide (a = "--out") then
        match rest with
        | v :: rest => parse_loop {| opt_out := Some (path_of v); opt_sans := opt_sans o; opt_server_cn := opt_server_cn o;
                                     opt_client_cn := opt_client_cn o; opt_days := opt_days o |} rest
        | [] => Parse (Err "--out requires a value")
        end
      else if bool_decide (a = "--server-san") then
        match rest with
        | v :: rest => parse_loop {| opt_out := opt_out o; opt_sans := Some v; opt_server_cn := opt_server_cn o;
                                     opt_client_cn := opt_client_cn o; opt_days := opt_days o |} rest
        | [] => Parse (Err "--server-san requires a value")
        end
      else if bool_decide (a = "--server-cn") then
        match rest with
        | v :: rest => parse_loop {| opt_out := opt_out o; opt_sans := opt_sans o; opt_server_cn := v;
                                     opt_client_cn := opt_client_cn o; opt_days := opt_days o |} rest
        | [] => Parse (Err "--server-cn requires a value")
        end
      else if bool_decide (a = "--client-cn") then
        match rest with
        | v :: rest => parse_loop {| opt_out := opt_out o; opt_sans := opt_sans o; opt_server_cn := opt_server_cn o;
                                     opt_client_cn := v; opt_days := opt_days o |} rest
        | [] => Parse (Err "--client-cn requires a value")
        end
      else if bool_decide (a = "--days") then
        match rest with
        | v :: rest =>
            match parse_u32 v with
            | Ok d => parse_loop {| opt_out := opt_out o; opt_sans := opt_sans o; opt_server_cn := opt_server_cn o;
                                    opt_client_cn := opt_client_cn o; opt_days := d |} rest
            | Err e => Parse (Err ("--days: " +:+ e))
            end
        | [] => Parse (Err "--days requires a value")
        end
      else Parse (Err ("unknown argument: " +:+ a))
  end.

(** The parameters of a certificate that the tool sets. *)
Inductive IsCa := CaUnconstrained | NoCa.
Inductive KeyUsagePurpose := KeyCertSign | CrlSign | DigitalSignature | KeyEncipherment.
Inductive ExtendedKeyUsagePurpose := ServerAuth | ClientAuth.

Record CertificateParams (Time : Type) := {
  is_ca : IsCa;
  key_usages : list KeyUsagePurpose;
  extended_key_usages : list ExtendedKeyUsagePurpose;
  subject_alt_names : list SanType;
  common_name : string;
  not_after : Time
}.
Arguments is_ca {Time} _.
Arguments extended_key_usages {Time} _.
Arguments subject_alt_names {Time} _.
Arguments common_name {Time} _.
Arguments not_after {Time} _.

Class Rcgen : Type := {
  KeyPair : Type;
  Certificate : Type;
  OffsetDateTime : Type;
  (** [Ia5String::try_from]: the string itself, or an error. *)
  ia5_check : string -> result unit string;
  (** [CertificateParams::new] without names. *)
  params_new : result unit string;
  from_unix_timestamp : Z -> option OffsetDateTime;
  (** The [n]th random key of the process. *)
  key_generate : nat -> result KeyPair string;
  self_signed : CertificateParams OffsetDateTime -> KeyPair -> result Certificate string;
  signed_by : CertificateParams OffsetDateTime -> KeyPair -> Certificate -> KeyPair -> result Certificate string;
  cert_pem : Certificate -> bytes;
  key_pem : KeyPair -> bytes
}.

Section DevCerts.
Context `{G : Rcgen}.
(** The [Debug] form of a string. *)
Variable debug : string -> string.

Definition parse_san (entry : bytes) : result SanType string :=
  match split_once_at ":"%byte entry with
  | None => Err ("SAN entry " +:+ debug (bytes_str entry) +:+ " must be `DNS:<name>` or `IP:<addr>`")
  | Some (kind, value) =>
      let kind := bytes_str (to_ascii_uppercase <$> kind) in
      if bool_decide (kind = "DNS") then
        let? _ := map_err (fun e => "SAN DNS value " +:+ debug (bytes_str value) +:+ " rejected: " +:+ e)
                    (ia5_check (bytes_str value)) in
        Ok (DnsName (bytes_str value))
      else if bool_decide (kind = "IP") then
        match parse_ip value with
        | Some ip => Ok (IpAddress ip)
        | None => Err ("SAN IP value " +:+ debug (bytes_str value) +:+ ": invalid IP address syntax")
        end
      else Err ("unknown SAN kind " +:+ debug kind +:+ " in " +:+ debug (bytes_str entry))
  end.

Fixpoint parse_entries (entries : list bytes) : result (list SanType) string :=
  match entries with
  | [] => Ok []
  | entry :: entries => let? san := parse_san entry in let? sans := parse_entries entries in Ok (san :: sans)
  end.

(** The entries of a list: between commas, trimmed, not empty. *)
Definition san_entries (raw : string) : list bytes :=
  filter (fun s => s <> []) (trim <$> split_on ","%byte (str_bytes raw)).

Definition parse_sans (raw : string) : result (list SanType) string := parse_entries (san_entries raw).

Definition DEFAULT_SANS : string := "DNS:localhost,IP:127.0.0.1,IP:::1".

Definition parse_args (args : list string) : Parsed Args :=
  match parse_loop options_default args with
  | AskedHelp => AskedHelp
  | Parse (Err e) => Parse (Err e)
  | Parse (Ok o) =>
      match opt_out o with
      | None => Parse (Err "--out is required")
      | Some out =>
          match parse_sans (default DEFAULT_SANS (opt_sans o)) with
          | Err e => Parse (Err e)
          | Ok [] => Parse (Err "--server-san produced an empty SAN list")
          | Ok sans => Parse (Ok {| out := out; server_sans := sans; server_cn := opt_server_cn o;
                                    client_cn := opt_client_cn o; days := opt_days o |})
          end
      end
  end.

(** ** The certificates *)

(** [secs as i64]. *)
Definition as_i64 (n : N) : Z :=
  if (n <? 9223372036854775808)%N then Z.of_N n else (Z.of_N n - 18446744073709551616)%Z.

(** [now] is the clock in seconds since the epoch. *)
Definition days_from_now (now days : N) : option OffsetDateTime :=
  from_unix_timestamp (as_i64 (saturating_add64 now (saturating_mul64 days 86400))).

Record Issued := { cert : Certificate; key : KeyPair }.

(** [n] counts the keys; [clock] is read once for each. *)
Variable clock : nat -> N.

Definition issue_ca (n : nat) (name : string) (days : N) : option (result Issued string) :=
  let?! _ := Some params_new in
  let! until := days_from_now (clock n) days in
  let?! key := Some (key_generate n) in
  let params := {| is_ca := CaUnconstrained; key_usages := [KeyCertSign; CrlSign; DigitalSignature];
                   extended_key_usages := []; subject_alt_names := []; common_name := name; not_after := until |} in
  let?! cert := Some (self_signed params key) in
  Some (Ok {| cert := cert; key := key |}).

Definition issue_leaf (n : nat) (issuer : Issued) (name : string) (sans : list SanType)
    (ekus : list ExtendedKeyUsagePurpose) (days : N) : option (result Issued string) :=
  let?! _ := Some params_new in
  let! until := days_from_now (clock n) days in
  let?! leaf_key := Some (key_generate n) in
  let params := {| is_ca := NoCa; key_usages := [DigitalSignature; KeyEncipherment];
                   extended_key_usages := ekus; subject_alt_names := sans; common_name := name; not_after := until |} in
  let?! leaf := Some (signed_by params leaf_key (cert issuer) (key issuer)) in
  Some (Ok {| cert := leaf; key := leaf_key |}).

(** ** Writing *)
Abbreviation Disk := (gmap Path bytes).

(** The error of [create_dir_all]; of the [i]th [fs::write], and how much of
    the file it leaves if it was opened. *)
Variable mkdir_error : option string.
Variable write_error : nat -> option (string * option nat).

Definition write_pem (i : nat) (dir : Path) (name : string) (contents : bytes) (d : Disk) : result unit string * Disk :=
  let path := dir ++ [name] in
  match write_error i with
  | None => (Ok tt, <[path := contents]> d)
  | Some (e, None) => (Err e, d)
  | Some (e, Some n) => (Err e, <[path := take n contents]> d)
  end.

(** The calls of [write_pem], one after the other. *)
Fixpoint write_pems (i : nat) (dir : Path) (files : list (string * bytes)) (d : Disk) : result unit string * Disk :=
  match files with
  | [] => (Ok tt, d)
  | (name, contents) :: files =>
      match write_pem i dir name contents d with
      | (Ok _, d) => write_pems (S i) dir files d
      | (Err e, d) => (Err e, d)
      end
  end.

Definition bundle (server_ca server_leaf client_ca client_leaf : Issued) : list (string * bytes) :=
  let server_cert_pem := cert_pem (cert server_leaf) in
  let server_ca_pem := cert_pem (cert server_ca) in
  let server_chain := server_cert_pem ++ server_ca_pem in
  [("server-ca.pem", server_ca_pem); ("server-ca-key.pem", key_pem (key server_ca));
   ("server-cert.pem", server_cert_pem); ("server-key.pem", key_pem (key server_leaf));
   ("server-chain.pem", server_chain);
   ("client-ca.pem", cert_pem (cert client_ca)); ("client-ca-key.pem", key_pem (key client_ca));
   ("client-cert.pem", cert_pem (cert client_leaf)); ("client-key.pem", key_pem (key client_leaf))].

(** The four pairs that [run] issues. *)
Definition issue_all (args : Args) : option (result (Issued * Issued * Issued * Issued) string) :=
  let?! server_ca := issue_ca 0 "otk-dev-server-ca" (days args) in
  let?! server_leaf := issue_leaf 1 server_ca (server_cn args) (server_sans args) [ServerAuth] (days args) in
  let?! client_ca := issue_ca 2 "otk-dev-client-ca" (days args) in
  let?! client_leaf := issue_leaf 3 client_ca (client_cn args) [] [ClientAuth] (days args) in
  Some (Ok (server_ca, server_leaf, client_ca, client_leaf)).

Definition run (args : Args) (d : Disk) : option (result unit string * Disk) :=
  match mkdir_error with
  | Some e => Some (Err e, d)
  | None =>
      let! issued := issue_all args in
      match issued with
      | Err e => Some (Err e, d)
      | Ok (server_ca, server_leaf, client_ca, client_leaf) =>
          Some (write_pems 0 (out args) (bundle server_ca server_leaf client_ca client_leaf) d)
      end
  end.

(** The configuration that [main] prints for a node and for a producer. *)
Definition server_config (args : Args) : TlsConfig :=
  {| tls_cert_chain := out args ++ ["server-chain.pem"]; tls_private_key := out args ++ ["server-key.pem"];
     tls_client_ca := Some (out args ++ ["client-ca.pem"]) |}.

Definition producer_config (args : Args) : TlsClientConfig :=
  {| trust_roots := out args ++ ["server-ca.pem"]; server_name := server_cn args;
     client_cert := Some (out args ++ ["client-cert.pem"]); client_key := Some (out args ++ ["client-key.pem"]) |}.

(** The exit code and what is printed on success. *)
Definition main (argv : list string) (d : Disk) : option (N * option (TlsConfig * TlsClientConfig) * Disk) :=
  match parse_args argv with
  | AskedHelp => Some (0%N, None, d)
  | Parse (Err _) => Some (2%N, None, d)
  | Parse (Ok args) =>
      let! (r, d) := run args d in
      match r with
      | Err _ => Some (1%N, None, d)
      | Ok _ => Some (0%N, Some (server_config args, producer_config args), d)
      end
  end.
End DevCerts.

(** ** What the libraries promise each other *)

(** PEM of one is read by the other; an issued certificate goes with its key,
    and a self-signed authority can be a trust root. *)
Class BundleLaws `{R : Rustls} `{G : Rcgen} : Type := {
  certificate_der : Certificate -> CertificateDer;
  private_key_der : KeyPair -> PrivateKeyDer;
  pem_certs_ok cs : pem_certs (Ok (concat (cert_pem <$> cs))) = Ok (certificate_der <$> cs);
  pem_key_ok k : pem_private_key (Ok (key_pem k)) = Ok (Some (private_key_der k));
  authority_is_root params k c roots :
    is_ca params = CaUnconstrained -> self_signed params k = Ok c -> is_ok (roots_add (certificate_der c) roots) = true;
  root_verifies c roots : roots_add c roots_empty = Ok roots -> is_ok (client_verifier roots) = true;
  server_key_matches params k ca cak c v chain :
    signed_by params k ca cak = Ok c -> is_ok (with_single_cert v (certificate_der c :: chain) (private_key_der k)) = true;
  client_key_matches params k ca cak c roots chain :
    signed_by params k ca cak = Ok c -> is_ok (with_client_auth_cert roots (certificate_der c :: chain) (private_key_der k)) = true
}.

Lemma is_ok_inv {A E} (r : result A E) : is_ok r = true -> exists a, r = Ok a.
Proof. destruct r; [eauto|done]. Qed.

(** ** The bundle *)
Section Bundle.
Context `{R : Rustls} `{G : Rcgen} `{!BundleLaws}.
Variable debug : string -> string.
Variable clock : nat -> N.
Variable mkdir_error : option string.
Variable write_error : nat -> option (string * option nat).

(** The directory as both ends read it. *)
Definition files_of (d : gmap Path bytes) : Files := fun p =>
  match d !! p with Some content => Ok (Ok content) | None => Err "No such file or directory" end.

Lemma write_pems_ok i dir files d d' :
  NoDup files.*1 -> write_pems write_error i dir files d = (Ok tt, d') ->
  (forall name contents, (name, contents) ∈ files -> d' !! (dir ++ [name]) = Some contents) /\
  (forall p, (forall name, name ∈ files.*1 -> p <> dir ++ [name]) -> d' !! p = d !! p).
Proof.
  revert i d. induction files as [|[name c] files IH]; intros i d Hnd; simpl.
  { intros [= <-]. split; [|done]. intros n c. by rewrite elem_of_nil. }
  simpl in Hnd. apply NoDup_cons in Hnd as [Hni Hnd]. unfold write_pem.
  destruct (write_error i) as [[e [n|]]|]; try done. intros [Hin Hout]%IH; [|done]. split.
  - intros n' c' [[= -> ->]|Hin']%elem_of_cons; [|by apply Hin]. rewrite Hout; [apply lookup_insert_eq|].
    intros n Hn E. apply app_inj_2 in E as [_ [= ->]]; [done|done].
  - intros p Hp. rewrite Hout; [|intros n Hn; apply Hp; by right]. apply lookup_insert_ne. intros E. by apply (Hp name); [left|].
Qed.

(** The leaf is signed by the authority, for this use and these names. *)
Definition issued_by (ca leaf : Issued) (cn : string) (sans : list SanType) (eku : ExtendedKeyUsagePurpose) : Prop :=
  (exists p, is_ca p = CaUnconstrained /\ self_signed p (key ca) = Ok (cert ca)) /\
  exists p, signed_by p (key leaf) (cert ca) (key ca) = Ok (cert leaf) /\ is_ca p = NoCa /\
    common_name p = cn /\ subject_alt_names p = sans /\ extended_key_usages p = [eku].

Lemma issue_ca_ok n name days ca :
  issue_ca clock n name days = Some (Ok ca) -> exists p, is_ca p = CaUnconstrained /\ self_signed p (key ca) = Ok (cert ca).
Proof.
  unfold issue_ca. destruct params_new; [|done]. destruct (days_from_now _ _) as [t|]; [|done].
  destruct (key_generate n) as [k|]; [|done]. cbv zeta. destruct (self_signed _ k) eqn:E; [|done]. intros [= <-].
  eexists. split; [|exact E]. done.
Qed.

Lemma issue_leaf_ok n ca name sans ekus days leaf :
  issue_leaf clock n ca name sans ekus days = Some (Ok leaf) ->
  exists p, signed_by p (key leaf) (cert ca) (key ca) = Ok (cert leaf) /\ is_ca p = NoCa /\
    common_name p = name /\ subject_alt_names p = sans /\ extended_key_usages p = ekus.
Proof.
  unfold issue_leaf. destruct params_new; [|done]. destruct (days_from_now _ _) as [t|]; [|done].
  destruct (key_generate n) as [k|]; [|done]. cbv zeta. destruct (signed_by _ k _ _) eqn:E; [|done]. intros [= <-].
  eexists. split; [exact E|]. done.
Qed.

Lemma issue_all_ok args sca sl cca cl :
  issue_all clock args = Some (Ok (sca, sl, cca, cl)) ->
  issued_by sca sl (server_cn args) (server_sans args) ServerAuth /\ issued_by cca cl (client_cn args) [] ClientAuth.
Proof.
  unfold issue_all. destruct (issue_ca _ _ _ _) as [[a|]|] eqn:E1; try done.
  destruct (issue_leaf _ _ _ _ _ _ _) as [[b|]|] eqn:E2; try done.
  destruct (issue_ca clock 2 _ _) as [[c|]|] eqn:E3; try done.
  destruct (issue_leaf clock 3 _ _ _ _ _) as [[e|]|] eqn:E4; try done. intros [= <- <- <- <-].
  apply issue_ca_ok in E1, E3. apply issue_leaf_ok in E2, E4. done.
Qed.

(** A file that holds these certificates, one after the other. *)
Lemma certs_written d p cs :
  cs <> [] -> d !! p = Some (concat (cert_pem <$> cs)) -> certs_at (files_of d) p (certificate_der <$> cs).
Proof.
  intros Hcs E. split; [by destruct cs|]. exists (Ok (concat (cert_pem <$> cs))). unfold files_of. rewrite E.
  split; [done|]. apply pem_certs_ok.
Qed.

Lemma key_written d p k : d !! p = Some (key_pem k) -> key_at (files_of d) p (private_key_der k).
Proof. intros E. exists (Ok (key_pem k)). unfold files_of. rewrite E. split; [done|]. apply pem_key_ok. Qed.

Lemma bundle_names sca sl cca cl : NoDup ((bundle sca sl cca cl).*1).
Proof. apply (bool_decide_unpack _). vm_compute. exact I. Qed.

Ltac in_bundle := apply list_elem_of_In; unfold bundle; cbn; repeat (first [left; reflexivity | right]).

(** Each of the two configurations loads from a directory with the bundle. *)
Lemma node_loads d args sca sl cca cl v0 :
  (forall name contents, (name, contents) ∈ bundle sca sl cca cl -> d !! (out args ++ [name]) = Some contents) ->
  issued_by sca sl (server_cn args) v0 ServerAuth -> issued_by cca cl (client_cn args) [] ClientAuth ->
  exists a v, material_of (files_of d) (server_config args) (certificate_der <$> [cert sl; cert sca]) (Some v) a /\
    certs_at (files_of d) (out args ++ ["client-ca.pem"]) (certificate_der <$> [cert cca]).
Proof.
  intros Hin [_ (p & Hs & _)] [(q & Hq & Hself) _].
  assert (Hca : certs_at (files_of d) (out args ++ ["client-ca.pem"]) (certificate_der <$> [cert cca])).
  { apply certs_written; [done|]. simpl. rewrite app_nil_r. apply Hin. in_bundle. }
  destruct (is_ok_inv _ (authority_is_root q _ _ roots_empty Hq Hself)) as (roots & Hr).
  destruct (is_ok_inv _ (root_verifies _ _ Hr)) as (v & Hv).
  destruct (is_ok_inv _ (server_key_matches p _ _ _ _ (Some v) [certificate_der (cert sca)] Hs)) as (a & Ha).
  exists a, v. split; [|done]. split; [|split].
  - apply certs_written; [done|]. simpl. rewrite app_nil_r. apply Hin. in_bundle.
  - exists (certificate_der <$> [cert cca]), roots, v. split; [done|]. split; [simpl; by rewrite Hr|done].
  - exists (private_key_der (key sl)). split; [|done]. apply key_written, Hin. in_bundle.
Qed.

Lemma producer_loads d args sca sl cca cl v0 :
  (forall name contents, (name, contents) ∈ bundle sca sl cca cl -> d !! (out args ++ [name]) = Some contents) ->
  issued_by sca sl (server_cn args) v0 ServerAuth -> issued_by cca cl (client_cn args) [] ClientAuth ->
  exists client, client_material (files_of d) (producer_config args) (certificate_der <$> [cert sca]) client /\
    certs_at (files_of d) (out args ++ ["client-cert.pem"]) (certificate_der <$> [cert cl]).
Proof.
  intros Hin [(q & Hq & Hself) _] [_ (p & Hs & _)].
  assert (Hcl : certs_at (files_of d) (out args ++ ["client-cert.pem"]) (certificate_der <$> [cert cl])).
  { apply certs_written; [done|]. simpl. rewrite app_nil_r. apply Hin. in_bundle. }
  destruct (is_ok_inv _ (authority_is_root q _ _ roots_empty Hq Hself)) as (roots & Hr).
  destruct (is_ok_inv _ (client_key_matches p _ _ _ _ roots [] Hs)) as (client & Hc).
  exists client. split; [|done]. split.
  - apply certs_written; [done|]. simpl. rewrite app_nil_r. apply Hin. in_bundle.
  - exists roots. split; [simpl; by rewrite Hr|]. exists (certificate_der <$> [cert cl]), (private_key_der (key cl)).
    split; [done|]. split; [|done]. apply key_written, Hin. in_bundle.
Qed.

(** C22: The development certificates work with the configuration printed for
    them.  When the tool reports success, a node with the printed TLS block
    gets its acceptor: it presents the server certificate with its authority,
    and asks clients for a certificate of the client authority alone.  A
    producer with the printed block loads its material: it trusts the
    server authority alone, and shows the client certificate; and it gets its
    TLS configuration unless the common name that the tool was given, which it
    prints as the server name without looking at it, is no server name, and
    then it is refused with that error.  Both
    certificates are signed by these authorities, for the requested names and
    the right use; and no other file was touched. *)
Theorem bundle_connects argv d d' srv prod :
  main debug clock mkdir_error write_error argv d = Some (0%N, Some (srv, prod), d') ->
  exists args server_ca server_leaf client_ca client_leaf,
    parse_args debug argv = Parse (Ok args) /\ server_name prod = server_cn args /\
    issued_by server_ca server_leaf (server_cn args) (server_sans args) ServerAuth /\
    issued_by client_ca client_leaf (client_cn args) [] ClientAuth /\
    (exists a v, build_tls_acceptor (files_of d') srv = Ok a /\
       material_of (files_of d') srv (certificate_der <$> [cert server_leaf; cert server_ca]) (Some v) a /\
       forall ca, tls_client_ca srv = Some ca -> certs_at (files_of d') ca (certificate_der <$> [cert client_ca])) /\
    (exists client, client_material (files_of d') prod (certificate_der <$> [cert server_ca]) client /\
       client_config (files_of d') debug prod =
         match server_name_try_from (server_cn args) with
         | Ok name => Ok (client, name)
         | Err e => Err (Producer.PConfig ("invalid SNI server name " +:+ debug (server_cn args) +:+ ": " +:+ e))
         end /\
       forall c, client_cert prod = Some c -> certs_at (files_of d') c (certificate_der <$> [cert client_leaf])) /\
    forall p, removelast p <> out args -> d' !! p = d !! p.
Proof.
  intros Hmain. unfold main in Hmain. destruct (parse_args debug argv) as [|[args|e]]; [done| |done].
  destruct (run _ _ _ _ _) as [[[[]|e] d1]|] eqn:Hrun; [|done..]. injection Hmain as <- <- <-.
  unfold run in Hrun. destruct mkdir_error; [done|].
  destruct (issue_all clock args) as [[[[[sca sl] cca] cl]|]|] eqn:Hi; [|done..]. apply (inj Some) in Hrun as Hw.
  apply issue_all_ok in Hi as [Hs Hc]. apply write_pems_ok in Hw as [Hin Hout]; [|apply bundle_names].
  exists args, sca, sl, cca, cl. do 4 (split; [done|]).
  destruct (node_loads _ _ _ _ _ _ _ Hin Hs Hc) as (a & v & Hm & Hca).
  destruct (producer_loads _ _ _ _ _ _ _ Hin Hs Hc) as (client & Hcm & Hcl). split; [|split].
  - exists a, v. split; [apply build_tls_acceptor_ok; eauto|]. split; [done|]. by intros ca [= <-].
  - exists client. split; [done|]. split; [exact (client_config_named _ _ _ _ _ Hcm)|]. by intros c [= <-].
  - intros p Hp. apply Hout. intros n _ ->. by rewrite removelast_last in Hp.
Qed.
End Bundle.

(** ** Where the tool falls short *)

(** [OffsetDateTime] ends with the year 9999: a validity of more than about
    8000 years passes the parser and panics. *)
Lemma long_validity_panics `{G : Rcgen} clock write_error args d :
  (forall t, (253402300799 < t)%Z -> from_unix_timestamp t = None) -> is_ok params_new = true ->
  (2932897 <= days args <= u32_max)%N -> (clock O <= 4000000000)%N ->
  run clock None write_error args d = None.
Proof.
  intros Hmax Hp Hd Hc. apply is_ok_inv in Hp as [[] Hp]. unfold run, issue_all, issue_ca. rewrite Hp.
  unfold days_from_now, as_i64, saturating_add64, saturating_mul64, u64_max, u32_max in *.
  rewrite (proj2 (N.ltb_lt _ _)) by lia. rewrite Hmax; [done|lia].
Qed.

(** ** A concrete run

    A certificate is known by its key, one of four. *)
Definition Pair : Type := bool * bool.

Definition letter (base : N) (k : Pair) : byte :=
  byte_of_N (base + (if fst k then 2 else 0) + (if snd k then 1 else 0)).

Definition from_letter (base : N) (b : byte) : option Pair :=
  head (filter (fun k => letter base k = b) [(false, false); (false, true); (true, false); (true, true)]).

#[export] Instance sample_rustls : Rustls := {
  CertificateDer := Pair; PrivateKeyDer := Pair; RootCertStore := list Pair; ClientCertVerifier := list Pair;
  TlsAcceptor := option (list Pair) * list Pair; ClientTls := list Pair * option (list Pair); ServerName := string;
  pem_certs content := let? bs := content in Ok (omap (from_letter 65) bs);
  pem_private_key content := let? bs := content in Ok (head (omap (from_letter 97) bs));
  roots_empty := [];
  roots_add c roots := Ok (roots ++ [c]);
  client_verifier roots := match roots with [] => Err "no roots" | _ => Ok roots end;
  with_single_cert v chain k := if bool_decide (head chain = Some k) then Ok (v, chain) else Err "KeyMismatch";
  with_client_auth_cert roots chain k := if bool_decide (head chain = Some k) then Ok (roots, Some chain) else Err "KeyMismatch";
  with_no_client_auth roots := (roots, None);
  server_name_try_from s :=
    if forallb (fun b => negb (bool_decide (b = " "%byte))) (str_bytes s) then Ok s else Err "invalid dns name"
}.

#[export] Instance sample_rcgen : Rcgen := {
  KeyPair := Pair; Certificate := Pair; OffsetDateTime := Z;
  ia5_check s := Ok tt;
  params_new := Ok tt;
  from_unix_timestamp t := if (t <=? 253402300799)%Z then Some t else None;
  key_generate n := Ok (match n with 0 => (false, false) | 1 => (false, true) | 2 => (true, false) | _ => (true, true) end);
  self_signed p k := match is_ca p with CaUnconstrained => Ok k | NoCa => Err "not an authority" end;
  signed_by p k _ _ := Ok k;
  cert_pem c := [letter 65 c];
  key_pem k := [letter 97 k]
}.

Lemma from_letter_ok base k : base = 65%N \/ base = 97%N -> from_letter base (letter base k) = Some k.
Proof. intros [->| ->]; destruct k as [[] []]; vm_compute; reflexivity. Qed.

#[export] Instance sample_bundle_laws : BundleLaws.
Proof.
  refine {| certificate_der := fun c : @Certificate sample_rcgen => c; private_key_der := fun k : @KeyPair sample_rcgen => k |}.
  - intros cs. simpl. f_equal. induction cs as [|c cs IH]; [done|]. simpl. rewrite from_letter_ok by tauto. exact (f_equal (cons c) IH).
  - intros k. simpl. by rewrite from_letter_ok by tauto.
  - done.
  - intros c roots [= <-]. done.
  - intros p k ca cak c v chain [= <-]. simpl. by rewrite bool_decide_eq_true_2.
  - intros p k ca cak c roots chain [= <-]. simpl. by rewrite bool_decide_eq_true_2.
Qed.

Definition quoted (s : string) : string := "'" +:+ s +:+ "'".

(** The usage of the documentation. *)
Definition documented_usage : list string :=
  ["--out"; "./dev-certs"; "--server-san"; "DNS:otk-node.lan,IP:192.168.1.50"; "--days"; "365"].

Definition documented_args : Args :=
  {| out := ["."; "dev-certs"]; server_sans := [DnsName "otk-node.lan"; IpAddress (V4 [192; 168; 1; 50])%N];
     server_cn := "localhost"; client_cn := "otk-dev-client"; days := 365 |}.

Example documented_parse : parse_args quoted documented_usage = Parse (Ok documented_args).
Proof. vm_compute. reflexivity. Qed.

(** The server name printed for the documented usage is not a name of the
    certificate, which the line printed with it says it must be. *)
Example printed_name_mismatch :
  DnsName (server_name (producer_config documented_args)) ∉ server_sans documented_args.
Proof. unfold documented_args. simpl. rewrite !not_elem_of_cons. repeat split; try done. apply not_elem_of_nil. Qed.

Example default_names : parse_sans quoted DEFAULT_SANS =
  Ok [DnsName "localhost"; IpAddress (V4 [127; 0; 0; 1]); IpAddress (V6 [0; 0; 0; 0; 0; 0; 0; 1])]%N.
Proof. vm_compute. reflexivity. Qed.

Example bad_names : (fun s => is_ok (parse_sans quoted s)) <$> ["localhost"; "URI:x"; "IP:300.1.1.1"; " dns:a , ,ip:::1 "] =
  [false; false; false; true].
Proof. vm_compute. reflexivity. Qed.

Example usage_errors : (fun argv => fst <$> main quoted (fun _ => 0%N) None (fun _ => None) argv ∅) <$>
  [[]; ["--help"]; ["--days"; "3d"]; ["--out"; "x"; "--server-san"; ","]; ["--out"; "x"; "--days"; "4294967295"]] =
  [Some (2, None); Some (0, None); Some (2, None); Some (2, None); None]%N.
Proof. vm_compute. reflexivity. Qed.

Abbreviation documented_main := (main quoted (fun _ => 0%N) None (fun _ => None) documented_usage ∅).

Example documented_run :
  fst <$> documented_main = Some (0%N, Some (server_config documented_args, producer_config documented_args)).
Proof. vm_compute. reflexivity. Qed.

Lemma bundle_connects_witness :
  exists d a client,
    documented_main = Some (0%N, Some (server_config documented_args, producer_config documented_args), d) /\
    build_tls_acceptor (files_of d) (server_config documented_args) = Ok a /\
    @client_config sample_rustls (files_of d) quoted (producer_config documented_args) = Ok (client, "localhost").
Proof.
  assert (exists d, documented_main = Some (0%N, Some (server_config documented_args, producer_config documented_args), d))
    as [d E].
  { pose proof documented_run as H. destruct documented_main as [[r d]|]; [|discriminate H].
    exists d. f_equal. f_equal. by injection H. }
  destruct (@bundle_connects sample_rustls sample_rcgen sample_bundle_laws quoted (fun _ => 0%N) None (fun _ => None)
    documented_usage ∅ d (server_config documented_args) (producer_config documented_args) E)
    as (args & sca & sl & cca & cl & _ & Hn & _ & _ & (a & v & Ha & _) & (client & _ & Hc & _) & _).
  rewrite <- Hn in Hc. exists d, a, client. split; [exact E|]. split; [exact Ha|exact Hc].
Defined.

(** A common name that is no server name: the tool reports success, and the
    SDK refuses what it printed. *)
Definition spaced_usage : list string := ["--out"; "dev-certs"; "--server-cn"; "dev node"].

Example unusable_server_name :
  match main quoted (fun _ => 0%N) None (fun _ => None) spaced_usage ∅ with
  | Some (status, Some (_, prod), d) =>
      status = 0%N /\ server_name prod = "dev node" /\
      @client_config sample_rustls (files_of d) quoted prod =
        Err (Producer.PConfig "invalid SNI server name 'dev node': invalid dns name")
  | _ => False
  end.
Proof. vm_compute. split_and!; reflexivity. Qed.
