(* ===== verification/SimulatorMain.v ===== *)
(** The program of the simulator (crate [producer-simulated], [main.rs]): the
    command line, the transport and the credentials it connects with, and its
    exit code. *)
From stdpp Require Import base strings option numbers list.
From Stdlib Require Import Strings.Byte.
From S2P Require Import Prelude EventModel Producer NodeConfig NodeSupervisor Rustls TlsClient RustText DevCerts.
From S2P Require Simulator.

(** [load_from_file]: reading and parsing the file; [None] is an error. *)
Definition Loader : Type := Path -> option Simulator.SimulatorConfig.

(** The configuration, or the exit code. *)
Definition parse_config (load_from_file : Loader) (args : list string) : Simulator.SimulatorConfig + N :=
  match args with
  | "--config" :: path :: _ =>
      match load_from_file (path_of path) with Some c => inl c | None => inr 1%N end
  | ["--config"] => inr 1%N
  | _ :: _ => inr 1%N
  | [] => inl Simulator.simulator_default
  end.

(** [node_addr] is the parsed address of the configuration. *)
Definition sim_transport (node_addr : SocketAddr) (c : Simulator.SimulatorConfig) : Transport :=
  match Simulator.sc_tls c with
  | Some tls => Tls node_addr
      {| trust_roots := path_of (Simulator.tls_trust_roots tls); server_name := Simulator.tls_server_name tls;
         client_cert := path_of <$> Simulator.tls_client_cert tls; client_key := path_of <$> Simulator.tls_client_key tls |}
  | None => Tcp node_addr
  end.

Definition sim_producer_config (c : Simulator.SimulatorConfig) : ProducerConfig :=
  {| cfg_producer_id := Simulator.sc_producer_id c; cfg_streams := []; cfg_max_frame_bytes := MAX_FRAME_BYTES;
     cfg_auth_token := Simulator.sc_auth_token c |}.

(** What is logged as the transport. *)
Definition tls_mode (c : Simulator.SimulatorConfig) : string :=
  match Simulator.sc_tls c with
  | Some t => if bool_decide (is_Some (Simulator.tls_client_cert t)) then "mtls" else "tls"
  | None => "tcp"
  end.

(** How the task of [run] ended; Ctrl-C may have come first, which tells the
    task to shut down. *)
Inductive RunJoin := RunFinished (r : result unit string) | RunPanicked.

Definition sim_exit (interrupted : bool) (joined : RunJoin) : N :=
  if interrupted then 0%N
  else match joined with RunFinished (Ok _) => 0%N | RunFinished (Err _) => 1%N | RunPanicked => 1%N end.

Definition sim_main (load_from_file : Loader) (args : list string) (run : Simulator.SimulatorConfig -> bool * RunJoin) : N :=
  match parse_config load_from_file args with
  | inr code => code
  | inl c => let (interrupted, joined) := run c in sim_exit interrupted joined
  end.

(** The transport that is logged is the one that is used: a TLS configuration
    that loads presents a client certificate exactly when the log says mtls. *)
Lemma sim_identity `{R : Rustls} addr c t files debug client name :
  Simulator.sc_tls c = Some t ->
  match sim_transport addr c with
  | Tls _ cfg => client_config files debug cfg = Ok (client, name) ->
      (tls_mode c = "mtls" <-> exists certs chain roots key, certs_at files (trust_roots cfg) certs /\
         add_roots certs roots_empty = Ok roots /\ with_client_auth_cert roots chain key = Ok client /\
         is_Some (client_cert cfg) /\ is_Some (client_key cfg))
  | Tcp _ => False
  end.
Proof.
  intros E. unfold sim_transport, tls_mode. rewrite E. intros (Hn & certs & Hc & roots & Hr & Hm)%client_config_ok.
  cbn [client_cert client_key] in Hm. destruct (Simulator.tls_client_cert t) as [cert|], (Simulator.tls_client_key t) as [key|]; try done.
  - rewrite bool_decide_eq_true_2 by eauto. split; [|done]. intros _. destruct Hm as (chain & k & _ & _ & Ha).
    exists certs, chain, roots, k. split; [exact Hc|]. by eauto.
  - rewrite bool_decide_eq_false_2 by (by intros [? ?]). split; [done|]. intros (? & ? & ? & ? & _ & _ & _ & [? [=]] & _).
Qed.

Example sim_command_lines :
  (fun args => sim_main (fun _ => None) args (fun _ => (false, RunFinished (Ok tt)))) <$>
    [[]; ["--config"]; ["--config"; "missing.toml"]; ["--verbose"]] = [0; 1; 1; 1]%N.
Proof. reflexivity. Qed.
